(* ===== verification/_CoqProject ===== *)
-Q . S2P
Prelude.v
Runs.v
Float64.v
Otlp.v
Io.v
AggValues.v
AggStats.v
AggState.v
AggIngest.v
AggInv.v
AggCodex.v
AggBatch.v
AggFrame.v
AggSources.v
AggClaude.v
AggCost.v
AggRefine.v
AggQuiet.v
AggMerge.v
AggBalance.v
Aggregator.v
Text.v
Path.v
Storage.v
Health.v
Pretty.v
Target.v
Unicode.v
FloatText.v
Quote.v
Config.v
Admission.v
Cli.v
Channel.v
Router.v
Client.v
Worker.v
WorkerLife.v
Rotation.v
Sink.v
DailyLog.v
Http.v
Grpc.v
Receiving.v
ReceivingLive.v
ReceivingRuns.v
ProtoJson.v
Diagnostics.v
Format.v
Server.v
Listeners.v
Process.v
Main.v
Whole.v
WholeDaily.v
WholeLive.v
Forwarding.v
Private.v
