(* ===== verification/Prelude.v ===== *)
(** * otel-logger: a verification development

    otel-logger receives OpenTelemetry logs, traces and metrics from coding agents over gRPC
    and HTTP, appends every request to a JSON Lines file, keeps usage totals per agent, shows
    the records to people and forwards them to upstream collectors.  This library embeds the
    program's own logic shallowly: pure functions are functions, stateful code passes its
    state, fallible code returns [result], concurrent code is a step relation whose steps are
    the atomic accesses of the source.  Definitions keep the names of the source; where several
    functions share a name the owner is put in front ([stats_add], [router_snapshot]).

    ** The program and the files that model it

    A request passes, in this order, through the parts below.

    - [Admission.v] ([src/src/admission.rs]): the limit on requests processed and waiting at
      once, as interleavings of the accesses of all requests to semaphore and counter.
    - [Sink.v] ([Sink::record_*], [shutdown] in [src/src/sink.rs]): a request is written,
      counted, then shown and forwarded.  [server] is the sink with all its handlers and the
      shutdown; [step] interleaves them.
    - [Storage.v] ([src/src/storage.rs]): the append-only files.  [append] is a transaction
      over any storage ([AppendStorage] with [AppendLaws]); [file_storage] implements it on
      the disk of [Io.v], whose operations fail as a script says and which keeps the modes of
      what is created.  [append_at] is the daily writer, [recover_tail] what opening a file
      does.
    - [Rotation.v] ([src/src/sink.rs]): which files are daily files, which of them a cleanup
      removes ([clean_up] on the disk, from the listing the host gives), how outputs are opened
      and probed.  [DailyLog.v] follows the log in daily files over any sequence of writes,
      syncs, days and cleanups ([log_run]), and shows that every life of a sink is one.
    - [AggValues.v], [AggStats.v], [AggState.v], [AggIngest.v] ([src/src/aggregator.rs]): reading
      attribute values, counters and buckets, the state [AggregatorInner] and its updates, the
      ingestion of logs, traces and metrics and the snapshots.  [BTreeMap] and [HashMap] are
      [gmap]s; ordered iteration sorts the keys ([btree_entries]).  Proofs: [AggInv.v] and
      [AggCodex.v] (invariant of every update), [AggBatch.v] (whole requests and [reachable]
      states), [AggFrame.v] (a relation that holds of every update holds of every request),
      [AggSources.v], [AggClaude.v], [AggRefine.v], [AggQuiet.v], [AggMerge.v]; [Aggregator.v]
      has the theorems.
    - [Pretty.v] and [Health.v] ([src/src/sink.rs]): the bounded queues of readable output, with
      handlers interleaved with the writer, and the reports of a writer that fails;
      [Target.v] joins the writer to the daily files of [Storage.v].
    - [Router.v] ([src/src/forward/mod.rs], [router.rs]): splitting a request by service name
      and offering every route its share over a bounded channel ([Channel.v]).
    - [Worker.v] ([src/src/forward/worker.rs]) and [Client.v] ([src/src/forward/client.rs]): the
      loop of a route with retries, backoff and drain, and the client it sends with.
    - [WorkerLife.v]: the worker with what ends it, the shutdown token and the timer of the
      drain; its steps are those of [Worker.v].
    - [Http.v] ([src/src/http.rs]) and [Grpc.v] ([src/src/grpc.rs]): the receivers around all
      of this: routes, admission, deadline, decoding, recording and the status of the answer,
      one request at a time.
    - [Receiving.v]: all requests of both protocols at once, with the tasks that outlive their
      handlers, cancellation and shutdown.  Its state [receiving] is composed of the receiver of
      [Admission.v], the server of [Sink.v] and the handlers, which share the number of a
      request; every step is one of these parts or of a handler.  [ReceivingLive.v] has the rank
      by which a request comes to its end, [ReceivingRuns.v] relates an undisturbed request to
      the sequential handlers of [Http.v] and [Grpc.v].
    - [ProtoJson.v] ([src/src/proto_json.rs]): the JSON of a request, as a wrapper around any
      serializer.
    - [Quote.v] and [Format.v] ([src/src/format.rs]): the text of a request and of the totals,
      line by line, with the quoting of what came from outside.
    - [Cli.v], [Config.v], [Path.v] ([src/src/cli.rs], [config.rs], [path.rs]): where settings
      come from, how command line and configuration file are merged and what is refused.
    - [Diagnostics.v] ([src/src/diagnostics.rs]): the writer of the program's own messages, its
      callers and its thread interleaved.
    - [Server.v] ([src/src/server.rs]): [run] as a step relation over its waits: listeners,
      signals, drain, closing of the sink.
    - [Listeners.v] ([serve_grpc], [http::serve]): what the two listeners are set to before they
      are handed to tonic and axum.
    - [Process.v] ([src/src/main.rs], [ProxyHandle::join]): the end of the process, [Server] and
      the lives of all workers under one clock, with the cancellation, the joins and the limit
      on blocking tasks.
    - [Main.v] ([src/src/main.rs], [Sink::from_settings_with_proxy]): what comes before, from the
      environment, the tracing and [init] to the dry run and the opening of the files; [main_]
      composes [Config], [Cli], [Router], [Rotation], [Sink] and [Server].
    - [Whole.v]: what [main_] starts, up to the exit: the state of [Receiving] beside that of
      [Process], which meet where the server closes the sink and in the clock.  [WholeLive.v] has
      its liveness: the tasks that record end, so that the lock the server waits for is free.
      [WholeDaily.v] is its contract when the log is a directory.
    - [Forwarding.v]: the same program with the channels and counters of the routes shared, so that
      what a task publishes is what the workers are offered ([link_step]); a step of it is a
      run of steps of [Whole.v].
    - [Private.v] (the two functions of [src/src/path.rs] that restrict modes, defined in
      [Path.v]): all of the above seen from the permission bits.

    [Float64.v] is binary64 arithmetic on [SpecFloat] with the conversions of Rust's [as];
    [Otlp.v] transcribes the shape of the protobuf messages; [Text.v] has the operations of
    [str] (trimming, character counts, case) on UTF-8 bytes, [Unicode.v] characters and their
    encoding, [FloatText.v] the decimal texts of doubles; this file has what they share:
    [result], saturating and wrapping [u64] arithmetic, sums over maps, loops over slices and
    ordered iteration.  [Runs.v] has infinite runs of a step relation, fairness, the rules by
    which one property leads to another, and the runs of a part within a run of the whole.

    ** What is assumed

    Code of other crates is a parameter, with what the program relies on stated as laws of a
    type class and an instance or a concrete value for every witness:
    [World] (constants of the generated protobuf code, [f64] parsing and formatting),
    [WireValues], [SemaphoreOps] and [SemaphoreLaws] (tokio's semaphore),
    [ChannelOps] and [ChannelLaws] (tokio's mpsc channel, instance [list_channel]),
    [NaiveDates] with [Calendar] (chrono and time), [Toml] (the parser of the configuration),
    [Crates] (reqwest, tonic, prost and httpdate as the clients call them), [Codecs] and
    [Message] (axum, prost, serde_json and flate2 as the HTTP receiver calls them), [Tonic],
    [TonicLaws] and [GrpcMessage] (tonic and the generated services), [Requests] (those of the
    three signals together), [Servers] (what tonic and axum do when they serve), [EnvFilters]
    (the directives of tracing), [Serializer] (serde and
    serde_json), [Texts] and [TextsLaws] (the names of enumerations and the calendar of the
    time crate), [Binder] and [BinderLaws] (listening sockets).  The sink takes the texts of a
    request as parameters [to_vec] and [render]; [ProtoJson.to_vec] and [Format.render] are
    the program's.  Liveness is relative to the fairness of the runtime, stated as hypotheses on
    an infinite run ([fair] and [clock_goes_on] of [Runs.v], collected in [Process.GoesOn] for
    the process and [WholeLive.WholeGoesOn] for the whole program): what can happen is not put
    off for ever, and time passes.  tokio's lock of the sink is fair, as documented: while the
    server waits to write nobody begins to read (a premise of [Whole.step]).

    ** What the theorems show

    - The whole receiver: [Receiving.acknowledged_is_recorded_once] (what is answered with success
      was recorded once, and what was recorded is accounted for), [Receiving.memory_is_bounded],
      [ReceivingLive.every_request_ends] (liveness), [ReceivingRuns.handlers_are_runs] (the
      interleaved receiver refines to the sequential handlers).
    - No acknowledged data is lost and none is counted twice: [Sink.counted_is_persisted],
      [Sink.shutdown_overtakes_nothing], [Sink.failed_batch_leaves_no_trace],
      [Storage.log_holds_acknowledged_batches], [Storage.daily_append_all_or_nothing],
      [Storage.recover_tail_keeps_complete_lines] and [recover_tail_total]; and the answer says
      so: [Http.answer_tells_the_outcome], [Grpc.rpc_answer_tells_the_outcome],
      [Http.well_formed_request_is_retried], [Grpc.rpc_request_is_retried].  From the start of
      the process to its end: [Whole.success_means_durable] (an exit with success means that all
      that was acknowledged is synced to disk) and [WholeDaily.daily_success_means_durable] (the
      same for a log of daily files, with rotation and retention), [Main.log_from_start_to_end],
      [Main.dry_run_changes_nothing].
    - The process stops when it is told to, and says why: [WholeLive.whole_exits] (from nothing but
      the fairness of the runtime), [Process.process_exits],
      [WorkerLife.worker_stops] and [Server.shutdown_completes] (liveness),
      [Server.failures_are_told], [Server.abort_only_after_grace],
      [Pretty.drained_output_is_shown], [Diagnostics.flush_returns].
    - What is written is what was meant: [ProtoJson.only_non_finite_change],
      [Quote.quoted_text_is_safe_and_faithful], [Quote.pretty_value_is_linear],
      [Format.record_is_drawn_line_by_line], [Format.summary_is_drawn_line_by_line],
      [Diagnostics.every_diagnostic_line_accounted], [Diagnostics.diagnostic_lines_are_whole],
      [Http.content_type_exact], [Http.stats_report_every_route].
    - The totals are right: [Aggregator.claude_totals_refine_spec] gives a specification on the
      messages alone, [totals_are_bucket_sums], [totals_within_volume],
      [sources_decided_once], [known_session_settles_conversation],
      [pending_usage_is_in_its_bucket], [merge_bare_into_full_exact], [bucket_key_roundtrip],
      [finite_u64_from_f64_exact], [no_count_no_change] and, about what is ignored,
      [cumulative_metrics_skipped], [unrecorded_points_add_nothing], [traces_keep_totals].
    - Nothing grows without bound and nothing leaks: [Admission.admission_is_bounded],
      [Admission.slots_are_conserved], [Pretty.waiting_output_is_bounded],
      [Pretty.budget_never_leaks], [Http.handled_request_returns_its_slot], with
      [Pretty.output_in_order] for the order and [Target.pretty_log_batch] for the files.
    - Forwarding: [Forwarding.recorded_is_forwarded] (from the log to the upstream, over the whole
      life of the process), [Router.notify_delivers_shares], [Router.resource_goes_to_its_route],
      [Worker.every_request_accounted], [Worker.requests_leave_in_order],
      [Worker.retries_back_off], [Client.retries_are_permitted], [Client.built_client_is_sound].
    - Settings: [Cli.command_line_hides_configuration], [Cli.proxy_routes_well_formed],
      [Cli.resolved_headers_safe], [Cli.cli_headers_win], [Config.load_never_loses_config],
      [Config.init_never_overwrites], [Path.expand_user_path_spec],
      [Main.init_writes_what_load_reads].
    - Personal data stays private: [Private.created_is_private].
    - Operation: [Rotation.cleanup_removes_exactly_stale], [Rotation.daily_log_kind_exact],
      [Health.failures_reported_as_incidents], [Health.streak_counts_the_incident].

    ** Bounds and fuel

    Counters are [Z] between 0 and [u64_max]; additions saturate ([sat_add]) or wrap
    ([wrap_add]) as the source's do.  Loops that are not structural take fuel:
    [find_valid_len] the length of the file, proved enough by
    [Storage.recover_tail_total]; the trimming functions of [Text.v] the length of the string,
    of which every round drops at least a byte; [send_attempts] the number of attempts, which
    the source's own [for] loop counts; [write_counting_fuel] the length of the script of the
    stream, of which every call takes an event, proved enough by [write_counting_fuel_more];
    the digits of [FloatText.v] their largest number, seventeen, and the largest exponent; the
    reader [unescape] of [Quote.v], which is specification, the length of its text; [lineage]
    of [Path.v] the length of the path, proved enough by [lineage_enough].  Durations are in
    nanoseconds, as [std::time] keeps them.

    ** What modelling showed

    [Server.cut_drain_forgets]: when the grace or a second signal cuts the drain of the
    listeners short, a failure it had already collected is neither returned nor logged.
    And the documentation of [run] has it that the listeners and the workers share a token; they
    do not, and the workers forward until [run] has returned ([Process.process_cancel]).
    [dropped_total] counts, besides what its comment names, the requests that the drain of a
    worker abandons ([Worker.drain_finish]).

    ** What is not modelled

    What tonic and axum do with connections, streams and frames, below the options of
    [Listeners.v]; the command line as clap parses it; panics of the program's own tasks other
    than those [Server] joins; the wording of log messages, except where their number or
    content matters ([HealthReport], [DropLog], [notice] of [Main.v], [warned] of [Server.v],
    [dropped_note]); and the Windows variants.  A directory that is missing or forbidden is one
    of the faults of the disk, and a path is its text: two spellings are two paths.  A write
    to a file that was removed while open makes a file of that name, not one without a name; the
    theorems about daily files are about those that are not removed.  The writer of
    the diagnostics is separate from what is logged: the other files leave the calls of
    [tracing] out, as no state depends on them. *)

From stdpp Require Export base gmap strings list sorting fin_maps.
From Stdlib Require Export ZArith Lia.
From Stdlib Require Import Ascii.

#[export] Set Default Goal Selector "!".

(** ** Unsigned 64-bit counters *)

Declare Scope u64_scope.
Delimit Scope u64_scope with u64.

Definition u64_max : Z := 18446744073709551615.
Definition i64_max : Z := 9223372036854775807.
Definition i64_min : Z := -9223372036854775808.

(** [u64::saturating_add] and [u64::saturating_sub]. *)
Definition sat_add (a b : Z) : Z := Z.min u64_max (a + b).
Definition sat_sub (a b : Z) : Z := Z.max 0 (a - b).

Definition is_u64 (z : Z) : Prop := (0 <= z <= u64_max)%Z.

Infix "+!" := sat_add (at level 50, left associativity) : u64_scope.
Infix "-!" := sat_sub (at level 50, left associativity) : u64_scope.

(** [u64::saturating_mul]. *)
Definition sat_mul (a b : Z) : Z := Z.min u64_max (a * b).

(** [usize] and [u64] arithmetic of the atomics wraps around. *)
Definition word : Z := 2 ^ 64.
Definition wrap_add (a b : Z) : Z := (a + b) mod word.
Definition wrap_sub (a b : Z) : Z := (a - b) mod word.

(** [u64::is_power_of_two]. *)
Definition is_power_of_two (n : Z) : bool := (0 <? n)%Z && (Z.land n (n - 1) =? 0)%Z.

(** [Duration::from_secs] and [from_millis], in nanoseconds. *)
Definition secs (s : Z) : Z := s * 1000000000.
Definition millis (ms : Z) : Z := ms * 1000000.

(** [tokio::time::timeout_at]: what is ready by the deadline; [outcome] has the time with it. *)
Definition timeout_at {A} (deadline : Z) (outcome : option (Z * A)) : option A :=
  match outcome with
  | Some (at_, a) => if (at_ <=? deadline)%Z then Some a else None
  | None => None
  end.

(** [for x in l { s = f(s, x) }]. *)
Definition for_each {A S : Type} (f : S -> A -> S) (s : S) (l : list A) : S :=
  foldl f s l.

(** ** Rust's [Result] *)

Inductive result (A E : Type) : Type :=
| Ok (a : A)
| Err (e : E).
Arguments Ok {A E} a.
Arguments Err {A E} e.

#[export] Instance result_eq_dec {A E : Type} `{EqDecision A, EqDecision E} :
  EqDecision (result A E).
Proof. solve_decision. Defined.

Declare Scope result_scope.
Delimit Scope result_scope with res.

Definition result_bind {A B E : Type} (r : result A E) (k : A -> result B E) : result B E :=
  match r with
  | Ok a => k a
  | Err e => Err e
  end.

Definition result_map_err {A E F : Type} (f : E -> F) (r : result A E) : result A F :=
  match r with
  | Ok a => Ok a
  | Err e => Err (f e)
  end.

(** [for x in l { s = f(s, x)?; }]. *)
Fixpoint try_for_each {A S E : Type} (f : S -> A -> result S E) (s : S) (l : list A) : result S E :=
  match l with
  | [] => Ok s
  | a :: l => match f s a with Ok s => try_for_each f s l | Err e => Err e end
  end.

Definition is_ok {A E : Type} (r : result A E) : bool :=
  match r with Ok _ => true | Err _ => false end.

(** The [?] operator. *)
Notation "'let?' x ':=' r 'in' k" := (result_bind r (fun x => k))
  (at level 10, x name, r at level 100, k at level 200) : result_scope.

(** ** Rust's byte strings *)

(** Byte-lexicographic order, the order of Rust's [str] and of [BTreeMap<String, _>]. *)
Definition str_le (a b : string) : Prop := String.leb a b = true.
#[global] Instance str_le_dec : RelDecision str_le.
Proof. intros a b. unfold str_le. apply _. Defined.

(** The entries of a [BTreeMap], in iteration order: by ascending key. *)
Definition key_le {K V : Type} (R : relation K) : relation (K * V) :=
  fun a b => R a.1 b.1.
#[global] Instance key_le_dec {K V : Type} (R : relation K) `{!RelDecision R} :
  RelDecision (@key_le K V R).
Proof. intros a b. unfold key_le. apply _. Defined.

Definition btree_entries {K V : Type} `{Countable K} (R : relation K) `{!RelDecision R}
    (m : gmap K V) : list (K * V) :=
  merge_sort (key_le R) (map_to_list m).

(** [str::split_once(c)]: the parts before and after the first [c]. *)
Fixpoint split_once (c : ascii) (s : string) : option (string * string) :=
  match s with
  | EmptyString => None
  | String a s' =>
      if Ascii.eqb a c then Some (EmptyString, s')
      else match split_once c s' with
           | Some (pre, post) => Some (String a pre, post)
           | None => None
           end
  end.

(** [str::strip_prefix]. *)
Fixpoint strip_prefix (p s : string) : option string :=
  match p, s with
  | EmptyString, _ => Some s
  | String a p', String b s' => if Ascii.eqb a b then strip_prefix p' s' else None
  | String _ _, EmptyString => None
  end.

Definition starts_with (p s : string) : bool :=
  match strip_prefix p s with Some _ => true | None => false end.

Definition str_is_empty (s : string) : bool := String.eqb s "".

(** ** Sums and lists over finite maps *)

Section map_sum.
Context {K A : Type} `{Countable K}.
Implicit Types (m : gmap K A) (f : A -> Z).

Definition map_sum f m : Z := map_fold (fun _ x acc => (f x + acc)%Z) 0%Z m.

(** What the entries of a map come to, in no particular order. *)
Definition map_collect {B} (f : A -> option B) m : list B := omap f (map_to_list m).*2.

(** The value counted at a key: 0 when the key is absent. *)
Definition map_val f m (i : K) : Z := from_option f 0%Z (m !! i).
End map_sum.

(** * Lemmas *)

(** ** Counters *)

Create HintDb u64 discriminated.
#[export] Hint Constants Opaque : u64.
#[export] Hint Unfold is_u64 : u64.

Lemma sat_add_u64 a b : is_u64 a -> is_u64 b -> is_u64 (sat_add a b).
Proof. unfold is_u64, sat_add, u64_max. lia. Qed.

Lemma sat_sub_u64 a b : is_u64 a -> is_u64 b -> is_u64 (sat_sub a b).
Proof. unfold is_u64, sat_sub, u64_max. lia. Qed.

Lemma sat_add_exact a b : (a + b <= u64_max)%Z -> sat_add a b = (a + b)%Z.
Proof. unfold sat_add. lia. Qed.

Lemma sat_sub_exact a b : (b <= a)%Z -> sat_sub a b = (a - b)%Z.
Proof. unfold sat_sub. lia. Qed.

Lemma wrap_small n : (0 <= n < word)%Z -> (n mod word)%Z = n.
Proof. apply Z.mod_small. Qed.

Lemma is_u64_0 : is_u64 0.
Proof. unfold is_u64, u64_max. lia. Qed.

#[export] Hint Resolve sat_add_u64 sat_sub_u64 is_u64_0 : u64.

(** ** Loops *)

Section for_each.
Context {A S : Type} (f : S -> A -> S).

(** An invariant of the body is an invariant of the loop. *)
Lemma for_each_ind (P : S -> Prop) s l :
  P s -> (forall s a, a ∈ l -> P s -> P (f s a)) -> P (for_each f s l).
Proof.
  revert s. induction l as [|a l IH]; intros s Hs Hstep; [done|].
  apply IH; [apply Hstep; [left|done]|].
  intros s' a' Ha' HP. apply Hstep; [by right|done].
Qed.

Lemma for_each_app s l1 l2 :
  for_each f s (l1 ++ l2) = for_each f (for_each f s l1) l2.
Proof. apply foldl_app. Qed.

(** The same, with a budget [w a] consumed by each element. *)
Lemma for_each_weight (P : Z -> S -> Prop) (w : A -> Z) v s l :
  P v s ->
  (forall v s a, a ∈ l -> P v s -> P (v + w a)%Z (f s a)) ->
  P (v + foldr (fun a acc => (w a + acc)%Z) 0%Z l)%Z (for_each f s l).
Proof.
  revert v s. induction l as [|a l IH]; intros v s Hs Hstep; simpl.
  { by rewrite Z.add_0_r. }
  rewrite Z.add_assoc. apply IH; [apply Hstep; [left|done]|].
  intros v' s' a' Ha' HP. apply Hstep; [by right|done].
Qed.
End for_each.

(** An invariant of a fallible body, which may use the iterations done before. *)
Lemma try_for_each_ind {A S E} (f : S -> A -> result S E) (P : list A -> S -> Prop) s l s' :
  P [] s ->
  (forall done a s s', P done s -> f s a = Ok s' -> P (done ++ [a]) s') ->
  try_for_each f s l = Ok s' -> P l s'.
Proof.
  intros Hs Hstep.
  enough (forall before s, P before s -> try_for_each f s l = Ok s' -> P (before ++ l) s') as Hgen.
  { intros H. by apply (Hgen [] s). }
  clear s Hs. induction l as [|a l IH]; intros before s Hs; simpl.
  { intros [= <-]. by rewrite app_nil_r. }
  destruct (f s a) as [s1|] eqn:Ef; [|done]. intros H.
  replace (before ++ a :: l) with ((before ++ [a]) ++ l) by (by rewrite <-app_assoc).
  eapply IH; eauto.
Qed.

(** ** Byte order on strings *)

Lemma str_compare_refl s : String.compare s s = Eq.
Proof. induction s as [|a s IH]; [done|]. simpl. unfold Ascii.compare. by rewrite N.compare_refl. Qed.

Lemma ascii_compare_eq a b : Ascii.compare a b = Eq -> a = b.
Proof.
  unfold Ascii.compare. intros E%N.compare_eq.
  by rewrite <-(ascii_N_embedding a), <-(ascii_N_embedding b), E.
Qed.

Lemma str_lt_trans a b c :
  String.compare a b = Lt -> String.compare b c = Lt -> String.compare a c = Lt.
Proof.
  revert b c. induction a as [|x a IH]; intros [|y b] [|z c]; simpl; try done.
  destruct (Ascii.compare x y) eqn:Exy; try done.
  - apply ascii_compare_eq in Exy as ->.
    destruct (Ascii.compare y z); eauto.
  - destruct (Ascii.compare y z) eqn:Eyz; try done.
    + apply ascii_compare_eq in Eyz as ->. by rewrite Exy.
    + unfold Ascii.compare in *. rewrite N.compare_lt_iff in Exy, Eyz.
      assert (N_of_ascii x < N_of_ascii z)%N as ->%N.compare_lt_iff by lia. done.
Qed.

#[export] Instance str_le_preorder : PreOrder str_le.
Proof.
  split.
  - intros s. unfold str_le, String.leb. by rewrite str_compare_refl.
  - intros a b c. unfold str_le, String.leb.
    destruct (String.compare a b) eqn:Eab; try done.
    + apply String.compare_eq_iff in Eab as ->. done.
    + destruct (String.compare b c) eqn:Ebc; try done.
      * apply String.compare_eq_iff in Ebc as <-. by rewrite Eab.
      * by rewrite (str_lt_trans _ _ _ Eab Ebc).
Qed.

#[export] Instance str_le_total : Total str_le.
Proof. intros a b. apply String.leb_total. Qed.

#[export] Instance str_le_antisymm : AntiSymm (=) str_le.
Proof. intros a b. apply String.leb_antisym. Qed.

(** ** Entries of ordered maps *)

Section btree_entries.
Context {K V : Type} `{Countable K} (R : relation K) `{!RelDecision R}.
Implicit Types m : gmap K V.

Lemma btree_entries_perm m : btree_entries R m ≡ₚ map_to_list m.
Proof. apply merge_sort_Permutation. Qed.

Lemma elem_of_btree_entries m k v : (k, v) ∈ btree_entries R m <-> m !! k = Some v.
Proof. by rewrite btree_entries_perm, elem_of_map_to_list. Qed.

Lemma NoDup_btree_entries m : NoDup (btree_entries R m).*1.
Proof. rewrite btree_entries_perm. apply NoDup_fst_map_to_list. Qed.

Lemma btree_entries_sorted `{!Transitive R, !Total R} m :
  StronglySorted (key_le R) (btree_entries R m).
Proof.
  apply StronglySorted_merge_sort.
  - intros [k1 v1] [k2 v2] [k3 v3]. unfold key_le; simpl. by etrans.
  - intros [k1 v1] [k2 v2]. unfold key_le; simpl. apply total, _.
Qed.

Lemma btree_entries_empty : btree_entries R (∅ : gmap K V) = [].
Proof. unfold btree_entries. by rewrite map_to_list_empty. Qed.
End btree_entries.

(** A map over the values keeps the order. *)
Lemma btree_entries_fmap {K V W : Type} `{Countable K} (R : relation K)
    `{!RelDecision R, !Transitive R, !Total R, !AntiSymm (=) R} (f : V -> W) (m : gmap K V) :
  btree_entries R (f <$> m) = prod_map id f <$> btree_entries R m.
Proof.
  assert (btree_entries R (f <$> m) ≡ₚ prod_map id f <$> btree_entries R m) as Hp.
  { etrans; [apply btree_entries_perm|]. rewrite map_to_list_fmap. apply fmap_Permutation.
    symmetry. apply btree_entries_perm. }
  apply (StronglySorted_unique_strong (key_le R)); [| | |done].
  - intros [k1 v1] [k2 v2] H1 H2 H12 H21. rewrite <-Hp in H2. rewrite elem_of_btree_entries in *.
    assert (k1 = k2) as -> by exact (anti_symm R k1 k2 H12 H21). congruence.
  - apply (btree_entries_sorted R).
  - clear Hp. pose proof (btree_entries_sorted R m) as Hs.
    induction Hs as [|[k v] l Hs IH Hk]; [constructor|]. cbn [fmap list_fmap].
    constructor; [done|]. apply Forall_fmap. eapply Forall_impl; [exact Hk|]. by intros [].
Qed.

(** ** Strings *)

Lemma str_app_cons a p s : (String a p +:+ s = String a (p +:+ s))%string.
Proof. done. Qed.

Lemma str_app_nil_l s : ("" +:+ s = s)%string.
Proof. done. Qed.

Lemma split_once_app c s pre post :
  split_once c s = Some (pre, post) -> s = (pre +:+ String c post)%string.
Proof.
  revert pre post. induction s as [|a s IH]; intros pre post; simpl; [done|].
  destruct (Ascii.eqb_spec a c) as [->|].
  - by intros [= <- <-].
  - destruct (split_once c s) as [[p q]|]; [|done].
    intros [= <- <-]. simpl. by rewrite (IH p q).
Qed.

Lemma strip_prefix_app p s rest : strip_prefix p s = Some rest <-> s = (p +:+ rest)%string.
Proof.
  revert s. induction p as [|a p IH]; intros s; simpl.
  - split; by intros [= ->].
  - rewrite str_app_cons. destruct s as [|b s]; [by split|].
    destruct (Ascii.eqb_spec a b) as [->|Hne].
    + rewrite IH. split; [by intros ->|by intros [= ->]].
    + split; [done|]. intros Heq. by simplify_eq.
Qed.

Lemma starts_with_spec p s : starts_with p s = true <-> exists rest, s = (p +:+ rest)%string.
Proof.
  unfold starts_with. destruct (strip_prefix p s) as [r|] eqn:E.
  - apply strip_prefix_app in E. split; eauto.
  - split; [done|]. intros [r Hr%strip_prefix_app]. congruence.
Qed.

Lemma str_app_assoc (a b c : string) : ((a +:+ b) +:+ c = a +:+ (b +:+ c))%string.
Proof. induction a as [|x a IH]; [done|]. by rewrite !str_app_cons, IH. Qed.

Lemma str_app_inj_l (p a b : string) : (p +:+ a = p +:+ b)%string -> a = b.
Proof. induction p as [|c p IH]; [done|]. rewrite !str_app_cons. intros [= E]. auto. Qed.

Lemma str_length_app (a b : string) :
  String.length (a +:+ b) = (String.length a + String.length b)%nat.
Proof. induction a as [|c a IH]; [done|]. rewrite str_app_cons. simpl. by rewrite IH. Qed.

Lemma str_app_inj_r (s a b : string) : (a +:+ s = b +:+ s)%string -> a = b.
Proof.
  revert b. induction a as [|c a IH]; intros [|c' b] E; [done|..].
  - apply (f_equal String.length) in E. rewrite !str_length_app in E. simpl in E. lia.
  - apply (f_equal String.length) in E. rewrite !str_length_app in E. simpl in E. lia.
  - rewrite !str_app_cons in E. injection E as -> E. by rewrite (IH b).
Qed.

(** ** Sums over finite maps *)

Section map_sum_lemmas.
Context {K A : Type} `{Countable K}.
Implicit Types (m : gmap K A) (f g : A -> Z).

Lemma map_sum_empty f : map_sum f (∅ : gmap K A) = 0%Z.
Proof. apply map_fold_empty. Qed.

Lemma map_sum_insert_None f m i x :
  m !! i = None -> map_sum f (<[i:=x]> m) = (f x + map_sum f m)%Z.
Proof.
  intros Hi. unfold map_sum. rewrite map_fold_insert_L; [done| |done].
  intros. lia.
Qed.

Lemma map_sum_delete f m i : map_sum f (delete i m) = (map_sum f m - map_val f m i)%Z.
Proof.
  unfold map_val. destruct (m !! i) as [x|] eqn:E; simpl.
  - rewrite <-(insert_delete_id m i x E) at 2.
    rewrite map_sum_insert_None by apply lookup_delete_eq. lia.
  - rewrite delete_id by done. lia.
Qed.

Lemma map_sum_insert f m i x :
  map_sum f (<[i:=x]> m) = (map_sum f m - map_val f m i + f x)%Z.
Proof.
  rewrite <-insert_delete_eq, map_sum_insert_None by apply lookup_delete_eq.
  rewrite map_sum_delete. lia.
Qed.

Lemma map_val_insert_eq f m i x : map_val f (<[i:=x]> m) i = f x.
Proof. unfold map_val. by rewrite lookup_insert_eq. Qed.

Lemma map_val_insert_ne f m i j x : i <> j -> map_val f (<[i:=x]> m) j = map_val f m j.
Proof. intros. unfold map_val. by rewrite lookup_insert_ne. Qed.

Lemma map_val_delete_eq f m i : map_val f (delete i m) i = 0%Z.
Proof. unfold map_val. by rewrite lookup_delete_eq. Qed.

Lemma map_val_delete_ne f m i j : i <> j -> map_val f (delete i m) j = map_val f m j.
Proof. intros. unfold map_val. by rewrite lookup_delete_ne. Qed.

Lemma map_val_Some f m i x : m !! i = Some x -> map_val f m i = f x.
Proof. unfold map_val. by intros ->. Qed.

Lemma map_val_None f m i : m !! i = None -> map_val f m i = 0%Z.
Proof. unfold map_val. by intros ->. Qed.

Lemma map_val_nonneg f m i :
  (forall j x, m !! j = Some x -> 0 <= f x)%Z -> (0 <= map_val f m i)%Z.
Proof. intros Hf. unfold map_val. destruct (m !! i) eqn:E; simpl; [eauto|lia]. Qed.

Lemma map_sum_nonneg f m :
  (forall j x, m !! j = Some x -> 0 <= f x)%Z -> (0 <= map_sum f m)%Z.
Proof.
  induction m as [|i x m Hi IH] using map_ind; intros Hf.
  { rewrite map_sum_empty. lia. }
  rewrite map_sum_insert_None by done.
  assert (0 <= f x)%Z by (apply (Hf i); apply lookup_insert_eq).
  assert (0 <= map_sum f m)%Z; [|lia].
  apply IH. intros j y Hj. apply (Hf j). rewrite lookup_insert_ne by naive_solver. done.
Qed.

Lemma map_val_le_sum f m i :
  (forall j x, m !! j = Some x -> 0 <= f x)%Z -> (map_val f m i <= map_sum f m)%Z.
Proof.
  intros Hf. assert (0 <= map_sum f (delete i m))%Z as Hs.
  { apply map_sum_nonneg. intros j x [_ Hj]%lookup_delete_Some. eauto. }
  rewrite map_sum_delete in Hs. lia.
Qed.

Lemma map_sum_ext f g m :
  (forall i x, m !! i = Some x -> f x = g x) -> map_sum f m = map_sum g m.
Proof.
  induction m as [|i x m Hi IH] using map_ind; intros Hf; [done|].
  rewrite !map_sum_insert_None by done.
  rewrite (Hf i x) by apply lookup_insert_eq.
  rewrite IH; [done|]. intros j y Hj. apply (Hf j).
  rewrite lookup_insert_ne by naive_solver. done.
Qed.

Lemma map_sum_list f m :
  map_sum f m = foldr (fun e acc => (f e.2 + acc)%Z) 0%Z (map_to_list m).
Proof. unfold map_sum. rewrite map_fold_foldr. apply foldr_ext; [by intros [] ?|done|done]. Qed.

(** What an entry adds to what is collected. *)
Definition map_part {B} (f : A -> option B) m (i : K) : list B :=
  from_option (fun a => option_list (f a)) [] (m !! i).

Lemma map_collect_empty {B} (f : A -> option B) : map_collect f (∅ : gmap K A) = [].
Proof. unfold map_collect. by rewrite map_to_list_empty. Qed.

Lemma map_collect_insert_None {B} (f : A -> option B) m i x :
  m !! i = None -> map_collect f (<[i:=x]> m) ≡ₚ option_list (f x) ++ map_collect f m.
Proof.
  intros Hi. unfold map_collect. rewrite map_to_list_insert by done. simpl. by destruct (f x).
Qed.

Lemma map_collect_delete {B} (f : A -> option B) m i :
  map_collect f m ≡ₚ map_part f m i ++ map_collect f (delete i m).
Proof.
  unfold map_part. destruct (m !! i) as [x|] eqn:E; simpl.
  - rewrite <-(insert_delete_id m i x E) at 1. by rewrite map_collect_insert_None by apply lookup_delete_eq.
  - by rewrite delete_id.
Qed.

Lemma map_collect_insert {B} (f : A -> option B) m i x :
  map_part f m i ++ map_collect f (<[i:=x]> m) ≡ₚ option_list (f x) ++ map_collect f m.
Proof.
  rewrite (map_collect_delete f m i), <-insert_delete_eq.
  rewrite map_collect_insert_None by apply lookup_delete_eq.
  rewrite !app_assoc. f_equiv. apply Permutation_app_comm.
Qed.

Lemma map_part_Some {B} (f : A -> option B) m i x : m !! i = Some x -> map_part f m i = option_list (f x).
Proof. unfold map_part. by intros ->. Qed.

Lemma map_part_None {B} (f : A -> option B) m i : m !! i = None -> map_part f m i = [].
Proof. unfold map_part. by intros ->. Qed.
End map_sum_lemmas.

Lemma map_sum_scale {K A : Type} `{Countable K} (f : A -> Z) (c : Z) (m : gmap K A) :
  map_sum (fun a => f a * c)%Z m = (map_sum f m * c)%Z.
Proof.
  induction m as [|i a m Hi IH] using map_ind; [by rewrite !map_sum_empty|].
  rewrite !map_sum_insert_None by done. lia.
Qed.

(** What holds entry by entry holds of the sums. *)
Lemma map_sum_le {K A B C : Type} `{Countable K} (f : A -> Z) (g : B -> Z) (h : C -> Z)
    (m : gmap K A) (m2 : gmap K B) (m3 : gmap K C) :
  (forall i, map_val f m i + map_val g m2 i <= map_val h m3 i)%Z ->
  (map_sum f m + map_sum g m2 <= map_sum h m3)%Z.
Proof.
  assert (forall D : gset K, forall (m : gmap K A) (m2 : gmap K B) (m3 : gmap K C),
    dom m ⊆ D -> dom m2 ⊆ D -> dom m3 ⊆ D ->
    (forall i, map_val f m i + map_val g m2 i <= map_val h m3 i)%Z ->
    (map_sum f m + map_sum g m2 <= map_sum h m3)%Z) as Hind.
  { clear m m2 m3. intros D. induction D as [|i D Hi IH] using set_ind_L; intros m m2 m3 H1 H2 H3 Hp.
    - assert (m = ∅ /\ m2 = ∅ /\ m3 = ∅) as (-> & -> & ->).
      { rewrite <-!dom_empty_iff_L. set_solver. }
      unfold map_sum. rewrite !map_fold_empty. lia.
    - specialize (IH (delete i m) (delete i m2) (delete i m3)).
      rewrite !map_sum_delete, !dom_delete_L in IH. specialize (Hp i) as Hpi.
      enough (map_sum f m - map_val f m i + (map_sum g m2 - map_val g m2 i) <=
        map_sum h m3 - map_val h m3 i)%Z by lia.
      apply IH; [set_solver..|]. intros j. destruct (decide (i = j)) as [<-|Hne].
      + unfold map_val. rewrite !lookup_delete_eq. simpl. lia.
      + unfold map_val. rewrite !lookup_delete_ne by done. apply Hp. }
  intros Hp. apply (Hind (dom m ∪ dom m2 ∪ dom m3)); [set_solver..|done].
Qed.

Create Rewrite HintDb map_sum.
#[export] Hint Rewrite @map_sum_insert @map_sum_delete @map_val_insert_eq
  @map_val_delete_eq : map_sum.
