(* ===== verification/Runs.v ===== *)
(** * Infinite runs of a step relation

    Labelled transition systems that run for ever, with the fairness that liveness needs: what
    could happen is not put off for ever.  A run may stutter, so that a run of several
    components is a run of each.  [wf1] is the rule by which a property leads to another,
    [wf1_deadline] the same for what waits for a clock. *)

From S2P Require Import Prelude.

Section runs.
Context {State Event : Type} (step : Event -> State -> State -> Prop).
Implicit Types (P Q : State -> Prop) (ev : nat -> option Event) (tr : nat -> State).

(** At every moment an event happens, or nothing that concerns the state does. *)
Definition run_of ev tr : Prop :=
  forall n, match ev n with
            | Some e => step e (tr n) (tr (S n))
            | None => tr (S n) = tr n
            end.

Definition enabled (e : Event) (x : State) : Prop := exists y, step e x y.

(** Again and again the event happens or it could not. *)
Definition fair (e : Event) ev tr : Prop :=
  forall n, exists m, (n <= m)%nat /\ (ev m = Some e \/ ~ enabled e (tr m)).

Definition clock_goes_on (clock : State -> Z) tr : Prop :=
  forall t n, exists m, (n <= m)%nat /\ (t <= clock (tr m))%Z.

(** What holds keeps holding. *)
Definition stable P : Prop := forall e x y, step e x y -> P x -> P y.

(** What holds keeps holding until something else does. *)
Definition until P Q : Prop := forall e x y, step e x y -> P x -> P y \/ Q y.

(** From the [n]-th state on it will hold. *)
Definition eventually Q tr (n : nat) : Prop := exists m, (n <= m)%nat /\ Q (tr m).

Lemma stable_next P ev tr n : stable P -> run_of ev tr -> P (tr n) -> P (tr (S n)).
Proof.
  intros Hs Hr HP. specialize (Hr n). destruct (ev n) as [e|]; [by eapply Hs|by rewrite Hr].
Qed.

Lemma until_next P Q ev tr n : until P Q -> run_of ev tr -> P (tr n) -> P (tr (S n)) \/ Q (tr (S n)).
Proof.
  intros Hu Hr HP. specialize (Hr n). destruct (ev n) as [e|]; [by eapply Hu|left; by rewrite Hr].
Qed.

Lemma stable_trace P ev tr n m :
  stable P -> run_of ev tr -> (n <= m)%nat -> P (tr n) -> P (tr m).
Proof. intros Hs Hr. induction 1 as [|m _ IH]; [done|]. intros H. by eapply stable_next, IH. Qed.

Lemma until_trace P Q tr n m :
  (forall k, (n <= k)%nat -> P (tr k) -> P (tr (S k)) \/ Q (tr (S k))) ->
  (n <= m)%nat -> P (tr n) -> P (tr m) \/ eventually Q tr n.
Proof.
  intros Hu. induction 1 as [|m Hm IH]; [by left|]. intros HP.
  destruct (IH HP) as [Hp|]; [|by right]. destruct (Hu m Hm Hp) as [|Hq]; [by left|].
  right. exists (S m). split; [lia|done].
Qed.

Lemma eventually_later Q tr n m : (n <= m)%nat -> eventually Q tr m -> eventually Q tr n.
Proof. intros Hnm (k & Hk & HQ). exists k. split; [lia|done]. Qed.

(** One leads to the next. *)
Lemma eventually_trans P Q tr n :
  (forall m, (n <= m)%nat -> P (tr m) -> eventually Q tr m) -> eventually P tr n -> eventually Q tr n.
Proof. intros HPQ (m & Hm & HP). apply (eventually_later _ _ n m Hm), HPQ; done. Qed.

(** What is stable will hold together with what will hold. *)
Lemma eventually_stable P Q ev tr n :
  stable P -> run_of ev tr -> P (tr n) -> eventually Q tr n -> eventually (fun x => P x /\ Q x) tr n.
Proof.
  intros Hs Hr HP (m & Hm & HQ). exists m. split; [done|]. split; [|done]. by eapply stable_trace.
Qed.

(** The first rule of fairness: [P] stays until [Q], the event takes [P] to [Q], and where [P]
    holds it can happen. *)
Lemma wf1_trace P Q e ev tr n :
  fair e ev tr ->
  (forall m, (n <= m)%nat -> P (tr m) -> P (tr (S m)) \/ Q (tr (S m))) ->
  (forall m, (n <= m)%nat -> ev m = Some e -> P (tr m) -> Q (tr (S m))) ->
  (forall m, (n <= m)%nat -> P (tr m) -> enabled e (tr m)) ->
  P (tr n) -> eventually Q tr n.
Proof.
  intros Hf Hu Hq He HP. destruct (Hf n) as (m & Hm & Hor).
  destruct (until_trace P Q tr n m Hu Hm HP) as [HPm|]; [|done].
  destruct Hor as [E|Hne]; [|destruct Hne; by apply He].
  exists (S m). split; [lia|]. by apply Hq.
Qed.

(** The same for what can happen once the clock has passed a deadline. *)
Lemma wf1_deadline_trace clock d P Q e ev tr n :
  fair e ev tr -> clock_goes_on clock tr ->
  (forall m, (clock (tr m) <= clock (tr (S m)))%Z) ->
  (forall m, (n <= m)%nat -> P (tr m) -> P (tr (S m)) \/ Q (tr (S m))) ->
  (forall m, (n <= m)%nat -> ev m = Some e -> P (tr m) -> Q (tr (S m))) ->
  (forall m, (n <= m)%nat -> P (tr m) -> (d <= clock (tr m))%Z -> enabled e (tr m)) ->
  P (tr n) -> eventually Q tr n.
Proof.
  intros Hf Hc Hmono Hu Hq He HP. destruct (Hc d n) as (m & Hm & Hd).
  destruct (until_trace P Q tr n m Hu Hm HP) as [HPm|]; [|done].
  apply (eventually_later _ _ n m Hm).
  apply (wf1_trace (fun x => P x /\ (d <= clock x)%Z) Q e ev tr m Hf); [| | |done].
  - intros k Hk [Hx Hdx]. specialize (Hmono k).
    destruct (Hu k ltac:(lia) Hx); [left; split; [done|lia]|by right].
  - intros k Hk E [Hx _]. apply Hq; [lia|done..].
  - intros k Hk [Hx Hdx]. apply He; [lia|done..].
Qed.

Lemma taken e ev tr n : run_of ev tr -> ev n = Some e -> step e (tr n) (tr (S n)).
Proof. intros Hr E. specialize (Hr n). by rewrite E in Hr. Qed.

Lemma wf1 P Q e ev tr n :
  run_of ev tr -> fair e ev tr -> until P Q ->
  (forall x y, step e x y -> P x -> Q y) -> (forall x, P x -> enabled e x) ->
  P (tr n) -> eventually Q tr n.
Proof.
  intros Hr Hf Hu Hq He. apply (wf1_trace P Q e ev tr n Hf); [|intros m _ E|by auto].
  - intros m _. by eapply until_next.
  - apply Hq. by eapply taken.
Qed.

Lemma clock_next clock ev tr n :
  (forall a x y, step a x y -> (clock x <= clock y)%Z) -> run_of ev tr ->
  (clock (tr n) <= clock (tr (S n)))%Z.
Proof.
  intros Hm Hr. specialize (Hr n). destruct (ev n); [by eapply Hm|rewrite Hr; lia].
Qed.

Lemma wf1_deadline clock d P Q e ev tr n :
  run_of ev tr -> fair e ev tr -> clock_goes_on clock tr ->
  (forall a x y, step a x y -> (clock x <= clock y)%Z) -> until P Q ->
  (forall x y, step e x y -> P x -> Q y) ->
  (forall x, P x -> (d <= clock x)%Z -> enabled e x) ->
  P (tr n) -> eventually Q tr n.
Proof.
  intros Hr Hf Hc Hmono Hu Hq He.
  apply (wf1_deadline_trace clock d P Q e ev tr n Hf Hc); [| |intros m _ E|by auto].
  - intros m. by eapply clock_next.
  - intros m _. by eapply until_next.
  - apply Hq. by eapply taken.
Qed.
End runs.

(** A run of a system is a run of a part of it, when every step of the system is one of the
    part or leaves it alone; and fairness towards an event is fairness of the part towards its
    own, if what can happen in the part can happen in the system. *)
Section parts.
Context {S E S' E' : Type} (step : E -> S -> S -> Prop) (step' : E' -> S' -> S' -> Prop).
Context (part : S -> S') (label : E -> option E').
Implicit Types (ev : nat -> option E) (tr : nat -> S).

Definition part_events ev (n : nat) : option E' := ev n ≫= label.
Definition part_trace tr (n : nat) : S' := part (tr n).

Lemma run_part ev tr :
  (forall n e, step e (tr n) (tr (Datatypes.S n)) ->
     match label e with
     | Some e' => step' e' (part (tr n)) (part (tr (Datatypes.S n)))
     | None => part (tr (Datatypes.S n)) = part (tr n)
     end) ->
  run_of step ev tr -> run_of step' (part_events ev) (part_trace tr).
Proof.
  intros Hpart Hr n. specialize (Hr n). unfold part_events, part_trace.
  destruct (ev n) as [e|]; simpl; [by apply Hpart|by rewrite Hr].
Qed.

Lemma fair_part e e' ev tr :
  label e = Some e' -> (forall n, enabled step' e' (part (tr n)) -> enabled step e (tr n)) ->
  fair step e ev tr -> fair step' e' (part_events ev) (part_trace tr).
Proof.
  intros Hl He Hf n. destruct (Hf n) as (m & Hm & Hor). exists m. split; [done|].
  destruct Hor as [E0|Hne]; [left; unfold part_events; by rewrite E0|right].
  intros Hen. by apply Hne, He.
Qed.
End parts.

(** ** Runs to evaluate examples with *)

(** What is told step by step, and then goes on alike for ever. *)
Section played.
Context {State Event : Type} (step : Event -> State -> State -> Prop).
Context (told : list (Event * State)) (idle : Event) (rest : nat -> State).

Fixpoint plays (told : list (Event * State)) (last : State) : Prop :=
  match told with
  | [] => True
  | (e, x) :: told => step e x (default last (snd <$> head told)) /\ plays told last
  end.

Definition played_ev (n : nat) : option Event := Some (default idle (fst <$> told !! n)).
Definition played_tr (n : nat) : State := default (rest (n - length told)) (snd <$> told !! n).

Lemma played_rest n : played_tr (length told + n) = rest n.
Proof.
  unfold played_tr. rewrite lookup_ge_None_2 by lia. simpl. f_equal. lia.
Qed.

Lemma plays_lookup l last n e x :
  plays l last -> l !! n = Some (e, x) -> step e x (default last (snd <$> l !! S n)).
Proof.
  revert n. induction l as [|[e' x'] l IH]; [done|]. intros [|n] [Hs Hp] Hl; simpl in *.
  - simplify_eq. by destruct l.
  - by apply IH.
Qed.

Lemma played_run :
  plays told (rest 0) -> (forall n, step idle (rest n) (rest (S n))) -> run_of step played_ev played_tr.
Proof.
  intros Hp Hi n. unfold played_ev, played_tr. destruct (told !! n) as [[e x]|] eqn:El; simpl.
  - pose proof (plays_lookup _ _ _ _ _ Hp El) as Hs. pose proof (lookup_lt_Some _ _ _ El) as Hn.
    destruct (told !! S n) as [[]|] eqn:El'; [done|]. apply lookup_ge_None in El'.
    by replace (S n - length told)%nat with 0%nat by lia.
  - apply lookup_ge_None in El. rewrite (lookup_ge_None_2 told (S n)) by lia.
    by replace (S n - length told)%nat with (S (n - length told)) by lia.
Qed.

Lemma played_fair e : (forall n, ~ enabled step e (rest n)) -> fair step e played_ev played_tr.
Proof.
  intros He n. exists (length told + n)%nat. split; [lia|]. right. rewrite played_rest. apply He.
Qed.

Lemma played_clock clock : clock_goes_on clock rest -> clock_goes_on clock played_tr.
Proof.
  intros Hc t n. destruct (Hc t n) as (m & Hm & Ht). exists (length told + m)%nat.
  split; [lia|]. by rewrite played_rest.
Qed.
End played.
