(* ===== verification/Float64.v ===== *)
(** * IEEE 754 binary64, the [f64] of the program

    The values are those of the Standard Library's [SpecFloat] (an inductive type over [Z],
    no primitive floats), with precision 53 and maximal exponent 1024.  The operations are
    the ones the program uses: sum, difference, [max], comparisons, [is_finite], the casts
    from and to integers and [str::parse].  The lemmas show that rounding yields canonical
    values and that a difference of non-negative finite values never overflows. *)

From Stdlib Require Import SpecFloat Ascii.
From S2P Require Import Prelude.

Local Open Scope Z_scope.

Abbreviation f64 := spec_float.

Definition f64_zero : f64 := S754_zero false.

(** [f64::MAX]. *)
Definition f64_max_value : f64 := S754_finite false 9007199254740991 971.

Definition f64_add (x y : f64) : f64 := SFadd 53 1024 x y.
Definition f64_sub (x y : f64) : f64 := SFsub 53 1024 x y.

Definition f64_is_nan (x : f64) : bool :=
  match x with S754_nan => true | _ => false end.

Definition f64_is_infinite (x : f64) : bool :=
  match x with S754_infinity _ => true | _ => false end.

Definition f64_is_finite (x : f64) : bool :=
  match x with S754_zero _ | S754_finite _ _ _ => true | _ => false end.

(** [x < y], [x <= y], [x == y]: false when an operand is NaN. *)
Definition f64_lt (x y : f64) : bool := SFltb x y.
Definition f64_le (x y : f64) : bool := SFleb x y.
Definition f64_eq (x y : f64) : bool := SFeqb x y.

(** [x.max(y)]: the other operand when one is NaN. *)
Definition f64_max (x y : f64) : f64 :=
  if f64_is_nan x then y
  else if f64_is_nan y then x
  else if f64_lt x y then y else x.

(** [i as f64], rounded to nearest even. *)
Definition f64_of_Z (i : Z) : f64 := binary_normalize 53 1024 i 0 false.

(** The integer part, towards zero. *)
Definition f64_trunc (x : f64) : Z :=
  match x with
  | S754_finite s m e => (if s then -1 else 1) * Z.shiftl (Zpos m) e
  | _ => 0
  end.

(** [x as u64] and [x as i64]: saturating casts, NaN becomes 0. *)
Definition f64_as_int (lo hi : Z) (x : f64) : Z :=
  match x with
  | S754_nan => 0
  | S754_infinity s => if s then lo else hi
  | _ => Z.max lo (Z.min hi (f64_trunc x))
  end.
Definition f64_as_u64 : f64 -> Z := f64_as_int 0 u64_max.
Definition f64_as_i64 : f64 -> Z := f64_as_int i64_min i64_max.

(** ** [str::parse] for numbers *)

Definition digit_of (c : ascii) : option Z :=
  let n := Z.of_N (N_of_ascii c) in
  if (48 <=? n) && (n <=? 57) then Some (n - 48) else None.

Fixpoint parse_digits (acc : Z) (s : string) : option Z :=
  match s with
  | EmptyString => Some acc
  | String c s' =>
      match digit_of c with
      | Some d => parse_digits (10 * acc + d) s'
      | None => None
      end
  end.

(** At least one digit, digits only. *)
Definition parse_nat (s : string) : option Z :=
  if str_is_empty s then None else parse_digits 0 s.

(** [s.parse::<i64>()]: an optional sign, then digits, within range. *)
Definition parse_i64 (s : string) : option Z :=
  let v :=
    match s with
    | String "-" s' => Z.opp <$> parse_nat s'
    | String "+" s' => parse_nat s'
    | _ => parse_nat s
    end in
  match v with
  | Some z => if (i64_min <=? z) && (z <=? i64_max) then Some z else None
  | None => None
  end.

(** [s.parse::<u64>()]. *)
Definition parse_u64 (s : string) : option Z :=
  let v := match s with String "+" s' => parse_nat s' | _ => parse_nat s end in
  match v with
  | Some z => if z <=? u64_max then Some z else None
  | None => None
  end.

(** The digits at the head of [s]: their value after [acc], their number, the rest. *)
Fixpoint take_digits (acc n : Z) (s : string) : Z * Z * string :=
  match s with
  | String c s' =>
      match digit_of c with
      | Some d => take_digits (10 * acc + d) (n + 1) s'
      | None => (acc, n, s)
      end
  | EmptyString => (acc, n, s)
  end.

(** The exponent digits: accumulation stops once the value reaches 65536. *)
Fixpoint parse_exp_digits (acc : Z) (s : string) : option Z :=
  match s with
  | EmptyString => Some acc
  | String c s' =>
      match digit_of c with
      | Some d => parse_exp_digits (if acc <? 65536 then 10 * acc + d else acc) s'
      | None => None
      end
  end.

Definition parse_exp (s : string) : option Z :=
  let digits s := if str_is_empty s then None else parse_exp_digits 0 s in
  match s with
  | String "-" s' => Z.opp <$> digits s'
  | String "+" s' => digits s'
  | _ => digits s
  end.

(** [m * 10^e10] rounded to nearest even.  A negative power of ten is divided out with at
    least 64 quotient bits and a sticky bit for the remainder, so one rounding decides. *)
Definition f64_of_decimal (m e10 : Z) : f64 :=
  if m =? 0 then f64_zero
  else if 0 <=? e10 then f64_of_Z (m * 10 ^ e10)
  else
    let d := 10 ^ (- e10) in
    let k := Z.max 0 (66 + Z.log2 d - Z.log2 m) in
    let q := Z.shiftl m k / d in
    let r := Z.shiftl m k mod d in
    binary_normalize 53 1024 (2 * q + (if r =? 0 then 0 else 1)) (- (k + 1)) false.

Definition to_ascii_lower_char (c : ascii) : ascii :=
  let n := N_of_ascii c in
  if ((65 <=? n) && (n <=? 90))%N then ascii_of_N (n + 32)%N else c.

Fixpoint to_ascii_lowercase (s : string) : string :=
  match s with
  | EmptyString => EmptyString
  | String c s' => String (to_ascii_lower_char c) (to_ascii_lowercase s')
  end.

Definition parse_f64_unsigned (s : string) : option f64 :=
  let l := to_ascii_lowercase s in
  if String.eqb l "inf" || String.eqb l "infinity" then Some (S754_infinity false)
  else if String.eqb l "nan" then Some S754_nan
  else
    let '(m1, n1, s1) := take_digits 0 0 s in
    let '(m2, n2, s2) :=
      match s1 with
      | String "." s' => take_digits m1 0 s'
      | _ => (m1, 0, s1)
      end in
    if n1 + n2 =? 0 then None
    else
      match s2 with
      | EmptyString => Some (f64_of_decimal m2 (- n2))
      | String c s' =>
          if Ascii.eqb c "e" || Ascii.eqb c "E" then
            match parse_exp s' with
            | Some e => Some (f64_of_decimal m2 (e - n2))
            | None => None
            end
          else None
      end.

(** [s.parse::<f64>()]. *)
Definition parse_f64 (s : string) : option f64 :=
  match s with
  | String "-" s' => SFopp <$> parse_f64_unsigned s'
  | String "+" s' => parse_f64_unsigned s'
  | _ => parse_f64_unsigned s
  end.

(** ** Well-formed values *)

(** A value a 64-bit word encodes: the mantissa and exponent are canonical. *)
Definition f64_valid (x : f64) : bool := valid_binary 53 1024 x.

(** Finite and not below zero (a zero of either sign is not below zero). *)
Definition f64_nonneg (x : f64) : bool :=
  match x with
  | S754_zero _ => true
  | S754_finite s _ _ => negb s
  | _ => false
  end.

(** What a cumulative cost is: canonical, finite, not below zero. *)
Definition f64_cost (x : f64) : Prop := f64_valid x = true /\ f64_nonneg x = true.

Example parse_f64_ok : parse_f64 "0.125" = Some (S754_finite false 4503599627370496 (-55)).
Proof. vm_compute. reflexivity. Qed.
Example parse_f64_exp : parse_f64 "-12.5e1" = Some (S754_finite true 8796093022208000 (-46)).
Proof. vm_compute. reflexivity. Qed.
Example parse_f64_bad : parse_f64 "1.2.3" = None /\ parse_f64 "." = None /\ parse_f64 "" = None.
Proof. repeat split; vm_compute; reflexivity. Qed.
Example f64_of_u64_max : f64_of_Z u64_max = S754_finite false 4503599627370496 12.
Proof. vm_compute. reflexivity. Qed.

(** * Lemmas *)

(** ** Digits and shifts *)

Local Abbreviation fexp := (SpecFloat.fexp 53 1024).

Lemma fexp_unfold x : fexp x = Z.max (x - 53) (-1074).
Proof. unfold SpecFloat.fexp, SpecFloat.emin. lia. Qed.

Lemma digits2_log2 p : Zpos (digits2_pos p) = Z.log2 (Zpos p) + 1.
Proof.
  induction p as [p IH|p IH|]; simpl digits2_pos; [| |done].
  - rewrite Pos2Z.inj_succ, IH. change (Zpos p~1) with (2 * Zpos p + 1).
    rewrite Z.log2_succ_double by lia. lia.
  - rewrite Pos2Z.inj_succ, IH. change (Zpos p~0) with (2 * Zpos p).
    rewrite Z.log2_double by lia. lia.
Qed.

Lemma Zdigits2_pos m : 0 < m -> Zdigits2 m = Z.log2 m + 1.
Proof. destruct m; simpl; try lia. intros _. apply digits2_log2. Qed.

Lemma shl_align_pos_spec m e e' :
  shl_align m e e' =
    if e' <? e then (Z.to_pos (Z.shiftl (Zpos m) (e - e')), e') else (m, e).
Proof.
  unfold shl_align. destruct (e' - e) as [|p|p] eqn:E.
  - destruct (Z.ltb_spec e' e); [lia|done].
  - destruct (Z.ltb_spec e' e); [lia|done].
  - destruct (Z.ltb_spec e' e); [|lia]. replace (e - e') with (Zpos p) by lia.
    f_equal. rewrite Z.shiftl_mul_pow2 by lia.
    assert (Zpos (Pos.iter xO m p) = Zpos m * 2 ^ Zpos p) as <-; [|done].
    clear. induction p as [|p IH] using Pos.peano_ind.
    + simpl. lia.
    + rewrite Pos.iter_succ, Pos2Z.inj_succ, Z.pow_succ_r by lia.
      rewrite Pos2Z.inj_xO, IH. ring.
Qed.

Lemma shr_1_m r : 0 <= shr_m r -> shr_m (shr_1 r) = shr_m r / 2 /\ 0 <= shr_m (shr_1 r).
Proof.
  destruct r as [m a b]. simpl. intros Hm.
  destruct m as [|[p|p|]|p]; simpl; [done| | |done|lia]; (split; [|lia]).
  - rewrite Pos2Z.inj_xI. apply Z.div_unique with (r := 1); lia.
  - rewrite Pos2Z.inj_xO. apply Z.div_unique with (r := 0); lia.
Qed.

Lemma shr_iter_m p r :
  0 <= shr_m r ->
  shr_m (SpecFloat.iter_pos shr_1 p r) = Z.shiftr (shr_m r) (Zpos p) /\
  0 <= shr_m (SpecFloat.iter_pos shr_1 p r).
Proof.
  revert r. induction p as [p IH|p IH|]; intros r Hr; simpl.
  - destruct (shr_1_m r Hr) as [E1 P1].
    destruct (IH _ P1) as [E2 P2]. destruct (IH _ P2) as [E3 P3].
    split; [|done]. rewrite E3, E2, E1. change 2 with (2 ^ 1).
    rewrite <-(Z.shiftr_div_pow2 _ 1), !Z.shiftr_shiftr by lia. f_equal. lia.
  - destruct (IH _ Hr) as [E2 P2]. destruct (IH _ P2) as [E3 P3].
    split; [|done]. rewrite E3, E2, Z.shiftr_shiftr by lia. f_equal. lia.
  - destruct (shr_1_m r Hr) as [E1 P1]. split; [|done].
    rewrite E1. rewrite Z.shiftr_div_pow2 by lia. done.
Qed.

Lemma shr_fexp_exact m e :
  0 <= m ->
  exists r, shr_fexp 53 1024 m e loc_Exact = (r, Z.max e (fexp (Zdigits2 m + e))) /\
    shr_m r = Z.shiftr m (Z.max 0 (fexp (Zdigits2 m + e) - e)).
Proof.
  intros Hm. unfold shr_fexp, shr. simpl shr_record_of_loc.
  destruct (fexp (Zdigits2 m + e) - e) as [|p|p] eqn:E.
  - eexists. split; [f_equal; lia|]. simpl. by rewrite Z.shiftr_0_r.
  - eexists. split; [f_equal; lia|].
    destruct (shr_iter_m p (Build_shr_record m false false) Hm) as [-> _]. f_equal.
  - eexists. split; [f_equal; lia|]. simpl. by rewrite Z.shiftr_0_r.
Qed.

(** The end of a rounding: the rounded mantissa [q] at exponent [e]. *)
Definition round_finish (s : bool) (q e : Z) : f64 :=
  let e' := Z.max e (fexp (Zdigits2 q + e)) in
  match Z.shiftr q (Z.max 0 (fexp (Zdigits2 q + e) - e)) with
  | Z0 => S754_zero s
  | Zpos m => if e' <=? 971 then S754_finite s m e' else S754_infinity s
  | Zneg _ => S754_nan
  end.

(** A rounding truncates the exact value [m * 2^e] at the exponent of the format, adds at
    most one unit and normalizes. *)
Lemma binary_round_cases s m e :
  let E := fexp (Z.log2 (Zpos m) + 1 + e) in
  let q := Z.shiftl (Zpos m) (e - E) in
  exists q', (q' = q \/ q' = q + 1) /\ binary_round 53 1024 s m e = round_finish s q' E.
Proof.
  intros E q. unfold binary_round. rewrite shl_align_pos_spec, digits2_log2.
  change (SpecFloat.fexp 53 1024 (Z.log2 (Zpos m) + 1 + e)) with E.
  set (p := if E <? e then _ else _).
  assert (exists mz ez, p = (mz, ez) /\ Z.log2 (Zpos mz) + ez = Z.log2 (Zpos m) + e /\
    ez <= E /\ Z.shiftr (Zpos mz) (E - ez) = q) as (mz & ez & -> & Hlog & Hez & Hq).
  { unfold p, q. destruct (Z.ltb_spec E e).
    - do 2 eexists. split; [done|].
      assert (0 < Z.shiftl (Zpos m) (e - E)).
      { rewrite Z.shiftl_mul_pow2 by lia. apply Z.mul_pos_pos; [lia|].
        apply Z.pow_pos_nonneg; lia. }
      rewrite Z2Pos.id by lia. rewrite Z.log2_shiftl, Z.sub_diag, Z.shiftr_0_r by lia.
      split_and!; lia.
    - do 2 eexists. split; [done|]. split_and!; try lia.
      rewrite <-Z.shiftr_opp_r. f_equal. lia. }
  unfold binary_round_aux.
  destruct (shr_fexp_exact (Zpos mz) ez) as (r1 & -> & Hr1); [lia|].
  rewrite Zdigits2_pos in * by lia.
  replace (Z.log2 (Zpos mz) + 1 + ez) with (Z.log2 (Zpos m) + 1 + e) in * by lia.
  fold E in Hr1 |- *. rewrite !Z.max_r in Hr1 by lia. rewrite Z.max_r by lia.
  rewrite Hq in Hr1.
  exists (round_nearest_even (shr_m r1) (loc_of_shr_record r1)). split.
  { rewrite Hr1. unfold round_nearest_even.
    repeat case_match; auto. }
  assert (0 <= q) by (unfold q; apply Z.shiftl_nonneg; lia).
  assert (0 <= round_nearest_even (shr_m r1) (loc_of_shr_record r1)).
  { rewrite Hr1. unfold round_nearest_even. repeat case_match; lia. }
  destruct (shr_fexp_exact (round_nearest_even (shr_m r1) (loc_of_shr_record r1)) E)
    as (r2 & -> & Hr2); [done|].
  rewrite Hr2. done.
Qed.

Lemma round_finish_valid s q e :
  0 <= q -> (0 < q -> e <= fexp (Z.log2 q + 1 + e)) -> f64_valid (round_finish s q e) = true.
Proof.
  intros Hq Hlow. unfold round_finish.
  destruct (Z.shiftr q _) as [|m|m] eqn:Em; [done| |done].
  destruct (Z.leb_spec (Z.max e (fexp (Zdigits2 q + e))) 971) as [Hle|]; [|done].
  assert (0 < q) as Hpos.
  { destruct (Z.eq_dec q 0) as [->|]; [|lia]. by rewrite Z.shiftr_0_l in Em. }
  rewrite Zdigits2_pos in * by done.
  specialize (Hlow Hpos).
  unfold f64_valid, valid_binary, bounded, canonical_mantissa.
  rewrite digits2_log2, <-Em, Z.log2_shiftr by done.
  assert (0 < Z.shiftr q (Z.max 0 (fexp (Z.log2 q + 1 + e) - e))) as Hshr by lia.
  assert (Z.max 0 (fexp (Z.log2 q + 1 + e) - e) <= Z.log2 q).
  { destruct (Z.le_gt_cases (Z.max 0 (fexp (Z.log2 q + 1 + e) - e)) (Z.log2 q)); [done|].
    rewrite Z.shiftr_eq_0 in Hshr; lia. }
  apply andb_true_iff. split; [|lia]. apply Z.eqb_eq.
  rewrite !fexp_unfold in *. lia.
Qed.

Lemma scaled_log2 m e E :
  let q := Z.shiftl (Zpos m) (e - E) in
  0 < q -> Z.log2 q + E = Z.log2 (Zpos m) + e.
Proof.
  intros q Hq. unfold q in *. destruct (Z.le_gt_cases 0 (e - E)).
  - rewrite Z.log2_shiftl by lia. lia.
  - rewrite <-(Z.opp_involutive (e - E)), Z.shiftl_opp_r in Hq |- *.
    rewrite Z.log2_shiftr by lia.
    destruct (Z.le_gt_cases (- (e - E)) (Z.log2 (Zpos m))); [lia|].
    rewrite Z.shiftr_eq_0 in Hq; lia.
Qed.

Lemma scaled_zero m e E :
  Z.shiftl (Zpos m) (e - E) = 0 -> Z.log2 (Zpos m) + e < E.
Proof.
  intros Hq. destruct (Z.le_gt_cases E (Z.log2 (Zpos m) + e)); [|done].
  assert (2 ^ (Z.log2 (Zpos m)) <= Zpos m) by (apply Z.log2_spec; lia).
  destruct (Z.le_gt_cases 0 (e - E)).
  - rewrite Z.shiftl_mul_pow2 in Hq by lia.
    assert (0 < 2 ^ (e - E)) by (apply Z.pow_pos_nonneg; lia). nia.
  - rewrite <-(Z.opp_involutive (e - E)), Z.shiftl_opp_r, Z.shiftr_div_pow2 in Hq by lia.
    apply Z.div_small_iff in Hq; [|apply Z.pow_nonzero; lia].
    assert (2 ^ (- (e - E)) <= 2 ^ (Z.log2 (Zpos m))); [|lia].
    apply Z.pow_le_mono_r; lia.
Qed.

Lemma binary_round_valid s m e : f64_valid (binary_round 53 1024 s m e) = true.
Proof.
  destruct (binary_round_cases s m e) as (q' & Hq' & ->).
  set (E := fexp (Z.log2 (Zpos m) + 1 + e)) in *.
  set (q := Z.shiftl (Zpos m) (e - E)) in *.
  assert (0 <= q) by (apply Z.shiftl_nonneg; lia).
  apply round_finish_valid; [lia|]. intros Hpos.
  destruct (Z.eq_dec q 0) as [Hz|Hnz].
  - assert (q' = 1) as -> by lia. apply scaled_zero in Hz.
    change (Z.log2 1) with 0. unfold E in *. rewrite !fexp_unfold in *. lia.
  - assert (Z.log2 q + E = Z.log2 (Zpos m) + e) as Hl by (apply scaled_log2; lia).
    assert (Z.log2 q <= Z.log2 q') by (apply Z.log2_le_mono; lia).
    unfold E in *. rewrite !fexp_unfold in *. lia.
Qed.

Lemma binary_normalize_valid m e s : f64_valid (binary_normalize 53 1024 m e s) = true.
Proof. destruct m; simpl; [done| |]; apply binary_round_valid. Qed.

(** ** Sums and differences of costs *)

Lemma f64_add_valid x y : f64_valid x = true -> f64_valid y = true -> f64_valid (f64_add x y) = true.
Proof.
  unfold f64_add, SFadd. intros Hx Hy.
  destruct x as [[]|[]| |sx mx ex], y as [[]|[]| |sy my ey]; try done; try exact Hx; try exact Hy.
  all: apply binary_normalize_valid.
Qed.

Lemma f64_nonneg_of_Z i : 0 <= i -> f64_is_finite (f64_of_Z i) = true -> f64_nonneg (f64_of_Z i) = true.
Proof.
  unfold f64_of_Z. destruct i as [|p|p]; [done| |lia]. intros _. simpl.
  destruct (binary_round_cases false p 0) as (q & _ & ->).
  unfold round_finish. repeat case_match; done.
Qed.

(** Rounding a value below [M * 2^T], [T] the largest exponent, stays finite. *)
Lemma binary_round_no_overflow s m e M :
  M <= 9007199254740991 ->
  (e <= 971 /\ Zpos m < M * 2 ^ (971 - e)) ->
  f64_is_finite (binary_round 53 1024 s m e) = true.
Proof.
  intros HM [He Hlt].
  destruct (binary_round_cases s m e) as (q' & Hq' & ->).
  set (E := fexp (Z.log2 (Zpos m) + 1 + e)) in *.
  set (q := Z.shiftl (Zpos m) (e - E)) in *.
  assert (Z.log2 (Zpos m) < 53 + (971 - e)) as Hlog.
  { apply Z.log2_lt_pow2; [lia|]. rewrite Z.pow_add_r by lia.
    assert (0 < 2 ^ (971 - e)) by (apply Z.pow_pos_nonneg; lia).
    change (2 ^ 53) with 9007199254740992. nia. }
  assert (E <= 971) as HE by (unfold E; rewrite fexp_unfold; lia).
  assert (0 <= q) by (apply Z.shiftl_nonneg; lia).
  assert (0 < q -> Z.log2 q + E = Z.log2 (Zpos m) + e) as Hl by (apply scaled_log2).
  assert (E = 971 -> q < M) as HqM.
  { intros HE'. unfold q. rewrite HE'. replace (e - 971) with (- (971 - e)) by lia.
    rewrite Z.shiftl_opp_r, Z.shiftr_div_pow2 by lia.
    apply Z.div_lt_upper_bound; [apply Z.pow_pos_nonneg; lia|]. lia. }
  assert (Z.max E (fexp (Zdigits2 q' + E)) <= 971) as Hmax.
  { destruct (Z.eq_dec q' 0) as [->|].
    { simpl Zdigits2. rewrite fexp_unfold. lia. }
    rewrite Zdigits2_pos by lia.
    assert (Z.log2 q' <= 52 \/ E < 971 /\ Z.log2 q' <= 53) as Hd; [|rewrite fexp_unfold; lia].
    destruct (Z.eq_dec E 971) as [HE'|].
    - left. specialize (HqM HE'). assert (Z.log2 q' < 53); [|lia].
      apply Z.log2_lt_pow2; [lia|]. change (2 ^ 53) with 9007199254740992. lia.
    - right. split; [lia|]. destruct (Z.eq_dec q 0) as [Hz|].
      + assert (q' = 1) as -> by lia. change (Z.log2 1) with 0. lia.
      + assert (Z.log2 q <= 52).
        { specialize (Hl ltac:(lia)). unfold E in *. rewrite fexp_unfold in *. lia. }
        assert (Z.log2 q' < 54); [|lia]. apply Z.log2_lt_pow2; [lia|].
        assert (q < 2 ^ 53) by (apply Z.log2_lt_pow2; lia).
        change (2 ^ 54) with (2 * 2 ^ 53). change (2 ^ 53) with 9007199254740992 in *. lia. }
  unfold round_finish. destruct (Z.shiftr q' _) eqn:Em; [done| |].
  - by apply Z.leb_le in Hmax as ->.
  - assert (0 <= Zneg p); [|lia]. rewrite <-Em. apply Z.shiftr_nonneg. lia.
Qed.

Lemma valid_finite_bounds s m e :
  f64_valid (S754_finite s m e) = true -> Zpos m <= 9007199254740991 /\ e <= 971.
Proof.
  unfold f64_valid, valid_binary, bounded, canonical_mantissa.
  intros [Hc He]%andb_true_iff. apply Z.eqb_eq in Hc. apply Z.leb_le in He.
  rewrite digits2_log2, fexp_unfold in Hc.
  assert (Zpos m < 2 ^ 53) by (apply Z.log2_lt_pow2; lia).
  change (2 ^ 53) with 9007199254740992 in *. lia.
Qed.

Lemma shl_align_fst m e e' :
  e' <= e -> Zpos (fst (shl_align m e e')) = Zpos m * 2 ^ (e - e').
Proof.
  intros Hle. rewrite shl_align_pos_spec. destruct (Z.ltb_spec e' e); simpl.
  - rewrite Z2Pos.id, Z.shiftl_mul_pow2 by lia || (rewrite Z.shiftl_mul_pow2 by lia;
      assert (0 < 2 ^ (e - e')) by (apply Z.pow_pos_nonneg; lia); nia). done.
  - replace (e - e') with 0 by lia. simpl. lia.
Qed.

Lemma f64_sub_cost_finite x y :
  f64_cost x -> f64_cost y ->
  f64_valid (f64_sub x y) = true /\ f64_is_finite (f64_sub x y) = true.
Proof.
  intros [Hvx Hx] [Hvy Hy].
  destruct x as [[]| | |[] mx ex], y as [[]| | |[] my ey]; try done.
  pose proof (valid_finite_bounds _ _ _ Hvx) as [Hmx Hex].
  pose proof (valid_finite_bounds _ _ _ Hvy) as [Hmy Hey].
  unfold f64_sub, SFsub. simpl cond_Zopp. rewrite !shl_align_fst by lia.
  split; [apply binary_normalize_valid|].
  assert (forall m e, Z.min ex ey <= e -> e <= 971 ->
    Zpos m * 2 ^ (e - Z.min ex ey) <= Zpos m * 2 ^ (971 - Z.min ex ey)) as Hpow.
  { intros. apply Z.mul_le_mono_nonneg_l; [lia|]. apply Z.pow_le_mono_r; lia. }
  assert (forall m e, 0 < Zpos m * 2 ^ (e - Z.min ex ey) \/ e < Z.min ex ey) as Hpos.
  { intros. destruct (Z.le_gt_cases (Z.min ex ey) e); [left|by right].
    apply Z.mul_pos_pos; [lia|]. apply Z.pow_pos_nonneg; lia. }
  pose proof (Hpow mx ex ltac:(lia) Hex). pose proof (Hpow my ey ltac:(lia) Hey).
  pose proof (Hpos mx ex). pose proof (Hpos my ey).
  destruct (Zpos mx * 2 ^ (ex - Z.min ex ey) - Zpos my * 2 ^ (ey - Z.min ex ey)) as [|p|p] eqn:Ed;
    simpl; [done| |].
  - apply (binary_round_no_overflow _ _ _ (Zpos mx)); [lia|]. split; lia.
  - apply (binary_round_no_overflow _ _ _ (Zpos my)); [lia|]. split; lia.
Qed.

Lemma f64_max_zero_cost x :
  f64_valid x = true -> f64_is_finite x = true -> f64_cost (f64_max x f64_zero).
Proof. intros Hv Hf. destruct x as [[]| | |[] m e]; try done. Qed.

Lemma f64_cost_zero : f64_cost f64_zero.
Proof. done. Qed.

Lemma f64_cost_max : f64_cost f64_max_value.
Proof. done. Qed.

Lemma f64_cost_of_Z i : 0 <= i <= u64_max -> f64_cost (f64_of_Z i).
Proof.
  intros Hi. assert (f64_is_finite (f64_of_Z i) = true) as Hfin.
  { unfold f64_of_Z. destruct i as [|p|p]; [done| |lia]. simpl.
    apply (binary_round_no_overflow _ _ _ 1); [done|]. split; [done|].
    assert (u64_max < 1 * 2 ^ (971 - 0)) by (vm_compute; done). lia. }
  split; [apply binary_normalize_valid|]. apply f64_nonneg_of_Z; [lia|done].
Qed.

Lemma f64_of_decimal_valid m e : f64_valid (f64_of_decimal m e) = true.
Proof. unfold f64_of_decimal. repeat case_match; [done|apply binary_normalize_valid..]. Qed.

Lemma f64_opp_valid x : f64_valid (SFopp x) = f64_valid x.
Proof. by destruct x. Qed.

Lemma parse_f64_unsigned_valid s x : parse_f64_unsigned s = Some x -> f64_valid x = true.
Proof.
  unfold parse_f64_unsigned. intros Hs.
  repeat case_match; simplify_eq; try done; apply f64_of_decimal_valid.
Qed.

Lemma parse_f64_valid s x : parse_f64 s = Some x -> f64_valid x = true.
Proof.
  assert (forall s', SFopp <$> parse_f64_unsigned s' = Some x -> f64_valid x = true) as Hopp.
  { intros s' (y & Hp & ->)%fmap_Some. rewrite f64_opp_valid.
    by eapply parse_f64_unsigned_valid. }
  unfold parse_f64. intros Hs.
  repeat case_match; eauto using parse_f64_unsigned_valid.
Qed.

Lemma f64_as_u64_range x : is_u64 (f64_as_u64 x).
Proof.
  unfold f64_as_u64, f64_as_int, is_u64, u64_max. repeat case_match; lia.
Qed.

Lemma f64_as_i64_range x : i64_min <= f64_as_i64 x <= i64_max.
Proof.
  unfold f64_as_i64, f64_as_int, i64_min, i64_max. repeat case_match; lia.
Qed.

Lemma parse_i64_range s z : parse_i64 s = Some z -> i64_min <= z <= i64_max.
Proof.
  unfold parse_i64. set (v := match s with EmptyString => _ | _ => _ end).
  destruct v as [w|]; [|done].
  destruct ((i64_min <=? w) && (w <=? i64_max)) eqn:E; [|done]. intros [= <-]. lia.
Qed.

(** A canonical value below 2^64 is what [as u64] truncates exactly. *)
Lemma f64_lt_u64_bound m e :
  f64_valid (S754_finite false m e) = true ->
  f64_lt (S754_finite false m e) (f64_of_Z u64_max) = true ->
  Z.shiftl (Zpos m) e <= u64_max.
Proof.
  intros Hv Hlt. pose proof (valid_finite_bounds _ _ _ Hv) as [Hm _].
  change (f64_of_Z u64_max) with (S754_finite false 4503599627370496 12) in Hlt.
  remember 4503599627370496%positive as K eqn:HK.
  assert (e < 12 \/ e = 12 /\ Zpos m < Zpos K) as Hcases.
  { unfold f64_lt, SFltb, SFcompare in Hlt. destruct (Z.compare_spec e 12); [right|by left|done].
    split; [done|]. change (Pos.compare_cont Eq m K) with (Pos.compare m K) in Hlt.
    by destruct (Pos.compare_spec m K). }
  assert (Zpos K = 4503599627370496) as HK' by (by rewrite HK). clear HK.
  assert (Hz : Zpos m <= 2 ^ 53 - 1) by (change (2 ^ 53) with 9007199254740992; lia).
  destruct Hcases as [He|[-> Hlt']].
  - destruct (Z.le_gt_cases 0 e).
    + rewrite Z.shiftl_mul_pow2 by lia.
      assert (2 ^ e <= 2 ^ 11) by (apply Z.pow_le_mono_r; lia).
      assert (Zpos m * 2 ^ e <= (2 ^ 53 - 1) * 2 ^ 11).
      { apply Z.mul_le_mono_nonneg; lia. }
      change ((2 ^ 53 - 1) * 2 ^ 11) with 18446744073709549568 in *. unfold u64_max. lia.
    + rewrite <-(Z.opp_involutive e), Z.shiftl_opp_r, Z.shiftr_div_pow2 by lia.
      assert (Zpos m / 2 ^ (- e) <= Zpos m); [|unfold u64_max; change (2 ^ 53) with 9007199254740992 in *; lia].
      apply Z.div_le_upper_bound; [apply Z.pow_pos_nonneg; lia|].
      assert (1 <= 2 ^ (- e)) by (assert (0 < 2 ^ (- e)) by (apply Z.pow_pos_nonneg; lia); lia). nia.
  - rewrite Z.shiftl_mul_pow2 by lia. change (2 ^ 12) with 4096. unfold u64_max. lia.
Qed.

Create HintDb f64 discriminated.
#[export] Hint Resolve f64_cost_zero f64_cost_max f64_cost_of_Z f64_as_u64_range : f64.
