(* ===== verification/Otlp.v ===== *)
(** * OTLP messages and the outside world

    The protobuf messages come from the [opentelemetry-proto] crate.  Only their shape is
    transcribed here: the fields the program reads, under their names, with its integer
    widths as [Z] and its [double]s as [f64].  What the crates compute is a parameter: the
    class [World] holds the clock and the decoding of the enumerations, with the documented
    wire values as a law of its own ([WireValues]) that theorems name when they rely on it. *)

From S2P Require Import Prelude Float64.

(** ** Common *)

(** [any_value::Value], [AnyValue], [KeyValue]. *)
Inductive Value : Type :=
| StringValue (s : string)
| BoolValue (b : bool)
| IntValue (i : Z)
| DoubleValue (d : f64)
| ArrayValue (values : list AnyValue)
| KvlistValue (values : list KeyValue)
| BytesValue (bytes : list Z)
| StringValueStrindex (i : Z)
with AnyValue : Type := MkAnyValue (value : option Value)
with KeyValue : Type := MkKeyValue (key : string) (value : option AnyValue).

Definition any_value (v : AnyValue) : option Value :=
  match v with MkAnyValue o => o end.
Definition kv_key (kv : KeyValue) : string :=
  match kv with MkKeyValue k _ => k end.
Definition kv_value (kv : KeyValue) : option AnyValue :=
  match kv with MkKeyValue _ v => v end.

Record Resource := { resource_attributes : list KeyValue }.
Record Scope := { scope_name : string }.

(** ** Logs *)

Record LogRecord := {
  log_time_unix_nano : Z;
  log_severity_number : Z;
  log_severity_text : string;
  log_body : option AnyValue;
  log_attributes : list KeyValue;
  log_event_name : string;
}.
Record ScopeLogs := { sl_scope : option Scope; sl_log_records : list LogRecord }.
Record ResourceLogs := { rl_resource : option Resource; rl_scope_logs : list ScopeLogs }.
Record ExportLogsServiceRequest := { resource_logs : list ResourceLogs }.

(** ** Traces *)

Record SpanEvent := {
  ev_time_unix_nano : Z;
  ev_name : string;
  ev_attributes : list KeyValue;
}.
Record Span := {
  span_trace_id : list Z;
  span_id : list Z;
  span_name : string;
  span_start_time_unix_nano : Z;
  span_end_time_unix_nano : Z;
  span_attributes : list KeyValue;
  span_events : list SpanEvent;
  span_status_code : option Z;
}.
Record ScopeSpans := { ss_scope : option Scope; ss_spans : list Span }.
Record ResourceSpans := { rs_resource : option Resource; rs_scope_spans : list ScopeSpans }.
Record ExportTraceServiceRequest := { resource_spans : list ResourceSpans }.

(** ** Metrics *)

Inductive NumberValue := AsDouble (d : f64) | AsInt (i : Z).
Record NumberDataPoint := {
  ndp_attributes : list KeyValue;
  ndp_flags : Z;
  ndp_value : option NumberValue;
}.
Record HistogramDataPoint := {
  hdp_attributes : list KeyValue;
  hdp_flags : Z;
  hdp_count : Z;
  hdp_sum : option f64;
}.
(** Points the program only counts are left abstract. *)
Inductive MetricData :=
| Gauge (data_points : list NumberDataPoint)
| Sum (data_points : list NumberDataPoint) (aggregation_temporality : Z)
| Histogram (data_points : list HistogramDataPoint) (aggregation_temporality : Z)
| ExponentialHistogram (n_data_points : nat)
| Summary (n_data_points : nat).
Record Metric := {
  metric_name : string;
  metric_description : string;
  metric_unit : string;
  metric_data : option MetricData;
}.
Record ScopeMetrics := { sm_scope : option Scope; sm_metrics : list Metric }.
Record ResourceMetrics := { rm_resource : option Resource; rm_scope_metrics : list ScopeMetrics }.
Record ExportMetricsServiceRequest := { resource_metrics : list ResourceMetrics }.

(** ** The outside world *)

Inductive AggregationTemporality := Unspecified | Delta | Cumulative.

Class World := {
  (** The n-th reading of [OffsetDateTime::now_utc()]. *)
  now_utc : nat -> Z;
  (** [AggregationTemporality::try_from(i32)]. *)
  temporality_try_from : Z -> option AggregationTemporality;
  (** [DataPointFlags::NoRecordedValueMask]. *)
  no_recorded_value_mask : Z;
  (** [OffsetDateTime::format(&Rfc3339)] and [unix_timestamp]. *)
  rfc3339_format : Z -> option string;
  unix_timestamp : Z -> Z;
}.

(** The wire values of [opentelemetry/proto/metrics/v1/metrics.proto]. *)
Class WireValues `{World} : Prop := {
  wire_delta : temporality_try_from 1 = Some Delta;
  wire_cumulative : temporality_try_from 2 = Some Cumulative;
  wire_no_recorded_value : no_recorded_value_mask = 1%Z;
}.

(** ** A world to evaluate examples in *)

Definition sample_world : World := {|
  now_utc n := Z.of_nat n;
  temporality_try_from t :=
    if (t =? 0)%Z then Some Unspecified
    else if (t =? 1)%Z then Some Delta
    else if (t =? 2)%Z then Some Cumulative else None;
  no_recorded_value_mask := 1;
  rfc3339_format t := if (t <? 5)%Z then Some "1970-01-01T00:00:00Z"%string else None;
  unix_timestamp t := t;
|}.

Lemma sample_world_wire : @WireValues sample_world.
Proof. split; reflexivity. Qed.
