(* ===== verification/Io.v ===== *)
(** * Input and output on a disk that can fail

    [std::io] as the program uses it: computations on a state that return a value or an
    error kind.  The disk holds the contents of every file, the permission bits of what is
    created and a script of faults, so that a theorem for all scripts is a theorem for all
    failures. *)

From Stdlib Require Import Strings.Byte.
From S2P Require Import Prelude.

Local Open Scope Z_scope.

(** ** Fallible computations *)

(** The [io::ErrorKind]s the program tells apart. *)
Inductive ErrorKind := NotFound | BrokenPipe | AlreadyExists | OtherError.

#[export] Instance ErrorKind_eq_dec : EqDecision ErrorKind.
Proof. solve_decision. Defined.

Definition io (S A : Type) : Type := S -> S * result A ErrorKind.

Definition io_ret {S A} (a : A) : io S A := fun s => (s, Ok a).
Definition io_fail {S A} (e : ErrorKind) : io S A := fun s => (s, Err e).
Definition io_bind {S A B} (m : io S A) (k : A -> io S B) : io S B :=
  fun s => match m s with
           | (s', Ok a) => k a s'
           | (s', Err e) => (s', Err e)
           end.

Declare Scope io_scope.
Delimit Scope io_scope with io.
Notation "'let!' x ':=' m 'in' k" := (io_bind m (fun x => k))
  (at level 10, x name, m at level 100, k at level 200) : io_scope.
Notation "m ';!' k" := (io_bind m (fun _ => k))
  (at level 100, k at level 200, right associativity) : io_scope.

(** ** The disk *)

(** The permission bits of files and directories.  What existed before the program has bits
    only where they matter; the process's umask clears those of what it creates.  [created] and
    [removed] are histories: the files that an [open] created and those the program removed. *)
Record Permissions := mkPermissions {
  umask : Z;
  file_modes : gmap string Z;
  dir_modes : gmap string Z;
  created : gset string;
  removed : gset string;
}.

(** A fault [Some n] makes the next operation fail, a write after [n] bytes. *)
Record Disk := mkDisk {
  files : gmap string (list byte);
  cursor : Z;
  synced : gmap string (list byte);
  faults : list (option nat);
  perms : Permissions;
}.

Definition contents (d : Disk) (path : string) : list byte := default [] (files d !! path).

Definition set_files (d : Disk) (f : gmap string (list byte)) : Disk :=
  mkDisk f (cursor d) (synced d) (faults d) (perms d).
Definition set_perms (d : Disk) (p : Permissions) : Disk :=
  mkDisk (files d) (cursor d) (synced d) (faults d) p.

(** Run [op] unless the script says it fails; [partial n] is what a failed one leaves. *)
Definition with_fault {A} (partial : nat -> Disk -> Disk) (op : Disk -> Disk * result A ErrorKind)
    : io Disk A :=
  fun d =>
    match faults d with
    | [] => op d
    | f :: rest =>
        let d := mkDisk (files d) (cursor d) (synced d) rest (perms d) in
        match f with
        | None => op d
        | Some n => (partial n d, Err OtherError)
        end
    end.

Definition unharmed : nat -> Disk -> Disk := fun _ d => d.

(** [path.exists()]. *)
Definition is_there (path : string) (d : Disk) : bool :=
  bool_decide (is_Some (files d !! path)) || bool_decide (is_Some (dir_modes (perms d) !! path)).

(** [std::fs::OpenOptions], as far as the program sets them; the mode is that of a new file. *)
Record OpenOptions := mkOpenOptions {
  opt_create : bool;
  opt_create_new : bool;
  opt_truncate : bool;
  opt_mode : Z;
}.

(** The mode is 0o666. *)
Definition open_options : OpenOptions := mkOpenOptions false false false 438.

Definition create_file (path : string) (mode : Z) (p : Permissions) : Permissions :=
  mkPermissions (umask p) (<[path := mode]> (file_modes p)) (dir_modes p) ({[path]} ∪ created p) (removed p).

(** [options.open(path)]; only a file that was not there gets a mode.  That a directory on the
    way is missing or forbidden is one of the faults. *)
Definition open_with (options : OpenOptions) (path : string) : io Disk string :=
  with_fault unharmed (fun d =>
    match dir_modes (perms d) !! path with
    | Some _ => (d, Err (if opt_create_new options then AlreadyExists else OtherError))
    | None =>
        match files d !! path with
        | Some bytes =>
            if opt_create_new options then (d, Err AlreadyExists)
            else if opt_truncate options then (set_files d (<[path := []]> (files d)), Ok path)
            else (d, Ok path)
        | None =>
            if opt_create options || opt_create_new options
            then (set_perms (set_files d (<[path := []]> (files d)))
                    (create_file path (Z.ldiff (opt_mode options) (umask (perms d))) (perms d)), Ok path)
            else (d, Err NotFound)
        end
    end).

(** The files are removed ([std::fs::remove_file]). *)
Definition remove_files (gone : list string) (d : Disk) : Disk :=
  set_perms (set_files d (filter (fun entry => entry.1 ∉ gone) (files d)))
    (mkPermissions (umask (perms d)) (file_modes (perms d)) (dir_modes (perms d)) (created (perms d))
       (list_to_set gone ∪ removed (perms d))).

(** [file.metadata()?.len()]. *)
Definition metadata_len (h : string) : io Disk Z :=
  with_fault unharmed (fun d => (d, Ok (Z.of_nat (length (contents d h))))).

(** [file.set_len(len)]: cuts the file, or extends it with zeros. *)
Definition set_len (h : string) (len : Z) : io Disk unit :=
  with_fault unharmed (fun d =>
    let old := contents d h in
    let n := Z.to_nat len in
    (set_files d (<[h := take n old ++ replicate (n - length old) x00]> (files d)), Ok tt)).

(** [file.seek(SeekFrom::Start(pos))]. *)
Definition seek_start (h : string) (pos : Z) : io Disk unit :=
  with_fault unharmed (fun d => (mkDisk (files d) pos (synced d) (faults d) (perms d), Ok tt)).

(** [file.read_exact(&mut buf[..size])] at the current position. *)
Definition read_exact (h : string) (size : Z) : io Disk (list byte) :=
  with_fault unharmed (fun d =>
    let data := take (Z.to_nat size) (drop (Z.to_nat (cursor d)) (contents d h)) in
    if Z.of_nat (length data) =? size
    then (mkDisk (files d) (cursor d + size) (synced d) (faults d) (perms d), Ok data)
    else (d, Err OtherError)).

(** [file.write_all(bytes)] on a file opened for appending. *)
Definition append_bytes (h : string) (bytes : list byte) (d : Disk) : Disk :=
  set_files d (<[h := contents d h ++ bytes]> (files d)).
Definition write_all (h : string) (bytes : list byte) : io Disk unit :=
  with_fault (fun n d => append_bytes h (take n bytes) d)
    (fun d => (append_bytes h bytes d, Ok tt)).

(** [file.flush()]: a [File] has no buffer of its own. *)
Definition flush (h : string) : io Disk unit := with_fault unharmed (fun d => (d, Ok tt)).

(** [file.sync_all()]. *)
Definition sync_all (h : string) : io Disk unit :=
  with_fault unharmed (fun d =>
    (mkDisk (files d) (cursor d) (<[h := contents d h]> (synced d)) (faults d) (perms d), Ok tt)).

(** The usual umask, 0o022. *)
Definition sample_perms : Permissions := mkPermissions 18 ∅ ∅ ∅ ∅.

(** * Lemmas *)

Lemma contents_insert d h h' bs :
  contents (set_files d (<[h := bs]> (files d))) h' =
  if decide (h = h') then bs else contents d h'.
Proof. unfold contents. simpl. rewrite lookup_insert. by destruct (decide _). Qed.

Lemma with_fault_cases {A} partial (op : Disk -> Disk * result A ErrorKind) d :
  exists rest,
    let d0 := mkDisk (files d) (cursor d) (synced d) rest (perms d) in
    with_fault partial op d = op d0 \/
    exists n, with_fault partial op d = (partial n d0, Err OtherError).
Proof.
  unfold with_fault. destruct d as [f c s [|[n|] rest]]; simpl.
  - exists []. by left.
  - exists rest. right. by exists n.
  - exists rest. by left.
Qed.

(** Case analysis on whether the operation at the head of the goal fails. *)
Ltac fault_cases op :=
  let rest := fresh "rest" in let n := fresh "n" in let E := fresh "E" in
  match op with
  | with_fault ?p ?f ?d =>
      destruct (with_fault_cases p f d) as [rest [E|[n E]]]; rewrite E; clear E
  end.
