(* ===== verification/AggValues.v ===== *)
(** * Reading untrusted telemetry values ([src/src/aggregator.rs])

    Attribute lookup by key, the numeric reading of attributes and data points, and the
    saturating sum of costs.  The lemmas bound every value that can reach a counter. *)

From S2P Require Import Prelude Float64 Otlp.

Local Open Scope Z_scope.

(** ** Constants *)

Definition AGENT_CLAUDE : string := "claude-code".
Definition AGENT_CODEX : string := "codex".
Definition SERVICE_CLAUDE : string := "claude-code".
Definition SERVICE_CODEX_TUI : string := "codex_cli_rs".
Definition SERVICE_CODEX_EXEC : string := "codex_exec".
Definition SERVICE_CODEX_APP_SERVER : string := "codex-app-server".
Definition SERVICE_CODEX_MCP_SERVER : string := "codex_mcp_server".
Definition SERVICE_CODEX_DESKTOP : string := "Codex Desktop".
Definition SERVICE_CODEX_EXEC_SERVER : string := "codex-exec-server".
Definition PROVIDER_ANTHROPIC : string := "anthropic".
Definition PROVIDER_OPENAI : string := "OpenAI".
Definition UNKNOWN : string := "unknown".

Definition is_codex_service (service : string) : bool :=
  bool_decide (service ∈
    [SERVICE_CODEX_TUI; SERVICE_CODEX_EXEC; SERVICE_CODEX_APP_SERVER;
     SERVICE_CODEX_MCP_SERVER; SERVICE_CODEX_DESKTOP; SERVICE_CODEX_EXEC_SERVER]).

Definition non_empty (s : string) : string := if str_is_empty s then UNKNOWN else s.

(** ** Attributes *)

(** [attrs.iter().find(|kv| kv.key == key)?.value.as_ref()?.value.as_ref()?] *)
Definition find_attr (attrs : list KeyValue) (key : string) : option Value :=
  kv ← List.find (fun kv => String.eqb (kv_key kv) key) attrs;
  v ← kv_value kv;
  any_value v.

Definition service_name (resource : option Resource) : string :=
  match resource with
  | None => ""
  | Some r =>
      match find_attr (resource_attributes r) "service.name" with
      | Some (StringValue s) => s
      | _ => ""
      end
  end.

Definition string_attr (attrs : list KeyValue) (key : string) : option string :=
  match find_attr attrs key with
  | Some (StringValue s) => Some s
  | _ => None
  end.

Definition int_attr (attrs : list KeyValue) (key : string) : option Z :=
  match find_attr attrs key with
  | Some (IntValue i) => Some i
  | Some (DoubleValue d) =>
      if f64_is_finite d && f64_le (f64_of_Z i64_min) d && f64_lt d (f64_of_Z i64_max)
      then Some (f64_as_i64 d) else None
  | Some (StringValue s) => parse_i64 s
  | _ => None
  end.

Definition f64_attr (attrs : list KeyValue) (key : string) : option f64 :=
  match find_attr attrs key with
  | Some (DoubleValue d) => if f64_is_finite d then Some d else None
  | Some (IntValue i) => Some (f64_of_Z i)
  | Some (StringValue s) =>
      match parse_f64 s with
      | Some v => if f64_is_finite v then Some v else None
      | None => None
      end
  | _ => None
  end.

(** [int_attr(attrs, key).unwrap_or(0).max(0) as u64] *)
Definition u64_attr (attrs : list KeyValue) (key : string) : Z :=
  Z.max 0 (default 0 (int_attr attrs key)).

(** ** Data points *)

Section points.
Context `{World}.

Definition is_delta_temporality (temporality : Z) : bool :=
  match temporality_try_from temporality with
  | None => false
  | Some Delta => true
  | Some Cumulative => false
  | Some Unspecified => false
  end.

Definition no_recorded_value (flags : Z) : bool :=
  negb (Z.land flags no_recorded_value_mask =? 0).

Definition finite_u64_from_f64 (value : f64) : Z :=
  if f64_is_finite value && f64_le f64_zero value && f64_lt value (f64_of_Z u64_max)
  then f64_as_u64 value else 0.

Definition number_value_as_u64 (dp : NumberDataPoint) : Z :=
  if no_recorded_value (ndp_flags dp) then 0
  else match ndp_value dp with
       | Some (AsInt i) => Z.max 0 i
       | Some (AsDouble d) => finite_u64_from_f64 d
       | None => 0
       end.

Definition number_value_as_f64 (dp : NumberDataPoint) : f64 :=
  if no_recorded_value (ndp_flags dp) then f64_zero
  else match ndp_value dp with
       | Some (AsDouble d) => if f64_is_finite d then f64_max d f64_zero else f64_zero
       | Some (AsInt i) => f64_of_Z (Z.max 0 i)
       | None => f64_zero
       end.

Definition histogram_sum_as_u64 (dp : HistogramDataPoint) : Z :=
  if no_recorded_value (hdp_flags dp) then 0
  else match hdp_sum dp with
       | Some s => finite_u64_from_f64 s
       | None => 0
       end.
End points.

Definition finite_saturating_add_f64 (lhs rhs : f64) : f64 :=
  let lhs := if f64_is_finite lhs && f64_lt f64_zero lhs then lhs else f64_zero in
  let rhs := if f64_is_finite rhs && f64_lt f64_zero rhs then rhs else f64_zero in
  let sum := f64_add lhs rhs in
  if f64_is_finite sum then sum else f64_max_value.

(** ** What a 64-bit wire value is *)

Definition is_i64 (z : Z) : Prop := i64_min <= z <= i64_max.

Definition value_wf (v : Value) : Prop :=
  match v with
  | IntValue i => is_i64 i
  | DoubleValue d => f64_valid d = true
  | _ => True
  end.

(** The integers and doubles of a list of attributes fit their 64 bits. *)
Definition attrs_wf (attrs : list KeyValue) : Prop :=
  Forall (fun kv => forall v, (kv_value kv ≫= any_value) = Some v -> value_wf v) attrs.

Definition number_point_wf (dp : NumberDataPoint) : Prop :=
  attrs_wf (ndp_attributes dp) /\
  match ndp_value dp with
  | Some (AsInt i) => is_i64 i
  | Some (AsDouble d) => f64_valid d = true
  | None => True
  end.

(** * Lemmas *)

Lemma non_empty_not_empty s : non_empty s <> "".
Proof. unfold non_empty, str_is_empty, UNKNOWN. destruct (String.eqb_spec s ""); done. Qed.

Lemma non_empty_id s : s <> "" -> non_empty s = s.
Proof. unfold non_empty, str_is_empty. destruct (String.eqb_spec s ""); done. Qed.

Lemma non_empty_idem s : non_empty (non_empty s) = non_empty s.
Proof. apply non_empty_id, non_empty_not_empty. Qed.

Lemma find_attr_wf attrs key v : attrs_wf attrs -> find_attr attrs key = Some v -> value_wf v.
Proof.
  unfold attrs_wf, find_attr. rewrite Forall_forall. intros Hwf Hf.
  destruct (List.find _ attrs) as [kv|] eqn:E; [|done].
  apply List.find_some in E as [Hin%list_elem_of_In _]. by apply (Hwf kv).
Qed.

Lemma int_attr_range attrs key i : attrs_wf attrs -> int_attr attrs key = Some i -> is_i64 i.
Proof.
  intros Hwf. unfold int_attr. pose proof (fun v => find_attr_wf attrs key v Hwf) as Hv.
  destruct (find_attr attrs key) as [[s| |z|d| | | |]|]; try done.
  - apply parse_i64_range.
  - intros [= <-]. by apply (Hv (IntValue z)).
  - destruct (_ && _); [|done]. intros [= <-]. apply f64_as_i64_range.
Qed.

Lemma u64_attr_range attrs key : attrs_wf attrs -> is_u64 (u64_attr attrs key).
Proof.
  intros Hwf. unfold u64_attr. destruct (int_attr attrs key) as [i|] eqn:E; simpl.
  - apply int_attr_range in E as [? ?]; [|done].
    unfold is_u64, i64_max, i64_min, u64_max in *. lia.
  - apply is_u64_0.
Qed.

Lemma finite_u64_range x : is_u64 (finite_u64_from_f64 x).
Proof. unfold finite_u64_from_f64. destruct (_ && _); auto with u64 f64. Qed.

Lemma number_value_range `{World} dp : number_point_wf dp -> is_u64 (number_value_as_u64 dp).
Proof.
  intros [_ Hwf]. unfold number_value_as_u64.
  destruct (no_recorded_value _); [apply is_u64_0|].
  destruct (ndp_value dp) as [[d|i]|]; [apply finite_u64_range| |apply is_u64_0].
  unfold is_i64, is_u64, i64_max, i64_min, u64_max in *. lia.
Qed.

Lemma histogram_sum_range `{World} dp : is_u64 (histogram_sum_as_u64 dp).
Proof.
  unfold histogram_sum_as_u64. destruct (no_recorded_value _); [apply is_u64_0|].
  destruct (hdp_sum dp); [apply finite_u64_range|apply is_u64_0].
Qed.

Lemma f64_attr_valid attrs key x :
  attrs_wf attrs -> f64_attr attrs key = Some x -> f64_valid x = true /\ f64_is_finite x = true.
Proof.
  intros Hwf. unfold f64_attr. pose proof (fun v => find_attr_wf attrs key v Hwf) as Hv.
  destruct (find_attr attrs key) as [[s| |z|d| | | |]|]; try done.
  - destruct (parse_f64 s) as [v|] eqn:E; [|done].
    destruct (f64_is_finite v) eqn:Ef; [|done]. intros [= <-].
    split; [by eapply parse_f64_valid|done].
  - intros [= <-]. specialize (Hv _ eq_refl). simpl in Hv. split.
    + apply binary_normalize_valid.
    + destruct z as [|p|p]; [done| |].
      all: apply (binary_round_no_overflow _ _ _ 1); [done|]; split; [done|].
      all: assert (i64_max - i64_min < 1 * 2 ^ (971 - 0)) by (vm_compute; done).
      all: unfold is_i64, i64_min, i64_max in *; lia.
  - destruct (f64_is_finite d) eqn:Ef; [|done]. intros [= <-].
    split; [by apply (Hv _ eq_refl)|done].
Qed.

Lemma cost_of_attr attrs key :
  attrs_wf attrs -> f64_cost (f64_max (default f64_zero (f64_attr attrs key)) f64_zero).
Proof.
  intros Hwf. destruct (f64_attr attrs key) as [x|] eqn:E; simpl.
  - apply f64_attr_valid in E as [??]; [|done]. by apply f64_max_zero_cost.
  - done.
Qed.

Lemma number_value_as_f64_cost `{World} dp :
  number_point_wf dp -> f64_cost (number_value_as_f64 dp).
Proof.
  intros [_ Hwf]. unfold number_value_as_f64. destruct (no_recorded_value _); [done|].
  destruct (ndp_value dp) as [[d|i]|]; [| |done].
  - destruct (f64_is_finite d) eqn:E; [|done]. by apply f64_max_zero_cost.
  - apply f64_cost_of_Z. unfold is_i64, i64_min, i64_max, u64_max in *. lia.
Qed.

Lemma finite_add_cost x y : f64_cost x -> f64_cost y -> f64_cost (finite_saturating_add_f64 x y).
Proof.
  intros [Hvx Hx] [Hvy Hy]. unfold finite_saturating_add_f64.
  set (x' := if f64_is_finite x && _ then x else _).
  set (y' := if f64_is_finite y && _ then y else _).
  assert (f64_valid x' = true) as Hx' by (unfold x'; by case_match).
  assert (f64_valid y' = true) as Hy' by (unfold y'; by case_match).
  assert (forall z, f64_nonneg z = true ->
    let z' := if f64_is_finite z && f64_lt f64_zero z then z else f64_zero in
    z' = f64_zero \/ exists m e, z' = SpecFloat.S754_finite false m e) as Hshape.
  { intros [[]| | |[] m e]; simpl; try done; eauto. }
  destruct (f64_is_finite (f64_add x' y')) eqn:Ef; [|apply f64_cost_max].
  split; [by apply f64_add_valid|].
  destruct (Hshape x Hx) as [Ex|(m1 & e1 & Ex)]; fold x' in Ex;
  destruct (Hshape y Hy) as [Ey|(m2 & e2 & Ey)]; fold y' in Ey; rewrite Ex, Ey in *; try done.
  unfold f64_add, SpecFloat.SFadd in *. simpl in *.
  match goal with |- context [SpecFloat.binary_round _ _ false ?p ?e] =>
    destruct (binary_round_cases false p e) as (q & _ & Eq); rewrite Eq in * end.
  revert Ef. unfold round_finish. repeat case_match; done.
Qed.

#[export] Hint Resolve u64_attr_range finite_u64_range number_value_range
  histogram_sum_range : u64.
#[export] Hint Resolve cost_of_attr number_value_as_f64_cost finite_add_cost : f64.
