(* ===== verification/AggStats.v ===== *)
(** * Counters, buckets and bucket keys ([src/src/aggregator.rs])

    [ModelStats] with its saturating sum and difference, the provider/model/effort [Bucket]
    with its percent-encoded key, and [AgentStats], the cumulative totals of one agent. *)

From Stdlib Require Import Ascii.
From S2P Require Import Prelude Float64 AggValues.

Local Open Scope Z_scope.

(** ** ModelStats *)

Record ModelStats := mkStats {
  request_count : Z;
  input_tokens : Z;
  output_tokens : Z;
  cache_read_tokens : Z;
  cache_creation_tokens : Z;
  reasoning_output_tokens : Z;
  cost_usd : f64;
  duration_ms : Z;
}.

(** [ModelStats::default()]. *)
Definition stats_zero : ModelStats := mkStats 0 0 0 0 0 0 f64_zero 0.

Definition stats_add (self sample : ModelStats) : ModelStats := {|
  request_count := sat_add (request_count self) (request_count sample);
  input_tokens := sat_add (input_tokens self) (input_tokens sample);
  output_tokens := sat_add (output_tokens self) (output_tokens sample);
  cache_read_tokens := sat_add (cache_read_tokens self) (cache_read_tokens sample);
  cache_creation_tokens := sat_add (cache_creation_tokens self) (cache_creation_tokens sample);
  reasoning_output_tokens :=
    sat_add (reasoning_output_tokens self) (reasoning_output_tokens sample);
  cost_usd := finite_saturating_add_f64 (cost_usd self) (cost_usd sample);
  duration_ms := sat_add (duration_ms self) (duration_ms sample);
|}.

Definition stats_subtract (self sample : ModelStats) : ModelStats := {|
  request_count := sat_sub (request_count self) (request_count sample);
  input_tokens := sat_sub (input_tokens self) (input_tokens sample);
  output_tokens := sat_sub (output_tokens self) (output_tokens sample);
  cache_read_tokens := sat_sub (cache_read_tokens self) (cache_read_tokens sample);
  cache_creation_tokens := sat_sub (cache_creation_tokens self) (cache_creation_tokens sample);
  reasoning_output_tokens :=
    sat_sub (reasoning_output_tokens self) (reasoning_output_tokens sample);
  cost_usd := f64_max (f64_sub (cost_usd self) (cost_usd sample)) f64_zero;
  duration_ms := sat_sub (duration_ms self) (duration_ms sample);
|}.

Definition has_usage (s : ModelStats) : bool :=
  negb (input_tokens s =? 0)
  || negb (output_tokens s =? 0)
  || negb (cache_read_tokens s =? 0)
  || negb (cache_creation_tokens s =? 0)
  || negb (reasoning_output_tokens s =? 0)
  || negb (f64_eq (cost_usd s) f64_zero).

Definition has_any_value (s : ModelStats) : bool :=
  has_usage s || negb (request_count s =? 0) || negb (duration_ms s =? 0).

Definition saturating_sub_stats (self other : ModelStats) : ModelStats :=
  stats_subtract self other.

(** The integer counters, to speak of all of them at once. *)
Inductive counter :=
| RequestCount | InputTokens | OutputTokens | CacheReadTokens
| CacheCreationTokens | ReasoningOutputTokens | DurationMs.

Definition get (c : counter) (s : ModelStats) : Z :=
  match c with
  | RequestCount => request_count s
  | InputTokens => input_tokens s
  | OutputTokens => output_tokens s
  | CacheReadTokens => cache_read_tokens s
  | CacheCreationTokens => cache_creation_tokens s
  | ReasoningOutputTokens => reasoning_output_tokens s
  | DurationMs => duration_ms s
  end.

(** ** Bucket *)

Record Bucket := mkBucket { provider : string; model : string; effort : string }.

#[export] Instance Bucket_eq_dec : EqDecision Bucket.
Proof. solve_decision. Defined.

#[export] Program Instance Bucket_countable : Countable Bucket :=
  inj_countable' (fun b => (provider b, model b, effort b))
    (fun t => let '(p, m, e) := t in mkBucket p m e) _.
Next Obligation. by intros []. Qed.

(** Derived [Ord]: lexicographic by provider, model, effort. *)
Definition bucket_le (a b : Bucket) : Prop :=
  if decide (provider a = provider b) then
    if decide (model a = model b) then str_le (effort a) (effort b)
    else str_le (model a) (model b)
  else str_le (provider a) (provider b).
#[export] Instance bucket_le_dec : RelDecision bucket_le.
Proof. intros a b. unfold bucket_le. repeat case_decide; apply _. Defined.

Definition from_parts (provider model effort : string) : Bucket :=
  mkBucket (non_empty provider) (non_empty model) (non_empty effort).

Fixpoint escape_bucket_component (component : string) : string :=
  match component with
  | EmptyString => EmptyString
  | String c rest =>
      let escaped := escape_bucket_component rest in
      if Ascii.eqb c "%" then "%25" +:+ escaped
      else if Ascii.eqb c "/" then "%2F" +:+ escaped
      else String c escaped
  end.

Definition bucket_key (b : Bucket) : string :=
  escape_bucket_component (provider b) +:+ "/" +:+
  escape_bucket_component (model b) +:+ "/" +:+
  escape_bucket_component (effort b).

(** ** BucketStats and AgentStats *)

Record BucketStats := mkBucketStats {
  bs_provider : string;
  bs_model : string;
  bs_effort : string;
  bs_stats : ModelStats;
}.

Definition from_bucket (b : Bucket) : BucketStats :=
  mkBucketStats (provider b) (model b) (effort b) stats_zero.

Definition bs_with_stats (bs : BucketStats) (s : ModelStats) : BucketStats :=
  mkBucketStats (bs_provider bs) (bs_model bs) (bs_effort bs) s.

Record AgentStats := mkAgent { total : ModelStats; buckets : gmap string BucketStats }.

Definition agent_default : AgentStats := mkAgent stats_zero ∅.

(** [buckets.entry(key).or_insert_with(..).stats.add(stats)] *)
Definition bucket_entry_add (m : gmap string BucketStats) (b : Bucket) (s : ModelStats) :
    gmap string BucketStats :=
  let entry := default (from_bucket b) (m !! bucket_key b) in
  <[bucket_key b := bs_with_stats entry (stats_add (bs_stats entry) s)]> m.

(** Subtract from a bucket, and drop it once it holds no value. *)
Definition bucket_entry_subtract (m : gmap string BucketStats) (key : string) (s : ModelStats) :
    gmap string BucketStats :=
  match m !! key with
  | None => m
  | Some bs =>
      let rest := stats_subtract (bs_stats bs) s in
      if has_any_value rest then <[key := bs_with_stats bs rest]> m
      else delete key m
  end.

(** The agent part of [record_into]. *)
Definition agent_record (a : AgentStats) (b : Bucket) (s : ModelStats) : AgentStats :=
  mkAgent (stats_add (total a) s) (bucket_entry_add (buckets a) b s).

(** The agent part of [subtract_from]. *)
Definition agent_subtract (a : AgentStats) (b : Bucket) (s : ModelStats) : AgentStats :=
  mkAgent (stats_subtract (total a) s) (bucket_entry_subtract (buckets a) (bucket_key b) s).

(** The agent part of [move_codex_bucket_stats]. *)
Definition agent_move (a : AgentStats) (from to : Bucket) (s : ModelStats) : AgentStats :=
  mkAgent (total a)
    (bucket_entry_add (bucket_entry_subtract (buckets a) (bucket_key from) s) to s).

(** The keys of the buckets named [bare], read from the ordered map as the code does: the
    range from the prefix on, as long as the prefix matches. *)
Fixpoint take_while {A : Type} (p : A -> bool) (l : list A) : list A :=
  match l with
  | [] => []
  | a :: l' => if p a then a :: take_while p l' else []
  end.

Definition bare_prefix (bare : string) : string :=
  escape_bucket_component PROVIDER_ANTHROPIC +:+ "/" +:+
  escape_bucket_component bare +:+ "/".

Definition bare_bucket_keys (m : gmap string BucketStats) (bare : string) : list string :=
  let prefix := bare_prefix bare in
  (take_while (fun e => starts_with prefix e.1)
    (List.filter (fun e => bool_decide (str_le prefix e.1)) (btree_entries str_le m))).*1.

(** One round of the loop of [merge_bare_into_full]. *)
Definition merge_one (full : string) (m : gmap string BucketStats) (bare_key : string) :
    gmap string BucketStats :=
  match m !! bare_key with
  | None => m
  | Some bare_stats =>
      bucket_entry_add (delete bare_key m)
        (from_parts (bs_provider bare_stats) full (bs_effort bare_stats)) (bs_stats bare_stats)
  end.

Definition merge_bare_into_full (a : AgentStats) (bare full : string) : AgentStats :=
  mkAgent (total a)
    (for_each (merge_one full) (buckets a) (bare_bucket_keys (buckets a) bare)).

(** ** Reading a bucket key back *)

(** The inverse of [escape_bucket_component]. *)
Fixpoint unescape (s : string) : string :=
  match s with
  | String "%" (String "2" (String "5" rest)) => String "%" (unescape rest)
  | String "%" (String "2" (String "F" rest)) => String "/" (unescape rest)
  | String c rest => String c (unescape rest)
  | EmptyString => EmptyString
  end.

(** ** Well-formed statistics *)

Definition stats_u64 (s : ModelStats) : Prop := forall c, is_u64 (get c s).
Definition stats_wf (s : ModelStats) : Prop := stats_u64 s /\ f64_cost (cost_usd s).

(** Every counter of [s] is at most that of [t]. *)
Definition stats_le (s t : ModelStats) : Prop := forall c, get c s <= get c t.

(** What all counters of a sample add up to: a bound on each of them. *)
Definition volume (s : ModelStats) : Z :=
  request_count s + input_tokens s + output_tokens s + cache_read_tokens s +
  cache_creation_tokens s + reasoning_output_tokens s + duration_ms s.

(** A bucket with the labels [from_parts] produces. *)
Definition bucket_wf (b : Bucket) : Prop :=
  provider b <> "" /\ model b <> "" /\ effort b <> "".

Definition bs_bucket (bs : BucketStats) : Bucket :=
  mkBucket (bs_provider bs) (bs_model bs) (bs_effort bs).

(** Each entry is filed under the key of its own labels. *)
Definition buckets_keyed (m : gmap string BucketStats) : Prop :=
  forall k bs, m !! k = Some bs -> k = bucket_key (bs_bucket bs).

Definition bs_get (c : counter) (bs : BucketStats) : Z := get c (bs_stats bs).

(** The counter [c] of bucket [b]: 0 when there is no such bucket. *)
Definition bucket_val (c : counter) (m : gmap string BucketStats) (b : Bucket) : Z :=
  map_val (bs_get c) m (bucket_key b).

(** * Lemmas *)

(** ** Counters *)

Lemma get_add c s t : get c (stats_add s t) = sat_add (get c s) (get c t).
Proof. by destruct c. Qed.

Lemma get_subtract c s t : get c (stats_subtract s t) = sat_sub (get c s) (get c t).
Proof. by destruct c. Qed.

Lemma get_zero c : get c stats_zero = 0.
Proof. by destruct c. Qed.

Create Rewrite HintDb stats.
#[export] Hint Rewrite get_add get_subtract get_zero : stats.

Lemma stats_zero_wf : stats_wf stats_zero.
Proof. split; [|done]. intros c. rewrite get_zero. apply is_u64_0. Qed.

Lemma stats_add_wf s t : stats_wf s -> stats_wf t -> stats_wf (stats_add s t).
Proof.
  intros [Hs Cs] [Ht Ct]. split.
  - intros c. rewrite get_add. auto with u64.
  - by apply finite_add_cost.
Qed.

Lemma stats_subtract_wf s t : stats_wf s -> stats_wf t -> stats_wf (stats_subtract s t).
Proof.
  intros [Hs Cs] [Ht Ct]. split.
  - intros c. rewrite get_subtract. auto with u64.
  - simpl. destruct (f64_sub_cost_finite _ _ Cs Ct). by apply f64_max_zero_cost.
Qed.

Create HintDb stats discriminated.
#[export] Hint Resolve stats_zero_wf stats_add_wf stats_subtract_wf : stats.

Lemma get_nonneg c s : stats_u64 s -> 0 <= get c s.
Proof. intros Hs. apply (Hs c). Qed.

Lemma get_le_volume c s : stats_u64 s -> get c s <= volume s.
Proof.
  intros Hs. unfold volume.
  pose proof (Hs RequestCount). pose proof (Hs InputTokens). pose proof (Hs OutputTokens).
  pose proof (Hs CacheReadTokens). pose proof (Hs CacheCreationTokens).
  pose proof (Hs ReasoningOutputTokens). pose proof (Hs DurationMs).
  unfold is_u64 in *. destruct c; simpl in *; lia.
Qed.

Lemma volume_nonneg s : stats_u64 s -> 0 <= volume s.
Proof. intros Hs. pose proof (get_nonneg RequestCount s Hs). pose proof (get_le_volume RequestCount s Hs). lia. Qed.

Lemma no_usage_zero s c :
  has_usage s = false -> c <> RequestCount -> c <> DurationMs -> get c s = 0.
Proof.
  unfold has_usage. rewrite !orb_false_iff, !negb_false_iff, !Z.eqb_eq.
  intros [[[[[? ?] ?] ?] ?] _]. by destruct c.
Qed.

Lemma no_value_zero s c : has_any_value s = false -> get c s = 0.
Proof.
  unfold has_any_value. rewrite !orb_false_iff, !negb_false_iff, !Z.eqb_eq.
  intros [[Hu Hr] Hd]. destruct c; try done; by apply no_usage_zero.
Qed.

(** ** Keys *)

Lemma unescape_escape s : unescape (escape_bucket_component s) = s.
Proof.
  induction s as [|c s IH]; [done|]. simpl.
  destruct (Ascii.eqb_spec c "%") as [->|H1]; [by rewrite !str_app_cons, str_app_nil_l; simpl; f_equal|].
  destruct (Ascii.eqb_spec c "/") as [->|H2]; [by rewrite !str_app_cons, str_app_nil_l; simpl; f_equal|].
  destruct c as [[] [] [] [] [] [] [] []]; simpl; by rewrite IH.
Qed.

#[export] Instance escape_inj : Inj (=) (=) escape_bucket_component.
Proof. intros a b E. by rewrite <-(unescape_escape a), E, unescape_escape. Qed.

(** An escaped component holds no separator, so the first one ends it. *)
Lemma split_escaped s rest :
  split_once "/" (escape_bucket_component s +:+ String "/" rest) =
  Some (escape_bucket_component s, rest).
Proof.
  induction s as [|c s IH]; [done|]. simpl.
  destruct (Ascii.eqb_spec c "%") as [->|H1]; [|destruct (Ascii.eqb_spec c "/") as [->|H2]].
  1-2: by rewrite !str_app_assoc, !str_app_cons, str_app_nil_l; simpl; rewrite IH.
  rewrite str_app_cons. simpl. destruct (Ascii.eqb_spec c "/"); [done|]. by rewrite IH.
Qed.

Lemma bucket_key_inj a b : bucket_key a = bucket_key b -> a = b.
Proof.
  unfold bucket_key. intros E.
  assert (forall p m e, split_once "/"
    (escape_bucket_component p +:+ "/" +:+ escape_bucket_component m +:+ "/" +:+
     escape_bucket_component e) =
    Some (escape_bucket_component p,
      escape_bucket_component m +:+ String "/" (escape_bucket_component e))) as Hsplit.
  { intros. apply split_escaped. }
  pose proof (f_equal (split_once "/") E) as E1. rewrite !Hsplit in E1.
  injection E1 as Hp Hrest. apply (f_equal (split_once "/")) in Hrest.
  rewrite !split_escaped in Hrest. injection Hrest as Hm He.
  apply (inj escape_bucket_component) in Hp, Hm, He.
  destruct a, b. by simplify_eq/=.
Qed.

Lemma from_parts_wf p m e : bucket_wf (from_parts p m e).
Proof. repeat split; apply non_empty_not_empty. Qed.

Lemma from_parts_id b : bucket_wf b -> from_parts (provider b) (model b) (effort b) = b.
Proof. intros (? & ? & ?). unfold from_parts. rewrite !non_empty_id by done. by destruct b. Qed.

(** ** Updating one bucket *)

Lemma bs_get_add_entry c m b s :
  bs_get c (bs_with_stats (default (from_bucket b) (m !! bucket_key b))
    (stats_add (bs_stats (default (from_bucket b) (m !! bucket_key b))) s)) =
  sat_add (bucket_val c m b) (get c s).
Proof.
  unfold bs_get, bucket_val, map_val. simpl. rewrite get_add.
  destruct (m !! bucket_key b); simpl; [done|]. by rewrite get_zero.
Qed.

Lemma map_sum_entry_add c m b s :
  map_sum (bs_get c) (bucket_entry_add m b s) =
  map_sum (bs_get c) m - bucket_val c m b + sat_add (bucket_val c m b) (get c s).
Proof. unfold bucket_entry_add. by rewrite map_sum_insert, bs_get_add_entry. Qed.

Lemma bucket_val_add_eq c m b s :
  bucket_val c (bucket_entry_add m b s) b = sat_add (bucket_val c m b) (get c s).
Proof. unfold bucket_entry_add, bucket_val at 1. by rewrite map_val_insert_eq, bs_get_add_entry. Qed.

Lemma map_val_add_ne c m b s k :
  k <> bucket_key b -> map_val (bs_get c) (bucket_entry_add m b s) k = map_val (bs_get c) m k.
Proof. intros. unfold bucket_entry_add. by rewrite map_val_insert_ne by done. Qed.

Lemma bucket_val_add_ne c m b b' s :
  b <> b' -> bucket_val c (bucket_entry_add m b s) b' = bucket_val c m b'.
Proof.
  intros Hne. unfold bucket_val. apply map_val_add_ne.
  intros E%bucket_key_inj. by subst.
Qed.

Lemma map_val_subtract_eq c m k s :
  stats_u64 s ->
  map_val (bs_get c) (bucket_entry_subtract m k s) k =
  sat_sub (map_val (bs_get c) m k) (get c s).
Proof.
  intros Hs. unfold bucket_entry_subtract. destruct (m !! k) as [bs|] eqn:E.
  - rewrite (map_val_Some _ m k bs E). unfold bs_get at 2. rewrite <-get_subtract.
    destruct (has_any_value _) eqn:Hv.
    + by rewrite map_val_insert_eq.
    + rewrite map_val_delete_eq. by rewrite (no_value_zero _ c Hv).
  - rewrite map_val_None by done. pose proof (get_nonneg c s Hs).
    unfold sat_sub. lia.
Qed.

Lemma map_val_subtract_ne c m k k' s :
  k <> k' -> map_val (bs_get c) (bucket_entry_subtract m k s) k' = map_val (bs_get c) m k'.
Proof.
  intros. unfold bucket_entry_subtract. repeat case_match; [|by rewrite map_val_delete_ne|done].
  by rewrite map_val_insert_ne.
Qed.

Lemma map_sum_subtract c m k s :
  stats_u64 s ->
  map_sum (bs_get c) (bucket_entry_subtract m k s) =
  map_sum (bs_get c) m - map_val (bs_get c) m k + sat_sub (map_val (bs_get c) m k) (get c s).
Proof.
  intros Hs. rewrite <-(map_val_subtract_eq c m k s Hs).
  unfold bucket_entry_subtract. destruct (m !! k) as [bs|] eqn:E; [|lia].
  destruct (has_any_value _).
  - by rewrite map_sum_insert, map_val_insert_eq.
  - rewrite map_sum_delete, map_val_delete_eq. lia.
Qed.

Lemma bucket_val_subtract_ne c m b b' s :
  b <> b' -> bucket_val c (bucket_entry_subtract m (bucket_key b) s) b' = bucket_val c m b'.
Proof.
  intros Hne. unfold bucket_val. apply map_val_subtract_ne.
  intros E%bucket_key_inj. by subst.
Qed.

(** ** Entries stay filed under their own key *)

Lemma entry_add_keyed m b s : buckets_keyed m -> buckets_keyed (bucket_entry_add m b s).
Proof.
  intros Hm k bs. unfold bucket_entry_add. rewrite lookup_insert.
  destruct (decide (bucket_key b = k)) as [<-|]; [|by apply Hm].
  intros [= <-]. destruct (m !! bucket_key b) as [bs|] eqn:E; simpl.
  - by rewrite (Hm _ _ E) at 1.
  - by destruct b.
Qed.

Lemma entry_subtract_keyed m k s : buckets_keyed m -> buckets_keyed (bucket_entry_subtract m k s).
Proof.
  intros Hm. unfold bucket_entry_subtract. destruct (m !! k) as [bs|] eqn:E; [|done].
  case_match.
  - intros k' bs'. rewrite lookup_insert. destruct (decide (k = k')) as [<-|]; [|by apply Hm].
    intros [= <-]. by rewrite (Hm _ _ E) at 1.
  - intros k' bs' [_ Hk]%lookup_delete_Some. by apply Hm.
Qed.

Lemma delete_keyed m k : buckets_keyed m -> buckets_keyed (delete k m).
Proof. intros Hm k' bs' [_ Hk]%lookup_delete_Some. by apply Hm. Qed.

Lemma bucket_of_entry m b bs :
  buckets_keyed m -> m !! bucket_key b = Some bs -> bs_bucket bs = b.
Proof. intros Hm Hb. apply bucket_key_inj. symmetry. by apply Hm. Qed.

(** ** Well-formed bucket maps *)

Definition entry_wf (bs : BucketStats) : Prop :=
  stats_wf (bs_stats bs) /\ bucket_wf (bs_bucket bs).

Definition buckets_wf (m : gmap string BucketStats) : Prop :=
  buckets_keyed m /\ map_Forall (fun _ => entry_wf) m.

Lemma entry_add_wf m b s :
  buckets_wf m -> bucket_wf b -> stats_wf s -> buckets_wf (bucket_entry_add m b s).
Proof.
  intros [Hk Hm] Hb Hs. split; [by apply entry_add_keyed|].
  apply map_Forall_insert_2; [|done].
  destruct (m !! bucket_key b) as [bs|] eqn:E; simpl.
  - destruct (Hm _ _ E). split; [by apply stats_add_wf|done].
  - split; [by apply stats_add_wf, Hs; apply stats_zero_wf|by destruct b].
Qed.

Lemma entry_subtract_wf m k s :
  buckets_wf m -> stats_wf s -> buckets_wf (bucket_entry_subtract m k s).
Proof.
  intros [Hk Hm] Hs. split; [by apply entry_subtract_keyed|].
  unfold bucket_entry_subtract. destruct (m !! k) as [bs|] eqn:E; [|done].
  destruct (Hm _ _ E) as [H1 H2]. case_match.
  - apply map_Forall_insert_2; [|done]. split; [by apply stats_subtract_wf|done].
  - by apply map_Forall_delete.
Qed.

Lemma delete_wf m k : buckets_wf m -> buckets_wf (delete k m).
Proof. intros [Hk Hm]. split; [by apply delete_keyed|by apply map_Forall_delete]. Qed.

Lemma buckets_wf_nonneg m c :
  buckets_wf m -> forall k bs, m !! k = Some bs -> 0 <= bs_get c bs.
Proof. intros [_ Hm] k bs E. apply get_nonneg. by destruct (Hm _ _ E) as [[? _] _]. Qed.

(** ** The range of bare keys is exactly the buckets with the bare name *)

Lemma starts_with_le p s : starts_with p s = true -> str_le p s.
Proof.
  intros [r ->]%starts_with_spec. unfold str_le, String.leb.
  induction p as [|c p IH]; [by destruct r|].
  rewrite str_app_cons. simpl. unfold Ascii.compare. by rewrite N.compare_refl.
Qed.

Lemma prefix_between p a b :
  str_le p a -> str_le a b -> starts_with p b = true -> starts_with p a = true.
Proof.
  rewrite !starts_with_spec. intros Hpa Hab [r ->]. revert a r Hpa Hab.
  induction p as [|c p IH]; intros a r Hpa Hab; [by exists a|].
  destruct a as [|x a]; [done|]. rewrite str_app_cons in Hab.
  unfold str_le, String.leb in *. simpl in *. unfold Ascii.compare in *.
  destruct (N.compare_spec (N_of_ascii c) (N_of_ascii x)) as [E| |]; [| |done].
  - assert (c = x) as -> by (by rewrite <-(ascii_N_embedding c), <-(ascii_N_embedding x), E).
    rewrite N.compare_refl in Hab. destruct (IH a r Hpa Hab) as [r' ->]. by exists r'.
  - destruct (N.compare_spec (N_of_ascii x) (N_of_ascii c)); [lia|lia|done].
Qed.

Lemma take_while_sorted {V : Type} p (l : list (string * V)) :
  StronglySorted (key_le str_le) l -> Forall (fun e => str_le p e.1) l ->
  take_while (fun e => starts_with p e.1) l = List.filter (fun e => starts_with p e.1) l.
Proof.
  induction 1 as [|e l Hs IH Hle]; intros Hp; [done|]. simpl.
  apply Forall_cons in Hp as [Hpe Hp]. destruct (starts_with p e.1) eqn:Ee; [by rewrite IH|].
  symmetry. clear IH Hs Hp. induction Hle as [|e' l' Hee' Hle IH]; [done|]. simpl.
  destruct (starts_with p e'.1) eqn:Ee'; [|done].
  rewrite (prefix_between p e.1 e'.1) in Ee; done.
Qed.

Lemma filter_sorted {A : Type} (R : relation A) (f : A -> bool) l :
  StronglySorted R l -> StronglySorted R (List.filter f l).
Proof.
  induction 1 as [|a l Hs IH Ha]; simpl; [constructor|].
  destruct (f a); [|done]. constructor; [done|].
  rewrite Forall_forall in *. intros x [Hx _]%list_elem_of_In%List.filter_In.
  by apply Ha, list_elem_of_In.
Qed.

Lemma starts_with_bare_prefix b bare :
  starts_with (bare_prefix bare) (bucket_key b) = true <->
  provider b = PROVIDER_ANTHROPIC /\ model b = bare.
Proof.
  rewrite starts_with_spec. unfold bare_prefix, bucket_key. split.
  - intros [rest E]. rewrite !str_app_assoc in E.
    change ("/" +:+ ?x)%string with (String "/" x) in E.
    apply (f_equal (split_once "/")) in E. rewrite !split_escaped in E.
    injection E as Ep E. apply (f_equal (split_once "/")) in E.
    change ("/" +:+ ?x)%string with (String "/" x) in E.
    rewrite !split_escaped in E. injection E as Em E.
    apply (inj escape_bucket_component) in Em.
    split; [|done]. by apply (inj escape_bucket_component).
  - intros [-> ->]. eexists. by rewrite !str_app_assoc.
Qed.

Lemma elem_of_bare_bucket_keys m bare k :
  buckets_keyed m ->
  k ∈ bare_bucket_keys m bare <->
  exists bs, m !! k = Some bs /\ bs_provider bs = PROVIDER_ANTHROPIC /\ bs_model bs = bare.
Proof.
  intros Hm. unfold bare_bucket_keys.
  rewrite take_while_sorted; cycle 1.
  { apply filter_sorted, btree_entries_sorted; apply _. }
  { apply Forall_forall. intros e [_ He]%list_elem_of_In%List.filter_In.
    by apply bool_decide_eq_true in He. }
  rewrite list_elem_of_fmap. split.
  - intros ([k' bs] & -> & He). apply list_elem_of_In, List.filter_In in He as [He Hp].
    apply List.filter_In in He as [He _]. apply list_elem_of_In, elem_of_btree_entries in He.
    simpl in *. exists bs. split; [done|]. rewrite (Hm _ _ He) in Hp.
    by apply starts_with_bare_prefix in Hp.
  - intros (bs & He & Hprov & Hmodel). exists (k, bs). split; [done|].
    assert (starts_with (bare_prefix bare) k = true) as Hp.
    { rewrite (Hm _ _ He). by apply starts_with_bare_prefix. }
    apply list_elem_of_In, List.filter_In. split; [|done].
    apply List.filter_In. split.
    + by apply list_elem_of_In, elem_of_btree_entries.
    + by apply bool_decide_eq_true, starts_with_le.
Qed.
