(* ===== verification/AggState.v ===== *)
(** * The aggregator's state and its updates ([src/src/aggregator.rs])

    [AggregatorInner] with every field of the source, and one function per helper that
    changes it: recording and cancelling usage, choosing a token source, Codex sessions and
    the usage still waiting for its session, canonical Claude model names.  The lock of
    [Aggregator::inner] makes each ingest call one transition of this state. *)

From Stdlib Require Import Ascii.
From stdpp Require Import pretty.
From S2P Require Import Prelude Float64 Otlp AggValues AggStats.

Local Open Scope Z_scope.

(** ** State *)

Record CodexSession := mkSession {
  conversation_id : string;
  cs_provider : string;
  cs_model : string;
  cs_effort : string;
  provider_confirmed : bool;
}.

Inductive CodexTokenSource := CodexLogs | CodexMetrics.
Inductive ClaudeUsageSource := ClaudeLogs | ClaudeMetrics.

#[export] Instance CodexTokenSource_eq_dec : EqDecision CodexTokenSource.
Proof. solve_decision. Defined.
#[export] Instance ClaudeUsageSource_eq_dec : EqDecision ClaudeUsageSource.
Proof. solve_decision. Defined.

Record ClaudeUsageKey := mkUsageKey { cuk_model : string; cuk_effort : string }.

#[export] Instance ClaudeUsageKey_eq_dec : EqDecision ClaudeUsageKey.
Proof. solve_decision. Defined.
#[export] Program Instance ClaudeUsageKey_countable : Countable ClaudeUsageKey :=
  inj_countable' (fun k => (cuk_model k, cuk_effort k))
    (fun t => let '(m, e) := t in mkUsageKey m e) _.
Next Obligation. by intros []. Qed.

(** [clock] counts the readings of [OffsetDateTime::now_utc()] made so far. *)
Record AggregatorInner := mkInner {
  started_at : Z;
  last_updated : option Z;
  agents : gmap string AgentStats;
  claude_canonical_models : gmap string string;
  claude_metric_models : gset string;
  claude_usage_sources : gmap ClaudeUsageKey ClaudeUsageSource;
  claude_metric_usage : gmap ClaudeUsageKey (gmap Bucket ModelStats);
  codex_last_sessions : gmap string CodexSession;
  codex_sessions : gmap string CodexSession;
  codex_token_sources : gmap string CodexTokenSource;
  codex_pending_sse : gmap string (gmap Bucket ModelStats);
  clock : nat;
}.

Definition set_agents (g : AggregatorInner) (v : gmap string AgentStats) : AggregatorInner :=
  mkInner (started_at g) (last_updated g) v (claude_canonical_models g)
    (claude_metric_models g) (claude_usage_sources g) (claude_metric_usage g)
    (codex_last_sessions g) (codex_sessions g) (codex_token_sources g) (codex_pending_sse g)
    (clock g).
Definition set_canonical_models (g : AggregatorInner) (v : gmap string string) :=
  mkInner (started_at g) (last_updated g) (agents g) v
    (claude_metric_models g) (claude_usage_sources g) (claude_metric_usage g)
    (codex_last_sessions g) (codex_sessions g) (codex_token_sources g) (codex_pending_sse g)
    (clock g).
Definition set_metric_models (g : AggregatorInner) (v : gset string) :=
  mkInner (started_at g) (last_updated g) (agents g) (claude_canonical_models g)
    v (claude_usage_sources g) (claude_metric_usage g)
    (codex_last_sessions g) (codex_sessions g) (codex_token_sources g) (codex_pending_sse g)
    (clock g).
Definition set_usage_sources (g : AggregatorInner)
    (v : gmap ClaudeUsageKey ClaudeUsageSource) :=
  mkInner (started_at g) (last_updated g) (agents g) (claude_canonical_models g)
    (claude_metric_models g) v (claude_metric_usage g)
    (codex_last_sessions g) (codex_sessions g) (codex_token_sources g) (codex_pending_sse g)
    (clock g).
Definition set_metric_usage (g : AggregatorInner)
    (v : gmap ClaudeUsageKey (gmap Bucket ModelStats)) :=
  mkInner (started_at g) (last_updated g) (agents g) (claude_canonical_models g)
    (claude_metric_models g) (claude_usage_sources g) v
    (codex_last_sessions g) (codex_sessions g) (codex_token_sources g) (codex_pending_sse g)
    (clock g).
Definition set_last_sessions (g : AggregatorInner) (v : gmap string CodexSession) :=
  mkInner (started_at g) (last_updated g) (agents g) (claude_canonical_models g)
    (claude_metric_models g) (claude_usage_sources g) (claude_metric_usage g)
    v (codex_sessions g) (codex_token_sources g) (codex_pending_sse g) (clock g).
Definition set_sessions (g : AggregatorInner) (v : gmap string CodexSession) :=
  mkInner (started_at g) (last_updated g) (agents g) (claude_canonical_models g)
    (claude_metric_models g) (claude_usage_sources g) (claude_metric_usage g)
    (codex_last_sessions g) v (codex_token_sources g) (codex_pending_sse g) (clock g).
Definition set_token_sources (g : AggregatorInner) (v : gmap string CodexTokenSource) :=
  mkInner (started_at g) (last_updated g) (agents g) (claude_canonical_models g)
    (claude_metric_models g) (claude_usage_sources g) (claude_metric_usage g)
    (codex_last_sessions g) (codex_sessions g) v (codex_pending_sse g) (clock g).
Definition set_pending (g : AggregatorInner) (v : gmap string (gmap Bucket ModelStats)) :=
  mkInner (started_at g) (last_updated g) (agents g) (claude_canonical_models g)
    (claude_metric_models g) (claude_usage_sources g) (claude_metric_usage g)
    (codex_last_sessions g) (codex_sessions g) (codex_token_sources g) v (clock g).
(** One reading of the clock, stored as the time of the last update. *)
Definition touch `{World} (g : AggregatorInner) : AggregatorInner :=
  mkInner (started_at g) (Some (now_utc (clock g))) (agents g) (claude_canonical_models g)
    (claude_metric_models g) (claude_usage_sources g) (claude_metric_usage g)
    (codex_last_sessions g) (codex_sessions g) (codex_token_sources g) (codex_pending_sse g)
    (S (clock g)).

(** [Aggregator::new]. *)
Definition aggregator_new `{World} : AggregatorInner :=
  mkInner (now_utc 0) None ∅ ∅ ∅ ∅ ∅ ∅ ∅ ∅ ∅ 1.

Record UsageSnapshot := mkSnapshot {
  snap_started_at : string;
  snap_last_updated : option string;
  snap_agents : gmap string AgentStats;
}.

Definition format_rfc3339 `{World} (t : Z) : string :=
  match rfc3339_format t with Some s => s | None => pretty (unix_timestamp t) end.

(** [Aggregator::snapshot], of [/stats] and [--summary]. *)
Definition snapshot `{World} (g : AggregatorInner) : UsageSnapshot :=
  mkSnapshot (format_rfc3339 (started_at g)) (option_map format_rfc3339 (last_updated g)) (agents g).

(** [map.entry(b).or_default().add(s)] on a [BTreeMap<Bucket, ModelStats>]. *)
Definition usage_add (m : gmap Bucket ModelStats) (b : Bucket) (s : ModelStats) :
    gmap Bucket ModelStats :=
  <[b := stats_add (default stats_zero (m !! b)) s]> m.

(** The stats of one agent, empty before its first record. *)
Definition agent_of (g : AggregatorInner) (agent : string) : AgentStats :=
  default agent_default (agents g !! agent).

(** ** Recording and cancelling *)

Section record.
Context `{World}.

Definition record_into (g : AggregatorInner) (agent : string) (bucket : Bucket)
    (stats : ModelStats) : AggregatorInner :=
  let g := touch g in
  set_agents g (<[agent := agent_record (agent_of g agent) bucket stats]> (agents g)).

Definition subtract_from (g : AggregatorInner) (agent : string) (bucket : Bucket)
    (stats : ModelStats) : AggregatorInner :=
  match agents g !! agent with
  | None => g
  | Some agent_stats =>
      set_agents g (<[agent := agent_subtract agent_stats bucket stats]> (agents g))
  end.

Definition claude_usage_source_key (model effort : string) : ClaudeUsageKey :=
  let bare_model :=
    match split_once "[" model with Some (bare, _) => bare | None => model end in
  mkUsageKey (non_empty bare_model) (non_empty effort).

Definition bucket_usage_key (b : Bucket) : ClaudeUsageKey :=
  claude_usage_source_key (model b) (effort b).

Definition codex_token_source_key (model : string) : string := non_empty model.

(** Return the metric usage of a key to the buckets it was counted in. *)
Definition cancel_metric_usage (g : AggregatorInner) (source_key : ClaudeUsageKey) :
    AggregatorInner :=
  if bool_decide (claude_usage_sources g !! source_key = Some ClaudeMetrics) then
    match claude_metric_usage g !! source_key with
    | None => g
    | Some per_bucket =>
        for_each (fun g e => subtract_from g AGENT_CLAUDE e.1 e.2)
          (set_metric_usage g (delete source_key (claude_metric_usage g)))
          (btree_entries bucket_le per_bucket)
    end
  else g.

Definition record_claude_log_usage (g : AggregatorInner) (bucket : Bucket)
    (stats : ModelStats) : AggregatorInner :=
  if negb (has_usage stats) then g
  else
    let source_key := bucket_usage_key bucket in
    let g := cancel_metric_usage g source_key in
    let g := record_into g AGENT_CLAUDE bucket stats in
    set_usage_sources g (<[source_key := ClaudeLogs]> (claude_usage_sources g)).

Definition record_claude_metric_usage (g : AggregatorInner) (bucket : Bucket)
    (stats : ModelStats) : AggregatorInner * bool :=
  if negb (has_usage stats) then (g, false)
  else
    let source_key := bucket_usage_key bucket in
    if bool_decide (claude_usage_sources g !! source_key = Some ClaudeLogs) then (g, false)
    else
      let g := record_into g AGENT_CLAUDE bucket stats in
      let g := set_usage_sources g (<[source_key := ClaudeMetrics]> (claude_usage_sources g)) in
      let per_bucket := default ∅ (claude_metric_usage g !! source_key) in
      (set_metric_usage g
         (<[source_key := usage_add per_bucket bucket stats]> (claude_metric_usage g)), true).

(** ** Canonical Claude model names *)

Definition register_canonical_claude_model (g : AggregatorInner) (full : string) :
    AggregatorInner :=
  let g :=
    if str_is_empty full then g
    else set_metric_models g ({[full]} ∪ claude_metric_models g) in
  let bare := match split_once "[" full with Some (pre, _) => pre | None => full end in
  if str_is_empty bare || String.eqb bare full then
    if str_is_empty full then g
    else
      match claude_canonical_models g !! full with
      | Some _ => g
      | None => set_canonical_models g (<[full := full]> (claude_canonical_models g))
      end
  else if bool_decide (bare ∈ claude_metric_models g) then g
  else if bool_decide (claude_canonical_models g !! bare = Some full) then g
  else
    let g := set_canonical_models g (<[bare := full]> (claude_canonical_models g)) in
    match agents g !! AGENT_CLAUDE with
    | None => g
    | Some agent_stats =>
        set_agents g (<[AGENT_CLAUDE := merge_bare_into_full agent_stats bare full]> (agents g))
    end.

Definition canonical_claude_model (g : AggregatorInner) (raw : string) : string :=
  if bool_decide (raw ∈ claude_metric_models g) then raw
  else default raw (claude_canonical_models g !! raw).

Definition claude_metric_model (g : AggregatorInner) (attrs : list KeyValue) :
    AggregatorInner * string :=
  let model := non_empty (default "" (string_attr attrs "model")) in
  (register_canonical_claude_model g model, model).

(** ** Codex sessions *)

Definition codex_last_session (g : AggregatorInner) (service : string) : option CodexSession :=
  codex_last_sessions g !! service.

Definition codex_provider_from_session (session : option CodexSession) : string :=
  match session with Some s => cs_provider s | None => PROVIDER_OPENAI end.

Definition codex_effort_from_session (session : option CodexSession) : string :=
  match session with Some s => cs_effort s | None => "" end.

Definition codex_provider (g : AggregatorInner) (service : string) : string :=
  codex_provider_from_session (codex_last_session g service).

Definition codex_effort (g : AggregatorInner) (service : string) : string :=
  codex_effort_from_session (codex_last_session g service).

Definition codex_session_for_attrs (g : AggregatorInner) (attrs : list KeyValue) :
    option CodexSession :=
  match string_attr attrs "conversation.id" with
  | None => None
  | Some cid => if str_is_empty cid then None else codex_sessions g !! cid
  end.

Definition move_codex_bucket_stats (g : AggregatorInner) (from to : Bucket)
    (stats : ModelStats) : AggregatorInner :=
  match agents g !! AGENT_CODEX with
  | None => g
  | Some agent_stats =>
      set_agents g (<[AGENT_CODEX := agent_move agent_stats from to stats]> (agents g))
  end.

Definition sum_pending_for_bucket (g : AggregatorInner) (bucket : Bucket) : ModelStats :=
  for_each stats_add stats_zero
    (omap (fun e => e.2 !! bucket) (map_to_list (codex_pending_sse g))).

(** One pending bucket of a conversation, once its session is known. *)
Definition merge_pending_entry (provider effort : string) (provider_confirmed : bool)
    (acc : AggregatorInner * gmap Bucket ModelStats * bool) (entry : Bucket * ModelStats) :
    AggregatorInner * gmap Bucket ModelStats * bool :=
  let '(g, kept, moved_any) := acc in
  let '(actual_from, pending) := entry in
  let resolved_effort :=
    if String.eqb (AggStats.effort actual_from) UNKNOWN then non_empty effort
    else AggStats.effort actual_from in
  let actual_to := from_parts provider (model actual_from) resolved_effort in
  let kept :=
    if negb provider_confirmed || String.eqb (AggStats.effort actual_to) UNKNOWN
    then usage_add kept actual_to pending else kept in
  if bool_decide (actual_from = actual_to) then (g, kept, moved_any)
  else (move_codex_bucket_stats g actual_from actual_to pending, kept, true).

Definition merge_codex_pending_sse (g : AggregatorInner)
    (provider model conversation_id effort : string) (provider_confirmed : bool) :
    AggregatorInner * bool :=
  if negb (str_is_empty conversation_id) then
    match codex_pending_sse g !! conversation_id with
    | None => (g, false)
    | Some entries =>
        let g := set_pending g (delete conversation_id (codex_pending_sse g)) in
        let '(g, kept, moved_any) :=
          for_each (merge_pending_entry provider effort provider_confirmed) (g, ∅, false)
            (btree_entries bucket_le entries) in
        let g :=
          if bool_decide (kept = ∅) then g
          else set_pending g (<[conversation_id := kept]> (codex_pending_sse g)) in
        (g, moved_any)
    end
  else if str_is_empty model || str_is_empty effort || String.eqb effort UNKNOWN then
    (g, false)
  else
    let from := from_parts provider model UNKNOWN in
    let to := from_parts provider model effort in
    if bool_decide (from = to) then (g, false)
    else
      match agents g !! AGENT_CODEX with
      | None => (g, false)
      | Some agent_stats =>
          match buckets agent_stats !! bucket_key from with
          | None => (g, false)
          | Some from_stats =>
              let movable :=
                saturating_sub_stats (bs_stats from_stats) (sum_pending_for_bucket g from) in
              if negb (has_any_value movable) then (g, false)
              else (move_codex_bucket_stats g from to movable, true)
          end
      end.

Definition session_with_effort (s : CodexSession) (effort : string) : CodexSession :=
  mkSession (conversation_id s) (cs_provider s) (cs_model s) effort (provider_confirmed s).

(** Fill what [session] misses from the session known for the same conversation. *)
Definition complete_session (prev session : CodexSession) : CodexSession :=
  let take_provider := negb (provider_confirmed session) && provider_confirmed prev in
  mkSession (conversation_id session)
    (if take_provider then cs_provider prev else cs_provider session)
    (if str_is_empty (cs_model session) then cs_model prev else cs_model session)
    (if str_is_empty (cs_effort session) then cs_effort prev else cs_effort session)
    (if take_provider then true else provider_confirmed session).

Definition update_codex_session_with_last (g : AggregatorInner) (service : string)
    (session : CodexSession) (update_last : bool) : AggregatorInner * bool :=
  let session :=
    if negb (str_is_empty (conversation_id session)) then
      match codex_sessions g !! conversation_id session with
      | Some prev => complete_session prev session
      | None => session
      end
    else session in
  let g :=
    if negb (str_is_empty (conversation_id session)) then
      set_sessions g (<[conversation_id session := session]> (codex_sessions g))
    else g in
  let g :=
    if update_last then
      set_last_sessions g (<[service := session]> (codex_last_sessions g))
    else g in
  merge_codex_pending_sse g (cs_provider session) (cs_model session)
    (conversation_id session) (cs_effort session) (provider_confirmed session).

Definition update_codex_session (g : AggregatorInner) (service : string)
    (session : CodexSession) : AggregatorInner * bool :=
  update_codex_session_with_last g service session true.

Definition update_codex_last_effort (g : AggregatorInner) (service effort : string) :
    AggregatorInner * bool :=
  let last :=
    default (mkSession "" PROVIDER_OPENAI "" "" false) (codex_last_session g service) in
  if String.eqb (cs_effort last) effort then (g, false)
  else
    let last := session_with_effort last effort in
    let g := set_last_sessions g (<[service := last]> (codex_last_sessions g)) in
    if str_is_empty (conversation_id last) then
      merge_codex_pending_sse g (cs_provider last) (cs_model last) "" effort
        (provider_confirmed last)
    else (g, false).

Definition update_codex_effort_from_request_attrs (g : AggregatorInner) (service : string)
    (attrs : list KeyValue) : AggregatorInner * bool :=
  match string_attr attrs "codex.request.reasoning_effort" with
  | None => (g, false)
  | Some effort =>
      if str_is_empty effort then (g, false)
      else
        let cid_attr :=
          match string_attr attrs "conversation.id" with
          | Some cid => if str_is_empty cid then None else Some cid
          | None => None
          end in
        match cid_attr with
        | None => update_codex_last_effort g service effort
        | Some cid =>
            let session :=
              match codex_sessions g !! cid with
              | Some session => session_with_effort session effort
              | None =>
                  mkSession cid PROVIDER_OPENAI (default "" (string_attr attrs "model"))
                    effort false
              end in
            let update_last :=
              match codex_last_session g service with
              | None => true
              | Some last => String.eqb (conversation_id last) (conversation_id session)
              end in
            update_codex_session_with_last g service session update_last
        end
  end.
End record.
