(* ===== verification/AggIngest.v ===== *)
(** * Ingesting logs, traces and metrics ([src/src/aggregator.rs])

    What a record means (the [extract_] functions) and the three entry points
    [ingest_logs], [ingest_traces] and [ingest_metrics].  Each returns the new state and the
    number of samples that changed the totals, the signal for [--summary]. *)

From S2P Require Import Prelude Float64 Otlp AggValues AggStats AggState.

Local Open Scope Z_scope.

Definition event_conversation_starts : string := "codex.conversation_starts".

(** [log.body.as_ref()?.value.as_ref()?], when it is a string. *)
Definition body_string (log : LogRecord) : option string :=
  match log_body log ≫= any_value with
  | Some (StringValue s) => Some s
  | _ => None
  end.

(** ** Claude API request logs *)

Definition claude_request_stats (attrs : list KeyValue) : ModelStats :=
  mkStats 1 0 0 0 0 0 f64_zero (Z.max 0 (default 0 (int_attr attrs "duration_ms"))).

Definition claude_usage_stats (attrs : list KeyValue) : ModelStats :=
  mkStats 0 (u64_attr attrs "input_tokens") (u64_attr attrs "output_tokens")
    (u64_attr attrs "cache_read_tokens") (u64_attr attrs "cache_creation_tokens") 0
    (f64_max (default f64_zero (f64_attr attrs "cost_usd")) f64_zero) 0.

Definition extract_claude_api_request_meta (g : AggregatorInner) (log : LogRecord) :
    option (Bucket * ModelStats * ModelStats) :=
  match body_string log with
  | None => None
  | Some body_str =>
      if negb (String.eqb body_str "claude_code.api_request") then None
      else
        let attrs := log_attributes log in
        let raw_model := default "" (string_attr attrs "model") in
        let model := canonical_claude_model g raw_model in
        let effort := default "" (string_attr attrs "effort") in
        Some (from_parts PROVIDER_ANTHROPIC model effort,
              claude_request_stats attrs, claude_usage_stats attrs)
  end.

(** ** Codex sessions *)

Definition otel_event_matches (name : string) (attrs : list KeyValue) (expected : string) : bool :=
  String.eqb name expected || bool_decide (string_attr attrs "event.name" = Some expected).

Definition extract_session_from_attrs (attrs : list KeyValue) : option CodexSession :=
  let conversation_id := default "" (string_attr attrs "conversation.id") in
  let provider_attr :=
    match string_attr attrs "provider_name" with
    | Some p => if str_is_empty p then None else Some p
    | None => None
    end in
  let provider := default PROVIDER_OPENAI provider_attr in
  let model := default "" (string_attr attrs "model") in
  let effort := default "" (string_attr attrs "reasoning_effort") in
  if str_is_empty conversation_id && str_is_empty model && str_is_empty effort then None
  else Some (mkSession conversation_id provider model effort
               (match provider_attr with Some _ => true | None => false end)).

Definition extract_codex_conversation_starts (log : LogRecord) : option CodexSession :=
  let body_matches := bool_decide (body_string log = Some event_conversation_starts) in
  let event_name_matches :=
    otel_event_matches (log_event_name log) (log_attributes log) event_conversation_starts in
  if negb body_matches && negb event_name_matches then None
  else extract_session_from_attrs (log_attributes log).

(** ** Codex completion logs *)

Record CodexSseExtraction := mkSse {
  sse_bucket : Bucket;
  sse_stats : ModelStats;
  pending_conversation_id : option string;
}.

Definition codex_sse_stats (attrs : list KeyValue) : ModelStats :=
  mkStats 0 (u64_attr attrs "input_token_count") (u64_attr attrs "output_token_count")
    (u64_attr attrs "cached_token_count") (u64_attr attrs "cache_write_token_count")
    (u64_attr attrs "reasoning_token_count") f64_zero 0.

(** Usage-free completions: only tool context, or nothing at all. *)
Definition sse_not_usage (s : ModelStats) (tool_tokens : Z) : bool :=
  (negb (input_tokens s =? 0) && (input_tokens s =? tool_tokens)
   && (output_tokens s =? 0) && (cache_read_tokens s =? 0)
   && (cache_creation_tokens s =? 0) && (reasoning_output_tokens s =? 0))
  || ((input_tokens s =? 0) && (output_tokens s =? 0) && (cache_read_tokens s =? 0)
   && (cache_creation_tokens s =? 0) && (reasoning_output_tokens s =? 0)).

Definition non_empty_attr (attrs : list KeyValue) (key : string) : option string :=
  match string_attr attrs key with
  | Some s => if str_is_empty s then None else Some s
  | None => None
  end.

Definition extract_codex_sse_response_completed (g : AggregatorInner) (service : string)
    (log : LogRecord) : option CodexSseExtraction :=
  let attrs := log_attributes log in
  if negb (bool_decide (string_attr attrs "event.name" = Some "codex.sse_event"))
     || negb (bool_decide (string_attr attrs "event.kind" = Some "response.completed"))
  then None
  else
    let stats := codex_sse_stats attrs in
    if sse_not_usage stats (u64_attr attrs "tool_token_count") then None
    else
      let conversation_id := string_attr attrs "conversation.id" in
      let has_conversation_id :=
        match conversation_id with Some id => negb (str_is_empty id) | None => false end in
      let session :=
        if has_conversation_id then codex_session_for_attrs g attrs
        else codex_last_session g service in
      let model :=
        match non_empty_attr attrs "model" with
        | Some m => m
        | None =>
            match non_empty_attr attrs "slug" with
            | Some m => m
            | None => match session with Some s => cs_model s | None => "" end
            end
        end in
      let effort :=
        match non_empty_attr attrs "model_reasoning_effort" with
        | Some e => e
        | None => codex_effort_from_session session
        end in
      let bucket := from_parts (codex_provider_from_session session) model effort in
      let unconfirmed :=
        match session with Some s => negb (provider_confirmed s) | None => true end in
      let pending :=
        if has_conversation_id
           && (unconfirmed || String.eqb (AggStats.effort bucket) UNKNOWN)
        then conversation_id else None in
      Some (mkSse bucket stats pending).

(** ** Entry points *)

Section ingest.
Context `{World}.

(** Record the usage of a completion log, unless metrics already count its model. *)
Definition ingest_codex_sse (g : AggregatorInner) (parsed : CodexSseExtraction) :
    AggregatorInner * bool :=
  let bucket := sse_bucket parsed in
  let stats := sse_stats parsed in
  let source_key := codex_token_source_key (model bucket) in
  if bool_decide (codex_token_sources g !! source_key = Some CodexMetrics) then (g, false)
  else
    let g := record_into g AGENT_CODEX bucket stats in
    let g :=
      match pending_conversation_id parsed with
      | None => g
      | Some cid =>
          set_pending g
            (<[cid := usage_add (default ∅ (codex_pending_sse g !! cid)) bucket stats]>
               (codex_pending_sse g))
      end in
    (set_token_sources g (<[source_key := CodexLogs]> (codex_token_sources g)), true).

Definition count_if (count : nat) (b : bool) : nat := if b then S count else count.

(** The body of the innermost loop of [ingest_logs]. *)
Definition ingest_log_record (service : string) (acc : AggregatorInner * nat)
    (log : LogRecord) : AggregatorInner * nat :=
  let '(g, count) := acc in
  match (if String.eqb service SERVICE_CLAUDE
         then extract_claude_api_request_meta g log else None) with
  | Some (bucket, request_stats, usage_stats) =>
      let g := record_into g AGENT_CLAUDE bucket request_stats in
      let g := record_claude_log_usage g bucket usage_stats in
      (g, S count)
  | None =>
      if is_codex_service service then
        let '(g, count) :=
          match extract_codex_conversation_starts log with
          | Some session =>
              let '(g, moved) := update_codex_session g service session in
              (g, count_if count moved)
          | None => (g, count)
          end in
        match extract_codex_sse_response_completed g service log with
        | Some parsed =>
            let '(g, recorded) := ingest_codex_sse g parsed in
            (g, count_if count recorded)
        | None => (g, count)
        end
      else (g, count)
  end.

Definition ingest_logs (g : AggregatorInner) (req : ExportLogsServiceRequest) :
    AggregatorInner * nat :=
  for_each (fun acc rl =>
    let service := service_name (rl_resource rl) in
    for_each (fun acc sl =>
      for_each (ingest_log_record service) acc (sl_log_records sl))
      acc (rl_scope_logs rl))
    (g, 0%nat) (resource_logs req).

Definition ingest_span_event (service : string) (acc : AggregatorInner * nat)
    (ev : SpanEvent) : AggregatorInner * nat :=
  let '(g, updates) := acc in
  if otel_event_matches (ev_name ev) (ev_attributes ev) event_conversation_starts then
    match extract_session_from_attrs (ev_attributes ev) with
    | Some session =>
        let '(g, moved) := update_codex_session g service session in
        (g, count_if updates moved)
    | None => (g, updates)
    end
  else (g, updates).

Definition ingest_span (service : string) (acc : AggregatorInner * nat) (span : Span) :
    AggregatorInner * nat :=
  let '(g, updates) := for_each (ingest_span_event service) acc (span_events span) in
  if String.eqb (span_name span) "handle_responses" then
    let '(g, moved) := update_codex_effort_from_request_attrs g service (span_attributes span) in
    (g, count_if updates moved)
  else (g, updates).

Definition ingest_traces (g : AggregatorInner) (req : ExportTraceServiceRequest) :
    AggregatorInner * nat :=
  if negb (existsb (fun rs => is_codex_service (service_name (rs_resource rs)))
            (resource_spans req))
  then (g, 0%nat)
  else
    for_each (fun acc rs =>
      let service := service_name (rs_resource rs) in
      if negb (is_codex_service service) then acc
      else
        for_each (fun acc ss => for_each (ingest_span service) acc (ss_spans ss))
          acc (rs_scope_spans rs))
      (g, 0%nat) (resource_spans req).

(** ** Metrics *)

Definition claude_token_stats (typ : string) (value : Z) : option ModelStats :=
  if String.eqb typ "input" then Some (mkStats 0 value 0 0 0 0 f64_zero 0)
  else if String.eqb typ "output" then Some (mkStats 0 0 value 0 0 0 f64_zero 0)
  else if String.eqb typ "cacheRead" then Some (mkStats 0 0 0 value 0 0 f64_zero 0)
  else if String.eqb typ "cacheCreation" then Some (mkStats 0 0 0 0 value 0 f64_zero 0)
  else None.

Definition ingest_claude_token_point (acc : AggregatorInner * nat) (dp : NumberDataPoint) :
    AggregatorInner * nat :=
  let '(g, hits) := acc in
  let attrs := ndp_attributes dp in
  let '(g, model) := claude_metric_model g attrs in
  let effort := default "" (string_attr attrs "effort") in
  let typ := default "" (string_attr attrs "type") in
  match claude_token_stats typ (number_value_as_u64 dp) with
  | None => (g, hits)
  | Some stats =>
      let '(g, recorded) :=
        record_claude_metric_usage g (from_parts PROVIDER_ANTHROPIC model effort) stats in
      (g, count_if hits recorded)
  end.

Definition ingest_claude_token (g : AggregatorInner) (metric : Metric) : AggregatorInner * nat :=
  match metric_data metric with
  | Some (Sum data_points temporality) =>
      if negb (is_delta_temporality temporality) then (g, 0%nat)
      else for_each ingest_claude_token_point (g, 0%nat) data_points
  | _ => (g, 0%nat)
  end.

Definition ingest_claude_cost_point (acc : AggregatorInner * nat) (dp : NumberDataPoint) :
    AggregatorInner * nat :=
  let '(g, hits) := acc in
  let attrs := ndp_attributes dp in
  let '(g, model) := claude_metric_model g attrs in
  let effort := default "" (string_attr attrs "effort") in
  let stats := mkStats 0 0 0 0 0 0 (number_value_as_f64 dp) 0 in
  let '(g, recorded) :=
    record_claude_metric_usage g (from_parts PROVIDER_ANTHROPIC model effort) stats in
  (g, count_if hits recorded).

Definition ingest_claude_cost (g : AggregatorInner) (metric : Metric) : AggregatorInner * nat :=
  match metric_data metric with
  | Some (Sum data_points temporality) =>
      if negb (is_delta_temporality temporality) then (g, 0%nat)
      else for_each ingest_claude_cost_point (g, 0%nat) data_points
  | _ => (g, 0%nat)
  end.

Definition codex_token_stats (token_type : string) (value : Z) : option ModelStats :=
  if String.eqb token_type "input" then Some (mkStats 0 value 0 0 0 0 f64_zero 0)
  else if String.eqb token_type "output" then Some (mkStats 0 0 value 0 0 0 f64_zero 0)
  else if String.eqb token_type "cached_input" then Some (mkStats 0 0 0 value 0 0 f64_zero 0)
  else if String.eqb token_type "cache_write_input" then
    Some (mkStats 0 0 0 0 value 0 f64_zero 0)
  else if String.eqb token_type "reasoning_output" then
    Some (mkStats 0 0 0 0 0 value f64_zero 0)
  else None.

Definition ingest_codex_token_point (service : string) (acc : AggregatorInner * nat)
    (dp : HistogramDataPoint) : AggregatorInner * nat :=
  let '(g, hits) := acc in
  let attrs := hdp_attributes dp in
  let model := default "" (string_attr attrs "model") in
  let source_key := codex_token_source_key model in
  if bool_decide (codex_token_sources g !! source_key = Some CodexLogs) then (g, hits)
  else
    let token_type := default "" (string_attr attrs "token_type") in
    let value := histogram_sum_as_u64 dp in
    match codex_token_stats token_type value with
    | None => (g, hits)
    | Some stats =>
        if value =? 0 then (g, hits)
        else
          let bucket := from_parts (codex_provider g service) model (codex_effort g service) in
          let g := record_into g AGENT_CODEX bucket stats in
          (set_token_sources g (<[source_key := CodexMetrics]> (codex_token_sources g)), S hits)
    end.

Definition ingest_codex_token (g : AggregatorInner) (service : string) (metric : Metric) :
    AggregatorInner * nat :=
  match metric_data metric with
  | Some (Histogram data_points temporality) =>
      if negb (is_delta_temporality temporality) then (g, 0%nat)
      else for_each (ingest_codex_token_point service) (g, 0%nat) data_points
  | _ => (g, 0%nat)
  end.

Definition ingest_codex_turn_count_point (service : string) (acc : AggregatorInner * nat)
    (dp : NumberDataPoint) : AggregatorInner * nat :=
  let '(g, hits) := acc in
  let model := default "" (string_attr (ndp_attributes dp) "model") in
  let request_count := number_value_as_u64 dp in
  if request_count =? 0 then (g, hits)
  else
    let bucket := from_parts (codex_provider g service) model (codex_effort g service) in
    (record_into g AGENT_CODEX bucket (mkStats request_count 0 0 0 0 0 f64_zero 0), S hits).

Definition ingest_codex_turn_count (g : AggregatorInner) (service : string)
    (metric : Metric) : AggregatorInner * nat :=
  match metric_data metric with
  | Some (Sum data_points temporality) =>
      if negb (is_delta_temporality temporality) then (g, 0%nat)
      else for_each (ingest_codex_turn_count_point service) (g, 0%nat) data_points
  | _ => (g, 0%nat)
  end.

Definition ingest_codex_duration_point (service : string) (acc : AggregatorInner * nat)
    (dp : HistogramDataPoint) : AggregatorInner * nat :=
  let '(g, hits) := acc in
  let model := default "" (string_attr (hdp_attributes dp) "model") in
  let duration_ms := histogram_sum_as_u64 dp in
  if duration_ms =? 0 then (g, hits)
  else
    let bucket := from_parts (codex_provider g service) model (codex_effort g service) in
    (record_into g AGENT_CODEX bucket (mkStats 0 0 0 0 0 0 f64_zero duration_ms), S hits).

Definition ingest_codex_duration (g : AggregatorInner) (service : string) (metric : Metric) :
    AggregatorInner * nat :=
  match metric_data metric with
  | Some (Histogram data_points temporality) =>
      if negb (is_delta_temporality temporality) then (g, 0%nat)
      else for_each (ingest_codex_duration_point service) (g, 0%nat) data_points
  | _ => (g, 0%nat)
  end.

Definition ingest_metric (service : string) (g : AggregatorInner) (metric : Metric) :
    AggregatorInner * nat :=
  let name := metric_name metric in
  if String.eqb service SERVICE_CLAUDE then
    if String.eqb name "claude_code.token.usage" then ingest_claude_token g metric
    else if String.eqb name "claude_code.cost.usage" then ingest_claude_cost g metric
    else (g, 0%nat)
  else if is_codex_service service then
    if String.eqb name "codex.turn.token_usage" then ingest_codex_token g service metric
    else if String.eqb name "codex.conversation.turn.count" then
      ingest_codex_turn_count g service metric
    else if String.eqb name "codex.turn.e2e_duration_ms" then
      ingest_codex_duration g service metric
    else (g, 0%nat)
  else (g, 0%nat).

Definition ingest_metrics (g : AggregatorInner) (req : ExportMetricsServiceRequest) :
    AggregatorInner * nat :=
  for_each (fun acc rm =>
    let service := service_name (rm_resource rm) in
    for_each (fun acc sm =>
      for_each (fun acc metric =>
        let '(g, count) := acc in
        let '(g, hits) := ingest_metric service g metric in
        (g, (count + hits)%nat))
        acc (sm_metrics sm))
      acc (rm_scope_metrics rm))
    (g, 0%nat) (resource_metrics req).
End ingest.
