(* ===== verification/AggInv.v ===== *)
(** * Invariants of the aggregator

    The state invariant [Inv v g]: every total is the sum of its buckets, what was counted
    from metrics or is waiting for a Codex session is still in its bucket, and no counter is
    above the volume [v] ingested so far.  One lemma per operation shows it is preserved. *)

From S2P Require Import Prelude Float64 Otlp AggValues AggStats AggState AggIngest.

Local Open Scope Z_scope.

(** ** Definitions *)

(** The statistics of one agent. *)
Record AgentInv (v : Z) (a : AgentStats) : Prop := {
  ai_buckets : buckets_wf (buckets a);
  ai_total : stats_wf (total a);
  ai_sum : forall c, get c (total a) = map_sum (bs_get c) (buckets a);
  ai_bound : forall c, get c (total a) <= v;
}.

Definition claude_buckets (g : AggregatorInner) : gmap string BucketStats :=
  buckets (agent_of g AGENT_CLAUDE).
Definition codex_buckets (g : AggregatorInner) : gmap string BucketStats :=
  buckets (agent_of g AGENT_CODEX).

(** What a [Bucket -> usage] map holds for [b]. *)
Definition usage_val (c : counter) (m : gmap Bucket ModelStats) (b : Bucket) : Z :=
  map_val (get c) m b.

(** What all conversations together have pending in [b]. *)
Definition pending_val (c : counter) (p : gmap string (gmap Bucket ModelStats)) (b : Bucket) : Z :=
  map_sum (fun per_bucket => usage_val c per_bucket b) p.

Definition usage_wf (m : gmap Bucket ModelStats) : Prop :=
  map_Forall (fun b s => bucket_wf b /\ stats_wf s) m.

(** Usage counted from metrics: filed under the key of its bucket, from a model name the
    metrics reported, and still held by that bucket. *)
Definition MetricUsageInv (g : AggregatorInner) : Prop :=
  forall k per b s,
    claude_metric_usage g !! k = Some per -> per !! b = Some s ->
    k = bucket_usage_key b /\ model b ∈ claude_metric_models g /\ bucket_wf b /\ stats_wf s /\
    forall c, get c s <= bucket_val c (claude_buckets g) b.

Definition PendingInv (p : gmap string (gmap Bucket ModelStats))
    (m : gmap string BucketStats) : Prop :=
  map_Forall (fun _ => usage_wf) p /\
  forall c b, pending_val c p b <= bucket_val c m b.

Record Inv (v : Z) (g : AggregatorInner) : Prop := {
  inv_agents : forall agent, AgentInv v (agent_of g agent);
  inv_usage : MetricUsageInv g;
  inv_pending : PendingInv (codex_pending_sse g) (codex_buckets g);
}.

(** [Inv], with an amount [R] still reserved in each Codex bucket. *)
Definition CodexInv (v : Z) (g : AggregatorInner) (R : counter -> Bucket -> Z) : Prop :=
  (forall agent, AgentInv v (agent_of g agent)) /\ MetricUsageInv g /\
  map_Forall (fun _ => usage_wf) (codex_pending_sse g) /\
  forall c b, pending_val c (codex_pending_sse g) b + R c b <= bucket_val c (codex_buckets g) b.

(** The counter [c] of [s], seen as a function of the bucket it is in. *)
Definition at_bucket (b : Bucket) (s : ModelStats) (c : counter) (b' : Bucket) : Z :=
  if decide (b' = b) then get c s else 0.

(** What a list of entries still holds in bucket [b]. *)
Definition list_val (c : counter) (l : list (Bucket * ModelStats)) (b : Bucket) : Z :=
  foldr (fun e acc => at_bucket e.1 e.2 c b + acc) 0 l.

Definition entries_wf (l : list (Bucket * ModelStats)) : Prop :=
  Forall (fun e => bucket_wf e.1 /\ stats_wf e.2) l.

(** * Lemmas *)

(** ** One agent *)

Lemma agent_default_inv v : 0 <= v -> AgentInv v agent_default.
Proof.
  intros Hv. split; simpl; [split; [done|apply map_Forall_empty]|apply stats_zero_wf| |].
  - intros c. by rewrite get_zero, map_sum_empty.
  - intros c. by rewrite get_zero.
Qed.

Lemma AgentInv_mono v v' a : AgentInv v a -> v <= v' -> AgentInv v' a.
Proof. intros [] ?. split; [done..|]. intros c. specialize (ai_bound0 c). lia. Qed.

Lemma bucket_val_nonneg c m b : buckets_wf m -> 0 <= bucket_val c m b.
Proof. intros Hm. apply map_val_nonneg. by apply buckets_wf_nonneg. Qed.

Lemma bucket_val_le_sum c m b : buckets_wf m -> bucket_val c m b <= map_sum (bs_get c) m.
Proof. intros Hm. apply map_val_le_sum. by apply buckets_wf_nonneg. Qed.

Lemma agent_bucket_bound v a c b : AgentInv v a -> 0 <= bucket_val c (buckets a) b <= v.
Proof.
  intros Ha. pose proof (bucket_val_le_sum c _ b (ai_buckets _ _ Ha)).
  pose proof (ai_sum _ _ Ha c). pose proof (ai_bound _ _ Ha c).
  pose proof (bucket_val_nonneg c _ b (ai_buckets _ _ Ha)). lia.
Qed.

Lemma agent_record_inv v a b s :
  AgentInv v a -> bucket_wf b -> stats_wf s -> v + volume s <= u64_max ->
  AgentInv (v + volume s) (agent_record a b s).
Proof.
  intros Ha Hb Hs Hv. pose proof (agent_bucket_bound v a) as Hbound.
  assert (forall c, 0 <= get c s <= volume s) as Hget.
  { intros c. destruct Hs. split; [by apply get_nonneg|by apply get_le_volume]. }
  destruct Ha as [Hw Ht Hsum Hle]. split; simpl.
  - by apply entry_add_wf.
  - auto with stats.
  - intros c. rewrite get_add, map_sum_entry_add, <-Hsum.
    specialize (Hget c). specialize (Hle c).
    pose proof (bucket_val_le_sum c _ b Hw). rewrite <-Hsum in *.
    rewrite !sat_add_exact by lia. lia.
  - intros c. rewrite get_add. specialize (Hget c). specialize (Hle c). unfold sat_add. lia.
Qed.

Lemma agent_subtract_inv v a b s :
  AgentInv v a -> stats_wf s -> (forall c, get c s <= bucket_val c (buckets a) b) ->
  AgentInv v (agent_subtract a b s).
Proof.
  intros [Hw Ht Hsum Hle] Hs Hsub. split; simpl.
  - by apply entry_subtract_wf.
  - auto with stats.
  - intros c. rewrite get_subtract, map_sum_subtract by apply Hs.
    specialize (Hsub c). fold (bucket_val c (buckets a) b).
    pose proof (bucket_val_le_sum c _ b Hw). rewrite <-Hsum in *.
    rewrite !sat_sub_exact by lia. lia.
  - intros c. rewrite get_subtract. specialize (Hle c).
    pose proof (get_nonneg c s (proj1 Hs)). pose proof (get_nonneg c _ (proj1 Ht)).
    unfold sat_sub. lia.
Qed.

(** Moving usage between two buckets of an agent keeps the sum. *)
Lemma agent_move_inv v a from to s :
  AgentInv v a -> bucket_wf to -> stats_wf s -> from <> to -> v <= u64_max ->
  (forall c, get c s <= bucket_val c (buckets a) from) ->
  AgentInv v (agent_move a from to s).
Proof.
  intros [Hw Ht Hsum Hle] Hto Hs Hne Hv Hsub. split; simpl; [|done| |done].
  - apply entry_add_wf; [by apply entry_subtract_wf|done..].
  - intros c. specialize (Hsub c). specialize (Hle c).
    rewrite map_sum_entry_add, bucket_val_subtract_ne by done.
    rewrite map_sum_subtract by apply Hs. fold (bucket_val c (buckets a) from).
    pose proof (bucket_val_le_sum c _ to (entry_subtract_wf _ (bucket_key from) s Hw Hs)) as Hto'.
    rewrite bucket_val_subtract_ne, map_sum_subtract in Hto' by (done || apply Hs).
    fold (bucket_val c (buckets a) from) in Hto'. rewrite <-Hsum in *.
    rewrite sat_sub_exact in * by lia. rewrite sat_add_exact by lia. lia.
Qed.

Lemma bucket_val_record c a b s b' :
  stats_wf s -> AgentInv u64_max a ->
  bucket_val c (buckets a) b' <= bucket_val c (buckets (agent_record a b s)) b'.
Proof.
  intros Hs Ha. simpl. destruct (decide (b = b')) as [<-|].
  - rewrite bucket_val_add_eq. pose proof (agent_bucket_bound _ _ c b Ha).
    pose proof (get_nonneg c s (proj1 Hs)). unfold sat_add. lia.
  - by rewrite bucket_val_add_ne.
Qed.

Lemma bucket_val_move v c a from to s b :
  AgentInv v a -> stats_wf s -> from <> to -> v <= u64_max ->
  get c s <= bucket_val c (buckets a) from ->
  bucket_val c (buckets (agent_move a from to s)) b =
    bucket_val c (buckets a) b
    - (if decide (b = from) then get c s else 0)
    + (if decide (b = to) then get c s else 0).
Proof.
  intros Ha Hs Hne Hv Hsub. simpl.
  pose proof (bucket_val_le_sum c _ to
    (entry_subtract_wf _ (bucket_key from) s (ai_buckets _ _ Ha) Hs)) as Hto'.
  rewrite bucket_val_subtract_ne, map_sum_subtract in Hto' by (done || apply Hs).
  fold (bucket_val c (buckets a) from) in Hto'. rewrite <-(ai_sum _ _ Ha) in Hto'.
  rewrite sat_sub_exact in Hto' by lia. pose proof (ai_bound _ _ Ha c).
  destruct (decide (b = to)) as [->|].
  - rewrite bucket_val_add_eq, bucket_val_subtract_ne by done.
    rewrite decide_False by done. rewrite sat_add_exact by lia. lia.
  - rewrite bucket_val_add_ne by done. destruct (decide (b = from)) as [->|].
    + unfold bucket_val at 1. rewrite map_val_subtract_eq by apply Hs.
      fold (bucket_val c (buckets a) from). rewrite sat_sub_exact by lia. lia.
    + rewrite bucket_val_subtract_ne by done. lia.
Qed.

(** ** Merging a bare model name into its full name *)

Lemma merge_one_inv v full a k :
  AgentInv v a -> v <= u64_max ->
  AgentInv v (mkAgent (total a) (merge_one full (buckets a) k)).
Proof.
  intros [Hw Ht Hsum Hle] Hv. unfold merge_one.
  destruct (buckets a !! k) as [bs|] eqn:E; [|by split].
  destruct (proj2 Hw _ _ E) as [Hbs _].
  split; simpl; [|done| |done].
  - apply entry_add_wf; [by apply delete_wf|apply from_parts_wf|done].
  - intros c. set (b := from_parts _ _ _).
    rewrite map_sum_entry_add, map_sum_delete, (map_val_Some _ _ k bs E).
    pose proof (bucket_val_le_sum c _ b (delete_wf _ k Hw)) as Hto.
    rewrite map_sum_delete, (map_val_Some _ _ k bs E) in Hto.
    rewrite <-Hsum in *. specialize (Hle c). unfold bs_get in *.
    rewrite sat_add_exact by lia. lia.
Qed.

(** Buckets of another model only grow. *)
Lemma merge_one_val v full bare a k c b m0 :
  AgentInv v a -> v <= u64_max -> buckets_keyed m0 ->
  k ∈ bare_bucket_keys m0 bare -> model b <> bare ->
  bucket_val c (buckets a) b <= bucket_val c (merge_one full (buckets a) k) b.
Proof.
  intros Ha Hv Hm0 Hk Hb. pose proof (merge_one_inv v full a k Ha Hv) as Ha'.
  apply elem_of_bare_bucket_keys in Hk as (bs0 & E0 & _ & Hmodel); [|done].
  assert (k <> bucket_key b) as Hne.
  { rewrite (Hm0 _ _ E0). intros Heq%bucket_key_inj. by subst. }
  revert Ha'. unfold merge_one. destruct (buckets a !! k) as [bs|] eqn:E; [|lia].
  set (t := from_parts _ _ _). intros Ha'.
  assert (bucket_val c (delete k (buckets a)) b = bucket_val c (buckets a) b) as Hdel.
  { by apply map_val_delete_ne. }
  destruct (decide (t = b)) as [<-|]; [|rewrite bucket_val_add_ne, Hdel by done; lia].
  rewrite bucket_val_add_eq, Hdel.
  pose proof (agent_bucket_bound _ _ c t Ha).
  destruct (proj2 (ai_buckets _ _ Ha) _ _ E) as [[Hbs _] _].
  pose proof (get_nonneg c _ Hbs). unfold sat_add. lia.
Qed.

Lemma merge_bare_into_full_inv v a bare full :
  AgentInv v a -> v <= u64_max ->
  AgentInv v (merge_bare_into_full a bare full) /\
  forall c b, model b <> bare ->
    bucket_val c (buckets a) b <= bucket_val c (buckets (merge_bare_into_full a bare full)) b.
Proof.
  intros Ha Hv. unfold merge_bare_into_full.
  apply (for_each_ind (merge_one full) (fun m =>
    AgentInv v (mkAgent (total a) m) /\
    forall c b, model b <> bare -> bucket_val c (buckets a) b <= bucket_val c m b)).
  - split; [by destruct a|lia].
  - intros m k Hk [Hm Hval]. split.
    + by apply (merge_one_inv v full (mkAgent (total a) m)).
    + intros c b Hb. specialize (Hval c b Hb).
      pose proof (merge_one_val v full bare (mkAgent (total a) m) k c b (buckets a) Hm Hv
        (proj1 (ai_buckets _ _ Ha)) Hk Hb) as Hstep. simpl in *. lia.
Qed.

(** ** Reading an agent after an update *)

Lemma agent_of_set g agent a agent' :
  agent_of (set_agents g (<[agent := a]> (agents g))) agent' =
  if decide (agent = agent') then a else agent_of g agent'.
Proof. unfold agent_of. simpl. rewrite lookup_insert. by destruct (decide _). Qed.

Lemma agent_of_some g agent a : agents g !! agent = Some a -> agent_of g agent = a.
Proof. unfold agent_of. by intros ->. Qed.

Lemma agent_of_none g agent : agents g !! agent = None -> agent_of g agent = agent_default.
Proof. unfold agent_of. by intros ->. Qed.

Lemma Inv_mono v v' g : Inv v g -> v <= v' -> Inv v' g.
Proof. intros [Ha Hu Hp] Hv. split; [|done..]. intros agent. by eapply AgentInv_mono. Qed.

Lemma bucket_val_empty c b : bucket_val c ∅ b = 0.
Proof. unfold bucket_val. by rewrite map_val_None. Qed.

(** Only the agents matter when nothing else of the invariant changes. *)
Lemma Inv_agents v v' g g' :
  Inv v g ->
  (forall agent, AgentInv v' (agent_of g' agent)) ->
  claude_metric_usage g' = claude_metric_usage g ->
  claude_metric_models g ⊆ claude_metric_models g' ->
  codex_pending_sse g' = codex_pending_sse g ->
  (forall k per b s c, claude_metric_usage g !! k = Some per -> per !! b = Some s ->
    bucket_val c (claude_buckets g) b <= bucket_val c (claude_buckets g') b) ->
  (forall c b, bucket_val c (codex_buckets g) b <= bucket_val c (codex_buckets g') b) ->
  Inv v' g'.
Proof.
  intros [Ha Hu [Hp1 Hp2]] Ha' Eu Em Ep Hcl Hcd. split; [done| |].
  - intros k per b s Hk Hb. rewrite Eu in Hk.
    destruct (Hu k per b s Hk Hb) as (? & ? & ? & ? & Hle). split_and!; [done|set_solver|done..|].
    intros c. specialize (Hle c). specialize (Hcl k per b s c Hk Hb). lia.
  - rewrite Ep. split; [done|]. intros c b. specialize (Hp2 c b). specialize (Hcd c b). lia.
Qed.

Section world.
Context `{World}.

Lemma record_into_inv v g agent b s :
  Inv v g -> bucket_wf b -> stats_wf s -> v + volume s <= u64_max ->
  Inv (v + volume s) (record_into g agent b s).
Proof.
  intros Hg Hb Hs Hv. pose proof (volume_nonneg s (proj1 Hs)).
  assert (forall agent', AgentInv (v + volume s) (agent_of g agent')) as Hold.
  { intros agent'. eapply AgentInv_mono; [by apply Hg|lia]. }
  assert (forall agent', agent_of (record_into g agent b s) agent' =
    if decide (agent = agent') then agent_record (agent_of g agent) b s
    else agent_of g agent') as Hag.
  { intros agent'. unfold record_into. rewrite agent_of_set. done. }
  assert (forall agent' c b', bucket_val c (buckets (agent_of g agent')) b' <=
    bucket_val c (buckets (agent_of (record_into g agent b s) agent')) b') as Hmono.
  { intros agent' c b'. rewrite Hag. destruct (decide (agent = agent')) as [<-|]; [|lia].
    apply bucket_val_record; [done|]. eapply AgentInv_mono; [by apply Hg|lia]. }
  apply (Inv_agents v _ g); try done.
  - intros agent'. rewrite Hag. destruct (decide _); [|done].
    apply agent_record_inv; [by apply Hg|done..].
  - intros. apply Hmono.
  - intros. apply Hmono.
Qed.

(** ** Cancelling metric usage *)

Lemma subtract_from_agent g agent b s agent' :
  stats_u64 s -> 
  agent_of (subtract_from g agent b s) agent' =
    if decide (agent = agent' /\ is_Some (agents g !! agent))
    then agent_subtract (agent_of g agent) b s else agent_of g agent'.
Proof.
  intros Hs. unfold subtract_from. destruct (agents g !! agent) as [a|] eqn:E.
  - rewrite agent_of_set, (agent_of_some _ _ _ E).
    destruct (decide (agent = agent')), (decide (agent = agent' /\ is_Some (Some a))); naive_solver.
  - rewrite decide_False; [done|]. intros [_ [? ?]]. done.
Qed.

Lemma subtract_from_same g agent b s :
  claude_metric_usage (subtract_from g agent b s) = claude_metric_usage g /\
  claude_metric_models (subtract_from g agent b s) = claude_metric_models g /\
  codex_pending_sse (subtract_from g agent b s) = codex_pending_sse g /\
  claude_usage_sources (subtract_from g agent b s) = claude_usage_sources g /\
  codex_token_sources (subtract_from g agent b s) = codex_token_sources g.
Proof. unfold subtract_from. by destruct (agents g !! agent). Qed.

Lemma subtract_from_val_ne g b s b' c :
  b <> b' -> stats_u64 s ->
  bucket_val c (claude_buckets (subtract_from g AGENT_CLAUDE b s)) b' =
  bucket_val c (claude_buckets g) b'.
Proof.
  intros Hne Hs. unfold claude_buckets. rewrite subtract_from_agent by done.
  destruct (decide _); [|done]. by apply bucket_val_subtract_ne.
Qed.

Lemma subtract_from_inv v g b s :
  Inv v g -> stats_wf s ->
  (forall c, get c s <= bucket_val c (claude_buckets g) b) ->
  (forall k per s', claude_metric_usage g !! k = Some per -> per !! b <> Some s') ->
  Inv v (subtract_from g AGENT_CLAUDE b s).
Proof.
  intros Hg Hs Hle Hfree.
  destruct (subtract_from_same g AGENT_CLAUDE b s) as (Eu & Em & Ep & _ & _).
  assert (forall agent, agent <> AGENT_CLAUDE ->
    agent_of (subtract_from g AGENT_CLAUDE b s) agent = agent_of g agent) as Hother.
  { intros agent Hne. rewrite subtract_from_agent by apply Hs.
    rewrite decide_False by naive_solver. done. }
  apply (Inv_agents v _ g); [done| |done|by rewrite Em|done| |].
  - intros agent. rewrite subtract_from_agent by apply Hs.
    destruct (decide _) as [[<- _]|]; [|by apply Hg].
    apply agent_subtract_inv; [by apply Hg|done..].
  - intros k per b' s' c Hk Hb. rewrite subtract_from_val_ne; [lia| |apply Hs].
    intros <-. by apply (Hfree k per s').
  - intros c b'. unfold codex_buckets. by rewrite Hother.
Qed.

Lemma cancel_loop_inv v g l :
  Inv v g -> NoDup l.*1 ->
  (forall b s, (b, s) ∈ l -> stats_wf s /\ forall c, get c s <= bucket_val c (claude_buckets g) b) ->
  (forall k per b s, claude_metric_usage g !! k = Some per -> per !! b = Some s -> b ∉ l.*1) ->
  Inv v (for_each (fun g e => subtract_from g AGENT_CLAUDE e.1 e.2) g l).
Proof.
  revert g. induction l as [|[b s] l IH]; intros g Hg Hnd Hl Hfree; [done|].
  apply NoDup_cons in Hnd as [Hb Hnd].
  destruct (Hl b s) as [Hs Hle]; [left|].
  destruct (subtract_from_same g AGENT_CLAUDE b s) as (Eu & _).
  apply (IH (subtract_from g AGENT_CLAUDE b s)); [|done| |].
  - apply subtract_from_inv; [done..|]. intros k per s' Hk Hper.
    specialize (Hfree k per b s' Hk Hper). rewrite fmap_cons in Hfree. set_solver.
  - intros b' s' Hin. destruct (Hl b' s') as [Hs' Hle']; [by right|].
    split; [done|]. intros c. rewrite subtract_from_val_ne; [done| |apply Hs].
    intros <-. apply Hb. apply list_elem_of_fmap. by exists (b, s').
  - intros k per b' s' Hk Hper. rewrite Eu in Hk.
    specialize (Hfree k per b' s' Hk Hper). rewrite fmap_cons in Hfree. set_solver.
Qed.

Lemma drop_usage_inv v g k :
  Inv v g -> Inv v (set_metric_usage g (delete k (claude_metric_usage g))).
Proof.
  intros [Ha Hu Hp]. split; [done| |done].
  intros k' per b s Hk Hb. simpl in Hk. apply lookup_delete_Some in Hk as [_ Hk].
  by apply (Hu k' per b s).
Qed.

Lemma cancel_metric_usage_inv v g k : Inv v g -> Inv v (cancel_metric_usage g k).
Proof.
  intros Hg. unfold cancel_metric_usage. case_bool_decide; [|done].
  destruct (claude_metric_usage g !! k) as [per|] eqn:E; [|done].
  apply cancel_loop_inv; [by apply drop_usage_inv|apply NoDup_btree_entries| |].
  - intros b s Hb%elem_of_btree_entries.
    destruct (inv_usage _ _ Hg k per b s E Hb) as (_ & _ & _ & ? & ?). done.
  - intros k' per' b s Hk Hb Hin. simpl in Hk. apply lookup_delete_Some in Hk as [Hne Hk].
    apply list_elem_of_fmap in Hin as ([b' s'] & -> & Hin%elem_of_btree_entries).
    destruct (inv_usage _ _ Hg k per b' s' E Hin) as (E1 & _).
    destruct (inv_usage _ _ Hg k' per' b' s Hk Hb) as (E2 & _). congruence.
Qed.

Lemma record_claude_log_usage_inv v g b s :
  Inv v g -> bucket_wf b -> stats_wf s -> v + volume s <= u64_max ->
  Inv (v + volume s) (record_claude_log_usage g b s).
Proof.
  intros Hg Hb Hs Hv. pose proof (volume_nonneg s (proj1 Hs)).
  unfold record_claude_log_usage. destruct (has_usage s); simpl.
  - destruct (record_into_inv v (cancel_metric_usage g (bucket_usage_key b)) AGENT_CLAUDE b s)
      as [? ? ?]; [by apply cancel_metric_usage_inv|done..|]. by split.
  - eapply Inv_mono; [done|lia].
Qed.

Lemma record_claude_metric_usage_inv v g b s :
  Inv v g -> bucket_wf b -> stats_wf s -> model b ∈ claude_metric_models g ->
  v + volume s <= u64_max ->
  Inv (v + volume s) (record_claude_metric_usage g b s).1.
Proof.
  intros Hg Hb Hs Hmodel Hv. pose proof (volume_nonneg s (proj1 Hs)) as Hvol.
  unfold record_claude_metric_usage.
  destruct (has_usage s); simpl; [|by eapply Inv_mono; [done|lia]].
  case_bool_decide; [by eapply Inv_mono; [done|lia]|]. simpl.
  destruct (record_into_inv v g AGENT_CLAUDE b s Hg Hb Hs Hv) as [Ha Hu Hp].
  split; [done| |done].
  assert (forall c, bucket_val c (claude_buckets (record_into g AGENT_CLAUDE b s)) b =
    bucket_val c (claude_buckets g) b + get c s) as Hval.
  { intros c. unfold claude_buckets, record_into. rewrite agent_of_set, decide_True by done.
    simpl. rewrite bucket_val_add_eq, sat_add_exact; [done|].
    pose proof (agent_bucket_bound _ _ c b (inv_agents _ _ Hg AGENT_CLAUDE)).
    pose proof (get_le_volume c s (proj1 Hs)).
    change (agent_of (touch g) AGENT_CLAUDE) with (agent_of g AGENT_CLAUDE). lia. }
  intros k per b' s' Hk Hb'. simpl in Hk. rewrite lookup_insert in Hk.
  destruct (decide (bucket_usage_key b = k)) as [<-|]; [|by apply (Hu k per b' s')].
  injection Hk as <-. unfold usage_add in Hb'. rewrite lookup_insert in Hb'.
  set (old := default ∅ (claude_metric_usage g !! bucket_usage_key b)) in *.
  assert (forall b0 s0, old !! b0 = Some s0 ->
    claude_metric_usage g !! bucket_usage_key b = Some old) as Hold.
  { intros b0 s0. unfold old. by destruct (claude_metric_usage g !! _). }
  destruct (decide (b = b')) as [<-|].
  - injection Hb' as <-. split_and!; [done|done|done| |].
    + apply stats_add_wf; [|done]. destruct (old !! b) as [s0|] eqn:E0; [|apply stats_zero_wf].
      by destruct (inv_usage _ _ Hg _ _ _ _ (Hold _ _ E0) E0) as (_ & _ & _ & ? & _).
    + intros c. change (claude_buckets _) with (claude_buckets (record_into g AGENT_CLAUDE b s)).
      rewrite Hval, get_add. destruct (old !! b) as [s0|] eqn:E0; simpl.
      * destruct (inv_usage _ _ Hg _ _ _ _ (Hold _ _ E0) E0) as (_ & _ & _ & _ & Hle).
        specialize (Hle c). unfold sat_add. lia.
      * rewrite get_zero. pose proof (agent_bucket_bound _ _ c b (inv_agents _ _ Hg AGENT_CLAUDE)).
        unfold claude_buckets, sat_add. lia.
  - apply (Hu (bucket_usage_key b) old b' s'); [|done]. by eapply Hold.
Qed.

Lemma register_canonical_inv v g full :
  Inv v g -> v <= u64_max -> Inv v (register_canonical_claude_model g full).
Proof.
  intros Hg Hv. unfold register_canonical_claude_model.
  set (g1 := if str_is_empty full then g else _).
  assert (Inv v g1) as Hg1.
  { unfold g1. destruct (str_is_empty full); [done|].
    apply (Inv_agents v _ g); try done; [apply Hg|set_solver]. }
  clearbody g1. set (bare := match split_once _ _ with Some _ => _ | None => _ end).
  destruct (str_is_empty bare || String.eqb bare full).
  { destruct (str_is_empty full); [done|].
    destruct (claude_canonical_models g1 !! full); [done|].
    apply (Inv_agents v _ g1); try done. apply Hg1. }
  case_bool_decide as Hbare; [done|]. case_bool_decide; [done|].
  assert (Inv v (set_canonical_models g1 (<[bare:=full]> (claude_canonical_models g1)))) as Hg2.
  { apply (Inv_agents v _ g1); try done. apply Hg1. }
  cbv zeta. change (agents (set_canonical_models g1 _)) with (agents g1).
  destruct (agents g1 !! AGENT_CLAUDE) as [a|] eqn:Ea; [|done].
  assert (AgentInv v a) as Hinv by (rewrite <-(agent_of_some _ _ _ Ea); apply Hg1).
  destruct (merge_bare_into_full_inv v a bare full Hinv Hv) as [Hm Hval].
  set (g2 := set_canonical_models g1 _) in *.
  assert (forall agent, agent_of (set_agents g2
    (<[AGENT_CLAUDE := merge_bare_into_full a bare full]> (agents g1))) agent =
    if decide (AGENT_CLAUDE = agent) then merge_bare_into_full a bare full
    else agent_of g2 agent) as Hag by (intros; by apply (agent_of_set g2)).
  apply (Inv_agents v _ g2); try done.
  - intros agent. rewrite Hag. destruct (decide _); [done|apply Hg2].
  - intros k per b s c Hk Hb. unfold claude_buckets. rewrite Hag.
    rewrite decide_True by done.
    change (agent_of g2 AGENT_CLAUDE) with (agent_of g1 AGENT_CLAUDE).
    rewrite (agent_of_some _ _ _ Ea). apply Hval.
    destruct (inv_usage _ _ Hg1 k per b s Hk Hb) as (_ & Hin & _). intros E. by rewrite E in Hin.
  - intros c b. unfold codex_buckets. by rewrite Hag.
Qed.

(** ** Codex buckets *)

Lemma Inv_CodexInv v g : Inv v g -> CodexInv v g (fun _ _ => 0).
Proof.
  intros [Ha Hu [Hp1 Hp2]]. split_and!; [done..|].
  intros c b. specialize (Hp2 c b). lia.
Qed.

Lemma CodexInv_Inv v g R : CodexInv v g R -> (forall c b, 0 <= R c b) -> Inv v g.
Proof.
  intros (Ha & Hu & Hp & Hle) HR. split; [done..|]. split; [done|].
  intros c b. specialize (Hle c b). specialize (HR c b). lia.
Qed.

Lemma CodexInv_weaken v g R R' :
  CodexInv v g R -> (forall c b, R' c b <= R c b) -> CodexInv v g R'.
Proof.
  intros (Ha & Hu & Hp & Hle) HR. split_and!; [done..|].
  intros c b. specialize (Hle c b). specialize (HR c b). lia.
Qed.

Lemma usage_val_nonneg c m b : usage_wf m -> 0 <= usage_val c m b.
Proof.
  intros Hm. apply map_val_nonneg. intros b' s E. apply get_nonneg. by apply (Hm _ _ E).
Qed.

Lemma pending_val_nonneg c p b :
  map_Forall (fun _ => usage_wf) p -> 0 <= pending_val c p b.
Proof. intros Hp. apply map_sum_nonneg. intros k m E. apply usage_val_nonneg. by apply (Hp k). Qed.

Lemma usage_add_wf m b s : usage_wf m -> bucket_wf b -> stats_wf s -> usage_wf (usage_add m b s).
Proof.
  intros Hm Hb Hs. apply map_Forall_insert_2; [|done]. split; [done|].
  apply stats_add_wf; [|done]. destruct (m !! b) eqn:E; [by apply (Hm _ _ E)|apply stats_zero_wf].
Qed.

(** A saturating sum never overshoots. *)
Lemma usage_add_val_le c m b s b' :
  usage_val c (usage_add m b s) b' <=
  usage_val c m b' + (if decide (b' = b) then get c s else 0).
Proof.
  unfold usage_val, usage_add. destruct (decide (b' = b)) as [->|Hne].
  - rewrite map_val_insert_eq, get_add. unfold map_val.
    destruct (m !! b); simpl; rewrite ?get_zero; unfold sat_add; lia.
  - rewrite map_val_insert_ne by done. lia.
Qed.

Lemma move_codex_inv v g from to s R :
  CodexInv v g R -> v <= u64_max -> stats_wf s -> bucket_wf to -> from <> to ->
  (forall c, get c s <= bucket_val c (codex_buckets g) from) ->
  CodexInv v (move_codex_bucket_stats g from to s)
    (fun c b => R c b - at_bucket from s c b + at_bucket to s c b).
Proof.
  intros (Ha & Hu & Hp & Hle) Hv Hs Hto Hne Hsub. unfold move_codex_bucket_stats, at_bucket.
  destruct (agents g !! AGENT_CODEX) as [a|] eqn:E.
  - pose proof (agent_of_some _ _ _ E) as Ea.
    assert (AgentInv v a) as Haa by (rewrite <-Ea; apply Ha).
    assert (forall c, get c s <= bucket_val c (buckets a) from) as Hsub'
      by (intros c; rewrite <-Ea; apply Hsub).
    split_and!; [| |done|].
    + intros agent. rewrite agent_of_set. destruct (decide _); [|by apply Ha].
      by apply agent_move_inv.
    + intros k per b s' Hk Hb. destruct (Hu k per b s' Hk Hb) as (? & ? & ? & ? & Hc).
      split_and!; [done..|]. intros c. unfold claude_buckets. rewrite agent_of_set.
      rewrite decide_False by done. apply Hc.
    + intros c b. unfold codex_buckets. rewrite agent_of_set.
      destruct (decide (AGENT_CODEX = AGENT_CODEX)) as [_|]; [|done].
      rewrite (bucket_val_move v) by done.
      specialize (Hle c b). unfold codex_buckets in Hle. rewrite Ea in Hle. simpl. lia.
  - split_and!; [done..|]. intros c b. specialize (Hle c b).
    assert (get c s = 0) as H0.
    { specialize (Hsub c). unfold codex_buckets in Hsub. rewrite (agent_of_none _ _ E) in Hsub.
      simpl in Hsub. rewrite bucket_val_empty in Hsub. pose proof (get_nonneg c s (proj1 Hs)). lia. }
    rewrite H0. repeat case_decide; lia.
Qed.

Lemma at_bucket_nonneg b s c b' : stats_wf s -> 0 <= at_bucket b s c b'.
Proof. intros Hs. unfold at_bucket. case_decide; [apply get_nonneg, Hs|lia]. Qed.

Lemma list_val_nonneg c l b : entries_wf l -> 0 <= list_val c l b.
Proof.
  induction 1 as [|[b' s] l [_ Hs] Hl IH]; simpl; [lia|].
  pose proof (at_bucket_nonneg b' s c b Hs). lia.
Qed.

Lemma list_val_none c l b : b ∉ l.*1 -> list_val c l b = 0.
Proof.
  induction l as [|[b' s] l IH]; simpl; [done|]. unfold at_bucket. intros Hb.
  rewrite decide_False by set_solver. rewrite IH by set_solver. done.
Qed.

Lemma list_val_entries c (m : gmap Bucket ModelStats) b :
  list_val c (btree_entries bucket_le m) b = usage_val c m b.
Proof.
  assert (forall l : list (Bucket * ModelStats), NoDup l.*1 -> forall s, (b, s) ∈ l ->
    list_val c l b = get c s) as Hin.
  { induction l as [|[b' s'] l IH]; intros Hnd s Hs; [by apply not_elem_of_nil in Hs|].
    apply NoDup_cons in Hnd as [Hb' Hnd]. simpl. unfold at_bucket.
    apply elem_of_cons in Hs as [[= <- <-]|Hs].
    - rewrite decide_True, list_val_none by done. lia.
    - rewrite decide_False, (IH Hnd s) by (done || intros <-; apply Hb', list_elem_of_fmap;
        by exists (b, s)). lia. }
  unfold usage_val, map_val. destruct (m !! b) as [s|] eqn:E; simpl.
  - apply Hin; [apply NoDup_btree_entries|by apply elem_of_btree_entries].
  - apply list_val_none. intros ([b' s] & -> & Hb)%list_elem_of_fmap.
    apply elem_of_btree_entries in Hb. simpl in E. congruence.
Qed.
End world.
