(* ===== verification/AggCodex.v ===== *)
(** * Codex sessions and pending usage keep the invariant

    The usage of a completion log waits under its conversation until the session tells its
    provider and effort; then it moves between buckets.  The loop over the pending entries is
    proved with the amount still to be moved reserved in its bucket ([CodexInv]). *)

From S2P Require Import Prelude Float64 Otlp AggValues AggStats AggState AggIngest AggInv.

Local Open Scope Z_scope.

(** The state of the loop of [merge_codex_pending_sse], with the entries [l] left. *)
Definition MergeInv (v : Z) (l : list (Bucket * ModelStats))
    (acc : AggregatorInner * gmap Bucket ModelStats * bool) : Prop :=
  CodexInv v acc.1.1 (fun c b => usage_val c acc.1.2 b + list_val c l b) /\
  usage_wf acc.1.2.

(** * Lemmas *)

Lemma usage_wf_empty : usage_wf ∅.
Proof. apply map_Forall_empty. Qed.

Lemma usage_val_empty c b : usage_val c ∅ b = 0.
Proof. done. Qed.

Section world.
Context `{World}.

Lemma merge_pending_entry_inv v provider effort confirmed e l acc :
  v <= u64_max -> entries_wf (e :: l) -> MergeInv v (e :: l) acc ->
  MergeInv v l (merge_pending_entry provider effort confirmed acc e).
Proof.
  destruct acc as [[g kept] moved], e as [from p]. intros Hv Hl [HC Hk]. simpl in *.
  apply Forall_cons in Hl as [[Hf Hp] Hl].
  set (to := from_parts _ _ _).
  assert (bucket_wf to) as Hto by apply from_parts_wf.
  set (kept' := if (_ : bool) then usage_add _ _ _ else kept).
  assert (usage_wf kept') as Hk'.
  { unfold kept'. case_match; [by apply usage_add_wf|done]. }
  assert (forall c b, usage_val c kept' b <= usage_val c kept b + at_bucket to p c b) as Hval.
  { intros c b. unfold kept'. case_match.
    - apply usage_add_val_le.
    - pose proof (at_bucket_nonneg to p c b Hp). lia. }
  clearbody kept'. clearbody to. case_bool_decide as Heq; simpl.
  - subst to. split; [|done]. eapply CodexInv_weaken; [done|]. simpl.
    intros c b. specialize (Hval c b). lia.
  - split; [|done]. eapply CodexInv_weaken.
    + apply move_codex_inv; [done..|]. intros c.
      destruct HC as (_ & _ & Hpw & Hle). specialize (Hle c from). simpl in Hle.
      pose proof (pending_val_nonneg c _ from Hpw). pose proof (usage_val_nonneg c kept from Hk).
      pose proof (list_val_nonneg c l from Hl).
      unfold at_bucket in Hle. rewrite decide_True in Hle by done. lia.
    + intros c b. simpl. specialize (Hval c b). lia.
Qed.

Lemma merge_pending_loop_inv v provider effort confirmed l acc :
  v <= u64_max -> entries_wf l -> MergeInv v l acc ->
  MergeInv v [] (for_each (merge_pending_entry provider effort confirmed) acc l).
Proof.
  intros Hv. revert acc. induction l as [|e l IH]; intros acc Hl Hacc; [done|].
  apply (IH (merge_pending_entry provider effort confirmed acc e)).
  - by apply Forall_cons in Hl as [_ Hl].
  - by apply merge_pending_entry_inv.
Qed.

Lemma pending_val_delete c p k m b :
  p !! k = Some m -> pending_val c (delete k p) b = pending_val c p b - usage_val c m b.
Proof. intros E. unfold pending_val. by rewrite map_sum_delete, (map_val_Some _ _ _ m E). Qed.

Lemma pending_val_insert c p k m b :
  p !! k = None -> pending_val c (<[k := m]> p) b = pending_val c p b + usage_val c m b.
Proof. intros E. unfold pending_val. rewrite map_sum_insert_None by done. lia. Qed.

Lemma merge_pending_entry_keys provider effort confirmed acc e :
  codex_pending_sse (merge_pending_entry provider effort confirmed acc e).1.1 =
  codex_pending_sse acc.1.1.
Proof.
  destruct acc as [[g kept] moved], e. simpl. case_bool_decide; [done|]. simpl.
  unfold move_codex_bucket_stats. by destruct (agents g !! AGENT_CODEX).
Qed.

Lemma entries_wf_entries m : usage_wf m -> entries_wf (btree_entries bucket_le m).
Proof.
  intros Hm. apply Forall_forall. intros [b s] Hin%elem_of_btree_entries. by apply (Hm b s).
Qed.

(** *** A conversation whose session is known *)

Lemma merge_loop_keys provider effort confirmed l acc :
  codex_pending_sse (for_each (merge_pending_entry provider effort confirmed) acc l).1.1 =
  codex_pending_sse acc.1.1.
Proof.
  apply (for_each_ind _ (fun acc' => codex_pending_sse acc'.1.1 = codex_pending_sse acc.1.1));
    [done|]. intros s e _ <-. apply merge_pending_entry_keys.
Qed.

Lemma merge_init v g cid entries :
  Inv v g -> codex_pending_sse g !! cid = Some entries ->
  usage_wf entries /\
  MergeInv v (btree_entries bucket_le entries)
    (set_pending g (delete cid (codex_pending_sse g)), ∅, false).
Proof.
  intros Hg E. destruct (Inv_CodexInv v g Hg) as (Ha & Hu & Hp & Hle).
  split; [by apply (Hp cid)|]. set (g0 := set_pending g _). split; simpl; [|apply usage_wf_empty].
  split_and!; [done|done|by apply map_Forall_delete|].
  intros c b. simpl. specialize (Hle c b).
  rewrite (pending_val_delete _ _ _ _ _ E), usage_val_empty, list_val_entries.
  change (codex_buckets g0) with (codex_buckets g). lia.
Qed.

Lemma merge_conversation_inv v g provider model cid effort confirmed :
  Inv v g -> v <= u64_max -> cid <> "" ->
  Inv v (merge_codex_pending_sse g provider model cid effort confirmed).1.
Proof.
  intros Hg Hv Hcid. unfold merge_codex_pending_sse, str_is_empty.
  destruct (String.eqb_spec cid "") as [|_]; [done|]. simpl.
  destruct (codex_pending_sse g !! cid) as [entries|] eqn:E; [|done].
  destruct (merge_init v g cid entries Hg E) as [Hew Hinit]. set (g0 := set_pending g _) in *.
  pose proof (merge_pending_loop_inv v provider effort confirmed _ _ Hv
    (entries_wf_entries _ Hew) Hinit) as Hend.
  pose proof (merge_loop_keys provider effort confirmed (btree_entries bucket_le entries)
    (g0, ∅, false)) as Hkeys.
  destruct (for_each _ _ _) as [[g' kept] moved]. simpl in *.
  destruct Hend as [HC Hk]. simpl in *. case_bool_decide as Hempty; simpl.
  - eapply CodexInv_Inv; [done|]. intros c b. simpl.
    pose proof (usage_val_nonneg c kept b Hk). lia.
  - destruct HC as (Ha' & Hu' & Hp' & Hle'). split; [done..|]. split; simpl.
    + by apply map_Forall_insert_2.
    + intros c b. specialize (Hle' c b).
      rewrite pending_val_insert by (rewrite Hkeys; apply lookup_delete_eq).
      change (codex_buckets (set_pending g' _)) with (codex_buckets g'). lia.
Qed.

(** *** A session without conversation: all usage not waiting for another one *)

Lemma sum_stats_wf l acc :
  Forall stats_wf l -> stats_wf acc -> stats_wf (for_each stats_add acc l).
Proof.
  intros Hl Hacc. apply for_each_ind; [done|]. rewrite Forall_forall in Hl.
  intros; apply stats_add_wf; auto.
Qed.

Lemma sum_stats_exact c l acc :
  Forall stats_wf l -> get c acc + foldr (fun s n => get c s + n) 0 l <= u64_max ->
  get c (for_each stats_add acc l) = get c acc + foldr (fun s n => get c s + n) 0 l.
Proof.
  intros Hl. revert acc. induction Hl as [|s l Hs Hl IH]; intros acc Hle; simpl in *.
  { unfold for_each. simpl. lia. }
  assert (0 <= foldr (fun s n => get c s + n) 0 l) as Hpos.
  { clear IH Hle. induction Hl as [|t l Ht Hl IHl]; simpl; [lia|].
    pose proof (get_nonneg c t (proj1 Ht)). lia. }
  change (for_each stats_add acc (s :: l)) with (for_each stats_add (stats_add acc s) l).
  rewrite IH; rewrite get_add, sat_add_exact by lia; lia.
Qed.

Lemma sum_pending_exact v g b c :
  Inv v g -> v <= u64_max ->
  stats_wf (sum_pending_for_bucket g b) /\
  get c (sum_pending_for_bucket g b) = pending_val c (codex_pending_sse g) b.
Proof.
  intros Hg Hv. destruct (inv_pending _ _ Hg) as [Hp Hle].
  set (l := omap (fun e => e.2 !! b) (map_to_list (codex_pending_sse g))).
  assert (Forall stats_wf l) as Hl.
  { apply Forall_forall. intros s ([k m] & Hin & Hm)%list_elem_of_omap.
    apply elem_of_map_to_list in Hin. by apply (Hp k m Hin b s). }
  assert (foldr (fun s n => get c s + n) 0 l = pending_val c (codex_pending_sse g) b) as Hsum.
  { unfold pending_val, l. rewrite map_sum_list. clear.
    induction (map_to_list _) as [|[k m] l IH]; [done|].
    unfold usage_val, map_val in *. cbn [omap list_omap foldr].
    destruct (m !! b) eqn:E; simpl; rewrite ?E; simpl in *; lia. }
  split; [by apply sum_stats_wf; [|apply stats_zero_wf]|].
  unfold sum_pending_for_bucket. fold l.
  rewrite sum_stats_exact; [rewrite get_zero; lia|done|rewrite get_zero].
  pose proof (agent_bucket_bound _ _ c b (inv_agents _ _ Hg AGENT_CODEX)) as Hbound.
  fold (codex_buckets g) in Hbound. specialize (Hle c b). lia.
Qed.

Lemma merge_legacy_inv v g provider model effort confirmed :
  Inv v g -> v <= u64_max ->
  Inv v (merge_codex_pending_sse g provider model "" effort confirmed).1.
Proof.
  intros Hg Hv. unfold merge_codex_pending_sse. simpl.
  destruct (_ || _); [done|]. case_bool_decide as Hne; [done|].
  destruct (agents g !! AGENT_CODEX) as [a|] eqn:E; [|done].
  destruct (buckets a !! bucket_key _) as [bs|] eqn:Eb; [|done].
  set (from := from_parts _ _ UNKNOWN) in *. set (to := from_parts _ _ effort) in *.
  set (movable := saturating_sub_stats _ _).
  destruct (has_any_value movable); [|done]. simpl.
  pose proof (inv_agents _ _ Hg AGENT_CODEX) as Ha.
  assert (forall c, get c movable =
    bucket_val c (codex_buckets g) from - pending_val c (codex_pending_sse g) from) as Hget.
  { intros c. unfold movable. rewrite get_subtract.
    rewrite (proj2 (sum_pending_exact v g from c Hg Hv)).
    unfold codex_buckets, bucket_val. rewrite (agent_of_some _ _ _ E).
    rewrite (map_val_Some _ _ _ _ Eb). rewrite sat_sub_exact; [done|].
    destruct (inv_pending _ _ Hg) as [_ Hle]. specialize (Hle c from).
    unfold codex_buckets, bucket_val in Hle. rewrite (agent_of_some _ _ _ E) in Hle.
    by rewrite (map_val_Some _ _ _ _ Eb) in Hle. }
  assert (stats_wf movable) as Hwf.
  { apply stats_subtract_wf; [|by apply (sum_pending_exact v g from RequestCount)].
    rewrite (agent_of_some _ _ _ E) in Ha. by apply (proj2 (ai_buckets _ _ Ha) _ _ Eb). }
  eapply (CodexInv_Inv _ _ _).
  - apply (move_codex_inv v g from to movable (fun c b => at_bucket from movable c b));
      [|done|done|apply from_parts_wf|done|].
    + destruct (Inv_CodexInv v g Hg) as (? & ? & ? & Hle). split_and!; [done..|].
      intros c b. specialize (Hle c b). unfold at_bucket. case_decide; [|lia].
      subst b. rewrite Hget. lia.
    + intros c. rewrite Hget. destruct (inv_pending _ _ Hg) as [Hp _].
      pose proof (pending_val_nonneg c _ from Hp). lia.
  - intros c b. simpl. pose proof (at_bucket_nonneg from movable c b Hwf).
    pose proof (at_bucket_nonneg to movable c b Hwf). lia.
Qed.

Lemma merge_codex_inv v g provider model cid effort confirmed :
  Inv v g -> v <= u64_max ->
  Inv v (merge_codex_pending_sse g provider model cid effort confirmed).1.
Proof.
  intros Hg Hv. destruct (decide (cid = "")) as [->|].
  - by apply merge_legacy_inv.
  - by apply merge_conversation_inv.
Qed.

(** *** Session updates *)

Lemma Inv_set_sessions v g m : Inv v g -> Inv v (set_sessions g m).
Proof. by intros []. Qed.
Lemma Inv_set_last_sessions v g m : Inv v g -> Inv v (set_last_sessions g m).
Proof. by intros []. Qed.
Lemma Inv_set_token_sources v g m : Inv v g -> Inv v (set_token_sources g m).
Proof. by intros []. Qed.

Lemma update_codex_session_with_last_inv v g service session update_last :
  Inv v g -> v <= u64_max ->
  Inv v (update_codex_session_with_last g service session update_last).1.
Proof.
  intros Hg Hv. unfold update_codex_session_with_last. apply merge_codex_inv; [|done].
  repeat case_match; auto using Inv_set_sessions, Inv_set_last_sessions.
Qed.

Lemma update_codex_effort_inv v g service attrs :
  Inv v g -> v <= u64_max ->
  Inv v (update_codex_effort_from_request_attrs g service attrs).1.
Proof.
  intros Hg Hv. unfold update_codex_effort_from_request_attrs.
  destruct (string_attr attrs "codex.request.reasoning_effort"); [|done].
  destruct (str_is_empty _); [done|].
  set (cid := match string_attr attrs "conversation.id" with Some _ => _ | None => _ end).
  destruct cid; [by apply update_codex_session_with_last_inv|].
  unfold update_codex_last_effort. destruct (String.eqb _ _); [done|].
  destruct (str_is_empty _); simpl; [|by apply Inv_set_last_sessions].
  apply merge_codex_inv; [by apply Inv_set_last_sessions|done].
Qed.
End world.
