(* ===== verification/AggBatch.v ===== *)
(** * Batches of telemetry and the states they reach

    A batch is one export request of any signal.  [batch_volume] is what its records could
    add to the counters; as long as the volumes fit 64 bits, every batch keeps the invariant
    of [AggInv]. *)

From S2P Require Import Prelude Float64 Otlp AggValues AggStats AggState AggIngest AggInv AggCodex.

Local Open Scope Z_scope.

(** ** Batches *)

Inductive batch :=
| BLogs (req : ExportLogsServiceRequest)
| BTraces (req : ExportTraceServiceRequest)
| BMetrics (req : ExportMetricsServiceRequest).

Definition sum_by {A : Type} (w : A -> Z) (l : list A) : Z :=
  foldr (fun a acc => w a + acc) 0 l.

Section world.
Context `{World}.

(** One call of [Aggregator::ingest_logs], [ingest_traces] or [ingest_metrics]. *)
Definition ingest (g : AggregatorInner) (b : batch) : AggregatorInner * nat :=
  match b with
  | BLogs req => ingest_logs g req
  | BTraces req => ingest_traces g req
  | BMetrics req => ingest_metrics g req
  end.

Definition ingest_all (g : AggregatorInner) (bs : list batch) : AggregatorInner :=
  for_each (fun g b => (ingest g b).1) g bs.

(** What a log can add to the counters of its agent. *)
Definition log_volume (service : string) (log : LogRecord) : Z :=
  if String.eqb service SERVICE_CLAUDE then
    volume (claude_request_stats (log_attributes log)) +
    volume (claude_usage_stats (log_attributes log))
  else volume (codex_sse_stats (log_attributes log)).

Definition metric_volume (m : Metric) : Z :=
  match metric_data m with
  | Some (Sum pts _) => sum_by number_value_as_u64 pts
  | Some (Histogram pts _) => sum_by histogram_sum_as_u64 pts
  | _ => 0
  end.

Definition logs_volume (req : ExportLogsServiceRequest) : Z :=
  sum_by (fun rl => sum_by (fun sl =>
    sum_by (log_volume (service_name (rl_resource rl))) (sl_log_records sl))
    (rl_scope_logs rl)) (resource_logs req).

Definition metrics_volume (req : ExportMetricsServiceRequest) : Z :=
  sum_by (fun rm => sum_by (fun sm => sum_by metric_volume (sm_metrics sm))
    (rm_scope_metrics rm)) (resource_metrics req).

Definition batch_volume (b : batch) : Z :=
  match b with
  | BLogs req => logs_volume req
  | BTraces _ => 0
  | BMetrics req => metrics_volume req
  end.
End world.

(** The integers and doubles of a batch are those of its wire format. *)
Definition log_wf (log : LogRecord) : Prop := attrs_wf (log_attributes log).

Definition metric_wf (m : Metric) : Prop :=
  match metric_data m with
  | Some (Sum pts _) => Forall number_point_wf pts
  | _ => True
  end.

Definition batch_wf (b : batch) : Prop :=
  match b with
  | BLogs req =>
      Forall (fun rl => Forall (fun sl => Forall log_wf (sl_log_records sl)) (rl_scope_logs rl))
        (resource_logs req)
  | BTraces _ => True
  | BMetrics req =>
      Forall (fun rm => Forall (fun sm => Forall metric_wf (sm_metrics sm)) (rm_scope_metrics rm))
        (resource_metrics req)
  end.

(** * Lemmas *)

(** ** Budgets *)

Lemma sum_by_nonneg {A : Type} (w : A -> Z) l : Forall (fun a => 0 <= w a) l -> 0 <= sum_by w l.
Proof. induction 1; simpl; lia. Qed.

(** A loop over well-formed elements, each of which keeps the invariant and uses up a part
    of the budget. *)
Lemma budget_loop {A : Type} (f : AggregatorInner * nat -> A -> AggregatorInner * nat)
    (w : A -> Z) (wf : A -> Prop) :
  (forall a, wf a -> 0 <= w a) ->
  (forall v acc a, wf a -> Inv v acc.1 -> v + w a <= u64_max -> Inv (v + w a) (f acc a).1) ->
  forall v acc l, Forall wf l -> Inv v acc.1 -> v + sum_by w l <= u64_max ->
  Inv (v + sum_by w l) (for_each f acc l).1.
Proof.
  intros Hw Hf v acc l Hl. revert v acc.
  induction Hl as [|a l Ha Hl IH]; intros v acc Hacc Hv; simpl in *.
  { by rewrite Z.add_0_r. }
  assert (0 <= sum_by w l) by (apply sum_by_nonneg; by eapply Forall_impl).
  fold (sum_by w l) in *. rewrite Z.add_assoc.
  apply (IH (v + w a) (f acc a)); [|lia]. apply Hf; [done..|lia].
Qed.

Lemma aggregator_new_inv `{World} : Inv 0 aggregator_new.
Proof.
  split.
  - intros agent. unfold agent_of. simpl. rewrite lookup_empty. by apply agent_default_inv.
  - intros k per b s Hk. simpl in Hk. by rewrite lookup_empty in Hk.
  - split; [apply map_Forall_empty|]. intros c b. unfold pending_val. simpl.
    rewrite map_sum_empty. unfold codex_buckets, agent_of. simpl. by rewrite lookup_empty.
Qed.

Section lemmas.
Context `{World}.

(** ** Logs *)

Lemma duration_u64 attrs :
  attrs_wf attrs -> is_u64 (Z.max 0 (default 0 (int_attr attrs "duration_ms"))).
Proof. apply u64_attr_range. Qed.

Lemma claude_request_wf attrs : attrs_wf attrs -> stats_wf (claude_request_stats attrs).
Proof.
  intros Hwf. pose proof (duration_u64 attrs Hwf). split; [|done].
  intros []; simpl; unfold is_u64, u64_max in *; lia.
Qed.

Lemma claude_usage_wf attrs : attrs_wf attrs -> stats_wf (claude_usage_stats attrs).
Proof.
  intros Hwf. split; [|simpl; auto with f64].
  intros []; simpl; auto with u64.
Qed.

Lemma codex_sse_stats_wf attrs : attrs_wf attrs -> stats_wf (codex_sse_stats attrs).
Proof. intros Hwf. split; [|done]. intros []; simpl; auto with u64. Qed.

Lemma log_volume_nonneg service log : log_wf log -> 0 <= log_volume service log.
Proof.
  intros Hwf. unfold log_volume.
  pose proof (volume_nonneg _ (proj1 (claude_request_wf _ Hwf))).
  pose proof (volume_nonneg _ (proj1 (claude_usage_wf _ Hwf))).
  pose proof (volume_nonneg _ (proj1 (codex_sse_stats_wf _ Hwf))).
  case_match; lia.
Qed.

Lemma extract_claude_shape g log b s u :
  extract_claude_api_request_meta g log = Some (b, s, u) ->
  bucket_wf b /\ s = claude_request_stats (log_attributes log) /\
  u = claude_usage_stats (log_attributes log).
Proof.
  unfold extract_claude_api_request_meta.
  destruct (body_string log); [|done]. destruct (negb _); [done|].
  intros [= <- <- <-]. split_and!; [apply from_parts_wf|done..].
Qed.

Lemma extract_sse_shape g service log parsed :
  extract_codex_sse_response_completed g service log = Some parsed ->
  bucket_wf (sse_bucket parsed) /\ sse_stats parsed = codex_sse_stats (log_attributes log).
Proof.
  unfold extract_codex_sse_response_completed.
  destruct (_ || _); [done|]. destruct (sse_not_usage _ _); [done|].
  intros [= <-]. split; [apply from_parts_wf|done].
Qed.

(** A completion log adds the same amount to its bucket and to what is pending there. *)
Lemma ingest_codex_sse_inv v g parsed :
  Inv v g -> bucket_wf (sse_bucket parsed) -> stats_wf (sse_stats parsed) ->
  v + volume (sse_stats parsed) <= u64_max ->
  Inv (v + volume (sse_stats parsed)) (ingest_codex_sse g parsed).1.
Proof.
  destruct parsed as [b s cid]. simpl. intros Hg Hb Hs Hv.
  pose proof (volume_nonneg s (proj1 Hs)).
  unfold ingest_codex_sse. simpl.
  case_bool_decide; simpl; [eapply Inv_mono; [done|lia]|].
  apply Inv_set_token_sources.
  pose proof (record_into_inv v g AGENT_CODEX b s Hg Hb Hs Hv) as Hr.
  destruct cid as [cid|]; [|done].
  set (g' := record_into g AGENT_CODEX b s) in *.
  assert (forall c b', bucket_val c (codex_buckets g') b' =
    bucket_val c (codex_buckets g) b' + at_bucket b s c b') as Hval.
  { intros c b'. unfold codex_buckets, g', record_into. rewrite agent_of_set.
    destruct (decide (AGENT_CODEX = AGENT_CODEX)) as [_|]; [|done]. simpl.
    change (agent_of (touch g) AGENT_CODEX) with (agent_of g AGENT_CODEX).
    pose proof (agent_bucket_bound _ _ c b (inv_agents _ _ Hg AGENT_CODEX)).
    pose proof (get_le_volume c s (proj1 Hs)). unfold at_bucket.
    destruct (decide (b' = b)) as [->|].
    - rewrite bucket_val_add_eq, sat_add_exact by lia. done.
    - rewrite bucket_val_add_ne by done. lia. }
  destruct Hr as [Ha Hu _], (inv_pending _ _ Hg) as [Hp Hle].
  split; [done..|]. change (codex_pending_sse g') with (codex_pending_sse g). simpl.
  set (old := default ∅ _).
  assert (usage_wf old) as Hold.
  { unfold old. destruct (codex_pending_sse g !! cid) eqn:E; [by apply (Hp cid)|].
    apply usage_wf_empty. }
  split; [apply map_Forall_insert_2; [by apply usage_add_wf|done]|].
  intros c b'. change (codex_buckets (set_pending _ _)) with (codex_buckets g').
  rewrite Hval. unfold pending_val. rewrite map_sum_insert.
  pose proof (usage_add_val_le c old b s b') as Hadd. unfold at_bucket.
  specialize (Hle c b'). unfold pending_val in Hle.
  assert (map_val (fun m => usage_val c m b') (codex_pending_sse g) cid = usage_val c old b')
    as ->; [|lia].
  unfold old, map_val. by destruct (codex_pending_sse g !! cid).
Qed.

Lemma ingest_log_record_inv v acc service log :
  log_wf log -> Inv v acc.1 -> v + log_volume service log <= u64_max ->
  Inv (v + log_volume service log) (ingest_log_record service acc log).1.
Proof.
  destruct acc as [g n]. simpl. intros Hwf Hg Hv.
  pose proof (log_volume_nonneg service log Hwf) as Hpos. unfold log_volume in *.
  destruct (String.eqb_spec service SERVICE_CLAUDE) as [->|Hne].
  - destruct (extract_claude_api_request_meta g log) as [[[b s] u]|] eqn:E; simpl.
    + apply extract_claude_shape in E as (Hb & -> & ->).
      pose proof (volume_nonneg _ (proj1 (claude_usage_wf _ Hwf))). rewrite Z.add_assoc.
      apply record_claude_log_usage_inv; [|done|by apply claude_usage_wf|lia].
      apply record_into_inv; [done..|by apply claude_request_wf|lia].
    + eapply Inv_mono; [done|lia].
  - destruct (is_codex_service service); simpl; [|eapply Inv_mono; [done|lia]].
    assert (Inv v (match extract_codex_conversation_starts log with
      | Some session => let '(g, moved) := update_codex_session g service session in
                        (g, count_if n moved)
      | None => (g, n) end).1) as Hg'.
    { destruct (extract_codex_conversation_starts log) as [session|]; [|done].
      pose proof (update_codex_session_with_last_inv v g service session true Hg) as Hup.
      unfold update_codex_session. destruct (update_codex_session_with_last _ _ _ _).
      apply Hup. lia. }
    destruct (match extract_codex_conversation_starts log with Some _ => _ | None => _ end)
      as [g' n'].
    destruct (extract_codex_sse_response_completed g' service log) as [parsed|] eqn:E; simpl in *.
    + apply extract_sse_shape in E as [Hb Es].
      pose proof (ingest_codex_sse_inv v g' parsed Hg' Hb) as Hi. rewrite Es in Hi.
      destruct (ingest_codex_sse g' parsed). simpl in *.
      apply Hi; [by apply codex_sse_stats_wf|lia].
    + eapply Inv_mono; [done|lia].
Qed.

Lemma ingest_logs_inv v g req :
  batch_wf (BLogs req) -> Inv v g -> v + logs_volume req <= u64_max ->
  Inv (v + logs_volume req) (ingest_logs g req).1.
Proof.
  intros Hwf Hg Hv. unfold ingest_logs, logs_volume in *. simpl in Hwf.
  eapply budget_loop; [| |exact Hwf|done|done].
  - intros rl Hrl. apply sum_by_nonneg. eapply Forall_impl; [exact Hrl|]. intros sl Hsl. simpl.
    apply sum_by_nonneg. eapply Forall_impl; [exact Hsl|]. intros. by apply log_volume_nonneg.
  - intros v1 acc1 rl Hrl Hacc1 Hv1. eapply budget_loop; [| |exact Hrl|done|done].
    + intros sl Hsl. apply sum_by_nonneg. eapply Forall_impl; [exact Hsl|].
      intros. by apply log_volume_nonneg.
    + intros v2 acc2 sl Hsl Hacc2 Hv2.
      eapply budget_loop; [| |exact Hsl|done|done];
        [intros; by apply log_volume_nonneg|intros; by apply ingest_log_record_inv].
Qed.

(** ** Traces *)

Lemma ingest_span_event_inv v acc service ev :
  Inv v acc.1 -> v <= u64_max -> Inv v (ingest_span_event service acc ev).1.
Proof.
  destruct acc as [g n]. simpl. intros Hg Hv.
  destruct (otel_event_matches _ _ _); [|done].
  destruct (extract_session_from_attrs _) as [session|]; [|done].
  pose proof (update_codex_session_with_last_inv v g service session true Hg Hv) as Hup.
  unfold update_codex_session. by destruct (update_codex_session_with_last _ _ _ _).
Qed.

Lemma ingest_span_inv v acc service span :
  Inv v acc.1 -> v <= u64_max -> Inv v (ingest_span service acc span).1.
Proof.
  intros Hg Hv. unfold ingest_span.
  assert (Inv v (for_each (ingest_span_event service) acc (span_events span)).1) as Hev.
  { apply (for_each_ind _ (fun acc => Inv v acc.1)); [done|].
    intros; by apply ingest_span_event_inv. }
  destruct (for_each _ acc _) as [g n]. destruct (String.eqb _ _); [|done].
  pose proof (update_codex_effort_inv v g service (span_attributes span) Hev Hv).
  by destruct (update_codex_effort_from_request_attrs _ _ _).
Qed.

Lemma ingest_traces_inv v g req :
  Inv v g -> v <= u64_max -> Inv v (ingest_traces g req).1.
Proof.
  intros Hg Hv. unfold ingest_traces. destruct (negb _); [done|].
  apply (for_each_ind _ (fun acc => Inv v acc.1)); [done|]. intros acc rs _ Hacc.
  destruct (negb _); [done|].
  apply (for_each_ind _ (fun acc => Inv v acc.1)); [done|]. intros acc' ss _ Hacc'.
  apply (for_each_ind _ (fun acc => Inv v acc.1)); [done|]. intros acc'' sp _ Hacc''.
  by apply ingest_span_inv.
Qed.

(** ** Metrics *)

Lemma metric_models_register g full x :
  x ∈ claude_metric_models g ->
  x ∈ claude_metric_models (register_canonical_claude_model g full).
Proof.
  intros Hx. unfold register_canonical_claude_model.
  set (g1 := if str_is_empty full then g else _).
  assert (x ∈ claude_metric_models g1) as Hx1
    by (unfold g1; destruct (str_is_empty full); set_solver).
  clearbody g1. repeat (case_match; try done).
Qed.

Lemma metric_models_registered g full :
  full <> "" -> full ∈ claude_metric_models (register_canonical_claude_model g full).
Proof.
  intros Hf. unfold register_canonical_claude_model.
  set (g1 := if str_is_empty full then g else _).
  assert (full ∈ claude_metric_models g1) as Hx1.
  { unfold g1, str_is_empty. destruct (String.eqb_spec full ""); [done|]. set_solver. }
  clearbody g1. repeat (case_match; try done).
Qed.

Lemma claude_metric_model_inv v g attrs :
  Inv v g -> v <= u64_max ->
  Inv v (claude_metric_model g attrs).1 /\
  model (from_parts PROVIDER_ANTHROPIC (claude_metric_model g attrs).2 "") ∈
    claude_metric_models (claude_metric_model g attrs).1.
Proof.
  intros Hg Hv. split; [by apply register_canonical_inv|].
  simpl. rewrite non_empty_idem. apply metric_models_registered, non_empty_not_empty.
Qed.

Lemma single_volume g n b s v w :
  volume s = w -> stats_wf s -> Inv v g -> bucket_wf b -> v + w <= u64_max ->
  model b ∈ claude_metric_models g ->
  Inv (v + w) (let '(g, recorded) := record_claude_metric_usage g b s in
               (g, count_if n recorded)).1.
Proof.
  intros <- Hs Hg Hb Hv Hm.
  pose proof (record_claude_metric_usage_inv v g b s Hg Hb Hs Hm Hv).
  by destruct (record_claude_metric_usage g b s).
Qed.

(** One field of a sample set, all others zero. *)
Ltac one_field := split; [intros []; simpl; (done || auto with u64)|simpl; auto with f64].

Lemma claude_token_stats_shape typ x s :
  is_u64 x -> claude_token_stats typ x = Some s -> stats_wf s /\ volume s = x.
Proof.
  unfold claude_token_stats. intros Hx Hs.
  repeat case_match; simplify_eq; (split; [one_field|unfold volume; simpl; lia]).
Qed.

Lemma codex_token_stats_shape typ x s :
  is_u64 x -> codex_token_stats typ x = Some s -> stats_wf s /\ volume s = x.
Proof.
  unfold codex_token_stats. intros Hx Hs.
  repeat case_match; simplify_eq; (split; [one_field|unfold volume; simpl; lia]).
Qed.

Lemma claude_token_point_inv v acc dp :
  number_point_wf dp -> Inv v acc.1 -> v + number_value_as_u64 dp <= u64_max ->
  Inv (v + number_value_as_u64 dp) (ingest_claude_token_point acc dp).1.
Proof.
  destruct acc as [g n]. cbn [fst]. intros Hwf Hg Hv.
  pose proof (number_value_range dp Hwf) as Hx. unfold ingest_claude_token_point.
  assert (0 <= number_value_as_u64 dp) by apply Hx.
  destruct (claude_metric_model_inv v g (ndp_attributes dp) Hg) as [Hg' Hm]; [lia|].
  destruct (claude_metric_model g (ndp_attributes dp)) as [g' m]. cbn [fst snd] in *.
  destruct (claude_token_stats _ _) as [s|] eqn:E.
  - apply claude_token_stats_shape in E as [Hs Hvol]; [|done].
    by apply single_volume; try done; apply from_parts_wf.
  - eapply Inv_mono; [done|lia].
Qed.

Lemma claude_cost_point_inv v acc dp :
  number_point_wf dp -> Inv v acc.1 -> v + number_value_as_u64 dp <= u64_max ->
  Inv (v + number_value_as_u64 dp) (ingest_claude_cost_point acc dp).1.
Proof.
  destruct acc as [g n]. cbn [fst]. intros Hwf Hg Hv.
  pose proof (number_value_range dp Hwf) as Hx. unfold ingest_claude_cost_point.
  assert (0 <= number_value_as_u64 dp) by apply Hx.
  destruct (claude_metric_model_inv v g (ndp_attributes dp) Hg) as [Hg' Hm]; [lia|].
  destruct (claude_metric_model g (ndp_attributes dp)) as [g' m]. cbn [fst snd] in *.
  apply (Inv_mono (v + 0)); [|lia].
  apply single_volume; [done|one_field|done|apply from_parts_wf|lia|done].
Qed.

(** A Codex data point records one counter, or nothing. *)
Lemma codex_record_inv v g service m s w :
  Inv v g -> stats_wf s -> volume s = w -> v + w <= u64_max ->
  Inv (v + w) (record_into g AGENT_CODEX
    (from_parts (codex_provider g service) m (codex_effort g service)) s).
Proof. intros Hg Hs <- Hv. by apply record_into_inv; [|apply from_parts_wf|..]. Qed.

Lemma codex_token_point_inv v acc service dp :
  Inv v acc.1 -> v + histogram_sum_as_u64 dp <= u64_max ->
  Inv (v + histogram_sum_as_u64 dp) (ingest_codex_token_point service acc dp).1.
Proof.
  destruct acc as [g n]. simpl. intros Hg Hv.
  pose proof (histogram_sum_range dp) as Hx.
  assert (0 <= histogram_sum_as_u64 dp) by apply Hx.
  assert (Inv (v + histogram_sum_as_u64 dp) g) by (eapply Inv_mono; [done|lia]).
  case_bool_decide; [done|]. destruct (codex_token_stats _ _) as [s|] eqn:E; [|done].
  apply codex_token_stats_shape in E as [Hs Hvol]; [|done].
  destruct (_ =? 0); [done|]. simpl. by apply Inv_set_token_sources, codex_record_inv.
Qed.

Lemma codex_turn_count_point_inv v acc service dp :
  number_point_wf dp -> Inv v acc.1 -> v + number_value_as_u64 dp <= u64_max ->
  Inv (v + number_value_as_u64 dp) (ingest_codex_turn_count_point service acc dp).1.
Proof.
  destruct acc as [g n]. simpl. intros Hwf Hg Hv.
  pose proof (number_value_range dp Hwf) as Hx.
  assert (0 <= number_value_as_u64 dp) by apply Hx.
  destruct (_ =? 0); simpl; [eapply Inv_mono; [done|lia]|].
  apply codex_record_inv; [done|one_field|unfold volume; simpl; lia|done].
Qed.

Lemma codex_duration_point_inv v acc service dp :
  Inv v acc.1 -> v + histogram_sum_as_u64 dp <= u64_max ->
  Inv (v + histogram_sum_as_u64 dp) (ingest_codex_duration_point service acc dp).1.
Proof.
  destruct acc as [g n]. simpl. intros Hg Hv.
  pose proof (histogram_sum_range dp) as Hx.
  assert (0 <= histogram_sum_as_u64 dp) by apply Hx.
  destruct (_ =? 0); simpl; [eapply Inv_mono; [done|lia]|].
  apply codex_record_inv; [done|one_field|unfold volume; simpl; lia|done].
Qed.

Lemma sum_by_number_nonneg pts :
  Forall number_point_wf pts -> 0 <= sum_by number_value_as_u64 pts.
Proof.
  intros Hp. apply sum_by_nonneg. eapply Forall_impl; [exact Hp|].
  intros dp Hdp. apply (number_value_range dp Hdp).
Qed.

Lemma sum_by_histogram_nonneg pts : 0 <= sum_by histogram_sum_as_u64 pts.
Proof. apply sum_by_nonneg, Forall_forall. intros dp _. apply (histogram_sum_range dp). Qed.

Lemma metric_volume_nonneg m : metric_wf m -> 0 <= metric_volume m.
Proof.
  unfold metric_wf, metric_volume.
  destruct (metric_data m) as [[]|]; simpl; try lia; intros.
  - by apply sum_by_number_nonneg.
  - apply sum_by_histogram_nonneg.
Qed.

Lemma Forall_True {A : Type} (l : list A) : Forall (fun _ => True) l.
Proof. by apply Forall_forall. Qed.

Lemma sum_metric_inv v g pts (f : AggregatorInner * nat -> NumberDataPoint -> _) :
  (forall v acc dp, number_point_wf dp -> Inv v acc.1 -> v + number_value_as_u64 dp <= u64_max ->
    Inv (v + number_value_as_u64 dp) (f acc dp).1) ->
  Forall number_point_wf pts -> Inv v g -> v + sum_by number_value_as_u64 pts <= u64_max ->
  Inv (v + sum_by number_value_as_u64 pts)
    (for_each f (g, 0%nat) pts).1.
Proof.
  intros Hf Hwf Hg Hv. eapply budget_loop; [|exact Hf|exact Hwf|done|done].
  intros dp Hdp. apply (number_value_range dp Hdp).
Qed.

Lemma histogram_metric_inv v g pts (f : AggregatorInner * nat -> HistogramDataPoint -> _) :
  (forall v acc dp, Inv v acc.1 -> v + histogram_sum_as_u64 dp <= u64_max ->
    Inv (v + histogram_sum_as_u64 dp) (f acc dp).1) ->
  Inv v g -> v + sum_by histogram_sum_as_u64 pts <= u64_max ->
  Inv (v + sum_by histogram_sum_as_u64 pts)
    (for_each f (g, 0%nat) pts).1.
Proof.
  intros Hf Hg Hv.
  eapply (budget_loop _ _ (fun _ => True)); [|by intros; apply Hf|apply Forall_True|done|done].
  intros dp _. apply (histogram_sum_range dp).
Qed.

Lemma ingest_metric_inv v g service m :
  metric_wf m -> Inv v g -> v + metric_volume m <= u64_max ->
  Inv (v + metric_volume m) (ingest_metric service g m).1.
Proof.
  intros Hwf Hg Hv. pose proof (metric_volume_nonneg m Hwf) as Hpos.
  assert (Inv (v + metric_volume m) g) as Hskip by (eapply Inv_mono; [done|lia]).
  unfold ingest_metric, ingest_claude_token, ingest_claude_cost, ingest_codex_token,
    ingest_codex_turn_count, ingest_codex_duration, metric_volume, metric_wf in *.
  destruct (metric_data m) as [[pts|pts t|pts t|n|n]|]; simpl;
    repeat (case_match; [|try done]); try done.
  all: first [apply histogram_metric_inv|apply sum_metric_inv]; [|done..]; intros;
    (by apply claude_token_point_inv) || (by apply claude_cost_point_inv) ||
    (by apply codex_token_point_inv) || (by apply codex_turn_count_point_inv) ||
    (by apply codex_duration_point_inv).
Qed.

Lemma ingest_metrics_inv v g req :
  batch_wf (BMetrics req) -> Inv v g -> v + metrics_volume req <= u64_max ->
  Inv (v + metrics_volume req) (ingest_metrics g req).1.
Proof.
  intros Hwf Hg Hv. unfold ingest_metrics, metrics_volume in *. simpl in Hwf.
  assert (forall sm, Forall metric_wf (sm_metrics sm) -> 0 <= sum_by metric_volume (sm_metrics sm))
    as Hsm.
  { intros sm Hm. apply sum_by_nonneg. eapply Forall_impl; [exact Hm|].
    intros. by apply metric_volume_nonneg. }
  eapply budget_loop; [| |exact Hwf|done|done].
  - intros rm Hrm. apply sum_by_nonneg. eapply Forall_impl; [exact Hrm|exact Hsm].
  - intros v1 acc1 rm Hrm Hacc1 Hv1. eapply budget_loop; [exact Hsm| |exact Hrm|done|done].
    intros v2 acc2 sm Hm Hacc2 Hv2.
    eapply budget_loop; [apply metric_volume_nonneg| |exact Hm|done|done].
    intros v3 [g' n] m Hmw Hg' Hv3. simpl in *.
    pose proof (ingest_metric_inv v3 g' (service_name (rm_resource rm)) m Hmw Hg' Hv3).
    by destruct (ingest_metric _ g' m).
Qed.

(** ** Any sequence of batches *)

Lemma batch_volume_nonneg b : batch_wf b -> 0 <= batch_volume b.
Proof.
  destruct b as [req|req|req]; simpl; intros Hwf; [|lia|]; apply sum_by_nonneg.
  - eapply Forall_impl; [exact Hwf|]. intros rl Hrl. apply sum_by_nonneg.
    eapply Forall_impl; [exact Hrl|]. intros sl Hsl. apply sum_by_nonneg.
    eapply Forall_impl; [exact Hsl|]. intros. by apply log_volume_nonneg.
  - eapply Forall_impl; [exact Hwf|]. intros rl Hrl. apply sum_by_nonneg.
    eapply Forall_impl; [exact Hrl|]. intros sl Hsl. apply sum_by_nonneg.
    eapply Forall_impl; [exact Hsl|]. intros. by apply metric_volume_nonneg.
Qed.

Lemma ingest_inv v g b :
  batch_wf b -> Inv v g -> v + batch_volume b <= u64_max ->
  Inv (v + batch_volume b) (ingest g b).1.
Proof.
  destruct b; simpl; intros.
  - by apply ingest_logs_inv.
  - rewrite Z.add_0_r in *. by apply ingest_traces_inv.
  - by apply ingest_metrics_inv.
Qed.

Lemma ingest_all_inv v g bs :
  Forall batch_wf bs -> Inv v g -> v + sum_by batch_volume bs <= u64_max ->
  Inv (v + sum_by batch_volume bs) (ingest_all g bs).
Proof.
  intros Hwf. revert v g. induction Hwf as [|b bs Hb Hbs IH]; intros v g Hg Hv; simpl in *.
  { by rewrite Z.add_0_r. }
  assert (0 <= sum_by batch_volume bs).
  { apply sum_by_nonneg. eapply Forall_impl; [exact Hbs|apply batch_volume_nonneg]. }
  fold (sum_by batch_volume bs) in *. rewrite Z.add_assoc.
  apply (IH _ (ingest g b).1); [|lia]. apply ingest_inv; [done..|lia].
Qed.
End lemmas.
