(* ===== verification/AggFrame.v ===== *)
(** * What every batch preserves

    The ingest functions are compositions of a few elementary updates.  The classes below
    list them by signal and agent: a preorder on states that contains each of them relates
    the states before and after every batch. *)

From S2P Require Import Prelude Float64 Otlp AggValues AggStats AggState AggIngest AggBatch.

Local Open Scope Z_scope.

(** Updates by Codex sessions: the only ones of a trace. *)
Class SessionFrame (R : relation AggregatorInner) : Prop := {
  frame_preorder :: PreOrder R;
  frame_sessions : forall g m, R g (set_sessions g m);
  frame_last_sessions : forall g m, R g (set_last_sessions g m);
  frame_pending : forall g m, R g (set_pending g m);
  frame_move : forall g from to s, R g (move_codex_bucket_stats g from to s);
}.

(** Updates by Codex usage. *)
Class CodexFrame `{World} (R : relation AggregatorInner) : Prop := {
  frame_session :: SessionFrame R;
  frame_codex_record : forall g b s, R g (record_into g AGENT_CODEX b s);
  frame_codex_source : forall g k src,
    (forall s, codex_token_sources g !! k = Some s -> s = src) ->
    R g (set_token_sources g (<[k := src]> (codex_token_sources g)));
}.

(** Updates by Claude usage; a metric's model has been registered before. *)
Class ClaudeFrame `{World} (R : relation AggregatorInner) : Prop := {
  frame_codex :: CodexFrame R;
  frame_claude_record : forall g b s, R g (record_into g AGENT_CLAUDE b s);
  frame_claude_log : forall g b s, R g (record_claude_log_usage g b s);
  frame_claude_metric : forall g b s,
    model b ∈ claude_metric_models g -> R g (record_claude_metric_usage g b s).1;
  frame_register : forall g full, R g (register_canonical_claude_model g full);
}.

(** * Lemmas *)

(** A loop of steps inside [R] stays inside [R]. *)
Lemma frame_loop {A : Type} (R : relation AggregatorInner) `{!PreOrder R}
    (f : AggregatorInner * nat -> A -> AggregatorInner * nat) acc l :
  (forall acc a, a ∈ l -> R acc.1 (f acc a).1) -> R acc.1 (for_each f acc l).1.
Proof.
  intros Hf. apply (for_each_ind f (fun acc' => R acc.1 acc'.1)); [done|].
  intros acc' a Ha Hacc. etrans; [exact Hacc|by apply Hf].
Qed.

(** Unpack the pair a step returns. *)
Ltac frame_unpack lem :=
  let H := fresh in pose proof lem as H;
  match type of H with _ _ (?t.1) => destruct t end; simpl in *.

Section sessions.
Context (R : relation AggregatorInner) `{!SessionFrame R}.

Lemma frame_merge_entry provider effort confirmed acc e :
  R acc.1.1 (merge_pending_entry provider effort confirmed acc e).1.1.
Proof. destruct acc as [[g kept] moved], e. simpl. case_bool_decide; [done|apply frame_move]. Qed.

Lemma frame_merge_codex g provider model cid effort confirmed :
  R g (merge_codex_pending_sse g provider model cid effort confirmed).1.
Proof.
  unfold merge_codex_pending_sse. destruct (negb (str_is_empty cid)).
  - destruct (codex_pending_sse g !! cid) as [entries|]; [|done].
    set (g0 := set_pending g _). set (l := btree_entries _ _).
    pose proof (for_each_ind (merge_pending_entry provider effort confirmed)
      (fun acc => R g0 acc.1.1) (g0, ∅, false) l) as Hloop.
    destruct (for_each _ _ l) as [[g' kept] moved]. simpl in *.
    assert (R g g') as Hg'.
    { etrans; [|apply Hloop; [done|]]; [apply frame_pending|].
      intros acc e _ Hacc. etrans; [exact Hacc|apply frame_merge_entry]. }
    case_bool_decide; [done|]. etrans; [exact Hg'|apply frame_pending].
  - repeat (case_match; try done). apply frame_move.
Qed.

Lemma frame_update_session g service session update_last :
  R g (update_codex_session_with_last g service session update_last).1.
Proof.
  unfold update_codex_session_with_last. etrans; [|apply frame_merge_codex].
  set (g1 := if negb _ then set_sessions g _ else g).
  assert (R g g1) by (unfold g1; case_match; [apply frame_sessions|done]).
  destruct update_last; [|done]. etrans; [done|apply frame_last_sessions].
Qed.

Lemma frame_update_effort g service attrs :
  R g (update_codex_effort_from_request_attrs g service attrs).1.
Proof.
  unfold update_codex_effort_from_request_attrs, update_codex_last_effort.
  destruct (string_attr attrs "codex.request.reasoning_effort"); [|done].
  destruct (str_is_empty _); [done|].
  destruct (match string_attr attrs "conversation.id" with Some _ => _ | None => _ end);
    [apply frame_update_session|].
  destruct (String.eqb _ _); [done|]. destruct (str_is_empty _); [|apply frame_last_sessions].
  etrans; [apply frame_last_sessions|apply frame_merge_codex].
Qed.

Lemma frame_session_step g n service (session : option CodexSession) :
  R g (match session with
       | Some session =>
           let '(g, moved) := update_codex_session g service session in (g, count_if n moved)
       | None => (g, n)
       end).1.
Proof.
  destruct session as [session|]; [|done]. unfold update_codex_session.
  by frame_unpack (frame_update_session g service session true).
Qed.

Lemma frame_span service acc span : R acc.1 (ingest_span service acc span).1.
Proof.
  unfold ingest_span.
  assert (R acc.1 (for_each (ingest_span_event service) acc (span_events span)).1) as Hev.
  { apply frame_loop; [apply _|]. intros [g n] ev _. simpl.
    destruct (otel_event_matches _ _ _); [|done].
    apply (frame_session_step g n service (extract_session_from_attrs (ev_attributes ev))). }
  destruct (for_each _ acc _) as [g n]. destruct (String.eqb _ _); [|done].
  frame_unpack (frame_update_effort g service (span_attributes span)). by etrans.
Qed.

Lemma frame_traces g req : R g (ingest_traces g req).1.
Proof.
  unfold ingest_traces. destruct (negb _); [done|].
  apply (frame_loop R _ (g, 0%nat)). intros acc rs _. destruct (negb _); [done|].
  apply frame_loop; [apply _|]. intros acc' ss _.
  apply frame_loop; [apply _|]. intros. apply frame_span.
Qed.
End sessions.

Section codex.
Context `{World} (R : relation AggregatorInner) `{!CodexFrame R}.

Lemma frame_sse g parsed : R g (ingest_codex_sse g parsed).1.
Proof.
  unfold ingest_codex_sse. case_bool_decide as Hk; [done|]. simpl.
  etrans; [apply (frame_codex_record g (sse_bucket parsed) (sse_stats parsed))|].
  set (g' := record_into _ _ _ _).
  assert (codex_token_sources g' = codex_token_sources g) as Et by done.
  assert (forall m, R g' (set_token_sources (set_pending g' m)
    (<[codex_token_source_key (model (sse_bucket parsed)) := CodexLogs]>
      (codex_token_sources g)))) as Hpend.
  { intros m. trans (set_pending g' m); [apply frame_pending|].
    apply (frame_codex_source (set_pending g' m)). simpl. intros [] E; congruence. }
  destruct (pending_conversation_id parsed); [apply Hpend|].
  apply (frame_codex_source g'). rewrite Et. intros [] E; congruence.
Qed.

Lemma frame_codex_log service acc log :
  service <> SERVICE_CLAUDE -> R acc.1 (ingest_log_record service acc log).1.
Proof.
  destruct acc as [g n]. simpl. intros Hne.
  destruct (String.eqb_spec service SERVICE_CLAUDE) as [|_]; [done|].
  destruct (is_codex_service service); [|done].
  pose proof (frame_session_step R g n service (extract_codex_conversation_starts log)) as Hs.
  destruct (match extract_codex_conversation_starts log with Some _ => _ | None => _ end)
    as [g' n']. simpl in *.
  destruct (extract_codex_sse_response_completed g' service log) as [parsed|]; [|done].
  frame_unpack (frame_sse g' parsed). by etrans.
Qed.

Lemma frame_token_point service acc dp : R acc.1 (ingest_codex_token_point service acc dp).1.
Proof.
  destruct acc as [g n]. simpl. case_bool_decide as Hk; [done|].
  destruct (codex_token_stats _ _) as [s|]; [|done]. destruct (_ =? 0); [done|]. simpl.
  set (b := from_parts _ _ _). etrans; [apply (frame_codex_record g b s)|].
  set (g' := record_into _ _ _ _).
  apply (frame_codex_source g').
  intros [] E; [|done]. by destruct Hk.
Qed.

Lemma frame_codex_metric service g m :
  service <> SERVICE_CLAUDE -> R g (ingest_metric service g m).1.
Proof.
  intros Hne. unfold ingest_metric, ingest_codex_token, ingest_codex_turn_count,
    ingest_codex_duration.
  destruct (String.eqb_spec service SERVICE_CLAUDE) as [|_]; [done|].
  destruct (metric_data m) as [[pts|pts t|pts t|n|n]|]; simpl; repeat (case_match; try done).
  all: match goal with |- R _ (for_each ?f (?g, ?n) _).1 => apply (frame_loop R f (g, n)) end.
  - intros [g' n'] dp _. simpl. destruct (_ =? 0); [done|apply frame_codex_record].
  - intros; apply frame_token_point.
  - intros [g' n'] dp _. simpl. destruct (_ =? 0); [done|apply frame_codex_record].
Qed.
End codex.

Section claude.
Context `{World} (R : relation AggregatorInner) `{!ClaudeFrame R}.

Lemma frame_log service acc log : R acc.1 (ingest_log_record service acc log).1.
Proof.
  destruct (decide (service = SERVICE_CLAUDE)) as [->|]; [|by apply frame_codex_log; [apply _|]].
  destruct acc as [g n]. unfold ingest_log_record. rewrite String.eqb_refl.
  destruct (extract_claude_api_request_meta g log) as [[[b s] u]|]; [|done]. simpl.
  etrans; [apply (frame_claude_record g)|apply frame_claude_log].
Qed.

Lemma frame_claude_point g n model b s :
  AggStats.model b = model -> model <> "" ->
  R g (let '(g, recorded) := record_claude_metric_usage
    (register_canonical_claude_model g model) b s in (g, count_if n recorded)).1.
Proof.
  intros Eb Hne.
  frame_unpack (frame_claude_metric (register_canonical_claude_model g model) b s
    ltac:(rewrite Eb; by apply metric_models_registered)).
  etrans; [apply (frame_register g)|done].
Qed.

Lemma frame_metric service g m : R g (ingest_metric service g m).1.
Proof.
  destruct (decide (service = SERVICE_CLAUDE)) as [->|];
    [|by apply frame_codex_metric; [apply _|]].
  unfold ingest_metric, ingest_claude_token, ingest_claude_cost. rewrite String.eqb_refl.
  destruct (metric_data m) as [[pts|pts t|pts t|n|n]|]; simpl; repeat (case_match; try done).
  all: match goal with |- R _ (for_each ?f (?g, ?n) _).1 => apply (frame_loop R f (g, n)) end.
  - intros [g' n'] dp _. simpl. destruct (claude_token_stats _ _); [|apply frame_register].
    apply frame_claude_point; [simpl; apply non_empty_idem|apply non_empty_not_empty].
  - intros [g' n'] dp _. apply frame_claude_point; [simpl; apply non_empty_idem|apply non_empty_not_empty].
Qed.

Lemma frame_ingest g b : R g (ingest g b).1.
Proof.
  destruct b as [req|req|req]; simpl.
  - apply (frame_loop R _ (g, 0%nat)). intros acc rl _.
    apply frame_loop; [apply _|]. intros acc' sl _.
    apply frame_loop; [apply _|]. intros. apply frame_log.
  - by apply frame_traces; apply _.
  - apply (frame_loop R _ (g, 0%nat)). intros acc rm _.
    apply frame_loop; [apply _|]. intros acc' sm _.
    apply frame_loop; [apply _|]. intros [g' n] m _. simpl.
    by frame_unpack (frame_metric (service_name (rm_resource rm)) g' m).
Qed.

Lemma frame_ingest_all g bs : R g (ingest_all g bs).
Proof.
  apply (for_each_ind _ (R g)); [done|]. intros g' b _ Hg'. by etrans; [|apply frame_ingest].
Qed.
End claude.
