(* ===== verification/AggSources.v ===== *)
(** * Sources never change back

    A source once chosen stays chosen: the frame [later] of [AggFrame]. *)

From S2P Require Import Prelude Float64 Otlp AggValues AggStats AggState AggIngest AggInv AggBatch AggFrame.

Local Open Scope Z_scope.

(** [later g g']: what [g] has decided about its sources still holds in [g']. *)
Record later (g g' : AggregatorInner) : Prop := {
  later_claude_logs : forall k, claude_usage_sources g !! k = Some ClaudeLogs ->
    claude_usage_sources g' !! k = Some ClaudeLogs;
  later_claude_some : forall k, is_Some (claude_usage_sources g !! k) ->
    is_Some (claude_usage_sources g' !! k);
  later_codex : forall k s, codex_token_sources g !! k = Some s ->
    codex_token_sources g' !! k = Some s;
}.

(** * Lemmas *)

#[export] Instance later_preorder : PreOrder later.
Proof.
  split.
  - by split.
  - intros g1 g2 g3 [] []. split; eauto.
Qed.

(** Updates of any other part of the state. *)
Lemma later_same g g' :
  claude_usage_sources g' = claude_usage_sources g ->
  codex_token_sources g' = codex_token_sources g -> later g g'.
Proof. intros Eu Et. split; by rewrite ?Eu, ?Et. Qed.

Lemma later_set_claude g k src :
  (src = ClaudeLogs \/ claude_usage_sources g !! k <> Some ClaudeLogs) ->
  later g (set_usage_sources g (<[k := src]> (claude_usage_sources g))).
Proof.
  intros Hsrc. split; simpl; [| |done]; intros k'; rewrite lookup_insert; case_decide; try done.
  subst k'. by destruct Hsrc as [->|?].
Qed.

Lemma later_set_codex g k src :
  (forall s, codex_token_sources g !! k = Some s -> s = src) ->
  later g (set_token_sources g (<[k := src]> (codex_token_sources g))).
Proof.
  intros Hsrc. split; simpl; [done..|]. intros k' s Hk. rewrite lookup_insert.
  case_decide; [|done]. subst k'. by rewrite (Hsrc s Hk).
Qed.

Section world.
Context `{World}.

Lemma cancel_metric_usage_sources g k :
  claude_usage_sources (cancel_metric_usage g k) = claude_usage_sources g /\
  codex_token_sources (cancel_metric_usage g k) = codex_token_sources g.
Proof.
  unfold cancel_metric_usage. case_bool_decide; [|done].
  destruct (claude_metric_usage g !! k) as [per|]; [|done].
  set (g0 := set_metric_usage g _).
  apply (for_each_ind _ (fun g' => claude_usage_sources g' = claude_usage_sources g /\
    codex_token_sources g' = codex_token_sources g)); [done|].
  intros g' e _ [<- <-].
  by destruct (subtract_from_same g' AGENT_CLAUDE e.1 e.2) as (_ & _ & _ & -> & ->).
Qed.

Lemma record_claude_log_later g b s : later g (record_claude_log_usage g b s).
Proof.
  unfold record_claude_log_usage. destruct (negb _); [done|].
  destruct (cancel_metric_usage_sources g (bucket_usage_key b)) as [Eu Et].
  etrans; [|apply later_set_claude; by left]. by apply later_same.
Qed.

Lemma record_claude_metric_later g b s : later g (record_claude_metric_usage g b s).1.
Proof.
  unfold record_claude_metric_usage. destruct (negb _); [done|].
  case_bool_decide as Hk; [done|]. simpl.
  set (g' := record_into g AGENT_CLAUDE b s). trans g'; [by apply later_same|].
  trans (set_usage_sources g' (<[bucket_usage_key b := ClaudeMetrics]> (claude_usage_sources g'))).
  - apply later_set_claude. by right.
  - by apply later_same.
Qed.

Lemma register_later g full : later g (register_canonical_claude_model g full).
Proof. apply later_same; unfold register_canonical_claude_model; by repeat case_match. Qed.

#[export] Instance later_frame : ClaudeFrame later.
Proof.
  split; [split; [split; [apply _|..]|..]|..]; intros *.
  1-3: by apply later_same.
  - apply later_same; unfold move_codex_bucket_stats; by destruct (agents g !! AGENT_CODEX).
  - by apply later_same.
  - apply later_set_codex.
  - by apply later_same.
  - apply record_claude_log_later.
  - intros _. apply record_claude_metric_later.
  - apply register_later.
Qed.
End world.
