(* ===== verification/AggClaude.v ===== *)
(** * Claude usage refines a specification on events

    [claude_spec] says what the Claude totals promise: usage reported by logs always counts,
    usage reported by metrics counts exactly for the model/effort keys no log ever reported
    usage for, whatever the order of arrival.  The ingest functions refine it. *)

From Stdlib Require Import Ascii.
From S2P Require Import Prelude Float64 Otlp AggValues AggStats AggState AggIngest AggInv AggCodex AggBatch.

Local Open Scope Z_scope.

(** ** Specification *)

(** What Claude telemetry reports: a request log with its usage, or one metric point under its
    own labels. *)
Inductive cevent :=
| CLog (k : ClaudeUsageKey) (request usage : ModelStats)
| CMetric (b : Bucket) (s : ModelStats).

Definition log_reports (k : ClaudeUsageKey) (e : cevent) : bool :=
  match e with
  | CLog k' _ usage => bool_decide (k' = k) && has_usage usage
  | CMetric _ _ => false
  end.

(** Some log reported usage for [k]. *)
Definition logged (evs : list cevent) (k : ClaudeUsageKey) : bool := existsb (log_reports k) evs.

Definition event_count (by_logs : ClaudeUsageKey -> bool) (c : counter) (e : cevent) : Z :=
  match e with
  | CLog _ request usage => get c request + get c usage
  | CMetric b s => if by_logs (bucket_usage_key b) then 0 else get c s
  end.

Definition claude_spec (evs : list cevent) (c : counter) : Z :=
  sum_by (event_count (logged evs) c) evs.

(** What metrics reported for [k]. *)
Definition metric_sum (evs : list cevent) (k : ClaudeUsageKey) (c : counter) : Z :=
  sum_by (fun e => match e with
                   | CMetric b s => if decide (bucket_usage_key b = k) then get c s else 0
                   | CLog _ _ _ => 0 end) evs.

(** ** The events of a batch, read from its messages alone *)

Definition attrs_bucket (attrs : list KeyValue) : Bucket :=
  from_parts PROVIDER_ANTHROPIC (default "" (string_attr attrs "model"))
    (default "" (string_attr attrs "effort")).

Definition attrs_key (attrs : list KeyValue) : ClaudeUsageKey := bucket_usage_key (attrs_bucket attrs).

Definition log_events (service : string) (log : LogRecord) : list cevent :=
  if String.eqb service SERVICE_CLAUDE
     && bool_decide (body_string log = Some "claude_code.api_request")
  then [CLog (attrs_key (log_attributes log)) (claude_request_stats (log_attributes log))
          (claude_usage_stats (log_attributes log))]
  else [].

Section events.
Context `{World}.

Definition token_events (dp : NumberDataPoint) : list cevent :=
  match claude_token_stats (default "" (string_attr (ndp_attributes dp) "type"))
          (number_value_as_u64 dp) with
  | Some s => [CMetric (attrs_bucket (ndp_attributes dp)) s]
  | None => []
  end.

Definition cost_events (dp : NumberDataPoint) : list cevent :=
  [CMetric (attrs_bucket (ndp_attributes dp)) (mkStats 0 0 0 0 0 0 (number_value_as_f64 dp) 0)].

Definition metric_events (service : string) (m : Metric) : list cevent :=
  match metric_data m with
  | Some (Sum pts temporality) =>
      if negb (String.eqb service SERVICE_CLAUDE) || negb (is_delta_temporality temporality)
      then []
      else if String.eqb (metric_name m) "claude_code.token.usage" then flat_map token_events pts
      else if String.eqb (metric_name m) "claude_code.cost.usage" then flat_map cost_events pts
      else []
  | _ => []
  end.

Definition claude_events (b : batch) : list cevent :=
  match b with
  | BLogs req =>
      flat_map (fun rl => flat_map (fun sl =>
        flat_map (log_events (service_name (rl_resource rl))) (sl_log_records sl))
        (rl_scope_logs rl)) (resource_logs req)
  | BTraces _ => []
  | BMetrics req =>
      flat_map (fun rm => flat_map (fun sm =>
        flat_map (metric_events (service_name (rm_resource rm))) (sm_metrics sm))
        (rm_scope_metrics rm)) (resource_metrics req)
  end.
End events.

(** ** The refinement relation *)

Definition usage_sum (c : counter) (per : option (gmap Bucket ModelStats)) : Z :=
  map_sum (get c) (default ∅ per).

(** A full name [f] is known for [r]: [r] itself, or what precedes its suffix. *)
Definition CanonInv (g : AggregatorInner) : Prop :=
  forall r f, claude_canonical_models g !! r = Some f ->
    r = f \/ exists suffix, split_once "[" f = Some (r, suffix).

Definition claude_total (g : AggregatorInner) : ModelStats := total (agent_of g AGENT_CLAUDE).

Record Ref (evs : list cevent) (g : AggregatorInner) : Prop := {
  ref_total : forall c, get c (claude_total g) = claude_spec evs c;
  ref_logs : forall k, logged evs k = bool_decide (claude_usage_sources g !! k = Some ClaudeLogs);
  ref_metrics : forall k c, logged evs k = false ->
    usage_sum c (claude_metric_usage g !! k) = metric_sum evs k c;
  ref_unseen : forall k, claude_usage_sources g !! k = None -> claude_metric_usage g !! k = None;
  ref_canon : CanonInv g;
}.

(** Nothing about Claude differs. *)
Record claude_same (g g' : AggregatorInner) : Prop := {
  same_agent : agent_of g' AGENT_CLAUDE = agent_of g AGENT_CLAUDE;
  same_sources : claude_usage_sources g' = claude_usage_sources g;
  same_usage : claude_metric_usage g' = claude_metric_usage g;
  same_canon : claude_canonical_models g' = claude_canonical_models g;
}.

(** * Lemmas *)

(** ** The specification, event by event *)

Lemma sum_by_app {A : Type} (w : A -> Z) l1 l2 : sum_by w (l1 ++ l2) = sum_by w l1 + sum_by w l2.
Proof. induction l1; simpl; [done|]. unfold sum_by in *. lia. Qed.

Lemma logged_app evs1 evs2 k : logged (evs1 ++ evs2) k = logged evs1 k || logged evs2 k.
Proof. apply existsb_app. Qed.

Lemma spec_ext L L' c evs :
  (forall k, L k = L' k) -> sum_by (event_count L c) evs = sum_by (event_count L' c) evs.
Proof.
  intros HL. induction evs as [|e evs IH]; [done|]. simpl. fold (sum_by (event_count L c) evs).
  fold (sum_by (event_count L' c) evs). rewrite IH. destruct e; simpl; by rewrite ?HL.
Qed.

(** A further key reported by logs takes away what metrics had reported for it. *)
Lemma spec_drop (L L' : ClaudeUsageKey -> bool) k c evs :
  L k = false -> (forall k', L' k' = L k' || bool_decide (k = k')) ->
  sum_by (event_count L' c) evs = sum_by (event_count L c) evs - metric_sum evs k c.
Proof.
  intros Hk HL. unfold metric_sum, sum_by.
  induction evs as [|e evs IH]; simpl; [done|]. rewrite IH.
  destruct e as [k' r u|b s]; simpl; [lia|]. rewrite HL. destruct (decide (bucket_usage_key b = k)) as [->|Hne].
  - rewrite Hk, bool_decide_true by done. simpl. lia.
  - rewrite bool_decide_false, orb_false_r by done. lia.
Qed.

Lemma metric_sum_app evs1 evs2 k c :
  metric_sum (evs1 ++ evs2) k c = metric_sum evs1 k c + metric_sum evs2 k c.
Proof. apply sum_by_app. Qed.

Lemma spec_metric evs b s c :
  claude_spec (evs ++ [CMetric b s]) c =
  claude_spec evs c + (if logged evs (bucket_usage_key b) then 0 else get c s).
Proof.
  unfold claude_spec. rewrite sum_by_app.
  assert (forall k', logged (evs ++ [CMetric b s]) k' = logged evs k') as HL.
  { intros k'. rewrite logged_app. simpl. by rewrite orb_false_r. }
  rewrite (spec_ext _ (logged evs)) by done. simpl. rewrite HL. lia.
Qed.

Lemma spec_log evs k r u c :
  claude_spec (evs ++ [CLog k r u]) c =
  claude_spec evs c + get c r + get c u
  - (if has_usage u && negb (logged evs k) then metric_sum evs k c else 0).
Proof.
  unfold claude_spec. rewrite sum_by_app. simpl.
  assert (forall k', logged (evs ++ [CLog k r u]) k' =
    logged evs k' || (bool_decide (k = k') && has_usage u)) as HL.
  { intros k'. rewrite logged_app. simpl. by rewrite orb_false_r. }
  destruct (has_usage u); simpl.
  - destruct (logged evs k) eqn:Hk; simpl.
    + rewrite (spec_ext _ (logged evs)); [lia|]. intros k'. rewrite HL, andb_true_r.
      case_bool_decide as E; [subst; by rewrite Hk|by rewrite orb_false_r].
    + rewrite (spec_drop (logged evs) _ k); [lia|done|]. intros k'. by rewrite HL, andb_true_r.
  - rewrite (spec_ext _ (logged evs)); [lia|]. intros k'.
    by rewrite HL, andb_false_r, orb_false_r.
Qed.

(** ** Frames *)

#[export] Instance claude_same_preorder : PreOrder claude_same.
Proof. split; [by split|]. intros g1 g2 g3 [] []. split; congruence. Qed.

Lemma Ref_same evs g g' : Ref evs g -> claude_same g g' -> Ref evs g'.
Proof.
  intros [Ht Hl Hm Hn Hc] [Ea Es Eu Ec]. split; intros *.
  - unfold claude_total. by rewrite Ea.
  - by rewrite Es.
  - rewrite Eu. apply Hm.
  - rewrite Es, Eu. apply Hn.
  - intros r f. rewrite Ec. apply Hc.
Qed.

(** Keys do not see the difference between a model and its canonical name. *)
Lemma split_once_pre c s pre post : split_once c s = Some (pre, post) -> split_once c pre = None.
Proof.
  revert pre post. induction s as [|a s IH]; intros pre post; simpl; [done|].
  destruct (Ascii.eqb a c) eqn:Ea; [by intros [= <- <-]|].
  destruct (split_once c s) as [[p q]|]; [|done]. intros [= <- <-]. simpl.
  by rewrite Ea, (IH p q).
Qed.

Lemma canonical_key g raw e :
  CanonInv g ->
  bucket_usage_key (from_parts PROVIDER_ANTHROPIC (canonical_claude_model g raw) e) =
  bucket_usage_key (from_parts PROVIDER_ANTHROPIC raw e).
Proof.
  intros Hc. unfold canonical_claude_model. case_bool_decide; [done|].
  destruct (claude_canonical_models g !! raw) as [f|] eqn:E; [|done]. simpl.
  destruct (Hc raw f E) as [->|[suffix Hs]]; [done|].
  assert (f <> "") as Hf by (intros ->; done).
  unfold bucket_usage_key, claude_usage_source_key. simpl. f_equal.
  rewrite (non_empty_id f Hf), Hs.
  destruct (decide (raw = "")) as [->|Hr]; [done|].
  by rewrite (non_empty_id raw Hr), (split_once_pre _ _ _ _ Hs), (non_empty_id raw Hr).
Qed.

Lemma merge_bare_total a bare full : total (merge_bare_into_full a bare full) = total a.
Proof. done. Qed.

Section steps.
Context `{World}.

(** ** Cancelling what metrics had counted *)

Lemma subtract_from_total v g b s c :
  Inv v g -> stats_wf s -> (forall c, get c s <= bucket_val c (claude_buckets g) b) ->
  get c (claude_total (subtract_from g AGENT_CLAUDE b s)) = get c (claude_total g) - get c s.
Proof.
  intros Hg Hs Hle. unfold claude_total. rewrite subtract_from_agent by apply Hs.
  specialize (Hle c). pose proof (get_nonneg c s (proj1 Hs)).
  pose proof (inv_agents _ _ Hg AGENT_CLAUDE) as Ha.
  destruct (decide _) as [_|Hn].
  - simpl. rewrite get_subtract, sat_sub_exact; [done|].
    pose proof (bucket_val_le_sum c _ b (ai_buckets _ _ Ha)).
    pose proof (ai_sum _ _ Ha c). unfold claude_buckets in Hle. lia.
  - assert (agents g !! AGENT_CLAUDE = None) as E.
    { destruct (agents g !! AGENT_CLAUDE) eqn:E; [|done]. by destruct Hn. }
    unfold claude_buckets in Hle. rewrite (agent_of_none _ _ E) in Hle. simpl in Hle.
    rewrite bucket_val_empty in Hle. lia.
Qed.

Lemma cancel_loop_total v g l c :
  Inv v g -> NoDup l.*1 ->
  (forall b s, (b, s) ∈ l -> stats_wf s /\ forall c, get c s <= bucket_val c (claude_buckets g) b) ->
  (forall k per b s, claude_metric_usage g !! k = Some per -> per !! b = Some s -> b ∉ l.*1) ->
  get c (claude_total (for_each (fun g e => subtract_from g AGENT_CLAUDE e.1 e.2) g l)) =
  get c (claude_total g) - sum_by (fun e => get c e.2) l.
Proof.
  revert g. induction l as [|[b s] l IH]; intros g Hg Hnd Hl Hfree.
  { simpl. unfold for_each. simpl. lia. }
  apply NoDup_cons in Hnd as [Hb Hnd]. destruct (Hl b s) as [Hs Hle]; [left|].
  destruct (subtract_from_same g AGENT_CLAUDE b s) as (Eu & _).
  assert (forall k per s', claude_metric_usage g !! k = Some per -> per !! b <> Some s') as Hfr.
  { intros k per s' Hk Hper. specialize (Hfree k per b s' Hk Hper).
    rewrite fmap_cons in Hfree. set_solver. }
  pose proof (subtract_from_total v g b s c Hg Hs Hle) as Ht.
  transitivity (get c (claude_total (subtract_from g AGENT_CLAUDE b s))
    - sum_by (fun e => get c e.2) l); [|simpl; fold (sum_by (fun e : Bucket * ModelStats => get c e.2) l); lia].
  apply (IH (subtract_from g AGENT_CLAUDE b s)); [by apply subtract_from_inv|done| |].
  - intros b' s' Hin. destruct (Hl b' s') as [Hs' Hle']; [by right|].
    split; [done|]. intros c'. rewrite subtract_from_val_ne; [done| |apply Hs].
    intros <-. apply Hb. apply list_elem_of_fmap. by exists (b, s').
  - intros k per b' s' Hk Hper. rewrite Eu in Hk.
    specialize (Hfree k per b' s' Hk Hper). rewrite fmap_cons in Hfree. set_solver.
Qed.

Lemma sum_by_perm {A : Type} (w : A -> Z) l1 l2 : l1 ≡ₚ l2 -> sum_by w l1 = sum_by w l2.
Proof. unfold sum_by. induction 1; simpl; lia. Qed.

Lemma cancel_total v g k c :
  Inv v g -> (claude_usage_sources g !! k = None -> claude_metric_usage g !! k = None) ->
  claude_usage_sources g !! k <> Some ClaudeLogs ->
  get c (claude_total (cancel_metric_usage g k)) =
  get c (claude_total g) - usage_sum c (claude_metric_usage g !! k).
Proof.
  intros Hg Hn Hl. unfold cancel_metric_usage, usage_sum.
  destruct (claude_usage_sources g !! k) as [[]|] eqn:Es; [done| |].
  - rewrite bool_decide_true by done.
    destruct (claude_metric_usage g !! k) as [per|] eqn:E; simpl; [|rewrite map_sum_empty; lia].
    rewrite (cancel_loop_total v).
    + rewrite map_sum_list. f_equal.
      exact (sum_by_perm (fun e => get c e.2) _ _ (btree_entries_perm bucket_le per)).
    + by apply drop_usage_inv.
    + apply NoDup_btree_entries.
    + intros b s Hb%elem_of_btree_entries.
      destruct (inv_usage _ _ Hg k per b s E Hb) as (_ & _ & _ & ? & ?). done.
    + intros k' per' b s Hk Hb Hin. simpl in Hk. apply lookup_delete_Some in Hk as [Hne Hk].
      apply list_elem_of_fmap in Hin as ([b' s'] & -> & Hin%elem_of_btree_entries).
      destruct (inv_usage _ _ Hg k per b' s' E Hin) as (E1 & _).
      destruct (inv_usage _ _ Hg k' per' b' s Hk Hb) as (E2 & _). congruence.
  - rewrite bool_decide_false by done. rewrite Hn by done. simpl. rewrite map_sum_empty. lia.
Qed.

Lemma cancel_same g k :
  claude_usage_sources (cancel_metric_usage g k) = claude_usage_sources g /\
  claude_canonical_models (cancel_metric_usage g k) = claude_canonical_models g /\
  claude_metric_usage (cancel_metric_usage g k) =
    if bool_decide (claude_usage_sources g !! k = Some ClaudeMetrics)
    then delete k (claude_metric_usage g) else claude_metric_usage g.
Proof.
  unfold cancel_metric_usage. case_bool_decide; [|done].
  destruct (claude_metric_usage g !! k) as [per|] eqn:E; [|by rewrite delete_id].
  apply (for_each_ind _ (fun g' => claude_usage_sources g' = claude_usage_sources g /\
    claude_canonical_models g' = claude_canonical_models g /\
    claude_metric_usage g' = delete k (claude_metric_usage g))); [done|].
  intros g' [b s] _ (<- & <- & <-). unfold subtract_from. by destruct (agents g' !! AGENT_CLAUDE).
Qed.

(** ** One event *)

Lemma record_total v g b s c :
  Inv v g -> stats_wf s -> v + volume s <= u64_max ->
  get c (claude_total (record_into g AGENT_CLAUDE b s)) = get c (claude_total g) + get c s.
Proof.
  intros Hg Hs Hv. unfold claude_total, record_into. rewrite agent_of_set.
  destruct (decide (AGENT_CLAUDE = AGENT_CLAUDE)) as [_|]; [|done]. simpl. rewrite get_add.
  change (agent_of (touch g) AGENT_CLAUDE) with (agent_of g AGENT_CLAUDE).
  pose proof (ai_bound _ _ (inv_agents _ _ Hg AGENT_CLAUDE) c).
  pose proof (get_le_volume c s (proj1 Hs)). by rewrite sat_add_exact by lia.
Qed.

Lemma no_usage_get s c :
  has_usage s = false -> request_count s = 0 -> duration_ms s = 0 -> get c s = 0.
Proof. intros Hu Hr Hd. destruct c; try done; by apply no_usage_zero. Qed.

Lemma Ref_log_event v evs g b r u :
  Ref evs g -> Inv v g -> bucket_wf b -> stats_wf r -> stats_wf u ->
  request_count u = 0 -> duration_ms u = 0 -> v + volume r + volume u <= u64_max ->
  Ref (evs ++ [CLog (bucket_usage_key b) r u])
    (record_claude_log_usage (record_into g AGENT_CLAUDE b r) b u).
Proof.
  intros [Ht Hl Hm Hn Hc] Hg Hb Hr Hu Hu0 Hu1 Hv.
  pose proof (volume_nonneg u (proj1 Hu)) as Hvu.
  set (g1 := record_into g AGENT_CLAUDE b r). set (k := bucket_usage_key b).
  assert (Inv (v + volume r) g1) as Hg1 by (apply record_into_inv; [done..|lia]).
  assert (forall c, get c (claude_total g1) = get c (claude_total g) + get c r) as Ht1
    by (intros c; apply (record_total v); [done..|lia]).
  assert (forall k', logged (evs ++ [CLog k r u]) k' =
    logged evs k' || (bool_decide (k = k') && has_usage u)) as HL.
  { intros k'. rewrite logged_app. simpl. by rewrite orb_false_r. }
  unfold record_claude_log_usage. fold k. destruct (has_usage u) eqn:Eu; simpl; cycle 1.
  { split; simpl.
    - intros c. rewrite spec_log, Eu, Ht1, Ht. simpl. rewrite (no_usage_get u c) by done. lia.
    - intros k'. by rewrite HL, andb_false_r, orb_false_r, Hl.
    - intros k' c. rewrite HL, andb_false_r, orb_false_r. intros Hk'.
      rewrite metric_sum_app. simpl. rewrite Hm by done. lia.
    - apply Hn.
    - apply Hc. }
  destruct (cancel_same g1 k) as (Es & Ec & Eus).
  set (g2 := cancel_metric_usage g1 k) in *.
  assert (Inv (v + volume r) g2) as Hg2 by by apply cancel_metric_usage_inv.
  split; simpl.
  - intros c. change (get c (claude_total (record_into g2 AGENT_CLAUDE b u)) =
      claude_spec (evs ++ [CLog k r u]) c).
    rewrite (record_total (v + volume r)), spec_log, Eu by done. simpl.
    destruct (logged evs k) eqn:Hk; simpl.
    + rewrite Hl in Hk. apply bool_decide_eq_true in Hk.
      assert (g2 = g1) as -> by (unfold g2, cancel_metric_usage; simpl; by rewrite Hk).
      rewrite Ht1, Ht. lia.
    + rewrite <-Hm by done. rewrite Hl in Hk. apply bool_decide_eq_false in Hk.
      unfold g2. rewrite (cancel_total (v + volume r)) by (done || apply Hn).
      rewrite Ht1, Ht. simpl. lia.
  - intros k'. rewrite HL, andb_true_r, Es, Hl, lookup_insert. simpl.
    repeat case_bool_decide; repeat case_decide; naive_solver.
  - intros k' c. rewrite HL, andb_true_r. intros [Hk' Hne]%orb_false_iff.
    apply bool_decide_eq_false in Hne. rewrite metric_sum_app. simpl.
    rewrite <-Hm by done. rewrite Eus. simpl.
    destruct (bool_decide (_ = Some ClaudeMetrics)); [|lia].
    rewrite lookup_delete_ne by congruence. lia.
  - intros k'. rewrite Es, Eus, lookup_insert. simpl.
    destruct (decide (k = k')); [done|]. intros Hk'.
    destruct (bool_decide (_ = Some ClaudeMetrics)); [apply lookup_delete_None; right|]; by apply Hn.
  - intros r' f Hf. simpl in Hf. rewrite Ec in Hf. by apply (Hc r' f).
Qed.

Lemma usage_add_sum v g k b s c :
  Inv v g -> v + volume s <= u64_max -> stats_wf s ->
  map_sum (get c) (usage_add (default ∅ (claude_metric_usage g !! k)) b s) =
  usage_sum c (claude_metric_usage g !! k) + get c s.
Proof.
  intros Hg Hv Hs. unfold usage_add, usage_sum. rewrite map_sum_insert, get_add.
  set (per := default ∅ _).
  assert (get c (default stats_zero (per !! b)) = map_val (get c) per b) as ->.
  { unfold map_val. destruct (per !! b); simpl; [done|apply get_zero]. }
  assert (map_val (get c) per b <= v) as Hle.
  { pose proof (agent_bucket_bound _ _ c b (inv_agents _ _ Hg AGENT_CLAUDE)) as Hbound.
    fold (claude_buckets g) in Hbound. unfold map_val, per.
    destruct (claude_metric_usage g !! k) as [m|] eqn:E; simpl; [|rewrite lookup_empty; simpl; lia].
    destruct (m !! b) as [s'|] eqn:Eb; simpl; [|lia].
    destruct (inv_usage _ _ Hg k m b s' E Eb) as (_ & _ & _ & _ & Hc).
    specialize (Hc c). lia. }
  pose proof (get_le_volume c s (proj1 Hs)). rewrite sat_add_exact by lia. lia.
Qed.

Lemma Ref_metric_event v evs g b s :
  Ref evs g -> Inv v g -> bucket_wf b -> stats_wf s ->
  request_count s = 0 -> duration_ms s = 0 -> v + volume s <= u64_max ->
  Ref (evs ++ [CMetric b s]) (record_claude_metric_usage g b s).1.
Proof.
  intros [Ht Hl Hm Hn Hc] Hg Hb Hs Hs0 Hs1 Hv. set (k := bucket_usage_key b).
  assert (forall k', logged (evs ++ [CMetric b s]) k' = logged evs k') as HL.
  { intros k'. rewrite logged_app. simpl. by rewrite orb_false_r. }
  assert (forall k' c, metric_sum (evs ++ [CMetric b s]) k' c =
    metric_sum evs k' c + if decide (k = k') then get c s else 0) as Hms.
  { intros k' c. rewrite metric_sum_app. simpl. fold k. lia. }
  unfold record_claude_metric_usage. fold k.
  destruct (has_usage s) eqn:Eu; simpl; cycle 1.
  { assert (forall c, get c s = 0) as H0 by (intros c; by apply no_usage_get).
    split; [| | |apply Hn|apply Hc].
    - intros c. rewrite spec_metric, H0, Ht. case_match; lia.
    - intros k'. by rewrite HL.
    - intros k' c. rewrite HL, Hms, H0. intros Hk'. rewrite Hm by done. case_decide; lia. }
  destruct (logged evs k) eqn:Ek; pose proof Ek as Es; rewrite Hl in Es.
  - rewrite Es. apply bool_decide_eq_true in Es.
    split; [| | |apply Hn|apply Hc].
    + intros c. rewrite spec_metric. fold k. rewrite Ek, Ht. lia.
    + intros k'. by rewrite HL.
    + intros k' c. rewrite HL, Hms. intros Hk'. rewrite Hm by done.
      rewrite decide_False by congruence. lia.
  - rewrite Es. apply bool_decide_eq_false in Es. split; simpl.
    + intros c. change (get c (claude_total (record_into g AGENT_CLAUDE b s)) =
        claude_spec (evs ++ [CMetric b s]) c).
      rewrite (record_total v), spec_metric by done. fold k. by rewrite Ek, Ht.
    + intros k'. rewrite HL, Hl, lookup_insert. simpl.
      destruct (decide (k = k')) as [<-|]; [|done]. by rewrite !bool_decide_false by done.
    + intros k' c. rewrite HL, Hms. intros Hk'. rewrite lookup_insert. simpl.
      destruct (decide (k = k')) as [<-|]; [|rewrite Hm by done; lia].
      rewrite <-Hm by done. by apply (usage_add_sum v).
    + intros k'. rewrite !lookup_insert. simpl. destruct (decide (k = k')); [done|apply Hn].
    + apply Hc.
Qed.

Lemma register_Ref evs g full :
  Ref evs g -> Ref evs (register_canonical_claude_model g full).
Proof.
  intros [Ht Hl Hm Hn Hc]. unfold register_canonical_claude_model.
  set (g1 := if str_is_empty full then g else _).
  assert (Ref evs g1) as Hg1 by (unfold g1; destruct (str_is_empty full); by split).
  clearbody g1. clear Ht Hl Hm Hn Hc. destruct Hg1 as [Ht Hl Hm Hn Hc].
  assert (forall r, r = full \/ (exists suffix, split_once "[" full = Some (r, suffix)) ->
    CanonInv (set_canonical_models g1 (<[r := full]> (claude_canonical_models g1)))) as Hcanon.
  { intros r Hr r' f. simpl. rewrite lookup_insert. destruct (decide (r = r')) as [<-|].
    - intros [= <-]. done.
    - apply Hc. }
  destruct (_ || _).
  { destruct (str_is_empty full); [by split|].
    destruct (claude_canonical_models g1 !! full); [by split|].
    split; [done..|]. apply Hcanon. by left. }
  case_bool_decide; [by split|]. case_bool_decide; [by split|]. cbv zeta.
  assert (CanonInv (set_canonical_models g1 (<[match split_once "[" full with
    | Some (pre, _) => pre | None => full end := full]> (claude_canonical_models g1)))) as Hcan.
  { apply Hcanon. destruct (split_once "[" full) as [[pre post]|]; eauto. }
  set (g2 := set_canonical_models g1 _) in *. change (agents g2) with (agents g1).
  destruct (agents g1 !! AGENT_CLAUDE) as [a|] eqn:Ea; [|by split].
  split; [|done..]. intros c. rewrite <-Ht. unfold claude_total.
  rewrite (agent_of_some _ _ _ Ea). unfold agent_of. simpl.
  rewrite lookup_insert. by destruct (decide (AGENT_CLAUDE = AGENT_CLAUDE)).
Qed.
End steps.
