(* ===== verification/AggCost.v ===== *)
(** * What the costs promise

    Costs are doubles, so sums depend on the order they are made in.  Here the cost of the Claude
    totals is what a ledger kept from the messages says ([claude_cost]): each amount is added once,
    in the order of arrival, and what metrics had reported for a key is taken back, bucket by
    bucket, when a log reports usage for it. *)

From S2P Require Import Prelude Float64 Otlp AggValues AggStats AggState AggIngest AggInv AggCodex AggBatch AggClaude.

Local Open Scope Z_scope.

(** ** Specification *)

(** The sum of two amounts, where only a positive finite number is an amount, held to the
    largest finite double; and their difference, never below zero. *)
Definition cost_sum (x y : f64) : f64 :=
  let amount z := if f64_is_finite z && f64_lt f64_zero z then z else f64_zero in
  let sum := f64_add (amount x) (amount y) in
  if f64_is_finite sum then sum else f64_max_value.

Definition cost_difference (x y : f64) : f64 := f64_max (f64_sub x y) f64_zero.

(** What metrics reported for a key, each bucket of it in the order of arrival. *)
Definition metric_cost (evs : list cevent) (k : ClaudeUsageKey) : gmap Bucket f64 :=
  foldl (fun m e =>
    match e with
    | CMetric b s =>
        if decide (bucket_usage_key b = k) then
          if has_usage s then <[b := cost_sum (default f64_zero (m !! b)) (cost_usd s)]> m else m
        else m
    | CLog _ _ _ => m
    end) ∅ evs.

(** An event after those of [before], with the total at [t]. *)
Definition cost_event (before : list cevent) (t : f64) (e : cevent) : f64 :=
  match e with
  | CMetric b s =>
      if logged before (bucket_usage_key b) || negb (has_usage s) then t else cost_sum t (cost_usd s)
  | CLog k request usage =>
      let t := cost_sum t (cost_usd request) in
      if has_usage usage then
        let t :=
          if logged before k then t
          else foldl cost_difference t (btree_entries bucket_le (metric_cost before k)).*2 in
        cost_sum t (cost_usd usage)
      else t
  end.

Fixpoint cost_from (before : list cevent) (t : f64) (evs : list cevent) : f64 :=
  match evs with
  | [] => t
  | e :: evs => cost_from (before ++ [e]) (cost_event before t e) evs
  end.

Definition claude_cost (evs : list cevent) : f64 := cost_from [] f64_zero evs.

(** The state keeps the ledger. *)
Record CostRef (evs : list cevent) (g : AggregatorInner) : Prop := {
  cost_total : cost_usd (claude_total g) = claude_cost evs;
  cost_metrics : forall k, logged evs k = false ->
    cost_usd <$> default ∅ (claude_metric_usage g !! k) = metric_cost evs k;
}.

(** * Lemmas *)

Lemma cost_add s t : cost_usd (stats_add s t) = cost_sum (cost_usd s) (cost_usd t).
Proof. done. Qed.

Lemma cost_subtract s t : cost_usd (stats_subtract s t) = cost_difference (cost_usd s) (cost_usd t).
Proof. done. Qed.

(** Nothing can be taken back from nothing. *)
Lemma cost_difference_zero x : f64_cost x -> cost_difference f64_zero x = f64_zero.
Proof. intros [_ Hx]. destruct x as [[]|[]| |[] m e]; done. Qed.

(** The order of the buckets. *)
#[export] Instance bucket_le_trans : Transitive bucket_le.
Proof.
  assert (forall x y, str_le x y -> str_le y x -> x = y) as Hanti by exact (anti_symm str_le).
  intros [p1 m1 e1] [p2 m2 e2] [p3 m3 e3]. unfold bucket_le. simpl.
  repeat case_decide; subst; try done; try congruence; intros H12 H23; try by etrans.
  all: match goal with Hne : ?x <> ?y |- _ => destruct Hne; by apply Hanti end.
Qed.

#[export] Instance bucket_le_total : Total bucket_le.
Proof.
  intros [p1 m1 e1] [p2 m2 e2]. unfold bucket_le. simpl.
  repeat case_decide; subst; try congruence; apply (base.total str_le).
Qed.

#[export] Instance bucket_le_antisymm : AntiSymm (=) bucket_le.
Proof.
  intros [p1 m1 e1] [p2 m2 e2]. unfold bucket_le. simpl.
  repeat case_decide; subst; try congruence; intros H12 H21;
    pose proof (anti_symm str_le _ _ H12 H21); congruence.
Qed.

Lemma cost_from_snoc before t evs e :
  cost_from before t (evs ++ [e]) = cost_event (before ++ evs) (cost_from before t evs) e.
Proof.
  revert before t. induction evs as [|e' evs IH]; intros before t; simpl; [by rewrite app_nil_r|].
  by rewrite IH, <-app_assoc.
Qed.

Lemma claude_cost_snoc evs e : claude_cost (evs ++ [e]) = cost_event evs (claude_cost evs) e.
Proof. apply cost_from_snoc. Qed.

Lemma metric_cost_snoc evs e k :
  metric_cost (evs ++ [e]) k =
  match e with
  | CMetric b s =>
      if decide (bucket_usage_key b = k) then
        if has_usage s then <[b := cost_sum (default f64_zero (metric_cost evs k !! b)) (cost_usd s)]> (metric_cost evs k)
        else metric_cost evs k
      else metric_cost evs k
  | CLog _ _ _ => metric_cost evs k
  end.
Proof. unfold metric_cost. by rewrite foldl_app. Qed.

Lemma CostRef_same evs g g' : CostRef evs g -> claude_same g g' -> CostRef evs g'.
Proof. intros [Ht Hm] [Ea _ Eu _]. split; [unfold claude_total; by rewrite Ea|by rewrite Eu]. Qed.

Section steps.
Context `{World}.

(** ** Cancelling what metrics had counted *)

Lemma subtract_from_cost g b s :
  f64_cost (cost_usd s) ->
  cost_usd (claude_total (subtract_from g AGENT_CLAUDE b s)) =
  cost_difference (cost_usd (claude_total g)) (cost_usd s).
Proof.
  intros Hs. unfold claude_total, subtract_from. destruct (agents g !! AGENT_CLAUDE) as [a|] eqn:E.
  - by rewrite agent_of_set, decide_True, (agent_of_some _ _ _ E).
  - rewrite (agent_of_none _ _ E). symmetry. by apply cost_difference_zero.
Qed.

Lemma cancel_loop_cost g l :
  Forall (fun e : Bucket * ModelStats => f64_cost (cost_usd e.2)) l ->
  cost_usd (claude_total (for_each (fun g e => subtract_from g AGENT_CLAUDE e.1 e.2) g l)) =
  foldl cost_difference (cost_usd (claude_total g)) (map (fun e => cost_usd e.2) l).
Proof.
  intros Hl. revert g. induction Hl as [|[b s] l Hs Hl IH]; intros g; [done|].
  change (for_each ?f g (?e :: l)) with (for_each f (f g e) l). rewrite IH. simpl. by rewrite subtract_from_cost.
Qed.

Lemma cancel_cost v g k :
  Inv v g -> (claude_usage_sources g !! k = None -> claude_metric_usage g !! k = None) ->
  claude_usage_sources g !! k <> Some ClaudeLogs ->
  cost_usd (claude_total (cancel_metric_usage g k)) =
  foldl cost_difference (cost_usd (claude_total g))
    (btree_entries bucket_le (cost_usd <$> default ∅ (claude_metric_usage g !! k))).*2.
Proof.
  intros Hg Hn Hl. unfold cancel_metric_usage.
  destruct (claude_usage_sources g !! k) as [[]|] eqn:Es; [done| |].
  - rewrite bool_decide_true by done. destruct (claude_metric_usage g !! k) as [per|] eqn:E; simpl.
    + rewrite cancel_loop_cost; [by rewrite (btree_entries_fmap bucket_le), <-list_fmap_compose|].
      apply Forall_forall. intros [b s] Hb%elem_of_btree_entries.
      destruct (inv_usage _ _ Hg k per b s E Hb) as (_ & _ & _ & [_ ?] & _). done.
    + by rewrite fmap_empty, btree_entries_empty.
  - rewrite bool_decide_false, Hn by done. simpl. by rewrite fmap_empty, btree_entries_empty.
Qed.

Lemma record_cost g b s :
  cost_usd (claude_total (record_into g AGENT_CLAUDE b s)) = cost_sum (cost_usd (claude_total g)) (cost_usd s).
Proof. unfold claude_total, record_into. by rewrite agent_of_set, decide_True. Qed.

(** ** One event *)

Lemma Cost_log_event v evs g b r u :
  Ref evs g -> CostRef evs g -> Inv v g -> bucket_wf b -> stats_wf r -> v + volume r <= u64_max ->
  CostRef (evs ++ [CLog (bucket_usage_key b) r u])
    (record_claude_log_usage (record_into g AGENT_CLAUDE b r) b u).
Proof.
  intros [_ Hl _ Hn _] [Ht Hm] Hg Hb Hr Hv. set (k := bucket_usage_key b).
  set (g1 := record_into g AGENT_CLAUDE b r).
  assert (cost_usd (claude_total g1) = cost_sum (claude_cost evs) (cost_usd r)) as Ht1
    by (unfold g1; by rewrite record_cost, Ht).
  unfold record_claude_log_usage. fold k. destruct (has_usage u) eqn:Eu; simpl; cycle 1.
  { split; [by rewrite claude_cost_snoc, Ht1; simpl; rewrite Eu|]. intros k'. rewrite logged_app. simpl.
    rewrite Eu, andb_false_r, orb_false_r, metric_cost_snoc. apply Hm. }
  assert (Inv (v + volume r) g1) as Hg1 by by apply record_into_inv.
  destruct (cancel_same g1 k) as (_ & _ & Eus). split.
  - change (claude_total _) with (claude_total (record_into (cancel_metric_usage g1 k) AGENT_CLAUDE b u)).
    rewrite record_cost, claude_cost_snoc. simpl. rewrite Eu. f_equal.
    destruct (logged evs k) eqn:Ek; pose proof Ek as Es; rewrite Hl in Es.
    + apply bool_decide_eq_true in Es. unfold cancel_metric_usage. simpl. rewrite Es.
      by rewrite bool_decide_false.
    + apply bool_decide_eq_false in Es. rewrite (cancel_cost _ _ _ Hg1) by (done || apply Hn).
      rewrite Ht1. by rewrite <-Hm.
  - intros k'. rewrite logged_app. simpl. rewrite Eu, andb_true_r, orb_false_r, metric_cost_snoc.
    intros [Hk' Hne%bool_decide_eq_false]%orb_false_iff. rewrite <-Hm, Eus by done. simpl.
    destruct (bool_decide (_ = Some ClaudeMetrics)); [|done]. by rewrite lookup_delete_ne by congruence.
Qed.

Lemma Cost_metric_event evs g b s :
  Ref evs g -> CostRef evs g -> CostRef (evs ++ [CMetric b s]) (record_claude_metric_usage g b s).1.
Proof.
  intros [_ Hl _ _ _] [Ht Hm]. set (k := bucket_usage_key b).
  assert (forall k', logged (evs ++ [CMetric b s]) k' = logged evs k') as HL.
  { intros k'. rewrite logged_app. simpl. by rewrite orb_false_r. }
  unfold record_claude_metric_usage. fold k. destruct (has_usage s) eqn:Eu; simpl; cycle 1.
  { split; [by rewrite claude_cost_snoc; simpl; rewrite Eu, orb_true_r|]. intros k'.
    rewrite HL, metric_cost_snoc, Eu. intros Hk'. rewrite Hm by done. by case_decide. }
  destruct (logged evs k) eqn:Ek; pose proof Ek as Es; rewrite Hl in Es; rewrite Es.
  - split; [by rewrite claude_cost_snoc; simpl; fold k; rewrite Ek|]. intros k'.
    rewrite HL, metric_cost_snoc. intros Hk'. rewrite Hm by done.
    rewrite decide_False by (fold k; congruence). done.
  - split; simpl.
    + change (claude_total _) with (claude_total (record_into g AGENT_CLAUDE b s)).
      rewrite record_cost, claude_cost_snoc, Ht. simpl. fold k. by rewrite Ek, Eu.
    + intros k'. rewrite HL, metric_cost_snoc, Eu, lookup_insert. fold k. intros Hk'. simpl.
      destruct (decide (k = k')) as [<-|]; [|by apply Hm]. simpl.
      rewrite <-Hm by done. unfold usage_add. rewrite fmap_insert, cost_add. f_equal. f_equal.
      rewrite lookup_fmap. by destruct (default ∅ _ !! b).
Qed.

Lemma register_Cost evs g full : CostRef evs g -> CostRef evs (register_canonical_claude_model g full).
Proof.
  intros [Ht Hm]. unfold register_canonical_claude_model.
  set (g1 := if str_is_empty full then g else _).
  assert (CostRef evs g1) as Hg1 by (unfold g1; destruct (str_is_empty full); by split).
  clearbody g1. clear Ht Hm. pose proof Hg1 as [Ht Hm].
  repeat (case_match; try done). all: try (split; [exact Ht|exact Hm]).
  all: split; [|exact Hm]; rewrite <-Ht; unfold claude_total.
  all: match goal with E : agents _ !! AGENT_CLAUDE = Some _ |- _ =>
    simpl in E; rewrite (agent_of_some _ _ _ E) end.
  all: unfold agent_of; simpl; by rewrite lookup_insert, decide_True.
Qed.
End steps.
