(* ===== verification/AggRefine.v ===== *)
(** * Every batch refines the Claude specification

    Codex telemetry leaves the Claude part of the state alone; Claude telemetry is a sequence
    of the events of [AggClaude].  So the ingest functions refine [claude_spec]
    and keep the ledger of [AggCost]. *)

From S2P Require Import Prelude Float64 Otlp AggValues AggStats AggState AggIngest AggInv AggCodex AggBatch AggFrame AggClaude AggCost.

Local Open Scope Z_scope.

(** The refinement together with the budget it needs. *)
Definition RefInv (v : Z) (evs : list cevent) (g : AggregatorInner) : Prop :=
  (Ref evs g /\ CostRef evs g) /\ Inv v g.

#[local] Abbreviation Both := (fun evs g => Ref evs g /\ CostRef evs g).

(** * Lemmas *)

Lemma Both_same evs g g' : Both evs g -> claude_same g g' -> Both evs g'.
Proof. intros [Hr Hc] Hs. split; [by eapply Ref_same|by eapply CostRef_same]. Qed.

Section frames.
Context `{World}.

Lemma set_codex_agent_same g a : claude_same g (set_agents g (<[AGENT_CODEX := a]> (agents g))).
Proof. split; [|done..]. by rewrite agent_of_set. Qed.

Lemma move_codex_same g from to s : claude_same g (move_codex_bucket_stats g from to s).
Proof.
  unfold move_codex_bucket_stats. destruct (agents g !! AGENT_CODEX); [|done].
  apply set_codex_agent_same.
Qed.

Lemma record_codex_same g b s : claude_same g (record_into g AGENT_CODEX b s).
Proof.
  unfold record_into. etrans; [|apply set_codex_agent_same]. by split.
Qed.

#[export] Instance claude_same_frame : CodexFrame claude_same.
Proof.
  split; [split; [apply _|..]|..]; intros *.
  1-3: by split.
  - apply move_codex_same.
  - apply record_codex_same.
  - by split.
Qed.
End frames.

(** ** Loops *)

(** A loop each of whose steps refines its events refines the events of the list. *)
Lemma ref_loop {A : Type} (f : AggregatorInner * nat -> A -> AggregatorInner * nat)
    (w : A -> Z) (ev : A -> list cevent) (wf : A -> Prop) :
  (forall a, wf a -> 0 <= w a) ->
  (forall v evs acc a, wf a -> RefInv v evs acc.1 -> v + w a <= u64_max ->
    RefInv (v + w a) (evs ++ ev a) (f acc a).1) ->
  forall v evs acc l, Forall wf l -> RefInv v evs acc.1 -> v + sum_by w l <= u64_max ->
  RefInv (v + sum_by w l) (evs ++ flat_map ev l) (for_each f acc l).1.
Proof.
  intros Hw Hf v evs acc l Hl. revert v evs acc.
  induction Hl as [|a l Ha Hl IH]; intros v evs acc Hacc Hv; simpl in *.
  { by rewrite Z.add_0_r, app_nil_r. }
  assert (0 <= sum_by w l) by (apply sum_by_nonneg; by eapply Forall_impl).
  fold (sum_by w l) in *. rewrite Z.add_assoc, app_assoc.
  apply (IH (v + w a) (evs ++ ev a) (f acc a)); [|lia]. apply Hf; [done..|lia].
Qed.

Lemma RefInv_mono v v' evs g : RefInv v evs g -> v <= v' -> RefInv v' evs g.
Proof. intros [? ?] ?. split; [done|by eapply Inv_mono]. Qed.

Lemma RefInv_nil v v' evs g : RefInv v evs g -> v <= v' -> RefInv v' (evs ++ []) g.
Proof. rewrite app_nil_r. apply RefInv_mono. Qed.

Section refine.
Context `{World}.

Lemma RefInv_new : RefInv 0 [] aggregator_new.
Proof.
  split; [|apply aggregator_new_inv]. split; split.
  - intros c. unfold claude_total, agent_of. simpl. rewrite lookup_empty. simpl. apply get_zero.
  - intros k. simpl. by rewrite lookup_empty.
  - intros k c _. simpl. rewrite lookup_empty. unfold usage_sum. simpl. by rewrite map_sum_empty.
  - intros k _. apply lookup_empty.
  - intros r f. simpl. by rewrite lookup_empty.
  - done.
  - intros k _. simpl. rewrite lookup_empty. apply (fmap_empty (M := gmap Bucket)).
Qed.

Lemma log_record_ref v evs acc service log :
  log_wf log -> RefInv v evs acc.1 -> v + log_volume service log <= u64_max ->
  RefInv (v + log_volume service log) (evs ++ log_events service log)
    (ingest_log_record service acc log).1.
Proof.
  intros Hwf [Hr Hg] Hv. split; [|by apply ingest_log_record_inv]. unfold log_events.
  destruct (String.eqb_spec service SERVICE_CLAUDE) as [->|Hne]; simpl; cycle 1.
  { rewrite app_nil_r. eapply Both_same; [done|by apply frame_codex_log; [apply _|]]. }
  destruct acc as [g n]. unfold log_volume in Hv. rewrite String.eqb_refl in Hv.
  unfold ingest_log_record. cbn [fst] in *. rewrite String.eqb_refl.
  unfold extract_claude_api_request_meta.
  destruct (body_string log) as [body|]; simpl.
  - destruct (String.eqb_spec body "claude_code.api_request") as [->|Hb]; simpl.
    + unfold attrs_key, attrs_bucket. destruct Hr as [Hr Hc].
      pose proof (claude_request_wf (log_attributes log) Hwf) as Hreq.
      pose proof (claude_usage_wf (log_attributes log) Hwf) as Hu.
      pose proof (volume_nonneg _ (proj1 Hu)).
      rewrite <-(canonical_key g) by apply Hr. split.
      * apply (Ref_log_event v); [done..|apply from_parts_wf|done|done|done|done|lia].
      * apply (Cost_log_event v); [done..|apply from_parts_wf|done|lia].
    + rewrite bool_decide_false by naive_solver. by rewrite app_nil_r.
  - by rewrite app_nil_r.
Qed.

Lemma metric_point_ref v evs g n attrs s :
  RefInv v evs g -> stats_wf s -> request_count s = 0 -> duration_ms s = 0 ->
  v + volume s <= u64_max ->
  Both (evs ++ [CMetric (attrs_bucket attrs) s])
    (let '(g, model) := claude_metric_model g attrs in
     let '(g, recorded) := record_claude_metric_usage g
       (from_parts PROVIDER_ANTHROPIC model (default "" (string_attr attrs "effort"))) s in
     (g, count_if n recorded)).1.
Proof.
  intros [[Hr Hc] Hg] Hs H0 H1 Hv. pose proof (volume_nonneg s (proj1 Hs)).
  unfold claude_metric_model, attrs_bucket. set (raw := default "" (string_attr attrs "model")).
  assert (from_parts PROVIDER_ANTHROPIC raw (default "" (string_attr attrs "effort")) =
    from_parts PROVIDER_ANTHROPIC (non_empty raw) (default "" (string_attr attrs "effort"))) as ->.
  { unfold from_parts. by rewrite non_empty_idem. }
  pose proof (Ref_metric_event v evs (register_canonical_claude_model g (non_empty raw))
    (from_parts PROVIDER_ANTHROPIC (non_empty raw) (default "" (string_attr attrs "effort"))) s)
    as Hev.
  pose proof (Cost_metric_event evs (register_canonical_claude_model g (non_empty raw))
    (from_parts PROVIDER_ANTHROPIC (non_empty raw) (default "" (string_attr attrs "effort"))) s)
    as Hcost.
  destruct (record_claude_metric_usage _ _ _) as [g' r]. simpl in *. split.
  - apply Hev; [by apply register_Ref|apply register_canonical_inv; [done|lia]|apply from_parts_wf|done..].
  - apply Hcost; [by apply register_Ref|by apply register_Cost].
Qed.

Lemma token_point_ref v evs acc dp :
  number_point_wf dp -> RefInv v evs acc.1 -> v + number_value_as_u64 dp <= u64_max ->
  RefInv (v + number_value_as_u64 dp) (evs ++ token_events dp) (ingest_claude_token_point acc dp).1.
Proof.
  intros Hwf [Hr Hg] Hv. split; [|by apply claude_token_point_inv].
  destruct acc as [g n]. unfold ingest_claude_token_point, token_events. cbn [fst] in *.
  pose proof (number_value_range dp Hwf) as Hx.
  destruct (claude_token_stats _ _) as [s|] eqn:E.
  - pose proof (claude_token_stats_shape _ _ _ Hx E) as [Hs Hvol].
    apply (metric_point_ref v); [done|done| | |lia];
      revert E; unfold claude_token_stats; repeat case_match; by intros [= <-].
  - rewrite app_nil_r. simpl. destruct Hr. split; [by apply register_Ref|by apply register_Cost].
Qed.

Lemma cost_point_ref v evs acc dp :
  number_point_wf dp -> RefInv v evs acc.1 -> v + number_value_as_u64 dp <= u64_max ->
  RefInv (v + number_value_as_u64 dp) (evs ++ cost_events dp) (ingest_claude_cost_point acc dp).1.
Proof.
  intros Hwf [Hr Hg] Hv. split; [|by apply claude_cost_point_inv].
  destruct acc as [g n]. unfold ingest_claude_cost_point, cost_events. cbn [fst] in *.
  pose proof (number_value_range dp Hwf) as Hx. unfold is_u64 in Hx.
  apply (metric_point_ref v); [done| |done|done|unfold volume; simpl; lia].
  split; [intros []; apply is_u64_0|simpl; auto with f64].
Qed.

Lemma metric_ref v evs service g m :
  metric_wf m -> RefInv v evs g -> v + metric_volume m <= u64_max ->
  RefInv (v + metric_volume m) (evs ++ metric_events service m) (ingest_metric service g m).1.
Proof.
  intros Hwf [Hr Hg] Hv.
  pose proof (ingest_metric_inv v g service m Hwf Hg Hv) as Hinv.
  pose proof (metric_volume_nonneg m Hwf) as Hpos.
  destruct (String.eqb_spec service SERVICE_CLAUDE) as [->|Hne]; cycle 1.
  { split; [|done]. unfold metric_events.
    assert (String.eqb service SERVICE_CLAUDE = false) as -> by by apply String.eqb_neq.
    assert (Both evs (ingest_metric service g m).1) as Hr'
      by (eapply Both_same; [done|by apply frame_codex_metric; [apply _|]]).
    destruct (metric_data m) as [[]|]; by rewrite app_nil_r. }
  assert (RefInv (v + metric_volume m) (evs ++ []) g) as Hskip
    by (apply RefInv_nil with v; [done|lia]).
  clear Hinv. unfold ingest_metric, metric_events, ingest_claude_token, ingest_claude_cost,
    metric_volume, metric_wf in *.
  rewrite String.eqb_refl. simpl.
  assert (forall a, number_point_wf a -> 0 <= number_value_as_u64 a) as Hw
    by (intros a Ha; apply (number_value_range a Ha)).
  destruct (metric_data m) as [[pts|pts t|pts t|n|n]|]; simpl; repeat (case_match; try done).
  - by eapply (ref_loop ingest_claude_token_point number_value_as_u64 token_events
      number_point_wf Hw token_point_ref v evs (g, 0%nat)).
  - by eapply (ref_loop ingest_claude_cost_point number_value_as_u64 cost_events
      number_point_wf Hw cost_point_ref v evs (g, 0%nat)).
Qed.

Lemma ingest_ref v evs g b :
  batch_wf b -> RefInv v evs g -> v + batch_volume b <= u64_max ->
  RefInv (v + batch_volume b) (evs ++ claude_events b) (ingest g b).1.
Proof.
  assert (forall service l, Forall log_wf l -> 0 <= sum_by (log_volume service) l) as Hlogs.
  { intros service l Hl. apply sum_by_nonneg. eapply Forall_impl; [exact Hl|].
    intros. by apply log_volume_nonneg. }
  assert (forall l, Forall metric_wf l -> 0 <= sum_by metric_volume l) as Hmetrics.
  { intros l Hl. apply sum_by_nonneg. eapply Forall_impl; [exact Hl|].
    intros. by apply metric_volume_nonneg. }
  destruct b as [req|req|req]; simpl; intros Hwf Hg Hv.
  - unfold logs_volume, ingest_logs in *. eapply ref_loop; [| |exact Hwf|done|done].
    { intros rl Hrl. apply sum_by_nonneg. eapply Forall_impl; [exact Hrl|]. intros; by apply Hlogs. }
    intros v1 e1 acc1 rl Hrl Ha1 Hv1. eapply ref_loop; [| |exact Hrl|done|done].
    { intros sl. apply Hlogs. }
    intros v2 e2 acc2 sl Hsl Ha2 Hv2. eapply ref_loop; [| |exact Hsl|done|done].
    { intros. by apply log_volume_nonneg. }
    intros. by apply log_record_ref.
  - rewrite app_nil_r, Z.add_0_r in *. destruct Hg as [Hr Hg]. split; [|by apply ingest_traces_inv].
    eapply Both_same; [done|by apply frame_traces; apply _].
  - unfold metrics_volume, ingest_metrics in *. eapply ref_loop; [| |exact Hwf|done|done].
    { intros rl Hrl. apply sum_by_nonneg. eapply Forall_impl; [exact Hrl|]. intros; by apply Hmetrics. }
    intros v1 e1 acc1 rm Hrm Ha1 Hv1. eapply ref_loop; [| |exact Hrm|done|done].
    { intros sm. apply Hmetrics. }
    intros v2 e2 acc2 sm Hsm Ha2 Hv2. eapply ref_loop; [apply metric_volume_nonneg| |exact Hsm|done|done].
    intros v3 e3 [g' n] m Hm Ha3 Hv3. simpl in *.
    pose proof (metric_ref v3 e3 (service_name (rm_resource rm)) g' m Hm Ha3 Hv3).
    by destruct (ingest_metric _ g' m).
Qed.

Lemma ingest_all_ref v evs g bs :
  Forall batch_wf bs -> RefInv v evs g -> v + sum_by batch_volume bs <= u64_max ->
  RefInv (v + sum_by batch_volume bs) (evs ++ flat_map claude_events bs) (ingest_all g bs).
Proof.
  intros Hwf. revert v evs g.
  induction Hwf as [|b bs Hb Hbs IH]; intros v evs g Hg Hv; simpl in *.
  { by rewrite Z.add_0_r, app_nil_r. }
  assert (0 <= sum_by batch_volume bs).
  { apply sum_by_nonneg. eapply Forall_impl; [exact Hbs|apply batch_volume_nonneg]. }
  fold (sum_by batch_volume bs) in *. rewrite Z.add_assoc, app_assoc.
  apply (IH _ _ (ingest g b).1); [|lia]. apply ingest_ref; [done..|lia].
Qed.
End refine.
