(* ===== verification/AggQuiet.v ===== *)
(** * What the returned counts mean, and when pending usage is settled

    A log or trace batch that reports no update has left every agent's statistics alone; a
    session whose provider and effort are known leaves nothing of its conversation pending. *)

From S2P Require Import Prelude Float64 Otlp AggValues AggStats AggState AggIngest AggInv AggCodex AggBatch.

Local Open Scope Z_scope.

(** The count only grows, and agents change only when it does. *)
Definition quiet (acc acc' : AggregatorInner * nat) : Prop :=
  (acc.2 <= acc'.2)%nat /\ (acc'.2 = acc.2 -> agents acc'.1 = agents acc.1).

(** The same for an operation that says whether it changed the statistics. *)
Definition quiet_op (g : AggregatorInner) (r : AggregatorInner * bool) : Prop :=
  r.2 = false -> agents r.1 = agents g.

(** * Lemmas *)

#[export] Instance quiet_preorder : PreOrder quiet.
Proof.
  split; [by split|]. intros [g1 n1] [g2 n2] [g3 n3] [H1 E1] [H2 E2]. unfold quiet in *. simpl in *.
  split; [lia|]. intros ->. assert (n2 = n1) as -> by lia. by rewrite E2, E1.
Qed.

Lemma quiet_count g n r : quiet_op g r -> quiet (g, n) (r.1, count_if n r.2).
Proof.
  destruct r as [g' []]; unfold quiet, quiet_op; simpl; [split; lia|].
  intros Hr. by split; [|intros _; apply Hr].
Qed.

Lemma quiet_loop {A : Type} (f : AggregatorInner * nat -> A -> AggregatorInner * nat) acc l :
  (forall acc a, quiet acc (f acc a)) -> quiet acc (for_each f acc l).
Proof.
  intros Hf. apply (for_each_ind f (quiet acc)); [done|]. intros acc' a _ Hacc. by etrans.
Qed.

Section world.
Context `{World}.

Lemma merge_pending_quiet provider effort confirmed l acc g0 :
  (acc.2 = false -> agents acc.1.1 = agents g0) ->
  let r := for_each (merge_pending_entry provider effort confirmed) acc l in
  r.2 = false -> agents r.1.1 = agents g0.
Proof.
  intros Hacc. simpl. apply (for_each_ind _
    (fun acc => acc.2 = false -> agents acc.1.1 = agents g0)); [done|].
  intros [[g kept] moved] [b s] _ Hs. simpl in *. by case_bool_decide.
Qed.

Lemma merge_codex_quiet g provider model cid effort confirmed :
  quiet_op g (merge_codex_pending_sse g provider model cid effort confirmed).
Proof.
  unfold quiet_op, merge_codex_pending_sse. destruct (negb (str_is_empty cid)).
  - destruct (codex_pending_sse g !! cid) as [entries|]; [|done].
    set (g0 := set_pending g _). set (l := btree_entries _ _).
    pose proof (merge_pending_quiet provider effort confirmed l (g0, ∅, false) g) as Hloop.
    destruct (for_each _ _ l) as [[g' kept] moved]. simpl in *.
    intros ->. by case_bool_decide; apply Hloop.
  - by repeat case_match.
Qed.

Lemma update_codex_session_quiet g service session update_last :
  quiet_op g (update_codex_session_with_last g service session update_last).
Proof.
  unfold update_codex_session_with_last. intros Hr.
  rewrite merge_codex_quiet by done. by repeat case_match.
Qed.

Lemma update_codex_effort_quiet g service attrs :
  quiet_op g (update_codex_effort_from_request_attrs g service attrs).
Proof.
  unfold update_codex_effort_from_request_attrs, update_codex_last_effort.
  destruct (string_attr attrs "codex.request.reasoning_effort"); [|done].
  destruct (str_is_empty _); [done|].
  destruct (match string_attr attrs "conversation.id" with Some _ => _ | None => _ end);
    [apply update_codex_session_quiet|].
  destruct (String.eqb _ _); [done|]. destruct (str_is_empty _); [|done].
  intros Hr. by rewrite merge_codex_quiet.
Qed.

Lemma ingest_codex_sse_quiet g parsed : quiet_op g (ingest_codex_sse g parsed).
Proof. unfold quiet_op, ingest_codex_sse. by case_bool_decide. Qed.

(** Unpack the pair a step returns. *)
Ltac unpack_quiet n lem :=
  let H := fresh in pose proof (quiet_count _ n _ lem) as H;
  match type of H with quiet _ (?t.1, _) => destruct t end; simpl in *.

Lemma session_step_quiet g n service (session : option CodexSession) :
  quiet (g, n)
    (match session with
     | Some session =>
         let '(g, moved) := update_codex_session g service session in (g, count_if n moved)
     | None => (g, n)
     end).
Proof.
  destruct session as [session|]; [|done]. unfold update_codex_session.
  by unpack_quiet n (update_codex_session_quiet g service session true).
Qed.

Lemma ingest_log_record_quiet service acc log : quiet acc (ingest_log_record service acc log).
Proof.
  destruct acc as [g n]. simpl.
  destruct (if String.eqb _ _ then _ else None) as [[[b s] u]|]; [split; simpl; lia|].
  destruct (is_codex_service service); [|done].
  pose proof (session_step_quiet g n service (extract_codex_conversation_starts log)) as Hs.
  destruct (match extract_codex_conversation_starts log with Some _ => _ | None => _ end)
    as [g' n'].
  destruct (extract_codex_sse_response_completed g' service log) as [parsed|]; [|done].
  unpack_quiet n' (ingest_codex_sse_quiet g' parsed). by etrans.
Qed.

Lemma ingest_span_quiet service acc span : quiet acc (ingest_span service acc span).
Proof.
  unfold ingest_span.
  assert (quiet acc (for_each (ingest_span_event service) acc (span_events span))) as Hev.
  { apply quiet_loop. intros [g n] ev. simpl. destruct (otel_event_matches _ _ _); [|done].
    apply (session_step_quiet g n service (extract_session_from_attrs (ev_attributes ev))). }
  destruct (for_each _ acc _) as [g n]. destruct (String.eqb _ _); [|done].
  unpack_quiet n (update_codex_effort_quiet g service (span_attributes span)). by etrans.
Qed.

Lemma ingest_logs_quiet g req : quiet (g, 0%nat) (ingest_logs g req).
Proof.
  apply quiet_loop. intros acc rl. apply quiet_loop. intros acc' sl.
  apply quiet_loop. intros. apply ingest_log_record_quiet.
Qed.

Lemma ingest_traces_quiet g req : quiet (g, 0%nat) (ingest_traces g req).
Proof.
  unfold ingest_traces. destruct (negb _); [done|].
  apply quiet_loop. intros acc rs. destruct (negb _); [done|].
  apply quiet_loop. intros acc' ss. apply quiet_loop. intros. apply ingest_span_quiet.
Qed.

(** ** Settled conversations *)

(** Where a session with [effort] puts the usage of a bucket. *)
Definition settled (provider effort : string) (from : Bucket) : Bucket :=
  from_parts provider (model from)
    (if String.eqb (AggStats.effort from) UNKNOWN then effort else AggStats.effort from).

Lemma settled_known provider effort from :
  bucket_wf from -> effort <> "" -> effort <> UNKNOWN ->
  AggStats.effort (settled provider effort from) <> UNKNOWN.
Proof.
  intros (_ & _ & Hf) He Hu. unfold settled. simpl.
  destruct (String.eqb_spec (AggStats.effort from) UNKNOWN); by rewrite non_empty_id.
Qed.

Lemma merge_entry_settled provider effort g moved from p :
  bucket_wf from -> effort <> "" -> effort <> UNKNOWN ->
  exists moved', merge_pending_entry provider effort true (g, ∅, moved) (from, p) =
    (if decide (from = settled provider effort from) then g
     else move_codex_bucket_stats g from (settled provider effort from) p, ∅, moved').
Proof.
  intros Hf He Hu. pose proof (settled_known provider effort from Hf He Hu) as Hk.
  unfold merge_pending_entry. rewrite (non_empty_id effort He).
  change (from_parts provider (model from) _) with (settled provider effort from).
  assert (String.eqb (AggStats.effort (settled provider effort from)) UNKNOWN = false) as ->
    by by apply String.eqb_neq.
  simpl. case_bool_decide as E; destruct (decide _) as [E'|E']; try done; by eexists.
Qed.

(** The loop empties every bucket of what was pending in it, into its settled bucket. *)
Lemma merge_loop_settled v provider effort l g moved :
  v <= u64_max -> entries_wf l -> effort <> "" -> effort <> UNKNOWN ->
  MergeInv v l (g, ∅, moved) ->
  let r := for_each (merge_pending_entry provider effort true) (g, ∅, moved) l in
  r.1.2 = ∅ /\
  total (agent_of r.1.1 AGENT_CODEX) = total (agent_of g AGENT_CODEX) /\
  forall c b, bucket_val c (codex_buckets r.1.1) b =
    bucket_val c (codex_buckets g) b - list_val c l b
    + list_val c (map (fun e => (settled provider effort e.1, e.2)) l) b.
Proof.
  intros Hv Hl He Hu. simpl. revert g moved. induction l as [|[from p] l IH]; intros g moved HM.
  { simpl. split_and!; [done..|]. intros c b. lia. }
  pose proof (merge_pending_entry_inv v provider effort true (from, p) l _ Hv Hl HM) as HM'.
  apply Forall_cons in Hl as [[Hf Hp] Hl].
  destruct (merge_entry_settled provider effort g moved from p Hf He Hu) as [moved' E].
  change (for_each ?f ?s ((from, p) :: l)) with (for_each f (f s (from, p)) l).
  rewrite E in *. set (to := settled provider effort from) in *.
  set (g' := if decide _ then _ else _) in *.
  destruct (IH Hl g' moved' HM') as (Hk & Ht & Hval).
  destruct HM as [(Ha & _ & Hpw & Hle) _]. simpl in Ha, Hpw, Hle.
  assert (forall c, get c p <= bucket_val c (codex_buckets g) from) as Hsub.
  { intros c. specialize (Hle c from). pose proof (pending_val_nonneg c _ from Hpw).
    pose proof (list_val_nonneg c l from Hl). unfold at_bucket in Hle.
    rewrite usage_val_empty, decide_True in Hle by done. lia. }
  assert (total (agent_of g' AGENT_CODEX) = total (agent_of g AGENT_CODEX) /\
    forall c b, bucket_val c (codex_buckets g') b = bucket_val c (codex_buckets g) b
      - at_bucket from p c b + at_bucket to p c b) as [Ht' Hval'].
  { unfold g'. destruct (decide (from = to)) as [<-|Hne]; [split; [done|intros; lia]|].
    unfold move_codex_bucket_stats. destruct (agents g !! AGENT_CODEX) as [a|] eqn:Ea.
    - pose proof (agent_of_some _ _ _ Ea) as Eag. unfold codex_buckets in *.
      rewrite agent_of_set, Eag in *.
      destruct (decide (AGENT_CODEX = AGENT_CODEX)) as [_|]; [|done]. split; [done|].
      intros c b. rewrite (bucket_val_move v); [done| |done..|apply Hsub].
      rewrite <-Eag. apply Ha.
    - split; [done|]. intros c b. specialize (Hsub c). unfold codex_buckets in Hsub.
      rewrite (agent_of_none _ _ Ea) in Hsub. simpl in Hsub. rewrite bucket_val_empty in Hsub.
      pose proof (get_nonneg c p (proj1 Hp)). unfold at_bucket. repeat case_decide; lia. }
  split_and!; [done|by rewrite Ht|]. intros c b. rewrite Hval, Hval'. simpl.
  fold to. lia.
Qed.
End world.
