(* ===== verification/AggMerge.v ===== *)
(** * Merging a bare model name into its full name, bucket by bucket

    [merge_bare_into_full] visits the keys it collected and rewrites the map under them.  Here
    is what is left in every bucket afterwards. *)

From S2P Require Import Prelude Float64 AggValues AggStats AggState AggInv.

Local Open Scope Z_scope.

(** The bucket of [b] under another model. *)
Definition with_model (b : Bucket) (m : string) : Bucket := mkBucket (provider b) m (effort b).

Definition is_anthropic (b : Bucket) (m : string) : Prop :=
  provider b = PROVIDER_ANTHROPIC /\ model b = m.

#[export] Instance is_anthropic_dec b m : Decision (is_anthropic b m).
Proof. unfold is_anthropic. apply _. Defined.

(** * Lemmas *)

Lemma buckets_keyed_lookup m b bs :
  buckets_keyed m -> m !! bucket_key b = Some bs -> bs_bucket bs = b.
Proof. intros Hm E. symmetry. apply bucket_key_inj. by apply Hm. Qed.

Lemma bucket_two_le_sum c m b1 b2 :
  buckets_wf m -> b1 <> b2 -> bucket_val c m b1 + bucket_val c m b2 <= map_sum (bs_get c) m.
Proof.
  intros Hm Hne. pose proof (bucket_val_le_sum c _ b1 (delete_wf m (bucket_key b2) Hm)) as Hle.
  rewrite map_sum_delete in Hle. unfold bucket_val in *.
  rewrite map_val_delete_ne in Hle by (intros EK%bucket_key_inj; congruence). lia.
Qed.

(** One visited key moves its bucket, whole, under the full name. *)
Lemma merge_one_exact v t m full bare B c b :
  AgentInv v (mkAgent t m) -> v <= u64_max -> full <> "" -> bare <> full ->
  is_anthropic B bare ->
  bucket_val c (merge_one full m (bucket_key B)) b =
    if decide (b = B) then 0
    else bucket_val c m b + (if decide (b = with_model B full) then bucket_val c m B else 0).
Proof.
  intros Ha Hv Hfull Hne [Hp Hmodel]. pose proof (merge_one_inv v full _ (bucket_key B) Ha Hv) as Ha'.
  unfold merge_one in *. simpl in *. destruct (m !! bucket_key B) as [bs|] eqn:E; cycle 1.
  { assert (bucket_val c m B = 0) as HB by by unfold bucket_val; apply map_val_None.
    destruct (decide (b = B)) as [->|]; [done|]. case_decide; lia. }
  destruct (proj2 (ai_buckets _ _ Ha) _ _ E) as [Hs Hwf]. simpl in *.
  pose proof (buckets_keyed_lookup _ _ _ (proj1 (ai_buckets _ _ Ha)) E) as HB.
  assert (from_parts (bs_provider bs) full (bs_effort bs) = with_model B full) as HT.
  { rewrite <-HB in *. destruct Hwf as (? & _ & ?). unfold from_parts, with_model. simpl in *.
    by rewrite !non_empty_id. }
  rewrite HT in *. assert (with_model B full <> B) as HneB.
  { intros EB. apply (f_equal model) in EB. simpl in EB. congruence. }
  assert (bucket_val c m B = get c (bs_stats bs)) as Hval.
  { unfold bucket_val. by rewrite (map_val_Some _ _ _ _ E). }
  assert (forall b', b' <> B -> bucket_val c (delete (bucket_key B) m) b' = bucket_val c m b') as Hdel.
  { intros b' Hb'. apply map_val_delete_ne. intros EK%bucket_key_inj. congruence. }
  destruct (decide (b = B)) as [->|Hb].
  { rewrite bucket_val_add_ne by done. apply map_val_delete_eq. }
  destruct (decide (b = with_model B full)) as [->|HbT].
  - rewrite bucket_val_add_eq, Hdel, Hval by done.
    pose proof (bucket_two_le_sum c m _ _ (ai_buckets _ _ Ha) HneB) as Htwo.
    pose proof (ai_sum _ _ Ha c). pose proof (ai_bound _ _ Ha c). simpl in *.
    rewrite sat_add_exact by lia. lia.
  - rewrite bucket_val_add_ne, Hdel by congruence. lia.
Qed.

(** The loop over distinct keys of bare buckets. *)
Lemma merge_loop_exact v t full bare c l m :
  AgentInv v (mkAgent t m) -> v <= u64_max -> full <> "" -> bare <> full ->
  NoDup l -> Forall (fun k => exists B, is_anthropic B bare /\ k = bucket_key B) l ->
  forall b, bucket_val c (for_each (merge_one full) m l) b =
    (if decide (bucket_key b ∈ l) then 0 else bucket_val c m b)
    + (if decide (is_anthropic b full /\ bucket_key (with_model b bare) ∈ l)
       then bucket_val c m (with_model b bare) else 0).
Proof.
  intros Ha Hv Hfull Hne Hnd Hl. revert m Ha Hnd.
  induction Hl as [|k l (B & HB & ->) Hl IH]; intros m Ha Hnd b.
  { rewrite decide_False by apply not_elem_of_nil.
    rewrite decide_False by (intros [_ H]; by apply not_elem_of_nil in H).
    unfold for_each. simpl. lia. }
  apply NoDup_cons in Hnd as [Hnin Hnd].
  change (for_each ?f m (?k :: l)) with (for_each f (f m k) l).
  rewrite IH; [|by apply (merge_one_inv v full (mkAgent t m))|done].
  assert (forall b', bucket_key b' ∈ bucket_key B :: l <-> b' = B \/ bucket_key b' ∈ l) as Hin.
  { intros b'. rewrite elem_of_cons. split; [intros [E%bucket_key_inj|]; auto|].
    intros [->|]; auto. }
  rewrite !(merge_one_exact v t m full bare B) by done. destruct HB as [Hp Hm].
  assert (forall b', bucket_key b' ∈ l -> model b' = bare) as Hbare.
  { intros b' Hb'. rewrite Forall_forall in Hl. destruct (Hl _ Hb') as (B' & [_ E] & EK).
    apply bucket_key_inj in EK. by subst. }
  assert (with_model B full <> B) as HneB
    by (intros EB; apply (f_equal model) in EB; simpl in EB; congruence).
  assert (forall b', is_anthropic b' full -> (with_model b' bare = B <-> b' = with_model B full))
    as Hwith.
  { intros [p m' e] [E1 E2]. destruct B as [p' m2 e']. unfold with_model. simpl in *.
    split; intros [= ?]; subst; done. }
  assert (forall b', with_model b' bare <> with_model B full) as Hwne.
  { intros b' EB. apply (f_equal model) in EB. simpl in EB. congruence. }
  assert (bucket_key (with_model B full) ∉ l) as HTl.
  { intros HT. apply Hbare in HT. simpl in HT. congruence. }
  assert (is_anthropic (with_model B full) full) as HTa by by split.
  assert (with_model (with_model B full) bare = B) as HTB by by apply Hwith.
  destruct (decide (b = B)) as [->|Hb].
  - rewrite (decide_True (P := bucket_key B ∈ bucket_key B :: l)) by by left.
    rewrite decide_False by done.
    rewrite decide_False by (intros [[_ E] _]; congruence).
    rewrite decide_False by (intros [[_ E] _]; congruence). lia.
  - assert ((bucket_key b ∈ bucket_key B :: l) <-> bucket_key b ∈ l) as Hbl
      by (rewrite Hin; naive_solver).
    rewrite (decide_ext _ _ _ _ Hbl). destruct (decide (b = with_model B full)) as [->|HbT].
    + rewrite !(decide_False (P := bucket_key (with_model B full) ∈ l)) by done.
      rewrite HTB. rewrite (decide_True (P := _ /\ _ ∈ _ :: _)) by (split; [done|by left]).
      rewrite (decide_False (P := _ /\ _)) by (intros [_ ?]; done). lia.
    + destruct (decide (is_anthropic b full)) as [Hbf|Hbf].
      * assert (with_model b bare <> B) as Hwb by (rewrite Hwith by done; done).
        assert ((is_anthropic b full /\ bucket_key (with_model b bare) ∈ bucket_key B :: l) <->
          (is_anthropic b full /\ bucket_key (with_model b bare) ∈ l)) as Hw
          by (rewrite Hin; naive_solver).
        rewrite (decide_ext _ _ _ _ Hw).
        rewrite (decide_False (P := with_model b bare = B)) by done.
        rewrite (decide_False (P := with_model b bare = with_model B full)) by done.
        repeat case_decide; lia.
      * rewrite !(decide_False (P := is_anthropic b full /\ _)) by naive_solver.
        repeat case_decide; lia.
Qed.

Lemma bare_bucket_keys_NoDup m bare : NoDup (bare_bucket_keys m bare).
Proof.
  unfold bare_bucket_keys.
  assert (forall (A : Type) (p : string * A -> bool) l, NoDup l.*1 -> NoDup (take_while p l).*1) as Htw.
  { intros A p l. induction l as [|[k a] l IH]; intros Hnd; [done|].
    apply NoDup_cons in Hnd as [Hk Hnd]. cbn [take_while]. destruct (p _); [|constructor].
    constructor; [|by apply IH]. intros Hin. apply Hk. simpl. clear -Hin.
    induction l as [|b l IH]; [done|]. cbn [take_while] in Hin.
    destruct (p b); [|by apply not_elem_of_nil in Hin].
    apply elem_of_cons. apply elem_of_cons in Hin as [E|Hin]; [by left|right; auto]. }
  apply Htw. pose proof (NoDup_btree_entries str_le m) as Hnd. revert Hnd.
  generalize (btree_entries str_le m). intros l. induction l as [|[k a] l IH]; intros Hnd; [done|].
  apply NoDup_cons in Hnd as [Hk Hnd]. cbn [List.filter]. case_bool_decide; [|by apply IH].
  constructor; [|by apply IH]. intros ([k' a'] & E & Hin)%list_elem_of_fmap. simpl in *. subst k'.
  apply Hk. apply list_elem_of_fmap. exists (k, a'). split; [done|].
  by apply list_elem_of_In, List.filter_In in Hin as [Hin%list_elem_of_In _].
Qed.

(** The keys collected are those of bare buckets. *)
Lemma bare_keys_are_bare m bare :
  buckets_keyed m ->
  Forall (fun k => exists B, is_anthropic B bare /\ k = bucket_key B) (bare_bucket_keys m bare).
Proof.
  intros Hm. apply Forall_forall. intros k (bs & E & Hp & Hmodel)%elem_of_bare_bucket_keys; [|done].
  exists (bs_bucket bs). split; [done|by apply Hm].
Qed.

(** Every bare bucket that holds anything is collected. *)
Lemma bare_bucket_val c m bare b :
  buckets_keyed m ->
  (if decide (bucket_key b ∈ bare_bucket_keys m bare) then 0 else bucket_val c m b) =
  (if decide (is_anthropic b bare) then 0 else bucket_val c m b).
Proof.
  intros Hm. destruct (decide (is_anthropic b bare)) as [[Hp Hb]|Hb]; case_decide as Hin; try done.
  - unfold bucket_val. apply map_val_None. destruct (m !! bucket_key b) as [bs|] eqn:E; [|done].
    destruct Hin. apply elem_of_bare_bucket_keys; [done|]. exists bs.
    pose proof (buckets_keyed_lookup _ _ _ Hm E) as <-. done.
  - apply elem_of_bare_bucket_keys in Hin as (bs & E & Hbs); [|done].
    destruct Hb. pose proof (buckets_keyed_lookup _ _ _ Hm E) as <-. done.
Qed.
