(* ===== verification/AggBalance.v ===== *)
(** * Costs stay in step with the buckets

    A cost is a double, so the total is not the sum of the buckets but for rounding.  What holds
    exactly is that the two move together: every amount that enters or leaves the total enters
    or leaves one bucket, and a change of names moves a bucket's cost as a whole. *)

From S2P Require Import Prelude Float64 Otlp AggValues AggStats AggState AggIngest AggInv AggBatch AggFrame AggClaude AggCost AggMerge.

Local Open Scope Z_scope.

(** ** Specification *)

(** The cost of an agent and of each of its buckets. *)
Definition bucket_costs (m : gmap string BucketStats) : gmap string f64 :=
  (fun bs => cost_usd (bs_stats bs)) <$> m.
Definition costs (a : AgentStats) : f64 * gmap string f64 := (cost_usd (total a), bucket_costs (buckets a)).

(** One movement of cost. *)
Inductive cost_step : f64 * gmap string f64 -> f64 * gmap string f64 -> Prop :=
| cost_spent k x t m :
    cost_step (t, m) (cost_sum t x, <[k := cost_sum (default f64_zero (m !! k)) x]> m)
| cost_taken_back k x held t m :
    m !! k = Some held -> cost_step (t, m) (cost_difference t x, <[k := cost_difference held x]> m)
| cost_used_up k x held t m :
    m !! k = Some held -> f64_eq (cost_difference held x) f64_zero = true ->
    cost_step (t, m) (cost_difference t x, delete k m)
| cost_renamed k k' held t m :
    m !! k = Some held ->
    cost_step (t, m) (t, <[k' := cost_sum (default f64_zero (delete k m !! k')) held]> (delete k m)).

(** The cost of a bucket, if there is one. *)
Definition bucket_cost (m : gmap string BucketStats) (b : Bucket) : option f64 := bucket_costs m !! bucket_key b.

(** The cost of a bucket, if there is one, with that of another added to it, if there is one. *)
Definition joined (to from : option f64) : option f64 :=
  match from with Some x => Some (cost_sum (default f64_zero to) x) | None => to end.

(** The buckets metrics were counted in are there. *)
Record Held (g : AggregatorInner) : Prop := {
  held_keyed : buckets_keyed (claude_buckets g);
  held_usage : forall k per b s, claude_metric_usage g !! k = Some per -> per !! b = Some s ->
    k = bucket_usage_key b /\ model b ∈ claude_metric_models g /\ is_Some (claude_buckets g !! bucket_key b);
}.

Definition balanced (g g' : AggregatorInner) : Prop :=
  Held g -> Held g' /\ rtc cost_step (costs (agent_of g AGENT_CLAUDE)) (costs (agent_of g' AGENT_CLAUDE)).

(** * Lemmas *)

(** ** One update of an agent *)

Lemma costs_entry_add m b s :
  bucket_costs (bucket_entry_add m b s) =
  <[bucket_key b := cost_sum (default f64_zero (bucket_costs m !! bucket_key b)) (cost_usd s)]> (bucket_costs m).
Proof.
  unfold bucket_entry_add, bucket_costs. rewrite fmap_insert. f_equal. rewrite lookup_fmap. by destruct (m !! bucket_key b).
Qed.

Lemma costs_record a b s : cost_step (costs a) (costs (agent_record a b s)).
Proof. unfold costs. simpl. rewrite costs_entry_add. apply cost_spent. Qed.

Lemma no_value_cost s : has_any_value s = false -> f64_eq (cost_usd s) f64_zero = true.
Proof. unfold has_any_value, has_usage. rewrite !orb_false_iff, !negb_false_iff. tauto. Qed.

Lemma costs_subtract a b s :
  is_Some (buckets a !! bucket_key b) -> cost_step (costs a) (costs (agent_subtract a b s)).
Proof.
  intros [bs E]. unfold costs, agent_subtract. cbn [total buckets]. rewrite cost_subtract. unfold bucket_entry_subtract. rewrite E.
  assert (bucket_costs (buckets a) !! bucket_key b = Some (cost_usd (bs_stats bs))) as Ec
    by (unfold bucket_costs; by rewrite lookup_fmap, E).
  destruct (has_any_value _) eqn:Ev; unfold bucket_costs in *.
  - rewrite fmap_insert. by apply cost_taken_back.
  - rewrite fmap_delete. eapply cost_used_up; [done|]. by apply no_value_cost in Ev.
Qed.

Lemma costs_merge_one t full m k :
  rtc cost_step (t, bucket_costs m) (t, bucket_costs (merge_one full m k)).
Proof.
  unfold merge_one. destruct (m !! k) as [bs|] eqn:E; [|done]. apply rtc_once. rewrite costs_entry_add.
  unfold bucket_costs. rewrite fmap_delete. apply cost_renamed. by rewrite lookup_fmap, E.
Qed.

(** Renaming leaves the buckets of other models there. *)
Lemma merge_balanced a bare full :
  buckets_keyed (buckets a) ->
  let a' := merge_bare_into_full a bare full in
  buckets_keyed (buckets a') /\ rtc cost_step (costs a) (costs a') /\
  forall b, model b <> bare -> is_Some (buckets a !! bucket_key b) -> is_Some (buckets a' !! bucket_key b).
Proof.
  intros Hk. unfold costs, merge_bare_into_full. cbn [total buckets].
  apply (for_each_ind (merge_one full) (fun m => buckets_keyed m /\
    rtc cost_step (cost_usd (total a), bucket_costs (buckets a)) (cost_usd (total a), bucket_costs m) /\
    forall b, model b <> bare -> is_Some (buckets a !! bucket_key b) -> is_Some (m !! bucket_key b))); [done|].
  intros m k Hin (Hm & Hc & Hthere). split_and!.
  - unfold merge_one. destruct (m !! k); [|done]. by apply entry_add_keyed, delete_keyed.
  - etrans; [exact Hc|apply costs_merge_one].
  - intros b Hb Hs. specialize (Hthere b Hb Hs).
    apply elem_of_bare_bucket_keys in Hin as (bs & E & _ & Hmodel); [|done].
    assert (k <> bucket_key b) as Hne by (rewrite (Hk _ _ E); intros ?%bucket_key_inj; by subst b).
    unfold merge_one. destruct (m !! k); [|done]. unfold bucket_entry_add.
    apply lookup_insert_is_Some'. right. by rewrite lookup_delete_ne.
Qed.

(** ** One update of the state *)

#[export] Instance balanced_preorder : PreOrder balanced.
Proof.
  split; [by split|]. intros g1 g2 g3 H12 H23 H1. destruct (H12 H1) as [H2 R12]. destruct (H23 H2) as [H3 R23].
  split; [done|by etrans].
Qed.

Lemma balanced_same g g' :
  agent_of g' AGENT_CLAUDE = agent_of g AGENT_CLAUDE -> claude_metric_usage g' = claude_metric_usage g ->
  claude_metric_models g ⊆ claude_metric_models g' -> balanced g g'.
Proof.
  intros Ea Eu Em [Hk Hu]. unfold claude_buckets in *. split; [|by rewrite Ea]. split; unfold claude_buckets; rewrite ?Ea, ?Eu; [done|].
  intros k per b s Hp Hb. destruct (Hu k per b s Hp Hb) as (? & ? & ?). split_and!; [done|set_solver|done].
Qed.

Section world.
Context `{World}.

Lemma record_claude_agent g b s :
  agent_of (record_into g AGENT_CLAUDE b s) AGENT_CLAUDE = agent_record (agent_of g AGENT_CLAUDE) b s.
Proof. unfold record_into. by rewrite agent_of_set, decide_True. Qed.

Lemma record_balanced g b s : balanced g (record_into g AGENT_CLAUDE b s).
Proof.
  intros [Hk Hu]. rewrite record_claude_agent. split; [|apply rtc_once, costs_record].
  split; unfold claude_buckets; rewrite record_claude_agent; simpl.
  - by apply entry_add_keyed.
  - intros k per b' s' Hp Hb. destruct (Hu k per b' s' Hp Hb) as (? & ? & ?). split_and!; [done..|].
    unfold bucket_entry_add. apply lookup_insert_is_Some'. by right.
Qed.

Lemma subtract_claude_agent g b s :
  is_Some (claude_buckets g !! bucket_key b) ->
  agent_of (subtract_from g AGENT_CLAUDE b s) AGENT_CLAUDE = agent_subtract (agent_of g AGENT_CLAUDE) b s.
Proof.
  intros Hb. unfold subtract_from. destruct (agents g !! AGENT_CLAUDE) as [a|] eqn:E.
  - by rewrite agent_of_set, decide_True, (agent_of_some _ _ _ E).
  - unfold claude_buckets in Hb. rewrite (agent_of_none _ _ E) in Hb. by destruct Hb.
Qed.

Lemma subtract_entry_there m k k' s : k <> k' -> is_Some (m !! k') -> is_Some (bucket_entry_subtract m k s !! k').
Proof.
  intros Hne Hs. unfold bucket_entry_subtract. repeat case_match; [|by rewrite lookup_delete_ne|done].
  apply lookup_insert_is_Some'. by right.
Qed.

(** Buckets that are there, taken back one after the other. *)
Lemma cancel_loop_balanced l g :
  Held g -> NoDup l.*1 -> (forall b s, (b, s) ∈ l -> is_Some (claude_buckets g !! bucket_key b)) ->
  (forall k per b s, claude_metric_usage g !! k = Some per -> per !! b = Some s -> b ∉ l.*1) ->
  let g' := for_each (fun g e => subtract_from g AGENT_CLAUDE e.1 e.2) g l in
  Held g' /\ rtc cost_step (costs (agent_of g AGENT_CLAUDE)) (costs (agent_of g' AGENT_CLAUDE)).
Proof.
  revert g. induction l as [|[b s] l IH]; intros g Hg Hnd Hl Hfree; [done|].
  apply NoDup_cons in Hnd as [Hb Hnd]. change (for_each ?f g (?e :: l)) with (for_each f (f g e) l). cbn [fst snd].
  assert (is_Some (claude_buckets g !! bucket_key b)) as Hthere by (apply (Hl b s); by left).
  pose proof (subtract_claude_agent g b s Hthere) as Ea. destruct (subtract_from_same g AGENT_CLAUDE b s) as (Eu & Em & _).
  assert (forall b', b' <> b -> is_Some (claude_buckets g !! bucket_key b') ->
    is_Some (claude_buckets (subtract_from g AGENT_CLAUDE b s) !! bucket_key b')) as Hstay.
  { intros b' Hne Hs. unfold claude_buckets. rewrite Ea. apply subtract_entry_there; [|done].
    by intros ?%bucket_key_inj. }
  destruct (IH (subtract_from g AGENT_CLAUDE b s)) as [Hg' Hc]; [|done| | |].
  - split; [unfold claude_buckets; rewrite Ea; by apply entry_subtract_keyed, Hg|]. rewrite Eu, Em.
    intros k per b' s' Hp Hb'. destruct (held_usage _ Hg k per b' s' Hp Hb') as (? & ? & ?).
    split_and!; [done..|]. apply Hstay; [|done]. intros ->. apply (Hfree k per b s' Hp Hb'). by left.
  - intros b' s' Hin. apply Hstay; [|apply (Hl b' s'); by right]. intros ->. apply Hb.
    apply list_elem_of_fmap. by exists (b, s').
  - rewrite Eu. intros k per b' s' Hp Hb' Hin. apply (Hfree k per b' s' Hp Hb'). by right.
  - split; [done|]. eapply rtc_l; [|exact Hc]. rewrite Ea. by apply costs_subtract.
Qed.

Lemma cancel_balanced g k : balanced g (cancel_metric_usage g k).
Proof.
  intros Hg. unfold cancel_metric_usage. case_bool_decide; [|done].
  destruct (claude_metric_usage g !! k) as [per|] eqn:E; [|done].
  apply (cancel_loop_balanced _ (set_metric_usage g (delete k (claude_metric_usage g)))).
  - destruct Hg as [Hk Hu]. split; [done|]. intros k' per' b s Hp Hb. simpl in Hp.
    apply lookup_delete_Some in Hp as [_ Hp]. by apply (Hu k' per' b s).
  - apply NoDup_btree_entries.
  - intros b s Hb%elem_of_btree_entries. by apply (held_usage _ Hg k per b s).
  - intros k' per' b s Hp Hb Hin. simpl in Hp. apply lookup_delete_Some in Hp as [Hne Hp].
    apply list_elem_of_fmap in Hin as ([b' s'] & -> & Hin%elem_of_btree_entries).
    destruct (held_usage _ Hg k per b' s' E Hin) as [E1 _].
    destruct (held_usage _ Hg k' per' b' s Hp Hb) as [E2 _]. congruence.
Qed.

Lemma claude_log_balanced g b s : balanced g (record_claude_log_usage g b s).
Proof.
  unfold record_claude_log_usage. destruct (negb _); [done|].
  etrans; [apply cancel_balanced|]. etrans; [apply record_balanced|]. by apply balanced_same.
Qed.

Lemma claude_metric_balanced g b s :
  model b ∈ claude_metric_models g -> balanced g (record_claude_metric_usage g b s).1.
Proof.
  intros Hmodel. unfold record_claude_metric_usage. destruct (negb _); [done|]. case_bool_decide; [done|]. simpl.
  intros Hg. destruct (record_balanced g b s Hg) as [[Hk Hu] Hc]. split; [|exact Hc]. split; [exact Hk|].
  intros k per b' s'. simpl. rewrite lookup_insert. destruct (decide (bucket_usage_key b = k)) as [<-|]; [|apply Hu].
  intros [= <-]. unfold usage_add. rewrite lookup_insert. destruct (decide (b = b')) as [<-|].
  - intros _. split_and!; [done..|]. unfold claude_buckets.
    change (agent_of _ AGENT_CLAUDE) with (agent_of (record_into g AGENT_CLAUDE b s) AGENT_CLAUDE).
    rewrite record_claude_agent. simpl. unfold bucket_entry_add. apply lookup_insert_is_Some'. by left.
  - destruct (claude_metric_usage g !! bucket_usage_key b) as [old|] eqn:E; simpl; [|by rewrite lookup_empty].
    by apply Hu.
Qed.

Lemma register_balanced g full : balanced g (register_canonical_claude_model g full).
Proof.
  unfold register_canonical_claude_model. set (g1 := if str_is_empty full then g else _).
  assert (balanced g g1) as H1 by (unfold g1; destruct (str_is_empty full); [done|]; apply balanced_same; set_solver).
  clearbody g1. etrans; [exact H1|]. set (bare := match split_once _ _ with Some _ => _ | None => _ end).
  destruct (_ || _); [repeat case_match; try done; by apply balanced_same|].
  case_bool_decide as Hbare; [done|]. case_bool_decide; [done|]. cbv zeta.
  etrans; [by apply (balanced_same g1 (set_canonical_models g1 (<[bare:=full]> (claude_canonical_models g1))))|].
  set (g2 := set_canonical_models _ _). destruct (agents g2 !! AGENT_CLAUDE) as [a|] eqn:Ea; [|done].
  intros Hg2. pose proof (agent_of_some _ _ _ Ea) as E. pose proof Hg2 as [Hk Hu]. unfold claude_buckets in *. rewrite E in *.
  destruct (merge_balanced a bare full Hk) as (Hk' & Hc & Hthere). unfold balanced.
  split; [split|]; unfold claude_buckets; rewrite ?agent_of_set, ?decide_True by done; [done| |done].
  simpl. intros k per b s Hp Hb. destruct (Hu k per b s Hp Hb) as (? & Hin & ?). split_and!; [done..|].
  apply Hthere; [|done]. intros Eb. rewrite Eb in Hin. by apply Hbare.
Qed.

#[export] Instance balanced_frame : ClaudeFrame balanced.
Proof.
  split; [split; [split; [apply _|..]|..]|..]; intros *.
  1-3: by apply balanced_same.
  - apply balanced_same; unfold move_codex_bucket_stats; destruct (agents g !! AGENT_CODEX); try done.
    by rewrite agent_of_set, decide_False.
  - apply balanced_same; [|done..]. unfold record_into. by rewrite agent_of_set, decide_False.
  - intros _. by apply balanced_same.
  - apply record_balanced.
  - apply claude_log_balanced.
  - apply claude_metric_balanced.
  - apply register_balanced.
Qed.

Lemma Held_new : Held aggregator_new.
Proof.
  split; [|intros k per b s Hp; simpl in Hp; by rewrite lookup_empty in Hp].
  unfold claude_buckets, agent_of. simpl. rewrite lookup_empty. simpl. intros k bs Hk. by rewrite lookup_empty in Hk.
Qed.
End world.

(** ** Merging names, bucket by bucket *)

Lemma bucket_cost_add m b s b' :
  bucket_cost (bucket_entry_add m b s) b' =
  if decide (b' = b) then joined (bucket_cost m b) (Some (cost_usd s)) else bucket_cost m b'.
Proof.
  unfold bucket_cost. rewrite costs_entry_add, lookup_insert. destruct (decide (b' = b)) as [->|Hne].
  - by rewrite decide_True.
  - rewrite decide_False; [done|]. by intros ?%bucket_key_inj.
Qed.

Lemma bucket_cost_delete m b b' :
  bucket_cost (delete (bucket_key b) m) b' = if decide (b' = b) then None else bucket_cost m b'.
Proof.
  unfold bucket_cost, bucket_costs. rewrite fmap_delete. destruct (decide (b' = b)) as [->|Hne].
  - apply lookup_delete_eq.
  - rewrite lookup_delete_ne; [done|]. by intros ?%bucket_key_inj.
Qed.

Lemma bucket_cost_None m b : bucket_cost m b = None <-> m !! bucket_key b = None.
Proof. unfold bucket_cost, bucket_costs. rewrite lookup_fmap. by destruct (m !! bucket_key b). Qed.

Lemma merge_one_wf full m k : buckets_wf m -> buckets_wf (merge_one full m k).
Proof.
  intros Hm. unfold merge_one. destruct (m !! k) as [bs|] eqn:E; [|done].
  apply entry_add_wf; [by apply delete_wf|apply from_parts_wf|]. by destruct (proj2 Hm _ _ E).
Qed.

Lemma merge_one_cost m full bare B b :
  buckets_wf m -> full <> "" -> bare <> full -> is_anthropic B bare ->
  bucket_cost (merge_one full m (bucket_key B)) b =
    if decide (b = B) then None
    else if decide (b = with_model B full) then joined (bucket_cost m b) (bucket_cost m B) else bucket_cost m b.
Proof.
  intros Hm Hfull Hne [Hp Hmodel]. unfold merge_one. destruct (m !! bucket_key B) as [bs|] eqn:E; cycle 1.
  { apply bucket_cost_None in E. destruct (decide (b = B)) as [->|]; [done|]. rewrite E. by case_decide. }
  destruct (proj2 Hm _ _ E) as [_ Hwf]. pose proof (buckets_keyed_lookup _ _ _ (proj1 Hm) E) as HB.
  assert (from_parts (bs_provider bs) full (bs_effort bs) = with_model B full) as ->.
  { rewrite <-HB in *. destruct Hwf as (? & _ & ?). unfold from_parts, with_model. simpl in *.
    by rewrite !non_empty_id. }
  assert (with_model B full <> B) as HneB.
  { intros EB. apply (f_equal model) in EB. simpl in EB. congruence. }
  assert (bucket_cost m B = Some (cost_usd (bs_stats bs))) as Hc
    by (unfold bucket_cost, bucket_costs; by rewrite lookup_fmap, E).
  rewrite bucket_cost_add, !bucket_cost_delete, Hc. repeat case_decide; subst; try done; congruence.
Qed.

(** The loop over distinct keys of bare buckets. *)
Lemma merge_loop_cost full bare l m :
  buckets_wf m -> full <> "" -> bare <> full ->
  NoDup l -> Forall (fun k => exists B, is_anthropic B bare /\ k = bucket_key B) l ->
  forall b, bucket_cost (for_each (merge_one full) m l) b =
    if decide (bucket_key b ∈ l) then None
    else joined (bucket_cost m b)
      (if decide (is_anthropic b full /\ bucket_key (with_model b bare) ∈ l)
       then bucket_cost m (with_model b bare) else None).
Proof.
  intros Hm Hfull Hne Hnd Hl. revert m Hm Hnd.
  induction Hl as [|k l (B & HB & ->) Hl IH]; intros m Hm Hnd b.
  { rewrite decide_False by apply not_elem_of_nil.
    by rewrite decide_False by (intros [_ H]; by apply not_elem_of_nil in H). }
  apply NoDup_cons in Hnd as [Hnin Hnd]. change (for_each ?f m (?k :: l)) with (for_each f (f m k) l).
  rewrite IH by (done || by apply merge_one_wf). rewrite !(merge_one_cost m full bare B) by done.
  assert (forall b', bucket_key b' ∈ bucket_key B :: l <-> b' = B \/ bucket_key b' ∈ l) as Hin.
  { intros b'. rewrite elem_of_cons. split; [intros [E%bucket_key_inj|]; auto|]. intros [->|]; auto. }
  rewrite (decide_ext _ _ _ _ (Hin b)).
  assert (is_anthropic b full /\ bucket_key (with_model b bare) ∈ bucket_key B :: l <->
    is_anthropic b full /\ (with_model b bare = B \/ bucket_key (with_model b bare) ∈ l)) as Hcond
    by by rewrite Hin.
  rewrite (decide_ext _ _ _ _ Hcond). clear Hcond Hin IH.
  assert (bucket_key (with_model B full) ∉ l) as HTl.
  { intros HT. rewrite Forall_forall in Hl. destruct (Hl _ HT) as (B' & [_ E] & EK).
    apply bucket_key_inj in EK as <-. simpl in E. congruence. }
  destruct HB as [Hp Hmodel]. destruct (decide (b = B)) as [->|Hb].
  { rewrite !(decide_False (P := bucket_key B ∈ l)), !(decide_True (P := _ \/ _)) by auto.
    by rewrite decide_False by (intros [[_ E] _]; congruence). }
  destruct (decide (bucket_key b ∈ l)) as [Hbl|Hbl]; [by rewrite decide_True by auto|].
  rewrite (decide_False (P := _ \/ _)) by naive_solver.
  destruct (decide (b = with_model B full)) as [->|HbT].
  - assert (with_model (with_model B full) bare = B) as -> by (destruct B; simpl in *; by subst).
    rewrite (decide_False (P := _ /\ bucket_key B ∈ l)) by (intros [_ ?]; done).
    by rewrite decide_True by (split; [done|by left]).
  - f_equal. destruct (decide (is_anthropic b full)) as [Hbf|Hbf].
    + assert (with_model b bare <> B) as Hwb.
      { intros <-. apply HbT. destruct b as [p m' e], Hbf as [? Em]. simpl in *. by subst. }
      assert (with_model b bare <> with_model B full) as Hwf
        by (intros EB; apply (f_equal model) in EB; simpl in EB; congruence).
      rewrite (decide_False (P := with_model b bare = B)), (decide_False (P := with_model b bare = _)) by done.
      repeat case_decide; naive_solver.
    + rewrite !(decide_False (P := is_anthropic b full /\ _)) by naive_solver. done.
Qed.

(** The costs a merge leaves. *)
Lemma merge_bare_costs m bare full b :
  buckets_wf m -> full <> "" -> bare <> full ->
  bucket_cost (for_each (merge_one full) m (bare_bucket_keys m bare)) b =
    if decide (is_anthropic b bare) then None
    else if decide (is_anthropic b full) then joined (bucket_cost m b) (bucket_cost m (with_model b bare))
    else bucket_cost m b.
Proof.
  intros Hm Hfull Hne. pose proof (proj1 Hm) as Hk.
  rewrite (merge_loop_cost full bare) by (done || apply bare_bucket_keys_NoDup || by apply bare_keys_are_bare).
  assert (forall b', bucket_key b' ∈ bare_bucket_keys m bare <->
    is_anthropic b' bare /\ bucket_cost m b' <> None) as Hin.
  { intros b'. rewrite elem_of_bare_bucket_keys by done. rewrite bucket_cost_None. split.
    - intros (bs & E & Hbs). rewrite E. pose proof (buckets_keyed_lookup _ _ _ Hk E) as <-. done.
    - intros [Hb' Hs]. destruct (m !! bucket_key b') as [bs|] eqn:E; [|done]. exists bs.
      pose proof (buckets_keyed_lookup _ _ _ Hk E) as <-. done. }
  rewrite (decide_ext _ _ _ _ (Hin b)).
  assert (is_anthropic b full /\ bucket_key (with_model b bare) ∈ bare_bucket_keys m bare <->
    is_anthropic b full /\ bucket_cost m (with_model b bare) <> None) as Hcond.
  { rewrite Hin. split; [naive_solver|]. intros [[? ?] ?]. by split_and!. }
  rewrite (decide_ext _ _ _ _ Hcond).
  destruct (decide (is_anthropic b bare)) as [[Hp Hb]|Hb].
  - case_decide as Hc; [done|]. rewrite decide_False by (intros [[_ E] _]; congruence). simpl.
    destruct (bucket_cost m b) eqn:E; [|done]. by destruct Hc.
  - rewrite decide_False by naive_solver. destruct (decide (is_anthropic b full)) as [Hf|Hf].
    + destruct (bucket_cost m (with_model b bare)) eqn:E; by case_decide; naive_solver.
    + by rewrite decide_False by naive_solver.
Qed.
