(* ===== verification/Aggregator.v ===== *)
(** * What the aggregator guarantees ([src/src/aggregator.rs])

    The theorems about whole batches of telemetry, from the states reachable by ingesting
    them, and about the operations that decide where usage is counted. *)

From Stdlib Require Import Ascii.
From S2P Require Import Prelude Float64 Otlp AggValues AggStats AggState AggIngest AggInv AggCodex AggBatch AggFrame AggSources AggClaude AggCost AggRefine AggQuiet AggMerge AggBalance.

Local Open Scope Z_scope.

(** ** Reading a bucket key *)

(** The bucket a key stands for: its three components, unescaped. *)
Definition parse_bucket_key (key : string) : option Bucket :=
  '(p, rest) ← split_once "/" key;
  '(m, e) ← split_once "/" rest;
  Some (mkBucket (unescape p) (unescape m) (unescape e)).


(** Every agent keeps its totals. *)
Definition same_totals (g g' : AggregatorInner) : Prop :=
  forall agent, total (agent_of g' agent) = total (agent_of g agent).

(** ** Sample telemetry *)

Definition text_attr (k v : string) : KeyValue :=
  MkKeyValue k (Some (MkAnyValue (Some (StringValue v)))).
Definition number_attr (k : string) (i : Z) : KeyValue :=
  MkKeyValue k (Some (MkAnyValue (Some (IntValue i)))).
Definition service_resource (s : string) : option Resource :=
  Some {| resource_attributes := [text_attr "service.name" s] |}.

Definition sample_log (service : string) (attrs : list KeyValue) (body : string) : batch :=
  BLogs {| resource_logs := [{|
    rl_resource := service_resource service;
    rl_scope_logs := [{| sl_scope := None; sl_log_records := [{|
      log_time_unix_nano := 0; log_severity_number := 0; log_severity_text := "";
      log_body := Some (MkAnyValue (Some (StringValue body)));
      log_attributes := attrs; log_event_name := "" |}] |}] |}] |}.

Definition sample_token_metric (attrs : list KeyValue) (n : Z) : batch :=
  BMetrics {| resource_metrics := [{|
    rm_resource := service_resource SERVICE_CLAUDE;
    rm_scope_metrics := [{| sm_scope := None; sm_metrics := [{|
      metric_name := "claude_code.token.usage"; metric_description := ""; metric_unit := "";
      metric_data := Some (Sum [{| ndp_attributes := attrs; ndp_flags := 0;
        ndp_value := Some (AsInt n) |}] 1) |}] |}] |}] |}.

Definition sample_cost_metric (attrs : list KeyValue) (x : f64) : batch :=
  BMetrics {| resource_metrics := [{|
    rm_resource := service_resource SERVICE_CLAUDE;
    rm_scope_metrics := [{| sm_scope := None; sm_metrics := [{|
      metric_name := "claude_code.cost.usage"; metric_description := ""; metric_unit := "";
      metric_data := Some (Sum [{| ndp_attributes := attrs; ndp_flags := 0;
        ndp_value := Some (AsDouble x) |}] 1) |}] |}] |}] |}.

(** Metrics report 7 input tokens and 0.1 dollars for a model, then a log reports 10 and 0.3 for the
    same model: only the log counts. *)
Definition sample_batches : list batch := [
  sample_token_metric [text_attr "model" "m[1m]"; text_attr "type" "input"] 7;
  sample_cost_metric [text_attr "model" "m[1m]"] (f64_of_decimal 1 (-1));
  sample_log SERVICE_CLAUDE [text_attr "model" "m"; number_attr "input_tokens" 10;
    number_attr "duration_ms" 5; text_attr "cost_usd" "0.3"] "claude_code.api_request"].

(** A completion log that waits for its conversation, then a trace that tells its effort. *)
Definition sample_completion : batch :=
  sample_log SERVICE_CODEX_TUI [text_attr "event.name" "codex.sse_event";
    text_attr "event.kind" "response.completed"; text_attr "conversation.id" "c1";
    text_attr "model" "gpt"; number_attr "input_token_count" 3] "".

Definition sample_effort_trace : batch :=
  BTraces {| resource_spans := [{|
    rs_resource := service_resource SERVICE_CODEX_TUI;
    rs_scope_spans := [{| ss_scope := None; ss_spans := [{|
      span_trace_id := []; span_id := []; span_name := "handle_responses";
      span_start_time_unix_nano := 0; span_end_time_unix_nano := 0;
      span_attributes := [text_attr "codex.request.reasoning_effort" "high";
        text_attr "conversation.id" "c1"];
      span_events := []; span_status_code := None |}] |}] |}] |}.


Definition sample_waiting : AggregatorInner :=
  @ingest_all sample_world (@aggregator_new sample_world) [sample_completion].
Definition sample_pending : gmap Bucket ModelStats :=
  {[ mkBucket "OpenAI" "gpt" "unknown" := mkStats 0 3 0 0 0 0 f64_zero 0 ]}.

(** * Lemmas *)

Lemma sample_batches_wf : Forall batch_wf sample_batches.
Proof.
  repeat constructor; simpl; intros; simplify_eq/=; unfold is_i64, i64_min, i64_max; try done; lia.
Qed.

Lemma sample_completion_wf : Forall batch_wf [sample_completion; sample_effort_trace].
Proof.
  repeat constructor; simpl; intros; simplify_eq/=; unfold is_i64, i64_min, i64_max; try done; lia.
Qed.

#[export] Instance same_totals_frame : SessionFrame same_totals.
Proof.
  split; try done.
  - split; [done|]. intros g1 g2 g3 H1 H2 agent. by rewrite H2.
  - intros g from to s agent. unfold move_codex_bucket_stats.
    destruct (agents g !! AGENT_CODEX) as [a|] eqn:E; [|done].
    rewrite agent_of_set. destruct (decide _) as [<-|]; [|done].
    by rewrite (agent_of_some _ _ _ E).
Qed.

Section reach.
Context `{World}.

Lemma reachable_inv bs :
  Forall batch_wf bs -> sum_by batch_volume bs <= u64_max ->
  Inv (sum_by batch_volume bs) (ingest_all aggregator_new bs).
Proof. intros Hwf Hv. by apply (ingest_all_inv 0); [|apply aggregator_new_inv|]. Qed.
End reach.

(** ** Points without a recorded value *)

(** A step that neither counts nor changes a total. *)
Definition idle (acc acc' : AggregatorInner * nat) : Prop :=
  acc'.2 = acc.2 /\ same_totals acc.1 acc'.1.

Lemma idle_loop {A : Type} (f : AggregatorInner * nat -> A -> AggregatorInner * nat) g l :
  (forall acc a, a ∈ l -> idle acc (f acc a)) ->
  (for_each f (g, 0%nat) l).2 = 0%nat /\ same_totals g (for_each f (g, 0%nat) l).1.
Proof.
  intros Hf. apply (for_each_ind f (fun acc => acc.2 = 0%nat /\ same_totals g acc.1)); [done|].
  intros acc a Ha [Hn Hg]. destruct (Hf acc a Ha) as [Hn' Hg']. split; [congruence|by etrans].
Qed.

Lemma register_totals g full : same_totals g (register_canonical_claude_model g full).
Proof.
  unfold register_canonical_claude_model. set (g1 := if str_is_empty full then g else _).
  assert (same_totals g g1) as Hg1 by (unfold g1; by destruct (str_is_empty full)).
  clearbody g1. repeat (case_match; try exact Hg1).
  all: simpl in *; intros agent; rewrite <-(Hg1 agent).
  all: match goal with E : agents ?g1 !! AGENT_CLAUDE = Some _ |- _ =>
    apply agent_of_some in E as <- end.
  all: unfold agent_of at 1; simpl; rewrite lookup_insert; by destruct (decide _) as [<-|].
Qed.

Section unrecorded.
Context `{WireValues}.

Lemma unrecorded_flag fl : Z.odd fl = true -> no_recorded_value fl = true.
Proof.
  intros Hodd. unfold no_recorded_value. rewrite wire_no_recorded_value.
  by destruct fl as [|[]|[]].
Qed.

Lemma unrecorded_number dp :
  Z.odd (ndp_flags dp) = true ->
  number_value_as_u64 dp = 0 /\ number_value_as_f64 dp = f64_zero.
Proof.
  intros Hodd. unfold number_value_as_u64, number_value_as_f64. by rewrite unrecorded_flag.
Qed.

Lemma unrecorded_histogram dp : Z.odd (hdp_flags dp) = true -> histogram_sum_as_u64 dp = 0.
Proof. intros Hodd. unfold histogram_sum_as_u64. by rewrite unrecorded_flag. Qed.

Lemma unrecorded_token_point acc dp :
  Z.odd (ndp_flags dp) = true -> idle acc (ingest_claude_token_point acc dp).
Proof.
  destruct acc as [g n]. intros Hodd. unfold ingest_claude_token_point, claude_metric_model.
  destruct (unrecorded_number dp Hodd) as [-> _].
  assert (forall typ s, claude_token_stats typ 0 = Some s -> has_usage s = false) as Hs.
  { intros typ s. unfold claude_token_stats. repeat case_match; by intros [= <-]. }
  destruct (claude_token_stats _ 0) as [s|] eqn:E; [|split; [done|apply register_totals]].
  unfold record_claude_metric_usage. rewrite (Hs _ _ E). split; [done|apply register_totals].
Qed.

Lemma unrecorded_cost_point acc dp :
  Z.odd (ndp_flags dp) = true -> idle acc (ingest_claude_cost_point acc dp).
Proof.
  destruct acc as [g n]. intros Hodd. unfold ingest_claude_cost_point, claude_metric_model.
  destruct (unrecorded_number dp Hodd) as [_ ->]. split; [done|apply register_totals].
Qed.

Lemma unrecorded_turn_count_point service acc dp :
  Z.odd (ndp_flags dp) = true -> idle acc (ingest_codex_turn_count_point service acc dp).
Proof.
  destruct acc as [g n]. intros Hodd. unfold ingest_codex_turn_count_point.
  by destruct (unrecorded_number dp Hodd) as [-> _].
Qed.

Lemma unrecorded_codex_token_point service acc dp :
  Z.odd (hdp_flags dp) = true -> idle acc (ingest_codex_token_point service acc dp).
Proof.
  destruct acc as [g n]. intros Hodd. unfold ingest_codex_token_point.
  rewrite (unrecorded_histogram dp Hodd). case_bool_decide; [done|].
  by destruct (codex_token_stats _ _).
Qed.

Lemma unrecorded_duration_point service acc dp :
  Z.odd (hdp_flags dp) = true -> idle acc (ingest_codex_duration_point service acc dp).
Proof.
  destruct acc as [g n]. intros Hodd. unfold ingest_codex_duration_point.
  by rewrite (unrecorded_histogram dp Hodd).
Qed.
End unrecorded.

(** The state in which the sample completion waits. *)
Lemma sample_waiting_inv : Inv 3 sample_waiting.
Proof.
  change 3 with (sum_by (@batch_volume sample_world) [sample_completion]).
  apply (@reachable_inv sample_world [sample_completion]).
  - pose proof sample_completion_wf as [Hw _]%Forall_cons. by apply Forall_singleton.
  - vm_compute. discriminate.
Qed.

(** * Properties *)

(** C9. Claude usage is never counted twice and never lost: after any sequence of log, trace
    and metric requests, each Claude total is what the messages themselves say it should be,
    where usage reported by metrics counts exactly for the model/effort keys for which no
    log, earlier or later, reported usage.  The cost is that of a ledger of the messages in
    their order: each reported amount is added once, and those that metrics reported for a key
    are taken back, bucket by bucket, when the first log reports usage for it.  All this as
    long as the counters the requests carry add up to less than 2^64; beyond, they saturate. *)
Theorem claude_totals_refine_spec `{World} bs :
  Forall batch_wf bs -> sum_by batch_volume bs <= u64_max ->
  let events := flat_map claude_events bs in
  (forall c, get c (claude_total (ingest_all aggregator_new bs)) = claude_spec events c) /\
  cost_usd (claude_total (ingest_all aggregator_new bs)) = claude_cost events.
Proof.
  intros Hwf Hv.
  destruct (ingest_all_ref 0 [] aggregator_new bs Hwf RefInv_new Hv) as [[Hr Hc] _].
  split; [apply Hr|apply Hc].
Qed.

Lemma claude_totals_refine_spec_witness :
  get InputTokens (claude_total (@ingest_all sample_world (@aggregator_new sample_world)
    sample_batches)) = 10 /\
  cost_usd (claude_total (@ingest_all sample_world (@aggregator_new sample_world)
    sample_batches)) = f64_of_decimal 3 (-1).
Proof.
  destruct (@claude_totals_refine_spec sample_world sample_batches sample_batches_wf) as [Hc Hcost];
    [vm_compute; discriminate|].
  split; [exact (eq_trans (Hc InputTokens) eq_refl)|].
  refine (eq_trans Hcost _). vm_compute. reflexivity.
Defined.



(** No total exceeds what the requests carried, every counter fits 64 bits, and every
    cost is a finite non-negative double, in the totals and in every bucket. *)
Theorem totals_within_volume `{World} bs agent :
  Forall batch_wf bs -> sum_by batch_volume bs <= u64_max ->
  let a := agent_of (ingest_all aggregator_new bs) agent in
  (forall c, 0 <= get c (total a) <= sum_by batch_volume bs) /\
  f64_cost (cost_usd (total a)) /\
  map_Forall (fun _ bs' => stats_wf (bs_stats bs') /\
    forall c, get c (bs_stats bs') <= sum_by batch_volume bs) (buckets a).
Proof.
  intros Hwf Hv. pose proof (inv_agents _ _ (reachable_inv bs Hwf Hv) agent) as Ha.
  set (a := agent_of _ agent) in *. destruct (ai_total _ _ Ha) as [Hu Hc]. split_and!; [|done|].
  - intros c. split; [by apply get_nonneg|apply Ha].
  - intros k e E. destruct (proj2 (ai_buckets _ _ Ha) _ _ E) as [Hs _]. split; [done|].
    intros c. pose proof (agent_bucket_bound _ _ c (bs_bucket e) Ha) as Hb.
    unfold bucket_val in Hb. rewrite <-(proj1 (ai_buckets _ _ Ha) _ _ E) in Hb.
    rewrite (map_val_Some _ _ _ _ E) in Hb. apply Hb.
Qed.

Lemma totals_within_volume_witness :
  sum_by (@batch_volume sample_world) sample_batches = 23 /\
  get InputTokens (total (agent_of (@ingest_all sample_world (@aggregator_new sample_world)
    sample_batches) AGENT_CLAUDE)) <= 23.
Proof.
  split; [reflexivity|].
  destruct (@totals_within_volume sample_world sample_batches AGENT_CLAUDE sample_batches_wf)
    as [Hc _]; [vm_compute; discriminate|]. apply (Hc InputTokens).
Defined.



(** A trace never changes a total: effort and session events only move usage between the
    buckets of Codex. *)
Theorem traces_keep_totals g req agent :
  total (agent_of (ingest_traces g req).1 agent) = total (agent_of g agent).
Proof. apply (frame_traces same_totals). Qed.

(** Codex telemetry never touches Claude's statistics, in a request that carries no
    Claude resource. *)
Theorem codex_logs_leave_claude_alone `{World} g req :
  Forall (fun rl => service_name (rl_resource rl) <> SERVICE_CLAUDE) (resource_logs req) ->
  agent_of (ingest_logs g req).1 AGENT_CLAUDE = agent_of g AGENT_CLAUDE.
Proof.
  intros Hreq. apply same_agent. unfold ingest_logs.
  apply (frame_loop claude_same _ (g, 0%nat)). intros acc rl Hrl.
  rewrite Forall_forall in Hreq. specialize (Hreq rl Hrl).
  apply frame_loop; [apply _|]. intros acc' sl _.
  apply frame_loop; [apply _|]. intros. by apply frame_codex_log; [apply _|].
Qed.

Lemma codex_logs_leave_claude_alone_witness :
  match sample_completion with
  | BLogs req => agent_of (@ingest_logs sample_world (@aggregator_new sample_world) req).1
      AGENT_CLAUDE = agent_default
  | _ => False
  end.
Proof.
  simpl. rewrite (@codex_logs_leave_claude_alone sample_world); [reflexivity|].
  repeat constructor. discriminate.
Defined.

(** The count a log or trace request returns decides whether the summary is shown again:
    when it is 0, the statistics of all agents are the same as before. *)
Theorem no_count_no_change `{World} g b :
  (match b with BMetrics _ => False | _ => True end) -> (ingest g b).2 = 0%nat ->
  agents (ingest g b).1 = agents g.
Proof.
  destruct b as [req|req|req]; intros Hb Hc; [| |done]; simpl in *.
  - by apply (ingest_logs_quiet g req).
  - by apply (ingest_traces_quiet g req).
Qed.

Lemma no_count_no_change_witness :
  agents (@ingest sample_world (@aggregator_new sample_world) sample_effort_trace).1 = ∅.
Proof.
  rewrite (@no_count_no_change sample_world); [reflexivity|exact I|vm_compute; reflexivity].
Defined.

(** C34. Once the provider and effort of a conversation are known, none of its usage stays
    pending: each amount has moved from the bucket it waited in to the settled one, the totals
    are untouched and the other conversations wait on. *)
Theorem known_session_settles_conversation v g provider model cid effort entries :
  Inv v g -> v <= u64_max -> cid <> "" -> effort <> "" -> effort <> UNKNOWN ->
  codex_pending_sse g !! cid = Some entries ->
  let g' := (merge_codex_pending_sse g provider model cid effort true).1 in
  let waiting := btree_entries bucket_le entries in
  codex_pending_sse g' = delete cid (codex_pending_sse g) /\
  total (agent_of g' AGENT_CODEX) = total (agent_of g AGENT_CODEX) /\
  forall c b, bucket_val c (codex_buckets g') b =
    bucket_val c (codex_buckets g) b - list_val c waiting b
    + list_val c (map (fun e => (settled provider effort e.1, e.2)) waiting) b.
Proof.
  intros Hg Hv Hcid He Hu E.
  destruct (merge_init v g cid entries Hg E) as [Hew Hinit].
  pose proof (merge_loop_settled v provider effort _ _ false Hv (entries_wf_entries _ Hew) He Hu
    Hinit) as Hend.
  pose proof (merge_loop_keys provider effort true (btree_entries bucket_le entries)
    (set_pending g (delete cid (codex_pending_sse g)), ∅, false)) as Hkeys.
  unfold merge_codex_pending_sse, str_is_empty. rewrite (proj2 (String.eqb_neq cid "") Hcid). simpl.
  rewrite E. destruct (for_each _ _ _) as [[g' kept] moved]. simpl in *.
  destruct Hend as (-> & Ht & Hval). rewrite bool_decide_true by done. done.
Qed.

Lemma known_session_settles_conversation_witness :
  codex_pending_sse (merge_codex_pending_sse sample_waiting "azure" "" "c1" "high" true).1 = ∅.
Proof.
  refine (eq_trans (proj1 (known_session_settles_conversation 3 sample_waiting
    "azure" "" "c1" "high" sample_pending sample_waiting_inv _ _ _ _ _)) _).
  - vm_compute. discriminate.
  - discriminate.
  - discriminate.
  - discriminate.
  - vm_cast_no_check (@eq_refl (option (gmap Bucket ModelStats)) (Some sample_pending)).
  - vm_cast_no_check (@eq_refl (gmap string (gmap Bucket ModelStats)) ∅).
Defined.

(** Usage waiting for a conversation is still in its bucket: what all conversations
    together have pending in a bucket never exceeds what the bucket holds, so moving it later
    cannot take another conversation's usage. *)
Theorem pending_usage_is_in_its_bucket `{World} bs c b :
  Forall batch_wf bs -> sum_by batch_volume bs <= u64_max ->
  let g := ingest_all aggregator_new bs in
  0 <= pending_val c (codex_pending_sse g) b <= bucket_val c (codex_buckets g) b.
Proof.
  intros Hwf Hv. destruct (inv_pending _ _ (reachable_inv bs Hwf Hv)) as [Hp Hle].
  split; [by apply pending_val_nonneg|apply Hle].
Qed.

Lemma pending_usage_is_in_its_bucket_witness :
  pending_val InputTokens (codex_pending_sse (@ingest_all sample_world
    (@aggregator_new sample_world) [sample_completion; sample_effort_trace]))
    (mkBucket "OpenAI" "gpt" "high") <=
  bucket_val InputTokens (codex_buckets (@ingest_all sample_world
    (@aggregator_new sample_world) [sample_completion; sample_effort_trace]))
    (mkBucket "OpenAI" "gpt" "high").
Proof.
  apply (@pending_usage_is_in_its_bucket sample_world _ InputTokens
    (mkBucket "OpenAI" "gpt" "high") sample_completion_wf). vm_compute. discriminate.
Defined.

(** C36. Merging a bare model name into its full name empties exactly the Anthropic buckets of
    the bare name, adds each of them, counters and cost, to the full bucket of the same
    effort, and leaves every other bucket and the totals alone; a bucket there was none of has
    no cost, and a full bucket takes the cost of the bare one if it is new.  The counters are those
    of an agent that has not counted past 64 bits. *)
Theorem merge_bare_into_full_exact v a bare full c b :
  AgentInv v a -> v <= u64_max -> full <> "" -> bare <> full ->
  total (merge_bare_into_full a bare full) = total a /\
  bucket_cost (buckets (merge_bare_into_full a bare full)) b =
    (if decide (is_anthropic b bare) then None
     else if decide (is_anthropic b full)
     then joined (bucket_cost (buckets a) b) (bucket_cost (buckets a) (with_model b bare))
     else bucket_cost (buckets a) b) /\
  bucket_val c (buckets (merge_bare_into_full a bare full)) b =
    (if decide (is_anthropic b bare) then 0 else bucket_val c (buckets a) b)
    + (if decide (is_anthropic b full) then bucket_val c (buckets a) (with_model b bare) else 0).
Proof.
  intros Ha Hv Hfull Hne. split; [done|].
  split; [by apply merge_bare_costs; [apply (ai_buckets _ _ Ha)|..]|].
  pose proof (proj1 (ai_buckets _ _ Ha)) as Hkeyed. unfold merge_bare_into_full. simpl.
  rewrite (merge_loop_exact v (total a) full bare);
    [|by destruct a|done|done|done|apply bare_bucket_keys_NoDup|by apply bare_keys_are_bare].
  rewrite bare_bucket_val by done.
  destruct (decide (is_anthropic b full)) as [Hf|Hf]; cycle 1.
  { rewrite (decide_False (P := _ /\ _)) by (intros [? _]; done). done. }
  pose proof (bare_bucket_val c (buckets a) bare (with_model b bare) Hkeyed) as Hw.
  rewrite (decide_True (P := is_anthropic (with_model b bare) bare)) in Hw
    by (split; [apply Hf|done]).
  destruct (decide (bucket_key (with_model b bare) ∈ bare_bucket_keys (buckets a) bare)) as [Hin|Hin].
  - by rewrite (decide_True (P := _ /\ _)).
  - rewrite (decide_False (P := _ /\ _)) by (intros [_ ?]; done). lia.
Qed.

Lemma merge_bare_into_full_exact_witness :
  bucket_val InputTokens (buckets (merge_bare_into_full
    (agent_record agent_default (mkBucket PROVIDER_ANTHROPIC "m" "high")
      (mkStats 1 10 0 0 0 0 (f64_of_Z 2) 0)) "m" "m[1m]"))
    (mkBucket PROVIDER_ANTHROPIC "m[1m]" "high") = 10 /\
  bucket_cost (buckets (merge_bare_into_full
    (agent_record agent_default (mkBucket PROVIDER_ANTHROPIC "m" "high")
      (mkStats 1 10 0 0 0 0 (f64_of_Z 2) 0)) "m" "m[1m]"))
    (mkBucket PROVIDER_ANTHROPIC "m[1m]" "high") = Some (f64_of_Z 2).
Proof.
  destruct (merge_bare_into_full_exact (0 + 11)
    (agent_record agent_default (mkBucket PROVIDER_ANTHROPIC "m" "high")
      (mkStats 1 10 0 0 0 0 (f64_of_Z 2) 0)) "m" "m[1m]" InputTokens
    (mkBucket PROVIDER_ANTHROPIC "m[1m]" "high")) as (_ & -> & ->);
    [|vm_compute; discriminate|discriminate|discriminate|split; vm_compute; reflexivity].
  change 11 with (volume (mkStats 1 10 0 0 0 0 (f64_of_Z 2) 0)).
  apply (agent_record_inv 0); [by apply agent_default_inv|repeat split; discriminate| |].
  - split; [|by split; vm_compute]. intros []; vm_compute; split; discriminate.
  - vm_compute. discriminate.
Defined.

(** The keys collected for a bare name, read as a range of the ordered map that stops at
    the first key without the prefix, are exactly the buckets labelled Anthropic with that
    model, also when names hold separators or escapes. *)
Theorem bare_key_range_exact `{World} bs agent bare k :
  Forall batch_wf bs -> sum_by batch_volume bs <= u64_max ->
  let m := buckets (agent_of (ingest_all aggregator_new bs) agent) in
  k ∈ bare_bucket_keys m bare <->
  exists e, m !! k = Some e /\ bs_provider e = PROVIDER_ANTHROPIC /\ bs_model e = bare.
Proof.
  intros Hwf Hv. apply elem_of_bare_bucket_keys.
  apply (ai_buckets _ _ (inv_agents _ _ (reachable_inv bs Hwf Hv) agent)).
Qed.

Lemma bare_key_range_exact_witness :
  "anthropic/m[1m]/unknown" ∉ bare_bucket_keys (buckets (agent_of (@ingest_all sample_world
    (@aggregator_new sample_world) sample_batches) AGENT_CLAUDE)) "m".
Proof.
  intros Hin. apply (@bare_key_range_exact sample_world sample_batches) in Hin;
    [|apply sample_batches_wf|vm_compute; discriminate].
  destruct Hin as (e & E & _ & Hm). vm_compute in E. injection E as <-. discriminate.
Defined.

(** A bucket key can be read back: the escaping keeps the three components apart whatever
    characters they hold, so two buckets never share a key. *)
Theorem bucket_key_roundtrip b : parse_bucket_key (bucket_key b) = Some b.
Proof.
  unfold parse_bucket_key.
  assert (split_once "/" (bucket_key b) = Some (escape_bucket_component (provider b),
    escape_bucket_component (model b) +:+ String "/" (escape_bucket_component (effort b)))) as ->
    by apply split_escaped.
  cbn [mbind option_bind]. rewrite split_escaped. cbn [mbind option_bind].
  rewrite !unescape_escape. by destruct b.
Qed.

(** The integer read from a double is exact: its integer part when the double is finite,
    not negative and below 2^64, and 0 otherwise; it never saturates and always fits. *)
Theorem finite_u64_from_f64_exact x :
  f64_valid x = true ->
  is_u64 (finite_u64_from_f64 x) /\
  finite_u64_from_f64 x =
    (if f64_is_finite x && f64_le f64_zero x && f64_lt x (f64_of_Z u64_max)
     then f64_trunc x else 0).
Proof.
  intros Hv. split; [apply finite_u64_range|]. unfold finite_u64_from_f64.
  destruct x as [s|s| |[] m e]; try done.
  destruct (f64_lt _ _) eqn:Hlt; [|by rewrite !andb_false_r].
  pose proof (f64_lt_u64_bound m e Hv Hlt) as Hle. simpl.
  assert (0 <= Z.shiftl (Zpos m) e) by (apply Z.shiftl_nonneg; lia).
  unfold f64_as_u64, f64_as_int, f64_trunc. lia.
Qed.

Lemma finite_u64_from_f64_exact_witness :
  finite_u64_from_f64 (f64_of_Z 12345) = 12345 /\
  finite_u64_from_f64 (f64_of_Z (u64_max + 5000)) = 0.
Proof.
  split.
  - destruct (finite_u64_from_f64_exact (f64_of_Z 12345)) as [_ ->]; vm_compute; reflexivity.
  - destruct (finite_u64_from_f64_exact (f64_of_Z (u64_max + 5000))) as [_ ->];
      vm_compute; reflexivity.
Defined.

(** A cumulative metric is never counted: it is skipped whole, so repeated exports of the
    same running total do not add up. *)
Theorem cumulative_metrics_skipped `{WireValues} service g m :
  (match metric_data m with
   | Some (Sum _ t) | Some (Histogram _ t) => t = 2
   | _ => True
   end) ->
  ingest_metric service g m = (g, 0%nat).
Proof.
  intros Hm. unfold ingest_metric, ingest_claude_token, ingest_claude_cost, ingest_codex_token,
    ingest_codex_turn_count, ingest_codex_duration, is_delta_temporality.
  destruct (metric_data m) as [[]|]; subst; rewrite ?wire_cumulative; by repeat case_match.
Qed.

Definition cumulative_metric : Metric := {|
  metric_name := "claude_code.token.usage"; metric_description := ""; metric_unit := "";
  metric_data := Some (Sum [{|
    ndp_attributes := [text_attr "model" "m"; text_attr "type" "input"];
    ndp_flags := 0; ndp_value := Some (AsInt 7) |}] 2) |}.

Lemma cumulative_metrics_skipped_witness :
  @ingest_metric sample_world SERVICE_CLAUDE (@aggregator_new sample_world) cumulative_metric =
  (@aggregator_new sample_world, 0%nat).
Proof.
  apply (@cumulative_metrics_skipped sample_world sample_world_wire). reflexivity.
Defined.

(** Points flagged as holding no recorded value add nothing, whatever their value says:
    a metric made of such points counts no sample and changes no total. *)
Theorem unrecorded_points_add_nothing `{WireValues} service g m :
  (match metric_data m with
   | Some (Sum pts _) => Forall (fun dp => Z.odd (ndp_flags dp) = true) pts
   | Some (Histogram pts _) => Forall (fun dp => Z.odd (hdp_flags dp) = true) pts
   | _ => True
   end) ->
  (ingest_metric service g m).2 = 0%nat /\
  forall agent, total (agent_of (ingest_metric service g m).1 agent) = total (agent_of g agent).
Proof.
  intros Hm. unfold ingest_metric, ingest_claude_token, ingest_claude_cost, ingest_codex_token,
    ingest_codex_turn_count, ingest_codex_duration.
  destruct (metric_data m) as [[pts|pts t|pts t|n|n]|]; repeat (case_match; try done).
  all: apply (idle_loop _ g pts); intros acc dp Hdp; rewrite Forall_forall in Hm;
    specialize (Hm dp Hdp); clear Hdp.
  - by apply unrecorded_token_point.
  - by apply unrecorded_cost_point.
  - by apply unrecorded_turn_count_point.
  - by apply unrecorded_codex_token_point.
  - by apply unrecorded_duration_point.
Qed.

Definition unrecorded_metric : Metric := {|
  metric_name := "claude_code.token.usage"; metric_description := ""; metric_unit := "";
  metric_data := Some (Sum [{|
    ndp_attributes := [text_attr "model" "m"; text_attr "type" "input"];
    ndp_flags := 1; ndp_value := Some (AsInt 7) |}] 1) |}.

Lemma unrecorded_points_add_nothing_witness :
  (@ingest_metric sample_world SERVICE_CLAUDE (@aggregator_new sample_world) unrecorded_metric).2
  = 0%nat.
Proof.
  apply (@unrecorded_points_add_nothing sample_world sample_world_wire). repeat constructor.
Defined.
