(* ===== verification/Text.v ===== *)
(** * Text: the [str] operations the settings and the HTTP side use

    Strings are the UTF-8 bytes Rust stores.  Characters are counted and classified on the
    bytes: a byte in [0x80..0xBF] continues the character before it. *)

From Stdlib Require Import Ascii String.
From S2P Require Import Prelude.

Local Open Scope Z_scope.

(** ** Bytes *)

Definition code (c : ascii) : Z := Z.of_N (N_of_ascii c).

Definition is_continuation (c : ascii) : bool := (128 <=? code c) && (code c <? 192).

(** [char::is_ascii_graphic]. *)
Definition is_ascii_graphic (c : ascii) : bool := (33 <=? code c) && (code c <=? 126).

Definition is_ascii_upper (c : ascii) : bool := (65 <=? code c) && (code c <=? 90).
Definition is_ascii_digit (c : ascii) : bool := (48 <=? code c) && (code c <=? 57).

(** [u8::to_ascii_lowercase]. *)
Definition ascii_lower (c : ascii) : ascii :=
  if is_ascii_upper c then ascii_of_N (N_of_ascii c + 32) else c.

(** [str::to_ascii_lowercase] and [str::eq_ignore_ascii_case]. *)
Fixpoint to_ascii_lowercase (s : string) : string :=
  match s with
  | EmptyString => EmptyString
  | String c s => String (ascii_lower c) (to_ascii_lowercase s)
  end.

Definition eq_ignore_ascii_case (a b : string) : bool :=
  String.eqb (to_ascii_lowercase a) (to_ascii_lowercase b).

(** ** Splitting and joining *)

(** [str::split(c)]: the pieces between the separators, at least one. *)
Fixpoint split_on (c : ascii) (s : string) : list string :=
  match s with
  | EmptyString => [EmptyString]
  | String a s =>
      if Ascii.eqb a c then EmptyString :: split_on c s
      else match split_on c s with
           | seg :: segs => String a seg :: segs
           | [] => [String a EmptyString]
           end
  end.

Fixpoint join_with (c : ascii) (segs : list string) : string :=
  match segs with
  | [] => EmptyString
  | [seg] => seg
  | seg :: segs => (seg +:+ String c (join_with c segs))%string
  end.

Fixpoint ends_with_char (c : ascii) (s : string) : bool :=
  match s with
  | EmptyString => false
  | String a EmptyString => Ascii.eqb a c
  | String _ s => ends_with_char c s
  end.

(** [str::trim_end_matches(c)]. *)
Fixpoint trim_end_char (c : ascii) (s : string) : string :=
  match s with
  | EmptyString => EmptyString
  | String a s =>
      match trim_end_char c s with
      | EmptyString => if Ascii.eqb a c then EmptyString else String a EmptyString
      | s => String a s
      end
  end.

(** ** White space *)

Definition byte_str (l : list N) : string := foldr (fun n s => String (ascii_of_N n) s) EmptyString l.

(** The UTF-8 encodings of the characters with the [White_Space] property. *)
Definition white_space : list string :=
  map byte_str
    ([[9]; [10]; [11]; [12]; [13]; [32]; [194; 133]; [194; 160]; [225; 154; 128]] ++
     map (fun n => [226; 128; n]) [128; 129; 130; 131; 132; 133; 134; 135; 136; 137; 138; 168; 169; 175] ++
     [[226; 129; 159]; [227; 128; 128]])%N.

Definition strip_white (s : string) : option string :=
  foldr (fun w rest => match strip_prefix w s with Some s => Some s | None => rest end)
    None white_space.

(** [str::trim_start]; every step removes at least a byte, so the length is enough fuel. *)
Fixpoint trim_start_fuel (n : nat) (s : string) : string :=
  match n with
  | O => s
  | S n => match strip_white s with Some s => trim_start_fuel n s | None => s end
  end.
Definition trim_start (s : string) : string := trim_start_fuel (String.length s) s.

Definition is_white (s : string) : bool :=
  existsb (String.eqb s) white_space.

(** [str::trim_end]: drops the longest suffix of white space. *)
Fixpoint all_white_fuel (n : nat) (s : string) : bool :=
  str_is_empty s ||
  match n with
  | O => false
  | S n => match strip_white s with Some s => all_white_fuel n s | None => false end
  end.
Definition all_white (s : string) : bool := all_white_fuel (String.length s) s.

Fixpoint trim_end (s : string) : string :=
  if all_white s then EmptyString
  else match s with
       | EmptyString => EmptyString
       | String a s => String a (trim_end s)
       end.

Definition trim (s : string) : string := trim_end (trim_start s).

(** ** Decimal numbers *)

(** [u64::from_str]: an optional plus sign and decimal digits that fit. *)
Fixpoint digits_value (acc : Z) (s : string) : option Z :=
  match s with
  | EmptyString => Some acc
  | String c s => if is_ascii_digit c then digits_value (acc * 10 + (code c - 48)) s else None
  end.

Definition parse_u64 (s : string) : option Z :=
  let digits := match s with
                | String c s => if Ascii.eqb c "+" then s else String c s
                | EmptyString => EmptyString
                end in
  if str_is_empty digits then None
  else match digits_value 0 digits with
       | Some n => if n <=? u64_max then Some n else None
       | None => None
       end.

(** * Lemmas *)

Lemma split_on_cons c s : exists seg segs, split_on c s = seg :: segs.
Proof.
  induction s as [|a s (seg & segs & E)]; simpl; [by eexists _, _|].
  destruct (Ascii.eqb a c); [by eexists _, _|]. rewrite E. by eexists _, _.
Qed.

Lemma join_split c s : join_with c (split_on c s) = s.
Proof.
  induction s as [|a s IH]; [done|]. simpl.
  destruct (split_on_cons c s) as (seg & segs & E). rewrite E in *.
  destruct (Ascii.eqb_spec a c) as [->|].
  - simpl in *. by rewrite IH.
  - destruct segs; simpl in *; by rewrite <-IH.
Qed.

Lemma split_on_app c a b :
  split_on c (a +:+ String c b)%string = split_on c a ++ split_on c b.
Proof.
  induction a as [|x a IH]; simpl.
  - by rewrite Ascii.eqb_refl.
  - change ((_ ++ _)%string) with (a +:+ String c b)%string. rewrite IH.
    destruct (Ascii.eqb x c); [done|].
    destruct (split_on_cons c a) as (seg & segs & ->). done.
Qed.

(** Joining pieces without separators and splitting them again. *)
Definition no_char (c : ascii) (s : string) : Prop := split_on c s = [s].

Lemma split_on_no_char c s : Forall (no_char c) (split_on c s).
Proof.
  induction s as [|a s IH]; simpl; [by repeat constructor|].
  destruct (Ascii.eqb_spec a c) as [->|Hne]; [by constructor|].
  destruct (split_on_cons c s) as (seg & segs & E). rewrite E in *.
  inversion IH as [|?? Hseg]; subst. constructor; [|done].
  unfold no_char in *. simpl. rewrite Hseg. by destruct (Ascii.eqb_spec a c).
Qed.

Lemma split_join c segs :
  segs <> [] -> Forall (no_char c) segs -> split_on c (join_with c segs) = segs.
Proof.
  induction segs as [|seg segs IH]; [done|]. intros _ [Hseg Hsegs]%Forall_cons.
  destruct segs as [|seg' segs]; [done|].
  change (join_with c (seg :: seg' :: segs)) with
    (seg +:+ String c (join_with c (seg' :: segs)))%string.
  rewrite split_on_app, Hseg, IH; done.
Qed.

Lemma ends_with_char_app c s :
  ends_with_char c s = true -> exists s', s = (s' +:+ String c "")%string.
Proof.
  induction s as [|a s IH]; [done|]. simpl. destruct s as [|b s].
  - intros Heq%Ascii.eqb_eq. subst. by exists ""%string.
  - intros (s' & ->)%IH. by exists (String a s').
Qed.

Lemma ascii_lower_idem c : ascii_lower (ascii_lower c) = ascii_lower c.
Proof. by destruct c as [[] [] [] [] [] [] [] []]. Qed.

Lemma to_ascii_lowercase_idem s :
  to_ascii_lowercase (to_ascii_lowercase s) = to_ascii_lowercase s.
Proof. induction s as [|c s IH]; simpl; [done|]. by rewrite ascii_lower_idem, IH. Qed.

Lemma eq_ignore_ascii_case_spec a b :
  eq_ignore_ascii_case a b = true <-> to_ascii_lowercase a = to_ascii_lowercase b.
Proof. apply String.eqb_eq. Qed.

Lemma digits_value_nonneg s : forall acc n, 0 <= acc -> digits_value acc s = Some n -> 0 <= n.
Proof.
  induction s as [|c s IH]; simpl; intros acc n Hacc; [by intros [= <-]|].
  destruct (is_ascii_digit c) eqn:E; [|done]. apply IH.
  unfold is_ascii_digit in E. apply andb_prop in E as [E%Z.leb_le _]. lia.
Qed.

Lemma parse_u64_range s n : parse_u64 s = Some n -> is_u64 n.
Proof.
  unfold parse_u64. destruct (str_is_empty _); [done|].
  destruct (digits_value 0 _) as [m|] eqn:E; [|done].
  destruct (Z.leb_spec m u64_max); [|done]. intros [= <-].
  split; [by eapply digits_value_nonneg in E|done].
Qed.

(** ** White space at the ends *)

(** A sequence of white characters. *)
Inductive whites : string -> Prop :=
| whites_nil : whites ""
| whites_cons w s : w ∈ white_space -> whites s -> whites (w +:+ s)%string.

Lemma str_app_prefixes u v x y :
  (u +:+ x = v +:+ y)%string -> starts_with u v = true \/ starts_with v u = true.
Proof.
  revert v. unfold starts_with. induction u as [|c u IH]; intros v E; [by left|].
  destruct v as [|c' v]; [by right|]. rewrite !str_app_cons in E. injection E as -> E. simpl.
  rewrite Ascii.eqb_refl. by eapply IH.
Qed.

(** No encoding begins another, so a string starts with one white character at most. *)
Lemma white_space_prefix_free w w' a b :
  w ∈ white_space -> w' ∈ white_space -> (w +:+ a = w' +:+ b)%string -> w = w'.
Proof.
  intros Hw Hw' E.
  assert (forallb (fun w => forallb (fun w' =>
      String.eqb w w' || (negb (starts_with w w') && negb (starts_with w' w))) white_space)
      white_space = true) as Hall by (vm_compute; reflexivity).
  rewrite forallb_forall in Hall. specialize (Hall w (proj1 (list_elem_of_In _ _) Hw)).
  rewrite forallb_forall in Hall. specialize (Hall w' (proj1 (list_elem_of_In _ _) Hw')).
  apply orb_prop in Hall as [Heq%String.eqb_eq|Hno]; [done|].
  apply andb_prop in Hno as [H1 H2].
  destruct (str_app_prefixes w w' a b E) as [Hs|Hs]; by rewrite Hs in *.
Qed.

Lemma strip_white_spec s t :
  strip_white s = Some t <-> exists w, w ∈ white_space /\ s = (w +:+ t)%string.
Proof.
  unfold strip_white. assert (forall w, w ∈ white_space -> w ∈ white_space) as Hin by done.
  revert Hin. generalize white_space at 1 3 4. intros l.
  induction l as [|w l IH]; intros Hin; simpl.
  { split; [done|]. by intros (? & ?%not_elem_of_nil & _). }
  destruct (strip_prefix w s) as [u|] eqn:E.
  - apply strip_prefix_app in E. split.
    + intros [= ->]. exists w. split; [by left|done].
    + intros (w' & Hw' & ->). f_equal.
      pose proof (white_space_prefix_free w' w t u (Hin w' Hw') (Hin w ltac:(by left)) E) as ->.
      symmetry. by eapply str_app_inj_l.
  - rewrite IH by (intros; apply Hin; by right). split.
    + intros (w' & ? & ?). exists w'. split; [by right|done].
    + intros (w' & [->|?]%elem_of_cons & E'); [|by exists w'].
      apply strip_prefix_app in E'. congruence.
Qed.

Lemma white_space_not_empty w : w ∈ white_space -> (0 < String.length w)%nat.
Proof.
  assert (forallb (fun w => (0 <? String.length w)%nat) white_space = true) as Hall
    by (vm_compute; reflexivity).
  rewrite forallb_forall in Hall. intros Hw%list_elem_of_In. by apply Nat.ltb_lt, Hall.
Qed.

Lemma strip_white_length s t : strip_white s = Some t -> (String.length t < String.length s)%nat.
Proof.
  intros (w & Hw & ->)%strip_white_spec. rewrite str_length_app.
  pose proof (white_space_not_empty w Hw). lia.
Qed.

Lemma strip_white_app w s : w ∈ white_space -> strip_white (w +:+ s)%string = Some s.
Proof. intros Hw. apply strip_white_spec. by exists w. Qed.

Lemma all_white_fuel_spec n s :
  (String.length s <= n)%nat -> all_white_fuel n s = true <-> whites s.
Proof.
  revert s. induction n as [|n IH]; intros s Hn.
  { destruct s; [|simpl in Hn; lia]. split; [constructor|done]. }
  destruct s as [|c s']; [split; [constructor|done]|]. set (s := String c s') in *.
  change (all_white_fuel (S n) s) with
    (match strip_white s with Some s => all_white_fuel n s | None => false end).
  destruct (strip_white s) as [t|] eqn:E.
  - pose proof (strip_white_length s t E). rewrite IH by lia.
    apply strip_white_spec in E as (w & Hw & E). split; [intros; rewrite E; by constructor|].
    intros Hs. remember s as s0 eqn:Es0 in Hs. destruct Hs as [|w' t' Hw' Ht']; [done|].
    rewrite <-Es0 in E. pose proof (white_space_prefix_free w' w t' t Hw' Hw E) as ->.
    apply str_app_inj_l in E. by subst.
  - split; [done|]. intros Hs. remember s as s0 eqn:Es0 in Hs. destruct Hs as [|w' t' Hw' _]; [done|].
    rewrite <-Es0, strip_white_app in E by done. done.
Qed.

Lemma all_white_spec s : all_white s = true <-> whites s.
Proof. by apply all_white_fuel_spec. Qed.

Lemma trim_start_fuel_app n w s :
  (String.length (w +:+ s)%string <= n)%nat -> whites w -> strip_white s = None ->
  trim_start_fuel n (w +:+ s)%string = s.
Proof.
  intros Hn Hw Hs. revert n Hn. induction Hw as [|w t Hw Ht IH]; intros n Hn.
  - rewrite str_app_nil_l in *. destruct n; simpl; [done|]. by rewrite Hs.
  - rewrite str_app_assoc in *. rewrite str_length_app in Hn.
    pose proof (white_space_not_empty w Hw). destruct n as [|n]; [lia|]. simpl.
    rewrite strip_white_app by done. apply IH. lia.
Qed.

Lemma trim_start_app w s : whites w -> strip_white s = None -> trim_start (w +:+ s)%string = s.
Proof. by apply trim_start_fuel_app. Qed.

Lemma trim_start_decomp s : exists w, whites w /\ s = (w +:+ trim_start s)%string.
Proof.
  unfold trim_start. generalize (String.length s) as n. intros n. revert s.
  induction n as [|n IH]; intros s; simpl; [by exists ""%string; split; [constructor|]|].
  destruct (strip_white s) as [t|] eqn:E; [|by exists ""%string; split; [constructor|]].
  apply strip_white_spec in E as (w & Hw & ->). destruct (IH t) as (w' & Hw' & E').
  exists (w +:+ w')%string. split; [by constructor|]. by rewrite str_app_assoc, <-E'.
Qed.

Lemma trim_end_decomp s : exists w, whites w /\ s = (trim_end s +:+ w)%string.
Proof.
  induction s as [|c s IH].
  { exists ""%string. split; [constructor|done]. }
  change (trim_end (String c s)) with
    (if all_white (String c s) then ""%string else String c (trim_end s)).
  destruct (all_white (String c s)) eqn:E.
  - exists (String c s). split; [by apply all_white_spec|done].
  - destruct IH as (w & Hw & E'). exists w. split; [done|]. by rewrite str_app_cons, <-E'.
Qed.

(** The bytes white space is made of. *)
Definition white_byte (c : ascii) : bool :=
  existsb (fun w => existsb (Ascii.eqb c) (list_ascii_of_string w)) white_space.

Lemma list_ascii_app a b :
  list_ascii_of_string (a +:+ b)%string = list_ascii_of_string a ++ list_ascii_of_string b.
Proof. induction a as [|c a IH]; [done|]. rewrite str_app_cons. simpl. by rewrite IH. Qed.

Lemma whites_bytes s : whites s -> Forall (fun c => white_byte c = true) (list_ascii_of_string s).
Proof.
  intros Hs. induction Hs as [|w s Hw Hs IH]; [by constructor|].
  rewrite list_ascii_app.
  apply Forall_app. split; [|done]. apply Forall_forall. intros c Hc. unfold white_byte.
  apply existsb_exists. exists w. split; [by apply list_elem_of_In|].
  apply existsb_exists. exists c. split; [by apply list_elem_of_In|apply Ascii.eqb_refl].
Qed.

Lemma trim_end_app s c w :
  whites w -> white_byte c = false ->
  trim_end (s +:+ String c w)%string = (s +:+ String c "")%string.
Proof.
  intros Hw Hc.
  assert (forall t, all_white (t +:+ String c w)%string = false) as Hno.
  { intros t. destruct (all_white _) eqn:E; [|done]. apply all_white_spec, whites_bytes in E.
    rewrite Forall_forall in E. exfalso. rewrite E in Hc; [done|]. clear.
    induction t as [|a t IH]; [by left|]. rewrite str_app_cons. by right. }
  assert (trim_end w = ""%string) as Ew.
  { destruct w as [|a w]; [done|]. change (trim_end (String a w)) with
      (if all_white (String a w) then ""%string else String a (trim_end w)).
    by rewrite (proj2 (all_white_spec _) Hw). }
  induction s as [|a s IH].
  - rewrite !str_app_nil_l. change (trim_end (String c w)) with
      (if all_white (String c w) then ""%string else String c (trim_end w)).
    pose proof (Hno ""%string) as E. rewrite str_app_nil_l in E. by rewrite E, Ew.
  - rewrite !str_app_cons. change (trim_end (String a (s +:+ String c w)%string)) with
      (if all_white (String a (s +:+ String c w)%string) then ""%string
       else String a (trim_end (s +:+ String c w)%string)).
    pose proof (Hno (String a s)) as E. rewrite str_app_cons in E. by rewrite E, IH.
Qed.

(** A character that is a letter, whatever its case, is no part of white space. *)
Lemma letter_not_white c : (97 <=? code (ascii_lower c)) && (code (ascii_lower c) <=? 122) = true ->
  white_byte c = false.
Proof. by destruct c as [[] [] [] [] [] [] [] []]. Qed.

(** What is not white at both ends is what trimming leaves. *)
Lemma trim_letters a s b w1 w2 :
  whites w1 -> whites w2 -> white_byte a = false -> white_byte b = false ->
  trim (w1 +:+ String a (s +:+ String b w2))%string = String a (s +:+ String b "")%string.
Proof.
  intros Hw1 Hw2 Ha Hb. unfold trim. rewrite trim_start_app; [|done|].
  - by rewrite <-!str_app_cons, trim_end_app.
  - destruct (strip_white _) as [t|] eqn:E; [|done].
    apply strip_white_spec in E as (w & Hw & E). pose proof (white_space_not_empty w Hw).
    destruct w as [|c w]; [simpl in *; lia|]. rewrite str_app_cons in E. injection E as <- E.
    pose proof (whites_bytes _ (whites_cons _ _ Hw whites_nil)) as Hb'.
    rewrite str_app_cons in Hb'. apply Forall_cons in Hb' as [? _]. congruence.
Qed.

Lemma to_ascii_lowercase_app m u v :
  to_ascii_lowercase m = (u +:+ v)%string ->
  exists m1 m2, m = (m1 +:+ m2)%string /\ to_ascii_lowercase m1 = u /\ to_ascii_lowercase m2 = v.
Proof.
  revert m. induction u as [|c u IH]; intros m E.
  - by exists ""%string, m.
  - destruct m as [|c' m]; [done|]. rewrite str_app_cons in E. injection E as <- E.
    destruct (IH m E) as (m1 & m2 & -> & <- & <-). by exists (String c' m1), m2.
Qed.

Lemma no_char_bytes c s : Forall (fun a => a <> c) (list_ascii_of_string s) -> no_char c s.
Proof.
  unfold no_char. induction s as [|a s IH]; intros Hs; [done|]. apply Forall_cons in Hs as [Ha Hs].
  simpl. destruct (Ascii.eqb_spec a c); [done|]. by rewrite IH.
Qed.

Lemma list_ascii_lower s :
  list_ascii_of_string (to_ascii_lowercase s) = map ascii_lower (list_ascii_of_string s).
Proof. induction s as [|c s IH]; simpl; [done|]. by rewrite IH. Qed.
