(* ===== verification/Path.v ===== *)
(** * Paths ([src/src/path.rs])

    A path is its text.  The operations of [std::path] follow the standard library on Unix:
    components are what lies between slashes, empty ones and inner dots left out.
    What is created is restricted to its owner by the two functions the other files call. *)

From Stdlib Require Import Ascii.
From S2P Require Import Prelude Io Text.

Local Open Scope string_scope.

(** ** [std::path] *)

Inductive Component := RootDir | CurDir | ParentDir | Normal (name : string).

#[export] Instance Component_eq_dec : EqDecision Component.
Proof. solve_decision. Defined.

Definition body_component (seg : string) : option Component :=
  if String.eqb seg "" || String.eqb seg "." then None
  else if String.eqb seg ".." then Some ParentDir
  else Some (Normal seg).

Definition segment_components (segs : list string) : list Component :=
  match segs with
  | [seg] => if String.eqb seg "." then [CurDir] else omap body_component segs
  | seg :: body =>
      if String.eqb seg "" then RootDir :: omap body_component body
      else if String.eqb seg "." then CurDir :: omap body_component body
      else omap body_component segs
  | [] => []
  end.

(** [Path::components]. *)
Definition components (path : string) : list Component := segment_components (split_on "/" path).

Definition is_absolute (path : string) : bool := starts_with "/" path.

(** [Path::join]. *)
Definition path_join (base path : string) : string :=
  if is_absolute path then path
  else if str_is_empty base || ends_with_char "/" base then base +:+ path
  else base +:+ String "/" path.

(** Segments that no component comes from. *)
Definition skipped (seg : string) : bool := String.eqb seg "" || String.eqb seg ".".

Fixpoint drop_skipped (segs : list string) : list string :=
  match segs with
  | seg :: segs' => if skipped seg then drop_skipped segs' else segs
  | [] => []
  end.

(** [Components::as_path] of what follows the first component: it starts and ends with a
    component. *)
Definition trim_segments (segs : list string) : list string :=
  rev (drop_skipped (rev (drop_skipped segs))).

(** [path.strip_prefix(first + slash)] for a first component that is a plain name. *)
Definition strip_first (first path : string) : option string :=
  match split_on "/" path with
  | seg :: segs =>
      if String.eqb seg first then Some (join_with "/" (trim_segments segs)) else None
  | [] => None
  end.

(** [Path::parent]: what is left of the path before its last component. *)
Definition parent (path : string) : option string :=
  let last_removed body :=
    match drop_skipped (rev body) with
    | [] => None
    | _ :: before => Some (rev (drop_skipped before))
    end in
  match split_on "/" path with
  | seg :: body =>
      if String.eqb seg "" then
        option_map (fun body => "/" +:+ join_with "/" body) (last_removed body)
      else if String.eqb seg "." then
        match last_removed body with
        | None => Some ""
        | Some [] => Some "."
        | Some body => Some ("./" +:+ join_with "/" body)
        end
      else option_map (join_with "/") (last_removed (seg :: body))
  | [] => None
  end.

(** ** The program's operation *)

Definition expand_user_path (path : string) (home : option string) : string :=
  match home with
  | None => path
  | Some home =>
      if str_is_empty home then path
      else if String.eqb path "~" then home
      else match strip_first "~" path with
           | Some rest => path_join home rest
           | None => path
           end
  end.

(** [home] is read from the environment. *)
Definition expand_current_user_path (var_os : string -> option string) (path : string) : string :=
  expand_user_path path (var_os "HOME"%string).

(** A mode that only the owner has a share in: no bit of 0o077. *)
Definition owner_only (mode : Z) : Prop := Z.land mode 63 = 0%Z.

(** 0o600 for a file that is created. *)
Definition restrict_new_file_mode (options : OpenOptions) : OpenOptions :=
  mkOpenOptions (opt_create options) (opt_create_new options) (opt_truncate options) 384.

(** A path and those above it, the highest first. *)
Fixpoint lineage (fuel : nat) (path : string) : list string :=
  match fuel with
  | O => []
  | S fuel =>
      match parent path with
      | Some above => if str_is_empty above then [path] else lineage fuel above ++ [path]
      | None => [path]
      end
  end.

(** The root and what is reached by dots alone are always there. *)
Definition names_entry (path : string) : bool :=
  match last (components path) with Some (Normal _) => true | _ => false end.

Definition missing_dirs (path : string) (d : Disk) : list string :=
  List.filter (fun q => names_entry q && negb (bool_decide (is_Some (dir_modes (perms d) !! q))))
    (lineage (String.length path) path).

(** [DirBuilder] with mode 0o700 makes one directory. *)
Definition make_dir (d : Disk) (path : string) : Disk :=
  set_perms d (mkPermissions (umask (perms d)) (file_modes (perms d))
    (<[path := Z.ldiff 448 (umask (perms d))]> (dir_modes (perms d))) (created (perms d)) (removed (perms d))).

(** Directories that are missing are made from the highest down; a failure leaves some of them. *)
Definition create_private_dir (dir : string) : io Disk unit :=
  with_fault (fun n d => foldl make_dir d (take n (missing_dirs dir d)))
    (fun d =>
       if existsb (fun q => bool_decide (is_Some (files d !! q))) (lineage (String.length dir) dir)
       then (d, Err (if bool_decide (is_Some (files d !! dir)) then AlreadyExists else OtherError))
       else (foldl make_dir d (missing_dirs dir d), Ok tt)).

(** * Examples from the tests of the source *)

Example expand_tilde_subdir : expand_user_path "~//x" (Some "/Users/alice") = "/Users/alice/x".
Proof. reflexivity. Qed.
Example expand_tilde_once : expand_user_path "~/~" (Some "/Users/alice") = "/Users/alice/~".
Proof. reflexivity. Qed.
Example expand_dot_tilde : expand_user_path "./~/x" (Some "/Users/alice") = "./~/x".
Proof. reflexivity. Qed.
Example expand_other_user : expand_user_path "~bob/tmp" (Some "/Users/alice") = "~bob/tmp".
Proof. reflexivity. Qed.
Example expand_empty_home : expand_user_path "~/tmp" (Some "") = "~/tmp".
Proof. reflexivity. Qed.
Example parent_plain : parent "log.jsonl" = Some "".
Proof. reflexivity. Qed.
Example parent_absolute : parent "/var/log/otel.jsonl" = Some "/var/log".
Proof. reflexivity. Qed.
Example parent_root : parent "/" = None.
Proof. reflexivity. Qed.

(** * Lemmas *)

Local Close Scope string_scope.

Lemma omap_drop_skipped segs :
  omap body_component (drop_skipped segs) = omap body_component segs.
Proof.
  induction segs as [|seg segs IH]; [done|]. simpl.
  destruct (skipped seg) eqn:E; [|done]. rewrite IH.
  unfold body_component. unfold skipped in E. by rewrite E.
Qed.

Lemma omap_rev {A B} (f : A -> option B) l : omap f (rev l) = rev (omap f l).
Proof.
  induction l as [|a l IH]; [done|]. simpl. rewrite omap_app, IH. simpl.
  destruct (f a); simpl; [done|]. by rewrite app_nil_r.
Qed.

Lemma omap_trim_segments segs :
  omap body_component (trim_segments segs) = omap body_component segs.
Proof.
  unfold trim_segments. by rewrite omap_rev, omap_drop_skipped, omap_rev, omap_drop_skipped, rev_involutive.
Qed.

Lemma drop_skipped_head segs seg rest : drop_skipped segs = seg :: rest -> skipped seg = false.
Proof.
  induction segs as [|s segs IH]; [done|]. simpl. destruct (skipped s) eqn:E; [done|].
  by intros [= <- <-].
Qed.

Lemma drop_skipped_Forall (P : string -> Prop) segs : Forall P segs -> Forall P (drop_skipped segs).
Proof. induction 1 as [|s segs Hs Hsegs IH]; [done|]. simpl. destruct (skipped s); auto. Qed.

Lemma drop_skipped_snoc segs seg :
  skipped seg = false -> exists before, drop_skipped (segs ++ [seg]) = before ++ [seg].
Proof.
  intros E. induction segs as [|s segs IH]; simpl; [rewrite E; by exists []|].
  destruct (skipped s); [done|]. by exists (s :: segs).
Qed.

(** Trimmed segments are empty or start with a component. *)
Lemma trim_segments_head segs seg rest :
  trim_segments segs = seg :: rest -> skipped seg = false.
Proof.
  unfold trim_segments. intros E.
  destruct (drop_skipped segs) as [|s segs'] eqn:Es; [done|].
  pose proof (drop_skipped_head _ _ _ Es) as Hs. simpl in E.
  destruct (drop_skipped_snoc (rev segs') s Hs) as [before Eb]. rewrite Eb, rev_app_distr in E.
  simpl in E. by injection E as <- _.
Qed.

Lemma trim_segments_Forall (P : string -> Prop) segs : Forall P segs -> Forall P (trim_segments segs).
Proof. intros H. by apply Forall_rev, drop_skipped_Forall, Forall_rev, drop_skipped_Forall. Qed.

(** The segments of a joined path: those of the base, without the last one when the base ends
    with a slash, then those of the relative path. *)
Lemma split_path_join base path :
  is_absolute path = false -> base <> ""%string ->
  exists segs, split_on "/" (path_join base path) = (segs ++ split_on "/" path)%list /\ segs <> [] /\
    segment_components (split_on "/" base) = segment_components (segs ++ [""%string])%list.
Proof.
  intros Ha Hb. unfold path_join. rewrite Ha. unfold str_is_empty.
  destruct (String.eqb_spec base ""%string) as [|_]; [done|]. simpl.
  destruct (ends_with_char "/" base) eqn:Ee.
  - apply ends_with_char_app in Ee as (b & ->). exists (split_on "/" b).
    rewrite str_app_assoc. change (String "/" "" +:+ path)%string with (String "/" path).
    rewrite !split_on_app. split_and!; [done| |done].
    destruct (split_on_cons "/" b) as (? & ? & ->). done.
  - exists (split_on "/" base). rewrite split_on_app. split_and!; [done| |].
    + destruct (split_on_cons "/" base) as (? & ? & ->). done.
    + destruct (split_on_cons "/" base) as (seg & segs & E). rewrite E. destruct segs as [|seg' segs].
      * simpl. destruct (String.eqb_spec seg ""%string) as [->|]; [|by destruct (String.eqb seg ".")].
        exfalso. apply Hb. by rewrite <-(join_split "/" base), E.
      * simpl. rewrite omap_app. simpl. by rewrite app_nil_r.
Qed.

Lemma segment_components_app segs rel :
  segs <> [] -> rel <> [] -> segment_components (segs ++ rel) =
    segment_components (segs ++ [""%string]) ++ omap body_component rel.
Proof.
  intros Hs Hr. destruct segs as [|x xs]; [done|]. destruct rel as [|y ys]; [done|].
  assert (forall ws z, segment_components (x :: ws ++ [z]) =
    if String.eqb x "" then RootDir :: omap body_component (ws ++ [z])
    else if String.eqb x "." then CurDir :: omap body_component (ws ++ [z])
    else omap body_component (x :: ws ++ [z])) as Hsnoc by (by intros [|w ws] z).
  assert (segment_components ((x :: xs) ++ y :: ys) =
    if String.eqb x "" then RootDir :: omap body_component (xs ++ y :: ys)
    else if String.eqb x "." then CurDir :: omap body_component (xs ++ y :: ys)
    else omap body_component (x :: xs ++ y :: ys)) as -> by (by destruct xs).
  change ((x :: xs) ++ [""%string]) with (x :: xs ++ [""%string]). rewrite Hsnoc. simpl. rewrite !omap_app. simpl. rewrite !app_nil_r.
  destruct (String.eqb x ""); [done|]. destruct (String.eqb x "."); [done|].
  by destruct (body_component x).
Qed.

(** What [strip_first] leaves is relative and has the components of its segments. *)
Lemma stripped_path segs :
  Forall (no_char "/") segs ->
  let path := join_with "/" (trim_segments segs) in
  is_absolute path = false /\
  omap body_component (split_on "/" path) = omap body_component segs.
Proof.
  intros Hsegs path. pose proof (omap_trim_segments segs) as Ho.
  pose proof (trim_segments_Forall _ _ Hsegs) as Ht. pose proof (trim_segments_head segs) as Hh.
  subst path. destruct (trim_segments segs) as [|x xs]; [by rewrite <-Ho|].
  specialize (Hh x xs eq_refl). unfold skipped in Hh. apply orb_false_iff in Hh as [H1 H2].
  pose proof (split_join "/" (x :: xs) ltac:(done) Ht) as Ej. rewrite Ej. split; [|done].
  unfold is_absolute. destruct (starts_with _ _) eqn:E; [|done].
  apply starts_with_spec in E as [rest Er]. rewrite Er in Ej.
  change ("/" +:+ rest)%string with ("" +:+ String "/" rest)%string in Ej.
  rewrite split_on_app in Ej. injection Ej as <- _. done.
Qed.

(** The components of a joined path are those of its two parts. *)
Lemma components_join base segs :
  base <> ""%string -> Forall (no_char "/") segs ->
  components (path_join base (join_with "/" (trim_segments segs))) =
  components base ++ omap body_component segs.
Proof.
  intros Hb Hsegs. destruct (stripped_path segs Hsegs) as (Ha & Ho).
  destruct (split_path_join base _ Ha Hb) as (xs & E & Hxs & Eb).
  unfold components. rewrite E, Eb, segment_components_app; [by rewrite Ho|done|].
  destruct (split_on_cons "/" (join_with "/" (trim_segments segs))) as (? & ? & ->). done.
Qed.

Lemma first_component seg segs first rest :
  segment_components (seg :: segs) = Normal first :: rest -> first = seg.
Proof.
  assert (segment_components (seg :: segs) = Normal first :: rest ->
    omap body_component (seg :: segs) = Normal first :: rest /\ skipped seg = false) as H.
  { unfold skipped. simpl. destruct segs; destruct (String.eqb seg "") eqn:E1;
      destruct (String.eqb seg ".") eqn:E2; try done.
    all: apply String.eqb_eq in E1; by subst. }
  intros [E Hs]%H. simpl in E. unfold body_component, skipped in *. rewrite Hs in E.
  destruct (String.eqb seg ".."); by simplify_eq.
Qed.

(** ** Parents *)

Lemma join_nonempty c segs : Exists (fun seg => seg <> ""%string) segs -> (0 < String.length (join_with c segs))%nat.
Proof.
  induction 1 as [seg segs Hs|seg segs _ IH]; simpl.
  - destruct seg; [done|]. destruct segs; simpl; lia.
  - destruct segs; [simpl in IH; lia|]. rewrite str_length_app. simpl in *. lia.
Qed.

Lemma join_with_cons c seg segs :
  segs <> [] -> join_with c (seg :: segs) = (seg +:+ String c (join_with c segs))%string.
Proof. by destruct segs. Qed.

Lemma join_prefix_shorter c pre post :
  Exists (fun seg => seg <> ""%string) post ->
  (String.length (join_with c pre) < String.length (join_with c (pre ++ post)))%nat.
Proof.
  intros Hp. induction pre as [|seg pre IH]; [by apply join_nonempty|].
  destruct pre as [|seg' pre]; simpl in *.
  - destruct post as [|y post]; [by inversion Hp|]. rewrite str_length_app. simpl. lia.
  - rewrite !str_length_app. simpl in *. lia.
Qed.

Lemma drop_skipped_suffix segs : exists k, segs = k ++ drop_skipped segs.
Proof.
  induction segs as [|seg segs [k IH]]; [by exists []|]. simpl. destruct (skipped seg); [|by exists []].
  exists (seg :: k). simpl. by f_equal.
Qed.

Lemma last_removed_prefix body x before :
  drop_skipped (rev body) = x :: before ->
  exists post, body = rev (drop_skipped before) ++ post /\ Exists (fun seg => seg <> ""%string) post.
Proof.
  intros E. destruct (drop_skipped_suffix (rev body)) as [k1 E1]. rewrite E in E1.
  destruct (drop_skipped_suffix before) as [k2 E2].
  exists (rev k2 ++ x :: rev k1). split.
  - rewrite <- (rev_involutive body), E1, rev_app_distr. simpl. rewrite E2 at 1.
    rewrite rev_app_distr, <- !app_assoc. done.
  - apply Exists_app. right. left. apply drop_skipped_head in E. intros ->. done.
Qed.

Lemma parent_shorter path above : parent path = Some above -> (String.length above < String.length path)%nat.
Proof.
  unfold parent. pose proof (join_split "/" path) as Ej. destruct (split_on "/" path) as [|seg body]; [done|].
  subst path. destruct (String.eqb_spec seg "") as [->|Hne]; [|destruct (String.eqb_spec seg ".") as [->|Hne2]].
  - destruct (drop_skipped (rev body)) as [|x before] eqn:E; [done|]. intros [= <-].
    destruct (last_removed_prefix _ _ _ E) as (post & Eb & Hp).
    pose proof (join_prefix_shorter "/" (rev (drop_skipped before)) post Hp) as Hl. rewrite <- Eb in Hl.
    assert (body <> []) as Hb by (intros ->; simpl in Hl; lia).
    rewrite (join_with_cons _ _ _ Hb), !str_length_app. simpl. lia.
  - destruct (drop_skipped (rev body)) as [|x before] eqn:E.
    { intros [= <-]. destruct body; simpl; lia. }
    destruct (last_removed_prefix _ _ _ E) as (post & Eb & Hp).
    pose proof (join_prefix_shorter "/" (rev (drop_skipped before)) post Hp) as Hl. rewrite <- Eb in Hl.
    assert (body <> []) as Hb by (intros ->; simpl in Hl; lia).
    rewrite (join_with_cons _ _ _ Hb), str_length_app. simpl.
    destruct (rev (drop_skipped before)) as [|y l]; intros [= <-]; [simpl in *; lia|].
    match goal with |- (String.length ("./" +:+ ?z) < _)%nat => change z with (join_with "/" (y :: l)) end.
    remember (join_with "/" (y :: l)) as above_ eqn:Ea. rewrite str_length_app. change (String.length "./") with 2%nat. lia.
  - destruct (drop_skipped (rev (seg :: body))) as [|x before] eqn:E; [done|]. intros [= <-].
    destruct (last_removed_prefix _ _ _ E) as (post & Eb & Hp).
    pose proof (join_prefix_shorter "/" (rev (drop_skipped before)) post Hp) as Hl. by rewrite <- Eb in Hl.
Qed.

(** The length of a path is fuel enough. *)
Lemma lineage_enough fuel path :
  (String.length path <= fuel)%nat -> path <> ""%string ->
  lineage fuel path = lineage (String.length path) path.
Proof.
  assert (forall n f g p, (String.length p <= n)%nat -> (String.length p <= f)%nat ->
    (String.length p <= g)%nat -> p <> ""%string -> lineage f p = lineage g p) as Hfg.
  { induction n as [|n IH]; intros f g p Hn Hf Hg Hp.
    - destruct p; simpl in *; [done|lia].
    - destruct f as [|f]; [by destruct p; simpl in *; [|lia]|].
      destruct g as [|g]; [by destruct p; simpl in *; [|lia]|]. simpl.
      destruct (parent p) as [above|] eqn:Ea; [|done]. apply parent_shorter in Ea.
      unfold str_is_empty. destruct (String.eqb_spec above ""); [done|]. f_equal. apply IH; [lia..|done]. }
  intros Hf Hp. by apply (Hfg (String.length path)).
Qed.

(** ** Making directories *)

Lemma make_dirs_only d l :
  exists m, foldl make_dir d l =
    set_perms d (mkPermissions (umask (perms d)) (file_modes (perms d)) m (created (perms d)) (removed (perms d))).
Proof.
  revert d. induction l as [|q l IH]; intros d; simpl.
  - exists (dir_modes (perms d)). by destruct d as [? ? ? ? []].
  - destruct (IH (make_dir d q)) as [m ->]. by exists m.
Qed.

Lemma create_private_dir_files dir d : files (create_private_dir dir d).1 = files d.
Proof.
  unfold create_private_dir.
  match goal with |- context [with_fault ?p ?f ?d] => fault_cases (with_fault p f d) end; simpl.
  - case_match; [done|]. by edestruct make_dirs_only as [m ->].
  - by edestruct make_dirs_only as [m ->].
Qed.

Lemma lineage_shorter fuel path q : In q (lineage fuel path) -> (String.length q <= String.length path)%nat.
Proof.
  revert path. induction fuel as [|fuel IH]; intros path; simpl; [done|].
  destruct (parent path) as [above|] eqn:E; [|by intros [->|[]]].
  destruct (str_is_empty above); [by intros [->|[]]|]. apply parent_shorter in E.
  intros [Hq|[->|[]]]%in_app_or; [|done]. specialize (IH above Hq). lia.
Qed.

Lemma make_dirs_other l d q : ~ In q l -> dir_modes (perms (foldl make_dir d l)) !! q = dir_modes (perms d) !! q.
Proof.
  revert d. induction l as [|p l IH]; intros d Hq; [done|]. simpl in *.
  rewrite IH by tauto. simpl. apply lookup_insert_ne. tauto.
Qed.

Lemma create_private_dir_dirs dir d path :
  (String.length dir < String.length path)%nat ->
  dir_modes (perms (create_private_dir dir d).1) !! path = dir_modes (perms d) !! path.
Proof.
  intros Hlen. assert (~ In path (lineage (String.length dir) dir)) as Hn
    by (intros Hin%lineage_shorter; lia).
  assert (forall d', ~ In path (missing_dirs dir d')) as Hm by (intros d' Hin%filter_In; tauto).
  unfold create_private_dir.
  match goal with |- context [with_fault ?p ?f ?d] => fault_cases (with_fault p f d) end; simpl.
  - case_match; [done|]. simpl. by rewrite make_dirs_other.
  - rewrite make_dirs_other; [done|].
    match goal with |- context [take ?k ?l] => intros Hin; eapply Hm; rewrite <- (firstn_skipn k l) end.
    apply in_or_app. by left.
Qed.

Lemma create_private_dir_goes dir d :
  faults d = [] -> Forall (fun q => files d !! q = None) (lineage (String.length dir) dir) ->
  exists m, create_private_dir dir d =
    (set_perms d (mkPermissions (umask (perms d)) (file_modes (perms d)) m (created (perms d)) (removed (perms d))), Ok tt).
Proof.
  intros Hf Hc. unfold create_private_dir, with_fault. rewrite Hf.
  destruct (existsb _ _) eqn:E.
  - apply existsb_exists in E as (q & Hin & Hq). apply bool_decide_eq_true in Hq as [x Hx].
    rewrite List.Forall_forall in Hc. by rewrite (Hc q Hin) in Hx.
  - destruct (make_dirs_only d (missing_dirs dir d)) as [m ->]. by exists m.
Qed.

(** * Properties *)

(** A path whose first component is the tilde is the home directory followed by the other
    components; every other path is left as it is, byte for byte.  An empty home is no home. *)
Theorem expand_user_path_spec path home :
  home <> ""%string ->
  match components path with
  | Normal first :: rest =>
      if String.eqb first "~" then
        components (expand_user_path path (Some home)) = components home ++ rest
      else expand_user_path path (Some home) = path
  | _ => expand_user_path path (Some home) = path
  end /\
  expand_user_path path (Some ""%string) = path /\ expand_user_path path None = path.
Proof.
  intros Hh. split; [|done]. unfold expand_user_path, str_is_empty.
  destruct (String.eqb_spec home ""%string) as [|_]; [done|].
  destruct (String.eqb_spec path "~") as [->|Hp]; [simpl; by rewrite app_nil_r|].
  pose proof (join_split "/" path) as Ej. pose proof (split_on_no_char "/" path) as Hsegs.
  unfold strip_first. unfold components at 1.
  destruct (split_on_cons "/" path) as (seg & segs & E). rewrite E in *.
  apply Forall_cons in Hsegs as [_ Hsegs].
  destruct (String.eqb_spec seg "~") as [->|Hne].
  - assert (segment_components ("~"%string :: segs) = Normal "~" :: omap body_component segs) as ->.
    { by destruct segs. }
    simpl. by apply components_join.
  - pose proof (first_component seg segs) as Hfirst.
    destruct (segment_components (seg :: segs)) as [|[| | |first] rest]; try done.
    rewrite (Hfirst first rest eq_refl). by destruct (String.eqb_spec seg "~").
Qed.

Lemma expand_user_path_spec_witness :
  expand_user_path "~//x/./y/" (Some "/home/a/"%string) = "/home/a/x/./y"%string /\
  components (expand_user_path "~//x/./y/" (Some "/home/a/"%string)) =
    components "/home/a/" ++ [Normal "x"; Normal "y"].
Proof.
  split; [reflexivity|].
  exact (proj1 (expand_user_path_spec "~//x/./y/" "/home/a/" ltac:(discriminate))).
Defined.
