(* ===== verification/Storage.v ===== *)
(** * The append-only log files ([src/src/storage.rs])

    An append is a transaction: when it fails, its partial write is cut off again, at once or
    before the next append.  Opening a file drops an unfinished last line.  [DailyWriter]
    switches to the file of the day of each write. *)

From Stdlib Require Import Strings.Byte.
From S2P Require Import Prelude Io Path.

Local Open Scope Z_scope.
Local Open Scope io_scope.

(** ** Transactional append *)

(** [trait AppendStorage: Write]. *)
Class AppendStorage (S F : Type) := {
  append_start : F -> io S Z;
  truncate : F -> Z -> io S unit;
  storage_write_all : F -> list byte -> io S unit;
  storage_flush : F -> io S unit;
}.

(** [impl AppendStorage for File] (not Windows). *)
#[export] Instance file_storage : AppendStorage Disk string := {
  append_start h := metadata_len h;
  truncate h len := (set_len h len ;! seek_start h len);
  storage_write_all := write_all;
  storage_flush := flush;
}.

Record TransactionalAppend (F : Type) := mkAppend { file : F; rollback : option Z }.
Arguments mkAppend {F} file rollback.
Arguments file {F} t.
Arguments rollback {F} t.

Section transactional.
Context {S F : Type} `{AppendStorage S F}.

(** The writer is part of the state the methods change. *)
Definition repair (t : TransactionalAppend F) (s : S)
    : S * TransactionalAppend F * result unit ErrorKind :=
  match rollback t with
  | Some start =>
      match truncate (file t) start s with
      | (s, Ok _) => (s, mkAppend (file t) None, Ok tt)
      | (s, Err e) => (s, t, Err e)
      end
  | None => (s, t, Ok tt)
  end.

Definition append (t : TransactionalAppend F) (bytes : list byte) (s : S)
    : S * TransactionalAppend F * result unit ErrorKind :=
  match repair t s with
  | (s, t, Err e) => (s, t, Err e)
  | (s, t, Ok _) =>
      match append_start (file t) s with
      | (s, Err e) => (s, t, Err e)
      | (s, Ok start) =>
          match (storage_write_all (file t) bytes ;! storage_flush (file t)) s with
          | (s, Ok _) => (s, t, Ok tt)
          | (s, Err error) =>
              match truncate (file t) start s with
              | (s, Ok _) => (s, mkAppend (file t) None, Err error)
              | (s, Err _) => (s, mkAppend (file t) (Some start), Err error)
              end
          end
      end
  end.
End transactional.

(** What the storage promises, about the bytes [stored] under a handle. *)
Class AppendLaws (S F : Type) `{AppendStorage S F} (stored : S -> F -> list byte) : Prop := {
  append_start_law : forall h s,
    match append_start h s with
    | (s', Ok n) => stored s' h = stored s h /\ n = Z.of_nat (length (stored s h))
    | (s', Err _) => stored s' h = stored s h
    end;
  truncate_law : forall h n s, 0 <= n <= Z.of_nat (length (stored s h)) ->
    match truncate h n s with
    | (s', Ok _) => stored s' h = take (Z.to_nat n) (stored s h)
    | (s', Err _) => stored s' h = stored s h \/ stored s' h = take (Z.to_nat n) (stored s h)
    end;
  write_law : forall h bytes s,
    match storage_write_all h bytes s with
    | (s', Ok _) => stored s' h = stored s h ++ bytes
    | (s', Err _) => exists k, stored s' h = stored s h ++ take k bytes
    end;
  flush_law : forall h s, stored (storage_flush h s).1 h = stored s h;
}.

(** ** Opening: the unfinished tail *)

Definition newline : byte := x0a.

Definition tail_chunk : Z := 8192.

(** [buf.iter().rposition(|byte| *byte == b'\n')]. *)
Fixpoint rposition (bytes : list byte) : option nat :=
  match bytes with
  | [] => None
  | b :: rest =>
      match rposition rest with
      | Some i => Some (S i)
      | None => if Byte.eqb b newline then Some 0%nat else None
      end
  end.

(** The loop of [recover_tail]: each round moves [end] back, so [end] rounds are enough. *)
Fixpoint find_valid_len (h : string) (fuel : nat) (end_ : Z) : io Disk Z :=
  match fuel with
  | O => io_ret 0
  | S fuel =>
      if end_ =? 0 then io_ret 0
      else
        let start := Z.max 0 (end_ - tail_chunk) in
        let size := end_ - start in
        let! _ := seek_start h start in
        let! buf := read_exact h size in
        match rposition buf with
        | Some pos => io_ret (start + Z.of_nat pos + 1)
        | None => find_valid_len h fuel start
        end
  end.

Definition recover_tail (h : string) : io Disk unit :=
  let! original_len := metadata_len h in
  let! valid_len := find_valid_len h (Z.to_nat original_len) original_len in
  if negb (valid_len =? original_len) then truncate h valid_len else io_ret tt.

(** Appending goes to the end whatever the position; reading needs no option here. *)
Definition open_file (path : string) : io Disk string :=
  open_with (restrict_new_file_mode (mkOpenOptions true false false (opt_mode open_options))) path.

(** [AppendFile::open] and [AppendFile::probe]. *)
Definition append_file_open (path : string) : io Disk (TransactionalAppend string) :=
  let! h := open_file path in
  let! _ := recover_tail h in
  io_ret (mkAppend h None).

Definition append_file_probe (path : string) : io Disk unit :=
  let! _ := open_file path in io_ret tt.

(** ** Daily files *)

(** The calendar of the [time] crate. *)
Class Calendar := {
  month_try_from : Z -> option Z;
  from_calendar_date : Z -> Z -> Z -> bool;
}.

(** The dates belong to other crates: what is used of them are parameters.  Days are named by the
    [Display] of [chrono::NaiveDate]; the names of old files are read by the calendar. *)
Class NaiveDates := {
  NaiveDate : Type;
  naive_date_eq :: EqDecision NaiveDate;
  date_display : NaiveDate -> string;
  old_calendar :: Calendar;
}.

Section daily.
Context `{NaiveDates}.

(** The directory is the prefix of every path, as [Path::join] writes it. *)
Definition daily_name (prefix : string) (suffix : option string) (date : NaiveDate) : string :=
  let name := prefix +:+ "." +:+ date_display date in
  match suffix with
  | Some suffix => name +:+ "." +:+ suffix
  | None => name
  end.

Definition daily_path (dir prefix : string) (suffix : option string) (date : NaiveDate) : string :=
  dir +:+ "/" +:+ daily_name prefix suffix date.

Record DailyWriter := mkDaily {
  dw_dir : string;
  dw_prefix : string;
  dw_suffix : option string;
  dw_date : NaiveDate;
  dw_file : TransactionalAppend string;
  dw_sync_on_rotate : bool;
}.

Definition set_dw_file (w : DailyWriter) (f : TransactionalAppend string) : DailyWriter :=
  mkDaily (dw_dir w) (dw_prefix w) (dw_suffix w) (dw_date w) f (dw_sync_on_rotate w).

Definition at_date (dir prefix : string) (suffix : option string) (date : NaiveDate)
    : io Disk DailyWriter :=
  let! f := append_file_open (daily_path dir prefix suffix date) in
  io_ret (mkDaily dir prefix suffix date f false).

Definition with_sync_on_rotate (w : DailyWriter) : DailyWriter :=
  mkDaily (dw_dir w) (dw_prefix w) (dw_suffix w) (dw_date w) (dw_file w) true.

Definition daily_sync_all (w : DailyWriter) : io Disk unit := sync_all (file (dw_file w)).

(** Leave the file of the previous day: repaired, synced when asked to, then replaced. *)
Definition rotate (w : DailyWriter) (date : NaiveDate) (d : Disk)
    : Disk * DailyWriter * result unit ErrorKind :=
  match repair (dw_file w) d with
  | (d, f, Err e) => (d, set_dw_file w f, Err e)
  | (d, f, Ok _) =>
      let w := set_dw_file w f in
      match (if dw_sync_on_rotate w then daily_sync_all w else io_ret tt) d with
      | (d, Err e) => (d, w, Err e)
      | (d, Ok _) =>
          match append_file_open (daily_path (dw_dir w) (dw_prefix w) (dw_suffix w) date) d with
          | (d, Err e) => (d, w, Err e)
          | (d, Ok f) =>
              (d, mkDaily (dw_dir w) (dw_prefix w) (dw_suffix w) date f (dw_sync_on_rotate w), Ok tt)
          end
      end
  end.

Definition append_at (w : DailyWriter) (bytes : list byte) (date : NaiveDate) (d : Disk)
    : Disk * DailyWriter * result unit ErrorKind :=
  match (if decide (dw_date w = date) then (d, w, Ok tt) else rotate w date d) with
  | (d, w, Err e) => (d, w, Err e)
  | (d, w, Ok _) =>
      let '(d, f, r) := append (dw_file w) bytes d in
      (d, set_dw_file w f, r)
  end.
End daily.

(** ** Specification *)

(** The bytes that count: what a pending rollback will leave. *)
Definition logical {S F : Type} (stored : S -> F -> list byte) (t : TransactionalAppend F) (s : S)
    : list byte :=
  match rollback t with
  | Some n => take (Z.to_nat n) (stored s (file t))
  | None => stored s (file t)
  end.

Definition rollback_ok {S F : Type} (stored : S -> F -> list byte) (t : TransactionalAppend F)
    (s : S) : Prop :=
  forall n, rollback t = Some n -> 0 <= n <= Z.of_nat (length (stored s (file t))).

(** The complete lines of a file: everything up to its last newline. *)
Fixpoint complete_lines (bytes : list byte) : list byte :=
  match bytes with
  | [] => []
  | b :: rest =>
      match complete_lines rest with
      | [] => if Byte.eqb b newline then [b] else []
      | kept => b :: kept
      end
  end.

(** * Lemmas *)

#[export] Instance file_storage_laws : AppendLaws Disk string contents.
Proof.
  split.
  - intros h s. simpl. unfold metadata_len. fault_cases (with_fault unharmed
      (fun d => (d, Ok (Z.of_nat (length (contents d h))) : result Z ErrorKind)) s); done.
  - intros h n s Hn. simpl. unfold io_bind, set_len, seek_start.
    match goal with |- context [with_fault ?p ?f s] => fault_cases (with_fault p f s) end;
      [|by left].
    match goal with |- context [with_fault ?p ?f ?d] => fault_cases (with_fault p f d) end.
    2: right.
    all: unfold contents at 1; simpl; rewrite lookup_insert_eq; simpl.
    all: replace (Z.to_nat n - _)%nat with 0%nat
      by (unfold contents in *; simpl in *; lia).
    all: by rewrite app_nil_r.
  - intros h bytes s. simpl. unfold write_all.
    match goal with |- context [with_fault ?p ?f s] => fault_cases (with_fault p f s) end.
    + unfold append_bytes. by rewrite contents_insert, decide_True by done.
    + exists n. unfold append_bytes. by rewrite contents_insert, decide_True by done.
  - intros h s. simpl. unfold flush.
    match goal with |- context [with_fault ?p ?f s] => fault_cases (with_fault p f s) end; done.
Qed.

(** ** Transactions *)

Section transactional_lemmas.
Context {S F : Type} `{AppendStorage S F} (stored : S -> F -> list byte)
  `{!AppendLaws S F stored}.
Implicit Types (t : TransactionalAppend F) (s : S).

Lemma repair_spec t s :
  rollback_ok stored t s ->
  let '(s', t', r) := repair t s in
  file t' = file t /\ rollback_ok stored t' s' /\
  logical stored t' s' = logical stored t s /\ (is_ok r = true -> rollback t' = None).
Proof.
  intros Hok. unfold repair, logical, rollback_ok in *. destruct (rollback t) as [n|] eqn:E.
  - pose proof (truncate_law (file t) n s (Hok n eq_refl)) as Ht. specialize (Hok n eq_refl).
    destruct (truncate (file t) n s) as [s' [[]|e]]; simpl.
    + by rewrite Ht.
    + rewrite E. split_and!; [done| | |done].
      * intros n' [= <-]. destruct Ht as [->| ->]; [done|]. rewrite length_take. lia.
      * destruct Ht as [->| ->]; [done|]. rewrite take_take. f_equal. lia.
  - by rewrite E.
Qed.

(** All of the bytes or none of them, whatever fails. *)
Lemma append_spec t bytes s :
  rollback_ok stored t s ->
  let '(s', t', r) := append t bytes s in
  file t' = file t /\ rollback_ok stored t' s' /\
  logical stored t' s' = logical stored t s ++ (if is_ok r then bytes else []).
Proof.
  intros Hok. unfold append. pose proof (repair_spec t s Hok) as Hr.
  destruct (repair t s) as [[s1 t1] [[]|e]]; destruct Hr as (Ef & Hok1 & El & Hnone);
    [|simpl; by rewrite app_nil_r].
  specialize (Hnone eq_refl). rewrite <-El. clear El Hok.
  pose proof (append_start_law (file t1) s1) as Hs.
  destruct (append_start (file t1) s1) as [s2 [start|e]]; cycle 1.
  { simpl. unfold logical, rollback_ok. rewrite Hnone, Hs. by rewrite app_nil_r. }
  destruct Hs as [Hs ->].
  assert (logical stored t1 s1 = stored s1 (file t1)) as ->
    by (unfold logical; by rewrite Hnone). rewrite <-Hs.
  assert (exists k, let '(s3, r) := (storage_write_all (file t1) bytes ;!
    storage_flush (file t1))%io s2 in
    stored s3 (file t1) = stored s2 (file t1) ++ take k bytes /\
    (is_ok r = true -> take k bytes = bytes)) as [k Hw].
  { unfold io_bind. pose proof (write_law (file t1) bytes s2) as Hw.
    destruct (storage_write_all (file t1) bytes s2) as [s3 [[]|e]].
    - exists (length bytes). pose proof (flush_law (file t1) s3) as Hf.
      destruct (storage_flush (file t1) s3) as [s4 r]. simpl in *.
      by rewrite Hf, Hw, firstn_all.
    - destruct Hw as [k Hw]. by exists k. }
  destruct ((storage_write_all (file t1) bytes ;! storage_flush (file t1))%io s2)
    as [s3 [[]|e]]; destruct Hw as [Hw Hfull].
  { simpl. unfold logical, rollback_ok. rewrite Hnone, Hw, Hfull by done. done. }
  assert (0 <= Z.of_nat (length (stored s2 (file t1))) <= Z.of_nat (length (stored s3 (file t1))))
    as Hrange by (rewrite Hw, length_app; lia).
  pose proof (truncate_law (file t1) _ s3 Hrange) as Ht.
  destruct (truncate (file t1) _ s3) as [s4 [[]|e']]; simpl; rewrite app_nil_r;
    unfold logical, rollback_ok; simpl.
  - split_and!; [done|done|]. by rewrite Ht, Hw, Nat2Z.id, take_app_length.
  - split_and!; [done| |].
    + intros n' [= <-]. destruct Ht as [->| ->]; [done|]. rewrite length_take, Nat2Z.id. lia.
    + rewrite Nat2Z.id. destruct Ht as [->| ->]; rewrite Hw, ?Nat2Z.id; rewrite take_app_length; [done|].
      by rewrite firstn_all.
Qed.
End transactional_lemmas.

(** ** Recovering the tail *)

Lemma rposition_complete bs :
  complete_lines bs = match rposition bs with Some i => take (S i) bs | None => [] end.
Proof.
  induction bs as [|b bs IH]; [done|]. simpl. rewrite IH.
  destruct (rposition bs) as [i|] eqn:E.
  - destruct bs as [|b' bs]; [done|]. done.
  - by destruct (Byte.eqb b newline).
Qed.

Lemma complete_lines_app a b :
  complete_lines (a ++ b) =
  match rposition b with Some i => a ++ take (S i) b | None => complete_lines a end.
Proof.
  induction a as [|x a IH]; simpl.
  - rewrite rposition_complete. by destruct (rposition b).
  - rewrite IH. destruct (rposition b) as [i|] eqn:E; [|done].
    destruct b; [done|]. by destruct a.
Qed.

Lemma rposition_lt bs i : rposition bs = Some i -> (i < length bs)%nat.
Proof.
  revert i. induction bs as [|b bs IH]; intros i; simpl; [done|].
  destruct (rposition bs) as [j|]; [intros [= <-]; specialize (IH j eq_refl); lia|].
  destruct (Byte.eqb b newline); [intros [= <-]; lia|done].
Qed.

Lemma complete_lines_prefix bs : complete_lines bs = take (length (complete_lines bs)) bs.
Proof.
  rewrite rposition_complete. destruct (rposition bs) as [i|] eqn:E; [|done].
  rewrite length_take. pose proof (rposition_lt _ _ E). f_equal. lia.
Qed.

(** A read-only operation leaves all files as they are. *)
Definition read_only {A} (m : io Disk A) : Prop := forall d, files (m d).1 = files d.

Lemma read_only_bind {A B} (m : io Disk A) (k : A -> io Disk B) :
  read_only m -> (forall a, read_only (k a)) -> read_only (let! x := m in k x)%io.
Proof.
  intros Hm Hk d. unfold io_bind. specialize (Hm d). destruct (m d) as [d' [a|e]]; simpl in *; [|done].
  by rewrite Hk.
Qed.

Lemma with_fault_read_only {A} (op : Disk -> Disk * result A ErrorKind) :
  (forall d, files (op d).1 = files d) -> read_only (with_fault unharmed op).
Proof.
  intros Hop d. unfold with_fault. destruct (faults d) as [|[n|] rest]; [apply Hop|done|].
  by rewrite Hop.
Qed.

Lemma read_exact_read_only h n : read_only (read_exact h n).
Proof. apply with_fault_read_only. intros d. simpl. by case_match. Qed.

Lemma seek_start_read_only h n : read_only (seek_start h n).
Proof. by apply with_fault_read_only. Qed.

Lemma find_valid_len_read_only h fuel e : read_only (find_valid_len h fuel e).
Proof.
  revert e. induction fuel as [|fuel IH]; intros e; simpl; [by intros d|].
  destruct (e =? 0); [by intros d|].
  apply read_only_bind; [apply seek_start_read_only|]. intros _.
  apply read_only_bind; [apply read_exact_read_only|]. intros buf.
  by destruct (rposition buf).
Qed.

(** What one chunk holds, when both the seek and the read succeed. *)
Lemma read_chunk h start size d d' buf :
  0 <= start -> 0 <= size ->
  (let! _ := seek_start h start in read_exact h size)%io d = (d', Ok buf) ->
  buf = take (Z.to_nat size) (drop (Z.to_nat start) (contents d h)) /\
  Z.of_nat (length buf) = size.
Proof.
  intros Hs Hn. unfold io_bind, seek_start, read_exact.
  match goal with |- context [with_fault ?p ?f d] => fault_cases (with_fault p f d) end; [|by intros [=]].
  match goal with |- context [with_fault ?p ?f ?d] => fault_cases (with_fault p f d) end; [|by intros [=]].
  unfold contents. simpl. match goal with |- context [Z.eqb ?a size] =>
    destruct (Z.eqb_spec a size) end; by intros [= _ <-].
Qed.

Lemma take_split {A} (l : list A) a b :
  (a <= b)%nat -> take b l = take a l ++ take (b - a) (drop a l).
Proof. intros Hab. rewrite take_drop_commute. replace (a + (b - a))%nat with b by lia.
  rewrite <-(take_drop a (take b l)) at 1. rewrite take_take. by replace (a `min` b)%nat with a by lia.
Qed.

Lemma find_valid_len_spec h fuel e d d' n :
  0 <= e -> e <= Z.of_nat fuel ->
  find_valid_len h fuel e d = (d', Ok n) ->
  n = Z.of_nat (length (complete_lines (take (Z.to_nat e) (contents d h)))).
Proof.
  revert e d. induction fuel as [|fuel IH]; intros e d He Hf; simpl.
  { assert (e = 0) as -> by lia. by intros [= _ <-]. }
  destruct (Z.eqb_spec e 0) as [->|Hne]; [by intros [= _ <-]|].
  set (start := Z.max 0 (e - tail_chunk)). assert (0 <= start < e) as Hst
    by (unfold start, tail_chunk; lia).
  intros Hrun. unfold io_bind in Hrun.
  destruct (seek_start h start d) as [d1 [[]|]] eqn:E1; [|done].
  destruct (read_exact h (e - start) d1) as [d2 [buf|]] eqn:E2; [|done].
  destruct (read_chunk h start (e - start) d d2 buf) as [Hbuf Hlen]; [lia|lia|
    unfold io_bind; by rewrite E1|].
  rewrite (take_split _ (Z.to_nat start) (Z.to_nat e)) by lia.
  replace (Z.to_nat e - Z.to_nat start)%nat with (Z.to_nat (e - start)) by lia.
  rewrite <-Hbuf, complete_lines_app. destruct (rposition buf) as [i|] eqn:Ei.
  - injection Hrun as _ <-. pose proof (rposition_lt _ _ Ei).
    assert (length (take (Z.to_nat start) (contents d h)) = Z.to_nat start) as Hl.
    { rewrite length_take. apply (f_equal length) in Hbuf.
      rewrite length_take, length_drop in Hbuf. lia. }
    rewrite length_app, Hl, length_take. lia.
  - assert (contents d2 h = contents d h) as Hc.
    { pose proof (seek_start_read_only h start d) as F1. rewrite E1 in F1.
      pose proof (read_exact_read_only h (e - start) d1) as F2. rewrite E2 in F2.
      simpl in *. unfold contents. by rewrite F2, F1. }
    rewrite <-Hc. apply (IH start d2); [lia|lia|done].
Qed.

(** ** Other files *)

(** An operation on [h] leaves the other files alone. *)
Definition touches_only {A} (h : string) (m : io Disk A) : Prop :=
  forall d p, p <> h -> contents (m d).1 p = contents d p.

Lemma read_only_touches {A} h (m : io Disk A) : read_only m -> touches_only h m.
Proof. intros Hm d p _. unfold contents. by rewrite Hm. Qed.

Lemma touches_only_bind {A B} h (m : io Disk A) (k : A -> io Disk B) :
  touches_only h m -> (forall a, touches_only h (k a)) -> touches_only h (let! x := m in k x)%io.
Proof.
  intros Hm Hk d p Hp. unfold io_bind. specialize (Hm d p Hp).
  destruct (m d) as [d' [a|e]]; simpl in *; [|done]. by rewrite Hk.
Qed.

Lemma with_fault_touches {A} h (partial : nat -> Disk -> Disk)
    (op : Disk -> Disk * result A ErrorKind) :
  (forall d p, p <> h -> contents (op d).1 p = contents d p) ->
  (forall n d p, p <> h -> contents (partial n d) p = contents d p) ->
  touches_only h (with_fault partial op).
Proof.
  intros Hop Hpart d p Hp. unfold with_fault.
  destruct (faults d) as [|[n|] rest]; simpl; rewrite ?Hop, ?Hpart; done.
Qed.

Lemma truncate_touches h n : touches_only h (truncate h n).
Proof.
  apply touches_only_bind.
  - apply with_fault_touches; [|done]. intros d p Hp. simpl.
    by rewrite contents_insert, decide_False.
  - intros _. apply read_only_touches, seek_start_read_only.
Qed.

Lemma write_touches h bs : touches_only h (write_all h bs).
Proof.
  apply with_fault_touches; intros *; unfold append_bytes; simpl; intros Hp;
    by rewrite contents_insert, decide_False.
Qed.

Lemma flush_read_only h : read_only (flush h).
Proof. by apply with_fault_read_only. Qed.

Lemma metadata_read_only h : read_only (metadata_len h).
Proof. by apply with_fault_read_only. Qed.

Lemma sync_all_read_only h : read_only (sync_all h).
Proof. by apply with_fault_read_only. Qed.

Lemma open_with_handle options path d d' h : open_with options path d = (d', Ok h) -> h = path.
Proof.
  unfold open_with, with_fault. intros H. by repeat (case_match; simplify_eq/=).
Qed.

Lemma open_with_contents options path d p :
  opt_truncate options = false -> contents (open_with options path d).1 p = contents d p.
Proof.
  intros Ht. unfold open_with. rewrite Ht.
  match goal with |- context [with_fault ?p ?f ?d] => fault_cases (with_fault p f d) end; [|done].
  simpl. repeat case_match; simpl; try done. unfold contents. simpl. rewrite lookup_insert.
  case_decide; [subst|done]. by match goal with E : files d !! _ = None |- _ => rewrite E end.
Qed.

Lemma open_file_contents path d p : contents (open_file path d).1 p = contents d p.
Proof. by apply open_with_contents. Qed.

Lemma open_file_handle path d d' h : open_file path d = (d', Ok h) -> h = path.
Proof. apply open_with_handle. Qed.

Lemma repair_touches t d p :
  p <> file t -> contents (repair t d).1.1 p = contents d p.
Proof.
  intros Hp. unfold repair. destruct (rollback t) as [n|]; [|done].
  pose proof (truncate_touches (file t) n d p Hp). by destruct (truncate (file t) n d) as [d' []].
Qed.

Lemma repair_file (t : TransactionalAppend string) (d : Disk) : file (repair t d).1.2 = file t.
Proof. unfold repair. destruct (rollback t); [|done]. by destruct (truncate _ _ d) as [? []]. Qed.

Lemma append_touches t bs d p :
  p <> file t -> contents (append t bs d).1.1 p = contents d p.
Proof.
  intros Hp. unfold append. pose proof (repair_touches t d p Hp) as H1.
  pose proof (repair_file t d) as Ef.
  destruct (repair t d) as [[d1 t1] [[]|e]]; simpl in *; [|done]. rewrite <-Ef in Hp.
  pose proof (read_only_touches (file t1) _ (metadata_read_only (file t1)) d1 p Hp) as H2.
  destruct (metadata_len (file t1) d1) as [d2 [start|e]]; simpl in *; [|by rewrite H2].
  assert (touches_only (file t1) (write_all (file t1) bs ;! flush (file t1))%io) as Hw.
  { apply touches_only_bind; [apply write_touches|]. intros _.
    apply read_only_touches, flush_read_only. }
  specialize (Hw d2 p Hp).
  destruct ((write_all (file t1) bs ;! flush (file t1))%io d2) as [d3 [[]|e]]; simpl in *;
    [congruence|].
  pose proof (truncate_touches (file t1) start d3 p Hp) as H4. simpl in H4.
  destruct ((set_len (file t1) start ;! seek_start (file t1) start)%io d3) as [d4 []];
    simpl in *; congruence.
Qed.

(** ** Opening *)

Lemma recover_tail_spec h d :
  let '(d', r) := recover_tail h d in
  (forall p, p <> h -> contents d' p = contents d p) /\
  (contents d' h = complete_lines (contents d h) \/
   is_ok r = false /\ contents d' h = contents d h).
Proof.
  unfold recover_tail, io_bind.
  pose proof (metadata_read_only h d) as F1. pose proof (append_start_law h d) as L1. simpl in L1.
  destruct (metadata_len h d) as [d1 [len|e]]; simpl in *; cycle 1.
  { split; [intros p _; unfold contents; by rewrite F1|]. by right. }
  destruct L1 as [L1 Hlen].
  pose proof (find_valid_len_read_only h (Z.to_nat len) len d1) as F2.
  destruct (find_valid_len h (Z.to_nat len) len d1) as [d2 [n|e]] eqn:Ef; simpl in *; cycle 1.
  { split; [intros p _; unfold contents; by rewrite F2, F1|].
    right. split; [done|]. unfold contents in *. by rewrite F2. }
  apply find_valid_len_spec in Ef; [|lia|lia].
  assert (contents d2 h = contents d h) as E2 by (unfold contents in *; by rewrite F2).
  replace (take (Z.to_nat len) (contents d1 h)) with (contents d h) in Ef
    by (rewrite L1; symmetry; apply take_ge; lia).
  assert (forall p, contents d2 p = contents d p) as Eall
    by (intros p; unfold contents; by rewrite F2, F1).
  pose proof (complete_lines_prefix (contents d h)) as Hpre.
  destruct (Z.eqb_spec n len) as [->|Hne]; simpl.
  - split; [done|]. left. rewrite E2, Hpre. symmetry. apply take_ge. lia.
  - pose proof (truncate_law h n d2) as Ht. pose proof (truncate_touches h n d2) as Hto.
    simpl in *. destruct ((set_len h n ;! seek_start h n)%io d2) as [d3 r]; simpl in *.
    split; [intros p Hp; by rewrite Hto|].
    assert (0 <= n <= Z.of_nat (length (contents d2 h))) as Hn.
    { rewrite E2. apply (f_equal length) in Hpre. rewrite length_take in Hpre. lia. }
    specialize (Ht Hn). rewrite E2, Ef, Nat2Z.id, <-Hpre in Ht.
    destruct r as [[]|e]; [by left|]. destruct Ht as [->| ->]; [right|left]; done.
Qed.

(** Opening keeps the other files; when it succeeds the file holds its complete lines. *)
Lemma append_file_open_spec path d :
  let '(d', r) := append_file_open path d in
  (forall p, p <> path -> contents d' p = contents d p) /\
  (contents d' path = complete_lines (contents d path) \/ contents d' path = contents d path) /\
  match r with
  | Ok t => t = mkAppend path None /\ contents d' path = complete_lines (contents d path)
  | Err _ => True
  end.
Proof.
  unfold append_file_open, io_bind. pose proof (open_file_contents path d) as Eo.
  pose proof (open_file_handle path d) as Eh.
  destruct (open_file path d) as [d1 [h|e]]; simpl in *; [|split_and!; auto].
  rewrite (Eh d1 h eq_refl). pose proof (recover_tail_spec path d1) as Hr.
  destruct (recover_tail path d1) as [d2 [[]|e]]; destruct Hr as [Hoth Hthis]; simpl in *.
  - rewrite !Eo in *. destruct Hthis as [Hthis|[? _]]; [|done].
    split_and!; [intros; by rewrite Hoth|by left|done|done].
  - rewrite !Eo in *. split_and!; [intros; by rewrite Hoth| |done].
    destruct Hthis as [Hthis|[_ Hthis]]; auto.
Qed.

(** ** Several appends *)

(** The caller's view of a run: the batches offered and whether each was acknowledged. *)
Fixpoint run_appends (t : TransactionalAppend string) (batches : list (list byte)) (d : Disk)
    : Disk * TransactionalAppend string * list bool :=
  match batches with
  | [] => (d, t, [])
  | b :: rest =>
      let '(d, t, r) := append t b d in
      let '(d, t, rs) := run_appends t rest d in
      (d, t, is_ok r :: rs)
  end.

(** The batches that were acknowledged, in order. *)
Definition acknowledged (batches : list (list byte)) (rs : list bool) : list byte :=
  concat (map (fun e : list byte * bool => if e.2 then e.1 else []) (zip batches rs)).

Lemma run_appends_spec t batches d :
  rollback_ok contents t d ->
  let '(d', t', rs) := run_appends t batches d in
  file t' = file t /\ rollback_ok contents t' d' /\
  logical contents t' d' = logical contents t d ++ acknowledged batches rs.
Proof.
  revert t d. induction batches as [|b batches IH]; intros t d Hok; simpl.
  { split_and!; [done..|]. unfold acknowledged. simpl. by rewrite app_nil_r. }
  pose proof (append_spec contents t b d Hok) as Ha.
  destruct (append t b d) as [[d1 t1] r]. destruct Ha as (Ef & Hok1 & El).
  specialize (IH t1 d1 Hok1). destruct (run_appends t1 batches d1) as [[d2 t2] rs].
  destruct IH as (Ef2 & Hok2 & El2). split_and!; [congruence|done|].
  rewrite El2, El, <-app_assoc. done.
Qed.

(** ** Daily files *)

(** [Display] of a date tells dates apart. *)
Class NaiveDatesLaws `{NaiveDates} : Prop := {
  date_display_inj :: Inj (@eq NaiveDate) (@eq string) date_display;
}.

(** The writer holds the file of its date, and a rollback it can do. *)
Definition daily_ok `{NaiveDates} (w : DailyWriter) (d : Disk) : Prop :=
  file (dw_file w) = daily_path (dw_dir w) (dw_prefix w) (dw_suffix w) (dw_date w) /\
  rollback_ok contents (dw_file w) d.

Lemma daily_path_inj `{NaiveDatesLaws} dir prefix suffix d1 d2 :
  daily_path dir prefix suffix d1 = daily_path dir prefix suffix d2 -> d1 = d2.
Proof.
  unfold daily_path, daily_name. intros E%str_app_inj_l%str_app_inj_l.
  apply (inj date_display). destruct suffix as [suffix|]; cbv zeta in E.
  - rewrite !str_app_assoc in E. apply str_app_inj_l, str_app_inj_l in E.
    by apply str_app_inj_r in E.
  - by apply str_app_inj_l, str_app_inj_l in E.
Qed.

Lemma rotate_spec `{NaiveDatesLaws} w date d :
  daily_ok w d -> dw_date w <> date ->
  let path := daily_path (dw_dir w) (dw_prefix w) (dw_suffix w) date in
  let '(d', w', r) := rotate w date d in
  match r with
  | Ok _ =>
      daily_ok w' d' /\ dw_date w' = date /\
      logical contents (dw_file w') d' = complete_lines (contents d path) /\
      rollback (dw_file w') = None /\
      file (dw_file w') <> daily_path (dw_dir w) (dw_prefix w) (dw_suffix w) (dw_date w) /\
      contents d' (file (dw_file w)) = logical contents (dw_file w) d
  | Err _ =>
      daily_ok w' d' /\ dw_date w' = dw_date w /\
      logical contents (dw_file w') d' = logical contents (dw_file w) d
  end.
Proof.
  intros [Hfile Hok] Hne path. unfold rotate.
  assert (path <> file (dw_file w)) as Hpath.
  { rewrite Hfile. unfold path. by intros E%daily_path_inj. }
  pose proof (repair_spec contents (dw_file w) d Hok) as Hr.
  pose proof (repair_touches (dw_file w) d path Hpath) as Hother.
  destruct (repair (dw_file w) d) as [[d1 f] [[]|e]]; destruct Hr as (Ef & Hok1 & El & Hnone);
    cycle 1.
  { unfold daily_ok. simpl. by rewrite Ef. }
  specialize (Hnone eq_refl). cbn [fst] in Hother.
  cbv zeta. set (w1 := set_dw_file w f).
  assert (read_only (if dw_sync_on_rotate w1 then daily_sync_all w1 else io_ret tt)) as Hsync.
  { destruct (dw_sync_on_rotate w1); [apply sync_all_read_only|by intros ?]. }
  specialize (Hsync d1). destruct ((if dw_sync_on_rotate w1 then daily_sync_all w1 else io_ret tt) d1) as [d2 [[]|e]];
    cbn [fst] in Hsync; assert (forall p, contents d2 p = contents d1 p) as E2
      by (intros p; unfold contents; by rewrite Hsync); cycle 1.
  { unfold daily_ok, rollback_ok, logical. simpl. rewrite Hnone, !E2, Ef.
    unfold logical in El. rewrite Hnone, Ef in El. rewrite El. split_and!; (done || by intros n [=]). }
  pose proof (append_file_open_spec path d2) as Ho.
  change (daily_path (dw_dir w1) (dw_prefix w1) (dw_suffix w1) date) with path.
  destruct (append_file_open path d2) as [d3 [t|e]]; destruct Ho as (Hoth & Hthis & Hres).
  - destruct Hres as [-> Hnew]. unfold daily_ok, rollback_ok. simpl.
    split_and!; [done|by intros n [=]|done| |done| |].
    + unfold logical. simpl. by rewrite Hnew, E2, Hother.
    + by rewrite <-Hfile.
    + rewrite Hoth, E2 by done. unfold logical in El. rewrite Hnone, Ef in El. done.
  - unfold daily_ok, rollback_ok, logical. simpl. rewrite Hnone, Ef, Hoth, E2 by done.
    unfold logical in El. rewrite Hnone, Ef in El. rewrite El. split_and!; (done || by intros n [=]).
Qed.

(** [append_at] with its base: what the file of the day holds before the bytes. *)
Lemma append_at_spec `{NaiveDatesLaws} w bytes date d :
  daily_ok w d ->
  let path := daily_path (dw_dir w) (dw_prefix w) (dw_suffix w) date in
  let '(d', w', r) := append_at w bytes date d in
  daily_ok w' d' /\
  match r with
  | Ok _ =>
      dw_date w' = date /\
      logical contents (dw_file w') d' =
        (if decide (dw_date w = date) then logical contents (dw_file w) d
         else complete_lines (contents d path)) ++ bytes /\
      (dw_date w <> date -> contents d' (file (dw_file w)) = logical contents (dw_file w) d)
  | Err _ =>
      (dw_date w' = dw_date w /\
       logical contents (dw_file w') d' = logical contents (dw_file w) d) \/
      (dw_date w <> date /\ dw_date w' = date /\
       logical contents (dw_file w') d' = complete_lines (contents d path) /\
       contents d' (file (dw_file w)) = logical contents (dw_file w) d)
  end.
Proof.
  intros [Hfile Hok] path. unfold append_at. destruct (decide (dw_date w = date)) as [Edate|Hne].
  - pose proof (append_spec contents (dw_file w) bytes d Hok) as Ha.
    destruct (append (dw_file w) bytes d) as [[d' f] r]. destruct Ha as (Ef & Hok' & El).
    unfold daily_ok. simpl. split; [by rewrite Ef|].
    destruct r; simpl in *; [done|]. left. by rewrite El, app_nil_r.
  - pose proof (rotate_spec w date d (conj Hfile Hok) Hne) as Hr.
    destruct (rotate w date d) as [[d1 w1] [[]|e]]; cycle 1.
    { destruct Hr as (Hok1 & Ed & El). split; [done|]. by left. }
    destruct Hr as (Hok1 & Ed & El & Hroll & Hpath & Hold).
    destruct Hok1 as [Hfile1 Hok1]. fold path in Hfile1.
    pose proof (append_spec contents (dw_file w1) bytes d1 Hok1) as Ha.
    assert (file (dw_file w) <> file (dw_file w1)) as Hp by (rewrite Hfile; by symmetry).
    pose proof (append_touches (dw_file w1) bytes d1 _ Hp) as Hkeep.
    destruct (append (dw_file w1) bytes d1) as [[d2 f] r]. destruct Ha as (Ef & Hok2 & El2).
    unfold daily_ok. simpl in *. split; [by rewrite Ef|].
    rewrite El in El2. rewrite Hold in Hkeep. destruct r; simpl in *.
    + done.
    + right. by rewrite El2, app_nil_r.
Qed.

(** ** Without faults *)

Lemma find_valid_len_goes h fuel e d :
  faults d = [] -> 0 <= e <= Z.of_nat (length (contents d h)) ->
  exists n c, find_valid_len h fuel e d = (mkDisk (files d) c (synced d) [] (perms d), Ok n).
Proof.
  revert e d. induction fuel as [|fuel IH]; intros e d Hf He; simpl.
  { exists 0, (cursor d). destruct d. simpl in *. by subst. }
  destruct (e =? 0). { exists 0, (cursor d). destruct d. simpl in *. by subst. }
  unfold io_bind, seek_start, read_exact, with_fault. rewrite Hf. simpl.
  set (start := Z.max 0 (e - tail_chunk)).
  assert (0 <= start <= e) as Hst by (unfold start, tail_chunk; lia). clearbody start.
  unfold contents in *. simpl. rewrite length_take, length_drop.
  match goal with |- context [Z.eqb ?a ?b] => replace (Z.eqb a b) with true
    by (symmetry; apply Z.eqb_eq; lia) end.
  destruct (rposition _) as [pos|]; [by eexists _, _|].
  destruct (IH start (mkDisk (files d) (start + (e - start)) (synced d) [] (perms d))) as (n & c & E);
    [done|unfold contents in *; simpl; lia|]. rewrite E. by exists n, c.
Qed.

Lemma recover_tail_goes h d :
  faults d = [] -> (recover_tail h d).2 = Ok tt /\ faults (recover_tail h d).1 = [].
Proof.
  intros Hf. unfold recover_tail, io_bind, metadata_len, with_fault. rewrite Hf. simpl.
  destruct (find_valid_len_goes h (Z.to_nat (Z.of_nat (length (contents d h))))
    (Z.of_nat (length (contents d h))) d Hf) as (n & c & E); [lia|].
  rewrite E. simpl. destruct (negb _); [|done].
  unfold io_bind, set_len, seek_start, with_fault. done.
Qed.

Lemma append_file_open_goes path d :
  faults d = [] -> dir_modes (perms d) !! path = None ->
  is_ok (append_file_open path d).2 = true /\ faults (append_file_open path d).1 = [].
Proof.
  intros Hf Hp. unfold append_file_open, open_file, open_with, io_bind, with_fault. rewrite Hf, Hp. simpl.
  destruct (files d !! path); simpl;
    match goal with |- context [recover_tail ?h ?x] => destruct (recover_tail_goes h x Hf) as [E1 E2];
      destruct (recover_tail h x) as [? [[]|]]; done end.
Qed.

Lemma repair_goes (t : TransactionalAppend string) (d : Disk) :
  faults d = [] ->
  let '(d', _, r) := repair t d in is_ok r = true /\ faults d' = [] /\ perms d' = perms d.
Proof.
  intros Hf. unfold repair. destruct (rollback t); [|done]. simpl.
  unfold io_bind, set_len, seek_start, with_fault. rewrite Hf. simpl. by rewrite Hf.
Qed.

Lemma append_goes (t : TransactionalAppend string) bytes (d : Disk) :
  faults d = [] -> is_ok (append t bytes d).2 = true.
Proof.
  intros Hf. unfold append. pose proof (repair_goes t d Hf) as Hr.
  destruct (repair t d) as [[d1 f] [[]|]]; destruct Hr as (? & Hf1 & _); [|done].
  simpl. unfold io_bind at 1, metadata_len, with_fault at 1. rewrite Hf1. cbv beta iota.
  unfold write_all, with_fault at 1. rewrite Hf1. cbv beta iota.
  unfold append_bytes, flush, with_fault at 1. simpl. by rewrite Hf1.
Qed.

(** A daily write fails only when the system does. *)
Lemma append_at_goes `{NaiveDates} w bytes date d :
  faults d = [] -> dir_modes (perms d) !! daily_path (dw_dir w) (dw_prefix w) (dw_suffix w) date = None ->
  is_ok (append_at w bytes date d).2 = true.
Proof.
  intros Hf Hp. unfold append_at.
  assert (forall w d, faults d = [] ->
    is_ok (let '(d, f, r) := append (dw_file w) bytes d in (d, set_dw_file w f, r)).2 = true) as Happ.
  { intros w1 d1 Hf1. pose proof (append_goes (dw_file w1) bytes d1 Hf1).
    by destruct (append _ bytes d1) as [[? ?] ?]. }
  destruct (decide _); [by apply Happ|]. unfold rotate.
  pose proof (repair_goes (dw_file w) d Hf) as Hr.
  destruct (repair (dw_file w) d) as [[d1 f] [[]|]]; destruct Hr as (? & Hf1 & Hp1); [|done].
  cbn [set_dw_file dw_dir dw_prefix dw_suffix dw_file dw_sync_on_rotate].
  assert (exists d2, (if dw_sync_on_rotate w then daily_sync_all (set_dw_file w f) else io_ret tt) d1 = (d2, Ok tt) /\
    faults d2 = [] /\ perms d2 = perms d) as (d2 & -> & Hf2 & Hp2).
  { destruct (dw_sync_on_rotate w); [|by exists d1].
    unfold daily_sync_all, sync_all, with_fault. rewrite Hf1. by eexists. }
  destruct (append_file_open_goes (daily_path (dw_dir w) (dw_prefix w) (dw_suffix w) date) d2) as [Ho Hf3];
    [done|by rewrite Hp2|].
  destruct (append_file_open _ d2) as [d3 [t|]]; [|done]. by apply Happ.
Qed.

(** * Properties *)

(** C14. A log file holds exactly the acknowledged batches: whatever fails during a run of
    appends, what the file will hold once the pending rollback is done is what it held before
    followed by the batches that were acknowledged, in order and whole.  A failed append
    leaves no trace, and a failed rollback cannot corrupt a later line. *)
Theorem log_holds_acknowledged_batches path before batches d :
  contents d path = before ->
  let '(d', t', rs) := run_appends (mkAppend path None) batches d in
  logical contents t' d' = before ++ acknowledged batches rs.
Proof.
  intros <-. pose proof (run_appends_spec (mkAppend path None) batches d) as Hr.
  destruct (run_appends _ batches d) as [[d' t'] rs]. apply Hr. by intros n [=].
Qed.

(** The second batch fails half way and so does its first rollback. *)
Definition faulty_disk : Disk :=
  mkDisk ∅ 0 ∅ [None; None; None; None; Some 1%nat; Some 0%nat] sample_perms.

Lemma log_holds_acknowledged_batches_witness :
  (run_appends (mkAppend "log" None) [[x61; x0a]; [x62; x62; x0a]; [x63; x0a]] faulty_disk).2 =
    [true; false; true] /\
  logical contents (run_appends (mkAppend "log" None) [[x61; x0a]; [x62; x62; x0a]; [x63; x0a]]
    faulty_disk).1.2 (run_appends (mkAppend "log" None)
    [[x61; x0a]; [x62; x62; x0a]; [x63; x0a]] faulty_disk).1.1 = [x61; x0a; x63; x0a].
Proof.
  split; [reflexivity|].
  pose proof (log_holds_acknowledged_batches "log" []
    [[x61; x0a]; [x62; x62; x0a]; [x63; x0a]] faulty_disk eq_refl) as H. vm_cast_no_check H.
Defined.

(** Opening a log file removes exactly its unfinished last line, however long it is, by
    reading fixed-size chunks from the end: the file is left with its complete lines, or
    untouched when an operation fails; no other file changes. *)
Theorem recover_tail_keeps_complete_lines h d :
  let '(d', r) := recover_tail h d in
  (forall p, p <> h -> contents d' p = contents d p) /\
  match r with
  | Ok _ => contents d' h = complete_lines (contents d h)
  | Err _ => contents d' h = complete_lines (contents d h) \/ contents d' h = contents d h
  end.
Proof.
  pose proof (recover_tail_spec h d) as Hs. destruct (recover_tail h d) as [d' [[]|e]];
    destruct Hs as [Hoth [Hthis|[Hr Hthis]]]; split; auto; done.
Qed.

(** C35. On a disk without faults the recovery of a log comes to its end for every file: the loop over
    chunks that looks for the last newline stops - the length of the file is fuel enough - and
    opening succeeds with exactly the complete lines, whatever bytes, however long the last
    line and even if there is no newline at all; the other files are as before. *)
Theorem recover_tail_total h d :
  faults d = [] ->
  (recover_tail h d).2 = Ok tt /\ faults (recover_tail h d).1 = [] /\
  contents (recover_tail h d).1 h = complete_lines (contents d h) /\
  forall p, p <> h -> contents (recover_tail h d).1 p = contents d p.
Proof.
  intros Hf. destruct (recover_tail_goes h d Hf) as [Hok Hf'].
  pose proof (recover_tail_spec h d) as Hs. destruct (recover_tail h d) as [d' [[]|e]]; [|done].
  destruct Hs as [Hoth [Hthis|[Hr _]]]; [by auto|done].
Qed.

Definition torn_tail : Disk := mkDisk {["log" := [x61; x0a; x62]]} 0 ∅ [] sample_perms.

Lemma recover_tail_total_witness :
  (recover_tail "log" torn_tail).2 = Ok tt /\
  contents (recover_tail "log" torn_tail).1 "log" = complete_lines [x61; x0a; x62] /\
  complete_lines [x61; x0a; x62] = [x61; x0a].
Proof.
  destruct (recover_tail_total "log" torn_tail eq_refl) as (Hok & _ & Hthis & _).
  split; [exact Hok|]. split; [exact Hthis|reflexivity].
Defined.

(** Dates written as [YYYY-MM-DD], to evaluate examples. *)
Definition sample_calendar : Calendar := {|
  month_try_from m := if (1 <=? m) && (m <=? 12) then Some m else None;
  from_calendar_date _ _ day := (1 <=? day) && (day <=? 28);
|}.
Definition sample_dates : NaiveDates := {|
  NaiveDate := string;
  naive_date_eq := _;
  date_display := fun s => s;
  old_calendar := sample_calendar;
|}.
Lemma sample_dates_laws : @NaiveDatesLaws sample_dates.
Proof. split. by intros a b E. Qed.
