(* ===== verification/Health.v ===== *)
(** * Reporting write failures ([src/src/sink.rs])

    [WriteHealth] decides when a run of failures is reported: when it starts, at intervals
    while it goes on, and when it is over.  [PrettyWriterState] adds the closed pipe of stdout.
    Instants and durations are nanoseconds. *)

From stdpp Require Import pretty.
From S2P Require Import Prelude Io.

Local Open Scope Z_scope.

(** ** Time *)

(** [Instant::saturating_duration_since]. *)
Definition since (now earlier : Z) : Z := Z.max 0 (now - earlier).

Definition PRETTY_FAILURE_REPORT_INTERVAL : Z := secs (10 * 60).
Definition PRETTY_RECOVERY_QUIET_PERIOD : Z := secs 60.

(** ** Health of one destination *)

Record FailureStreak := mkStreak {
  streak_since : Z;
  failures : Z;
  last_failure : Z;
  last_report : Z;
}.

(** [None] when nothing is failing. *)
Record WriteHealth := mkHealth { failing : option FailureStreak }.

Definition health_default : WriteHealth := mkHealth None.

Inductive HealthReport :=
| Silent
| Started
| Ongoing (failures elapsed : Z)
| Recovered (failures elapsed : Z).

Definition on_failure (h : WriteHealth) (now : Z) : WriteHealth * HealthReport :=
  match failing h with
  | None => (mkHealth (Some (mkStreak now 1 now now)), Started)
  | Some streak =>
      let streak :=
        mkStreak (streak_since streak) (sat_add (failures streak) 1) now (last_report streak) in
      if since now (last_report streak) <? PRETTY_FAILURE_REPORT_INTERVAL then
        (mkHealth (Some streak), Silent)
      else
        let streak := mkStreak (streak_since streak) (failures streak) (last_failure streak) now in
        (mkHealth (Some streak), Ongoing (failures streak) (since now (streak_since streak)))
  end.

Definition on_success (h : WriteHealth) (now : Z) : WriteHealth * HealthReport :=
  match failing h with
  | Some streak =>
      if PRETTY_RECOVERY_QUIET_PERIOD <=? since now (last_failure streak) then
        (mkHealth None, Recovered (failures streak) (since now (streak_since streak)))
      else (h, Silent)
  | None => (h, Silent)
  end.

(** Failures, how long they lasted, and how long ago the last one was. *)
Definition unresolved (h : WriteHealth) (now : Z) : option (Z * Z * Z) :=
  option_map (fun streak =>
    (failures streak, since now (streak_since streak), since now (last_failure streak)))
    (failing h).

(** ** Health of one writer *)

Record PrettyWriterState := mkWriter { broken_pipe : bool; health : WriteHealth }.

Definition writer_default : PrettyWriterState := mkWriter false health_default.

Definition should_write (s : PrettyWriterState) : bool := negb (broken_pipe s).

(** [is_stdout] is the only thing asked of the target. *)
Definition record_result (s : PrettyWriterState) (is_stdout : bool) (r : result unit ErrorKind)
    (now : Z) : PrettyWriterState * HealthReport :=
  match r with
  | Ok _ =>
      let '(h, report) := on_success (health s) now in (mkWriter (broken_pipe s) h, report)
  | Err e =>
      if bool_decide (e = BrokenPipe) && is_stdout then (mkWriter true (health s), Silent)
      else let '(h, report) := on_failure (health s) now in (mkWriter (broken_pipe s) h, report)
  end.

(** ** What is logged *)

Inductive level := LevelError | LevelWarn | LevelInfo.

(** A line of the log: the destination it names, the cause, and the failures with the seconds
    they have lasted. *)
Record log_line := mkLog {
  log_level : level;
  log_destination : option string;
  log_error : option string;
  log_failures : option (Z * Z);
  log_last_failure : option Z;
  log_message : string;
}.

(** [Duration::as_secs]. *)
Definition as_secs (d : Z) : Z := d / secs 1.

Definition log_health (destination : string) (report : HealthReport) (error : option string)
    : option log_line :=
  match report with
  | Silent => None
  | Started =>
      Some (mkLog LevelError (Some destination) error None None
        (let minutes := pretty (as_secs PRETTY_FAILURE_REPORT_INTERVAL / 60) in
         "failed to write human-readable output; repeated failures are reported every " +:+ minutes +:+
         " minutes until it recovers. JSONL persistence is unaffected. / 人が読める出力の書き込みに失敗しました。回復するまで、続く失敗は " +:+
         minutes +:+ " 分ごとにまとめて報告します。JSONL 永続化には影響しません。"))
  | Ongoing failures elapsed =>
      Some (mkLog LevelWarn (Some destination) error (Some (failures, as_secs elapsed)) None
        "human-readable output is still failing")
  | Recovered failures elapsed =>
      Some (mkLog LevelInfo (Some destination) None (Some (failures, as_secs elapsed)) None
        "human-readable output recovered")
  end.

Definition log_jsonl_health (report : HealthReport) (error : option string) : option log_line :=
  match report with
  | Silent => None
  | Started =>
      Some (mkLog LevelError None error None None
        "JSONL persistence failed; rejecting batches with retryable status")
  | Ongoing failures elapsed =>
      Some (mkLog LevelWarn None error (Some (failures, as_secs elapsed)) None
        "JSONL persistence is still failing")
  | Recovered failures elapsed =>
      Some (mkLog LevelInfo None None (Some (failures, as_secs elapsed)) None
        "JSONL persistence recovered")
  end.

Definition report_unresolved_at_shutdown (s : PrettyWriterState) (destination : string) (now : Z)
    : option log_line :=
  option_map (fun u =>
    let '(failures, elapsed, since_last_failure) := u in
    mkLog LevelWarn (Some destination) None (Some (failures, as_secs elapsed))
      (Some (as_secs since_last_failure))
      "human-readable output had not recovered from write failures at shutdown")
    (unresolved (health s) now).

(** ** Specification: a history of timed outcomes *)

(** [(now, true)] is a success, [(now, false)] a failure. *)
Definition outcome : Type := Z * bool.

Definition health_step (h : WriteHealth) (e : outcome) : WriteHealth * HealthReport :=
  if e.2 then on_success h e.1 else on_failure h e.1.

(** The reports of a history, each with its time. *)
Fixpoint reports (h : WriteHealth) (evs : list outcome) : list (Z * HealthReport) :=
  match evs with
  | [] => []
  | e :: evs => let '(h, r) := health_step h e in (e.1, r) :: reports h evs
  end.

Fixpoint health_after (h : WriteHealth) (evs : list outcome) : WriteHealth :=
  match evs with
  | [] => h
  | e :: evs => health_after (health_step h e).1 evs
  end.

(** Time does not run backwards. *)
Definition ordered (evs : list outcome) : Prop := Sorted Z.le (map fst evs).

Definition is_loud (r : HealthReport) : bool :=
  match r with Silent => false | _ => true end.

(** What a reader of the reports may expect: an incident opens with [Started], is repeated no
    sooner than the interval, and closes with [Recovered]; [opened] is the time of the last
    report of the open incident. *)
Fixpoint well_reported (opened : option Z) (rs : list (Z * HealthReport)) : Prop :=
  match rs with
  | [] => True
  | (now, r) :: rs =>
      match r, opened with
      | Silent, _ => well_reported opened rs
      | Started, None => well_reported (Some now) rs
      | Ongoing n _, Some last =>
          1 < n /\ PRETTY_FAILURE_REPORT_INTERVAL <= now - last /\ well_reported (Some now) rs
      | Recovered n _, Some _ => 1 <= n /\ well_reported None rs
      | _, _ => False
      end
  end.

(** The failures of the current incident, counted from the history alone: an incident ends
    with a success at least the quiet period after its last failure. *)
Fixpoint incident (acc : option (Z * Z)) (evs : list outcome) : option (Z * Z) :=
  match evs with
  | [] => acc
  | (now, ok) :: evs =>
      incident
        (match acc with
         | None => if ok : bool then None else Some (1, now)
         | Some (n, last) =>
             if ok then if PRETTY_RECOVERY_QUIET_PERIOD <=? now - last then None else acc
             else Some (n + 1, now)
         end) evs
  end.

(** * Lemmas *)

(** A line is logged exactly for the reports that say something. *)
Lemma log_health_loud destination r e :
  is_Some (log_health destination r e) <-> is_loud r = true.
Proof. split; [by destruct r as [| | |]; intros [? ?]|by destruct r]. Qed.

Lemma log_jsonl_health_loud r e : is_Some (log_jsonl_health r e) <-> is_loud r = true.
Proof. split; [by destruct r as [| | |]; intros [? ?]|by destruct r]. Qed.

(** A streak remembers its last failure and the last report, both in the past. *)
Definition streak_ok (h : WriteHealth) (now : Z) : Prop :=
  forall st, failing h = Some st ->
    1 <= failures st <= u64_max /\ last_failure st <= now /\ last_report st <= last_failure st /\
    streak_since st <= last_report st.

Lemma streak_ok_step h e now :
  streak_ok h now -> now <= e.1 -> streak_ok (health_step h e).1 e.1.
Proof.
  destruct e as [t ok]. intros Hh Ht st. unfold health_step, on_success, on_failure. simpl in *.
  destruct (failing h) as [s|] eqn:E.
  - destruct (Hh s E) as (? & ? & ? & ?). unfold sat_add, u64_max in *. destruct ok.
    + destruct (_ <=? _); simpl; [done|]. rewrite E. intros [= <-]. split_and!; lia.
    + destruct (_ <? _); simpl; intros [= <-]; simpl; split_and!; lia.
  - destruct ok; simpl; [by rewrite E|]. intros [= <-]. simpl. unfold u64_max. split_and!; lia.
Qed.

Lemma reports_well_reported h evs now :
  streak_ok h now -> Sorted Z.le (now :: map fst evs) ->
  well_reported (option_map last_report (failing h)) (reports h evs).
Proof.
  revert h now. induction evs as [|e evs IH]; intros h now Hh Hs; [done|].
  apply Sorted_inv in Hs as [Hs Hnow]. apply HdRel_inv in Hnow. simpl in Hnow.
  pose proof (streak_ok_step h e now Hh Hnow) as Hh'.
  specialize (IH (health_step h e).1 e.1 Hh' Hs). destruct e as [t ok]. simpl in *.
  unfold health_step, on_success, on_failure in *. simpl in *.
  destruct (failing h) as [s|] eqn:E; simpl.
  - destruct (Hh s E) as (? & ? & ? & ?). destruct ok.
    + destruct (_ <=? _); simpl in *; [split; [lia|done]|]. by rewrite E in IH.
    + destruct (Z.ltb_spec (since t (last_report s)) PRETTY_FAILURE_REPORT_INTERVAL); simpl in *;
        [done|]. unfold since, sat_add, u64_max in *. split_and!; [lia|lia|done].
  - destruct ok; simpl in *; [by rewrite E in IH|done].
Qed.

Lemma health_incident h evs now :
  streak_ok h now -> Sorted Z.le (now :: map fst evs) ->
  (forall st, failing h = Some st -> failures st + Z.of_nat (length evs) <= u64_max) ->
  Z.of_nat (length evs) <= u64_max ->
  option_map (fun st => (failures st, last_failure st)) (failing (health_after h evs)) =
  incident (option_map (fun st => (failures st, last_failure st)) (failing h)) evs.
Proof.
  revert h now. induction evs as [|e evs IH]; intros h now Hh Hs Hmax Hlen; [done|].
  apply Sorted_inv in Hs as [Hs Hnow]. apply HdRel_inv in Hnow. simpl in Hnow, Hlen.
  pose proof (streak_ok_step h e now Hh Hnow) as Hh'.
  assert (forall st, failing (health_step h e).1 = Some st ->
    failures st + Z.of_nat (length evs) <= u64_max) as Hmax'.
  { destruct e as [t ok]. unfold health_step, on_success, on_failure. simpl in *.
    destruct (failing h) as [s|] eqn:E; intros st.
    - specialize (Hmax s eq_refl). destruct ok.
      + destruct (_ <=? _); simpl; [done|]. rewrite E. intros [= <-]. lia.
      + destruct (_ <? _); simpl; intros [= <-]; unfold sat_add, u64_max in *; simpl; lia.
    - destruct ok; simpl; [by rewrite E|]. intros [= <-]. simpl. lia. }
  simpl. rewrite (IH _ e.1 Hh' Hs Hmax') by lia. destruct e as [t ok]. simpl. f_equal.
  unfold health_step, on_success, on_failure. simpl in *.
  destruct (failing h) as [s|] eqn:E; simpl.
  - destruct (Hh s E) as (? & ? & ? & ?). specialize (Hmax s eq_refl). destruct ok.
    + replace (since t (last_failure s)) with (t - last_failure s) by (unfold since; lia).
      destruct (_ <=? _); simpl; [done|]. by rewrite E.
    + unfold sat_add. rewrite Z.min_r by lia. by destruct (_ <? _).
  - destruct ok; simpl; [by rewrite E|done].
Qed.

(** * Properties *)

(** Failures are reported as incidents: from a healthy start, whatever mix of successes
    and failures follows, an incident opens with one report, is repeated no sooner than ten
    minutes after the last report, and closes with one report; nothing is reported outside. *)
Theorem failures_reported_as_incidents evs :
  ordered evs -> well_reported None (reports health_default evs).
Proof.
  intros Hs. destruct evs as [|e evs]; [done|].
  apply (reports_well_reported health_default (e :: evs) e.1); [by intros st [=]|].
  constructor; [done|]. constructor. lia.
Qed.

Lemma failures_reported_as_incidents_witness :
  well_reported None (reports health_default
    [(0, false); (secs 30, true); (secs 40, false); (secs 700, false); (secs 800, true)]).
Proof. apply failures_reported_as_incidents. repeat constructor; vm_compute; discriminate. Defined.

(** The failure count and the time of the last failure are those of the incident in the
    history: successes in between do not end it unless the quiet period has passed. *)
Theorem streak_counts_the_incident evs :
  ordered evs -> Z.of_nat (length evs) <= u64_max ->
  option_map (fun st => (failures st, last_failure st)) (failing (health_after health_default evs))
  = incident None evs.
Proof.
  intros Hs Hlen. destruct evs as [|e evs]; [done|].
  apply (health_incident health_default (e :: evs) e.1); [by intros st [=]| |by intros st [=]|done].
  constructor; [done|]. constructor. lia.
Qed.

Lemma streak_counts_the_incident_witness :
  incident None [(0, false); (secs 30, true); (secs 40, false)] = Some (2, secs 40) /\
  option_map (fun st => (failures st, last_failure st)) (failing (health_after health_default
    [(0, false); (secs 30, true); (secs 40, false)])) = Some (2, secs 40).
Proof.
  split; [reflexivity|]. rewrite streak_counts_the_incident; [reflexivity| |].
  - repeat constructor; vm_compute; discriminate.
  - vm_compute. discriminate.
Defined.

(** Only a closed pipe on stdout stops a writer, and nothing reports or counts it; any
    other failure, a closed pipe on a file included, leaves the writer writing. *)
Theorem only_closed_stdout_stops s is_stdout r now :
  let '(s', report) := record_result s is_stdout r now in
  should_write s' =
    should_write s && negb (is_stdout && bool_decide (r = Err BrokenPipe)) /\
  (is_stdout = true -> r = Err BrokenPipe -> report = Silent /\ health s' = health s).
Proof.
  unfold record_result, should_write.
  destruct r as [[]|[]], is_stdout; simpl;
    try destruct (on_success (health s) now); try destruct (on_failure (health s) now); simpl;
    by rewrite ?andb_true_r, ?andb_false_r.
Qed.
