(* ===== verification/Pretty.v ===== *)
(** * The queues of human-readable output ([src/src/sink.rs])

    Each destination has a bounded queue, a byte budget shared by everything waiting in it,
    and one writer task.  Handlers enqueue concurrently and never wait: what does not fit is
    dropped and counted.  The step relation interleaves the atomic accesses of all handlers
    with the writer, and with the drain of the shutdown. *)

From S2P Require Import Prelude Io Health.

Local Open Scope Z_scope.

(** ** Jobs and drops *)

Definition PRETTY_QUEUE_CAPACITY : nat := 256.
Definition PRETTY_QUEUE_MAX_BYTES : Z := 64 * 1024 * 1024.

Record PrettyJob := mkJob { rendered : string; want_summary : bool; sync : bool }.

Definition job_len (j : PrettyJob) : Z := Z.of_nat (String.length (rendered j)).

Inductive DropReason := WriterStopped | QueueFull | ByteBudget.

#[export] Instance DropReason_eq_dec : EqDecision DropReason.
Proof. solve_decision. Defined.

(** What a drop writes to the log. *)
Inductive DropLog := NoLog | StoppedError | StillStoppedWarn | BehindWarn.

(** The shared part of [PrettyOutput]; [closed] once the receiver is gone. *)
Record PrettyOutput := mkOutput {
  queue : list PrettyJob;
  closed : bool;
  queued_bytes : Z;
  max_queued_bytes : Z;
  dropped : Z;
  writer_stop_reported : bool;
}.

Definition output_spawn : PrettyOutput := mkOutput [] false 0 PRETTY_QUEUE_MAX_BYTES 0 false.

Definition set_queue (o : PrettyOutput) (q : list PrettyJob) : PrettyOutput :=
  mkOutput q (closed o) (queued_bytes o) (max_queued_bytes o) (dropped o) (writer_stop_reported o).
Definition set_queued_bytes (o : PrettyOutput) (n : Z) : PrettyOutput :=
  mkOutput (queue o) (closed o) n (max_queued_bytes o) (dropped o) (writer_stop_reported o).

(** ** The atomic accesses of [enqueue] *)

(** [queued_bytes.fetch_add(len)] and the budget it leaves. *)
Definition reserve (o : PrettyOutput) (j : PrettyJob) : PrettyOutput * bool :=
  let len := job_len j in
  let queued := queued_bytes o in
  let over_budget := max_queued_bytes o <? Z.min (word - 1) (queued + len) in
  (set_queued_bytes o (wrap_add queued len), over_budget).

(** [tx.is_closed()], then the budget. *)
Definition check_open (o : PrettyOutput) (over_budget : bool) : option DropReason :=
  if closed o then Some WriterStopped
  else if over_budget then Some ByteBudget
  else None.

(** [tx.try_send(job)]. *)
Definition try_send (o : PrettyOutput) (j : PrettyJob) : PrettyOutput * option DropReason :=
  if closed o then (o, Some WriterStopped)
  else if (PRETTY_QUEUE_CAPACITY <=? length (queue o))%nat then (o, Some QueueFull)
  else (set_queue o (queue o ++ [j]), None).

Definition report_drop (o : PrettyOutput) (reason : DropReason) : PrettyOutput * DropLog :=
  let n := wrap_add (dropped o) 1 in
  let o' stop := mkOutput (queue o) (closed o) (queued_bytes o) (max_queued_bytes o) n stop in
  match reason with
  | WriterStopped =>
      if negb (writer_stop_reported o) then (o' true, StoppedError)
      else (o' true, if is_power_of_two n then StillStoppedWarn else NoLog)
  | _ => (o' (writer_stop_reported o), if is_power_of_two n then BehindWarn else NoLog)
  end.

Definition give_back (o : PrettyOutput) (j : PrettyJob) (reason : DropReason)
    : PrettyOutput * DropLog :=
  report_drop (set_queued_bytes o (wrap_sub (queued_bytes o) (job_len j))) reason.

(** [enqueue], run without interruption. *)
Definition enqueue (o : PrettyOutput) (text : string) (want_summary : bool)
    : PrettyOutput * option DropReason :=
  let j := mkJob text want_summary false in
  let '(o, over_budget) := reserve o j in
  let '(o, reason) :=
    match check_open o over_budget with
    | Some reason => (o, Some reason)
    | None => try_send o j
    end in
  match reason with
  | Some reason => ((give_back o j reason).1, Some reason)
  | None => (o, None)
  end.

(** ** The writer *)

(** [write_pretty_to]. *)
Definition write_pretty_to {S : Type} (write_all : string -> io S unit) (flush : io S unit)
    (text : string) (summary : option string) : io S unit :=
  (write_all text ;!
   (match summary with Some summary => write_all summary | None => io_ret tt end) ;!
   flush)%io.

(** [PrettyTarget::name]. *)
Definition target_name (is_stdout : bool) : string := if is_stdout then "stdout" else "pretty-log".

(** One job of [run_pretty_writer]: [write] stands for [write_blocking] on the target, with a
    panic of the writer as a failure; [now] is the time after it.  The last part is for a job
    of [drain], which is answered after what [report_unresolved_at_shutdown] may log. *)
Definition writer_job {S : Type} (write : string -> option string -> io S unit)
    (render_summary : S -> string) (is_stdout : bool) (now : Z)
    (st : PrettyWriterState) (j : PrettyJob) (s : S)
    : S * PrettyWriterState * HealthReport * option (option log_line) :=
  let '(s, st, report) :=
    if should_write st && negb (str_is_empty (rendered j)) then
      let summary := if want_summary j then Some (render_summary s) else None in
      let '(s, r) := write (rendered j) summary s in
      let '(st, report) := record_result st is_stdout r now in
      (s, st, report)
    else (s, st, Silent) in
  (s, st, report,
   if sync j then Some (report_unresolved_at_shutdown st (target_name is_stdout) now) else None).

(** ** Draining at shutdown *)

Definition PRETTY_FLUSH_TIMEOUT : Z := secs 5.

(** The empty job whose reply says that all before it is done. *)
Definition sync_job : PrettyJob := mkJob "" false true.

(** [tx.send(job)] has room, so the job is in the queue. *)
Definition send_sync (o : PrettyOutput) : option PrettyOutput :=
  if closed o then None
  else if (PRETTY_QUEUE_CAPACITY <=? length (queue o))%nat then None
  else Some (set_queue o (queue o ++ [sync_job])).

(** When a wait of [drain] ends, and whether with success or because the writer is gone. *)
Inductive wait_end := Reached (t : Z) | GoneAt (t : Z) | Never.

(** What [drain] comes to and the warning it logs. *)
Inductive drained := Drained | HadStopped | DidNotDrain.

Definition drain (sent reply : wait_end) (deadline : Z) : drained :=
  let future :=
    match sent with
    | Reached t =>
        match reply with
        | Reached t' => Some (Z.max t t', true)
        | GoneAt t' => Some (Z.max t t', false)
        | Never => None
        end
    | GoneAt t => Some (t, false)
    | Never => None
    end in
  match timeout_at deadline future with
  | Some true => Drained
  | Some false => HadStopped
  | None => DidNotDrain
  end.

(** ** Interleaving *)

(** Where a handler is in [enqueue]. *)
Inductive phase :=
| Reserved (j : PrettyJob) (over_budget : bool)
| Sending (j : PrettyJob)
| Failed (j : PrettyJob) (reason : DropReason).

Definition phase_job (p : phase) : PrettyJob :=
  match p with Reserved j _ | Sending j | Failed j _ => j end.

(** A handler whose job may still be queued. *)
Definition admissible (p : phase) : bool :=
  match p with Reserved _ over => negb over | Sending _ => true | Failed _ _ => false end.

(** [taken] is the job the writer holds; [lost] the bytes of the jobs that were queued when
    the writer died; [accepted] and [written] are histories. *)
Record system := mkSystem {
  output : PrettyOutput;
  handlers : gmap nat phase;
  taken : option PrettyJob;
  lost : Z;
  accepted : list PrettyJob;
  written : list PrettyJob;
}.

Definition queue_bytes (q : list PrettyJob) : Z := foldr (fun j n => job_len j + n) 0 q.
Definition taken_bytes (t : option PrettyJob) : Z := from_option job_len 0 t.

(** Everything counted in [queued_bytes]. *)
Definition counted (s : system) : Z :=
  map_sum (fun p => job_len (phase_job p)) (handlers s) +
  queue_bytes (queue (output s)) + taken_bytes (taken s) + lost s.

Inductive step : system -> system -> Prop :=
(** A handler starts; its text is in memory with all the others, so their bytes fit a word. *)
| step_reserve s t j o over :
    handlers s !! t = None -> counted s + job_len j < word ->
    reserve (output s) j = (o, over) ->
    step s (mkSystem o (<[t := Reserved j over]> (handlers s)) (taken s) (lost s)
      (accepted s) (written s))
| step_check s t j over p :
    handlers s !! t = Some (Reserved j over) ->
    p = match check_open (output s) over with
        | Some reason => Failed j reason | None => Sending j end ->
    step s (mkSystem (output s) (<[t := p]> (handlers s)) (taken s) (lost s)
      (accepted s) (written s))
| step_send s t j o :
    handlers s !! t = Some (Sending j) -> try_send (output s) j = (o, None) ->
    step s (mkSystem o (delete t (handlers s)) (taken s) (lost s)
      (accepted s ++ [j]) (written s))
| step_send_failed s t j o reason :
    handlers s !! t = Some (Sending j) -> try_send (output s) j = (o, Some reason) ->
    step s (mkSystem o (<[t := Failed j reason]> (handlers s)) (taken s) (lost s)
      (accepted s) (written s))
| step_give_back s t j reason :
    handlers s !! t = Some (Failed j reason) ->
    step s (mkSystem (give_back (output s) j reason).1 (delete t (handlers s)) (taken s) (lost s)
      (accepted s) (written s))
(** [drain] waits until there is room for its job. *)
| step_sync s o :
    send_sync (output s) = Some o ->
    step s (mkSystem o (handlers s) (taken s) (lost s) (accepted s ++ [sync_job]) (written s))
(** [rx.recv()] in the writer. *)
| step_take s j q :
    taken s = None -> closed (output s) = false -> queue (output s) = j :: q ->
    step s (mkSystem (set_queue (output s) q) (handlers s) (Some j) (lost s)
      (accepted s) (written s))
(** The writer is done with the job, whatever the write gave. *)
| step_done s j :
    taken s = Some j -> closed (output s) = false ->
    step s (mkSystem
      (set_queued_bytes (output s) (wrap_sub (queued_bytes (output s)) (job_len j)))
      (handlers s) None (lost s) (accepted s) (written s ++ [j]))
(** The writer dies: the receiver is dropped with what it holds. *)
| step_die s :
    closed (output s) = false ->
    step s (mkSystem
      (mkOutput [] true (queued_bytes (output s)) (max_queued_bytes (output s))
        (dropped (output s)) (writer_stop_reported (output s)))
      (handlers s) None (lost s + queue_bytes (queue (output s)) + taken_bytes (taken s))
      (accepted s) (written s)).

Definition initial : system := mkSystem output_spawn ∅ None 0 [] [].

Definition reachable (s : system) : Prop := rtc step initial s.

(** ** Invariant *)

(** What handlers may still add to the queue, and what is in it or held by the writer. *)
Definition committed (s : system) : Z :=
  map_sum (fun p => if admissible p then job_len (phase_job p) else 0) (handlers s) +
  queue_bytes (queue (output s)) + taken_bytes (taken s) + lost s.

Record SystemInv (s : system) : Prop := {
  sys_bytes : queued_bytes (output s) = counted s;
  sys_word : counted s < word;
  sys_lost : 0 <= lost s;
  sys_max : max_queued_bytes (output s) = PRETTY_QUEUE_MAX_BYTES;
  sys_committed : committed s <= PRETTY_QUEUE_MAX_BYTES;
  sys_queue : (length (queue (output s)) <= PRETTY_QUEUE_CAPACITY)%nat;
  sys_fifo : closed (output s) = false ->
    accepted s = written s ++ option_list (taken s) ++ queue (output s);
  sys_prefix : written s `prefix_of` accepted s;
}.

(** * Lemmas *)

Lemma job_len_nonneg j : 0 <= job_len j.
Proof. unfold job_len. lia. Qed.

Lemma queue_bytes_nonneg q : 0 <= queue_bytes q.
Proof. induction q as [|j q IH]; simpl; [lia|]. pose proof (job_len_nonneg j). lia. Qed.

Lemma queue_bytes_snoc q j : queue_bytes (q ++ [j]) = queue_bytes q + job_len j.
Proof. induction q as [|j' q IH]; simpl; [lia|]. rewrite IH. lia. Qed.

Lemma taken_bytes_nonneg t : 0 <= taken_bytes t.
Proof. destruct t; simpl; [apply job_len_nonneg|lia]. Qed.

Lemma handler_bytes_nonneg (m : gmap nat phase) :
  0 <= map_sum (fun p => job_len (phase_job p)) m.
Proof. apply map_sum_nonneg. intros. apply job_len_nonneg. Qed.

Lemma admissible_le (m : gmap nat phase) :
  0 <= map_sum (fun p => if admissible p then job_len (phase_job p) else 0) m <=
  map_sum (fun p => job_len (phase_job p)) m.
Proof.
  induction m as [|t p m Ht IH] using map_ind; [by rewrite !map_sum_empty|].
  rewrite !map_sum_insert_None by done. pose proof (job_len_nonneg (phase_job p)).
  destruct (admissible p); lia.
Qed.

Lemma initial_inv : SystemInv initial.
Proof.
  split; try (vm_compute; (reflexivity || discriminate)); [vm_compute; lia|apply prefix_nil].
Qed.

(** Split the sums over the handlers at the one that moves. *)
Ltac handler_sums E :=
  rewrite ?map_sum_insert, ?map_sum_delete, ?(map_val_None _ _ _ E), ?(map_val_Some _ _ _ _ E);
  simpl.

Lemma give_back_fields o j reason :
  let o' := (give_back o j reason).1 in
  queue o' = queue o /\ closed o' = closed o /\ max_queued_bytes o' = max_queued_bytes o /\
  queued_bytes o' = wrap_sub (queued_bytes o) (job_len j).
Proof. unfold give_back, report_drop. simpl. by destruct reason, (writer_stop_reported o). Qed.

Lemma try_send_cases o j o' r :
  try_send o j = (o', r) ->
  match r with
  | None => o' = set_queue o (queue o ++ [j]) /\ closed o = false /\
            (length (queue o) < PRETTY_QUEUE_CAPACITY)%nat
  | Some _ => o' = o
  end.
Proof.
  unfold try_send. destruct (closed o); [by intros [= <- <-]|].
  destruct (Nat.leb_spec PRETTY_QUEUE_CAPACITY (length (queue o))); by intros [= <- <-].
Qed.

Lemma send_sync_cases o o' :
  send_sync o = Some o' ->
  o' = set_queue o (queue o ++ [sync_job]) /\ closed o = false /\
  (length (queue o) < PRETTY_QUEUE_CAPACITY)%nat.
Proof.
  unfold send_sync. destruct (closed o); [done|].
  destruct (Nat.leb_spec PRETTY_QUEUE_CAPACITY (length (queue o))); by intros [= <-].
Qed.

(** The invariant only depends on these facts about the next state. *)
Lemma sums_inv s o m t l acc w :
  SystemInv s ->
  let s' := mkSystem o m t l acc w in
  queued_bytes o = counted s' -> counted s' < word -> 0 <= l ->
  max_queued_bytes o = PRETTY_QUEUE_MAX_BYTES -> committed s' <= PRETTY_QUEUE_MAX_BYTES ->
  (length (queue o) <= PRETTY_QUEUE_CAPACITY)%nat ->
  (closed o = false -> acc = w ++ option_list t ++ queue o) -> w `prefix_of` acc ->
  SystemInv s'.
Proof. intros _ s' ????????. by split. Qed.

Section steps.
Context (s : system) (Hs : SystemInv s).

Lemma sums_nonneg :
  0 <= map_sum (fun p => job_len (phase_job p)) (handlers s) /\
  0 <= map_sum (fun p => if admissible p then job_len (phase_job p) else 0) (handlers s) /\
  map_sum (fun p => if admissible p then job_len (phase_job p) else 0) (handlers s) <=
    map_sum (fun p => job_len (phase_job p)) (handlers s) /\
  0 <= queue_bytes (queue (output s)) /\ 0 <= taken_bytes (taken s) /\ 0 <= lost s.
Proof.
  pose proof (handler_bytes_nonneg (handlers s)). pose proof (admissible_le (handlers s)).
  pose proof (queue_bytes_nonneg (queue (output s))). pose proof (taken_bytes_nonneg (taken s)).
  pose proof (sys_lost _ Hs). lia.
Qed.

Lemma reserve_inv t j o over :
  handlers s !! t = None -> counted s + job_len j < word -> reserve (output s) j = (o, over) ->
  SystemInv (mkSystem o (<[t := Reserved j over]> (handlers s)) (taken s) (lost s)
    (accepted s) (written s)).
Proof.
  intros E Hfit Er. pose proof Hs as [Hb Hw Hlost Hmax Hc Hq Hf Hp].
  pose proof sums_nonneg as Hn. pose proof (job_len_nonneg j) as Hj.
  injection Er as <- <-. unfold counted, committed in *. apply (sums_inv s); simpl; try done.
  - rewrite Hb. unfold wrap_add. rewrite wrap_small by lia. unfold counted. simpl.
    handler_sums E. lia.
  - unfold counted. simpl. handler_sums E. lia.
  - unfold committed. simpl. handler_sums E.
    destruct (Z.ltb_spec (max_queued_bytes (output s))
      (Z.min (word - 1) (queued_bytes (output s) + job_len j))); simpl; lia.
Qed.

Lemma check_inv t j over p :
  handlers s !! t = Some (Reserved j over) ->
  p = match check_open (output s) over with
      | Some reason => Failed j reason | None => Sending j end ->
  SystemInv (mkSystem (output s) (<[t := p]> (handlers s)) (taken s) (lost s)
    (accepted s) (written s)).
Proof.
  intros E ->. pose proof Hs as [Hb Hw Hlost Hmax Hc Hq Hf Hp]. pose proof (job_len_nonneg j) as Hj.
  unfold counted, committed, check_open in *.
  apply (sums_inv s); try done; unfold counted, committed; simpl; handler_sums E.
  all: destruct (closed (output s)), over; simpl; lia.
Qed.

Lemma send_inv t j o :
  handlers s !! t = Some (Sending j) -> try_send (output s) j = (o, None) ->
  SystemInv (mkSystem o (delete t (handlers s)) (taken s) (lost s)
    (accepted s ++ [j]) (written s)).
Proof.
  intros E (-> & Ecl & Hlen)%try_send_cases. pose proof Hs as [Hb Hw Hlost Hmax Hc Hq Hf Hp].
  unfold counted, committed in *. apply (sums_inv s); try done; simpl.
  - unfold counted. simpl. handler_sums E. rewrite queue_bytes_snoc. lia.
  - unfold counted. simpl. handler_sums E. rewrite queue_bytes_snoc. lia.
  - unfold committed. simpl. handler_sums E. rewrite queue_bytes_snoc. lia.
  - rewrite length_app. simpl. lia.
  - intros _. by rewrite Hf, <-!app_assoc.
  - by apply prefix_app_r.
Qed.

Lemma send_failed_inv t j o reason :
  handlers s !! t = Some (Sending j) -> try_send (output s) j = (o, Some reason) ->
  SystemInv (mkSystem o (<[t := Failed j reason]> (handlers s)) (taken s) (lost s)
    (accepted s) (written s)).
Proof.
  intros E ->%try_send_cases. pose proof Hs as [Hb Hw Hlost Hmax Hc Hq Hf Hp].
  pose proof (job_len_nonneg j) as Hj. unfold counted, committed in *.
  apply (sums_inv s); try done; unfold counted, committed; simpl; handler_sums E; lia.
Qed.

Lemma give_back_inv t j reason :
  handlers s !! t = Some (Failed j reason) ->
  SystemInv (mkSystem (give_back (output s) j reason).1 (delete t (handlers s)) (taken s) (lost s)
    (accepted s) (written s)).
Proof.
  intros E. pose proof Hs as [Hb Hw Hlost Hmax Hc Hq Hf Hp]. pose proof sums_nonneg as Hn.
  destruct (give_back_fields (output s) j reason) as (Eq & Ecl & Em & Eb).
  pose proof (job_len_nonneg j) as Hj.
  assert (job_len j <= map_sum (fun p => job_len (phase_job p)) (handlers s)) as Hle.
  { pose proof (map_val_le_sum (fun p => job_len (phase_job p)) (handlers s) t) as Hle.
    rewrite (map_val_Some _ _ _ _ E) in Hle. apply Hle. intros. apply job_len_nonneg. }
  unfold counted, committed in *. apply (sums_inv s); simpl; rewrite ?Eq, ?Ecl, ?Em; try done.
  - unfold counted. simpl. rewrite Eb, Eq, Hb. unfold wrap_sub. rewrite wrap_small by lia.
    handler_sums E. lia.
  - unfold counted. simpl. rewrite Eq. handler_sums E. lia.
  - unfold committed. simpl. rewrite Eq. handler_sums E. lia.
Qed.

Lemma sync_inv o :
  send_sync (output s) = Some o ->
  SystemInv (mkSystem o (handlers s) (taken s) (lost s) (accepted s ++ [sync_job]) (written s)).
Proof.
  intros (-> & Ecl & Hlen)%send_sync_cases. pose proof Hs as [Hb Hw Hlost Hmax Hc Hq Hf Hp].
  unfold counted, committed in *.
  apply (sums_inv s); try done; unfold counted, committed; simpl; rewrite ?queue_bytes_snoc;
    change (job_len sync_job) with 0; try lia.
  - rewrite length_app. simpl. lia.
  - intros _. by rewrite Hf, <-!app_assoc.
  - by apply prefix_app_r.
Qed.

Lemma take_inv j q :
  taken s = None -> queue (output s) = j :: q ->
  SystemInv (mkSystem (set_queue (output s) q) (handlers s) (Some j) (lost s)
    (accepted s) (written s)).
Proof.
  intros Et Eq. pose proof Hs as [Hb Hw Hlost Hmax Hc Hq Hf Hp].
  unfold counted, committed in *. rewrite Et, Eq in *.
  apply (sums_inv s); try done; unfold counted, committed; simpl in *; lia.
Qed.

Lemma done_inv j :
  taken s = Some j -> closed (output s) = false ->
  SystemInv (mkSystem
    (set_queued_bytes (output s) (wrap_sub (queued_bytes (output s)) (job_len j)))
    (handlers s) None (lost s) (accepted s) (written s ++ [j])).
Proof.
  intros Et Ecl. pose proof Hs as [Hb Hw Hlost Hmax Hc Hq Hf Hp]. pose proof sums_nonneg as Hn.
  pose proof (job_len_nonneg j) as Hj. unfold counted, committed in *. rewrite Et in *. simpl in *.
  apply (sums_inv s); try done; simpl.
  - rewrite Hb. unfold counted, wrap_sub. simpl. rewrite wrap_small; lia.
  - unfold counted. simpl. lia.
  - unfold committed. simpl. lia.
  - intros _. by rewrite Hf, <-app_assoc.
  - rewrite Hf by done. exists (queue (output s)). by rewrite <-app_assoc.
Qed.

Lemma die_inv :
  closed (output s) = false ->
  SystemInv (mkSystem
    (mkOutput [] true (queued_bytes (output s)) (max_queued_bytes (output s))
      (dropped (output s)) (writer_stop_reported (output s)))
    (handlers s) None (lost s + queue_bytes (queue (output s)) + taken_bytes (taken s))
    (accepted s) (written s)).
Proof.
  intros Ecl. pose proof Hs as [Hb Hw Hlost Hmax Hc Hq Hf Hp]. pose proof sums_nonneg as Hn.
  unfold counted, committed in *.
  apply (sums_inv s); try done; try (unfold counted, committed; simpl; lia).
Qed.

End steps.

Lemma step_inv s s' : SystemInv s -> step s s' -> SystemInv s'.
Proof.
  intros Hs Hstep. destruct Hstep; eauto using reserve_inv, check_inv, send_inv, send_failed_inv,
    give_back_inv, sync_inv, take_inv, done_inv, die_inv.
Qed.

Lemma system_reachable_inv s : reachable s -> SystemInv s.
Proof.
  intros Hr. assert (forall s0, SystemInv s0 -> rtc step s0 s -> SystemInv s) as Hind.
  { clear Hr. intros s0 Hs0 Hr0. induction Hr0 as [|s1 s2 s3 H12 H23 IH]; [done|].
    apply IH. by eapply step_inv. }
  by apply (Hind initial initial_inv).
Qed.

(** The uninterrupted [enqueue] is a sequence of the steps of one handler. *)
Lemma enqueue_steps s t text ws :
  handlers s !! t = None -> counted s + Z.of_nat (String.length text) < word ->
  exists s', rtc step s s' /\ output s' = (enqueue (output s) text ws).1 /\
    handlers s' = handlers s /\ taken s' = taken s.
Proof.
  intros E Hfit. set (j := mkJob text ws false). unfold enqueue. fold j.
  destruct (reserve (output s) j) as [o over] eqn:Er.
  pose proof (step_reserve s t j o over E Hfit Er) as H1. set (s1 := mkSystem o _ _ _ _ _) in H1.
  assert (handlers s1 !! t = Some (Reserved j over)) as E1 by apply lookup_insert_eq.
  pose proof (step_check s1 t j over _ E1 eq_refl) as H2. change (output s1) with o in H2.
  assert (forall s2 reason, rtc step s s2 -> handlers s2 = <[t := Failed j reason]> (handlers s) ->
    output s2 = o -> taken s2 = taken s ->
    exists s', rtc step s s' /\ output s' = (give_back o j reason).1 /\
      handlers s' = handlers s /\ taken s' = taken s) as Hfail.
  { intros s2 reason H02 Eh Eo Et.
    assert (handlers s2 !! t = Some (Failed j reason)) as E2 by (rewrite Eh; apply lookup_insert_eq).
    eexists. split; [eapply rtc_r; [exact H02|apply (step_give_back s2 t j reason E2)]|].
    simpl. rewrite Eo, Eh, delete_insert_id by done. done. }
  destruct (check_open o over) as [reason|].
  - apply (Hfail _ reason (rtc_l _ _ _ _ H1 (rtc_once _ _ H2))); simpl; [|done..].
    by rewrite insert_insert_eq.
  - set (s2 := mkSystem o (<[t := Sending j]> (handlers s1)) _ _ _ _) in H2.
    assert (handlers s2 !! t = Some (Sending j)) as E2 by apply lookup_insert_eq.
    destruct (try_send o j) as [o' [reason|]] eqn:Et.
    + pose proof (step_send_failed s2 t j o' reason E2 Et) as H3.
      pose proof (try_send_cases _ _ _ _ Et) as ->.
      apply (Hfail _ reason (rtc_l _ _ _ _ H1 (rtc_l _ _ _ _ H2 (rtc_once _ _ H3))));
        simpl; [|done..]. by rewrite !insert_insert_eq.
    + pose proof (step_send s2 t j o' E2 Et) as H3. eexists.
      split; [exact (rtc_l _ _ _ _ H1 (rtc_l _ _ _ _ H2 (rtc_once _ _ H3)))|].
      simpl. by rewrite insert_insert_eq, delete_insert_id.
Qed.

Lemma accepted_grows s s' : rtc step s s' -> accepted s `prefix_of` accepted s'.
Proof.
  induction 1 as [s|s1 s2 s3 H12 _ IH]; [done|]. etrans; [|exact IH].
  destruct H12; simpl; done || by apply prefix_app_r.
Qed.

Lemma prefix_of_longer {A} (l l1 l2 : list A) :
  l1 `prefix_of` l -> l2 `prefix_of` l -> (length l1 <= length l2)%nat -> l1 `prefix_of` l2.
Proof.
  intros H1 H2 Hlen. destruct (prefix_weak_total l1 l2 l H1 H2) as [H|H]; [done|].
  by rewrite (prefix_length_eq _ _ H Hlen).
Qed.

Lemma drain_success sent reply deadline :
  drain sent reply deadline = Drained <->
  exists t t', sent = Reached t /\ reply = Reached t' /\ Z.max t t' <= deadline.
Proof.
  unfold drain, timeout_at. split.
  - destruct sent as [t|t|], reply as [t'|t'|]; intros H; repeat case_match; simplify_eq.
    exists t, t'. split_and!; [done|done|by apply Z.leb_le].
  - intros (t & t' & -> & -> & Hle). by rewrite (proj2 (Z.leb_le _ _) Hle).
Qed.

(** * Properties *)

(** C20. However handlers and writer interleave, the text waiting for a destination, in its
    queue or with its writer, never exceeds the byte budget, and the queue never exceeds its
    capacity: a reader that stops cannot make the process grow. *)
Theorem waiting_output_is_bounded s :
  reachable s ->
  queue_bytes (queue (output s)) + taken_bytes (taken s) <= PRETTY_QUEUE_MAX_BYTES /\
  (length (queue (output s)) <= PRETTY_QUEUE_CAPACITY)%nat.
Proof.
  intros Hr. pose proof (system_reachable_inv s Hr) as Hs. split; [|apply Hs].
  pose proof (sys_committed _ Hs) as Hc. pose proof (sums_nonneg s Hs). unfold committed in Hc. lia.
Qed.

(** A handler has queued a job of three bytes. *)
Definition sample_job : PrettyJob := mkJob "abc" false false.
Definition sample_system : system :=
  mkSystem (mkOutput [sample_job] false 3 PRETTY_QUEUE_MAX_BYTES 0 false) ∅ None 0 [sample_job] [].

Lemma sample_reachable : reachable sample_system.
Proof.
  eapply rtc_l.
  { apply (step_reserve initial 0%nat sample_job (set_queued_bytes output_spawn 3) false);
      vm_compute; reflexivity. }
  eapply rtc_l.
  { eapply (step_check _ 0%nat sample_job false); vm_compute; reflexivity. }
  eapply rtc_l.
  { eapply (step_send _ 0%nat sample_job); vm_compute; reflexivity. }
  apply rtc_refl.
Qed.

Lemma waiting_output_is_bounded_witness :
  queue_bytes (queue (output sample_system)) = 3 /\ 3 <= PRETTY_QUEUE_MAX_BYTES.
Proof.
  split; [reflexivity|]. apply (waiting_output_is_bounded sample_system sample_reachable).
Defined.

(** What a destination shows is what was accepted, in order and without gaps, as long as
    its writer lives; afterwards it is still a prefix of it. *)
Theorem output_in_order s :
  reachable s ->
  written s `prefix_of` accepted s /\
  (closed (output s) = false ->
   accepted s = written s ++ option_list (taken s) ++ queue (output s)).
Proof. intros Hr. by destruct (system_reachable_inv s Hr). Qed.

Lemma output_in_order_witness : written sample_system `prefix_of` accepted sample_system.
Proof. apply (output_in_order sample_system sample_reachable). Defined.

(** A drain that succeeds has shown everything: once the writer replied to the job of [drain],
    all that was accepted before it has been written, in order, however handlers kept
    enqueuing meanwhile; and [drain] itself is over by its deadline, telling a writer that
    had stopped from one that was late. *)
Theorem drained_output_is_shown s o x sent reply deadline :
  reachable s -> send_sync (output s) = Some o ->
  rtc step (mkSystem o (handlers s) (taken s) (lost s) (accepted s ++ [sync_job]) (written s)) x ->
  ((length (accepted s) < length (written x))%nat ->
   (accepted s ++ [sync_job]) `prefix_of` written x) /\
  (drain sent reply deadline = Drained <->
   exists t t', sent = Reached t /\ reply = Reached t' /\ Z.max t t' <= deadline).
Proof.
  intros Hr Hsync Hx. split; [|apply drain_success].
  intros Hlen. assert (reachable x) as Hrx.
  { unfold reachable in *. etrans; [eapply rtc_r; [exact Hr|by apply step_sync]|exact Hx]. }
  pose proof (sys_prefix _ (system_reachable_inv x Hrx)) as Hw.
  apply accepted_grows in Hx. simpl in Hx.
  apply (prefix_of_longer (accepted x)); [done|done|]. rewrite length_app. simpl. lia.
Qed.

(** The writer has done the job of the handler and that of the drain. *)
Definition drained_system : system :=
  mkSystem (mkOutput [] false 0 PRETTY_QUEUE_MAX_BYTES 0 false) ∅ None 0
    [sample_job; sync_job] [sample_job; sync_job].

Lemma drained_output_is_shown_witness :
  (accepted sample_system ++ [sync_job]) `prefix_of` written drained_system /\
  drain (Reached 1) (Reached 2) 5 = Drained.
Proof.
  destruct (drained_output_is_shown sample_system _ drained_system (Reached 1) (Reached 2) 5
    sample_reachable eq_refl) as [H1 H2].
  - eapply rtc_l; [eapply step_take; reflexivity|].
    eapply rtc_l; [eapply step_done; reflexivity|].
    eapply rtc_l; [eapply step_take; reflexivity|].
    eapply rtc_l; [eapply step_done; reflexivity|].
    apply rtc_refl.
  - split; [apply H1; simpl; lia|]. apply H2. exists 1, 2. split_and!; [done|done|lia].
Defined.

(** Once nothing waits and no handler is enqueuing, the byte counter is back to what a
    dead writer left behind, zero when it never died: the budget never leaks. *)
Theorem budget_never_leaks s :
  reachable s -> handlers s = ∅ -> queue (output s) = [] -> taken s = None ->
  queued_bytes (output s) = lost s.
Proof.
  intros Hr Eh Eq Et. rewrite (sys_bytes _ (system_reachable_inv s Hr)). unfold counted.
  rewrite Eh, Eq, Et, map_sum_empty. simpl. lia.
Qed.

Lemma budget_never_leaks_witness : queued_bytes (output initial) = 0.
Proof. by rewrite (budget_never_leaks initial (rtc_refl _ _)). Defined.

(** A drop is never silent about a dead writer: the first drop after the writer stopped is
    reported as an error, once; every drop is counted and takes back its bytes. *)
Theorem drops_are_counted_and_reported o j reason :
  let '(o', log) := give_back o j reason in
  dropped o' = wrap_add (dropped o) 1 /\
  queued_bytes o' = wrap_sub (queued_bytes o) (job_len j) /\
  (log = StoppedError <-> reason = WriterStopped /\ writer_stop_reported o = false) /\
  writer_stop_reported o' = writer_stop_reported o || bool_decide (reason = WriterStopped).
Proof.
  unfold give_back, report_drop. destruct reason, (writer_stop_reported o) eqn:E; simpl;
    rewrite E; simpl; try destruct (is_power_of_two _); simpl; split_and!; try done;
    split; by try intros [? ?].
Qed.
