(* ===== verification/Target.v ===== *)
(** * The files of human-readable output ([src/src/sink.rs], [src/src/storage.rs])

    A writer task of [Pretty] writes to stdout or, with [--pretty-log], to a daily file of
    [Storage].  This file joins the two: what one batch with its summary leaves in the file. *)

From Stdlib Require Import Strings.Byte.
From S2P Require Import Prelude Io Storage Pretty.

Local Open Scope Z_scope.

(** The targets of the writer tasks. *)
Inductive PrettyTarget `{NaiveDates} := TargetStdout | TargetFile (w : DailyWriter).

Section target.
Context `{NaiveDates}.

Definition is_stdout (t : PrettyTarget) : bool :=
  match t with TargetStdout => true | TargetFile _ => false end.

(** A daily writer on its disk, and the dates its next writes will read. *)
Record daily_state := mkDailyState {
  ds_disk : Disk;
  ds_writer : DailyWriter;
  ds_clock : list NaiveDate;
}.

(** [Write::write_all] over [DailyWriter::write], which takes all it is given: nothing is
    written for an empty text. *)
Definition daily_write_all (text : string) : io daily_state unit := fun s =>
  let bytes := String.list_byte_of_string text in
  match bytes with
  | [] => (s, Ok tt)
  | _ =>
      let date := default (dw_date (ds_writer s)) (head (ds_clock s)) in
      let '(d, w, r) := append_at (ds_writer s) bytes date (ds_disk s) in
      (mkDailyState d w (tail (ds_clock s)), r)
  end.

Definition daily_flush : io daily_state unit := fun s =>
  let '(d, r) := flush (file (dw_file (ds_writer s))) (ds_disk s) in
  (mkDailyState d (ds_writer s) (ds_clock s), r).

(** [write_blocking] on a file. *)
Definition write_blocking_file (rendered : string) (summary : option string)
    : io daily_state unit :=
  write_pretty_to daily_write_all daily_flush rendered summary.

End target.

(** ** Specification *)

Definition text_of (s : string) : list byte := String.list_byte_of_string s.
Definition summary_of (summary : option string) : list byte := from_option text_of [] summary.

(** The bytes that count in the file the writer holds. *)
Definition shown `{NaiveDates} (s : daily_state) : list byte :=
  logical contents (dw_file (ds_writer s)) (ds_disk s).

Definition state_ok `{NaiveDates} (s : daily_state) : Prop := daily_ok (ds_writer s) (ds_disk s).

(** What the file of the day holds before a batch: a file of another day is opened first. *)
Definition base_of `{NaiveDates} (s : daily_state) (date : NaiveDate) : list byte :=
  let w := ds_writer s in
  if decide (dw_date w = date) then shown s
  else complete_lines (contents (ds_disk s) (daily_path (dw_dir w) (dw_prefix w) (dw_suffix w) date)).

(** * Lemmas *)

Section target_lemmas.
Context `{NaiveDatesLaws}.

(** On the day of the writer, a text is written whole or not at all. *)
Lemma daily_write_same_day text s :
  state_ok s -> (forall d, head (ds_clock s) = Some d -> d = dw_date (ds_writer s)) ->
  let '(s', r) := daily_write_all text s in
  state_ok s' /\ dw_date (ds_writer s') = dw_date (ds_writer s) /\
  shown s' = shown s ++ (if is_ok r then text_of text else []).
Proof.
  intros Hok Hclock. unfold daily_write_all, shown, text_of.
  destruct (String.list_byte_of_string text) as [|b bs] eqn:Eb; [by rewrite app_nil_r|].
  rewrite <- Eb. set (bytes := String.list_byte_of_string text).
  assert (default (dw_date (ds_writer s)) (head (ds_clock s)) = dw_date (ds_writer s)) as ->.
  { destruct (head (ds_clock s)) as [date|]; [by apply Hclock|done]. }
  pose proof (append_at_spec (ds_writer s) bytes (dw_date (ds_writer s)) (ds_disk s) Hok) as Ha.
  destruct (append_at _ _ _ _) as [[d w] r]. destruct Ha as [Hok' Hr].
  rewrite decide_True in Hr by done. split; [done|]. simpl.
  destruct r as [[]|e]; simpl; rewrite ?app_nil_r.
  - by destruct Hr as (? & ? & _).
  - by destruct Hr as [[? ?]|[? _]].
Qed.

Lemma daily_flush_keeps s :
  let '(s', _) := daily_flush s in
  ds_writer s' = ds_writer s /\ shown s' = shown s /\ (state_ok s -> state_ok s').
Proof.
  unfold daily_flush, shown, state_ok, daily_ok, rollback_ok, logical.
  pose proof (flush_read_only (file (dw_file (ds_writer s))) (ds_disk s)) as Hf.
  destruct (flush _ _) as [d r]. simpl in *.
  assert (forall p, contents d p = contents (ds_disk s) p) as Hc
    by (intros p; unfold contents; by rewrite Hf).
  by rewrite Hc.
Qed.

(** The first text of a batch, which may open the file of a new day. *)
Lemma daily_write_first text date clock d w :
  let s := mkDailyState d w (date :: clock) in
  state_ok s -> text <> ""%string ->
  let '(s', r) := daily_write_all text s in
  state_ok s' /\ ds_clock s' = clock /\
  match r with
  | Ok _ => dw_date (ds_writer s') = date /\ shown s' = base_of s date ++ text_of text
  | Err _ =>
      (dw_date (ds_writer s') = dw_date w /\ shown s' = shown s) \/
      (dw_date (ds_writer s') = date /\ shown s' = base_of s date)
  end.
Proof.
  intros s Hok Htext. unfold daily_write_all. simpl.
  destruct (String.list_byte_of_string text) as [|b bs] eqn:Eb.
  { by destruct text. }
  rewrite <- Eb. unfold state_ok in Hok. simpl in Hok.
  pose proof (append_at_spec w (text_of text) date d Hok) as Ha. unfold text_of in Ha.
  unfold base_of, shown, text_of, state_ok in *. simpl.
  destruct (append_at _ _ _ _) as [[d' w'] r]. destruct Ha as [Hok' Hr].
  split; [done|]. split; [done|]. destruct r as [[]|e]; simpl.
  - by destruct Hr as (? & ? & _).
  - destruct Hr as [?|(? & ? & ? & _)]; [by left|right]. by rewrite decide_False.
Qed.
End target_lemmas.

(** * Properties *)

(** A batch is shown whole or not at all in the daily file: when it and its summary are
    written on one day, success leaves the file of that day with the text and then the summary
    after all it held, and a failure leaves it without the one that failed and what follows;
    an earlier file is never torn, and the writer can always go on. *)
Theorem pretty_log_batch `{NaiveDatesLaws} rendered summary date d w :
  let s := mkDailyState d w [date; date] in
  state_ok s -> rendered <> ""%string ->
  let '(s', r) := write_blocking_file rendered summary s in
  state_ok s' /\
  match r with
  | Ok _ =>
      dw_date (ds_writer s') = date /\
      shown s' = base_of s date ++ text_of rendered ++ summary_of summary
  | Err _ =>
      (dw_date (ds_writer s') = dw_date w /\ shown s' = shown s) \/
      (dw_date (ds_writer s') = date /\
       exists written, shown s' = base_of s date ++ written /\
         written ∈ [[]; text_of rendered; text_of rendered ++ summary_of summary])
  end.
Proof.
  intros s Hok Hne. unfold write_blocking_file, write_pretty_to, io_bind at 1.
  pose proof (daily_write_first rendered date [date] d w Hok Hne) as H1. fold s in H1.
  destruct (daily_write_all rendered s) as [s1 [[]|e]]; destruct H1 as (Hok1 & Hclock & H1); cycle 1.
  { split; [done|]. destruct H1 as [?|[? ?]]; [by left|right]. split; [done|].
    exists []. rewrite app_nil_r. set_solver. }
  destruct H1 as [Hdate1 Hshown1]. unfold io_bind.
  assert (let '(s2, r) := (match summary with
      | Some summary => daily_write_all summary | None => io_ret tt end) s1 in
    state_ok s2 /\ dw_date (ds_writer s2) = date /\
    shown s2 = shown s1 ++ (if is_ok r then summary_of summary else [])) as H2.
  { destruct summary as [t|]; simpl; [|by rewrite app_nil_r].
    pose proof (daily_write_same_day t s1 Hok1) as H2. rewrite Hclock, Hdate1 in H2.
    destruct (daily_write_all t s1) as [s2 r]. apply H2. by intros ? [= <-]. }
  destruct (_ s1) as [s2 [[]|e]]; destruct H2 as (Hok2 & Hdate2 & Hshown2); cycle 1.
  { split; [done|]. right. split; [done|]. exists (text_of rendered).
    simpl in Hshown2. rewrite Hshown2, app_nil_r. set_solver. }
  simpl in Hshown2. rewrite Hshown1, <- app_assoc in Hshown2.
  pose proof (daily_flush_keeps s2) as H3. destruct (daily_flush s2) as [s3 r].
  destruct H3 as (Hw & Hs & Hk). rewrite Hw, Hs. split; [by apply Hk|].
  destruct r as [[]|e]; [done|]. right. split; [done|]. eexists. split; [exact Hshown2|]. set_solver.
Qed.

Definition sample_state : daily_state (H := sample_dates) :=
  mkDailyState (mkDisk ∅ 0 ∅ [] sample_perms)
    (@mkDaily sample_dates "logs" "otel-logger.pretty" (Some "log"%string) "2026-07-01"%string
      (mkAppend "logs/otel-logger.pretty.2026-07-01.log"%string None) false)
    ["2026-07-02"; "2026-07-02"]%string.

Definition sample_batch : daily_state (H := sample_dates) * result unit ErrorKind :=
  write_blocking_file "a" (Some "b"%string) sample_state.

Lemma pretty_log_batch_witness :
  sample_batch.2 = Ok tt /\ shown sample_batch.1 = [x61; x62] /\ state_ok sample_batch.1.
Proof.
  split; [vm_compute; reflexivity|]. split; [vm_compute; reflexivity|].
  pose proof (@pretty_log_batch sample_dates sample_dates_laws "a" (Some "b"%string)
    "2026-07-02"%string (ds_disk sample_state) (ds_writer sample_state)) as H.
  change (write_blocking_file _ _ _) with sample_batch in H.
  destruct sample_batch as [s' r]. apply H; [|discriminate].
  split; [reflexivity|intros n [=]].
Defined.
