(* ===== verification/Unicode.v ===== *)
(** * Characters of UTF-8 text

    [str::chars] and its inverse on the bytes of a string, and the hexadecimal texts the
    program prints.  Every string of the program is well formed; [utf8] says so where a theorem
    relies on it. *)

From stdpp Require Import pretty.
From Stdlib Require Import Ascii.
From S2P Require Import Prelude Text.

Local Open Scope Z_scope.

(** ** Encoding and decoding *)

Definition scalar (c : Z) : Prop := 0 <= c < 55296 \/ 57344 <= c < 1114112.

Definition byte_of (z : Z) : ascii := ascii_of_N (Z.to_N z).

(** [char::encode_utf8]. *)
Definition encode (c : Z) : string :=
  if c <? 128 then String (byte_of c) ""
  else if c <? 2048 then
    String (byte_of (192 + c / 64)) (String (byte_of (128 + c mod 64)) "")
  else if c <? 65536 then
    String (byte_of (224 + c / 4096)) (String (byte_of (128 + (c / 64) mod 64))
      (String (byte_of (128 + c mod 64)) ""))
  else
    String (byte_of (240 + c / 262144)) (String (byte_of (128 + (c / 4096) mod 64))
      (String (byte_of (128 + (c / 64) mod 64)) (String (byte_of (128 + c mod 64)) ""))).

Fixpoint str_of (l : list Z) : string :=
  match l with
  | [] => ""
  | c :: l => encode c +:+ str_of l
  end.

(** [str::chars]; the length of a character is in its first byte. *)
Fixpoint chars (s : string) : list Z :=
  match s with
  | EmptyString => []
  | String b0 s1 =>
      if code b0 <? 128 then code b0 :: chars s1
      else match s1 with
           | EmptyString => []
           | String b1 s2 =>
               if code b0 <? 224 then (code b0 - 192) * 64 + (code b1 - 128) :: chars s2
               else match s2 with
                    | EmptyString => []
                    | String b2 s3 =>
                        if code b0 <? 240 then
                          (code b0 - 224) * 4096 + (code b1 - 128) * 64 + (code b2 - 128) :: chars s3
                        else match s3 with
                             | EmptyString => []
                             | String b3 s4 =>
                                 (code b0 - 240) * 262144 + (code b1 - 128) * 4096 +
                                   (code b2 - 128) * 64 + (code b3 - 128) :: chars s4
                             end
                    end
           end
  end.

(** Well-formed text. *)
Definition utf8 (s : string) : Prop := exists l, Forall scalar l /\ s = str_of l.

#[export] Instance scalar_dec c : Decision (scalar c).
Proof. unfold scalar. apply _. Defined.

(** Whether bytes are text: decoding and encoding them gives them back. *)
Definition is_utf8 (s : string) : bool :=
  String.eqb (str_of (chars s)) s && bool_decide (Forall scalar (chars s)).

(** ** Hexadecimal *)

Definition hex_digit (n : Z) : ascii :=
  if n <? 10 then byte_of (48 + n) else byte_of (87 + n).

(** [{b:02x}] of a byte. *)
Definition hex_byte (b : Z) : string :=
  String (hex_digit (b / 16)) (String (hex_digit (b mod 16)) "").

(** [{c:04x}] of a number below 2^16. *)
Definition hex4 (c : Z) : string :=
  String (hex_digit (c / 4096)) (String (hex_digit ((c / 256) mod 16))
    (String (hex_digit ((c / 16) mod 16)) (String (hex_digit (c mod 16)) ""))).

(** * Lemmas *)

Lemma code_byte_of z : 0 <= z < 256 -> code (byte_of z) = z.
Proof.
  intros Hz. unfold code, byte_of. rewrite N_ascii_embedding by lia. by rewrite Z2N.id by lia.
Qed.

Lemma chars_encode c rest : scalar c -> chars (encode c +:+ rest)%string = c :: chars rest.
Proof.
  intros Hc. assert (0 <= c < 1114112) as Hr by (destruct Hc; lia). clear Hc. unfold encode.
  assert (0 <= c mod 64 < 64 /\ 0 <= (c / 64) mod 64 < 64 /\ 0 <= (c / 4096) mod 64 < 64) as (H0 & H1 & H2)
    by (split_and!; apply Z.mod_pos_bound; lia).
  assert (c = 64 * (c / 64) + c mod 64 /\ c / 64 = 64 * (c / 4096) + (c / 64) mod 64 /\
    c / 4096 = 64 * (c / 262144) + (c / 4096) mod 64) as (E0 & E1 & E2).
  { split_and!; [apply Z.div_mod; lia| |].
    - replace (c / 4096) with (c / 64 / 64) by (rewrite Z.div_div; [done|lia..]). apply Z.div_mod; lia.
    - replace (c / 262144) with (c / 4096 / 64) by (rewrite Z.div_div; [done|lia..]). apply Z.div_mod; lia. }
  destruct (Z.ltb_spec c 128).
  { rewrite str_app_cons, str_app_nil_l. simpl. rewrite code_byte_of by lia.
    by destruct (Z.ltb_spec c 128); [|lia]. }
  destruct (Z.ltb_spec c 2048).
  { rewrite !str_app_cons, str_app_nil_l. simpl. rewrite !code_byte_of by lia.
    destruct (Z.ltb_spec (192 + c / 64) 128); [lia|].
    destruct (Z.ltb_spec (192 + c / 64) 224); [|lia]. f_equal. lia. }
  destruct (Z.ltb_spec c 65536).
  { rewrite !str_app_cons, str_app_nil_l. simpl. rewrite !code_byte_of by lia.
    destruct (Z.ltb_spec (224 + c / 4096) 128); [lia|].
    destruct (Z.ltb_spec (224 + c / 4096) 224); [lia|].
    destruct (Z.ltb_spec (224 + c / 4096) 240); [|lia]. f_equal. lia. }
  rewrite !str_app_cons, str_app_nil_l. simpl. rewrite !code_byte_of by lia.
  destruct (Z.ltb_spec (240 + c / 262144) 128); [lia|].
  destruct (Z.ltb_spec (240 + c / 262144) 224); [lia|].
  destruct (Z.ltb_spec (240 + c / 262144) 240); [lia|]. f_equal. lia.
Qed.

Lemma chars_str_of l : Forall scalar l -> chars (str_of l) = l.
Proof.
  induction 1 as [|c l Hc Hl IH]; [done|]. simpl. by rewrite chars_encode, IH.
Qed.

Lemma str_of_app a b : str_of (a ++ b) = (str_of a +:+ str_of b)%string.
Proof. induction a as [|c a IH]; simpl; [by rewrite str_app_nil_l|]. by rewrite IH, str_app_assoc. Qed.

Lemma utf8_chars s : utf8 s -> str_of (chars s) = s /\ Forall scalar (chars s).
Proof. intros (l & Hl & ->). by rewrite chars_str_of. Qed.

Lemma chars_app a b : utf8 a -> chars (a +:+ b)%string = chars a ++ chars b.
Proof.
  intros (l & Hl & ->). induction Hl as [|c l Hc Hl IH]; simpl; [by rewrite str_app_nil_l|].
  rewrite str_app_assoc, !chars_encode by done. simpl. by rewrite IH.
Qed.

Lemma utf8_app a b : utf8 a -> utf8 b -> utf8 (a +:+ b)%string.
Proof.
  intros (l & Hl & ->) (k & Hk & ->). exists (l ++ k). split; [by apply Forall_app|].
  by rewrite str_of_app.
Qed.

Lemma is_utf8_spec s : is_utf8 s = true <-> utf8 s.
Proof.
  unfold is_utf8. rewrite andb_true_iff, String.eqb_eq, bool_decide_eq_true. split.
  - intros [E Hs]. by exists (chars s).
  - apply utf8_chars.
Qed.

(** Text of ASCII characters is well formed, character by byte. *)
Lemma ascii_chars s :
  forallb (fun c => code c <? 128) (String.list_ascii_of_string s) = true ->
  chars s = map code (String.list_ascii_of_string s) /\ utf8 s.
Proof.
  induction s as [|c s IH]; [intros; split; [done|by exists []]|]. simpl.
  intros [Hc Hs]%andb_prop. rewrite Hc. destruct (IH Hs) as [-> (l & Hl & ->)]. split; [done|].
  apply Z.ltb_lt in Hc. pose proof (N_ascii_bounded c). exists (code c :: l). split.
  - constructor; [|done]. left. unfold code in *. lia.
  - simpl. unfold encode. destruct (Z.ltb_spec (code c) 128); [|lia].
    rewrite str_app_cons, str_app_nil_l. f_equal. unfold byte_of, code. rewrite N2Z.id.
    by rewrite ascii_N_embedding.
Qed.

Lemma hex_digit_code n : 0 <= n < 16 -> code (hex_digit n) = if n <? 10 then 48 + n else 87 + n.
Proof. intros Hn. unfold hex_digit. destruct (Z.ltb_spec n 10); apply code_byte_of; lia. Qed.
