(* ===== verification/FloatText.v ===== *)
(** * Texts of numbers

    [Display] of [f64] and the fixed precision of [{:.2}], as the standard library documents
    them: the shortest digits that read back as the same number, and correct rounding of the
    exact binary value with ties to even. *)

From stdpp Require Import pretty.
From Stdlib Require Import SpecFloat Ascii.
From S2P Require Import Prelude Float64 Text.

Local Open Scope Z_scope.

(** The quotient of two doubles. *)
Definition f64_div (x y : f64) : f64 := SFdiv 53 1024 x y.

Definition digit (n : Z) : ascii := ascii_of_N (Z.to_N (48 + n)).

(** The last [p] digits of a number, with zeros in front. *)
Fixpoint pad (p : nat) (n : Z) : string :=
  match p with
  | O => ""
  | S p => pad p (n / 10) +:+ String (digit (n mod 10)) ""
  end.

Definition zeros (n : Z) : string := pad (Z.to_nat n) 0.

(** ** Exact values *)

(** [m * 2 ^ e] as a fraction. *)
Definition fraction (m : positive) (e : Z) : Z * Z :=
  if 0 <=? e then (Z.pos m * 2 ^ e, 1) else (Z.pos m, 2 ^ (- e)).

(** The nearest integer to a quotient, an even one for a tie. *)
Definition round_even (num den : Z) : Z :=
  let q := num / den in
  let r := 2 * (num mod den) in
  if (r <? den) || ((r =? den) && Z.even q) then q else q + 1.

Definition sign_text (s : bool) : string := if s then "-" else "".

Definition special_text (x : f64) : string :=
  match x with
  | S754_nan => "NaN"
  | S754_infinity s => sign_text s +:+ "inf"
  | _ => ""
  end.

(** ** Fixed precision *)

Definition fixed_digits (p : nat) (q : Z) : string :=
  pretty (q / 10 ^ Z.of_nat p) +:+
  match p with O => "" | _ => "." +:+ pad p (q mod 10 ^ Z.of_nat p) end.

(** [format!("{x:.p$}")]. *)
Definition fixed (p : nat) (x : f64) : string :=
  match x with
  | S754_zero s => sign_text s +:+ fixed_digits p 0
  | S754_finite s m e =>
      let '(num, den) := fraction m e in
      sign_text s +:+ fixed_digits p (round_even (num * 10 ^ Z.of_nat p) den)
  | _ => special_text x
  end.

(** ** Shortest digits *)

(** The least [k], from [k] on, with [num / den < 10 ^ k]. *)
Fixpoint magnitude (fuel : nat) (k num den : Z) : Z :=
  match fuel with
  | O => k
  | S fuel =>
      let below := if 0 <=? k then num <? den * 10 ^ k else num * 10 ^ (- k) <? den in
      if below then k else magnitude fuel (k + 1) num den
  end.

(** The search begins at most four below: the quotient is at least half the power of two the
    logarithms tell, and at most twice that. *)
Definition magnitude_of (num den : Z) : Z :=
  magnitude 5 ((Z.log2 num - Z.log2 den - 1) * 30103 / 100000 - 1) num den.

(** The closer of the two [n]-digit decimals around the value that reads back as [x]. *)
Definition n_digits (x : f64) (num den k : Z) (n : Z) : option Z :=
  let '(a, b) := if 0 <=? n - k then (num * 10 ^ (n - k), den) else (num, den * 10 ^ (k - n)) in
  let down := a / b in
  let reads c := f64_eq (f64_of_decimal c (k - n)) x in
  let near := round_even a b in
  if reads near then Some near
  else if reads down then Some down
  else if reads (down + 1) then Some (down + 1) else None.

(** 17 digits always suffice. *)
Fixpoint shortest (fuel : nat) (x : f64) (num den k n : Z) : Z * Z :=
  match fuel with
  | O => (round_even num den, n)
  | S fuel =>
      match n_digits x num den k n with
      | Some d => (d, n)
      | None => shortest fuel x num den k (n + 1)
      end
  end.

(** The digits [d], [n] of them, of the number [d * 10 ^ (k - n)]. *)
Definition decimal_text (d n k : Z) : string :=
  if k <=? 0 then "0." +:+ zeros (- k) +:+ pad (Z.to_nat n) d
  else if n <=? k then pretty d +:+ zeros (k - n)
  else pretty (d / 10 ^ (n - k)) +:+ "." +:+ pad (Z.to_nat (n - k)) (d mod 10 ^ (n - k)).

(** [format!("{x}")]. *)
Definition display_f64 (x : f64) : string :=
  match x with
  | S754_zero s => sign_text s +:+ "0"
  | S754_finite s m e =>
      let '(num, den) := fraction m e in
      let k := magnitude_of num den in
      let '(d, n) := shortest 17 (S754_finite false m e) num den k 1 in
      sign_text s +:+ decimal_text d n k
  | _ => special_text x
  end.

(** * Lemmas *)

(** Text of graphic ASCII characters. *)
Definition plain (s : string) : bool := forallb is_ascii_graphic (String.list_ascii_of_string s).

Lemma plain_app a b : plain a = true -> plain b = true -> plain (a +:+ b)%string = true.
Proof. unfold plain. intros Ha Hb. by rewrite list_ascii_app, forallb_app, Ha, Hb. Qed.

Lemma code_digit n : 0 <= n < 10 -> code (digit n) = 48 + n.
Proof. intros Hn. unfold code, digit. rewrite N_ascii_embedding by lia. by rewrite Z2N.id by lia. Qed.

Lemma digit_plain n : 0 <= n < 10 -> is_ascii_graphic (digit n) = true.
Proof. intros Hn. unfold is_ascii_graphic. rewrite code_digit by done. apply andb_true_intro. lia. Qed.

Lemma pad_plain p n : plain (pad p n) = true.
Proof.
  revert n. induction p as [|p IH]; intros n; simpl; [done|]. apply plain_app; [done|].
  unfold plain. simpl. rewrite digit_plain; [done|]. apply Z.mod_pos_bound. lia.
Qed.

Lemma pretty_N_go_plain x s : plain s = true -> plain (pretty_N_go x s) = true.
Proof.
  revert s. induction (N.lt_wf_0 x) as [x _ IH]; intros s Hs.
  destruct (decide (x = 0)%N) as [->|Hx]; [by rewrite pretty_N_go_0|].
  rewrite pretty_N_go_step by lia. apply IH; [apply N.div_lt; lia|].
  unfold plain in *. simpl. rewrite Hs, andb_true_r. unfold pretty_N_char.
  by repeat case_match.
Qed.

Lemma pretty_N_plain (x : N) : plain (pretty x) = true.
Proof. unfold pretty, pretty_N. case_decide; [done|]. by apply pretty_N_go_plain. Qed.

Lemma pretty_Z_plain (x : Z) : plain (pretty x) = true.
Proof.
  unfold pretty, pretty_Z. destruct x as [|p|p]; [done|apply (pretty_N_plain (N.pos p))|].
  apply (plain_app "-"); [done|apply (pretty_N_plain (N.pos p))].
Qed.

Lemma fixed_digits_plain p q : plain (fixed_digits p q) = true.
Proof.
  unfold fixed_digits. apply plain_app; [apply pretty_Z_plain|]. destruct p; [done|].
  apply (plain_app "."); [done|apply pad_plain].
Qed.

Lemma sign_plain s : plain (sign_text s) = true.
Proof. by destruct s. Qed.

Create HintDb plain.
#[export] Hint Resolve plain_app pad_plain pretty_Z_plain fixed_digits_plain sign_plain : plain.

Lemma fixed_plain p x : plain (fixed p x) = true.
Proof.
  destruct x as [s|s| |s m e]; simpl; auto with plain.
  destruct (fraction m e). auto with plain.
Qed.

Lemma decimal_text_plain d n k : plain (decimal_text d n k) = true.
Proof. unfold decimal_text, zeros. repeat case_match; auto 6 with plain. Qed.

Lemma display_f64_plain x : plain (display_f64 x) = true.
Proof.
  unfold display_f64. destruct x as [s|s| |s m e]; [simpl; auto with plain..|].
  destruct (fraction m e) as [num den].
  destruct (shortest 17 (S754_finite false m e) num den (magnitude_of num den) 1) as [d n].
  apply plain_app; [apply sign_plain|apply decimal_text_plain].
Qed.

(** ** Examples *)

Example display_tenth : display_f64 (f64_of_decimal 1 (-1)) = "0.1"%string.
Proof. vm_compute. reflexivity. Qed.
Example display_third : display_f64 (f64_div (f64_of_Z 1) (f64_of_Z 3)) = "0.3333333333333333"%string.
Proof. vm_compute. reflexivity. Qed.
Example display_large : display_f64 (f64_of_decimal 1 21) = "1000000000000000000000"%string.
Proof. vm_compute. reflexivity. Qed.
Example display_tiny : display_f64 (f64_of_decimal 15 (-8)) = "0.00000015"%string.
Proof. vm_compute. reflexivity. Qed.
Example display_pi : display_f64 (f64_of_decimal 314159 (-5)) = "3.14159"%string.
Proof. vm_compute. reflexivity. Qed.
Example fixed_half : fixed 0 (f64_of_decimal 25 (-1)) = "2"%string.
Proof. vm_compute. reflexivity. Qed.
Example fixed_cost : fixed 4 (f64_of_decimal 123456 (-5)) = "1.2346"%string.
Proof. vm_compute. reflexivity. Qed.
Example display_max : String.length (display_f64 f64_max_value) = 309%nat.
Proof. vm_compute. reflexivity. Qed.
Example display_min : display_f64 (S754_finite false 1 (-1074)) = ("0." +:+ zeros 323 +:+ "5")%string.
Proof. vm_compute. reflexivity. Qed.
Example display_hundred : display_f64 (f64_of_Z 100) = "100"%string.
Proof. vm_compute. reflexivity. Qed.
