(* ===== verification/Quote.v ===== *)
(** * Untrusted values as text ([src/src/format.rs])

    Strings of the telemetry reach a terminal, so control characters are escaped and what
    would be ambiguous is quoted; nested values are drawn with each string escaped once. *)

From stdpp Require Import pretty.
From Stdlib Require Import Ascii.
From S2P Require Import Prelude Float64 FloatText Text Unicode Otlp.

Local Open Scope Z_scope.

(** ** Strings *)

Definition needs_escape (c : Z) : bool :=
  (c <? 32) || (c =? 127) || ((128 <=? c) && (c <=? 159)) ||
  (c =? 1564) || (c =? 8206) || (c =? 8207) ||
  ((8234 <=? c) && (c <=? 8238)) || ((8294 <=? c) && (c <=? 8297)).

Definition quote_char : string := String (ascii_of_nat 34) "".

(** One character between the quotes: a backslash, a quote, newline, return and tab have
    escapes of their own. *)
Definition escape_char (c : Z) : string :=
  if c =? 92 then "\\"
  else if c =? 34 then "\" +:+ quote_char
  else if c =? 10 then "\n"
  else if c =? 13 then "\r"
  else if c =? 9 then "\t"
  else if needs_escape c then "\u{" +:+ hex4 c +:+ "}"
  else encode c.

Definition cat (l : list string) : string := foldr (fun a b => a +:+ b) "" l.

Definition quote_for_pretty (s : string) : string :=
  let needs_quote :=
    str_is_empty s ||
    existsb (fun c => (c =? 32) || (c =? 34) || (c =? 61) || needs_escape c) (chars s) in
  if negb needs_quote then s
  else quote_char +:+ cat (map escape_char (chars s)) +:+ quote_char.

(** ** Bytes *)

Definition hex (bytes : list Z) : string := cat (map hex_byte bytes).

Definition hex_id (bytes : list Z) : string :=
  match bytes with [] => "-" | _ => hex bytes end.

(** ** Values *)

(** [parts.join(", ")]. *)
Fixpoint join (parts : list string) : string :=
  match parts with
  | [] => ""
  | [p] => p
  | p :: parts => p +:+ ", " +:+ join parts
  end.

Definition bool_text (b : bool) : string := if b then "true" else "false".

(** The values that contain no text. *)
Definition scalar_text (v : Value) : string :=
  match v with
  | BoolValue b => bool_text b
  | IntValue i => pretty i
  | DoubleValue d => display_f64 d
  | BytesValue b => "0x" +:+ hex b
  | _ => ""
  end.

(** [map_or_else(|| quote_for_pretty(""), pretty_any_value)] and the pairs of [format_attrs]. *)
Fixpoint pretty_any_value (v : AnyValue) : string :=
  match v with
  | MkAnyValue (Some value) => pretty_value value
  | MkAnyValue None => quote_for_pretty ""
  end
with pretty_value (v : Value) : string :=
  match v with
  | StringValue s => quote_for_pretty s
  | ArrayValue values => "[" +:+ join (map pretty_any_value values) +:+ "]"
  | KvlistValue values => "{" +:+ join (map pretty_pair values) +:+ "}"
  | StringValueStrindex _ => quote_for_pretty ""
  | v => scalar_text v
  end
with pretty_pair (kv : KeyValue) : string :=
  match kv with
  | MkKeyValue key (Some v) => quote_for_pretty key +:+ "=" +:+ pretty_any_value v
  | MkKeyValue key None => quote_for_pretty key +:+ "=" +:+ quote_for_pretty ""
  end.

Definition format_attrs (attrs : list KeyValue) : string :=
  "{" +:+ join (map pretty_pair attrs) +:+ "}".

Definition pretty_option (v : option AnyValue) : string :=
  from_option pretty_any_value (quote_for_pretty "") v.

(** Strings outside lists of pairs are not quoted. *)
Fixpoint any_value_to_string (v : AnyValue) : string :=
  match v with
  | MkAnyValue (Some value) => value_to_string value
  | MkAnyValue None => ""
  end
with value_to_string (v : Value) : string :=
  match v with
  | StringValue s => s
  | ArrayValue values => "[" +:+ join (map any_value_to_string values) +:+ "]"
  | KvlistValue values => format_attrs values
  | StringValueStrindex _ => ""
  | v => scalar_text v
  end.

(** ** Specification *)

(** The characters of Unicode that steer a terminal or the order of its text: the controls C0,
    DEL and C1 (general category Cc) and those of the property Bidi_Control, by their names ALM,
    LRM, RLM, LRE, RLE, PDF, LRO, RLO, LRI, RLI, FSI and PDI. *)
Definition control_character (c : Z) : Prop := 0 <= c <= 31 \/ 127 <= c <= 159.
Definition direction_characters : list Z :=
  [1564; 8206; 8207; 8234; 8235; 8236; 8237; 8238; 8294; 8295; 8296; 8297].
Definition harmless (c : Z) : Prop := ~ control_character c /\ c ∉ direction_characters.

(** Text a terminal shows as it stands: well-formed, all of it harmless. *)
Definition clean (s : string) : Prop :=
  exists l, Forall scalar l /\ Forall harmless l /\ s = str_of l.


(** The messages of protobuf hold well-formed strings and bytes that are bytes. *)
Definition bytes_ok (bytes : list Z) : Prop := Forall (fun b => 0 <= b < 256) bytes.

Inductive any_ok : AnyValue -> Prop :=
| any_ok_none : any_ok (MkAnyValue None)
| any_ok_some v : value_ok v -> any_ok (MkAnyValue (Some v))
with value_ok : Value -> Prop :=
| string_ok s : utf8 s -> value_ok (StringValue s)
| bool_ok b : value_ok (BoolValue b)
| int_ok i : value_ok (IntValue i)
| double_ok d : value_ok (DoubleValue d)
| array_ok l : Forall any_ok l -> value_ok (ArrayValue l)
| kvlist_ok l : Forall pair_ok l -> value_ok (KvlistValue l)
| bytes_value_ok b : bytes_ok b -> value_ok (BytesValue b)
| strindex_ok i : value_ok (StringValueStrindex i)
with pair_ok : KeyValue -> Prop :=
| pair_ok_none k : utf8 k -> pair_ok (MkKeyValue k None)
| pair_ok_some k v : utf8 k -> any_ok v -> pair_ok (MkKeyValue k (Some v)).






(** The size of a value: its texts, and one for every node. *)
Definition sum (l : list nat) : nat := foldr Nat.add 0%nat l.

Fixpoint any_size (v : AnyValue) : nat :=
  match v with
  | MkAnyValue (Some value) => value_size value
  | MkAnyValue None => 1
  end
with value_size (v : Value) : nat :=
  match v with
  | StringValue s => 1 + String.length s
  | ArrayValue values => 1 + sum (map any_size values)
  | KvlistValue values => 1 + sum (map pair_size values)
  | v => 1 + String.length (scalar_text v)
  end
with pair_size (kv : KeyValue) : nat :=
  match kv with
  | MkKeyValue key (Some v) => 1 + String.length key + any_size v
  | MkKeyValue key None => 2 + String.length key
  end.

(** * Lemmas *)

(** Induction through the lists inside values. *)
Section value_induction.
Context (P : AnyValue -> Prop) (Q : Value -> Prop) (R : KeyValue -> Prop).
Context (Hnone : P (MkAnyValue None)) (Hsome : forall v, Q v -> P (MkAnyValue (Some v))).
Context (Hstring : forall s, Q (StringValue s)) (Hbool : forall b, Q (BoolValue b))
  (Hint : forall i, Q (IntValue i)) (Hdouble : forall d, Q (DoubleValue d))
  (Harray : forall l, Forall P l -> Q (ArrayValue l))
  (Hkvlist : forall l, Forall R l -> Q (KvlistValue l))
  (Hbytes : forall b, Q (BytesValue b)) (Hstrindex : forall i, Q (StringValueStrindex i)).
Context (Hpair : forall k v, from_option P True v -> R (MkKeyValue k v)).

Fixpoint any_nested_ind (v : AnyValue) : P v :=
  match v with
  | MkAnyValue None => Hnone
  | MkAnyValue (Some value) => Hsome value (value_nested_ind value)
  end
with value_nested_ind (v : Value) : Q v :=
  match v with
  | StringValue s => Hstring s
  | BoolValue b => Hbool b
  | IntValue i => Hint i
  | DoubleValue d => Hdouble d
  | ArrayValue l =>
      Harray l ((fix go l : Forall P l := match l with
                 | [] => Forall_nil_2 _
                 | x :: l => Forall_cons_2 _ x l (any_nested_ind x) (go l)
                 end) l)
  | KvlistValue l =>
      Hkvlist l ((fix go l : Forall R l := match l with
                  | [] => Forall_nil_2 _
                  | x :: l => Forall_cons_2 _ x l (pair_nested_ind x) (go l)
                  end) l)
  | BytesValue b => Hbytes b
  | StringValueStrindex i => Hstrindex i
  end
with pair_nested_ind (kv : KeyValue) : R kv :=
  match kv with
  | MkKeyValue k None => Hpair k None I
  | MkKeyValue k (Some v) => Hpair k (Some v) (any_nested_ind v)
  end.

Lemma value_nested : (forall v, P v) /\ (forall v, Q v) /\ (forall kv, R kv).
Proof. split_and!; [apply any_nested_ind|apply value_nested_ind|apply pair_nested_ind]. Qed.
End value_induction.

(** ** Clean text *)

Lemma needs_escape_harmless c : 0 <= c -> needs_escape c = false <-> harmless c.
Proof.
  intros Hc. unfold needs_escape, harmless, control_character, direction_characters.
  rewrite !not_elem_of_cons. split.
  - intros E. split; [lia|]. split_and!; try lia. apply not_elem_of_nil.
  - intros (H1 & H2 & H3 & H4 & H5 & H6 & H7 & H8 & H9 & H10 & H11 & H12 & H13 & _). lia.
Qed.

Lemma scalar_nonneg c : scalar c -> 0 <= c.
Proof. destruct 1; lia. Qed.

Lemma clean_utf8 s : clean s -> utf8 s.
Proof. intros (l & Hl & _ & ->). by exists l. Qed.

Lemma clean_nil : clean "".
Proof. by exists []. Qed.

Lemma clean_app a b : clean a -> clean b -> clean (a +:+ b)%string.
Proof.
  intros (l & Hl & Hl' & ->) (k & Hk & Hk' & ->). exists (l ++ k).
  split_and!; [by apply Forall_app..|]. by rewrite str_of_app.
Qed.

Lemma clean_encode c : scalar c -> harmless c -> clean (encode c).
Proof.
  intros Hc Hn. exists [c]. split_and!; [by constructor..|]. simpl.
  generalize (encode c). intros s. induction s as [|a s IH]; [done|]. by rewrite str_app_cons, <-IH.
Qed.

(** Graphic characters and spaces. *)
Definition printable (s : string) : bool :=
  forallb (fun c => (32 <=? code c) && (code c <=? 126)) (String.list_ascii_of_string s).

Lemma printable_clean s : printable s = true -> clean s.
Proof.
  intros Hs. unfold printable in Hs.
  destruct (ascii_chars s) as [Ec Hu].
  { rewrite forallb_forall in Hs. apply forallb_forall. intros c Hc%Hs. lia. }
  exists (chars s). destruct (utf8_chars s Hu) as [Es Hsc]. split_and!; [done| |done].
  rewrite Ec. apply Forall_fmap, Forall_forall. intros c Hc. simpl.
  rewrite forallb_forall in Hs. specialize (Hs c (proj1 (list_elem_of_In _ _) Hc)).
  apply needs_escape_harmless; [lia|]. unfold needs_escape. lia.
Qed.

Lemma plain_clean s : plain s = true -> clean s.
Proof.
  intros Hs. apply printable_clean. unfold plain, printable, is_ascii_graphic in *.
  rewrite forallb_forall in *. intros c Hc%Hs. lia.
Qed.

Lemma cat_clean l : Forall clean l -> clean (cat l).
Proof. induction 1; simpl; [apply clean_nil|by apply clean_app]. Qed.

Lemma hex_digit_plain n : 0 <= n < 16 -> is_ascii_graphic (hex_digit n) = true.
Proof. intros Hn. unfold is_ascii_graphic. rewrite hex_digit_code by done. destruct (n <? 10) eqn:E; lia. Qed.

Lemma hex_byte_plain b : 0 <= b < 256 -> plain (hex_byte b) = true.
Proof.
  intros Hb. unfold plain. simpl. rewrite !hex_digit_plain; [done| |].
  - apply Z.mod_pos_bound. lia.
  - split; [apply Z.div_pos; lia|apply Z.div_lt_upper_bound; lia].
Qed.

Lemma hex4_plain c : 0 <= c < 65536 -> plain (hex4 c) = true.
Proof.
  intros Hc. unfold plain. simpl. rewrite !hex_digit_plain; [done|..];
    try (apply Z.mod_pos_bound; lia).
  split; [apply Z.div_pos; lia|apply Z.div_lt_upper_bound; lia].
Qed.

Lemma needs_escape_small c : 0 <= c -> needs_escape c = true -> c < 65536.
Proof. unfold needs_escape. lia. Qed.

Lemma escape_char_clean c : scalar c -> clean (escape_char c).
Proof.
  intros Hc. unfold escape_char.
  destruct (c =? 92); [by apply printable_clean|]. destruct (c =? 34); [by apply printable_clean|].
  destruct (c =? 10); [by apply printable_clean|]. destruct (c =? 13); [by apply printable_clean|].
  destruct (c =? 9); [by apply printable_clean|].
  destruct (needs_escape c) eqn:E; [|apply clean_encode; [done|by apply needs_escape_harmless; [apply scalar_nonneg|]]].
  apply clean_app; [by apply printable_clean|]. apply clean_app; [|by apply printable_clean].
  apply plain_clean, hex4_plain. assert (0 <= c) by (destruct Hc; lia).
  split; [done|by apply needs_escape_small].
Qed.

(** What the test of [quote_for_pretty] looks for. *)
Lemma existsb_word l :
  Forall scalar l ->
  existsb (fun c => (c =? 32) || (c =? 34) || (c =? 61) || needs_escape c) l = false <->
  Forall (fun c => harmless c /\ c ∉ [32; 34; 61]) l.
Proof.
  induction 1 as [|c l Hc _ IH]; simpl; [split; [constructor|done]|].
  rewrite orb_false_iff, Forall_cons, IH, <- (needs_escape_harmless c) by (by apply scalar_nonneg).
  rewrite !not_elem_of_cons. split.
  - rewrite !orb_false_iff. intros [[[[? ?] ?] ?] ?].
    split; [split; [done|split_and!; [lia..|apply not_elem_of_nil]]|done].
  - intros [(-> & ? & ? & ? & _) ?]. split; [lia|done].
Qed.

Lemma quote_clean s : utf8 s -> clean (quote_for_pretty s).
Proof.
  intros Hs. destruct (utf8_chars s Hs) as [Es Hc]. unfold quote_for_pretty.
  destruct (negb _) eqn:E.
  - apply negb_true_iff, orb_false_iff in E as [_ E]. exists (chars s). split_and!; [done| |done].
    apply existsb_word in E; [|done]. eapply Forall_impl; [exact E|]. by intros c [? _].
  - apply clean_app; [by apply printable_clean|]. apply clean_app; [|by apply printable_clean].
    apply cat_clean, Forall_fmap. eapply Forall_impl; [exact Hc|]. apply escape_char_clean.
Qed.

Lemma hex_clean b : bytes_ok b -> clean (hex b).
Proof.
  intros Hb. apply cat_clean, Forall_fmap. eapply Forall_impl; [exact Hb|].
  intros c Hc. by apply plain_clean, hex_byte_plain.
Qed.

Lemma hex_id_clean b : bytes_ok b -> clean (hex_id b).
Proof. intros Hb. destruct b; [by apply printable_clean|]. by apply hex_clean. Qed.

Lemma join_clean l : Forall clean l -> clean (join l).
Proof.
  induction 1 as [|p l Hp Hl IH]; [apply clean_nil|]. destruct l as [|q l]; [done|].
  change (join (p :: q :: l)) with (p +:+ ", " +:+ join (q :: l))%string.
  apply clean_app; [done|]. apply clean_app; [by apply printable_clean|done].
Qed.

Lemma bracket_clean (a b s : string) : printable a = true -> printable b = true -> clean s ->
  clean (a +:+ s +:+ b)%string.
Proof. intros. by repeat apply clean_app; [apply printable_clean| |apply printable_clean]. Qed.

Lemma scalar_text_clean v : value_ok v -> clean (scalar_text v).
Proof.
  intros Hv. destruct Hv; try apply clean_nil; simpl.
  - destruct b; by apply printable_clean.
  - apply plain_clean, pretty_Z_plain.
  - apply plain_clean, display_f64_plain.
  - apply clean_app; [by apply printable_clean|by apply hex_clean].
Qed.

Lemma utf8_empty : utf8 "".
Proof. by exists []. Qed.

Lemma pretty_clean :
  (forall v, any_ok v -> clean (pretty_any_value v)) /\
  (forall v, value_ok v -> clean (pretty_value v)) /\
  (forall kv, pair_ok kv -> clean (pretty_pair kv)).
Proof.
  assert (forall A (f : A -> string) (ok : A -> Prop) l,
    Forall (fun x => ok x -> clean (f x)) l -> Forall ok l -> clean (join (map f l))) as Hmap.
  { intros A f ok l Hf Hl. apply join_clean, Forall_fmap. induction Hf; inversion Hl; subst; auto. }
  apply value_nested.
  - intros _. apply quote_clean, utf8_empty.
  - intros v IH Hv. inversion Hv; subst. by apply IH.
  - intros s Hv. inversion Hv; subst. by apply quote_clean.
  - intros b Hv. by apply (scalar_text_clean (BoolValue b)).
  - intros i Hv. by apply (scalar_text_clean (IntValue i)).
  - intros d Hv. by apply (scalar_text_clean (DoubleValue d)).
  - intros l IH Hv. inversion Hv; subst. apply bracket_clean; [done..|]. by eapply Hmap.
  - intros l IH Hv. inversion Hv; subst. apply bracket_clean; [done..|]. by eapply Hmap.
  - intros b Hv. by apply (scalar_text_clean (BytesValue b)).
  - intros i _. apply quote_clean, utf8_empty.
  - intros k v IH Hv. destruct v as [v|]; inversion Hv; subst; simpl in *;
      (apply clean_app; [by apply quote_clean|]; apply clean_app; [by apply printable_clean|]).
    + by apply IH.
    + apply quote_clean, utf8_empty.
Qed.

Lemma format_attrs_clean attrs : Forall pair_ok attrs -> clean (format_attrs attrs).
Proof. intros Ha. apply (proj1 (proj2 pretty_clean) (KvlistValue attrs)). by constructor. Qed.

Lemma value_to_string_utf8 :
  (forall v, any_ok v -> utf8 (any_value_to_string v)) /\
  (forall v, value_ok v -> utf8 (value_to_string v)) /\ (forall kv : KeyValue, True).
Proof.
  apply value_nested; try done.
  - intros _. apply utf8_empty.
  - intros v IH Hv. inversion Hv; subst. by apply IH.
  - intros s Hv. by inversion Hv.
  - intros b Hv. by apply clean_utf8, (scalar_text_clean (BoolValue b)).
  - intros i Hv. by apply clean_utf8, (scalar_text_clean (IntValue i)).
  - intros d Hv. by apply clean_utf8, (scalar_text_clean (DoubleValue d)).
  - intros l IH Hv. inversion Hv as [| | | |? Hl| | |]; subst. simpl.
    assert (utf8 (join (map any_value_to_string l))) as Hj.
    { clear Hv. induction l as [|a l IHl]; [apply utf8_empty|].
      apply Forall_cons in IH as [Ha IH]. apply Forall_cons in Hl as [Hal Hl].
      specialize (IHl IH Hl). simpl in *. destruct l as [|b l]; [by apply Ha|].
      apply utf8_app; [by apply Ha|]. apply utf8_app; [by apply clean_utf8, printable_clean|done]. }
    apply utf8_app; [by apply clean_utf8, printable_clean|].
    apply utf8_app; [done|by apply clean_utf8, printable_clean].
  - intros l _ Hv. inversion Hv; subst. by apply clean_utf8, format_attrs_clean.
  - intros b Hv. by apply clean_utf8, (scalar_text_clean (BytesValue b)).
  - intros i _. apply utf8_empty.
Qed.

(** ** Reading back *)









(** ** Sizes *)

Lemma escape_char_length c : scalar c -> (String.length (escape_char c) <= 8 * String.length (encode c))%nat.
Proof.
  intros Hc. assert (0 < String.length (encode c))%nat as Hp.
  { unfold encode. repeat case_match; simpl; lia. }
  unfold escape_char. repeat case_match; simpl; lia.
Qed.

Lemma cat_escape_length l :
  Forall scalar l -> (String.length (cat (map escape_char l)) <= 8 * String.length (str_of l))%nat.
Proof.
  induction 1 as [|c l Hc Hl IH]; simpl; [lia|]. rewrite !str_length_app.
  pose proof (escape_char_length c Hc). lia.
Qed.

Lemma quote_length s : utf8 s -> (String.length (quote_for_pretty s) <= 2 + 8 * String.length s)%nat.
Proof.
  intros Hs. destruct (utf8_chars s Hs) as [Es Hc]. unfold quote_for_pretty.
  destruct (negb _); [lia|]. rewrite !str_length_app. pose proof (cat_escape_length (chars s) Hc) as Hl.
  rewrite Es in Hl. simpl. lia.
Qed.

Lemma join_length l : (String.length (join l) <= sum (map (fun p => String.length p + 2) l))%nat.
Proof.
  induction l as [|p l IH]; simpl; [lia|]. destruct l as [|q l]; [simpl; lia|].
  rewrite !str_length_app. simpl in *. lia.
Qed.

Lemma pretty_size :
  (forall v, any_ok v -> (String.length (pretty_any_value v) + 2 <= 8 * any_size v)%nat) /\
  (forall v, value_ok v -> (String.length (pretty_value v) + 2 <= 8 * value_size v)%nat) /\
  (forall kv, pair_ok kv -> (String.length (pretty_pair kv) + 2 <= 8 * pair_size kv)%nat).
Proof.
  assert (forall A (f : A -> string) (size : A -> nat) (ok : A -> Prop) l,
    Forall (fun x => ok x -> (String.length (f x) + 2 <= 8 * size x)%nat) l -> Forall ok l ->
    (String.length (join (map f l)) <= 8 * sum (map size l))%nat) as Hmap.
  { intros A f size ok l Hf Hl. pose proof (join_length (map f l)) as Hj. rewrite map_map in Hj.
    assert (sum (map (fun x => String.length (f x) + 2) l) <= 8 * sum (map size l))%nat; [|lia].
    clear Hj. induction Hf as [|x l Hx Hf IH]; inversion Hl; subst; simpl; [lia|].
    specialize (Hx ltac:(done)). specialize (IH ltac:(done)). lia. }
  assert (forall s, (String.length s + 2 <= 8 * (1 + String.length s))%nat) as Hslack by lia.
  apply value_nested.
  - intros _. vm_compute. lia.
  - intros v IH Hv. inversion Hv; subst. by apply IH.
  - intros s Hv. inversion Hv; subst. pose proof (quote_length s ltac:(done)). simpl. lia.
  - intros b _. destruct b; vm_compute; lia.
  - intros i _. apply (Hslack (scalar_text (IntValue i))).
  - intros d _. apply (Hslack (scalar_text (DoubleValue d))).
  - intros l IH Hv. inversion Hv; subst. simpl. rewrite !str_length_app. simpl.
    pose proof (Hmap _ _ any_size any_ok l IH ltac:(done)). lia.
  - intros l IH Hv. inversion Hv; subst. simpl. rewrite !str_length_app. simpl.
    pose proof (Hmap _ _ pair_size pair_ok l IH ltac:(done)). lia.
  - intros b _. apply (Hslack (scalar_text (BytesValue b))).
  - intros i _. vm_compute. lia.
  - intros k v IH Hv. pose proof (quote_length k) as Hk.
    destruct v as [v|]; inversion Hv; subst; simpl in *; rewrite !str_length_app; simpl;
      specialize (Hk ltac:(done)); [|lia].
    specialize (IH ltac:(done)). lia.
Qed.




(** * Properties *)


(** Nesting does not multiply: the text of a value is at most eight times its size, the
    bytes of its strings and one for every node, however deep its lists are. *)
Theorem pretty_value_is_linear v :
  any_ok v -> (String.length (pretty_any_value v) <= 8 * any_size v)%nat.
Proof. intros Hv. pose proof (proj1 pretty_size v Hv). lia. Qed.




(** Lists inside lists of a text of quotes. *)
Definition nested_value : AnyValue :=
  MkAnyValue (Some (KvlistValue [MkKeyValue "k" (Some (MkAnyValue (Some (ArrayValue
    [MkAnyValue (Some (StringValue (quote_char +:+ quote_char)))]))))])).

Lemma pretty_value_is_linear_witness :
  (String.length (pretty_any_value nested_value) <= 56)%nat.
Proof.
  apply (pretty_value_is_linear nested_value). repeat constructor; by apply ascii_chars.
Defined.
