(* ===== verification/Config.v ===== *)
(** * The configuration file ([src/src/config.rs])

    Where the file is looked for, how it is read, the text [init] generates and how it is
    written.  The TOML parser is a parameter; paths, variables and files are the host's. *)

From Stdlib Require Import Ascii Strings.Byte.
From S2P Require Import Prelude Io Text Path.

Local Open Scope Z_scope.

(** ** Data *)

(** [std::net::SocketAddr]. *)
Inductive SocketAddr :=
| V4 (a b c d port : Z)
| V6 (segments : list Z) (port flowinfo scope_id : Z).

#[export] Instance SocketAddr_eq_dec : EqDecision SocketAddr.
Proof. solve_decision. Defined.

Inductive ColorMode := Auto | Always | Never.

Inductive ProxyTransport := Grpc | HttpProtobuf.
Definition transport_default : ProxyTransport := Grpc.

Inductive ProxySignal := Logs | Traces | Metrics.

#[export] Instance ProxySignal_eq_dec : EqDecision ProxySignal.
Proof. solve_decision. Defined.
#[export] Instance ProxyTransport_eq_dec : EqDecision ProxyTransport.
Proof. solve_decision. Defined.
#[export] Instance ColorMode_eq_dec : EqDecision ColorMode.
Proof. solve_decision. Defined.

Definition ALL : list ProxySignal := [Logs; Traces; Metrics].

Record ProxyRouteConfig := mkRouteConfig {
  rc_name : string;
  rc_service_names : list string;
  rc_signal_types : list ProxySignal;
  rc_transport : option ProxyTransport;
  rc_endpoint : string;
  rc_headers : gmap string string;
}.

Record ProxyConfig := mkProxyConfig {
  pc_queue_capacity : option Z;
  pc_timeout_ms : option Z;
  pc_retry_max : option Z;
  pc_checkpoint_dir : option string;
  pc_routes : list ProxyRouteConfig;
}.

Definition proxy_config_default : ProxyConfig := mkProxyConfig None None None None [].

Record Config := mkConfig {
  c_grpc_addr : option SocketAddr;
  c_http_addr : option SocketAddr;
  c_max_inflight_requests : option Z;
  c_receive_timeout_ms : option Z;
  c_log_file : option string;
  c_log_dir : option string;
  c_log_keep_days : option Z;
  c_no_stdout : option bool;
  c_pretty_log : option bool;
  c_summary : option bool;
  c_color : option ColorMode;
  c_proxy : option ProxyConfig;
}.

Definition config_default : Config :=
  mkConfig None None None None None None None None None None None None.

(** ** The host *)

(** [std::env::var_os], [Path::try_exists] and [std::fs::read_to_string]. *)
Record Host := mkHost {
  var_os : string -> option string;
  try_exists : string -> result bool ErrorKind;
  read_to_string : string -> result string ErrorKind;
}.

(** [toml::from_str::<Config>]; an error has the byte offset where it starts, if any. *)
Class Toml := { from_str : string -> result Config (option Z) }.

(** What an error message carries, apart from fixed words. *)
Inductive ConfigError :=
| InspectConfig (path : string) (kind : ErrorKind)
| MissingConfig (path : string)
| ReadConfig (path : string) (kind : ErrorKind)
| InvalidToml (path : string) (position : option (Z * Z))
| CreateParent (path : string) (kind : ErrorKind)
| FileExists (path : string)
| OpenConfig (path : string) (kind : ErrorKind)
| WriteConfig (path : string) (kind : ErrorKind).

(** ** Reading *)

(** [prefix.iter().filter(|byte| **byte == b'\n').count()]. *)
Fixpoint count_char (c : ascii) (s : string) : Z :=
  match s with
  | EmptyString => 0
  | String a s => (if Ascii.eqb a c then 1 else 0) + count_char c s
  end.

(** [prefix.iter().rposition(|byte| *byte == b'\n')]. *)
Fixpoint rposition_char (c : ascii) (s : string) : option nat :=
  match s with
  | EmptyString => None
  | String a s =>
      match rposition_char c s with
      | Some i => Some (S i)
      | None => if Ascii.eqb a c then Some O else None
      end
  end.

Fixpoint str_drop (n : nat) (s : string) : string :=
  match n, s with
  | S n, String _ s => str_drop n s
  | _, _ => s
  end.

Fixpoint str_take (n : nat) (s : string) : string :=
  match n, s with
  | S n, String a s => String a (str_take n s)
  | _, _ => EmptyString
  end.

(** [chars().count()] of a prefix of valid UTF-8. *)
Fixpoint chars_count (s : string) : Z :=
  match s with
  | EmptyString => 0
  | String a s => (if is_continuation a then 0 else 1) + chars_count s
  end.

Definition newline : ascii := ascii_of_N 10.

(** Line and column, from 1, of the byte offset [start]. *)
Definition error_position (body : string) (start : Z) : Z * Z :=
  let prefix := str_take (Nat.min (Z.to_nat start) (String.length body)) body in
  let line := count_char newline prefix + 1 in
  let line_start := from_option S O (rposition_char newline prefix) in
  let column := chars_count (str_drop line_start prefix) + 1 in
  (line, column).

Section load.
Context `{Toml}.

Definition load_from (h : Host) (path : string) : result Config ConfigError :=
  match read_to_string h path with
  | Err e => Err (ReadConfig path e)
  | Ok body =>
      match from_str body with
      | Ok config => Ok config
      | Err span => Err (InvalidToml path (option_map (error_position body) span))
      end
  end.

Definition non_empty_var (h : Host) (name : string) : option string :=
  match var_os h name with
  | Some v => if str_is_empty v then None else Some v
  | None => None
  end.

Definition default_config_path (h : Host) : option string :=
  match non_empty_var h "XDG_CONFIG_HOME" with
  | Some xdg => Some (path_join (path_join xdg "otel-logger") "config.toml")
  | None =>
      match non_empty_var h "HOME" with
      | Some home => Some (path_join (path_join (path_join home ".config") "otel-logger") "config.toml")
      | None => None
      end
  end.

Definition load_with_home (h : Host) (explicit home : option string) : result Config ConfigError :=
  match explicit with
  | Some path =>
      let path := expand_user_path path home in
      match try_exists h path with
      | Err e => Err (InspectConfig path e)
      | Ok false => Err (MissingConfig path)
      | Ok true => load_from h path
      end
  | None =>
      match default_config_path h with
      | Some path =>
          match try_exists h path with
          | Err e => Err (InspectConfig path e)
          | Ok true => load_from h path
          | Ok false => Ok config_default
          end
      | None => Ok config_default
      end
  end.

Definition load (h : Host) (explicit : option string) : result Config ConfigError :=
  load_with_home h explicit (var_os h "HOME").
End load.

(** ** The generated file *)

Fixpoint map_chars (f : ascii -> ascii) (s : string) : string :=
  match s with
  | EmptyString => EmptyString
  | String a s => String (f a) (map_chars f s)
  end.

(** The texts below write a caret for the double quote, which none of them contains otherwise. *)
Definition quoted (s : string) : string :=
  map_chars (fun a => if Ascii.eqb a "^" then ascii_of_N 34 else a) s.

Definition CONFIG_HEADER : string := quoted "# otel-logger 設定ファイル
#
# 既定の場所: $XDG_CONFIG_HOME/otel-logger/config.toml
#             (XDG_CONFIG_HOME 未設定時は ~/.config/otel-logger/config.toml)
#
# `otel-logger --config /path/to/config.toml` で上書きできます。
#
# 優先順位: CLI flag > 環境変数 > 設定ファイル > 組み込み既定値。
# 以下の key はすべて任意です。コメントアウトすると既定値に戻ります。
".

Definition DAEMON_HEADER_NOTE : string := quoted "#
# このファイルは `otel-logger init --daemon` が生成した常駐運用向けの設定です。
# otel-logger は stdout をローテーションしないため、人が読める出力は止めて、記録は
# 日次ローテーション付きの JSONL に任せます。累計は停止せず、HTTP endpoint
# `GET /stats` から取得できます。人が読める出力も残したい場合は、下の `pretty-log` で
# `log-dir` の日次ファイルへ書き出せます。
".

Definition DEFAULT_STORAGE_SECTION : string := quoted "
# 受信した OTLP telemetry を欠落のない JSON Lines として保存します。親ディレクトリは
# 起動時に作成され、ファイルは追記モードで開かれ、graceful shutdown 時に fsync されます。
# `log-dir` とは同時に指定できません。
# CLI や環境変数で `log-dir` を指定した場合は、そちらが優先されます。
log-file = ^/var/log/otel-logger/otel-logger.jsonl^

# 代替: 日次ローテーション付きでディレクトリへ書き出します
# (ローカル時刻で日ごとの `otel-logger.YYYY-MM-DD`)。古いファイルは起動時に整理され、
# ローテーション時にも `log-keep-days` (既定値 10) の上限が適用されます。
# `log-file` とは同時に指定できません。
# CLI や環境変数で `log-file` を指定した場合は、そちらが優先されます。
# log-dir = ^/var/log/otel-logger^
# log-keep-days = 10
".

Definition DAEMON_STORAGE_SECTION : string := quoted "
# 受信した OTLP telemetry を、日次ローテーション付きの JSON Lines として保存します
# (ローカル時刻で日ごとの `otel-logger.YYYY-MM-DD`)。古いファイルは起動時と日付の
# 変わり目に整理され、`log-keep-days` (既定値 10) 日分を保持します。
# `log-file` とは同時に指定できません。
log-dir = ^/var/log/otel-logger^
log-keep-days = 10

# 代替: 単一ファイルへ追記します。こちらはローテーションも保持上限も持たないため、
# 常駐運用では外部のログローテーションが別途必要になります。
# CLI や環境変数で `log-dir` を指定した場合は、そちらが優先されます。
# log-file = ^/var/log/otel-logger/otel-logger.jsonl^
".

Definition DEFAULT_OUTPUT_SECTION : string := quoted "
# 人が読める stdout 出力を抑止します。JSONL ファイルだけを書き出したい場合に使います。
# otel-logger は stdout をローテーションしないため、常駐させて stdout をファイルへ
# リダイレクトする構成では必ず `true` にしてください (`otel-logger init --daemon` が
# 生成する設定は最初から `true` です)。
no-stdout = false

# 人が読める出力を `log-dir` にも日次ファイル (ローカル時刻で日ごとの
# `otel-logger.pretty.YYYY-MM-DD.log`) として書き出します。色は付けず、`log-keep-days` で
# JSONL と一緒に整理されます。stdout とは独立した出力先なので、stdout を止めるには
# `no-stdout = true` を併用してください。`log-dir` を使う場合だけ指定できます
# (`log-file` と組み合わせると起動時にエラーになります)。
# pretty-log = true

# Claude/Codex の使用量更新時に、累計サマリー (input/output/cache tokens、cost、
# provider/model/effort 別内訳) を人が読める出力 (stdout と `pretty-log` のファイル) へ
# 追記します。HTTP endpoint `GET /stats` はこのフラグに関係なく常に有効です。
summary = false
".

Definition DAEMON_OUTPUT_SECTION : string := quoted "
# 人が読める stdout 出力を抑止します。otel-logger は stdout をローテーションしないため、
# 常駐運用では `true` のままにしてください。集計と HTTP endpoint `GET /stats` は
# この設定に関係なく動き続けます。
no-stdout = true

# 人が読める出力を、stdout の代わりに `log-dir` の日次ファイル (ローカル時刻で日ごとの
# `otel-logger.pretty.YYYY-MM-DD.log`) へ書き出します。色は付けず、`log-keep-days` で
# JSONL と一緒に整理されます。JSONL に加えてディスクを使う (実測で JSONL の 4 分の 1
# 程度) ため、既定では無効です。
# pretty-log = true

# Claude/Codex の使用量更新時に、累計サマリーを人が読める出力へ追記します。
# `no-stdout = true` の間は、`pretty-log = true` のときだけ日次ファイルへ出力されます
# (`GET /stats` は常に有効です)。
summary = false
".

Definition COMMON_CONFIG_TAIL : string := quoted "
# stdout の色設定: ^auto^ | ^always^ | ^never^。`auto` は NO_COLOR を尊重し、
# stdout が TTY でない場合は ANSI code を出しません。`pretty-log` のファイルには
# この設定に関係なく色を付けません。
color = ^auto^

# bind address。既定値は 0.0.0.0:4317 (OTLP/gRPC) と 0.0.0.0:4318 (OTLP/HTTP) です。
# grpc-addr = ^0.0.0.0:4317^
# http-addr = ^0.0.0.0:4318^

# 同時に受信・保存する OTLP request 数の上限 (HTTP と gRPC の合計) と、受け付けから
# body を読み終えるまでの期限 (ミリ秒、空きを待つ時間を含む)。上限を超えた request は
# 期限まで空きを待ち、間に合わなければ retry できる 503 / UNAVAILABLE を返します。
# max-inflight-requests = 8
# receive-timeout-ms = 5000

# ------------------------------------------------------------
# OTLP proxy 転送 (受信 → JSONL 保存 → 上流 collector へ forward)
# ------------------------------------------------------------
#
# proxy 転送を有効にすると、受信 payload を JSONL に保存しつつ、`service.name` で
# 振り分けた上流 collector にも転送します。JSONL 保存が最優先で、転送失敗は
# 個別の route worker が指数バックオフで retry します。JSONL 出力 (`log-file` or
# `log-dir`) が必須です (両方未設定なら proxy 起動時にエラーになります)。
#
# 組み込み既定 route:
#   - name = ^anthropic^ → service-names = [^claude-code^]
#   - name = ^openai^    → service-names = [^codex_cli_rs^, ^codex_exec^,
#                                           ^codex-app-server^, ^codex_mcp_server^,
#                                           ^Codex Desktop^, ^codex-exec-server^]
#
# CLI 短縮フラグ (`--proxy-anthropic-endpoint` / `--proxy-openai-endpoint`) を使うと
# ここで endpoint を書かずに済みます。config で明示すると CLI/env より低優先です。
#
# [proxy]
# queue-capacity = 1024   # per-route の bounded channel 容量
# timeout-ms = 5000       # 1 request の I/O timeout
# retry-max = 8           # 初回送信後の指数バックオフ最大再試行回数
# checkpoint-dir = ^/var/lib/otel-logger/.otel-logger-proxy^  # Phase B 用の予約設定
#
# [[proxy.routes]]
# name = ^anthropic^
# # service-names を省略すると組み込み既定を継承します。
# transport = ^grpc^                    # ^grpc^ | ^http-protobuf^
# endpoint = ^https://collector.example.com:4317^
# [proxy.routes.headers]
# Authorization = ^env:ANTHROPIC_PROXY_TOKEN^  # env: 参照で環境変数から解決
#
# [[proxy.routes]]
# name = ^openai^
# transport = ^http-protobuf^
# endpoint = ^https://collector.example.com^
# [proxy.routes.headers]
# Authorization = ^env:OPENAI_PROXY_TOKEN^
".

Inductive InitProfile := ProfileDefault | ProfileDaemon.

Definition render_config_template (profile : InitProfile) : string :=
  let '(header_note, storage, output) :=
    match profile with
    | ProfileDefault => (""%string, DEFAULT_STORAGE_SECTION, DEFAULT_OUTPUT_SECTION)
    | ProfileDaemon => (DAEMON_HEADER_NOTE, DAEMON_STORAGE_SECTION, DAEMON_OUTPUT_SECTION)
    end in
  foldr String.append ""%string [CONFIG_HEADER; header_note; storage; output; COMMON_CONFIG_TAIL].

(** ** Writing *)

Inductive InitOutcome := Created | Overwrote.

(** Created with [create_new], or created or truncated with [force]. *)
Definition init_options (force : bool) : OpenOptions :=
  restrict_new_file_mode (mkOpenOptions force (negb force) force (opt_mode open_options)).

Definition open_for_init (path : string) (force : bool) : io Disk string :=
  open_with (init_options force) path.

(** [path.try_exists().unwrap_or(false)]. *)
Definition pre_existing (path : string) : Disk -> Disk * bool := fun d =>
  match with_fault unharmed (fun d => (d, Ok (is_there path d))) d with
  | (d, Ok b) => (d, b)
  | (d, Err _) => (d, false)
  end.

(** [race] is what other processes do to the files between the look and the open. *)
Definition write_with_profile (race : gmap string (list byte) -> gmap string (list byte)) (path : string) (force : bool)
    (profile : InitProfile) (d : Disk) : Disk * result InitOutcome ConfigError :=
  let create_parent :=
    match parent path with
    | Some dir => if str_is_empty dir then io_ret tt else create_private_dir dir
    | None => io_ret tt
    end in
  match create_parent d with
  | (d, Err e) => (d, Err (CreateParent path e))
  | (d, Ok _) =>
      let '(d, pre_existed) := pre_existing path d in
      match open_for_init path force (set_files d (race (files d))) with
      | (d, Err AlreadyExists) => (d, Err (FileExists path))
      | (d, Err e) => (d, Err (OpenConfig path e))
      | (d, Ok _) =>
          match write_all path (String.list_byte_of_string (render_config_template profile)) d with
          | (d, Err e) => (d, Err (WriteConfig path e))
          | (d, Ok _) => (d, Ok (if force && pre_existed then Overwrote else Created))
          end
      end
  end.

Definition write_default (race : gmap string (list byte) -> gmap string (list byte)) (path : string) (force : bool) :=
  write_with_profile race path force ProfileDefault.

(** ** Specification *)

(** The lines of a configuration file that set something. *)
Definition active_lines (text : string) : list string :=
  filter (fun l => l <> ""%string /\ starts_with "#" l = false) (split_on newline text).

(** Line and column read off the lines before the offset. *)
Definition position_in_lines (prefix : string) : Z * Z :=
  let ls := split_on newline prefix in
  (Z.of_nat (length ls), chars_count (List.last ls ""%string) + 1).

(** * The generated settings *)

Example default_profile_sets :
  active_lines (render_config_template ProfileDefault) =
  [quoted "log-file = ^/var/log/otel-logger/otel-logger.jsonl^"; "no-stdout = false"%string;
   "summary = false"%string; quoted "color = ^auto^"].
Proof. vm_compute. reflexivity. Qed.

Example daemon_profile_sets :
  active_lines (render_config_template ProfileDaemon) =
  [quoted "log-dir = ^/var/log/otel-logger^"; "log-keep-days = 10"%string; "no-stdout = true"%string;
   "summary = false"%string; quoted "color = ^auto^"].
Proof. vm_compute. reflexivity. Qed.

(** * Lemmas *)

Lemma count_char_split c s :
  Z.of_nat (length (split_on c s)) = count_char c s + 1.
Proof.
  induction s as [|a s IH]; [done|]. simpl. destruct (Ascii.eqb a c); simpl; [lia|].
  destruct (split_on_cons c s) as (seg & segs & E). rewrite E in *. simpl in *. lia.
Qed.

Lemma rposition_last c s :
  str_drop (from_option S O (rposition_char c s)) s = List.last (split_on c s) ""%string.
Proof.
  assert (forall s, (rposition_char c s = None -> split_on c s = [s]) /\
    (forall i, rposition_char c s = Some i -> exists seg seg' segs,
      split_on c s = seg :: seg' :: segs /\ str_drop (S i) s = List.last (split_on c s) ""%string)) as H.
  { clear s. induction s as [|a s [IHn IHs]]; simpl; [done|].
    destruct (rposition_char c s) as [i|] eqn:E.
    - destruct (IHs i eq_refl) as (seg & seg' & segs & Es & Ed). rewrite Es in *.
      split; [done|]. intros ? [= <-]. destruct (Ascii.eqb a c); eexists _, _, _; (split; [done|]);
        exact Ed.
    - specialize (IHn eq_refl). rewrite IHn. destruct (Ascii.eqb a c); (split; [done|]).
      + intros ? [= <-]. by eexists _, _, _.
      + done. }
  destruct (H s) as [Hn Hs]. destruct (rposition_char c s) as [i|]; simpl.
  - by destruct (Hs i eq_refl) as (? & ? & ? & _ & ?).
  - by rewrite Hn.
Qed.

Lemma str_take_min n s : str_take (Nat.min n (String.length s)) s = str_take n s.
Proof. revert n. induction s as [|a s IH]; intros [|n]; simpl; [done..|]. by rewrite IH. Qed.

Lemma create_parent_files path d :
  files (match parent path with
         | Some dir => if str_is_empty dir then io_ret tt else create_private_dir dir
         | None => io_ret tt
         end d).1 = files d.
Proof.
  destruct (parent path) as [dir|]; [|done]. destruct (str_is_empty dir); [done|].
  apply create_private_dir_files.
Qed.

(** The directories above a path are not the path. *)
Lemma create_parent_dirs path d :
  dir_modes (perms (match parent path with
         | Some dir => if str_is_empty dir then io_ret tt else create_private_dir dir
         | None => io_ret tt
         end d).1) !! path = dir_modes (perms d) !! path.
Proof.
  destruct (parent path) as [dir|] eqn:E; [|done]. destruct (str_is_empty dir); [done|].
  apply create_private_dir_dirs. by apply parent_shorter.
Qed.

(** No file is in the way of the directories above a path. *)
Definition parent_clear (path : string) (d : Disk) : Prop :=
  forall dir, parent path = Some dir -> Forall (fun q => files d !! q = None) (lineage (String.length dir) dir).

Lemma create_parent_goes path d :
  faults d = [] -> parent_clear path d ->
  exists m, match parent path with
         | Some dir => if str_is_empty dir then io_ret tt else create_private_dir dir
         | None => io_ret tt
         end d = (set_perms d (mkPermissions (umask (perms d)) (file_modes (perms d)) m (created (perms d)) (removed (perms d))), Ok tt).
Proof.
  intros Hf Hc. destruct (parent path) as [dir|] eqn:E; [|exists (dir_modes (perms d)); by destruct d as [? ? ? ? []]].
  destruct (str_is_empty dir); [exists (dir_modes (perms d)); by destruct d as [? ? ? ? []]|].
  by apply create_private_dir_goes; [|apply Hc].
Qed.

Lemma pre_existing_files path d : files (pre_existing path d).1 = files d.
Proof.
  unfold pre_existing.
  fault_cases (with_fault unharmed (fun d => (d, @Ok bool ErrorKind (is_there path d))) d); done.
Qed.

Lemma pre_existing_perms path d : perms (pre_existing path d).1 = perms d.
Proof.
  unfold pre_existing.
  fault_cases (with_fault unharmed (fun d => (d, @Ok bool ErrorKind (is_there path d))) d); done.
Qed.

(** A file that was written holds the whole template. *)
Lemma write_with_profile_written race path force profile d d' outcome :
  write_with_profile race path force profile d = (d', Ok outcome) ->
  files d' !! path = Some (String.list_byte_of_string (render_config_template profile)).
Proof.
  unfold write_with_profile. set (template := String.list_byte_of_string _). clearbody template.
  destruct (_ d) as [d1 [[]|e]]; [|done]. destruct (pre_existing path d1) as [d2 b].
  destruct (open_for_init path force _) as [d3 [h|e]] eqn:Eo; [|by destruct e].
  assert (files d3 !! path = Some []) as E3.
  { revert Eo. unfold open_for_init, open_with.
    match goal with |- context [with_fault ?p ?f ?d] => fault_cases (with_fault p f d) end; [|done].
    destruct force; simpl; repeat case_match; intros [= <-]; simpl; apply lookup_insert_eq. }
  unfold write_all.
  match goal with |- context [with_fault ?p ?f ?d] => fault_cases (with_fault p f d) end; [|done].
  intros [= <- _]. simpl. unfold contents. simpl. by rewrite lookup_insert_eq, E3.
Qed.

Lemma write_with_profile_safe race path force profile d :
  let '(d', r) := write_with_profile race path force profile d in
  let at_open := race (files d) in
  let template := String.list_byte_of_string (render_config_template profile) in
  match r with
  | Ok outcome =>
      files d' = <[path := template]> at_open /\
      (force = false -> at_open !! path = None /\ outcome = Created)
  | Err (FileExists p) =>
      p = path /\ force = false /\ files d' = at_open /\
      (is_Some (at_open !! path) \/ is_Some (dir_modes (perms d) !! path))
  | Err (CreateParent _ _) => files d' = files d
  | Err (OpenConfig _ _) => files d' = at_open
  | Err (WriteConfig _ _) =>
      (force = false -> at_open !! path = None) /\
      exists n, files d' = <[path := take n template]> at_open
  | Err _ => False
  end.
Proof.
  unfold write_with_profile. set (template := String.list_byte_of_string _). clearbody template.
  pose proof (create_parent_files path d) as Hp. pose proof (create_parent_dirs path d) as Hd.
  destruct (_ d) as [d1 [[]|e]]; simpl in Hp, Hd; [|done].
  pose proof (pre_existing_files path d1) as Hl. pose proof (pre_existing_perms path d1) as Hpp.
  destruct (pre_existing path d1) as [d2 b]. simpl in Hl, Hpp. rewrite <-Hp, <-Hl, <- Hd, <- Hpp.
  set (at_open := race (files d2)). unfold open_for_init, open_with.
  match goal with |- context [with_fault ?p ?f ?d] => fault_cases (with_fault p f d) end; [|done].
  simpl. destruct (dir_modes (perms d2) !! path); [destruct force; simpl; [done|split_and!; try done; by right]|].
  unfold write_all. destruct (at_open !! path) as [old|] eqn:E; destruct force; simpl; [|by split_and!; try done; left| |];
    match goal with |- context [with_fault ?p ?f ?d] => fault_cases (with_fault p f d) end; simpl;
    unfold contents; simpl; rewrite lookup_insert_eq; simpl; rewrite insert_insert_eq;
    (split; [done|by eauto]) || (split; [by eauto|by intros]).
Qed.

Lemma write_with_profile_goes race path force profile d :
  faults d = [] -> dir_modes (perms d) !! path = None -> parent_clear path d ->
  is_ok (write_with_profile race path force profile d).2 = true <->
  force = true \/ race (files d) !! path = None.
Proof.
  intros Hf Hd Hc. unfold write_with_profile. set (template := String.list_byte_of_string _). clearbody template.
  pose proof (create_parent_dirs path d) as Hdir.
  destruct (create_parent_goes path d Hf Hc) as [m Em]. rewrite Em in *. clear Em. simpl in Hdir. rewrite Hd in Hdir.
  unfold pre_existing, with_fault at 1. cbn [faults set_perms]. rewrite Hf. cbn [files set_perms].
  unfold open_for_init, open_with, with_fault at 1. cbn [faults set_perms set_files]. rewrite Hf.
  cbn [perms dir_modes set_perms set_files files]. rewrite Hdir.
  destruct (race (files d) !! path); destruct force; simpl; unfold write_all, with_fault; simpl;
    rewrite ?Hf; simpl; split; try done; auto. by intros [|].
Qed.

(** * Properties *)

Section load_properties.
Context `{Toml}.

(** A configuration that exists is never silently replaced by defaults: [load] succeeds
    exactly with the contents of the file it was given or found, or with defaults when no file
    was asked for and none is there; anything that cannot be inspected, read or parsed fails. *)
Theorem load_never_loses_config h explicit config :
  load h explicit = Ok config <->
  (exists path body,
     match explicit with
     | Some p => path = expand_user_path p (var_os h "HOME")
     | None => default_config_path h = Some path
     end /\
     try_exists h path = Ok true /\ read_to_string h path = Ok body /\ from_str body = Ok config) \/
  (explicit = None /\ config = config_default /\
   forall path, default_config_path h = Some path -> try_exists h path = Ok false).
Proof.
  unfold load, load_with_home, load_from. destruct explicit as [p|].
  - set (path := expand_user_path p _). split.
    + destruct (try_exists h path) as [[]|] eqn:Et; try done.
      destruct (read_to_string h path) as [body|] eqn:Er; [|done].
      destruct (from_str body) eqn:Ef; [|done]. intros [= ->]. left. by exists path, body.
    + intros [(? & body & -> & -> & -> & ->)|[? _]]; done.
  - destruct (default_config_path h) as [path|]; split.
    + destruct (try_exists h path) as [[]|] eqn:Et; try done.
      * destruct (read_to_string h path) as [body|] eqn:Er; [|done].
        destruct (from_str body) eqn:Ef; [|done]. intros [= ->]. left. by exists path, body.
      * intros [= <-]. right. split_and!; [done..|]. by intros ? [= <-].
    + intros [(? & body & [= <-] & -> & -> & ->)|(_ & -> & Hn)]; [done|].
      by rewrite (Hn path eq_refl).
    + intros [= <-]. right. by split_and!.
    + intros [(? & body & ? & _)|(_ & -> & Hn)]; done.
Qed.
End load_properties.

(** The position an error reports is the line of the file, counted from 1, and the
    character in that line, counted from 1, at which the rejected text starts. *)
Theorem error_position_exact body start :
  error_position body start = position_in_lines (str_take (Z.to_nat start) body).
Proof.
  unfold error_position, position_in_lines. rewrite str_take_min, rposition_last.
  by rewrite count_char_split.
Qed.

(** C29. [init] writes the template or says why it did not, whatever fails and whatever other processes
    do between the look and the open.  Success means that the file holds exactly the template of
    the profile and that, without [force], it was not there when it was opened; what has the
    name is refused without [force] and left as it is; no other file is touched; a failed write
    leaves a beginning of the template, never the old text behind it.  On a disk without
    faults, where no directory has the name and no file is in the way of the directories above,
    it succeeds exactly if the file is not there or [force] is given. *)
Theorem init_never_overwrites race path force profile d :
  let '(d', r) := write_with_profile race path force profile d in
  let at_open := race (files d) in
  let template := String.list_byte_of_string (render_config_template profile) in
  match r with
  | Ok outcome =>
      files d' = <[path := template]> at_open /\
      (force = false -> at_open !! path = None /\ outcome = Created)
  | Err (FileExists p) =>
      p = path /\ force = false /\ files d' = at_open /\
      (is_Some (at_open !! path) \/ is_Some (dir_modes (perms d) !! path))
  | Err (CreateParent _ _) => files d' = files d
  | Err (OpenConfig _ _) => files d' = at_open
  | Err (WriteConfig _ _) =>
      (force = false -> at_open !! path = None) /\
      exists n, files d' = <[path := take n template]> at_open
  | Err _ => False
  end /\
  (faults d = [] -> dir_modes (perms d) !! path = None -> parent_clear path d ->
   is_ok r = true <-> force = true \/ at_open !! path = None).
Proof.
  pose proof (write_with_profile_safe race path force profile d) as Hs.
  pose proof (write_with_profile_goes race path force profile d) as Hg.
  by destruct (write_with_profile _ _ _ _ d) as [d' r].
Qed.

(** A file with the user's settings is refused; a name that is free gets the template. *)
Definition settings_disk : Disk := mkDisk {["otel.toml" := [x61; x0a]]} 0 ∅ [] sample_perms.

Lemma init_never_overwrites_witness :
  is_ok (write_with_profile id "otel.toml" false ProfileDefault settings_disk).2 = false /\
  is_ok (write_with_profile id "new.toml" false ProfileDaemon settings_disk).2 = true /\
  is_ok (write_with_profile id "otel.toml" true ProfileDefault settings_disk).2 = true.
Proof.
  assert (forall path, path = "otel.toml"%string \/ path = "new.toml"%string -> parent_clear path settings_disk) as Hc
    by (intros path [-> | ->] dir [= <-]; constructor).
  pose proof (fun path force profile => init_never_overwrites id path force profile settings_disk) as H.
  split; [|split].
  - specialize (H "otel.toml"%string false ProfileDefault).
    destruct (write_with_profile _ _ _ _ settings_disk) as [d' r]. destruct H as [_ H].
    specialize (H eq_refl eq_refl (Hc _ (or_introl eq_refl))).
    apply not_true_is_false. by intros [E|E]%H.
  - specialize (H "new.toml"%string false ProfileDaemon).
    destruct (write_with_profile _ _ _ _ settings_disk) as [d' r]. destruct H as [_ H].
    apply (H eq_refl eq_refl (Hc _ (or_intror eq_refl))). by right.
  - specialize (H "otel.toml"%string true ProfileDefault).
    destruct (write_with_profile _ _ _ _ settings_disk) as [d' r]. destruct H as [_ H].
    apply (H eq_refl eq_refl (Hc _ (or_introl eq_refl))). by left.
Defined.
