(* ===== verification/Admission.v ===== *)
(** * Admission of requests ([src/src/admission.rs])

    A bounded number of requests is processed at once; a bounded number waits for a slot until
    its deadline.  The semaphore is tokio's and stays an interface: what it documents are the
    laws.  The step relation interleaves the accesses of all requests. *)

From S2P Require Import Prelude.

Local Open Scope Z_scope.

(** ** The semaphore *)

Class SemaphoreOps (Sem : Type) := {
  MAX_PERMITS : Z;
  sem_new : Z -> Sem;
  available_permits : Sem -> Z;
  try_acquire : Sem -> option Sem;
  add_permit : Sem -> Sem;
}.

(** What the documentation of [tokio::sync::Semaphore] says. *)
Class SemaphoreLaws (Sem : Type) `{SemaphoreOps Sem} : Prop := {
  max_permits_word : 1 <= MAX_PERMITS < word;
  sem_new_available n : 0 <= n <= MAX_PERMITS -> available_permits (sem_new n) = n;
  try_acquire_some s s' :
    try_acquire s = Some s' ->
    0 < available_permits s /\ available_permits s' = available_permits s - 1;
  try_acquire_none s : try_acquire s = None -> available_permits s <= 0;
  add_permit_available s : available_permits (add_permit s) = available_permits s + 1;
}.

(** ** Limits *)

Definition DEFAULT_MAX_INFLIGHT_REQUESTS : Z := 8.
Definition MAX_INFLIGHT_REQUESTS `{SemaphoreOps Sem} : Z := MAX_PERMITS.
Definition DEFAULT_RECEIVE_TIMEOUT : Z := secs 5.
Definition WAITING_PER_INFLIGHT : Z := 8.

Inductive Rejected := Busy | TimedOut.

#[export] Instance Rejected_eq_dec : EqDecision Rejected.
Proof. solve_decision. Defined.

Definition rejected_message (r : Rejected) : string :=
  match r with
  | Busy => "receiver is busy; retry later"
  | TimedOut => "receiver is busy; timed out waiting for a free slot"
  end.

(** [slots] and [waiting] change; the others are fixed by [new]. *)
Record ReceiveLimits (Sem : Type) := mkLimits {
  slots : Sem;
  waiting : Z;
  max_waiting : Z;
  timeout : Z;
}.
Arguments mkLimits {Sem} _ _ _ _.
Arguments slots {Sem} _.
Arguments waiting {Sem} _.
Arguments max_waiting {Sem} _.
Arguments timeout {Sem} _.

Definition limits_new `{SemaphoreOps Sem} (max_inflight timeout : Z) : ReceiveLimits Sem :=
  mkLimits (sem_new max_inflight) 0 (sat_mul max_inflight WAITING_PER_INFLIGHT) timeout.

(** [Instant]s are nanoseconds; additions beyond [instant_max] do not fit. *)
Definition deadline {Sem} (instant_max : Z) (now : Z) (l : ReceiveLimits Sem) : Z :=
  if now + timeout l <=? instant_max then now + timeout l
  else now + secs (60 * 60 * 24 * 365).

Section limits.
Context {Sem : Type}.
Implicit Types l : ReceiveLimits Sem.

Definition set_slots l (s : Sem) : ReceiveLimits Sem := mkLimits s (waiting l) (max_waiting l) (timeout l).
Definition set_waiting l (n : Z) : ReceiveLimits Sem := mkLimits (slots l) n (max_waiting l) (timeout l).

(** [WaitingGuard::enter]: the guard exists in both cases; [false] means it is over the limit
    and the guard is dropped at once. *)
Definition enter l : ReceiveLimits Sem * bool :=
  let n := wrap_add (waiting l) 1 in
  (set_waiting l n, negb (max_waiting l <? n)).

(** [WaitingGuard::drop]. *)
Definition guard_drop l : ReceiveLimits Sem := set_waiting l (wrap_sub (waiting l) 1).

(** [admit] run without interruption; [await] is what waiting for a slot until the deadline
    comes to: a slot, or nothing. *)
Definition admit_request `{SemaphoreOps Sem} (await : Sem -> option Sem) l
    : ReceiveLimits Sem * result unit Rejected :=
  match try_acquire (slots l) with
  | Some s => (set_slots l s, Ok tt)
  | None =>
      let '(l, entered) := enter l in
      if entered then
        match await (slots l) with
        | Some s => (guard_drop (set_slots l s), Ok tt)
        | None => (guard_drop l, Err TimedOut)
        end
      else (guard_drop l, Err Busy)
  end.
End limits.

(** ** Interleaving *)

(** Where a request is in [admit], or how many clones of its permit live. *)
Inductive request :=
| Contending (deadline : Z)
| Refused
| Waiting (deadline : Z)
| Acquired
| Holding (clones : nat).

(** It has a [WaitingGuard], is among the waiting ones, has a slot. *)
Definition guarded (r : request) : Z :=
  match r with Refused | Waiting _ | Acquired => 1 | _ => 0 end.
Definition is_waiting (r : request) : Z :=
  match r with Waiting _ | Acquired => 1 | _ => 0 end.
Definition has_slot (r : request) : Z :=
  match r with Acquired | Holding _ => 1 | _ => 0 end.

Record receiver (Sem : Type) := mkReceiver {
  limits : ReceiveLimits Sem;
  requests : gmap nat request;
  now : Z;
}.
Arguments mkReceiver {Sem} _ _ _.
Arguments limits {Sem} _.
Arguments requests {Sem} _.
Arguments now {Sem} _.

Section interleaving.
Context `{SemaphoreOps Sem}.
Implicit Types x : receiver Sem.

Inductive step : receiver Sem -> receiver Sem -> Prop :=
(** [try_acquire_owned], both outcomes. *)
| step_admit_now x r s :
    requests x !! r = None -> try_acquire (slots (limits x)) = Some s ->
    step x (mkReceiver (set_slots (limits x) s) (<[r := Holding 0]> (requests x)) (now x))
| step_contend x r d :
    requests x !! r = None -> try_acquire (slots (limits x)) = None ->
    step x (mkReceiver (limits x) (<[r := Contending d]> (requests x)) (now x))
(** [WaitingGuard::enter]; the guards in memory are fewer than a word can count. *)
| step_enter x r d l entered :
    requests x !! r = Some (Contending d) -> enter (limits x) = (l, entered) ->
    map_sum guarded (requests x) + 1 < word ->
    step x (mkReceiver l
      (<[r := if entered : bool then Waiting d else Refused]> (requests x)) (now x))
| step_refused x r :
    requests x !! r = Some Refused ->
    step x (mkReceiver (guard_drop (limits x)) (delete r (requests x)) (now x))
(** [acquire_owned] comes to a slot; the guard is dropped after it. *)
| step_acquire x r d s :
    requests x !! r = Some (Waiting d) -> try_acquire (slots (limits x)) = Some s ->
    step x (mkReceiver (set_slots (limits x) s) (<[r := Acquired]> (requests x)) (now x))
| step_admitted x r :
    requests x !! r = Some Acquired ->
    step x (mkReceiver (guard_drop (limits x)) (<[r := Holding 0]> (requests x)) (now x))
(** The deadline passes, or the handler is cancelled while it waits. *)
| step_give_up x r d :
    requests x !! r = Some (Waiting d) ->
    step x (mkReceiver (guard_drop (limits x)) (delete r (requests x)) (now x))
(** [ReceivePermit::clone], and the drop of a clone or of the last one. *)
| step_clone x r n :
    requests x !! r = Some (Holding n) ->
    step x (mkReceiver (limits x) (<[r := Holding (S n)]> (requests x)) (now x))
| step_drop_clone x r n :
    requests x !! r = Some (Holding (S n)) ->
    step x (mkReceiver (limits x) (<[r := Holding n]> (requests x)) (now x))
| step_drop_last x r :
    requests x !! r = Some (Holding 0) ->
    step x (mkReceiver (set_slots (limits x) (add_permit (slots (limits x))))
      (delete r (requests x)) (now x))
| step_time x t :
    now x <= t -> step x (mkReceiver (limits x) (requests x) t).

Definition receiver_new (max_inflight timeout : Z) : receiver Sem :=
  mkReceiver (limits_new max_inflight timeout) ∅ 0.

Definition reachable (max_inflight timeout : Z) x : Prop :=
  rtc step (receiver_new max_inflight timeout) x.

Record ReceiverInv (max_inflight : Z) x : Prop := {
  inv_slots : available_permits (slots (limits x)) + map_sum has_slot (requests x) = max_inflight;
  inv_available : 0 <= available_permits (slots (limits x));
  inv_guards : waiting (limits x) = map_sum guarded (requests x);
  inv_word : map_sum guarded (requests x) < word;
  inv_max : max_waiting (limits x) = sat_mul max_inflight WAITING_PER_INFLIGHT;
  inv_waiting : map_sum is_waiting (requests x) <= max_waiting (limits x);
}.
End interleaving.

(** * Lemmas *)

Lemma guarded_sum_nonneg (m : gmap nat request) : 0 <= map_sum guarded m.
Proof. apply map_sum_nonneg. by intros ? []. Qed.

Lemma waiting_le_guarded (m : gmap nat request) : map_sum is_waiting m <= map_sum guarded m.
Proof.
  induction m as [|r q m Hr IH] using map_ind; [by rewrite !map_sum_empty|].
  rewrite !map_sum_insert_None by done. destruct q; simpl; lia.
Qed.

(** Split the sums over the requests at the one that moves. *)
Ltac request_sums E :=
  rewrite ?map_sum_insert, ?map_sum_delete, ?(map_val_None _ _ _ E), ?(map_val_Some _ _ _ _ E);
  simpl.

Section invariant.
Context `{SemaphoreLaws Sem}.
Implicit Types x : receiver Sem.
Context (max_inflight : Z).

Lemma guard_drop_count x r q :
  ReceiverInv max_inflight x -> requests x !! r = Some q -> guarded q = 1 ->
  waiting (guard_drop (limits x)) = map_sum guarded (requests x) - 1.
Proof.
  intros Hx E Hq. unfold guard_drop, wrap_sub. simpl. rewrite (inv_guards _ _ Hx).
  pose proof (inv_word _ _ Hx). pose proof (guarded_sum_nonneg (delete r (requests x))) as Hn.
  rewrite map_sum_delete, (map_val_Some _ _ _ _ E), Hq in Hn. apply wrap_small. lia.
Qed.

Ltac step_tac Hx E :=
  destruct Hx as [Hs Ha Hg Hw Hm Hq]; split; simpl in *; rewrite ?add_permit_available in *;
  request_sums E; try lia.

Lemma admission_step_inv x x' : ReceiverInv max_inflight x -> step x x' -> ReceiverInv max_inflight x'.
Proof.
  intros Hx Hstep.
  destruct Hstep as [x r s E Et|x r d E Et|x r d l entered E Een Hfit|x r E|x r d s E Et|x r E
    |x r d E|x r n E|x r n E|x r E|x t Ht].
  - apply try_acquire_some in Et as [? ?]. step_tac Hx E.
  - step_tac Hx E.
  - unfold enter in Een. injection Een as <- <-.
    pose proof (guarded_sum_nonneg (requests x)). pose proof (waiting_le_guarded (requests x)).
    unfold wrap_add. rewrite (inv_guards _ _ Hx), wrap_small by lia.
    destruct (Z.ltb_spec (max_waiting (limits x)) (map_sum guarded (requests x) + 1));
      step_tac Hx E.
  - pose proof (guard_drop_count x r _ Hx E eq_refl). step_tac Hx E.
  - apply try_acquire_some in Et as [? ?]. step_tac Hx E.
  - pose proof (guard_drop_count x r _ Hx E eq_refl). step_tac Hx E.
  - pose proof (guard_drop_count x r _ Hx E eq_refl). step_tac Hx E.
  - step_tac Hx E.
  - step_tac Hx E.
  - step_tac Hx E.
  - by destruct Hx.
Qed.

Lemma receiver_new_inv t :
  0 <= max_inflight <= MAX_PERMITS -> ReceiverInv max_inflight (receiver_new max_inflight t).
Proof.
  intros Hm. pose proof max_permits_word.
  split; simpl; rewrite ?map_sum_empty, ?sem_new_available by done; try done; try lia.
  unfold sat_mul, u64_max, WAITING_PER_INFLIGHT. lia.
Qed.

Lemma receiver_reachable_inv t x :
  0 <= max_inflight <= MAX_PERMITS -> reachable max_inflight t x -> ReceiverInv max_inflight x.
Proof.
  intros Hm Hr. pose proof (receiver_new_inv t Hm) as H0'.
  assert (forall y, ReceiverInv max_inflight y -> rtc step y x -> ReceiverInv max_inflight x) as Hind.
  { clear Hr H0'. intros y Hy Hr. induction Hr as [|y1 y2 y3 H12 H23 IH]; [done|].
    apply IH. by eapply admission_step_inv. }
  by apply (Hind _ H0').
Qed.

(** The uninterrupted [admit] is a sequence of the steps of one request. *)
Lemma admit_request_steps await x r :
  ReceiverInv max_inflight x -> requests x !! r = None -> map_sum guarded (requests x) + 1 < word ->
  (forall s s', await s = Some s' -> try_acquire s = Some s') ->
  exists x', rtc step x x' /\ limits x' = (admit_request await (limits x)).1 /\
    requests x' = match (admit_request await (limits x)).2 with
                  | Ok _ => <[r := Holding 0]> (requests x)
                  | Err _ => requests x
                  end.
Proof.
  intros Hx E Hfit Hawait. unfold admit_request.
  destruct (try_acquire (slots (limits x))) as [s|] eqn:Et.
  { eexists. split; [apply rtc_once, (step_admit_now x r s E Et)|done]. }
  pose proof (step_contend x r 0 E Et) as H1. set (x1 := mkReceiver _ _ _) in H1.
  assert (requests x1 !! r = Some (Contending 0)) as E1 by apply lookup_insert_eq.
  destruct (enter (limits x)) as [l entered] eqn:Een.
  assert (map_sum guarded (requests x1) + 1 < word) as Hfit1.
  { simpl. rewrite map_sum_insert_None by done. simpl. lia. }
  pose proof (step_enter x1 r 0 l entered E1 Een Hfit1) as H2.
  set (x2 := mkReceiver l _ _) in H2.
  assert (forall y q, rtc step x y -> requests y = <[r := q]> (requests x) ->
    step y (mkReceiver (guard_drop (limits y)) (delete r (requests y)) (now y)) ->
    exists x', rtc step x x' /\ limits x' = guard_drop (limits y) /\ requests x' = requests x) as Hend.
  { intros y q Hy Eq Hlast. eexists. split; [eapply rtc_r; [exact Hy|exact Hlast]|].
    simpl. by rewrite Eq, delete_insert_id. }
  assert (slots l = slots (limits x)) as Esl by (unfold enter in Een; by injection Een as <- _).
  assert (rtc step x x2) as H02 by exact (rtc_l _ _ _ _ H1 (rtc_once _ _ H2)).
  destruct entered.
  - assert (requests x2 !! r = Some (Waiting 0)) as E2 by apply lookup_insert_eq.
    destruct (await (slots l)) as [s|] eqn:Ea.
    + pose proof (step_acquire x2 r 0 s E2 (Hawait _ _ Ea)) as H3. set (x3 := mkReceiver _ _ _) in H3.
      assert (requests x3 !! r = Some Acquired) as E3 by apply lookup_insert_eq.
      eexists. split; [eapply rtc_r; [eapply rtc_r; [exact H02|exact H3]|apply (step_admitted x3 r E3)]|].
      simpl. by rewrite !insert_insert_eq.
    + apply (Hend x2 (Waiting 0) H02); [by simpl; rewrite insert_insert_eq|].
      apply (step_give_up x2 r 0 E2).
  - apply (Hend x2 Refused H02); [by simpl; rewrite insert_insert_eq|].
    apply (step_refused x2 r), lookup_insert_eq.
Qed.
End invariant.

(** A semaphore to evaluate examples with: the number of free permits. *)
#[export] Instance counter_semaphore : SemaphoreOps Z := {|
  MAX_PERMITS := 2 ^ 61 - 1;
  sem_new n := n;
  available_permits n := n;
  try_acquire n := if 0 <? n then Some (n - 1) else None;
  add_permit n := n + 1;
|}.

Lemma counter_semaphore_laws : SemaphoreLaws Z.
Proof.
  split; simpl; try done.
  - intros s s'. destruct (Z.ltb_spec 0 s); [|done]. by intros [= <-].
  - intros s. by destruct (Z.ltb_spec 0 s).
Qed.

(** One slot: the first request holds it, the second waits, eight times as many may. *)
Definition sample_receiver : receiver Z :=
  mkReceiver (mkLimits 0 1 8 (secs 5)) {[0%nat := Holding 0; 1%nat := Waiting 0]} 0.

Lemma sample_receiver_reachable : reachable 1 (secs 5) sample_receiver.
Proof.
  eapply rtc_l; [apply (step_admit_now (receiver_new (Sem := Z) 1 (secs 5)) 0%nat 0); reflexivity|].
  eapply rtc_l; [eapply (step_contend _ 1%nat 0); reflexivity|].
  eapply rtc_l; [eapply (step_enter _ 1%nat 0); [reflexivity..|vm_compute; reflexivity]|].
  match goal with |- rtc _ ?a ?b => replace b with a by (vm_compute; reflexivity) end.
  apply rtc_refl.
Qed.

(** * Properties *)

(** C21. However requests arrive, wait, are cancelled and finish, no more than the configured
    number hold a slot at once and no more than eight times as many wait for one. *)
Theorem admission_is_bounded `{SemaphoreLaws Sem} max_inflight t x :
  0 <= max_inflight <= MAX_PERMITS -> reachable max_inflight t x ->
  map_sum has_slot (requests x) <= max_inflight /\
  map_sum is_waiting (requests x) <= WAITING_PER_INFLIGHT * max_inflight.
Proof.
  intros Hm Hr. destruct (receiver_reachable_inv max_inflight t x Hm Hr) as [Hs Ha _ _ Hmax Hw].
  split; [lia|]. rewrite Hmax in Hw. unfold sat_mul in Hw. lia.
Qed.

Lemma admission_is_bounded_witness :
  map_sum has_slot (requests sample_receiver) = 1 /\
  map_sum is_waiting (requests sample_receiver) <= 8.
Proof.
  split; [reflexivity|].
  exact (proj2 (@admission_is_bounded Z _ counter_semaphore_laws 1 (secs 5) sample_receiver
    ltac:(split; vm_compute; discriminate) sample_receiver_reachable)).
Defined.

(** Slots are neither lost nor made: the free ones and the held ones are always the
    configured number and the waiting counter is the number of guards alive, so that an idle
    receiver has every slot back and a counter of zero, cancelled requests included. *)
Theorem slots_are_conserved `{SemaphoreLaws Sem} max_inflight t x :
  0 <= max_inflight <= MAX_PERMITS -> reachable max_inflight t x ->
  available_permits (slots (limits x)) + map_sum has_slot (requests x) = max_inflight /\
  waiting (limits x) = map_sum guarded (requests x) /\
  (requests x = ∅ ->
   available_permits (slots (limits x)) = max_inflight /\ waiting (limits x) = 0).
Proof.
  intros Hm Hr. destruct (receiver_reachable_inv max_inflight t x Hm Hr) as [Hs _ Hg _ _ _].
  split_and!; [done..|]. intros E. rewrite E, map_sum_empty in *. lia.
Qed.

Lemma slots_are_conserved_witness :
  available_permits (slots (limits sample_receiver)) + 1 = 1 /\ waiting (limits sample_receiver) = 1.
Proof.
  destruct (@slots_are_conserved Z _ counter_semaphore_laws 1 (secs 5) sample_receiver
    ltac:(split; vm_compute; discriminate) sample_receiver_reachable) as (H1 & H2 & _).
  split; [exact H1|exact H2].
Defined.
