(* ===== verification/Cli.v ===== *)
(** * Settings ([src/src/cli.rs])

    Command line, environment and configuration file are merged into [Settings].  [clap] has
    parsed the flags and their variables into [Cli]; what remains, and is modelled, is the
    precedence, the checks between settings, and the proxy routes with their headers. *)

From Stdlib Require Import Ascii.
From S2P Require Import Prelude Text Path Config Admission.

Local Open Scope Z_scope.

(** ** Data *)

Inductive ProxyTransportArg := ArgGrpc | ArgHttpProtobuf.
Definition transport_from (v : ProxyTransportArg) : ProxyTransport :=
  match v with ArgGrpc => Grpc | ArgHttpProtobuf => HttpProtobuf end.

Inductive Commands := Init (path : option string) (force daemon : bool).

Record Cli := mkCli {
  command : option Commands;
  config : option string;
  grpc_addr : option SocketAddr;
  http_addr : option SocketAddr;
  max_inflight_requests : option Z;
  receive_timeout_ms : option Z;
  log_file : option string;
  log_dir : option string;
  log_keep_days : option Z;
  no_stdout : option bool;
  pretty_log : option bool;
  summary : option bool;
  color : option ColorMode;
  dry_run : bool;
  proxy_anthropic_endpoint : option string;
  proxy_anthropic_transport : option ProxyTransportArg;
  proxy_anthropic_headers : list string;
  proxy_openai_endpoint : option string;
  proxy_openai_transport : option ProxyTransportArg;
  proxy_openai_headers : list string;
  proxy_checkpoint_dir : option string;
}.

Inductive LogSink :=
| File (path : string)
| Directory (dir : string) (keep_days : Z).

Record ProxyRoute := mkRoute {
  name : string;
  service_names : list string;
  signals : list ProxySignal;
  transport : ProxyTransport;
  endpoint : string;
  headers : list (string * string);
}.

Definition accepts_signal (r : ProxyRoute) (signal : ProxySignal) : bool :=
  bool_decide (signal ∈ signals r).

Record ProxySettings := mkProxySettings {
  queue_capacity : Z;
  timeout_ms : Z;
  retry_max : Z;
  checkpoint_dir : string;
  routes : list ProxyRoute;
}.

Record Settings := mkSettings {
  s_grpc_addr : SocketAddr;
  s_http_addr : SocketAddr;
  s_max_inflight_requests : Z;
  s_receive_timeout : Z;
  s_log_sink : option LogSink;
  s_no_stdout : bool;
  s_pretty_log_dir : option string;
  s_summary : bool;
  s_color : ColorMode;
  s_dry_run : bool;
  s_proxy : option ProxySettings;
}.

Definition DEFAULT_GRPC_ADDR : SocketAddr := V4 0 0 0 0 4317.
Definition DEFAULT_HTTP_ADDR : SocketAddr := V4 0 0 0 0 4318.
Definition DEFAULT_LOG_KEEP_DAYS : Z := 10.
Definition DEFAULT_PROXY_QUEUE_CAPACITY : Z := 1024.
Definition DEFAULT_PROXY_TIMEOUT_MS : Z := 5000.
Definition DEFAULT_PROXY_RETRY_MAX : Z := 8.
Definition DEFAULT_ANTHROPIC_SERVICES : list string := ["claude-code"%string].
Definition DEFAULT_OPENAI_SERVICES : list string :=
  ["codex_cli_rs"; "codex_exec"; "codex-app-server"; "codex_mcp_server"; "Codex Desktop";
   "codex-exec-server"]%string.
Definition ROUTE_ANTHROPIC : string := "anthropic".
Definition ROUTE_OPENAI : string := "openai".

(** [std::env::VarError]. *)
Inductive VarError := NotPresent | NotUnicode.

(** What an error message carries, apart from fixed words. *)
Inductive CliError :=
| LogSinksExclusive
| ConfigLogSinksExclusive
| EmptyConfigPath (key : string)
| PrettyLogWithFile
| PrettyLogWithoutDir
| DuplicateRouteName (name : string)
| EmptyServiceName (route : string)
| ServiceNameClaimedTwice (svc prev cur : string)
| NoOutbox
| FlagsRequireEndpoint (name : string)
| EmptyEndpoint (name : string)
| NoServiceNames (name : string)
| HeaderNotKeyValue (position : Z)
| HeaderEmptyKey (position : Z)
| EmptyHeaderKey (route : string)
| InvalidHeaderKeyChar (route : string) (position : Z)
| ReservedHeader (route key : string)
| DuplicateHeader (route key : string)
| HeaderVarUnavailable (route var key : string) (reason : VarError)
| HeaderCrLf (route key : string) (position : Z)
| HeaderControl (route key : string) (position : Z)
| MaxInflightOutOfRange (max : Z)
| ZeroReceiveTimeout.

Local Open Scope result_scope.

(** ** Colors *)

Definition no_color_requested (var_os : string -> option string) : bool :=
  match var_os "NO_COLOR"%string with
  | Some v => negb (str_is_empty v)
  | None => false
  end.

Definition enabled_for_stdout (c : ColorMode) (var_os : string -> option string)
    (stdout_is_terminal : bool) : bool :=
  match c with
  | Always => true
  | Never => false
  | Auto => negb (no_color_requested var_os) && stdout_is_terminal
  end.

Definition color_enabled_for_stderr (var_os : string -> option string)
    (stderr_is_terminal : bool) : bool :=
  negb (no_color_requested var_os) && stderr_is_terminal.

(** ** Header checks *)

Definition header_separator (c : ascii) : bool :=
  existsb (Ascii.eqb c)
    ["("; ")"; ","; "/"; ":"; ";"; "<"; "="; ">"; "?"; "@"; "["; "\"; "]"; "{"; "}";
     "034"]%char.

(** The position of the first character that cannot be in a header name: all before it are
    single bytes. *)
Fixpoint invalid_key_char (position : Z) (key : string) : option Z :=
  match key with
  | EmptyString => None
  | String c key =>
      if is_ascii_graphic c && negb (header_separator c) then invalid_key_char (position + 1) key
      else Some position
  end.

Definition DISALLOWED_KEYS : list string := ["host"; "content-length"; "transfer-encoding"]%string.

Definition validate_header_key (key route_name : string) : result unit CliError :=
  if str_is_empty key then Err (EmptyHeaderKey route_name)
  else match invalid_key_char 0 key with
       | Some position => Err (InvalidHeaderKeyChar route_name position)
       | None =>
           if existsb (String.eqb (to_ascii_lowercase key)) DISALLOWED_KEYS
           then Err (ReservedHeader route_name key)
           else Ok tt
       end.

(** [char::is_control] of the character that starts with [c]: C0, DEL, or C1, which UTF-8
    writes as [0xC2] and a byte below [0xA0]. *)
Definition is_control (c : ascii) (rest : string) : bool :=
  (code c <? 32) || (code c =? 127) ||
  (code c =? 194) && match rest with
                     | String c2 _ => (128 <=? code c2) && (code c2 <? 160)
                     | EmptyString => false
                     end.

Fixpoint validate_value_from (position : Z) (key value route_name : string) : result unit CliError :=
  match value with
  | EmptyString => Ok tt
  | String c value =>
      if is_continuation c then validate_value_from position key value route_name
      else if Ascii.eqb c "010" || Ascii.eqb c "013" then
        Err (HeaderCrLf route_name key position)
      else if (is_control c value && negb (Ascii.eqb c "009")) || Ascii.eqb c "000"
      then Err (HeaderControl route_name key position)
      else validate_value_from (position + 1) key value route_name
  end.

Definition validate_header_value (key value route_name : string) : result unit CliError :=
  validate_value_from 0 key value route_name.

(** ** Headers *)

(** [dest.retain] and [dest.insert] of one [KEY=VALUE] entry. *)
Definition merge_cli_header (dest : gmap string string) (key value : string) : gmap string string :=
  let dest := filter (fun kv => eq_ignore_ascii_case kv.1 key = false) dest in
  <[to_ascii_lowercase key := value]> dest.

Fixpoint merge_cli_headers_from (idx : Z) (dest : gmap string string) (entries : list string)
    : result (gmap string string) CliError :=
  match entries with
  | [] => Ok dest
  | entry :: entries =>
      let position := idx + 1 in
      match split_once "=" entry with
      | None => Err (HeaderNotKeyValue position)
      | Some (key, value) =>
          let key := trim key in
          if str_is_empty key then Err (HeaderEmptyKey position)
          else merge_cli_headers_from position (merge_cli_header dest key value) entries
      end
  end.

Definition merge_cli_headers (dest : gmap string string) (entries : list string)
    : result (gmap string string) CliError :=
  merge_cli_headers_from 0 dest entries.

Section resolve.
(** [std::env::var]. *)
Context (env_var : string -> result string VarError).

Definition resolve_header (route_name : string) (resolved : list (string * string))
    (entry : string * string) : result (list (string * string)) CliError :=
  let '(key, value) := entry in
  let? _ := validate_header_key key route_name in
  let key := to_ascii_lowercase key in
  if existsb (fun kv => String.eqb kv.1 key) resolved then Err (DuplicateHeader route_name key)
  else
    let? final_value :=
      match strip_prefix "env:" value with
      | Some var => result_map_err (HeaderVarUnavailable route_name var key) (env_var var)
      | None => Ok value
      end in
    let? _ := validate_header_value key final_value route_name in
    Ok (resolved ++ [(key, final_value)]).

Definition resolve_headers (raw : gmap string string) (route_name : string)
    : result (list (string * string)) CliError :=
  try_for_each (resolve_header route_name) [] (btree_entries str_le raw).

(** ** Routes *)

Definition signal_index (s : ProxySignal) : nat :=
  match s with Logs => 0 | Traces => 1 | Metrics => 2 end.
Definition signal_le (a b : ProxySignal) : Prop := (signal_index a <= signal_index b)%nat.
#[global] Instance signal_le_dec : RelDecision signal_le.
Proof. intros a b. unfold signal_le. apply _. Defined.

(** [Vec::dedup]: drops what equals the element before it. *)
Fixpoint dedup (l : list ProxySignal) : list ProxySignal :=
  match l with
  | a :: l' =>
      match l' with
      | b :: _ => if decide (a = b) then dedup l' else a :: dedup l'
      | [] => [a]
      end
  | [] => []
  end.

Definition normalize_signals (s : list ProxySignal) : list ProxySignal :=
  match s with
  | [] => ALL
  | _ => dedup (merge_sort signal_le s)
  end.

Definition normalize_service_names (explicit defaults : list string) : list string :=
  match explicit with [] => defaults | _ => explicit end.

Definition or_else {A} (a b : option A) : option A := match a with Some _ => a | None => b end.

(** The transport of a vendor route: command line, configuration, default. *)
Definition vendor_transport (cli_transport : option ProxyTransportArg)
    (cfg_transport : option ProxyTransport) : ProxyTransport :=
  default transport_default (or_else (option_map transport_from cli_transport) cfg_transport).

Definition build_vendor_route (name : string) (default_services : list string)
    (cli_endpoint : option string) (cli_transport : option ProxyTransportArg)
    (cli_headers : list string) (config : option ProxyRouteConfig)
    : result (option ProxyRoute) CliError :=
  let built :=
    match cli_endpoint, config with
    | None, None =>
        match cli_transport, cli_headers with
        | None, [] => Ok None
        | _, _ => Err (FlagsRequireEndpoint name)
        end
    | Some endpoint, None =>
        let? headers := merge_cli_headers ∅ cli_headers in
        Ok (Some (endpoint, vendor_transport cli_transport None, headers, ALL, default_services))
    | _, Some cfg =>
        let? headers := merge_cli_headers (rc_headers cfg) cli_headers in
        Ok (Some (default (rc_endpoint cfg) cli_endpoint,
                  vendor_transport cli_transport (rc_transport cfg), headers,
                  normalize_signals (rc_signal_types cfg),
                  normalize_service_names (rc_service_names cfg) default_services))
    end in
  let? parts := built in
  match parts with
  | None => Ok None
  | Some (endpoint, transport, headers_map, signals, service_names) =>
      let? headers := resolve_headers headers_map name in
      Ok (Some (mkRoute name service_names signals transport endpoint headers))
  end.

Definition build_custom_route (cfg : ProxyRouteConfig) : result ProxyRoute CliError :=
  if str_is_empty (rc_endpoint cfg) then Err (EmptyEndpoint (rc_name cfg))
  else match rc_service_names cfg with
       | [] => Err (NoServiceNames (rc_name cfg))
       | service_names =>
           let? headers := resolve_headers (rc_headers cfg) (rc_name cfg) in
           Ok (mkRoute (rc_name cfg) service_names (normalize_signals (rc_signal_types cfg))
                 (default transport_default (rc_transport cfg)) (rc_endpoint cfg) headers)
       end.

(** ** Proxy settings *)

Record ProxyCliInputs := mkInputs {
  anthropic_endpoint : option string;
  anthropic_transport : option ProxyTransportArg;
  anthropic_headers : list string;
  openai_endpoint : option string;
  openai_transport : option ProxyTransportArg;
  openai_headers : list string;
  cli_checkpoint_dir : option string;
}.

Definition non_empty_config_path (key path : string) : result string CliError :=
  if str_is_empty path then Err (EmptyConfigPath key) else Ok path.

Definition default_checkpoint_dir (log_sink : LogSink) : string :=
  let base := match log_sink with
              | File path => default "."%string (parent path)
              | Directory dir _ => dir
              end in
  path_join base ".otel-logger-proxy".

Definition collect_route (config_routes : gmap string ProxyRouteConfig) (route : ProxyRouteConfig)
    : result (gmap string ProxyRouteConfig) CliError :=
  match config_routes !! rc_name route with
  | Some _ => Err (DuplicateRouteName (rc_name route))
  | None => Ok (<[rc_name route := route]> config_routes)
  end.

Definition push_custom (routes : list ProxyRoute) (entry : string * ProxyRouteConfig)
    : result (list ProxyRoute) CliError :=
  let? route := build_custom_route entry.2 in Ok (routes ++ [route]).

(** [seen.insert(svc, route)], with the checks around it. *)
Definition claim_service (route : string) (seen : gmap string string) (svc : string)
    : result (gmap string string) CliError :=
  if str_is_empty svc then Err (EmptyServiceName route)
  else match seen !! svc with
       | Some prev => Err (ServiceNameClaimedTwice svc prev route)
       | None => Ok (<[svc := route]> seen)
       end.

Definition claim_services (seen : gmap string string) (route : ProxyRoute)
    : result (gmap string string) CliError :=
  try_for_each (claim_service (name route)) seen (service_names route).

Definition positive_or (v : option Z) (d : Z) : Z :=
  match v with Some v => if 0 <? v then v else d | None => d end.

Definition resolve_proxy_settings (cli : ProxyCliInputs) (config : option ProxyConfig)
    (log_sink : option LogSink) (home : option string) : result (option ProxySettings) CliError :=
  let config := default proxy_config_default config in
  let? config_routes := try_for_each collect_route ∅ (pc_routes config) in
  let? anthropic := build_vendor_route ROUTE_ANTHROPIC DEFAULT_ANTHROPIC_SERVICES
    (anthropic_endpoint cli) (anthropic_transport cli) (anthropic_headers cli)
    (config_routes !! ROUTE_ANTHROPIC) in
  let config_routes := delete ROUTE_ANTHROPIC config_routes in
  let? openai := build_vendor_route ROUTE_OPENAI DEFAULT_OPENAI_SERVICES
    (openai_endpoint cli) (openai_transport cli) (openai_headers cli)
    (config_routes !! ROUTE_OPENAI) in
  let config_routes := delete ROUTE_OPENAI config_routes in
  let? routes := try_for_each push_custom (option_list anthropic ++ option_list openai)
    (btree_entries str_le config_routes) in
  match routes with
  | [] => Ok None
  | _ =>
      let? _ := try_for_each claim_services ∅ routes in
      match log_sink with
      | None => Err NoOutbox
      | Some log_sink =>
          let? checkpoint_dir :=
            match cli_checkpoint_dir cli, pc_checkpoint_dir config with
            | Some dir, _ => Ok (expand_user_path dir home)
            | None, Some dir =>
                let? dir := non_empty_config_path "proxy.checkpoint-dir" dir in
                Ok (expand_user_path dir home)
            | None, None => Ok (default_checkpoint_dir log_sink)
            end in
          Ok (Some (mkProxySettings
            (positive_or (pc_queue_capacity config) DEFAULT_PROXY_QUEUE_CAPACITY)
            (positive_or (pc_timeout_ms config) DEFAULT_PROXY_TIMEOUT_MS)
            (default DEFAULT_PROXY_RETRY_MAX (pc_retry_max config))
            checkpoint_dir routes))
      end
  end.

(** ** Settings *)

Definition resolve_pretty_log_dir (enabled : bool) (log_sink : option LogSink)
    : result (option string) CliError :=
  if negb enabled then Ok None
  else match log_sink with
       | Some (Directory dir _) => Ok (Some dir)
       | Some (File _) => Err PrettyLogWithFile
       | None => Err PrettyLogWithoutDir
       end.

Definition resolve_log_sink (cli : Cli) (config : Config) (home : option string) (keep_days : Z)
    : result (option LogSink) CliError :=
  match log_file cli, log_dir cli with
  | Some _, Some _ => Err LogSinksExclusive
  | Some file, None => Ok (Some (File (expand_user_path file home)))
  | None, Some dir => Ok (Some (Directory (expand_user_path dir home) keep_days))
  | None, None =>
      match c_log_file config, c_log_dir config with
      | Some _, Some _ => Err ConfigLogSinksExclusive
      | Some file, None =>
          let? file := non_empty_config_path "log-file" file in
          Ok (Some (File (expand_user_path file home)))
      | None, Some dir =>
          let? dir := non_empty_config_path "log-dir" dir in
          Ok (Some (Directory (expand_user_path dir home) keep_days))
      | None, None => Ok None
      end
  end.

Definition warns_unrotated_stdout (s : Settings) (stdout_is_terminal : bool) : bool :=
  negb (s_no_stdout s) && negb stdout_is_terminal.

Context `{SemaphoreOps Sem}.

Definition merge_with_home (cli : Cli) (config : Config) (home : option string)
    : result Settings CliError :=
  let keep_days := default DEFAULT_LOG_KEEP_DAYS (or_else (log_keep_days cli) (c_log_keep_days config)) in
  let? log_sink := resolve_log_sink cli config home keep_days in
  let? pretty_log_dir :=
    resolve_pretty_log_dir (default false (or_else (pretty_log cli) (c_pretty_log config))) log_sink in
  let? proxy := resolve_proxy_settings
    (mkInputs (proxy_anthropic_endpoint cli) (proxy_anthropic_transport cli)
      (proxy_anthropic_headers cli) (proxy_openai_endpoint cli) (proxy_openai_transport cli)
      (proxy_openai_headers cli) (proxy_checkpoint_dir cli))
    (c_proxy config) log_sink home in
  let max_inflight := default DEFAULT_MAX_INFLIGHT_REQUESTS
    (or_else (max_inflight_requests cli) (c_max_inflight_requests config)) in
  if negb ((1 <=? max_inflight) && (max_inflight <=? MAX_INFLIGHT_REQUESTS)) then
    Err (MaxInflightOutOfRange MAX_INFLIGHT_REQUESTS)
  else
    let receive_timeout :=
      from_option millis DEFAULT_RECEIVE_TIMEOUT
        (or_else (receive_timeout_ms cli) (c_receive_timeout_ms config)) in
    if receive_timeout =? 0 then Err ZeroReceiveTimeout
    else
      Ok (mkSettings
        (default DEFAULT_GRPC_ADDR (or_else (grpc_addr cli) (c_grpc_addr config)))
        (default DEFAULT_HTTP_ADDR (or_else (http_addr cli) (c_http_addr config)))
        max_inflight receive_timeout log_sink
        (default false (or_else (no_stdout cli) (c_no_stdout config)))
        pretty_log_dir
        (default false (or_else (summary cli) (c_summary config)))
        (default Auto (or_else (color cli) (c_color config)))
        (dry_run cli) proxy).

(** [std::env::var_os] of [HOME] is read here. *)
Definition merge (var_os : string -> option string) (cli : Cli) (config : Config)
    : result Settings CliError :=
  merge_with_home cli config (var_os "HOME"%string).
End resolve.

(** ** Specification *)

Definition chars (s : string) : list ascii := String.list_ascii_of_string s.

(** [tchar] of RFC 9110 without the capital letters. *)
Definition token_chars : list ascii :=
  String.list_ascii_of_string "!#$%&'*+-.^_`|~0123456789abcdefghijklmnopqrstuvwxyz".

(** A header name as it may be sent: a non-empty lowercase token that does not say where the
    request goes or ends. *)
Definition header_key_safe (key : string) : Prop :=
  key <> ""%string /\ Forall (fun c => c ∈ token_chars) (chars key) /\
  key <> "host"%string /\ key <> "content-length"%string /\ key <> "transfer-encoding"%string.

(** A header value without control characters but the tab: none of C0, no DEL, and none of C1,
    which UTF-8 writes as [C2] and a byte from [80] to [9F]. *)
Definition header_value_safe (value : string) : Prop :=
  Forall (fun c => (32 <= code c /\ code c <> 127) \/ code c = 9) (chars value) /\
  forall before c after, chars value = before ++ "194"%char :: c :: after -> ~ (128 <= code c <= 159).

Definition headers_safe (hs : list (string * string)) : Prop :=
  NoDup hs.*1 /\ Forall (fun kv => header_key_safe kv.1 /\ header_value_safe kv.2) hs.

(** All [service.name]s the routes claim. *)
Definition claimed (routes : list ProxyRoute) : list string := concat (map service_names routes).

(** The value the last of the entries gives to a header, names compared without case. *)
Fixpoint last_entry (entries : list string) (key : string) : option string :=
  match entries with
  | [] => None
  | entry :: entries =>
      or_else (last_entry entries key)
        (match split_once "=" entry with
         | Some (k, v) => if eq_ignore_ascii_case (trim k) key then Some v else None
         | None => None
         end)
  end.

(** A configuration without the values the command line replaces: of the vendor routes the
    endpoint, the transport and every header that an entry names, in whatever case. *)
Definition hide_headers (entries : list string) (headers : gmap string string) : gmap string string :=
  filter (fun kv => last_entry entries kv.1 = None) headers.

Definition hide_route (cli : Cli) (r : ProxyRouteConfig) : ProxyRouteConfig :=
  let hide endpoint transport entries :=
    mkRouteConfig (rc_name r) (rc_service_names r) (rc_signal_types r)
      (match transport : option ProxyTransportArg with Some _ => None | None => rc_transport r end)
      (match endpoint : option string with Some _ => ""%string | None => rc_endpoint r end)
      (hide_headers entries (rc_headers r)) in
  if String.eqb (rc_name r) ROUTE_ANTHROPIC then
    hide (proxy_anthropic_endpoint cli) (proxy_anthropic_transport cli) (proxy_anthropic_headers cli)
  else if String.eqb (rc_name r) ROUTE_OPENAI then
    hide (proxy_openai_endpoint cli) (proxy_openai_transport cli) (proxy_openai_headers cli)
  else r.

Definition unless {A B} (cli : option A) (config : option B) : option B :=
  match cli with Some _ => None | None => config end.

Definition hide (cli : Cli) (c : Config) : Config :=
  mkConfig (unless (grpc_addr cli) (c_grpc_addr c)) (unless (http_addr cli) (c_http_addr c))
    (unless (max_inflight_requests cli) (c_max_inflight_requests c))
    (unless (receive_timeout_ms cli) (c_receive_timeout_ms c))
    (unless (log_file cli) (unless (log_dir cli) (c_log_file c)))
    (unless (log_file cli) (unless (log_dir cli) (c_log_dir c)))
    (unless (log_keep_days cli) (c_log_keep_days c)) (unless (no_stdout cli) (c_no_stdout c))
    (unless (pretty_log cli) (c_pretty_log c)) (unless (summary cli) (c_summary c))
    (unless (color cli) (c_color c))
    (option_map (fun p => mkProxyConfig (pc_queue_capacity p) (pc_timeout_ms p) (pc_retry_max p)
      (unless (proxy_checkpoint_dir cli) (pc_checkpoint_dir p))
      (map (hide_route cli) (pc_routes p))) (c_proxy c)).


(** * Lemmas *)

(** ** Header checks *)

Lemma lower_token c :
  is_ascii_graphic c = true -> header_separator c = false -> ascii_lower c ∈ token_chars.
Proof.
  intros H1 H2. assert (existsb (Ascii.eqb (ascii_lower c)) token_chars = true) as He.
  { revert H1 H2. destruct c as [[] [] [] [] [] [] [] []]; vm_compute; congruence. }
  apply existsb_exists in He as (c' & Hin & ->%Ascii.eqb_eq). by apply list_elem_of_In.
Qed.

Lemma invalid_key_char_none position key :
  invalid_key_char position key = None ->
  Forall (fun c => c ∈ token_chars) (chars (to_ascii_lowercase key)).
Proof.
  revert position. induction key as [|c key IH]; intros position; simpl; [by constructor|].
  destruct (is_ascii_graphic c) eqn:E1; [|done]. destruct (header_separator c) eqn:E2; [done|]. simpl.
  intros H. constructor; [by apply lower_token|by eapply IH].
Qed.

Lemma validate_header_key_safe key route :
  validate_header_key key route = Ok tt -> header_key_safe (to_ascii_lowercase key).
Proof.
  unfold validate_header_key. destruct key as [|c key]; [done|]. simpl str_is_empty. cbv iota.
  destruct (invalid_key_char 0 (String c key)) eqn:E; [done|].
  destruct (existsb _ _) eqn:Ee; [done|]. intros _.
  split; [done|]. split; [by eapply invalid_key_char_none|].
  split_and!; intros Heq; rewrite Heq in Ee; done.
Qed.

Lemma validate_value_from_safe position key value route :
  validate_value_from position key value route = Ok tt ->
  Forall (fun c => (32 <= code c /\ code c <> 127) \/ code c = 9) (chars value).
Proof.
  revert position. induction value as [|c value IH]; intros position; simpl; [by constructor|].
  destruct (is_continuation c) eqn:Ec.
  { intros H. constructor; [|by eapply IH]. unfold is_continuation in Ec. lia. }
  destruct (_ || _); [done|]. destruct (is_control c value) eqn:Ei; simpl.
  - destruct (Ascii.eqb_spec c "009") as [->|]; simpl; [|done].
    intros H. constructor; [by right|by eapply IH].
  - destruct (Ascii.eqb c "000"); [done|]. intros H. constructor; [|by eapply IH].
    unfold is_control in Ei. apply orb_false_iff in Ei as [Ei _]. lia.
Qed.

Lemma validate_value_no_c1 position key value route before c after :
  validate_value_from position key value route = Ok tt ->
  chars value = before ++ "194"%char :: c :: after -> ~ (128 <= code c <= 159).
Proof.
  revert position before. induction value as [|c0 value IH]; intros position before; simpl; [by destruct before|].
  intros H E. destruct before as [|b before].
  - injection E as -> E. destruct value as [|c2 value]; [done|]. injection E as -> _.
    change (is_continuation "194") with false in H. unfold is_control in H. simpl in H.
    intros Hc. replace ((128 <=? code c) && (code c <? 160)) with true in H by lia. done.
  - injection E as -> E. destruct (is_continuation b); [by eapply IH|].
    destruct (_ || _); [done|]. destruct (_ || _); [done|]. by eapply IH.
Qed.

Section resolve_lemmas.
Context (env_var : string -> result string VarError).

Lemma resolve_header_safe route hs entry hs' :
  headers_safe hs -> resolve_header env_var route hs entry = Ok hs' -> headers_safe hs'.
Proof.
  destruct entry as [key value]. intros [Hnd Hsafe]. unfold resolve_header.
  destruct (validate_header_key key route) as [[]|] eqn:Ek; [|done]. simpl.
  destruct (existsb _ hs) eqn:Ee; [done|].
  destruct (match strip_prefix "env:" value with Some _ => _ | None => _ end) as [final|]; [|done].
  simpl. destruct (validate_header_value _ final route) as [[]|] eqn:Ev; [|done]. simpl.
  intros [= <-]. split.
  - rewrite fmap_app. apply NoDup_app. split_and!; [done| |by apply NoDup_singleton].
    intros k Hk Hk'. apply list_elem_of_singleton in Hk' as ->. simpl in Hk.
    apply list_elem_of_fmap in Hk as ([k' v'] & Ek' & Hin). simpl in Ek'.
    assert (existsb (fun kv => String.eqb kv.1 (to_ascii_lowercase key)) hs = true); [|congruence].
    apply existsb_exists. exists (k', v'). split; [by apply list_elem_of_In|].
    simpl. by rewrite Ek', String.eqb_refl.
  - apply Forall_app. split; [done|]. constructor; [|constructor]. split; simpl.
    + by eapply validate_header_key_safe.
    + split; [by eapply validate_value_from_safe|]. intros before c after. by eapply validate_value_no_c1.
Qed.

Lemma resolve_headers_safe raw route hs :
  resolve_headers env_var raw route = Ok hs -> headers_safe hs.
Proof.
  apply (try_for_each_ind _ (fun _ hs => headers_safe hs)).
  - split; [apply NoDup_nil_2|by constructor].
  - intros ? entry s s' Hs. by apply resolve_header_safe.
Qed.
End resolve_lemmas.

(** ** Routes *)

Section route_lemmas.
Context (env_var : string -> result string VarError).

(** What a built route guarantees, whatever it is built from. *)
Definition route_ok (r : ProxyRoute) : Prop :=
  service_names r <> [] /\ signals r <> [] /\ NoDup (signals r) /\ headers_safe (headers r).

Lemma dedup_elem l s : s ∈ dedup l <-> s ∈ l.
Proof.
  induction l as [|a [|b l] IH]; [done..|]. simpl in *.
  destruct (decide (a = b)) as [->|]; rewrite ?elem_of_cons, IH; rewrite ?elem_of_cons; tauto.
Qed.

Lemma dedup_NoDup l : Sorted signal_le l -> NoDup (dedup l).
Proof.
  intros Hs. apply Sorted_StronglySorted in Hs; [|intros ???; unfold signal_le; lia].
  induction Hs as [|a [|b l] Hs IH Ha]; [by constructor|by repeat constructor; set_solver|].
  simpl in *. destruct (decide (a = b)) as [->|Hne]; [done|]. constructor; [|done].
  change (a ∉ dedup (b :: l)). rewrite dedup_elem. intros Hin.
  apply Forall_cons in Ha as [Hab Ha]. apply StronglySorted_inv in Hs as [_ Hb].
  apply elem_of_cons in Hin as [->|Hin]; [done|].
  rewrite Forall_forall in Hb. specialize (Hb a Hin). unfold signal_le in *.
  by destruct a, b; simpl in *; try lia.
Qed.

Lemma normalize_signals_ok s :
  normalize_signals s <> [] /\ NoDup (normalize_signals s).
Proof.
  destruct s as [|a s]; [split; [done|apply (bool_decide_unpack _); reflexivity]|].
  unfold normalize_signals. split.
  - intros E. assert (a ∈ dedup (merge_sort signal_le (a :: s))) as Hin; [|rewrite E in Hin; set_solver].
    rewrite dedup_elem, merge_sort_Permutation. by left.
  - apply dedup_NoDup, Sorted_merge_sort. intros ??. unfold signal_le. lia.
Qed.

Lemma build_vendor_route_ok nm services ep tr hs cfg r :
  services <> [] -> build_vendor_route env_var nm services ep tr hs cfg = Ok (Some r) ->
  name r = nm /\ route_ok r.
Proof.
  intros Hsv. unfold build_vendor_route.
  destruct (match ep with Some _ => _ | None => _ end)
    as [[[[[[endpoint transport] hm] sg] sn]|]|] eqn:Eb; simpl; [|done..].
  assert (sg <> [] /\ NoDup sg /\ sn <> []) as (H1 & H2 & H3).
  { pose proof (fun s => proj1 (normalize_signals_ok s)). pose proof (fun s => proj2 (normalize_signals_ok s)).
    assert (forall l, normalize_service_names l services <> []) by (by intros []).
    destruct ep, cfg; [| | |by destruct tr, hs].
    all: destruct (merge_cli_headers _ hs); simplify_eq/=; split_and!; eauto.
    all: apply (normalize_signals_ok []). }
  destruct (resolve_headers env_var hm nm) as [hs'|] eqn:Eh; simpl; [|done].
  intros [= <-]. split; [done|]. split_and!; try done. by eapply resolve_headers_safe.
Qed.

Lemma build_custom_route_ok cfg r :
  build_custom_route env_var cfg = Ok r -> name r = rc_name cfg /\ route_ok r.
Proof.
  unfold build_custom_route. destruct (str_is_empty _); [done|].
  destruct (rc_service_names cfg) as [|sv svs]; [done|].
  destruct (resolve_headers _ _ _) as [hs|] eqn:Eh; simpl; [|done].
  intros [= <-]. split; [done|]. pose proof (normalize_signals_ok (rc_signal_types cfg)) as [? ?].
  split_and!; try done. by eapply resolve_headers_safe.
Qed.

(** The collected configuration is keyed by route name. *)
Lemma collect_routes_keyed l m k r :
  try_for_each collect_route ∅ l = Ok m -> m !! k = Some r -> k = rc_name r.
Proof.
  intros Hl. revert k r. revert Hl.
  apply (try_for_each_ind _ (fun _ m => forall k r, m !! k = Some r -> k = rc_name r)).
  - intros k r. by rewrite lookup_empty.
  - intros ? a s s' Hs. unfold collect_route. destruct (s !! rc_name a); [done|].
    intros [= <-] k r. rewrite lookup_insert. case_decide as Hk; [by intros [= <-]|apply Hs].
Qed.

Lemma push_custom_ok rs l rs' :
  try_for_each (push_custom env_var) rs l = Ok rs' -> Forall route_ok rs ->
  (forall k r, (k, r) ∈ l -> k = rc_name r) ->
  map name rs' = map name rs ++ l.*1 /\ Forall route_ok rs'.
Proof.
  revert rs. induction l as [|[k r] l IH]; intros rs; simpl.
  - intros [= <-] ??. by rewrite app_nil_r.
  - unfold push_custom at 1. destruct (build_custom_route env_var (k, r).2) as [r'|] eqn:E; simpl; [|done].
    apply build_custom_route_ok in E as [En Eok]. intros H Hrs Hk.
    destruct (IH _ H) as [IHn IHok].
    + apply Forall_app. split; [done|]. by apply Forall_singleton.
    + intros ???. apply Hk. by right.
    + split; [|done]. rewrite IHn, map_app. simpl. rewrite En. simpl.
      rewrite <-(Hk k r) by left. by rewrite <-app_assoc.
Qed.

(** ** Claims *)

(** [seen] maps exactly the claimed names, each claimed once. *)
Definition claims_ok (names : list string) (seen : gmap string string) : Prop :=
  NoDup names /\ ~ ""%string ∈ names /\ forall svc, is_Some (seen !! svc) <-> svc ∈ names.

Lemma claim_service_ok names seen route svc seen' :
  claims_ok names seen -> claim_service route seen svc = Ok seen' ->
  claims_ok (names ++ [svc]) seen'.
Proof.
  intros (Hnd & Hne & Hs). unfold claim_service, str_is_empty.
  destruct (String.eqb_spec svc ""%string) as [|Hsvc]; [done|].
  destruct (seen !! svc) eqn:E; [done|]. intros [= <-].
  assert (~ svc ∈ names) as Hnew by (rewrite <-Hs, E; by intros []).
  split_and!.
  - apply NoDup_app. split_and!; [done| |by apply NoDup_singleton]. intros x Hx ->%list_elem_of_singleton. done.
  - rewrite elem_of_app, list_elem_of_singleton. intros [?|?]; [done|congruence].
  - intros x. rewrite elem_of_app, list_elem_of_singleton, <-Hs, lookup_insert.
    case_decide as Hx; [subst; split; [by right|done]|]. split; [by left|by intros [?|<-]].
Qed.

Lemma claim_services_ok routes seen :
  try_for_each claim_services ∅ routes = Ok seen -> claims_ok (claimed routes) seen.
Proof.
  apply (try_for_each_ind _ (fun done => claims_ok (claimed done))).
  - split_and!; [constructor|apply not_elem_of_nil|]. intros svc. rewrite lookup_empty.
    split; [by intros []|by intros ?%not_elem_of_nil].
  - intros before route s s' Hs H. unfold claimed. rewrite map_app, concat_app. simpl.
    rewrite app_nil_r. revert H. unfold claim_services.
    apply (try_for_each_ind _ (fun done => claims_ok (claimed before ++ done))).
    + by rewrite app_nil_r.
    + intros before' svc s1 s2 Hs1 H. rewrite app_assoc. by eapply claim_service_ok.
Qed.

End route_lemmas.

Lemma elem_of_claimed routes svc :
  svc ∈ claimed routes <-> exists r, r ∈ routes /\ svc ∈ service_names r.
Proof.
  unfold claimed. rewrite list_elem_of_In, in_concat. setoid_rewrite in_map_iff.
  setoid_rewrite list_elem_of_In. naive_solver.
Qed.

(** ** Merging headers *)

Lemma merge_cli_header_lookup dest key value k :
  merge_cli_header dest key value !! k =
  if eq_ignore_ascii_case key k
  then if decide (k = to_ascii_lowercase k) then Some value else None
  else dest !! k.
Proof.
  unfold merge_cli_header. rewrite lookup_insert, map_lookup_filter.
  pose proof (eq_ignore_ascii_case_spec key k) as Hk.
  destruct (eq_ignore_ascii_case key k).
  - destruct Hk as [Hk _]. specialize (Hk eq_refl). rewrite <-Hk.
    destruct (decide (to_ascii_lowercase key = k)) as [E|E].
    + by destruct (decide (k = to_ascii_lowercase key)).
    + destruct (decide (k = to_ascii_lowercase key)) as [E'|_]; [congruence|].
      destruct (dest !! k); [|done]. simpl. case_guard as Hg; [|done].
      simpl in Hg. assert (eq_ignore_ascii_case k key = true); [|congruence].
      by apply eq_ignore_ascii_case_spec.
  - destruct (decide (to_ascii_lowercase key = k)) as [E|E].
    + destruct Hk as [_ Hk]. discriminate Hk. by rewrite <-E, to_ascii_lowercase_idem.
    + destruct (dest !! k); [|done]. simpl. case_guard as Hg; [done|]. simpl in Hg.
      destruct Hg. apply not_true_iff_false. rewrite eq_ignore_ascii_case_spec.
      intros E'. destruct Hk as [_ Hk]. by discriminate (Hk (eq_sym E')).
Qed.



(** ** Precedence *)

Section precedence.
Context (env_var : string -> result string VarError) (cli : Cli).






End precedence.

(** ** Resolving headers *)

(** Where the value of a resolved header comes from. *)
Definition resolved_from (env_var : string -> result string VarError) (value v : string) : Prop :=
  match strip_prefix "env:" value with
  | Some var => env_var var = Ok v
  | None => v = value
  end.

Lemma resolve_header_value env_var route hs key value hs' :
  resolve_header env_var route hs (key, value) = Ok hs' ->
  exists v, hs' = hs ++ [(to_ascii_lowercase key, v)] /\ resolved_from env_var value v.
Proof.
  unfold resolve_header, resolved_from. destruct (validate_header_key key route); [|done].
  cbn [result_bind]. destruct (existsb _ hs); [done|]. destruct (strip_prefix "env:" value) as [var|].
  - destruct (env_var var) as [v|]; [|done]. simpl.
    destruct (validate_header_value _ _ _); [|done]. intros [= <-]. by exists v.
  - simpl. destruct (validate_header_value _ _ _); [|done]. intros [= <-]. by exists value.
Qed.


(** * Properties *)


(** No name is claimed twice. *)
Lemma resolved_claims env_var cli config sink home s :
  resolve_proxy_settings env_var cli config sink home = Ok (Some s) -> NoDup (claimed (routes s)).
Proof.
  unfold resolve_proxy_settings.
  destruct (try_for_each collect_route ∅ _) as [m|]; [|done]. simpl.
  destruct (build_vendor_route env_var ROUTE_ANTHROPIC _ _ _ _ _) as [an|]; [|done]. simpl.
  destruct (build_vendor_route env_var ROUTE_OPENAI _ _ _ _ _) as [oa|]; [|done]. simpl.
  destruct (try_for_each (push_custom env_var) _ _) as [rs|]; [|done]. simpl.
  destruct rs as [|r rs]; [done|].
  destruct (try_for_each claim_services ∅ (r :: rs)) as [seen|] eqn:Es; [|done].
  pose proof (claim_services_ok _ _ Es) as (Hc & _). cbn [result_bind].
  destruct sink as [sink|]; [|done].
  destruct (match cli_checkpoint_dir cli with Some _ => _ | None => _ end) as [dir|]; [|done]. simpl.
  by intros [= <-].
Qed.

Lemma merged_claims `{SemaphoreOps Sem} env_var var_os cli config s cfg :
  merge env_var var_os cli config = Ok s -> s_proxy s = Some cfg -> NoDup (claimed (routes cfg)).
Proof.
  unfold merge, merge_with_home, result_bind. intros Hm Hs.
  destruct (resolve_log_sink _ _ _ _) as [sink|]; [|done].
  destruct (resolve_pretty_log_dir _ sink) as [pretty|]; [|done].
  destruct (resolve_proxy_settings _ _ _ _ _) as [proxy|] eqn:Hp; [|done].
  assert (proxy = Some cfg) as -> by (repeat case_match; by simplify_eq/=).
  by eapply resolved_claims.
Qed.

(** C33. Proxy settings that are accepted have routes with distinct names, each [service.name]
    claimed by one route and never the empty one, at least one signal and no signal twice, safe
    headers, and somewhere to persist what is forwarded. *)
Theorem proxy_routes_well_formed env_var cli config sink home s :
  resolve_proxy_settings env_var cli config sink home = Ok (Some s) ->
  routes s <> [] /\ NoDup (map name (routes s)) /\ NoDup (claimed (routes s)) /\
  ~ ""%string ∈ claimed (routes s) /\ Forall route_ok (routes s) /\
  is_Some sink /\ 0 < queue_capacity s /\ 0 < timeout_ms s.
Proof.
  unfold resolve_proxy_settings.
  destruct (try_for_each collect_route ∅ _) as [m|] eqn:Ec; [|done]. simpl.
  pose proof (fun k r => collect_routes_keyed _ m k r Ec) as Hk.
  destruct (build_vendor_route env_var ROUTE_ANTHROPIC _ _ _ _ _) as [an|] eqn:Ea; [|done]. simpl.
  destruct (build_vendor_route env_var ROUTE_OPENAI _ _ _ _ _) as [oa|] eqn:Eo; [|done]. simpl.
  destruct (try_for_each (push_custom env_var) _ _) as [rs|] eqn:Er; [|done]. simpl.
  assert (Forall route_ok (option_list an ++ option_list oa) /\
    map name (option_list an ++ option_list oa) `sublist_of` [ROUTE_ANTHROPIC; ROUTE_OPENAI])
    as [Hok Hsub].
  { assert (forall r, an = Some r -> name r = ROUTE_ANTHROPIC /\ route_ok r) as Han.
    { intros r ->. eapply build_vendor_route_ok; [|exact Ea]. done. }
    assert (forall r, oa = Some r -> name r = ROUTE_OPENAI /\ route_ok r) as Hoa.
    { intros r ->. eapply build_vendor_route_ok; [|exact Eo]. done. }
    destruct an as [a|], oa as [o|]; simpl.
    1: destruct (Han a eq_refl) as [-> ?], (Hoa o eq_refl) as [-> ?].
    2: destruct (Han a eq_refl) as [-> ?].
    3: destruct (Hoa o eq_refl) as [-> ?].
    all: split; [by repeat (apply Forall_cons; split)|repeat constructor]. }
  pose proof (push_custom_ok env_var _ _ rs Er Hok) as Hpush.
  destruct Hpush as [Hn Hrs].
  { intros k r. rewrite elem_of_btree_entries. rewrite !lookup_delete_Some. naive_solver. }
  destruct rs as [|r rs]; [done|].
  destruct (try_for_each claim_services ∅ (r :: rs)) as [seen|] eqn:Es; [|done].
  pose proof (claim_services_ok _ _ Es) as (Hc1 & Hc2 & _). cbn [result_bind].
  destruct sink as [sink|]; [|done].
  destruct (match cli_checkpoint_dir cli with Some _ => _ | None => _ end) as [dir|]; [|done]. simpl.
  intros [= <-]. split_and!; try done; simpl.
  - change (name r :: map name rs) with (map name (r :: rs)). rewrite Hn. apply NoDup_app. split_and!.
    + eapply sublist_NoDup; [|exact Hsub]. apply (bool_decide_unpack _). reflexivity.
    + intros x Hx Hx'. pose proof (elem_of_sublist _ _ _ Hx Hsub) as Hx2.
      apply list_elem_of_fmap in Hx' as ([k c] & -> & Hx').
      rewrite elem_of_btree_entries, !lookup_delete_Some in Hx'. set_solver.
    + apply NoDup_btree_entries.
  - unfold positive_or, DEFAULT_PROXY_QUEUE_CAPACITY. repeat case_match; lia.
  - unfold positive_or, DEFAULT_PROXY_TIMEOUT_MS. repeat case_match; lia.
Qed.

(** A route of each kind: the vendor's by flag, one of its own in the configuration. *)
Definition sample_cli : Cli :=
  mkCli None None None None None (Some 250) None (Some "~/otel"%string) None None (Some true) None None
    false (Some "https://a:4317"%string) None ["Authorization=env:TOKEN"%string] None None [] None.
Definition sample_config : Config :=
  mkConfig None None (Some 4) (Some 0) (Some "/ignored"%string) None (Some 3) None None None None
    (Some (mkProxyConfig (Some 0) None None None
      [mkRouteConfig "staging" ["svc-a"; "svc-b"]%string [Metrics; Logs; Metrics] None
         "https://b" ∅])).
Definition sample_env (var : string) : result string VarError :=
  if String.eqb var "TOKEN" then Ok "Bearer t"%string else Err NotPresent.

Definition sample_routes : list ProxyRoute :=
  [mkRoute ROUTE_ANTHROPIC DEFAULT_ANTHROPIC_SERVICES ALL Grpc "https://a:4317"
     [("authorization", "Bearer t")%string];
   mkRoute "staging" ["svc-a"; "svc-b"]%string [Logs; Metrics] Grpc "https://b" []].
Definition sample_settings : Settings :=
  mkSettings DEFAULT_GRPC_ADDR DEFAULT_HTTP_ADDR 4 (millis 250) (Some (Directory "/root/otel" 3))
    false (Some "/root/otel"%string) false Auto false
    (Some (mkProxySettings 1024 5000 8 "/root/otel/.otel-logger-proxy" sample_routes)).

Lemma proxy_routes_well_formed_witness :
  NoDup (claimed sample_routes) /\ Forall route_ok sample_routes.
Proof.
  assert (resolve_proxy_settings sample_env
    (mkInputs (Some "https://a:4317"%string) None ["Authorization=env:TOKEN"%string] None None [] None)
    (c_proxy sample_config) (Some (Directory "/root/otel" 3)) None =
    Ok (Some (mkProxySettings 1024 5000 8 "/root/otel/.otel-logger-proxy" sample_routes))) as E
    by (vm_compute; reflexivity).
  destruct (proxy_routes_well_formed _ _ _ _ _ _ E) as (_ & _ & H1 & _ & H2 & _).
  split; [exact H1|exact H2].
Defined.

(** A header set on the command line wins over every spelling of it below: after merging,
    the last entry that names it gives its value, under its lowercase name and no other; every
    header no entry names is as it was. *)
Theorem cli_headers_win dest entries m k :
  merge_cli_headers dest entries = Ok m ->
  m !! k = match last_entry entries k with
           | Some value => if decide (k = to_ascii_lowercase k) then Some value else None
           | None => dest !! k
           end.
Proof.
  unfold merge_cli_headers. generalize 0. revert dest.
  induction entries as [|entry entries IH]; intros dest idx; simpl; [by intros [= ->]|].
  destruct (split_once "=" entry) as [[key value]|]; [|done].
  destruct (str_is_empty (trim key)); [done|]. intros H. rewrite (IH _ _ H).
  destruct (last_entry entries k); [done|]. simpl. rewrite merge_cli_header_lookup.
  by destruct (eq_ignore_ascii_case (trim key) k).
Qed.

Definition sample_headers : gmap string string :=
  {["AUTHORIZATION"%string := "old"%string; "x"%string := "1"%string]}.
Definition sample_merged : gmap string string :=
  {["authorization"%string := "a=b"%string; "x"%string := "1"%string]}.

Lemma cli_headers_win_witness :
  merge_cli_headers sample_headers [" Authorization=a=b"%string] = Ok sample_merged /\
  sample_merged !! "AUTHORIZATION"%string = None /\
  sample_merged !! "authorization"%string = Some "a=b"%string.
Proof.
  assert (merge_cli_headers sample_headers [" Authorization=a=b"%string] = Ok sample_merged) as E
    by (vm_compute; reflexivity).
  split; [exact E|].
  split; rewrite (cli_headers_win _ _ _ _ E); vm_compute; reflexivity.
Defined.

(** C38. Resolved headers cannot break out of a request: names are distinct lowercase tokens
    and none of the reserved ones, values hold no line break nor other control character but
    the tab.  They are the configured ones, in the order of the names, with [env:] values
    replaced by the variable's. *)
Theorem resolved_headers_safe env_var raw route hs :
  resolve_headers env_var raw route = Ok hs ->
  headers_safe hs /\
  Forall2 (fun entry kv => kv.1 = to_ascii_lowercase entry.1 /\
             resolved_from env_var entry.2 kv.2) (btree_entries str_le raw) hs.
Proof.
  intros H. split; [by eapply resolve_headers_safe|]. revert H.
  apply (try_for_each_ind _ (fun done hs => Forall2 (fun entry kv =>
    kv.1 = to_ascii_lowercase entry.1 /\ resolved_from env_var entry.2 kv.2) done hs)); [constructor|].
  intros before [key value] s s' Hs (v & -> & Hv)%resolve_header_value.
  apply Forall2_app; [done|]. by repeat constructor.
Qed.

Lemma resolved_headers_safe_witness :
  headers_safe [("authorization", "Bearer t"); ("x-team", "a")]%string.
Proof.
  apply (resolved_headers_safe sample_env
    {["Authorization"%string := "env:TOKEN"%string; "X-Team"%string := "a"%string]} "anthropic").
  vm_compute. reflexivity.
Defined.

(** Accepted settings can be run: the slots fit the semaphore and there is at least one,
    the time limit is not zero, human-readable files have the daily directory of the JSONL, and
    forwarding has a JSONL outbox. *)
Theorem merged_settings_consistent `{SemaphoreOps Sem} env_var cli config home s :
  merge_with_home env_var cli config home = Ok s ->
  1 <= s_max_inflight_requests s <= MAX_INFLIGHT_REQUESTS /\ s_receive_timeout s <> 0 /\
  (forall dir, s_pretty_log_dir s = Some dir -> exists k, s_log_sink s = Some (Directory dir k)) /\
  (forall p, s_proxy s = Some p -> is_Some (s_log_sink s)).
Proof.
  unfold merge_with_home.
  destruct (resolve_log_sink cli config home _) as [sink|]; [|done]. cbn [result_bind].
  destruct (resolve_pretty_log_dir _ sink) as [dir|] eqn:Ep; [|done]. cbn [result_bind].
  destruct (resolve_proxy_settings _ _ _ sink home) as [p|] eqn:Epr; [|done]. cbn [result_bind].
  destruct (negb _) eqn:Em; [done|]. apply negb_false_iff, andb_prop in Em as [Em1 Em2].
  destruct (Z.eqb_spec (from_option millis DEFAULT_RECEIVE_TIMEOUT
    (or_else (receive_timeout_ms cli) (c_receive_timeout_ms config))) 0); [done|].
  intros [= <-]; simpl. split_and!; try lia.
  - intros d ->. unfold resolve_pretty_log_dir in Ep. destruct (negb _); [done|].
    destruct sink as [[]|]; simplify_eq. by eexists.
  - intros ps ->. destruct sink; [done|].
    unfold resolve_proxy_settings in Epr. revert Epr.
    repeat (match goal with |- context [result_bind ?r _] => destruct r end; [|done]; cbn [result_bind]).
    case_match; [done|].
    by repeat (match goal with |- context [result_bind ?r _] => destruct r end; [|done]; cbn [result_bind]).
Qed.

Lemma merged_settings_consistent_witness :
  1 <= s_max_inflight_requests sample_settings <= 2 ^ 61 - 1 /\
  is_Some (s_log_sink sample_settings).
Proof.
  assert (merge_with_home sample_env sample_cli sample_config (Some "/root"%string) =
    Ok sample_settings) as E by (vm_compute; reflexivity).
  destruct (merged_settings_consistent _ _ _ _ _ E) as (H1 & _ & _ & H2).
  split; [exact H1|exact (H2 _ eq_refl)].
Defined.
