(* ===== verification/Channel.v ===== *)
(** * Bounded channels

    What the proxy promises and expects of [tokio::sync::mpsc]: an interface with the
    documented behaviour as laws, against which router and worker are verified. *)

From S2P Require Import Prelude.

Local Open Scope Z_scope.

Inductive TrySendError := Full | Closed.

#[export] Instance TrySendError_eq_dec : EqDecision TrySendError.
Proof. solve_decision. Defined.

(** A channel of [A]s; [pending] is what was sent and not received, oldest first. *)
Class ChannelOps (C A : Type) := {
  channel_new : Z -> C;
  pending : C -> list A;
  max_capacity : C -> Z;
  capacity : C -> Z;
  is_closed : C -> bool;
  try_send : C -> A -> C * option TrySendError;
  try_recv : C -> option (A * C);
  close : C -> C;
}.

Class ChannelLaws (C A : Type) `{ChannelOps C A} : Prop := {
  new_channel n :
    1 <= n ->
    pending (channel_new n : C) = [] /\ is_closed (channel_new n : C) = false /\
    max_capacity (channel_new n : C) = n;
  channel_capacity (c : C) : capacity c = max_capacity c - Z.of_nat (length (pending c));
  sent (c c' : C) (a : A) :
    try_send c a = (c', None) ->
    is_closed c = false /\ is_closed c' = false /\ pending c' = pending c ++ [a] /\
    Z.of_nat (length (pending c)) < max_capacity c /\ max_capacity c' = max_capacity c;
  not_sent (c c' : C) (a : A) e :
    try_send c a = (c', Some e) ->
    c' = c /\
    match e with
    | Full => is_closed c = false /\ max_capacity c <= Z.of_nat (length (pending c))
    | Closed => is_closed c = true
    end;
  received (c : C) :
    match try_recv c with
    | Some (a, c') => pending c = a :: pending c' /\ is_closed c' = is_closed c /\
                      max_capacity c' = max_capacity c
    | None => pending c = []
    end;
  channel_close (c : C) :
    pending (close c) = pending c /\ is_closed (close c) = true /\
    max_capacity (close c) = max_capacity c;
}.

(** ** A channel to evaluate examples with *)

Record list_channel (A : Type) := mkChannel {
  items : list A;
  size : Z;
  shut : bool;
}.
Arguments mkChannel {A} _ _ _.
Arguments items {A} _.
Arguments size {A} _.
Arguments shut {A} _.

#[export] Instance list_channel_ops A : ChannelOps (list_channel A) A := {|
  channel_new n := mkChannel [] n false;
  pending := items;
  max_capacity := size;
  capacity c := size c - Z.of_nat (length (items c));
  is_closed := shut;
  try_send c a :=
    if shut c then (c, Some Closed)
    else if size c <=? Z.of_nat (length (items c)) then (c, Some Full)
    else (mkChannel (items c ++ [a]) (size c) false, None);
  try_recv c :=
    match items c with
    | [] => None
    | a :: q => Some (a, mkChannel q (size c) (shut c))
    end;
  close c := mkChannel (items c) (size c) true;
|}.

#[export] Instance list_channel_laws A : ChannelLaws (list_channel A) A.
Proof.
  split; simpl; try done.
  - intros [q n b] c' a. simpl. destruct b; [done|].
    destruct (Z.leb_spec n (Z.of_nat (length q))); [done|]. intros [= <-]. split_and!; (done || lia).
  - intros [q n b] c' a e. simpl. destruct b; [by intros [= <- <-]|].
    destruct (Z.leb_spec n (Z.of_nat (length q))); [|done]. intros [= <- <-]. by split_and!.
  - by intros [[|a q] n b].
Qed.
