(* ===== verification/Router.v ===== *)
(** * Routing to upstream collectors ([src/src/forward/mod.rs], [src/src/forward/router.rs])

    A persisted record is split by [service.name] and each route is offered its share over a
    bounded channel; what does not fit is dropped and counted. *)

From S2P Require Import Prelude Otlp AggValues AggBatch Config Cli Channel.

Local Open Scope Z_scope.

(** ** Data *)

Inductive ExportRequest :=
| ExportLogs (req : ExportLogsServiceRequest)
| ExportTraces (req : ExportTraceServiceRequest)
| ExportMetrics (req : ExportMetricsServiceRequest).

Definition request_signal (r : ExportRequest) : ProxySignal :=
  match r with ExportLogs _ => Logs | ExportTraces _ => Traces | ExportMetrics _ => Metrics end.

Definition request_is_empty (r : ExportRequest) : bool :=
  match r with
  | ExportLogs r => match resource_logs r with [] => true | _ => false end
  | ExportTraces r => match resource_spans r with [] => true | _ => false end
  | ExportMetrics r => match resource_metrics r with [] => true | _ => false end
  end.

(** [TelemetryRecord::signal]. *)
Definition record_signal (r : batch) : ProxySignal :=
  match r with BLogs _ => Logs | BTraces _ => Traces | BMetrics _ => Metrics end.

Record RouteMetrics := mkMetrics {
  sent_total : Z;
  failed_total : Z;
  dropped_total : Z;
}.

Definition metrics_default : RouteMetrics := mkMetrics 0 0 0.

Record RouteMetricsSnapshot := mkMetricsSnapshot {
  ms_sent : Z;
  ms_failed : Z;
  ms_dropped : Z;
  ms_queue_depth : Z;
}.

Definition metrics_snapshot (m : RouteMetrics) (queue_depth : Z) : RouteMetricsSnapshot :=
  mkMetricsSnapshot (sent_total m) (failed_total m) (dropped_total m) queue_depth.

Definition count_dropped (m : RouteMetrics) : RouteMetrics :=
  mkMetrics (sent_total m) (failed_total m) (wrap_add (dropped_total m) 1).

Record RouteLane (C : Type) := mkLane {
  lane_name : string;
  lane_route : ProxyRoute;
  sender : C;
  lane_metrics : RouteMetrics;
}.
Arguments mkLane {C} _ _ _ _.
Arguments lane_name {C} _.
Arguments lane_route {C} _.
Arguments sender {C} _.
Arguments lane_metrics {C} _.

Record ProxyRouter (C : Type) := mkRouter {
  lanes : list (RouteLane C);
  matcher : gmap string Z;
}.
Arguments mkRouter {C} _ _.
Arguments lanes {C} _.
Arguments matcher {C} _.

Definition usize_max : Z := word - 1.

(** ** Construction *)

Definition insert_names (m : gmap string Z) (i : Z) (names : list string) : gmap string Z :=
  for_each (fun m sn => <[sn := i]> m) m names.

Definition matcher_new {C} (lanes : list (RouteLane C)) : gmap string Z :=
  for_each (fun m e => insert_names m e.1 (service_names (lane_route e.2))) ∅
    (imap (fun i lane => (Z.of_nat i, lane)) lanes).

Definition router_new {C} (lanes : list (RouteLane C)) : ProxyRouter C :=
  mkRouter lanes (matcher_new lanes).

(** ** Filtering *)

Definition extract_service_name (resource : option Resource) : string :=
  match resource with
  | None => ""
  | Some r =>
      match find_attr (resource_attributes r) "service.name" with
      | Some (StringValue s) => s
      | _ => ""
      end
  end.

Definition lane_index (m : gmap string Z) (route : ProxyRoute) : Z :=
  default usize_max (head (omap (fun s => m !! s) (service_names route))).

Definition service_name_matches_lane {C} (resource : option Resource) (m : gmap string Z)
    (lane : RouteLane C) : bool :=
  match m !! extract_service_name resource with
  | Some idx => idx =? lane_index m (lane_route lane)
  | None => false
  end.

(** The index of the first name is looked up but not used. *)
Definition filter_logs {C} (req : ExportLogsServiceRequest) (m : gmap string Z)
    (lane : RouteLane C) : option ExportRequest :=
  match service_names (lane_route lane) with
  | [] => None
  | _ =>
      match List.filter (fun rl => service_name_matches_lane (rl_resource rl) m lane)
              (resource_logs req) with
      | [] => None
      | kept => Some (ExportLogs {| resource_logs := kept |})
      end
  end.

Definition filter_traces {C} (req : ExportTraceServiceRequest) (m : gmap string Z)
    (lane : RouteLane C) : option ExportRequest :=
  match service_names (lane_route lane) with
  | [] => None
  | _ =>
      match List.filter (fun rs => service_name_matches_lane (rs_resource rs) m lane)
              (resource_spans req) with
      | [] => None
      | kept => Some (ExportTraces {| resource_spans := kept |})
      end
  end.

Definition filter_metrics {C} (req : ExportMetricsServiceRequest) (m : gmap string Z)
    (lane : RouteLane C) : option ExportRequest :=
  match service_names (lane_route lane) with
  | [] => None
  | _ =>
      match List.filter (fun rm => service_name_matches_lane (rm_resource rm) m lane)
              (resource_metrics req) with
      | [] => None
      | kept => Some (ExportMetrics {| resource_metrics := kept |})
      end
  end.

(** ** Notification *)

Section notify.
Context {C : Type} `{ChannelOps C ExportRequest}.

(** [lane.sender.try_send(request)] and the counters. *)
Definition deliver (lane : RouteLane C) (filtered : option ExportRequest) : RouteLane C :=
  match filtered with
  | None => lane
  | Some request =>
      let '(c, r) := try_send (sender lane) request in
      mkLane (lane_name lane) (lane_route lane) c
        (match r with
         | None => lane_metrics lane
         | Some _ => count_dropped (lane_metrics lane)
         end)
  end.

Definition notify_lane (m : gmap string Z) (record : batch) (lane : RouteLane C) : RouteLane C :=
  if negb (accepts_signal (lane_route lane) (record_signal record)) then lane
  else
    deliver lane
      (match record with
       | BLogs req => filter_logs req m lane
       | BTraces req => filter_traces req m lane
       | BMetrics req => filter_metrics req m lane
       end).

Definition notify (r : ProxyRouter C) (record : batch) : ProxyRouter C :=
  mkRouter (map (notify_lane (matcher r) record) (lanes r)) (matcher r).

(** [ProxyRouter::snapshot]. *)
Definition router_snapshot (r : ProxyRouter C) : list (string * RouteMetricsSnapshot) :=
  map (fun lane =>
    let depth := sat_sub (max_capacity (sender lane)) (capacity (sender lane)) in
    (lane_name lane, metrics_snapshot (lane_metrics lane) depth)) (lanes r).

(** [spawn_router]: one lane per route, or the error of the channel or of a client. *)
Definition spawn_router {E} (max_permits : Z) (too_large : Z -> E)
    (build_client : ProxyRoute -> Z -> result unit E) (settings : ProxySettings)
    : result (ProxyRouter C) E :=
  let queue_capacity := Z.max (queue_capacity settings) 1 in
  if max_permits <? queue_capacity then Err (too_large queue_capacity)
  else
    result_bind
      (try_for_each (fun lanes route =>
         match build_client route (timeout_ms settings) with
         | Err e => Err e
         | Ok _ =>
             Ok (lanes ++ [mkLane (name route) route (channel_new queue_capacity) metrics_default])
         end) [] (routes settings))
      (fun lanes => Ok (router_new lanes)).
End notify.

(** ** Specification *)

(** The resources a route is to receive, by its own names alone. *)
Definition wanted (route : ProxyRoute) (resource : option Resource) : bool :=
  bool_decide (extract_service_name resource ∈ service_names route).

Definition nonempty {A} (f : list A -> ExportRequest) (l : list A) : option ExportRequest :=
  match l with [] => None | _ => Some (f l) end.

(** What a route is to be offered of a record: its resources, in order, of a signal it takes. *)
Definition share (route : ProxyRoute) (record : batch) : option ExportRequest :=
  if accepts_signal route (record_signal record) then
    match record with
    | BLogs req => nonempty (fun l => ExportLogs {| resource_logs := l |})
        (List.filter (fun rl => wanted route (rl_resource rl)) (resource_logs req))
    | BTraces req => nonempty (fun l => ExportTraces {| resource_spans := l |})
        (List.filter (fun rs => wanted route (rs_resource rs)) (resource_spans req))
    | BMetrics req => nonempty (fun l => ExportMetrics {| resource_metrics := l |})
        (List.filter (fun rm => wanted route (rm_resource rm)) (resource_metrics req))
    end
  else None.

(** The [service.name] of every resource, in order. *)
Definition record_services (r : batch) : list string :=
  match r with
  | BLogs req => map (fun x => extract_service_name (rl_resource x)) (resource_logs req)
  | BTraces req => map (fun x => extract_service_name (rs_resource x)) (resource_spans req)
  | BMetrics req => map (fun x => extract_service_name (rm_resource x)) (resource_metrics req)
  end.
Definition request_services (r : ExportRequest) : list string :=
  match r with
  | ExportLogs req => record_services (BLogs req)
  | ExportTraces req => record_services (BTraces req)
  | ExportMetrics req => record_services (BMetrics req)
  end.
Definition share_services (route : ProxyRoute) (record : batch) : list string :=
  from_option request_services [] (share route record).

(** * Lemmas *)

Lemma insert_names_lookup m i names svc :
  insert_names m i names !! svc = if decide (svc ∈ names) then Some i else m !! svc.
Proof.
  unfold insert_names. revert m. induction names as [|n names IH]; intros m; simpl.
  { done. }
  rewrite IH, lookup_insert.
  destruct (decide (svc ∈ names)), (decide (svc ∈ n :: names)), (decide (n = svc)); set_solver.
Qed.

Lemma matcher_new_snoc {C} (ls : list (RouteLane C)) l :
  matcher_new (ls ++ [l]) =
  insert_names (matcher_new ls) (Z.of_nat (length ls)) (service_names (lane_route l)).
Proof.
  unfold matcher_new. rewrite imap_app, for_each_app. simpl. by rewrite Nat.add_0_r.
Qed.

Lemma matcher_new_lookup {C} (ls : list (RouteLane C)) svc i :
  NoDup (claimed (map lane_route ls)) ->
  matcher_new ls !! svc = Some i <->
  exists n lane, i = Z.of_nat n /\ ls !! n = Some lane /\ svc ∈ service_names (lane_route lane).
Proof.
  revert i. induction ls as [|l ls IH] using rev_ind; intros i Hnd.
  { unfold matcher_new. simpl. rewrite lookup_empty. split; [done|by intros (? & ? & _ & ? & _)]. }
  unfold claimed in Hnd. rewrite !map_app, concat_app in Hnd. simpl in Hnd. rewrite app_nil_r in Hnd.
  apply NoDup_app in Hnd as (Hnd & Hdisj & _).
  rewrite matcher_new_snoc, insert_names_lookup.
  destruct (decide (svc ∈ service_names (lane_route l))) as [Hin|Hnin].
  - split.
    + intros [= <-]. exists (length ls), l. split_and!; [done| |done].
      by rewrite lookup_app_r, Nat.sub_diag by lia.
    + intros (n & lane & -> & [Hl|[Hge Hl]]%lookup_app_Some & Hs).
      * destruct (Hdisj svc); [|done]. apply elem_of_claimed. exists (lane_route lane).
        split; [|done]. apply list_elem_of_fmap. exists lane. split; [done|].
        by eapply list_elem_of_lookup_2.
      * apply list_lookup_singleton_Some in Hl as [Hn <-]. do 2 f_equal. lia.
  - rewrite (IH i Hnd). split.
    + intros (n & lane & -> & Hl & Hs). exists n, lane. split_and!; [done| |done].
      by apply lookup_app_l_Some.
    + intros (n & lane & -> & Hl & Hs). apply lookup_app_Some in Hl as [Hl|[_ Hl]]; [by exists n, lane|].
      by apply list_lookup_singleton_Some in Hl as [_ <-].
Qed.

Lemma lane_index_own {C} (ls : list (RouteLane C)) n lane :
  NoDup (claimed (map lane_route ls)) -> ls !! n = Some lane ->
  service_names (lane_route lane) <> [] ->
  lane_index (matcher_new ls) (lane_route lane) = Z.of_nat n.
Proof.
  intros Hnd Hl Hne. unfold lane_index.
  destruct (service_names (lane_route lane)) as [|sn sns] eqn:E; [done|]. simpl.
  assert (matcher_new ls !! sn = Some (Z.of_nat n)) as ->; [|done].
  apply matcher_new_lookup; [done|]. exists n, lane. rewrite E. split_and!; [done..|by left].
Qed.

(** The lane the matcher picks is the one that claims the name. *)
Lemma matches_lane_wanted {C} (ls : list (RouteLane C)) n lane resource :
  NoDup (claimed (map lane_route ls)) -> ls !! n = Some lane ->
  service_names (lane_route lane) <> [] ->
  service_name_matches_lane resource (matcher_new ls) lane = wanted (lane_route lane) resource.
Proof.
  intros Hnd Hl Hne. unfold service_name_matches_lane, wanted.
  rewrite (lane_index_own ls n lane) by done. set (svc := extract_service_name resource).
  pose proof (matcher_new_lookup ls svc) as Hm.
  destruct (matcher_new ls !! svc) as [i|] eqn:E.
  - destruct (proj1 (Hm i Hnd) eq_refl) as (n' & lane' & -> & Hl' & Hs').
    destruct (Z.eqb_spec (Z.of_nat n') (Z.of_nat n)) as [En|Hn].
    + assert (n' = n) as -> by lia. simplify_eq. by rewrite bool_decide_true.
    + rewrite bool_decide_false; [done|]. intros Hs. destruct Hn.
      assert (Some (Z.of_nat n') = Some (Z.of_nat n)) as He; [|by injection He].
      apply (Hm (Z.of_nat n) Hnd). by exists n, lane.
  - rewrite bool_decide_false; [done|]. intros Hs.
    assert (None = Some (Z.of_nat n)); [|done]. apply (Hm _ Hnd). by exists n, lane.
Qed.

Lemma wanted_none route resource : service_names route = [] -> wanted route resource = false.
Proof. intros E. unfold wanted. rewrite E. apply bool_decide_false, not_elem_of_nil. Qed.

Lemma filter_wanted_none {A} (get : A -> option Resource) route l :
  service_names route = [] -> List.filter (fun x => wanted route (get x)) l = [].
Proof. intros E. induction l as [|x l IH]; [done|]. simpl. by rewrite wanted_none. Qed.

Section notify_lemmas.
Context {C : Type} `{ChannelOps C ExportRequest}.

(** One lane is offered its share, whatever the other lanes are. *)
Lemma notify_lane_share (ls : list (RouteLane C)) n lane record :
  NoDup (claimed (map lane_route ls)) -> ls !! n = Some lane ->
  notify_lane (matcher_new ls) record lane = deliver lane (share (lane_route lane) record).
Proof.
  intros Hnd Hl. unfold notify_lane, share. destruct (accepts_signal _ _); [|done]. simpl. f_equal.
  assert (forall resource, service_names (lane_route lane) <> [] ->
    service_name_matches_lane resource (matcher_new ls) lane = wanted (lane_route lane) resource) as Hw.
  { intros. by eapply matches_lane_wanted. }
  destruct record as [req|req|req]; [unfold filter_logs|unfold filter_traces|unfold filter_metrics];
    destruct (service_names (lane_route lane)) as [|sn sns] eqn:E;
    rewrite ?filter_wanted_none by done; try done.
  - rewrite (filter_ext _ (fun x => wanted (lane_route lane) (rl_resource x))) by (intros; by apply Hw).
    by destruct (List.filter _ _).
  - rewrite (filter_ext _ (fun x => wanted (lane_route lane) (rs_resource x))) by (intros; by apply Hw).
    by destruct (List.filter _ _).
  - rewrite (filter_ext _ (fun x => wanted (lane_route lane) (rm_resource x))) by (intros; by apply Hw).
    by destruct (List.filter _ _).
Qed.
End notify_lemmas.

Lemma filter_services {A} (get : A -> option Resource) route l :
  map (fun x => extract_service_name (get x)) (List.filter (fun x => wanted route (get x)) l) =
  filter (fun s => s ∈ service_names route) (map (fun x => extract_service_name (get x)) l).
Proof.
  induction l as [|x l IH]; [done|]. simpl. unfold wanted at 1. rewrite filter_cons.
  case_bool_decide as E; [rewrite decide_True by done|rewrite decide_False by done]; simpl;
    by rewrite ?IH.
Qed.

Lemma share_services_filter route record :
  share_services route record =
  if accepts_signal route (record_signal record)
  then filter (fun s => s ∈ service_names route) (record_services record) else [].
Proof.
  unfold share_services, share. destruct (accepts_signal _ _); [|done].
  destruct record as [req|req|req]; simpl; rewrite <-filter_services;
    by destruct (List.filter _ _).
Qed.

Lemma NoDup_concat_lookup (ll : list (list string)) n m l k (x : string) :
  NoDup (concat ll) -> ll !! n = Some l -> ll !! m = Some k -> x ∈ l -> x ∈ k -> n = m.
Proof.
  revert n m. induction ll as [|l0 ll IH]; intros n m Hnd Hn Hm Hl Hk; [done|].
  simpl in Hnd. apply NoDup_app in Hnd as (_ & Hd & Hnd).
  assert (forall i l', ll !! i = Some l' -> x ∈ l' -> x ∈ concat ll) as Hin.
  { intros i l' Hi Hx. rewrite list_elem_of_In, in_concat. exists l'.
    split; apply list_elem_of_In; [by eapply list_elem_of_lookup_2|done]. }
  destruct n as [|n], m as [|m]; simplify_eq/=; [done|destruct (Hd x); eauto..|].
  f_equal. by eapply IH.
Qed.

(** * Properties *)

(** C18. When no name is claimed twice, notifying a record offers every lane exactly its share,
    determined by its own route alone: the shared matcher, the order of the lanes and the names
    of other routes play no part. *)
Theorem notify_delivers_shares {C} `{ChannelOps C ExportRequest} (ls : list (RouteLane C)) record :
  NoDup (claimed (map lane_route ls)) ->
  lanes (notify (router_new ls) record) =
  map (fun lane => deliver lane (share (lane_route lane) record)) ls.
Proof.
  intros Hnd. simpl. apply list_eq. intros n. rewrite !list_lookup_fmap.
  destruct (ls !! n) as [lane|] eqn:E; [|done]. simpl. f_equal. by eapply notify_lane_share.
Qed.

(** Two lanes and a record of three resources: one for the second lane, one for none, one for
    the first. *)
Definition sample_lanes : list (RouteLane (list_channel ExportRequest)) :=
  map (fun r => mkLane (name r) r (channel_new 2) metrics_default) sample_routes.
Definition sample_resource (svc : string) : option Resource :=
  Some {| resource_attributes :=
    [MkKeyValue "service.name" (Some (MkAnyValue (Some (StringValue svc))))] |}.
Definition sample_record : batch :=
  BLogs {| resource_logs :=
    [{| rl_resource := sample_resource "svc-b"; rl_scope_logs := [] |};
     {| rl_resource := None; rl_scope_logs := [] |};
     {| rl_resource := sample_resource "claude-code"; rl_scope_logs := [] |}] |}.

Lemma sample_claims : NoDup (claimed sample_routes).
Proof. apply (bool_decide_unpack _). vm_compute. exact I. Qed.

Lemma notify_delivers_shares_witness :
  map (fun lane => map request_services (pending (sender lane)))
    (lanes (notify (router_new sample_lanes) sample_record)) = [[["claude-code"]]; [["svc-b"]]]%string.
Proof.
  rewrite notify_delivers_shares; [vm_compute; reflexivity|exact sample_claims].
Defined.

(** A resource goes to the one route that claims its name, if that route takes the signal,
    and to no other; an unclaimed or missing name goes nowhere; order is kept. *)
Theorem resource_goes_to_its_route routes record n route :
  NoDup (claimed routes) -> routes !! n = Some route ->
  (forall svc, svc ∈ share_services route record <->
     svc ∈ record_services record /\ svc ∈ service_names route /\
     record_signal record ∈ signals route) /\
  share_services route record `sublist_of` record_services record /\
  (forall n' route' svc, routes !! n' = Some route' -> n <> n' ->
     svc ∈ share_services route record -> ~ svc ∈ share_services route' record).
Proof.
  intros Hnd Hr. assert (forall r svc, svc ∈ share_services r record <->
     svc ∈ record_services record /\ svc ∈ service_names r /\ record_signal record ∈ signals r)
    as Hshare.
  { intros r svc. rewrite share_services_filter. unfold accepts_signal.
    case_bool_decide; [rewrite list_elem_of_filter; tauto|]. split; [by intros ?%not_elem_of_nil|tauto]. }
  split_and!; [done| |].
  - rewrite share_services_filter. destruct (accepts_signal _ _); [apply sublist_filter|apply sublist_nil_l].
  - intros n' route' svc Hr' Hne (_ & H1 & _)%Hshare (_ & H2 & _)%Hshare. apply Hne.
    pose proof (NoDup_concat_lookup (map service_names routes) n n' (service_names route)
      (service_names route') svc Hnd) as Hu.
    apply Hu; rewrite ?list_lookup_fmap, ?Hr, ?Hr'; done.
Qed.

Lemma resource_goes_to_its_route_witness :
  share_services (default (mkRoute "" [] [] Grpc "" []) (sample_routes !! 1%nat)) sample_record =
    ["svc-b"%string] /\
  ~ "svc-b"%string ∈ share_services (default (mkRoute "" [] [] Grpc "" []) (sample_routes !! 0%nat))
    sample_record.
Proof.
  split; [vm_compute; reflexivity|].
  destruct (resource_goes_to_its_route sample_routes sample_record 1 _ sample_claims eq_refl)
    as (_ & _ & Hother).
  apply (Hother 0%nat _ "svc-b"%string eq_refl); [discriminate|vm_compute; left].
Defined.
