(* ===== verification/Client.v ===== *)
(** * Clients of the upstream collectors ([src/src/forward/client.rs])

    A client checks its endpoint once, sends requests, and says of a failure whether it may be
    retried and after how long.  Sockets, URL parsing, protobuf and HTTP dates belong to other
    crates and are parameters. *)

From Stdlib Require Import Ascii Strings.Byte.
From S2P Require Import Prelude Text Config Cli Otlp AggBatch Router.

Local Open Scope Z_scope.

(** ** What other crates do *)

(** The parts of [reqwest::Url] that are read. *)
Record Url := mkUrl {
  url_text : string;
  scheme : string;
  has_host : bool;
  query : option string;
  fragment : option string;
  username : string;
  password : option string;
}.

(** [tonic::Code]. *)
Inductive Code :=
| CodeOk | Cancelled | Unknown | InvalidArgument | DeadlineExceeded | NotFoundCode
| AlreadyExistsCode | PermissionDenied | ResourceExhausted | FailedPrecondition | Aborted
| OutOfRange | Unimplemented | Internal | Unavailable | DataLoss | Unauthenticated.

#[export] Instance Code_eq_dec : EqDecision Code.
Proof. solve_decision. Defined.

(** The decoded fields of [google.rpc.Status] and its details. *)
Record RpcAny := mkAny { type_url : string; any_bytes : list byte }.
Record RpcDuration := mkDuration { seconds : Z; nanos : Z }.

Class Crates := {
  url_parse : string -> option Url;
  uri_scheme : string -> option (option string);
  endpoint_from_shared : string -> bool;
  header_name_ok : string -> bool;
  header_value_ok : string -> bool;
  metadata_key_ok : string -> bool;
  metadata_value_ok : string -> bool;
  rpc_status_decode : list byte -> option (list RpcAny);
  rpc_retry_info_decode : list byte -> option (option RpcDuration);
  parse_http_date : string -> option Z;
  encode_pb : ExportRequest -> list byte;
}.

(** ** Failures *)

Record Status := mkStatus {
  code_of : Code;
  details : list byte;
  (** [source] is a [tonic::transport::Error]. *)
  transport_source : bool;
}.

Inductive ExportError :=
| HttpExportFailure (status : Z) (retry_after : option Z)
| GrpcFailure (status : Status)
| RequestFailure
| OtherFailure.

Inductive BuildError :=
| ParseEndpoint (route : string)
| NotHttp (route : string)
| QueryOrFragment (route : string)
| EmbeddedCredentials (route : string)
| TimeoutTooLong (route : string) (timeout : Z)
| BuildEndpoint (route : string)
| BuildUri (route : string)
| InvalidHeaderName (route : string)
| InvalidHeaderValue (route key : string)
| BuildUrl (route path : string).

Definition OTLP_HTTP_PROTOBUF : string := "application/x-protobuf".
Definition OTLP_HTTP_LOGS_PATH : string := "/v1/logs".
Definition OTLP_HTTP_TRACES_PATH : string := "/v1/traces".
Definition OTLP_HTTP_METRICS_PATH : string := "/v1/metrics".
Definition GRPC_TIMEOUT_MAX : Z := secs (99999999 * 60 * 60).

(** The clocks: [Instant::now], the last instant it can represent, and [SystemTime::now]. *)
Record Clocks := mkClocks { instant_now : Z; instant_max : Z; system_now : Z }.

(** [Instant::now().checked_add(delay).map(|_| delay)]. *)
Definition fits (c : Clocks) (delay : Z) : option Z :=
  if instant_now c + delay <=? instant_max c then Some delay else None.

Section client.
Context `{Crates}.

(** ** Endpoints *)

Definition validate_proxy_endpoint (raw route : string) : result unit BuildError :=
  match url_parse raw with
  | None => Err (ParseEndpoint route)
  | Some url =>
      if negb ((String.eqb (scheme url) "http" || String.eqb (scheme url) "https") && has_host url)
      then Err (NotHttp route)
      else match query url, fragment url with
           | None, None =>
               match password url with
               | None => if str_is_empty (username url) then Ok tt else Err (EmbeddedCredentials route)
               | Some _ => Err (EmbeddedCredentials route)
               end
           | _, _ => Err (QueryOrFragment route)
           end
  end.

Record GrpcEndpoint := mkGrpcEndpoint { grpc_url : string; grpc_endpoint_timeout : Z; tls : bool }.

Definition build_grpc_endpoint (url route : string) (timeout : Z) : result GrpcEndpoint BuildError :=
  match validate_proxy_endpoint url route with
  | Err e => Err e
  | Ok _ =>
      if GRPC_TIMEOUT_MAX <? timeout then Err (TimeoutTooLong route timeout)
      else if negb (endpoint_from_shared url) then Err (BuildEndpoint route)
      else match uri_scheme url with
           | None => Err (BuildUri route)
           | Some s => Ok (mkGrpcEndpoint url timeout (bool_decide (s = Some "https"%string)))
           end
  end.

(** Headers are kept under lowercase names; a later one replaces an earlier one. *)
Definition insert_header (name_ok value_ok : string -> bool) (route : string) (m : gmap string string) (kv : string * string)
    : result (gmap string string) BuildError :=
  let '(key, value) := kv in
  if negb (name_ok key) then Err (InvalidHeaderName route)
  else if negb (value_ok value) then Err (InvalidHeaderValue route key)
  else Ok (<[to_ascii_lowercase key := value]> m).

Record GrpcClient := mkGrpcClient {
  channel : GrpcEndpoint;
  metadata : gmap string string;
  grpc_timeout : Z;
}.

Definition grpc_connect (route : ProxyRoute) (timeout : Z) : result GrpcClient BuildError :=
  match build_grpc_endpoint (endpoint route) (name route) timeout with
  | Err e => Err e
  | Ok ep =>
      let insert := insert_header (fun k => metadata_key_ok (to_ascii_lowercase k)) metadata_value_ok in
      result_bind (try_for_each (insert (name route)) ∅ (headers route))
        (fun metadata => Ok (mkGrpcClient ep metadata timeout))
  end.

(** What [attach_metadata] makes of a request: its metadata and its timeout. *)
Definition attach_metadata (c : GrpcClient) (request_metadata : gmap string string)
    : gmap string string * Z :=
  (metadata c ∪ request_metadata, grpc_timeout c).

Record HttpUrls := mkUrls { logs_url : Url; traces_url : Url; metrics_url : Url }.
Record HttpClient := mkHttpClient {
  urls : HttpUrls;
  http_headers : gmap string string;
  http_timeout : Z;
}.

Definition signal_url (base route path : string) : result Url BuildError :=
  match url_parse (base +:+ path) with
  | Some url => Ok url
  | None => Err (BuildUrl route path)
  end.

Definition http_build (route : ProxyRoute) (timeout : Z) : result HttpClient BuildError :=
  result_bind (validate_proxy_endpoint (endpoint route) (name route)) (fun _ =>
  let base := trim_end_char "/" (endpoint route) in
  result_bind (signal_url base (name route) OTLP_HTTP_LOGS_PATH) (fun logs_url =>
  result_bind (signal_url base (name route) OTLP_HTTP_TRACES_PATH) (fun traces_url =>
  result_bind (signal_url base (name route) OTLP_HTTP_METRICS_PATH) (fun metrics_url =>
  result_bind
    (try_for_each (insert_header header_name_ok header_value_ok (name route)) {["content-type"%string := OTLP_HTTP_PROTOBUF]}
       (headers route))
    (fun hs => Ok (mkHttpClient (mkUrls logs_url traces_url metrics_url) hs timeout)))))).

Inductive RouteClient :=
| ClientGrpc (c : GrpcClient)
| ClientHttp (c : HttpClient).

Definition client_build (route : ProxyRoute) (timeout_ms : Z) : result RouteClient BuildError :=
  let timeout := millis timeout_ms in
  match transport route with
  | Grpc => match grpc_connect route timeout with Ok c => Ok (ClientGrpc c) | Err e => Err e end
  | HttpProtobuf => match http_build route timeout with Ok c => Ok (ClientHttp c) | Err e => Err e end
  end.

(** ** Sending *)

Definition parse_retry_after (c : Clocks) (value : string) : option Z :=
  let delay :=
    match parse_u64 (trim value) with
    | Some n => Some (secs n)
    | None => option_map (fun date => Z.max 0 (date - system_now c)) (parse_http_date value)
    end in
  match delay with Some d => fits c d | None => None end.

(** What comes back: nothing, or a status and the [Retry-After] header as text. *)
Definition http_export (c : HttpClient) (clocks : Clocks)
    (send : Url -> gmap string string -> list byte -> option (Z * option string))
    (request : ExportRequest) : result unit ExportError :=
  let url := match request with
             | ExportLogs _ => logs_url (urls c)
             | ExportTraces _ => traces_url (urls c)
             | ExportMetrics _ => metrics_url (urls c)
             end in
  match send url (http_headers c) (encode_pb request) with
  | None => Err RequestFailure
  | Some (status, retry_after) =>
      if (200 <=? status) && (status <? 300) then Ok tt
      else Err (HttpExportFailure status
                  (match retry_after with Some v => parse_retry_after clocks v | None => None end))
  end.

(** The rejected count and message of a partial success, which is reported unless both are
    empty. *)
Definition warn_partial (ps : option (Z * string)) : option (Z * string) :=
  match ps with
  | Some (rejected, message) =>
      if negb (rejected =? 0) || negb (str_is_empty message) then ps else None
  | None => None
  end.

Definition grpc_export (c : GrpcClient)
    (call : GrpcEndpoint -> gmap string string * Z -> ExportRequest ->
            result (option (Z * string)) Status)
    (request : ExportRequest) : result (option (Z * string)) ExportError :=
  match call (channel c) (attach_metadata c ∅) request with
  | Ok partial_success => Ok (warn_partial partial_success)
  | Err status => Err (GrpcFailure status)
  end.

(** ** Retries *)

(** [iter().find_map(f)]. *)
Fixpoint find_map {A B} (f : A -> option B) (l : list A) : option B :=
  match l with
  | [] => None
  | a :: l => match f a with Some b => Some b | None => find_map f l end
  end.

Definition retry_info_of (c : Clocks) (detail : RpcAny) : option Z :=
  if negb (String.eqb (List.last (split_on "/" (type_url detail)) ""%string) "google.rpc.RetryInfo")
  then None
  else match rpc_retry_info_decode (any_bytes detail) with
       | None => None
       | Some None => Some 0
       | Some (Some d) =>
           if negb ((0 <=? seconds d) && (seconds d <=? 315576000000)) ||
              negb ((0 <=? nanos d) && (nanos d <? 1000000000))
           then None
           else fits c (secs (seconds d) + nanos d)
       end.

Definition grpc_retry_info (c : Clocks) (status : Status) : option Z :=
  match rpc_status_decode (details status) with
  | None => None
  | Some ds => find_map (retry_info_of c) ds
  end.

Definition is_grpc_transport_failure (status : Status) : bool := transport_source status.

Definition retry_delay (c : Clocks) (error : ExportError) : option Z :=
  match error with
  | HttpExportFailure status retry_after =>
      if (status =? 429) || (status =? 502) || (status =? 503) || (status =? 504)
      then Some (default 0 retry_after) else None
  | GrpcFailure status =>
      match code_of status with
      | Cancelled | DeadlineExceeded | Aborted | OutOfRange | Unavailable | DataLoss =>
          Some (default 0 (grpc_retry_info c status))
      | ResourceExhausted => grpc_retry_info c status
      | Unknown | Internal => if is_grpc_transport_failure status then Some 0 else None
      | _ => None
      end
  | RequestFailure => Some 0
  | OtherFailure => None
  end.
End client.

(** * Lemmas *)

Section client_lemmas.
Context `{Crates}.

Lemma fits_spec c d d' : fits c d = Some d' -> d' = d /\ instant_now c + d <= instant_max c.
Proof. unfold fits. destruct (Z.leb_spec (instant_now c + d) (instant_max c)); by intros [= <-]. Qed.

Lemma find_map_some {A B} (f : A -> option B) l b : find_map f l = Some b -> exists a, a ∈ l /\ f a = Some b.
Proof.
  induction l as [|a l IH]; [done|]. simpl. destruct (f a) eqn:E.
  - intros [= <-]. exists a. split; [by left|done].
  - intros (x & ? & ?)%IH. exists x. split; [by right|done].
Qed.

(** A delay can be slept: it is not negative and the clock can represent its end. *)
Definition sleepable (c : Clocks) (d : Z) : Prop := 0 <= d /\ instant_now c + d <= instant_max c.

Lemma retry_info_sleepable c a d :
  instant_now c <= instant_max c -> retry_info_of c a = Some d -> sleepable c d.
Proof.
  intros Hc. unfold retry_info_of, sleepable. destruct (negb (String.eqb _ _)); [done|].
  destruct (rpc_retry_info_decode _) as [[dur|]|]; [| |done].
  - destruct (negb _ || negb _) eqn:E; [done|]. intros [-> ?]%fits_spec.
    apply orb_false_iff in E as [E1 E2]. unfold secs in *. lia.
  - intros [= <-]. lia.
Qed.

Lemma parse_retry_after_sleepable c v d :
  parse_retry_after c v = Some d -> sleepable c d.
Proof.
  unfold parse_retry_after. destruct (parse_u64 (trim v)) as [n|] eqn:E.
  - intros [-> ?]%fits_spec. apply parse_u64_range in E as [? _]. unfold sleepable, secs in *. lia.
  - destruct (parse_http_date v) as [date|]; [|done]. simpl. intros [-> ?]%fits_spec.
    unfold sleepable. lia.
Qed.

Lemma grpc_retry_info_sleepable c s d :
  instant_now c <= instant_max c -> grpc_retry_info c s = Some d -> sleepable c d.
Proof.
  intros Hc. unfold grpc_retry_info. destruct (rpc_status_decode _); [|done].
  intros (a & _ & Ha)%find_map_some. by eapply retry_info_sleepable.
Qed.
End client_lemmas.

(** ** What a built client guarantees *)

Definition clean_url (u : Url) : Prop :=
  (scheme u = "http"%string \/ scheme u = "https"%string) /\ has_host u = true /\
  query u = None /\ fragment u = None /\ username u = ""%string /\ password u = None.

(** Only failures after which OTLP allows to send the same request again. *)
Definition may_retry `{Crates} (c : Clocks) (e : ExportError) : Prop :=
  match e with
  | HttpExportFailure status _ => status ∈ [429; 502; 503; 504]
  | GrpcFailure s =>
      code_of s ∈ [Cancelled; DeadlineExceeded; Aborted; OutOfRange; Unavailable; DataLoss] \/
      (code_of s = ResourceExhausted /\
       exists ds d delay, rpc_status_decode (details s) = Some ds /\ d ∈ ds /\
         retry_info_of c d = Some delay) \/
      (code_of s ∈ [Unknown; Internal] /\ transport_source s = true)
  | RequestFailure => True
  | OtherFailure => False
  end.

Section guarantees.
Context `{Crates}.

Lemma validate_clean raw route :
  validate_proxy_endpoint raw route = Ok tt -> exists u, url_parse raw = Some u /\ clean_url u.
Proof.
  unfold validate_proxy_endpoint. destruct (url_parse raw) as [u|]; [|done].
  destruct (negb _) eqn:E; [done|]. apply negb_false_iff, andb_prop in E as [Es Eh].
  apply orb_prop in Es. rewrite !String.eqb_eq in Es.
  destruct (query u) eqn:Eq, (fragment u) eqn:Ef; try done. destruct (password u) eqn:Ep; [done|].
  unfold str_is_empty. destruct (String.eqb_spec (username u) ""%string); [|done].
  intros _. exists u. by split_and!.
Qed.

Lemma grpc_connect_ok route timeout c :
  grpc_connect route timeout = Ok c ->
  channel c = mkGrpcEndpoint (endpoint route) timeout
    (bool_decide (uri_scheme (endpoint route) = Some (Some "https"%string))) /\
  timeout <= GRPC_TIMEOUT_MAX /\ grpc_timeout c = timeout /\
  exists u, url_parse (endpoint route) = Some u /\ clean_url u.
Proof.
  unfold grpc_connect, build_grpc_endpoint.
  destruct (validate_proxy_endpoint _ _) as [[]|] eqn:E; [|done].
  destruct (Z.ltb_spec GRPC_TIMEOUT_MAX timeout); [done|].
  destruct (negb _); [done|]. destruct (uri_scheme (endpoint route)) as [s|] eqn:Es; [|done].
  destruct (try_for_each _ _ _) as [m|]; [|done]. intros [= <-]. simpl.
  split_and!; [|done..|by eapply validate_clean]. f_equal. apply bool_decide_ext. naive_solver.
Qed.

Lemma http_build_ok route timeout c :
  http_build route timeout = Ok c ->
  (exists u, url_parse (endpoint route) = Some u /\ clean_url u) /\
  let base := trim_end_char "/" (endpoint route) in
  url_parse (base +:+ OTLP_HTTP_LOGS_PATH) = Some (logs_url (urls c)) /\
  url_parse (base +:+ OTLP_HTTP_TRACES_PATH) = Some (traces_url (urls c)) /\
  url_parse (base +:+ OTLP_HTTP_METRICS_PATH) = Some (metrics_url (urls c)).
Proof.
  unfold http_build, signal_url. destruct (validate_proxy_endpoint _ _) as [[]|] eqn:E; [|done].
  cbn [result_bind]. set (base := trim_end_char _ _).
  destruct (url_parse (base +:+ OTLP_HTTP_LOGS_PATH)) eqn:E1; [|done]. cbn [result_bind].
  destruct (url_parse (base +:+ OTLP_HTTP_TRACES_PATH)) eqn:E2; [|done]. cbn [result_bind].
  destruct (url_parse (base +:+ OTLP_HTTP_METRICS_PATH)) eqn:E3; [|done]. cbn [result_bind].
  destruct (try_for_each _ _ _) as [m|]; [|done]. intros [= <-]. split; [|done].
  by eapply validate_clean.
Qed.

(** [produced e]: some send came back with it. *)
Definition produced (clocks : Clocks) (e : ExportError) : Prop :=
  (exists c send request, http_export c clocks send request = Err e) \/
  (exists c call request, grpc_export c call request = Err e).

(** * Properties *)

(** C39. A failed send is retried only when OTLP allows it, and the delay asked for, however
    large the upstream's answer, is one the clock can represent. *)
Theorem retries_are_permitted clocks e delay :
  instant_now clocks <= instant_max clocks -> produced clocks e ->
  retry_delay clocks e = Some delay ->
  may_retry clocks e /\ sleepable clocks delay.
Proof.
  intros Hc Hp. assert (sleepable clocks 0) as H0 by (unfold sleepable; lia).
  assert (forall s ra, e = HttpExportFailure s ra -> sleepable clocks (default 0 ra)) as Hra.
  { intros s ra ->. destruct Hp as [(c & send & request & Hs)|(c & call & request & Hs)].
    - unfold http_export in Hs. destruct (send _ _ _) as [[st [v|]]|]; [| |done].
      + destruct (_ && _); simplify_eq. destruct (parse_retry_after clocks v) eqn:E; [|done].
        by eapply parse_retry_after_sleepable.
      + destruct (_ && _); by simplify_eq.
    - unfold grpc_export in Hs. by destruct (call _ _ _). }
  destruct e as [s ra|s| |]; simpl; [| |by intros [= <-]|done].
  - destruct (_ || _) eqn:E; [|done]. intros [= <-]. split; [|by apply (Hra s)].
    rewrite !orb_true_iff, !Z.eqb_eq in E. set_solver.
  - pose proof (grpc_retry_info_sleepable clocks s) as Hr.
    assert (sleepable clocks (default 0 (grpc_retry_info clocks s))) as Hd.
    { destruct (grpc_retry_info clocks s); [by apply Hr|done]. }
    destruct (code_of s) eqn:Ec; try done.
    all: try (intros [= <-]; split; [left; set_solver|done]).
    all: try (unfold is_grpc_transport_failure; destruct (transport_source s) eqn:Et; [|done];
      intros [= <-]; split; [right; right; split; [set_solver|done]|done]).
    intros Hg. split; [|by apply Hr]. right. left. split; [done|]. unfold grpc_retry_info in Hg.
    destruct (rpc_status_decode (details s)) as [ds|]; [|done].
    apply find_map_some in Hg as (a & ? & ?). by exists ds, a, delay.
Qed.

(** A client is only built for an absolute HTTP(S) URL without credentials, query or
    fragment; over gRPC the timeout can be written in its header and TLS is on exactly for
    [https]; over HTTP the three signals go to the endpoint, without its trailing slashes,
    followed by their path. *)
Theorem built_client_is_sound route timeout_ms c :
  client_build route timeout_ms = Ok c ->
  (exists u, url_parse (endpoint route) = Some u /\ clean_url u) /\
  match c with
  | ClientGrpc c =>
      transport route = Grpc /\ millis timeout_ms <= GRPC_TIMEOUT_MAX /\
      channel c = mkGrpcEndpoint (endpoint route) (millis timeout_ms)
        (bool_decide (uri_scheme (endpoint route) = Some (Some "https"%string)))
  | ClientHttp c =>
      transport route = HttpProtobuf /\
      let base := trim_end_char "/" (endpoint route) in
      url_parse (base +:+ OTLP_HTTP_LOGS_PATH) = Some (logs_url (urls c)) /\
      url_parse (base +:+ OTLP_HTTP_TRACES_PATH) = Some (traces_url (urls c)) /\
      url_parse (base +:+ OTLP_HTTP_METRICS_PATH) = Some (metrics_url (urls c))
  end.
Proof.
  unfold client_build. destruct (transport route).
  - destruct (grpc_connect route _) as [c'|] eqn:E; [|done]. intros [= <-].
    apply grpc_connect_ok in E as (H1 & H2 & _ & H3). by split_and!.
  - destruct (http_build route _) as [c'|] eqn:E; [|done]. intros [= <-].
    apply http_build_ok in E as (H1 & H2). split; [done|]. by split.
Qed.
End guarantees.

(** ** Crates to evaluate examples with *)

(** URLs and schemes told apart by their prefix, one [RetryInfo] of 7 seconds. *)
#[export] Instance sample_crates : Crates := {|
  url_parse s :=
    if starts_with "https://" s then Some (mkUrl s "https" true None None "" None)
    else if starts_with "http://" s then Some (mkUrl s "http" true None None "" None) else None;
  uri_scheme s := Some (if starts_with "https:" s then Some "https"%string else None);
  endpoint_from_shared _ := true;
  header_name_ok _ := true;
  header_value_ok _ := true;
  metadata_key_ok _ := true;
  metadata_value_ok _ := true;
  rpc_status_decode _ := Some [mkAny "type.googleapis.com/google.rpc.RetryInfo" []];
  rpc_retry_info_decode _ := Some (Some (mkDuration 7 0));
  parse_http_date _ := None;
  encode_pb _ := [];
|}.

Definition sample_http_client : HttpClient :=
  let url path := mkUrl ("https://h" +:+ path) "https" true None None "" None in
  mkHttpClient (mkUrls (url OTLP_HTTP_LOGS_PATH) (url OTLP_HTTP_TRACES_PATH)
    (url OTLP_HTTP_METRICS_PATH)) {["content-type"%string := OTLP_HTTP_PROTOBUF]} (millis 5000).

Lemma retries_are_permitted_witness :
  sleepable (mkClocks 5 (secs 100) 0) (secs 3) /\ (429 : Z) ∈ [429; 502; 503; 504].
Proof.
  destruct (retries_are_permitted (mkClocks 5 (secs 100) 0) (HttpExportFailure 429 (Some (secs 3)))
    (secs 3)) as [H1 H2]; [vm_compute; discriminate| |vm_compute; reflexivity|split; [exact H2|exact H1]].
  left. exists sample_http_client, (fun _ _ _ => Some (429, Some " 3 "%string)),
    (ExportLogs {| resource_logs := [] |}). vm_compute. reflexivity.
Defined.

Lemma built_client_is_sound_witness :
  client_build (mkRoute "r" ["s"%string] ALL HttpProtobuf "https://h//" []) 5000 =
    Ok (ClientHttp sample_http_client) /\
  url_parse "https://h/v1/logs" = Some (logs_url (urls sample_http_client)).
Proof.
  assert (client_build (mkRoute "r" ["s"%string] ALL HttpProtobuf "https://h//" []) 5000 =
    Ok (ClientHttp sample_http_client)) as E by (vm_compute; reflexivity).
  split; [exact E|]. destruct (built_client_is_sound _ _ _ E) as (_ & _ & H1 & _). exact H1.
Defined.
