(* ===== verification/Worker.v ===== *)
(** * Route workers ([src/src/forward/worker.rs])

    A worker takes requests from its channel in order, sends each with retries and exponential
    backoff, and at shutdown drains what is queued within a grace period.  Every request ends in
    one of the counters. *)

From S2P Require Import Prelude Config Cli Otlp AggBatch Channel Router Client.

Local Open Scope Z_scope.

(** ** Sending one request *)

Definition u32_max : Z := 4294967295.
Definition DRAIN_GRACE : Z := secs 5.
Definition INITIAL_DELAY : Z := millis 200.
Definition MAX_DELAY : Z := secs 30.

Inductive send_outcome :=
| SendOk
| SendCancelled
| SendFailed (last_err : option ExportError).

(** What an attempt meets: the token cancelled before it, the result of the export or its
    cancellation, the clocks when it failed, the token cancelled during the pause after it. *)
Record attempt_env := mkAttempt {
  cancelled_before : bool;
  exported : option (result unit ExportError);
  attempt_clocks : Clocks;
  cancelled_in_pause : bool;
}.

Section worker.
Context `{Crates}.

(** The loop from [attempt] on, with [n] iterations left: the outcome, the pauses made and the
    number of exports begun. *)
Fixpoint send_attempts (n : nat) (attempt attempts delay : Z) (last_err : option ExportError)
    (env : Z -> attempt_env) : send_outcome * list Z * nat :=
  match n with
  | O => (SendFailed last_err, [], O)
  | S n =>
      let a := env attempt in
      if cancelled_before a then (SendCancelled, [], O)
      else
        match exported a with
        | None => (SendCancelled, [], 1%nat)
        | Some (Ok _) => (SendOk, [], 1%nat)
        | Some (Err e) =>
            match retry_delay (attempt_clocks a) e with
            | None => (SendFailed (Some e), [], 1%nat)
            | Some retry_after =>
                if attempts <=? attempt + 1 then (SendFailed (Some e), [], 1%nat)
                else
                  let pause := Z.max delay retry_after in
                  if cancelled_in_pause a then (SendCancelled, [pause], 1%nat)
                  else
                    let '(outcome, pauses, exports) :=
                      send_attempts n (attempt + 1) attempts (Z.min (delay * 2) MAX_DELAY)
                        (Some e) env in
                    (outcome, pause :: pauses, S exports)
            end
        end
  end.

(** The first attempt and [retry_max] more. *)
Definition attempts_of (retry_max : Z) : Z := Z.min u32_max (retry_max + 1).

Definition send_with_retry (retry_max : Z) (env : Z -> attempt_env) : send_outcome * list Z * nat :=
  let attempts := attempts_of retry_max in
  send_attempts (Z.to_nat attempts) 0 attempts INITIAL_DELAY None env.
End worker.

(** ** The worker of a route *)

Inductive phase :=
| Receiving
| Sending (request : ExportRequest)
| Closing (interrupted : option ExportRequest)
| Draining (request : option ExportRequest) (drained abandoned : Z)
| Stopped.

(** The channel and the metrics are shared with the router; [accepted], [handled] and [refused]
    are histories: what the channel took, what the worker was done with, and how many requests
    the channel did not take. *)
Record route (C : Type) := mkRouteState {
  chan : C;
  metrics : RouteMetrics;
  worker_phase : phase;
  accepted : list ExportRequest;
  handled : list ExportRequest;
  refused : Z;
}.
Arguments mkRouteState {C} _ _ _ _ _ _.
Arguments chan {C} _.
Arguments metrics {C} _.
Arguments worker_phase {C} _.
Arguments accepted {C} _.
Arguments handled {C} _.
Arguments refused {C} _.

Definition count_sent (m : RouteMetrics) : RouteMetrics :=
  mkMetrics (wrap_add (sent_total m) 1) (failed_total m) (dropped_total m).
Definition count_failed (m : RouteMetrics) : RouteMetrics :=
  mkMetrics (sent_total m) (wrap_add (failed_total m) 1) (dropped_total m).
Definition count_abandoned (m : RouteMetrics) (abandoned : Z) : RouteMetrics :=
  if 0 <? abandoned
  then mkMetrics (sent_total m) (failed_total m) (wrap_add (dropped_total m) abandoned)
  else m.

Section run.
Context {C : Type} `{ChannelOps C ExportRequest}.
Implicit Types w : route C.

Definition set_phase w (c : C) (m : RouteMetrics) (p : phase) (done : list ExportRequest) : route C :=
  mkRouteState c m p (accepted w) (handled w ++ done) (refused w).

(** The router offers a request ([deliver] of the lane). *)
Definition offer w (r : ExportRequest) : route C :=
  match try_send (chan w) r with
  | (c, None) => mkRouteState c (metrics w) (worker_phase w) (accepted w ++ [r]) (handled w) (refused w)
  | (c, Some _) =>
      mkRouteState c (count_dropped (metrics w)) (worker_phase w) (accepted w) (handled w) (refused w + 1)
  end.

(** [cfg.receiver.recv()] of the loop. *)
Definition run_recv w : option (route C) :=
  match worker_phase w, try_recv (chan w) with
  | Receiving, Some (r, c) =>
      Some (if request_is_empty r then set_phase w c (metrics w) Receiving [r]
            else set_phase w c (metrics w) (Sending r) [])
  | _, _ => None
  end.

(** The arms of [match send_with_retry(..)]. *)
Definition run_sent w (outcome : send_outcome) : option (route C) :=
  match worker_phase w with
  | Sending r =>
      Some (match outcome with
            | SendOk => set_phase w (chan w) (count_sent (metrics w)) Receiving [r]
            | SendCancelled => set_phase w (chan w) (metrics w) (Closing (Some r)) []
            | SendFailed _ => set_phase w (chan w) (count_failed (metrics w)) Receiving [r]
            end)
  | _ => None
  end.

(** Leaving the loop: shutdown, or no router left to send. *)
Definition run_break w : option (route C) :=
  match worker_phase w with
  | Receiving => Some (set_phase w (chan w) (metrics w) (Closing None) [])
  | _ => None
  end.

(** [cfg.receiver.close()]; the interrupted request is drained first. *)
Definition run_close w : option (route C) :=
  match worker_phase w with
  | Closing interrupted => Some (set_phase w (close (chan w)) (metrics w) (Draining interrupted 0 0) [])
  | _ => None
  end.

(** The next request of [drain_remaining], when the one before it is done. *)
Definition drain_next w : option (route C) :=
  match worker_phase w, try_recv (chan w) with
  | Draining None drained abandoned, Some (r, c) =>
      Some (set_phase w c (metrics w) (Draining (Some r) drained abandoned) [])
  | _, _ => None
  end.

(** The body of the drain loop; [None] is a deadline that has passed. *)
Definition drain_one w (outcome : option send_outcome) : option (route C) :=
  match worker_phase w with
  | Draining (Some r) drained abandoned =>
      Some (if request_is_empty r
            then set_phase w (chan w) (metrics w) (Draining None drained abandoned) [r]
            else
              match outcome with
              | None | Some SendCancelled =>
                  set_phase w (chan w) (metrics w) (Draining None drained (abandoned + 1)) [r]
              | Some SendOk =>
                  set_phase w (chan w) (count_sent (metrics w)) (Draining None (drained + 1) abandoned) [r]
              | Some (SendFailed _) =>
                  set_phase w (chan w) (count_failed (metrics w)) (Draining None drained abandoned) [r]
              end)
  | _ => None
  end.

Definition drain_finish w : option (route C) :=
  match worker_phase w, try_recv (chan w) with
  | Draining None _ abandoned, None =>
      Some (set_phase w (chan w) (count_abandoned (metrics w) abandoned) Stopped [])
  | _, _ => None
  end.

Definition offered w : Z := Z.of_nat (length (accepted w)) + refused w.

(** Router and worker interleave.  The router only offers what [share] made, which is never
    empty; fewer than [2^64] requests are ever offered. *)
Inductive step : route C -> route C -> Prop :=
| step_offer w r : request_is_empty r = false -> offered w + 1 < word -> step w (offer w r)
| step_recv w w' : run_recv w = Some w' -> step w w'
| step_sent w o w' : run_sent w o = Some w' -> step w w'
| step_break w w' : run_break w = Some w' -> step w w'
| step_close w w' : run_close w = Some w' -> step w w'
| step_drain_next w w' : drain_next w = Some w' -> step w w'
| step_drain_one w o w' : drain_one w o = Some w' -> step w w'
| step_finish w w' : drain_finish w = Some w' -> step w w'.

Definition spawned (capacity : Z) : route C :=
  mkRouteState (channel_new capacity) metrics_default Receiving [] [] 0.

Definition reachable (capacity : Z) w : Prop := rtc step (spawned capacity) w.

(** ** Invariant *)

Definition current (p : phase) : option ExportRequest :=
  match p with
  | Sending r => Some r
  | Closing o | Draining o _ _ => o
  | _ => None
  end.

Definition abandoned_of (p : phase) : Z := match p with Draining _ _ n => n | _ => 0 end.

Definition is_draining (p : phase) : Prop :=
  match p with Draining _ _ _ | Stopped => True | _ => False end.

Record WorkerInv w : Prop := {
  inv_order : accepted w = handled w ++ option_list (current (worker_phase w)) ++ pending (chan w);
  inv_full : Forall (fun r => request_is_empty r = false) (accepted w);
  inv_count :
    sent_total (metrics w) + failed_total (metrics w) + dropped_total (metrics w) +
      abandoned_of (worker_phase w) = Z.of_nat (length (handled w)) + refused w;
  inv_nonneg :
    0 <= sent_total (metrics w) /\ 0 <= failed_total (metrics w) /\
    0 <= dropped_total (metrics w) /\ 0 <= abandoned_of (worker_phase w) /\ 0 <= refused w;
  inv_word : offered w < word;
  inv_closed : is_draining (worker_phase w) -> is_closed (chan w) = true;
  inv_stopped : worker_phase w = Stopped -> pending (chan w) = [];
}.
End run.

(** * Lemmas *)

Section run_lemmas.
Context {C : Type} `{ChannelLaws C ExportRequest}.
Implicit Types w : route C.

Lemma handled_le w :
  WorkerInv w -> Z.of_nat (length (handled w)) + refused w +
    Z.of_nat (length (option_list (current (worker_phase w)))) <= offered w.
Proof. intros Hw. unfold offered. rewrite (inv_order _ Hw), !length_app. lia. Qed.

Lemma offer_inv w r :
  request_is_empty r = false -> offered w + 1 < word -> WorkerInv w -> WorkerInv (offer w r).
Proof.
  intros Hr Hfit Hw. unfold offer. destruct (try_send (chan w) r) as [c [e|]] eqn:E.
  - apply not_sent in E as [-> _]. destruct Hw as [Ho Hf Hc Hn Hb Hcl Hst].
    unfold offered in *. split; simpl in *; try done; unfold offered in *; simpl; try lia.
    + unfold wrap_add. rewrite wrap_small; [lia|].
      assert (length (handled w) <= length (accepted w))%nat by (rewrite Ho, length_app; lia). lia.
    + unfold wrap_add. rewrite wrap_small; [lia|].
      assert (length (handled w) <= length (accepted w))%nat by (rewrite Ho, length_app; lia). lia.
  - apply sent in E as (Hopen & Hopen' & Hp & _). destruct Hw as [Ho Hf Hc Hn Hb Hcl Hst].
    unfold offered in *. split; simpl in *; try done.
    + by rewrite Hp, Ho, <-!app_assoc.
    + apply Forall_app. split; [done|]. by repeat constructor.
    + unfold offered in *. simpl. rewrite length_app. simpl. lia.
    + intros Hd. by rewrite Hcl in Hopen.
    + intros Hs. rewrite Hcl in Hopen; [done|]. by rewrite Hs.
Qed.

(** Counting one request more stays below the word. *)
Lemma count_one w r n :
  WorkerInv w -> current (worker_phase w) = Some r ->
  0 <= n <= sent_total (metrics w) + failed_total (metrics w) + dropped_total (metrics w) ->
  wrap_add n 1 = n + 1.
Proof.
  intros Hw Hr Hn. pose proof (handled_le w Hw) as Hle. rewrite Hr in Hle. simpl in Hle.
  pose proof (inv_count _ Hw). pose proof (inv_nonneg _ Hw). pose proof (inv_word _ Hw).
  apply wrap_small. lia.
Qed.

Ltac inv_tac Hw :=
  destruct Hw as [Ho Hf Hc Hn Hb Hcl Hst]; unfold offered in *;
  split; unfold offered in *; simpl in *;
  rewrite ?app_nil_r, ?length_app in *; simpl in *; try done; try lia;
  try (rewrite <-?app_assoc; simpl; by rewrite ?Ho).

Ltac inv_phase Ep Ho :=
  rewrite ?Ep in *; simpl in *; try done; try lia;
  try (rewrite Ho, <-?app_assoc; done).

Lemma recv_inv w w' : run_recv w = Some w' -> WorkerInv w -> WorkerInv w'.
Proof.
  unfold run_recv. destruct (worker_phase w) eqn:Ep; try done.
  pose proof (received (chan w)) as Hr. destruct (try_recv (chan w)) as [[r c]|]; [|done].
  destruct Hr as (Hp & Hcl' & _). intros [= <-] Hw.
  assert (request_is_empty r = false) as ->.
  { pose proof (inv_full _ Hw) as Hf. rewrite (inv_order _ Hw), Hp, !Forall_app in Hf.
    destruct Hf as (_ & _ & Hf). by apply Forall_cons in Hf as [Hf _]. }
  inv_tac Hw; rewrite ?Ep in *; try done.
  rewrite Ho, Hp. done.
Qed.

(** Requests the worker holds are never empty ones. *)
Lemma current_full w r :
  WorkerInv w -> current (worker_phase w) = Some r -> request_is_empty r = false.
Proof.
  intros Hw Er. pose proof (inv_full _ Hw) as Hf. rewrite (inv_order _ Hw), Er, !Forall_app in Hf.
  destruct Hf as (_ & Hf & _). by apply Forall_cons in Hf as [Hf _].
Qed.

Lemma sent_inv w o w' : run_sent w o = Some w' -> WorkerInv w -> WorkerInv w'.
Proof.
  unfold run_sent. destruct (worker_phase w) as [|r| | |] eqn:Ep; try done. intros [= <-] Hw.
  pose proof (fun n => count_one w r n Hw ltac:(by rewrite Ep)) as Hone. pose proof (inv_nonneg _ Hw).
  destruct o; unfold count_sent, count_failed; [rewrite (Hone (sent_total (metrics w))) by lia| |
    rewrite (Hone (failed_total (metrics w))) by lia].
  all: inv_tac Hw; inv_phase Ep Ho.
Qed.

Lemma break_inv w w' : run_break w = Some w' -> WorkerInv w -> WorkerInv w'.
Proof.
  unfold run_break. destruct (worker_phase w) eqn:Ep; try done. intros [= <-] Hw.
  inv_tac Hw; inv_phase Ep Ho.
Qed.

Lemma close_inv w w' : run_close w = Some w' -> WorkerInv w -> WorkerInv w'.
Proof.
  unfold run_close. destruct (worker_phase w) as [| |o| |] eqn:Ep; try done. intros [= <-] Hw.
  destruct (channel_close (chan w)) as (Hp & Hcl' & _).
  inv_tac Hw; inv_phase Ep Ho. by rewrite Hp.
Qed.

Lemma drain_next_inv w w' : drain_next w = Some w' -> WorkerInv w -> WorkerInv w'.
Proof.
  unfold drain_next. destruct (worker_phase w) as [| | |[] d a|] eqn:Ep; try done.
  pose proof (received (chan w)) as Hr. destruct (try_recv (chan w)) as [[r c]|]; [|done].
  destruct Hr as (Hp & Hcl' & _). intros [= <-] Hw. inv_tac Hw; inv_phase Ep Ho.
  - by rewrite Ho, Hp.
  - intros _. rewrite Hcl'. by apply Hcl.
Qed.

Lemma drain_one_inv w o w' : drain_one w o = Some w' -> WorkerInv w -> WorkerInv w'.
Proof.
  unfold drain_one. destruct (worker_phase w) as [| | |[r|] d a|] eqn:Ep; try done. intros [= <-] Hw.
  rewrite (current_full w r Hw) by (by rewrite Ep).
  pose proof (fun n => count_one w r n Hw ltac:(by rewrite Ep)) as Hone. pose proof (inv_nonneg _ Hw).
  destruct o as [[]|]; unfold count_sent, count_failed; [rewrite (Hone (sent_total (metrics w))) by lia| |
    rewrite (Hone (failed_total (metrics w))) by lia|].
  all: inv_tac Hw; inv_phase Ep Ho.
Qed.

Lemma finish_inv w w' : drain_finish w = Some w' -> WorkerInv w -> WorkerInv w'.
Proof.
  unfold drain_finish. destruct (worker_phase w) as [| | |[] d a|] eqn:Ep; try done.
  pose proof (received (chan w)) as Hr. destruct (try_recv (chan w)) as [[]|]; [done|].
  intros [= <-] Hw.
  assert (sent_total (count_abandoned (metrics w) a) = sent_total (metrics w) /\
    failed_total (count_abandoned (metrics w) a) = failed_total (metrics w) /\
    dropped_total (count_abandoned (metrics w) a) = dropped_total (metrics w) + a) as (E1 & E2 & E3).
  { pose proof (inv_nonneg _ Hw) as Hn. pose proof (inv_count _ Hw) as Hc.
    pose proof (handled_le w Hw) as Hle. pose proof (inv_word _ Hw). rewrite Ep in *. simpl in *.
    unfold count_abandoned. destruct (Z.ltb_spec 0 a); simpl; [|split_and!; [done..|lia]].
    split_and!; [done..|]. unfold wrap_add. apply wrap_small. lia. }
  rewrite ?E1, ?E2, ?E3 in *. inv_tac Hw; rewrite ?E1, ?E2, ?E3 in *; inv_phase Ep Ho.
Qed.

Lemma worker_step_inv w w' : step w w' -> WorkerInv w -> WorkerInv w'.
Proof.
  destruct 1; eauto using offer_inv, recv_inv, sent_inv, break_inv, close_inv, drain_next_inv,
    drain_one_inv, finish_inv.
Qed.

Lemma spawned_inv n : 1 <= n -> WorkerInv (spawned n).
Proof.
  intros Hn. destruct (new_channel (C := C) (A := ExportRequest) n Hn) as (Hp & _ & _).
  split; unfold offered; simpl; rewrite ?Hp; try done; lia.
Qed.

Lemma worker_reachable_inv n w : 1 <= n -> reachable n w -> WorkerInv w.
Proof.
  intros Hn Hr. pose proof (spawned_inv n Hn) as H0'.
  assert (forall y, WorkerInv y -> rtc step y w -> WorkerInv w) as Hind.
  { clear Hr H0'. intros y Hy Hr. induction Hr as [|y1 y2 y3 H12 H23 IH]; [done|].
    apply IH. by eapply worker_step_inv. }
  by apply (Hind _ H0').
Qed.
End run_lemmas.

(** ** Retries *)

Section retry_lemmas.
Context `{Crates}.

(** The pause before attempt [k + 1] if the upstream asks for none, in nanoseconds: 200 ms
    doubled [k] times, at most 30 s. *)
Definition backoff (k : nat) : Z := Z.min (200000000 * 2 ^ Z.of_nat k) 30000000000.

(** An attempt that was made and failed, but may be repeated after [retry_after]. *)
Definition put_off (a : attempt_env) (retry_after : Z) : Prop :=
  cancelled_before a = false /\
  exists e, exported a = Some (Err e) /\ retry_delay (attempt_clocks a) e = Some retry_after.

(** What the loop does from attempt [k] on, read off what the attempts meet: it pauses after every
    attempt that is put off, unless it is the last allowed, and so comes to the attempt that
    decides; or the token is cancelled in a pause. *)
Definition attempts_spec (attempts : Z) (env : Z -> attempt_env) (k : nat)
    (r : send_outcome * list Z * nat) : Prop :=
  let '(outcome, pauses, exports) := r in
  let n := length pauses in
  let deciding := env (Z.of_nat (k + n)) in
  let slept := forall i, (i < n)%nat -> cancelled_in_pause (env (Z.of_nat (k + i))) = false in
  Z.of_nat k + Z.of_nat exports <= attempts /\
  (forall i pause, pauses !! i = Some pause ->
     exists retry_after, put_off (env (Z.of_nat (k + i))) retry_after /\
       Z.of_nat (k + i) + 1 < attempts /\ pause = Z.max (backoff (k + i)) retry_after) /\
  match outcome with
  | SendOk => slept /\ exports = S n /\ cancelled_before deciding = false /\ exported deciding = Some (Ok tt)
  | SendFailed None => False
  | SendFailed (Some e) =>
      slept /\ exports = S n /\ cancelled_before deciding = false /\ exported deciding = Some (Err e) /\
      (Z.of_nat (k + n) + 1 = attempts \/ retry_delay (attempt_clocks deciding) e = None)
  | SendCancelled =>
      slept /\ exports = n /\ cancelled_before deciding = true \/
      slept /\ exports = S n /\ cancelled_before deciding = false /\ exported deciding = None \/
      exists i, n = S i /\ exports = S i /\ cancelled_in_pause (env (Z.of_nat (k + i))) = true /\
        forall i', (i' < i)%nat -> cancelled_in_pause (env (Z.of_nat (k + i'))) = false
  end.

Lemma backoff_next k : Z.min (backoff k * 2) MAX_DELAY = backoff (S k).
Proof.
  unfold backoff. rewrite Nat2Z.inj_succ, Z.pow_succ_r by lia.
  change MAX_DELAY with 30000000000.
  assert (0 < 2 ^ Z.of_nat k) by (apply Z.pow_pos_nonneg; lia). lia.
Qed.

(** One more attempt in front of those that a run is about. *)
Lemma below_succ (P : nat -> Prop) n : P 0%nat -> (forall i, (i < n)%nat -> P (S i)) -> forall i, (i < S n)%nat -> P i.
Proof. intros H0' HS [|i] Hi; [done|]. apply HS. lia. Qed.

Lemma attempts_spec_cons attempts env k retry_after r :
  put_off (env (Z.of_nat k)) retry_after -> Z.of_nat k + 1 < attempts ->
  cancelled_in_pause (env (Z.of_nat k)) = false -> attempts_spec attempts env (S k) r ->
  let '(outcome, pauses, exports) := r in
  attempts_spec attempts env k (outcome, Z.max (backoff k) retry_after :: pauses, S exports).
Proof.
  destruct r as [[outcome pauses] exports]. intros Hput Hk Hslept (H1 & H2 & H3). unfold attempts_spec. simpl.
  assert (forall i, S k + i = k + S i)%nat as E by lia. rewrite !E in H3.
  assert ((forall i, (i < length pauses)%nat -> cancelled_in_pause (env (Z.of_nat (S k + i))) = false) ->
    forall i, (i < S (length pauses))%nat -> cancelled_in_pause (env (Z.of_nat (k + i))) = false) as Hall.
  { intros Hs. apply below_succ; [by rewrite Nat.add_0_r|]. intros i Hi. rewrite <- E. by apply Hs. }
  split; [lia|]. split.
  { intros [|i] pause; simpl; rewrite ?Nat.add_0_r; [by intros [= <-]; exists retry_after|].
    rewrite <- E. apply H2. }
  destruct outcome as [| |[e|]]; [| | |done].
  - destruct H3 as (? & -> & ? & ?). by split_and!; [apply Hall| | |].
  - destruct H3 as [(? & -> & ?)|[(? & -> & ? & ?)|(i & -> & -> & Hc & Hi)]].
    + left. by split_and!; [apply Hall| |].
    + right; left. by split_and!; [apply Hall| | |].
    + right; right. exists (S i). rewrite E in Hc. split_and!; [done..|].
      apply below_succ; [by rewrite Nat.add_0_r|]. intros i' Hi'. rewrite <- E. by apply Hi.
  - destruct H3 as (? & -> & ? & ? & ?). by split_and!; [apply Hall| | | |].
Qed.

Lemma send_attempts_spec n k attempts last env :
  Z.of_nat k + Z.of_nat n = attempts -> (0 < n)%nat ->
  attempts_spec attempts env k (send_attempts n (Z.of_nat k) attempts (backoff k) last env).
Proof.
  revert k last. induction n as [|n IH]; intros k last Hn Hpos; [lia|]. cbn [send_attempts].
  assert (forall outcome exports, (exports <= 1)%nat ->
    (let deciding := env (Z.of_nat k) in
     match outcome with
     | SendOk => exports = 1%nat /\ cancelled_before deciding = false /\ exported deciding = Some (Ok tt)
     | SendFailed None => False
     | SendFailed (Some e) =>
         exports = 1%nat /\ cancelled_before deciding = false /\ exported deciding = Some (Err e) /\
         (Z.of_nat k + 1 = attempts \/ retry_delay (attempt_clocks deciding) e = None)
     | SendCancelled =>
         exports = 0%nat /\ cancelled_before deciding = true \/
         exports = 1%nat /\ cancelled_before deciding = false /\ exported deciding = None
     end) -> attempts_spec attempts env k (outcome, [], exports)) as Hdecided.
  { intros outcome exports He Hd. unfold attempts_spec. simpl. rewrite Nat.add_0_r.
    split; [lia|]. split; [by intros i pause Hi|]. assert (forall P : nat -> Prop, forall i, (i < 0)%nat -> P i) as H0' by lia.
    destruct outcome as [| |[e|]]; [by split; [lia|]| | |done].
    - destruct Hd as [[? ?]|(? & ? & ?)]; [left|right; left]; by split; [lia|].
    - by split; [lia|]. }
  destruct (cancelled_before (env (Z.of_nat k))) eqn:Ec.
  { apply Hdecided; [lia|]. by left. }
  destruct (exported (env (Z.of_nat k))) as [[[]|e]|] eqn:E; [by apply Hdecided| |apply Hdecided; [lia|by right]].
  destruct (retry_delay (attempt_clocks (env (Z.of_nat k))) e) as [ra|] eqn:Er;
    [|apply Hdecided; [lia|by split_and!; [..|right]]].
  destruct (Z.leb_spec attempts (Z.of_nat k + 1)); [apply Hdecided; [lia|split_and!; [done..|left; lia]]|].
  assert (put_off (env (Z.of_nat k)) ra) as Hput by (split; [done|by exists e]).
  destruct (cancelled_in_pause (env (Z.of_nat k))) eqn:Ep.
  { unfold attempts_spec. simpl. split; [lia|]. split.
    - intros [|i] pause; [|done]. simpl. rewrite Nat.add_0_r. intros [= <-]. by exists ra.
    - right; right. exists 0%nat. rewrite Nat.add_0_r. split_and!; [done..|lia]. }
  rewrite backoff_next. replace (Z.of_nat k + 1) with (Z.of_nat (S k)) by lia.
  pose proof (IH (S k) (Some e) ltac:(lia) ltac:(lia)) as Hrest.
  pose proof (attempts_spec_cons attempts env k ra _ Hput ltac:(lia) Ep Hrest) as Hc.
  by destruct (send_attempts n _ _ _ _ env) as [[outcome pauses] exports].
Qed.
End retry_lemmas.

(** Three requests, two of which fit: one sent, one interrupted by the shutdown and abandoned
    in the drain. *)
Definition sample_request : ExportRequest :=
  ExportLogs {| resource_logs := [{| rl_resource := None; rl_scope_logs := [] |}] |}.
Definition sample_route : route (list_channel ExportRequest) :=
  mkRouteState (mkChannel [] 1 true) (mkMetrics 1 0 2) Stopped [sample_request; sample_request]
    [sample_request; sample_request] 1.

Lemma sample_route_reachable : reachable 1 sample_route.
Proof.
  unfold reachable. set (s := spawned 1).
  eapply rtc_l; [apply (step_offer s sample_request); [reflexivity|vm_compute; reflexivity]|].
  eapply rtc_l; [eapply step_recv; vm_compute; reflexivity|].
  eapply rtc_l; [eapply (step_sent _ SendOk); vm_compute; reflexivity|].
  eapply rtc_l; [eapply (step_offer _ sample_request); [reflexivity|vm_compute; reflexivity]|].
  eapply rtc_l; [eapply (step_offer _ sample_request); [reflexivity|vm_compute; reflexivity]|].
  eapply rtc_l; [eapply step_recv; vm_compute; reflexivity|].
  eapply rtc_l; [eapply (step_sent _ SendCancelled); vm_compute; reflexivity|].
  eapply rtc_l; [eapply step_close; vm_compute; reflexivity|].
  eapply rtc_l; [eapply (step_drain_one _ None); vm_compute; reflexivity|].
  eapply rtc_l; [eapply step_finish; vm_compute; reflexivity|].
  apply rtc_refl.
Qed.

(** * Properties *)

(** C13. No request disappears: at every moment of every interleaving of router, worker and
    shutdown, those sent, failed, dropped, being handled and queued are together those offered;
    once the worker has stopped, the three counters alone add up to them. *)
Theorem every_request_accounted {C} `{ChannelLaws C ExportRequest} capacity (w : route C) :
  1 <= capacity -> reachable capacity w ->
  let m := metrics w in
  sent_total m + failed_total m + dropped_total m + abandoned_of (worker_phase w) +
    Z.of_nat (length (option_list (current (worker_phase w)))) +
    Z.of_nat (length (pending (chan w))) = offered w /\
  (worker_phase w = Stopped -> sent_total m + failed_total m + dropped_total m = offered w).
Proof.
  intros Hn Hr. destruct (worker_reachable_inv capacity w Hn Hr) as [Ho _ Hc _ _ _ Hst].
  unfold offered. rewrite Ho, !length_app. split; [lia|].
  intros Hs. rewrite (Hst Hs). rewrite Hs in *. simpl in *. lia.
Qed.

Lemma every_request_accounted_witness : 1 + 0 + 2 = offered sample_route.
Proof.
  destruct (every_request_accounted 1 sample_route ltac:(reflexivity || discriminate)
    sample_route_reachable) as [_ H]. exact (H eq_refl).
Defined.

(** Requests leave a route in the order they were accepted, none twice and none skipped:
    what the worker is done with, what it holds and what is queued is what was accepted. *)
Theorem requests_leave_in_order {C} `{ChannelLaws C ExportRequest} capacity (w : route C) :
  1 <= capacity -> reachable capacity w ->
  accepted w = handled w ++ option_list (current (worker_phase w)) ++ pending (chan w) /\
  (worker_phase w = Stopped -> handled w = accepted w).
Proof.
  intros Hn Hr. destruct (worker_reachable_inv capacity w Hn Hr) as [Ho _ _ _ _ _ Hst].
  split; [done|]. intros Hs. rewrite Ho, (Hst Hs), Hs. simpl. by rewrite app_nil_r.
Qed.

Lemma requests_leave_in_order_witness :
  handled sample_route = accepted sample_route.
Proof.
  apply (requests_leave_in_order 1 sample_route ltac:(reflexivity || discriminate)
    sample_route_reachable). reflexivity.
Defined.

(** C31. A send is exactly bounded exponential backoff: after an attempt whose failure may be
    retried it pauses and attempts again, while fewer than [retry_max] plus one were made; the
    pause after the k-th is 200 ms doubled k times but at most 30 s, or longer if the upstream
    asks; it succeeds with the first attempt that does, gives up with the failure of the first
    that may not be retried or of the last, and is cancelled only when the token is: before an
    attempt, during it or in the pause after it.  It never ends without an error to report. *)
Theorem retries_back_off `{Crates} retry_max env :
  0 <= retry_max -> attempts_spec (attempts_of retry_max) env 0 (send_with_retry retry_max env).
Proof.
  intros Hr. unfold send_with_retry. assert (0 < attempts_of retry_max) by (unfold attempts_of, u32_max; lia).
  apply (send_attempts_spec _ 0%nat); lia.
Qed.

(** The upstream is busy three times: no [Retry-After], one of 2 s, none again. *)
Definition sample_attempts (k : Z) : attempt_env :=
  mkAttempt false (Some (Err (HttpExportFailure 503 (if k =? 1 then Some (secs 2) else None))))
    (mkClocks 0 (secs 1000) 0) false.

Lemma retries_back_off_witness :
  attempts_spec 3 sample_attempts 0
    (SendFailed (Some (HttpExportFailure 503 None)), [millis 200; secs 2], 3%nat).
Proof. exact (retries_back_off 2 sample_attempts ltac:(discriminate)). Defined.
