(* ===== verification/WorkerLife.v ===== *)
(** * The life of a route worker ([run] and [drain_remaining] in [src/src/forward/worker.rs])

    The worker of [Worker] with what decides its outcomes: the shutdown token, which interrupts
    a send and ends the loop, and the timer of the drain, which interrupts a send and abandons
    what is left.  Every step is one of [Worker] or leaves its state alone; what is new is that
    the worker stops, however slow its upstream. *)

From S2P Require Import Prelude Runs Config Cli Otlp AggBatch Channel Router Client Worker.

Local Open Scope Z_scope.

(** [timer_from] is when the drain spawned its timer. *)
Record life (C : Type) := mkLife {
  body : route C;
  clock : Z;
  cancelled : bool;
  timer_from : Z;
}.
Arguments mkLife {C} _ _ _ _.
Arguments body {C} _.
Arguments clock {C} _.
Arguments cancelled {C} _.
Arguments timer_from {C} _.

(** The router offers; the worker is polled; the upstream answers or fails; the token is
    cancelled; time passes; the last router is dropped. *)
Inductive lane_event :=
| Offered | Polled | UpstreamEnds | Cancelled | LaneTick | RoutersGone.

Section life.
Context {C : Type} `{ChannelOps C ExportRequest}.
Implicit Types (x y : life C) (w : route C).

Definition set_body x w : life C := mkLife w (clock x) (cancelled x) (timer_from x).

(** [deadline.is_cancelled()], once the timer has slept. *)
Definition past_grace x : Prop := timer_from x + DRAIN_GRACE <= clock x.

Inductive step : lane_event -> life C -> life C -> Prop :=
| life_offer x r :
    request_is_empty r = false -> offered (body x) + 1 < word ->
    step Offered x (set_body x (offer (body x) r))
(** The loop's [select!] is biased: a cancelled token is seen before a request is taken. *)
| life_recv x w :
    cancelled x = false -> run_recv (body x) = Some w -> step Polled x (set_body x w)
| life_break x w :
    cancelled x = true -> run_break (body x) = Some w -> step Polled x (set_body x w)
| life_gone x w :
    pending (chan (body x)) = [] -> run_break (body x) = Some w -> step RoutersGone x (set_body x w)
(** [send_with_retry] ends by itself, or sees the token. *)
| life_sent x o w :
    o <> SendCancelled -> run_sent (body x) o = Some w -> step UpstreamEnds x (set_body x w)
| life_interrupted x w :
    cancelled x = true -> run_sent (body x) SendCancelled = Some w -> step Polled x (set_body x w)
(** The channel is closed and the timer of the drain starts. *)
| life_close x w :
    run_close (body x) = Some w ->
    step Polled x (mkLife w (clock x) (cancelled x) (clock x))
| life_drain_next x w :
    drain_next (body x) = Some w -> step Polled x (set_body x w)
| life_drain_sent x o w :
    o <> SendCancelled -> drain_one (body x) (Some o) = Some w ->
    step UpstreamEnds x (set_body x w)
| life_drain_late x o w :
    past_grace x -> o = None \/ o = Some SendCancelled -> drain_one (body x) o = Some w ->
    step Polled x (set_body x w)
| life_finish x w :
    drain_finish (body x) = Some w -> step Polled x (set_body x w)
| life_cancel x :
    step Cancelled x (mkLife (body x) (clock x) true (timer_from x))
| life_tick x t :
    clock x <= t -> step LaneTick x (mkLife (body x) t (cancelled x) (timer_from x)).

Definition born (capacity : Z) (now : Z) : life C := mkLife (spawned capacity) now false now.

Definition reachable (capacity now : Z) x : Prop :=
  rtc (fun x y => exists e, step e x y) (born capacity now) x.

(** ** Specification *)

Definition stopped x : Prop := worker_phase (body x) = Stopped.

(** The requests that are left to drain, the one at hand counted. *)
Definition left_to_drain x : nat :=
  match worker_phase (body x) with
  | Draining o _ _ => 2 * length (pending (chan (body x))) + match o with Some _ => 1 | None => 0 end
  | _ => 0
  end%nat.

Definition in_loop x : Prop :=
  cancelled x = true /\ match worker_phase (body x) with Receiving | Sending _ => True | _ => False end.
Definition closing x : Prop := exists o, worker_phase (body x) = Closing o.
(** The channel is closed, so that nothing is added. *)
Definition drains (k : nat) (since : Z) x : Prop :=
  (exists o d a, worker_phase (body x) = Draining o d a) /\ is_closed (chan (body x)) = true /\
  timer_from x = since /\ left_to_drain x = k.
End life.

(** * Lemmas *)

Section life_lemmas.
Context {C : Type} `{ChannelLaws C ExportRequest}.
Implicit Types (x y : life C) (w : route C).

#[local] Ltac life_cases H :=
  destruct H as [x r Hr Hw|x w Hc Hw|x w Hc Hw|x w Hc Hw|x o w Hc Hw|x w Hc Hw|x w Hw|x w Hw
    |x o w Hc Hw|x o w Hc Ho Hw|x w Hw|x|x t Ht].

(** Every step is one of the worker without its timers, or none. *)
Lemma life_step_body e x y : step e x y -> Worker.step (body x) (body y) \/ body y = body x.
Proof.
  intros Hs. life_cases Hs; simpl; try (by right); left.
  - by constructor.
  - by eapply Worker.step_recv.
  - by eapply Worker.step_break.
  - by eapply Worker.step_break.
  - by eapply Worker.step_sent.
  - by eapply Worker.step_sent.
  - by eapply Worker.step_close.
  - by eapply Worker.step_drain_next.
  - by eapply Worker.step_drain_one.
  - by eapply Worker.step_drain_one.
  - by eapply Worker.step_finish.
Qed.

Lemma life_step_inv e x y : step e x y -> WorkerInv (body x) -> WorkerInv (body y).
Proof.
  intros Hs Hx. destruct (life_step_body _ _ _ Hs) as [Hw|E]; [by eapply worker_step_inv|by rewrite E].
Qed.

Lemma stopped_counts x :
  WorkerInv (body x) -> stopped x ->
  sent_total (metrics (body x)) + failed_total (metrics (body x)) + dropped_total (metrics (body x)) =
  offered (body x).
Proof.
  unfold stopped, offered. intros Hi Hst. pose proof (inv_count _ Hi) as Hc.
  rewrite (inv_order _ Hi), (inv_stopped _ Hi Hst), Hst in *. simpl in *. rewrite !app_nil_r. lia.
Qed.

Lemma life_reachable_body capacity now x :
  reachable capacity now x -> Worker.reachable capacity (body x).
Proof.
  revert x. apply rtc_ind_r; [apply rtc_refl|]. intros y z _ [e Hs] IH.
  destruct (life_step_body _ _ _ Hs) as [Hw|E]; [by eapply rtc_r|by rewrite E].
Qed.

Lemma life_clock e x y : step e x y -> clock x <= clock y.
Proof. intros Hs. life_cases Hs; simpl; lia. Qed.

Lemma cancelled_stable : stable step (fun x : life C => cancelled x = true).
Proof. intros e x y Hs Hcc. life_cases Hs; simpl in *; congruence. Qed.

Lemma stopped_stable : stable step (stopped (C := C)).
Proof.
  unfold stopped. intros e x y Hs Hst. life_cases Hs; simpl; try done;
    unfold run_recv, run_break, run_sent, run_close, drain_next, drain_one, drain_finish in *;
    rewrite ?Hst in *; simplify_eq.
  unfold offer. by destruct (try_send (chan (body x)) r) as [c []].
Qed.

(** What the offers and the other parts of the worker leave alone. *)
Lemma offer_phase w r : worker_phase (offer w r) = worker_phase w.
Proof. unfold offer. by destruct (try_send (chan w) r) as [c []]. Qed.

Lemma offer_closed w r : is_closed (chan w) = true -> chan (offer w r) = chan w.
Proof.
  intros Hc. unfold offer. destruct (try_send (chan w) r) as [c [e|]] eqn:E.
  - by apply not_sent in E as [-> _].
  - apply sent in E as (Ho & _). congruence.
Qed.

#[local] Ltac phases :=
  unfold run_recv, run_break, run_sent, run_close, drain_next, drain_one, drain_finish in *.

(** ** What a cancelled worker goes through *)

Lemma in_loop_until : until step (in_loop (C := C)) closing.
Proof.
  unfold in_loop, closing. intros e x y Hs [Hcc Hp]. life_cases Hs; simpl in *; phases; try congruence;
    rewrite ?offer_phase; try (by left); repeat (case_match; simplify_eq/=); try done;
    first [by left|by right; eexists].
Qed.

Lemma in_loop_polled x y : step Polled x y -> in_loop x -> closing y.
Proof.
  unfold in_loop, closing. intros Hs [Hcc Hp]. inversion Hs as [|? w Hc Hw|? w Hc Hw| |
    |? w Hc Hw|? w Hw|? w Hw| |? o w Hc Ho Hw|? w Hw| |]; subst; simpl in *; phases; try congruence;
    repeat (case_match; simplify_eq/=); try done; by eexists.
Qed.

Lemma in_loop_enabled x : in_loop x -> enabled step Polled x.
Proof.
  intros [Hc Hp]. destruct (worker_phase (body x)) as [|r| | |] eqn:Ep; try done.
  - eexists. apply life_break; [done|]. unfold run_break. by rewrite Ep.
  - eexists. apply life_interrupted; [done|]. unfold run_sent. by rewrite Ep.
Qed.

Lemma closes_until : until step (closing (C := C)) (fun x => exists k since, drains k since x).
Proof.
  unfold closing, drains. intros e x y Hs [o0 Ep]. life_cases Hs; simpl in *; phases;
    rewrite ?offer_phase; rewrite ?Ep in *; simplify_eq/=; try (by left; eexists).
  right. do 2 eexists. split_and!; [by do 3 eexists|apply channel_close|reflexivity|reflexivity].
Qed.

Lemma closing_polled x y : step Polled x y -> closing x -> exists k since, drains k since y.
Proof.
  unfold closing, drains. intros Hs [o0 Ep]. inversion Hs as [|? w Hc Hw|? w Hc Hw| |
    |? w Hc Hw|? w Hw|? w Hw| |? o' w Hc Ho Hw|? w Hw| |]; subst; simpl in *; phases;
    rewrite ?Ep in *; simplify_eq/=.
  do 2 eexists. split_and!; [by do 3 eexists|apply channel_close|reflexivity|reflexivity].
Qed.

Lemma closing_enabled x : closing x -> enabled step Polled x.
Proof. intros [o Ep]. eexists. eapply life_close. unfold run_close. by rewrite Ep. Qed.

(** The drain: what is left shrinks until the worker stops. *)
Definition drained_more (k : nat) (since : Z) x : Prop :=
  stopped x \/ exists k', (k' < k)%nat /\ drains k' since x.

Lemma drain_one_shape w w' o r d a :
  worker_phase w = Draining (Some r) d a -> drain_one w o = Some w' ->
  chan w' = chan w /\ exists d' a', worker_phase w' = Draining None d' a'.
Proof.
  unfold drain_one. intros -> Hw. repeat (case_match; simplify_eq/=); (split; [done|by do 2 eexists]).
Qed.

(** Being done with the request at hand leaves one less. *)
Lemma drain_one_less x w o k since :
  drain_one (body x) o = Some w -> drains k since x -> drained_more k since (set_body x w).
Proof.
  intros Hw ((o0 & d & a & Ep) & Hcl & Ht & Hk).
  assert (exists r, o0 = Some r) as [r ->].
  { unfold drain_one in Hw. rewrite Ep in Hw. destruct o0; [by eexists|done]. }
  destruct (drain_one_shape _ _ _ _ _ _ Ep Hw) as (Ec & d' & a' & Ep').
  right. exists (2 * length (pending (chan (body x))))%nat. unfold drains, left_to_drain in *.
  rewrite Ep in Hk. simpl in *. rewrite Ep', Ec. split; [lia|].
  split_and!; [by do 3 eexists|done|done|lia].
Qed.

Lemma drain_next_less x w k since :
  drain_next (body x) = Some w -> drains k since x -> drained_more k since (set_body x w).
Proof.
  intros Hw ((o & d & a & Ep) & Hcl & Ht & Hk). unfold drain_next in Hw. rewrite Ep in Hw.
  destruct o as [r|]; [done|]. pose proof (received (chan (body x))) as Hr.
  destruct (try_recv (chan (body x))) as [[r c]|]; [|done]. destruct Hr as (Hp & Hcl' & _).
  injection Hw as <-. right. exists (2 * length (pending c) + 1)%nat. unfold drains, left_to_drain in *.
  rewrite Ep, Hp in Hk. simpl in *. split; [lia|].
  split_and!; [by do 3 eexists|congruence|done|lia].
Qed.

Lemma drain_step e x y k since :
  step e x y -> drains k since x ->
  (drains k since y /\ e <> Polled) \/ drained_more k since y.
Proof.
  intros Hs Hd. pose proof Hd as ((o0 & d & a & Ep) & Hcl & Hfrom & Hk).
  life_cases Hs; try (phases; rewrite Ep in Hw; done).
  - left. split; [|done]. unfold drains, left_to_drain in *. simpl.
    rewrite offer_phase, offer_closed, Ep in * by done. split_and!; [by do 3 eexists|done..].
  - right. by eapply drain_next_less.
  - right. by eapply drain_one_less.
  - right. by eapply drain_one_less.
  - right. left. unfold stopped, drain_finish in *. rewrite Ep in Hw.
    destruct o0; [done|]. destruct (try_recv _) as [|]; [done|]. by simplify_eq.
  - by left.
  - by left.
Qed.

(** At once, or when the grace is over. *)
Lemma drain_enabled x k since :
  drains k since x -> since + DRAIN_GRACE <= clock x -> enabled step Polled x.
Proof.
  intros ((o & d & a & Ep) & Hcl & Ht & Hk) Hn. destruct o as [r|].
  - assert (exists w, drain_one (body x) None = Some w) as [w Hw]
      by (unfold drain_one; rewrite Ep; by eexists).
    eexists. eapply (life_drain_late x None); [by unfold past_grace; rewrite Ht|by left|done].
  - destruct (try_recv (chan (body x))) as [[r c]|] eqn:Er.
    + eexists. eapply life_drain_next. unfold drain_next. by rewrite Ep, Er.
    + eexists. eapply life_finish. unfold drain_finish. by rewrite Ep, Er.
Qed.

Lemma drain_leads k since ev tr n :
  run_of step ev tr -> fair step Polled ev tr -> clock_goes_on clock tr ->
  drains k since (tr n) -> eventually stopped tr n.
Proof.
  intros Hr Hf Hc. revert n. induction (lt_wf k) as [k _ IH]. intros n Hd.
  apply (eventually_trans (drained_more k since)).
  { intros m _ [Hst|(k' & Hk & Hd')]; [by exists m|by eapply IH]. }
  apply (wf1_deadline step clock (since + DRAIN_GRACE) (drains k since) _ Polled ev tr n Hr Hf Hc);
    [by apply life_clock| | | |done].
  - intros e x y Hs Hx. destruct (drain_step _ _ _ _ _ Hs Hx) as [[? _]|]; auto.
  - intros x y Hs Hx. by destruct (drain_step _ _ _ _ _ Hs Hx) as [[_ ?]|].
  - intros x. apply drain_enabled.
Qed.

Lemma stops_from_anywhere capacity now ev tr n :
  1 <= capacity -> reachable capacity now (tr 0%nat) -> run_of step ev tr ->
  fair step Polled ev tr -> clock_goes_on clock tr -> cancelled (tr n) = true ->
  eventually stopped tr n.
Proof.
  intros Hcap H0' Hr Hf Hck Hc.
  assert (WorkerInv (body (tr n))) as Hinv.
  { apply (stable_trace step (fun x => WorkerInv (body x)) ev tr 0 n); [|done|lia|].
    - intros e x y. apply life_step_inv.
    - by eapply worker_reachable_inv, life_reachable_body. }
  assert (forall m, (exists k since, drains k since (tr m)) -> eventually stopped tr m) as Hdrains
    by (intros m (k & since & Hd); by eapply drain_leads).
  assert (forall m, closing (tr m) -> eventually stopped tr m) as Hclosing.
  { intros m Hcl. apply (eventually_trans (fun x => exists k since, drains k since x)); [by auto|].
    apply (wf1 step _ _ Polled ev tr m Hr Hf closes_until); [apply closing_polled|apply closing_enabled|done]. }
  destruct (worker_phase (body (tr n))) as [|r|o|o d a|] eqn:Ep.
  - apply (eventually_trans closing); [by auto|].
    apply (wf1 step in_loop _ Polled ev tr n Hr Hf in_loop_until); [apply in_loop_polled|apply in_loop_enabled|].
    split; [done|by rewrite Ep].
  - apply (eventually_trans closing); [by auto|].
    apply (wf1 step in_loop _ Polled ev tr n Hr Hf in_loop_until); [apply in_loop_polled|apply in_loop_enabled|].
    split; [done|by rewrite Ep].
  - apply Hclosing. by exists o.
  - apply Hdrains. do 2 eexists. split_and!; [by do 3 eexists| |reflexivity..].
    apply inv_closed; [done|by rewrite Ep].
  - by exists n.
Qed.
End life_lemmas.

(** * Properties *)

(** C24. A worker stops when it is told to, however slow its upstream and however long its queue:
    in any run in which its task is polled and the clock goes on, once the shutdown token is
    cancelled the worker comes to its end, and then every request it was ever offered was sent,
    failed or counted as dropped. *)
Theorem worker_stops {C} `{ChannelLaws C ExportRequest} capacity now ev (tr : nat -> life C) n :
  1 <= capacity -> reachable capacity now (tr 0%nat) -> run_of step ev tr ->
  fair step Polled ev tr -> clock_goes_on clock tr -> cancelled (tr n) = true ->
  exists m, (n <= m)%nat /\ worker_phase (body (tr m)) = Stopped /\
    let w := body (tr m) in
    sent_total (metrics w) + failed_total (metrics w) + dropped_total (metrics w) = offered w.
Proof.
  intros Hcap H0' Hr Hf Hck Hc.
  destruct (stops_from_anywhere capacity now ev tr n Hcap H0' Hr Hf Hck Hc) as (m & Hm & Hst).
  exists m. split; [done|]. split; [done|]. apply stopped_counts; [|done].
  apply (stable_trace step (fun x => WorkerInv (body x)) ev tr 0 m); [|done|lia|].
  - intros e x y. apply life_step_inv.
  - by eapply worker_reachable_inv, life_reachable_body.
Qed.

(** ** A life to evaluate examples with *)

(** One request, whose upstream never answers: the token interrupts the send, the timer of the
    drain the second attempt at it. *)
Definition sample_life (w : route (list_channel ExportRequest)) (t : Z) (c : bool) (from : Z)
    : life (list_channel ExportRequest) := mkLife w t c from.
Definition waiting_route : route (list_channel ExportRequest) := offer (spawned 1) sample_request.
Definition sending_route (c : bool) (p : phase) : route (list_channel ExportRequest) :=
  mkRouteState (mkChannel [] 1 c) (mkMetrics 0 0 0) p [sample_request] [] 0.
Definition emptied_route (m : RouteMetrics) (p : phase) : route (list_channel ExportRequest) :=
  mkRouteState (mkChannel [] 1 true) m p [sample_request] [sample_request] 0.

Definition told_life : list (lane_event * life (list_channel ExportRequest)) := [
  (Offered, born 1 0);
  (Polled, sample_life waiting_route 0 false 0);
  (Cancelled, sample_life (sending_route false (Sending sample_request)) 0 false 0);
  (Polled, sample_life (sending_route false (Sending sample_request)) 0 true 0);
  (Polled, sample_life (sending_route false (Closing (Some sample_request))) 0 true 0);
  (LaneTick, sample_life (sending_route true (Draining (Some sample_request) 0 0)) 0 true 0);
  (Polled, sample_life (sending_route true (Draining (Some sample_request) 0 0)) DRAIN_GRACE true 0);
  (Polled, sample_life (emptied_route (mkMetrics 0 0 0) (Draining None 0 1)) DRAIN_GRACE true 0)
].
Definition rest_life (n : nat) : life (list_channel ExportRequest) :=
  sample_life (emptied_route (mkMetrics 0 0 1) Stopped) (DRAIN_GRACE + Z.of_nat n) true 0.

Lemma told_life_plays : plays step told_life (rest_life 0).
Proof.
  repeat split; simpl.
  - by apply (life_offer (born 1 0) sample_request); vm_compute.
  - by apply (life_recv (sample_life waiting_route 0 false 0)).
  - apply (life_cancel (sample_life (sending_route false (Sending sample_request)) 0 false 0)).
  - by apply (life_interrupted (sample_life (sending_route false (Sending sample_request)) 0 true 0)).
  - by apply (life_close (sample_life (sending_route false (Closing (Some sample_request))) 0 true 0)).
  - by apply (life_tick (sample_life (sending_route true (Draining (Some sample_request) 0 0)) 0 true 0)).
  - apply (life_drain_late
      (sample_life (sending_route true (Draining (Some sample_request) 0 0)) DRAIN_GRACE true 0) None);
      [done|by left|done].
  - by apply (life_finish (sample_life (emptied_route (mkMetrics 0 0 0) (Draining None 0 1)) DRAIN_GRACE true 0)).
Qed.

Lemma told_life_run : run_of step (played_ev told_life LaneTick) (played_tr told_life rest_life).
Proof.
  apply played_run; [apply told_life_plays|]. intros n.
  apply (life_tick (rest_life n) (DRAIN_GRACE + Z.of_nat (S n))). simpl. lia.
Qed.

Lemma rest_life_quiet n : ~ enabled step Polled (rest_life n).
Proof. intros [y Hy]. inversion Hy; subst; simplify_eq/=. Qed.

Lemma rest_life_clock : clock_goes_on clock rest_life.
Proof. intros t n. exists (Z.to_nat t + n)%nat. split; [lia|]. simpl. unfold DRAIN_GRACE, secs. lia. Qed.

Lemma worker_stops_witness :
  exists m, (3 <= m)%nat /\ worker_phase (body (played_tr told_life rest_life m)) = Stopped /\
    dropped_total (metrics (body (rest_life 0))) = offered (body (rest_life 0)).
Proof.
  destruct (worker_stops 1 0 (played_ev told_life LaneTick) (played_tr told_life rest_life) 3
    ltac:(reflexivity || discriminate) (rtc_refl _ _) told_life_run (played_fair _ _ _ _ _ rest_life_quiet)
    (played_clock _ _ _ rest_life_clock) eq_refl) as (m & Hm & Hst & _).
  exists m. split; [exact Hm|]. split; [exact Hst|reflexivity].
Defined.
