(* ===== verification/Rotation.v ===== *)
(** * Daily files: names, retention and opening ([src/src/sink.rs])

    Which files of the log directory belong to the program, which of them a cleanup removes,
    and how the outputs are opened and probed. *)

From Stdlib Require Import Ascii.
From S2P Require Import Prelude Io Text Path Config Cli Storage.

Local Open Scope Z_scope.

(** ** Names *)

Definition ROTATION_PREFIX : string := "otel-logger".
Definition PRETTY_LOG_PREFIX : string := "otel-logger.pretty".
Definition PRETTY_LOG_SUFFIX : string := "log".

Inductive DailyLogKind := Jsonl | PrettyLog.

#[export] Instance DailyLogKind_eq_dec : EqDecision DailyLogKind.
Proof. solve_decision. Defined.

(** [str::strip_suffix]. *)
Fixpoint strip_suffix (suffix s : string) : option string :=
  if String.eqb s suffix then Some EmptyString
  else match s with
       | EmptyString => None
       | String a s => option_map (String a) (strip_suffix suffix s)
       end.

Section names.
Context `{Calendar}.

(** The ten bytes of [YYYY-MM-DD], by position. *)
Definition is_calendar_date (date : string) : bool :=
  match String.list_ascii_of_string date with
  | [y1; y2; y3; y4; d1; m1; m2; d2; c1; c2] =>
      if forallb is_ascii_digit [y1; y2; y3; y4] && Ascii.eqb d1 "-" &&
         forallb is_ascii_digit [m1; m2] && Ascii.eqb d2 "-" && forallb is_ascii_digit [c1; c2]
      then
        match digits_value 0 (String.string_of_list_ascii [y1; y2; y3; y4]),
              digits_value 0 (String.string_of_list_ascii [m1; m2]),
              digits_value 0 (String.string_of_list_ascii [c1; c2]) with
        | Some year, Some month, Some day =>
            match month_try_from month with
            | Some month => from_calendar_date year month day
            | None => false
            end
        | _, _, _ => false
        end
      else false
  | _ => false
  end.

Definition daily_log_kind (filename : string) : option DailyLogKind :=
  let pretty_date :=
    match strip_prefix PRETTY_LOG_PREFIX filename with
    | Some rest =>
        match strip_prefix "." rest with
        | Some rest =>
            match strip_suffix PRETTY_LOG_SUFFIX rest with
            | Some rest => strip_suffix "." rest
            | None => None
            end
        | None => None
        end
    | None => None
    end in
  match pretty_date with
  | Some date => if is_calendar_date date then Some PrettyLog else None
  | None =>
      match strip_prefix ROTATION_PREFIX filename with
      | Some rest =>
          match strip_prefix "." rest with
          | Some date => if is_calendar_date date then Some Jsonl else None
          | None => None
          end
      | None => None
      end
  end.

(** ** Retention *)

(** What looking at a directory entry gives, in the order it is asked for. *)
Record DirEntry := mkEntry {
  entry_path : string;
  is_file : result bool ErrorKind;
  file_name : option string;
  modified : result (option Z) ErrorKind;
  remove_file : result unit ErrorKind;
}.

Inductive CleanupError :=
| InspectDirectory (kind : ErrorKind)
| ReadDirectory (kind : ErrorKind)
| StatFile (path : string) (kind : ErrorKind)
| RemoveFile (path : string) (kind : ErrorKind).

(** One turn of the loop: the file removed, if any. *)
Definition clean_entry (cutoff : Z) (e : DirEntry) : result (option string) CleanupError :=
  match is_file e with
  | Ok false | Err NotFound => Ok None
  | Err kind => Err (StatFile (entry_path e) kind)
  | Ok true =>
      match file_name e with
      | None => Ok None
      | Some filename =>
          match daily_log_kind filename with
          | None => Ok None
          | Some _ =>
              match modified e with
              | Err NotFound | Ok None => Ok None
              | Err kind => Err (StatFile (entry_path e) kind)
              | Ok (Some modified) =>
                  if cutoff <=? modified then Ok None
                  else match remove_file e with
                       | Ok _ => Ok (Some (entry_path e))
                       | Err NotFound => Ok None
                       | Err kind => Err (RemoveFile (entry_path e) kind)
                       end
              end
          end
      end
  end.

(** The files removed, and how it ended. *)
Fixpoint clean_entries (cutoff : Z) (entries : list (result DirEntry ErrorKind))
    : list string * result unit CleanupError :=
  match entries with
  | [] => ([], Ok tt)
  | Err kind :: _ => ([], Err (ReadDirectory kind))
  | Ok e :: entries =>
      match clean_entry cutoff e with
      | Err error => ([], Err error)
      | Ok removed =>
          let '(removed_later, r) := clean_entries cutoff entries in
          (option_list removed ++ removed_later, r)
      end
  end.

Definition DAY : Z := secs (24 * 60 * 60).

(** [SystemTime::now().checked_sub(..).unwrap_or(UNIX_EPOCH)]; times before [system_min] cannot
    be represented. *)
Definition cleanup_cutoff (system_min now keep_days : Z) : Z :=
  let cutoff := now - keep_days * DAY in
  if system_min <=? cutoff then cutoff else 0.

(** [read_dir] lists the directory; the listing is what the host answers. *)
Definition cleanup_old_rotated_logs (system_min now : Z) (exists_ : result bool ErrorKind)
    (listing : result (list (result DirEntry ErrorKind)) ErrorKind) (keep_days : Z)
    : list string * result unit CleanupError :=
  match exists_ with
  | Err kind => ([], Err (InspectDirectory kind))
  | Ok false => ([], Ok tt)
  | Ok true =>
      match listing with
      | Err kind => ([], Err (ReadDirectory kind))
      | Ok entries => clean_entries (cleanup_cutoff system_min now keep_days) entries
      end
  end.

(** What a cleanup of a directory meets: the clock, whether the directory is there, and its
    listing. *)
Record DirView := mkView {
  system_min : Z;
  system_now : Z;
  dir_exists : result bool ErrorKind;
  dir_listing : result (list (result DirEntry ErrorKind)) ErrorKind;
}.

(** The cleanup on the disk: the files it removed are gone, even if it failed later. *)
Definition clean_up (view : DirView) (keep_days : Z) (d : Disk) : Disk * result unit CleanupError :=
  let '(gone, r) := cleanup_old_rotated_logs (system_min view) (system_now view) (dir_exists view)
    (dir_listing view) keep_days in
  (remove_files gone d, r).
End names.

(** ** Opening *)

Record RotatedWriter `{NaiveDates} := mkRotated {
  roller : DailyWriter;
  rw_dir : string;
  rw_keep_days : Z;
  last_cleanup_day : Z;
}.

Inductive OpenError :=
| CreateDirectory (path : string) (kind : ErrorKind)
| Cleanup (e : CleanupError)
| OpenLog (path : string) (kind : ErrorKind)
| ProbeLog (path : string) (kind : ErrorKind).

Definition with_context {A} (f : ErrorKind -> OpenError) (m : io Disk A) (d : Disk)
    : Disk * result A OpenError :=
  match m d with
  | (d, Ok a) => (d, Ok a)
  | (d, Err e) => (d, Err (f e))
  end.

Definition create_parent (path : string) : io Disk unit :=
  match parent path with
  | Some dir => if str_is_empty dir then io_ret tt else create_private_dir dir
  | None => io_ret tt
  end.

Definition open_log_file_sync (path : string) (d : Disk)
    : Disk * result (TransactionalAppend string) OpenError :=
  match with_context (CreateDirectory path) (create_parent path) d with
  | (d, Err e) => (d, Err e)
  | (d, Ok _) => with_context (OpenLog path) (append_file_open path) d
  end.

Definition probe_log_file (path : string) (d : Disk) : Disk * result unit OpenError :=
  match with_context (CreateDirectory path) (create_parent path) d with
  | (d, Err e) => (d, Err e)
  | (d, Ok _) => with_context (ProbeLog path) (append_file_probe path) d
  end.

Section opening.
Context `{NaiveDates}.

(** [view] is what the cleanup meets; [date] and [julian_day] are today. *)
Definition open_rotated_sync (view : DirView) (date : NaiveDate) (julian_day : Z)
    (dir : string) (keep_days : Z) (d : Disk) : Disk * result RotatedWriter OpenError :=
  match with_context (CreateDirectory dir) (create_private_dir dir) d with
  | (d, Err e) => (d, Err e)
  | (d, Ok _) =>
      let max_keep := Z.max keep_days 1 in
      match clean_up view max_keep d with
      | (d, Err e) => (d, Err (Cleanup e))
      | (d, Ok _) =>
          match with_context (OpenLog dir) (at_date dir ROTATION_PREFIX None date) d with
          | (d, Err e) => (d, Err e)
          | (d, Ok appender) =>
              (d, Ok (mkRotated _ (with_sync_on_rotate appender) dir max_keep julian_day))
          end
      end
  end.

Definition open_pretty_log_sync (date : NaiveDate) (dir : string) (d : Disk)
    : Disk * result DailyWriter OpenError :=
  match with_context (CreateDirectory dir) (create_private_dir dir) d with
  | (d, Err e) => (d, Err e)
  | (d, Ok _) =>
      with_context (OpenLog dir) (at_date dir PRETTY_LOG_PREFIX (Some PRETTY_LOG_SUFFIX) date) d
  end.

(** [probe_settings]; [scan] is reading the directory to its end. *)
Definition probe_settings (scan : string -> result unit ErrorKind) (date : NaiveDate)
    (log_sink : option LogSink) (pretty_log_dir : option string) (d : Disk)
    : Disk * result unit OpenError :=
  let '(d, r) :=
    match log_sink with
    | None => (d, Ok tt)
    | Some (File path) => probe_log_file path d
    | Some (Directory dir _) =>
        match with_context (CreateDirectory dir) (create_private_dir dir) d with
        | (d, Err e) => (d, Err e)
        | (d, Ok _) =>
            match scan dir with
            | Err kind => (d, Err (ProbeLog dir kind))
            | Ok _ => probe_log_file (daily_path dir ROTATION_PREFIX None date) d
            end
        end
    end in
  match r with
  | Err e => (d, Err e)
  | Ok _ =>
      match pretty_log_dir with
      | None => (d, Ok tt)
      | Some dir => probe_log_file (daily_path dir PRETTY_LOG_PREFIX (Some PRETTY_LOG_SUFFIX) date) d
      end
  end.
End opening.

(** ** Specification *)

Definition owned_name (kind : DailyLogKind) (date : string) : string :=
  match kind with
  | Jsonl => ROTATION_PREFIX +:+ "." +:+ date
  | PrettyLog => PRETTY_LOG_PREFIX +:+ "." +:+ date +:+ "." +:+ PRETTY_LOG_SUFFIX
  end.

(** What was last changed [keep_days] days of 86,400 seconds ago is kept, what is older is not;
    the epoch stands for a moment the clock cannot represent.  Times are in nanoseconds. *)
Definition retention_start (system_min now keep_days : Z) : Z :=
  let ago := now - keep_days * 86_400_000_000_000 in
  if decide (ago < system_min) then 0 else ago.

(** A regular file of the program that is older than the cutoff. *)
Definition stale `{Calendar} (cutoff : Z) (e : DirEntry) : Prop :=
  is_file e = Ok true /\
  (exists kind date, file_name e = Some (owned_name kind date) /\ is_calendar_date date = true) /\
  exists t, modified e = Ok (Some t) /\ t < cutoff.

(** * Lemmas *)

Lemma strip_suffix_app suffix s rest :
  strip_suffix suffix s = Some rest <-> s = (rest +:+ suffix)%string.
Proof.
  revert rest. induction s as [|a s IH]; intros rest; cbn [strip_suffix].
  - destruct (String.eqb_spec ""%string suffix) as [<-|Hne].
    + split; [by intros [= <-]|]. destruct rest; [done|]. by intros.
    + split; [done|]. destruct rest; simpl; [|done]. intros E. by destruct Hne.
  - destruct (String.eqb_spec (String a s) suffix) as [<-|Hne].
    + split; [by intros [= <-]|]. intros E. f_equal.
      apply (str_app_inj_r (String a s) ""%string rest). exact E.
    + split.
      * destruct (strip_suffix suffix s) as [r|] eqn:Es; [|done]. intros [= <-].
        rewrite str_app_cons. f_equal. by apply IH.
      * destruct rest as [|b rest]; [intros E; by destruct Hne|].
        rewrite str_app_cons. intros [= -> E]. apply IH in E. by rewrite E.
Qed.

Section name_lemmas.
Context `{Calendar}.

(** A date is digits but for its dashes, so it is not the rest of another name. *)
Lemma calendar_date_first date :
  is_calendar_date date = true ->
  exists c rest, date = String c rest /\ is_ascii_digit c = true.
Proof.
  unfold is_calendar_date. destruct date as [|c rest]; [done|]. intros Hd. exists c, rest.
  split; [done|]. simpl in Hd. destruct (is_ascii_digit c) eqn:E; [done|].
  repeat (case_match; try done).
Qed.

Lemma pretty_date_spec filename date :
  match strip_prefix PRETTY_LOG_PREFIX filename with
  | Some rest =>
      match strip_prefix "." rest with
      | Some rest =>
          match strip_suffix PRETTY_LOG_SUFFIX rest with
          | Some rest => strip_suffix "." rest
          | None => None
          end
      | None => None
      end
  | None => None
  end = Some date <-> filename = owned_name PrettyLog date.
Proof.
  unfold owned_name. split.
  - destruct (strip_prefix PRETTY_LOG_PREFIX filename) as [r1|] eqn:E1; [|done].
    destruct (strip_prefix "." r1) as [r2|] eqn:E2; [|done].
    destruct (strip_suffix PRETTY_LOG_SUFFIX r2) as [r3|] eqn:E3; [|done]. intros E4.
    apply strip_prefix_app in E1 as ->. apply strip_prefix_app in E2 as ->.
    apply strip_suffix_app in E3 as ->. apply strip_suffix_app in E4 as ->.
    by rewrite !str_app_assoc.
  - intros ->. rewrite (proj2 (strip_prefix_app _ _ _) eq_refl).
    rewrite (proj2 (strip_prefix_app _ _ _) eq_refl).
    rewrite (proj2 (strip_suffix_app _ _ (date +:+ "."))) by (by rewrite !str_app_assoc).
    by apply strip_suffix_app.
Qed.

Lemma daily_log_kind_spec filename kind :
  daily_log_kind filename = Some kind <->
  exists date, is_calendar_date date = true /\ filename = owned_name kind date.
Proof.
  unfold daily_log_kind.
  pose proof (pretty_date_spec filename) as Hp.
  destruct (match strip_prefix PRETTY_LOG_PREFIX filename with Some _ => _ | None => _ end) as [pd|].
  - pose proof (proj1 (Hp pd) eq_refl) as Ef. split.
    + destruct (is_calendar_date pd) eqn:E; [|done]. intros [= <-]. by exists pd.
    + intros (date & Hd & Ef'). destruct kind.
      * exfalso. rewrite Ef in Ef'. unfold owned_name in Ef'.
        apply calendar_date_first in Hd as (c & rest & -> & Hc).
        change ("otel-logger" +:+ ("." +:+ ("pretty" +:+ ("." +:+ pd +:+ "." +:+ PRETTY_LOG_SUFFIX))) =
          "otel-logger" +:+ ("." +:+ String c rest))%string in Ef'.
        apply str_app_inj_l, str_app_inj_l in Ef'. injection Ef' as <- _. done.
      * assert (Some pd = Some date) as [= ->] by (by apply Hp). by rewrite Hd.
  - destruct (strip_prefix ROTATION_PREFIX filename) as [r1|] eqn:E1.
    + destruct (strip_prefix "." r1) as [date|] eqn:E2.
      * apply strip_prefix_app in E1 as ->. apply strip_prefix_app in E2 as ->. split.
        -- destruct (is_calendar_date date) eqn:E; [|done]. intros [= <-]. by exists date.
        -- intros (date' & Hd & Ef). destruct kind.
           ++ unfold owned_name in Ef. apply str_app_inj_l, str_app_inj_l in Ef as ->. by rewrite Hd.
           ++ apply Hp in Ef. done.
      * split; [done|]. intros (date & _ & ->). destruct kind; [|by pose proof (proj2 (Hp date) eq_refl)].
        apply strip_prefix_app in E1. unfold owned_name in E1. apply str_app_inj_l in E1 as <-.
        by rewrite (proj2 (strip_prefix_app _ _ _) eq_refl) in E2.
    + split; [done|]. intros (date & _ & ->). destruct kind; [|by pose proof (proj2 (Hp date) eq_refl)].
      unfold owned_name in E1. by rewrite (proj2 (strip_prefix_app _ _ _) eq_refl) in E1.
Qed.
End name_lemmas.

Section retention.
Context `{Calendar}.

Lemma cleanup_cutoff_retention system_min now keep_days :
  cleanup_cutoff system_min now keep_days = retention_start system_min now keep_days.
Proof.
  unfold cleanup_cutoff, retention_start. change DAY with 86_400_000_000_000.
  case_match eqn:E; case_decide; lia.
Qed.

Lemma clean_entry_spec cutoff e :
  match clean_entry cutoff e with
  | Ok (Some path) => stale cutoff e /\ path = entry_path e /\ remove_file e = Ok tt
  | Ok None => stale cutoff e -> remove_file e = Err NotFound
  | Err _ => True
  end.
Proof.
  unfold clean_entry, stale.
  destruct (is_file e) as [[]|[]] eqn:Ef; try done; try (by intros (? & _)).
  destruct (file_name e) as [filename|] eqn:En; [|by intros (_ & (? & ? & ? & _) & _)].
  destruct (daily_log_kind filename) as [kind|] eqn:Ek; cycle 1.
  { intros (_ & (kind & date & [= ->] & Hd) & _).
    assert (daily_log_kind (owned_name kind date) = Some kind); [|congruence].
    apply daily_log_kind_spec. by exists date. }
  apply daily_log_kind_spec in Ek as (date & Hd & ->).
  destruct (modified e) as [[t|]|[]] eqn:Em; try done; try (by intros (_ & _ & ? & [=] & _)).
  destruct (Z.leb_spec cutoff t).
  { intros (_ & _ & t' & [= <-] & ?). lia. }
  destruct (remove_file e) as [[]|[]] eqn:Er; try done.
  split_and!; [done|by exists kind, date|by exists t|done|done].
Qed.

Lemma clean_entries_spec cutoff entries :
  let '(removed, r) := clean_entries cutoff entries in
  (exists picked, map Ok picked `sublist_of` entries /\ removed = map entry_path picked /\
     Forall (fun e => stale cutoff e /\ remove_file e = Ok tt) picked) /\
  match r with
  | Ok _ => forall e, Ok e ∈ entries -> stale cutoff e ->
      (entry_path e ∈ removed /\ remove_file e = Ok tt) \/ remove_file e = Err NotFound
  | Err _ => True
  end.
Proof.
  induction entries as [|[e|kind] entries IH]; simpl.
  { split; [by exists []|]. by intros e ?%not_elem_of_nil. }
  - pose proof (clean_entry_spec cutoff e) as He.
    destruct (clean_entry cutoff e) as [removed|error]; cycle 1.
    { split; [|done]. exists []. split_and!; [apply sublist_nil_l|done..]. }
    destruct (clean_entries cutoff entries) as [later r].
    destruct IH as [(picked & Hsub & -> & Hpicked) Hall]. split.
    + destruct removed as [path|]; simpl.
      * destruct He as (Hs & -> & Hr). exists (e :: picked). split_and!; [by apply sublist_skip|done|].
        by apply Forall_cons.
      * exists picked. split_and!; [by apply sublist_cons|done..].
    + destruct r as [[]|]; [|done]. intros e' [Eq|Hin]%elem_of_cons Hs.
      * injection Eq as ->. destruct removed as [path|]; [left|right; by apply He].
        destruct He as (_ & -> & Hr). split; [by left|done].
      * destruct (Hall e' Hin Hs) as [[Hin' Hr]|Hr]; [left|by right].
        split; [|done]. apply elem_of_app. by right.
  - split; [|done]. exists []. split_and!; [apply sublist_nil_l|done..].
Qed.

(** * Properties *)

(** A file name is taken for a daily file of the program exactly when it is the JSONL or the
    human-readable name of a day that exists in the calendar, and never for both. *)
Theorem daily_log_kind_exact filename kind :
  (daily_log_kind filename = Some kind <->
   exists date, is_calendar_date date = true /\ filename = owned_name kind date) /\
  (forall date date', is_calendar_date date = true ->
     owned_name Jsonl date <> owned_name PrettyLog date').
Proof.
  split; [apply daily_log_kind_spec|]. intros date date' Hd E.
  assert (daily_log_kind (owned_name Jsonl date) = Some Jsonl) as H1
    by (apply daily_log_kind_spec; by exists date).
  destruct (calendar_date_first date Hd) as (c & rest & -> & Hc).
  change ("otel-logger" +:+ ("." +:+ String c rest) =
    "otel-logger" +:+ ("." +:+ ("pretty" +:+ ("." +:+ date' +:+ "." +:+ PRETTY_LOG_SUFFIX))))%string in E.
  apply str_app_inj_l, str_app_inj_l in E. by injection E as -> _.
Qed.

(** C40. A cleanup removes only regular files of the program, of either kind, last changed
    before the retention period, that is the given number of days before now; when it succeeds
    no such file is left, unless someone else removed it first.  Nothing younger is touched,
    whatever fails. *)
Theorem cleanup_removes_exactly_stale system_min now ex entries keep_days :
  let cutoff := retention_start system_min now keep_days in
  let '(removed, r) := cleanup_old_rotated_logs system_min now ex (Ok entries) keep_days in
  (exists picked, map Ok picked `sublist_of` entries /\ removed = map entry_path picked /\
     Forall (fun e => stale cutoff e /\ remove_file e = Ok tt) picked) /\
  match ex, r with
  | Ok true, Ok _ => forall e, Ok e ∈ entries -> stale cutoff e ->
      (entry_path e ∈ removed /\ remove_file e = Ok tt) \/ remove_file e = Err NotFound
  | _, _ => True
  end.
Proof.
  intros cutoff. unfold cleanup_old_rotated_logs. rewrite cleanup_cutoff_retention.
  assert (exists picked : list DirEntry, map Ok picked `sublist_of` entries /\
    [] = map entry_path picked /\ Forall (fun e => stale cutoff e /\ remove_file e = Ok tt) picked) as Hnone.
  { exists []. split_and!; [apply sublist_nil_l|done..]. }
  destruct ex as [[]|]; [|done|done].
  pose proof (clean_entries_spec cutoff entries) as Hc. fold cutoff.
  by destruct (clean_entries cutoff entries) as [removed [[]|]].
Qed.
End retention.

(** ** Examples *)

(** An empty directory. *)
Definition sample_view : DirView := mkView 0 0 (Ok true) (Ok []).

Example jsonl_name : @daily_log_kind sample_calendar "otel-logger.2026-07-01" = Some Jsonl.
Proof. reflexivity. Qed.
Example pretty_name : @daily_log_kind sample_calendar "otel-logger.pretty.2026-07-01.log" = Some PrettyLog.
Proof. reflexivity. Qed.
Example bad_date_name : @daily_log_kind sample_calendar "otel-logger.2026-99-99" = None.
Proof. reflexivity. Qed.
Example other_name : @daily_log_kind sample_calendar "otel-logger.stderr.log" = None.
Proof. reflexivity. Qed.
