(* ===== verification/Sink.v ===== *)
(** * The sink ([src/src/sink.rs])

    A batch is persisted, then counted, then shown and forwarded; a batch that cannot be
    persisted is none of these.  Handlers run concurrently and shutdown waits for them before
    the last sync. *)

From Stdlib Require Import Strings.Byte.
From S2P Require Import Prelude Io Otlp AggState AggIngest AggBatch Storage Config Cli Channel Router Rotation Health Pretty.

Local Open Scope Z_scope.

(** ** Data *)

(** [TelemetryRecord::kind]. *)
Definition record_kind (r : batch) : string :=
  match r with BTraces _ => "traces" | BMetrics _ => "metrics" | BLogs _ => "logs" end.

Inductive JsonlWriter `{NaiveDates} :=
| FileWriter (t : TransactionalAppend string)
| Roller (w : RotatedWriter).

(** A destination of human-readable output: its queue and whether it is coloured. *)
Record PrettyDest := mkDest { dest_output : PrettyOutput; dest_color : bool }.

Record SinkInner `{NaiveDates} (C : Type) := mkSink {
  summary_enabled : bool;
  jsonl_health : WriteHealth;
  sink_file : option JsonlWriter;
  stdout : option PrettyDest;
  pretty_log : option PrettyDest;
  aggregator : AggregatorInner;
  proxy : option (ProxyRouter C);
}.
Arguments mkSink {_ C} _ _ _ _ _ _ _.
Arguments summary_enabled {_ C} _.
Arguments jsonl_health {_ C} _.
Arguments sink_file {_ C} _.
Arguments stdout {_ C} _.
Arguments pretty_log {_ C} _.
Arguments aggregator {_ C} _.
Arguments proxy {_ C} _.

Inductive RecordError :=
| SerializeError (kind : string)
| PersistError (kind : string) (e : ErrorKind)
| ShuttingDown.

(** What a write meets: today, the log directory should the day have changed, and the time after
    it. *)
Record WriteEnv `{NaiveDates} := mkEnv {
  today : NaiveDate;
  julian_day : Z;
  log_dir : DirView;
  instant : Z;
}.

Section sink.
Context `{World} `{NaiveDates} {C : Type} `{ChannelOps C ExportRequest}.
(** The JSON of a batch ([proto_json::to_vec]) and its text ([format::render]). *)
Context (to_vec : batch -> option (list byte)) (render : batch -> bool -> string).
Implicit Types (s : SinkInner C) (d : Disk) (r : batch).

(** ** Persisting *)

Definition cleanup_if_day_changed (env : WriteEnv) (w : RotatedWriter) (d : Disk)
    : Disk * RotatedWriter :=
  if last_cleanup_day w =? julian_day env then (d, w)
  else ((clean_up (log_dir env) (rw_keep_days w) d).1,
        mkRotated _ (roller w) (rw_dir w) (rw_keep_days w) (julian_day env)).

Definition write_line (env : WriteEnv) (w : JsonlWriter) (line : list byte) (d : Disk)
    : Disk * JsonlWriter * result unit ErrorKind :=
  match w with
  | FileWriter t => let '(d, t, r) := append t line d in (d, FileWriter t, r)
  | Roller w =>
      let '(d, w) := cleanup_if_day_changed env w d in
      let '(d, daily, r) := append_at (roller w) line (today env) d in
      let w := mkRotated _ daily (rw_dir w) (rw_keep_days w) (last_cleanup_day w) in
      match r with
      | Err e => (d, Roller w, Err e)
      | Ok _ => let '(d, r) := flush (file (dw_file daily)) d in (d, Roller w, r)
      end
  end.

(** [JsonlWriter::flush]. *)
Definition writer_sync (w : JsonlWriter) : io Disk unit :=
  match w with
  | FileWriter t => sync_all (file t)
  | Roller w => (flush (file (dw_file (roller w))) ;! daily_sync_all (roller w))%io
  end.

(** [drain_pretty_output]; [waits] is how the two waits of the drain end. *)
Definition drain_pretty_output (output : option PrettyDest) (waits : wait_end * wait_end)
    (deadline : Z) : option drained :=
  option_map (fun _ => drain waits.1 waits.2 deadline) output.

(** [flush]: the log is synced, then both outputs are drained to the same deadline whatever the
    sync gave; only the sync decides the result. *)
Definition sink_flush s (now : Z) (out_waits log_waits : wait_end * wait_end) d
    : Disk * result unit ErrorKind * (option drained * option drained) :=
  let '(d, jsonl) :=
    match sink_file s with Some w => writer_sync w d | None => (d, Ok tt) end in
  let deadline := now + PRETTY_FLUSH_TIMEOUT in
  (d, jsonl, (drain_pretty_output (stdout s) out_waits deadline,
              drain_pretty_output (pretty_log s) log_waits deadline)).

(** [write_jsonl]: the line is the JSON and a newline, written whole or reported as failed. *)
Definition write_jsonl (env : WriteEnv) (w : JsonlWriter) r d
    : Disk * JsonlWriter * result unit RecordError :=
  match to_vec r with
  | None => (d, w, Err (SerializeError (record_kind r)))
  | Some json =>
      let '(d, w, res) := write_line env w (json ++ [x0a]) d in
      (d, w, result_map_err (PersistError (record_kind r)) res)
  end.

Definition set_persisted s (h : WriteHealth) (w : JsonlWriter) : SinkInner C :=
  mkSink (summary_enabled s) h (Some w) (stdout s) (pretty_log s) (aggregator s) (proxy s).

(** The first part of [record_admitted]. *)
Definition persist (env : WriteEnv) r s d : SinkInner C * Disk * result unit RecordError :=
  match sink_file s with
  | None => (s, d, Ok tt)
  | Some w =>
      let '(d, w, res) := write_jsonl env w r d in
      let '(health, _) :=
        match res with
        | Ok _ => on_success (jsonl_health s) (instant env)
        | Err _ => on_failure (jsonl_health s) (instant env)
        end in
      (set_persisted s health w, d, res)
  end.

(** ** Counting, showing and forwarding *)

Definition count r s : SinkInner C * bool :=
  let '(g, hits) := ingest (aggregator s) r in
  (mkSink (summary_enabled s) (jsonl_health s) (sink_file s) (stdout s) (pretty_log s) g (proxy s),
   (0 <? hits)%nat && summary_enabled s).

(** One destination of [queue_pretty]; equal colours give equal texts. *)
Definition queue_dest r (want_summary : bool) (o : option PrettyDest) : option PrettyDest :=
  option_map (fun dest =>
    mkDest (enqueue (dest_output dest) (render r (dest_color dest)) want_summary).1
      (dest_color dest)) o.

Definition queue_pretty r (want_summary : bool) s : SinkInner C :=
  mkSink (summary_enabled s) (jsonl_health s) (sink_file s)
    (queue_dest r want_summary (stdout s)) (queue_dest r want_summary (pretty_log s))
    (aggregator s) (proxy s).

Definition forward r s : SinkInner C :=
  mkSink (summary_enabled s) (jsonl_health s) (sink_file s) (stdout s) (pretty_log s)
    (aggregator s) (option_map (fun router => notify router r) (proxy s)).

Definition publish r (want_summary : bool) s : SinkInner C := forward r (queue_pretty r want_summary s).

Definition record_admitted (env : WriteEnv) r s d : SinkInner C * Disk * result unit RecordError :=
  match persist env r s d with
  | (s, d, Err e) => (s, d, Err e)
  | (s, d, Ok _) =>
      let '(s, want_summary) := count r s in
      (publish r want_summary s, d, Ok tt)
  end.

(** [record_with_permit] run without interruption; [admitted] is the flag under the lock. *)
Definition record_with_permit (admitted : bool) (env : WriteEnv) r s d
    : SinkInner C * Disk * result unit RecordError :=
  if admitted then record_admitted env r s d else (s, d, Err ShuttingDown).

(** ** Requests and shutdown *)

(** Where the task of a request is; every stage holds the read side of the lock. *)
Inductive stage :=
| Writing (r : batch)
| Counting (r : batch)
| Publishing (r : batch) (want_summary : bool).

(** [admission] is the flag under the lock, [tasks] the holders of its read side; [persisted]
    and [counted] are histories. *)
Record server := mkServer {
  inner : SinkInner C;
  disk : Disk;
  admission : bool;
  tasks : gmap nat stage;
  persisted : list batch;
  counted : list batch;
}.

(** The writers of the outputs and the workers of the proxy change their own parts only. *)
Definition same_core s s' : Prop :=
  summary_enabled s' = summary_enabled s /\ jsonl_health s' = jsonl_health s /\
  sink_file s' = sink_file s /\ aggregator s' = aggregator s.

Inductive step : server -> server -> Prop :=
(** [record_with_permit]: the read side is taken and the flag is still up. *)
| step_begin x t r :
    tasks x !! t = None -> admission x = true ->
    step x (mkServer (inner x) (disk x) (admission x) (<[t := Writing r]> (tasks x))
      (persisted x) (counted x))
| step_persist x t r env s d :
    tasks x !! t = Some (Writing r) -> persist env r (inner x) (disk x) = (s, d, Ok tt) ->
    step x (mkServer s d (admission x) (<[t := Counting r]> (tasks x))
      (persisted x ++ [r]) (counted x))
| step_persist_failed x t r env s d e :
    tasks x !! t = Some (Writing r) -> persist env r (inner x) (disk x) = (s, d, Err e) ->
    step x (mkServer s d (admission x) (delete t (tasks x)) (persisted x) (counted x))
| step_count x t r s want_summary :
    tasks x !! t = Some (Counting r) -> count r (inner x) = (s, want_summary) ->
    step x (mkServer s (disk x) (admission x) (<[t := Publishing r want_summary]> (tasks x))
      (persisted x) (counted x ++ [r]))
| step_publish x t r want_summary :
    tasks x !! t = Some (Publishing r want_summary) ->
    step x (mkServer (publish r want_summary (inner x)) (disk x) (admission x)
      (delete t (tasks x)) (persisted x) (counted x))
| step_others x s :
    same_core (inner x) s ->
    step x (mkServer s (disk x) (admission x) (tasks x) (persisted x) (counted x))
(** [shutdown] gets the write side once no task holds the read side. *)
| step_shutdown x :
    tasks x = ∅ ->
    step x (mkServer (inner x) (disk x) false (tasks x) (persisted x) (counted x))
(** [flush] under the write side, whatever it gives. *)
| step_flush x now out_waits log_waits d res drains :
    admission x = false -> sink_flush (inner x) now out_waits log_waits (disk x) = (d, res, drains) ->
    step x (mkServer (inner x) d (admission x) (tasks x) (persisted x) (counted x)).

Definition started s d : server := mkServer s d true ∅ [] [].

Definition reachable s d : server -> Prop := rtc step (started s d).

(** ** Specification *)

(** The file the log is written to. *)
Definition log_handle (w : JsonlWriter) : string :=
  match w with FileWriter t => file t | Roller w => file (dw_file (roller w)) end.

Definition line_of r : list byte := from_option (fun json => json ++ [x0a]) [] (to_vec r).

(** The batches that are persisted and not yet counted. *)
Definition to_count (st : stage) : option batch :=
  match st with Counting r => Some r | _ => None end.
Definition uncounted (m : gmap nat stage) : list batch :=
  map_collect to_count m.

Record ServerInv (s0 : SinkInner C) (d0 : Disk) (x : server) : Prop := {
  inv_aggregator : aggregator (inner x) = ingest_all (aggregator s0) (counted x);
  inv_counted : persisted x ≡ₚ counted x ++ uncounted (tasks x);
  inv_idle : admission x = false -> tasks x = ∅;
  inv_log : forall t0, sink_file s0 = Some (FileWriter t0) ->
    exists t, sink_file (inner x) = Some (FileWriter t) /\ file t = file t0 /\
      rollback_ok contents t (disk x) /\
      logical contents t (disk x) =
        logical contents t0 d0 ++ concat (map line_of (persisted x));
}.
End sink.

(** * Lemmas *)

Lemma uncounted_delete m t st :
  m !! t = Some st -> uncounted m ≡ₚ option_list (to_count st) ++ uncounted (delete t m).
Proof. intros E. rewrite <-(map_part_Some to_count _ _ _ E). apply map_collect_delete. Qed.

Lemma uncounted_move m t st st' :
  m !! t = Some st ->
  option_list (to_count st) ++ uncounted (<[t := st']> m) ≡ₚ option_list (to_count st') ++ uncounted m.
Proof. intros E. rewrite <-(map_part_Some to_count _ _ _ E). apply map_collect_insert. Qed.

Lemma sync_all_files h d : files (sync_all h d).1 = files d.
Proof.
  unfold sync_all.
  match goal with |- context [with_fault ?p ?f ?d] => fault_cases (with_fault p f d) end; done.
Qed.

Lemma flush_files h d : files (flush h d).1 = files d.
Proof.
  unfold flush.
  match goal with |- context [with_fault ?p ?f ?d] => fault_cases (with_fault p f d) end; done.
Qed.

Section sink_lemmas.
Context `{World} `{NaiveDates} {C : Type} `{ChannelOps C ExportRequest}.
Context (to_vec : batch -> option (list byte)) (render : batch -> bool -> string).
Implicit Types (s : SinkInner C) (d : Disk) (r : batch).

Lemma writer_sync_files w d : files (writer_sync w d).1 = files d.
Proof.
  destruct w as [t|w]; simpl; [apply sync_all_files|].
  unfold io_bind. pose proof (flush_files (file (dw_file (roller w))) d) as Hf.
  destruct (flush _ d) as [d1 [[]|e]]; simpl in *; [|done].
  unfold daily_sync_all. by rewrite sync_all_files.
Qed.

(** Persisting touches the health, the writer and the disk only. *)
Lemma sink_flush_files s now w1 w2 d : files (sink_flush s now w1 w2 d).1.1 = files d.
Proof.
  unfold sink_flush. destruct (sink_file s) as [w|]; [|done].
  pose proof (writer_sync_files w d) as H'. by destruct (writer_sync w d).
Qed.

Lemma persist_core env r s d :
  let '(s', _, _) := persist to_vec env r s d in
  aggregator s' = aggregator s /\ stdout s' = stdout s /\ pretty_log s' = pretty_log s /\
  proxy s' = proxy s /\ summary_enabled s' = summary_enabled s.
Proof.
  unfold persist. destruct (sink_file s) as [w|]; [|done].
  destruct (write_jsonl to_vec env w r d) as [[d' w'] res].
  by destruct (match res with Ok _ => _ | Err _ => _ end).
Qed.

(** An append-only log gains exactly the line of a persisted batch. *)
Lemma persist_log env r s d t :
  sink_file s = Some (FileWriter t) -> rollback_ok contents t d ->
  let '(s', d', res) := persist to_vec env r s d in
  exists t', sink_file s' = Some (FileWriter t') /\ file t' = file t /\
    rollback_ok contents t' d' /\
    logical contents t' d' =
      logical contents t d ++ (if is_ok res then line_of to_vec r else []).
Proof.
  intros Ef Hok. unfold persist. rewrite Ef. unfold write_jsonl, line_of.
  destruct (to_vec r) as [json|]; simpl.
  - pose proof (append_spec contents t (json ++ [x0a]) d Hok) as Ha.
    destruct (append t (json ++ [x0a]) d) as [[d' t'] res]. destruct Ha as (Eh & Hok' & El).
    destruct (match result_map_err _ res with Ok _ => _ | Err _ => _ end) as [h ?].
    exists t'. split_and!; [done..|]. rewrite El. by destruct res.
  - destruct (on_failure _ _). exists t. split_and!; [done..|]. by rewrite app_nil_r.
Qed.

Lemma count_core r s :
  let '(s', _) := count r s in
  aggregator s' = (ingest (aggregator s) r).1 /\ sink_file s' = sink_file s.
Proof. unfold count. by destruct (ingest (aggregator s) r). Qed.

Lemma publish_core r ws s :
  aggregator (publish render r ws s) = aggregator s /\ sink_file (publish render r ws s) = sink_file s.
Proof. done. Qed.

(** What recording does to the parts of the sink besides its writer. *)
Lemma record_admitted_parts env r s d :
  let '(s', d', res) := record_admitted to_vec render env r s d in
  match res with
  | Err _ =>
      aggregator s' = aggregator s /\ stdout s' = stdout s /\ pretty_log s' = pretty_log s /\
      proxy s' = proxy s
  | Ok _ =>
      let '(g, hits) := ingest (aggregator s) r in
      let want_summary := (0 <? hits)%nat && summary_enabled s in
      aggregator s' = g /\ stdout s' = queue_dest render r want_summary (stdout s) /\
      pretty_log s' = queue_dest render r want_summary (pretty_log s) /\
      proxy s' = option_map (fun router => notify router r) (proxy s)
  end.
Proof.
  unfold record_admitted. pose proof (persist_core env r s d) as Hcore.
  destruct (persist to_vec env r s d) as [[s1 d1] [[]|e]]; destruct Hcore as (E1 & E2 & E3 & E4 & E5);
    [|by split_and!].
  unfold count. rewrite E1. destruct (ingest (aggregator s) r) as [g hits]. simpl.
  by rewrite E2, E3, E4, E5.
Qed.

Lemma started_inv s d :
  (forall t, sink_file s = Some (FileWriter t) -> rollback_ok contents t d) ->
  ServerInv to_vec s d (started s d).
Proof.
  intros Hok. split; simpl; try done.
  intros t0 E. exists t0. split_and!; [done..|by apply Hok|by rewrite app_nil_r].
Qed.

Lemma sink_step_inv s0 d0 x x' :
  ServerInv to_vec s0 d0 x -> step to_vec render x x' -> ServerInv to_vec s0 d0 x'.
Proof.
  intros [Ha Hc Hi Hl] Hstep.
  destruct Hstep as [x t r E Hadm|x t r env s d E Ep|x t r env s d e E Ep|x t r s ws E Ec
    |x t r ws E|x s Hs|x E|x now w1 w2 d res drains Hadm Es].
  - split; simpl; try done; [|by intros [=]; congruence].
    unfold uncounted. by rewrite map_collect_insert_None.
  - pose proof (persist_core env r (inner x) (disk x)) as Hcore.
    rewrite Ep in Hcore. destruct Hcore as (Hag & _). split; simpl.
    + by rewrite Hag.
    + pose proof (uncounted_move (tasks x) t _ (Counting r) E) as Hm. simpl in Hm.
      rewrite Hm, Hc. rewrite <-app_assoc. f_equiv. apply Permutation_app_comm.
    + intros Hadm. rewrite (Hi Hadm) in E. by rewrite lookup_empty in E.
    + intros t0 E0. destruct (Hl t0 E0) as (t1 & E1 & Eh & Hok & El).
      pose proof (persist_log env r _ _ t1 E1 Hok) as Hp. rewrite Ep in Hp.
      destruct Hp as (t' & E' & Eh' & Hok' & El'). exists t'.
      split_and!; [done|by rewrite Eh'|done|]. rewrite El', El, map_app, concat_app, <-app_assoc.
      simpl. by rewrite app_nil_r.
  - pose proof (persist_core env r (inner x) (disk x)) as Hcore.
    rewrite Ep in Hcore. destruct Hcore as (Hag & _). split; simpl.
    + by rewrite Hag.
    + rewrite Hc. by rewrite (uncounted_delete _ _ _ E).
    + intros Hadm. rewrite (Hi Hadm) in E. by rewrite lookup_empty in E.
    + intros t0 E0. destruct (Hl t0 E0) as (t1 & E1 & Eh & Hok & El).
      pose proof (persist_log env r _ _ t1 E1 Hok) as Hp. rewrite Ep in Hp.
      destruct Hp as (t' & E' & Eh' & Hok' & El'). exists t'.
      split_and!; [done|by rewrite Eh'|done|]. by rewrite El', El, app_nil_r.
  - pose proof (count_core r (inner x)) as Hcore. rewrite Ec in Hcore. destruct Hcore as (Hag & Hf).
    split; simpl.
    + rewrite Hag, Ha. unfold ingest_all. by rewrite for_each_app.
    + rewrite Hc. pose proof (uncounted_move (tasks x) t _ (Publishing r ws) E) as Hm. simpl in Hm.
      by rewrite <-Hm, <-app_assoc.
    + intros Hadm. rewrite (Hi Hadm) in E. by rewrite lookup_empty in E.
    + intros t0 E0. rewrite Hf. by apply Hl.
  - split; simpl.
    + done.
    + rewrite Hc. by rewrite (uncounted_delete _ _ _ E).
    + intros Hadm. rewrite (Hi Hadm) in E. by rewrite lookup_empty in E.
    + done.
  - destruct Hs as (_ & _ & Hf & Hag). split; simpl; [by rewrite Hag|done|done|].
    intros t0 E0. rewrite Hf. by apply Hl.
  - by split.
  - split; simpl; try done. intros t0 E0. destruct (Hl t0 E0) as (t1 & E1 & Eh & Hok & El).
    exists t1. pose proof (sink_flush_files (inner x) now w1 w2 (disk x)) as Hf. rewrite Es in Hf. simpl in Hf.
    assert (forall h, contents d h = contents (disk x) h) as Hcon by (intros; unfold contents; by rewrite Hf).
    split_and!; [done..| |].
    + intros n En. rewrite Hcon. by apply Hok.
    + rewrite <-El. unfold logical. by rewrite Hcon.
Qed.

Lemma server_reachable_inv s0 d0 x :
  (forall t, sink_file s0 = Some (FileWriter t) -> rollback_ok contents t d0) ->
  reachable to_vec render s0 d0 x -> ServerInv to_vec s0 d0 x.
Proof.
  intros Hok Hr. pose proof (started_inv s0 d0 Hok) as Hs0.
  assert (forall y, ServerInv to_vec s0 d0 y -> rtc (step to_vec render) y x -> ServerInv to_vec s0 d0 x)
    as Hind.
  { clear Hr Hs0. intros y Hy Hr. induction Hr as [|y1 y2 y3 H12 H23 IH]; [done|].
    apply IH. by eapply sink_step_inv. }
  by apply (Hind _ Hs0).
Qed.
End sink_lemmas.

(** * Properties *)

Section sink_properties.
Context `{World} `{NaiveDates} {C : Type} `{ChannelOps C ExportRequest}.
Context (to_vec : batch -> option (list byte)) (render : batch -> bool -> string).

(** C17. Shutdown overtakes nothing: once it has the lock no handler is at work, every persisted
    batch has been counted, and from then on no step persists, counts or changes a byte of any
    file, so that the final sync covers all that was acknowledged. *)
Theorem shutdown_overtakes_nothing (s0 : SinkInner C) d0 x :
  (forall t, sink_file s0 = Some (FileWriter t) -> rollback_ok contents t d0) ->
  reachable to_vec render s0 d0 x -> admission x = false ->
  tasks x = ∅ /\ persisted x ≡ₚ counted x /\
  (forall y, rtc (step to_vec render) x y ->
     persisted y = persisted x /\ counted y = counted x /\ files (disk y) = files (disk x) /\
     aggregator (inner y) = aggregator (inner x) /\ tasks y = ∅).
Proof.
  intros Hok Hr Hadm. destruct (server_reachable_inv to_vec render s0 d0 x Hok Hr) as [_ Hc Hi _].
  pose proof (Hi Hadm) as Et. split_and!; [done| |].
  { rewrite Hc, Et. unfold uncounted. by rewrite map_collect_empty, app_nil_r. }
  assert (forall y z, step to_vec render y z -> tasks y = ∅ -> admission y = false ->
    persisted z = persisted y /\ counted z = counted y /\ files (disk z) = files (disk y) /\
    aggregator (inner z) = aggregator (inner y) /\ tasks z = ∅ /\ admission z = false) as Hstep.
  { intros y z Hyz Ey Ay.
    destruct Hyz as [y t r E Hy|y t r env s d E _|y t r env s d e E _|y t r s ws E _|y t r ws E|y s Hs
      |y E|y now w1 w2 d res drains Hy Es]; try (rewrite Ey in E; by rewrite lookup_empty in E); try congruence.
    - destruct Hs as (_ & _ & _ & Hag). simpl. by rewrite Hag.
    - done.
    - pose proof (sink_flush_files (inner y) now w1 w2 (disk y)) as Hf. rewrite Es in Hf. by split_and!. }
  clear Hr Hc Hi. intros y Hy.
  induction Hy as [x|x y z Hxy Hyz IH]; [done|].
  destruct (Hstep x y Hxy Et Hadm) as (E1 & E2 & E3 & E4 & E5 & E6).
  destruct (IH E6 E5) as (? & ? & ? & ? & ?). split_and!; congruence.
Qed.
End sink_properties.

(** ** A sink to evaluate examples with *)

Definition sample_to_vec (r : batch) : option (list byte) :=
  match r with BTraces _ => None | _ => Some [x7b; x7d] end.
Definition sample_sink : SinkInner (H := sample_dates) (list_channel ExportRequest) :=
  mkSink true health_default (Some (FileWriter (H := sample_dates) (mkAppend "log" None))) None None
    (@aggregator_new sample_world) None.
(** The log has been opened. *)
Definition sample_disk : Disk := mkDisk {["log"%string := [x61; x0a]]} 2 ∅ [] sample_perms.
Definition sample_logs : batch := BLogs {| resource_logs := [] |}.
Definition sample_env : WriteEnv (H := sample_dates) := @mkEnv sample_dates "2026-07-01"%string 0 sample_view 7.

Lemma sample_sink_ok :
  forall t, sink_file sample_sink = Some (FileWriter t) -> rollback_ok contents t sample_disk.
Proof. intros t [= <-] n [=]. Qed.

Definition sample_render (_ : batch) (_ : bool) : string := "text".

#[local] Existing Instance sample_world.
#[local] Existing Instance sample_dates.

Definition sample_reachable_state : server -> Prop :=
  reachable (C := list_channel ExportRequest) sample_to_vec sample_render sample_sink sample_disk.

(** A batch is persisted and counted, then the sink is shut down. *)
Lemma sample_sink_reachable :
  exists x, sample_reachable_state x /\
    admission x = false /\ persisted x = [sample_logs] /\ counted x = [sample_logs] /\
    contents (disk x) "log" = [x61; x0a; x7b; x7d; x0a].
Proof.
  eexists. split.
  { eapply rtc_l; [apply (step_begin _ _ _ 0%nat sample_logs); reflexivity|].
    eapply rtc_l; [eapply (step_persist _ _ _ 0%nat sample_logs sample_env); reflexivity|].
    eapply rtc_l; [eapply (step_count _ _ _ 0%nat sample_logs); reflexivity|].
    eapply rtc_l; [eapply (step_publish _ _ _ 0%nat sample_logs); reflexivity|].
    eapply rtc_l; [apply step_shutdown; reflexivity|]. apply rtc_refl. }
  by split_and!.
Qed.

Lemma shutdown_overtakes_nothing_witness :
  exists x, sample_reachable_state x /\ tasks x = ∅ /\ persisted x ≡ₚ counted x.
Proof.
  destruct sample_sink_reachable as (x & Hr & Ha & _). exists x. split; [exact Hr|].
  destruct (shutdown_overtakes_nothing _ _ _ _ _ sample_sink_ok Hr Ha) as (H1 & H2 & _).
  split; [exact H1|exact H2].
Defined.

(** Traces cannot be serialized here. *)
Definition sample_traces : batch := BTraces {| resource_spans := [] |}.
