(* ===== verification/DailyLog.v ===== *)
(** * The log in daily files

    The log of a service is a directory with one file per day ([RotatedWriter] of [Rotation.v]).
    The sink and its flushes are a sequence of operations on the writer and the disk
    ([log_run]); over any such sequence, with any faults, dates and removals of old files, a
    day's file holds what it held and whole lines, among them those of every batch acknowledged
    on that day, and a file that was left is synced. *)

From Stdlib Require Import Strings.Byte.
From S2P Require Import Prelude Io Otlp AggState AggIngest AggBatch Storage Health Pretty Config Cli Channel Router Rotation Sink.

Local Open Scope Z_scope.

(** ** What happens to a log *)

Inductive log_op `{NaiveDates} :=
| WriteOp (env : WriteEnv) (r : batch)
| SyncOp.

Section log.
Context `{NaiveDates} (to_vec : batch -> option (list byte)).
Implicit Types (op : log_op) (w : JsonlWriter) (d : Disk).

(** The acknowledged batches, each with the day of its write. *)
Definition log_step op w d : JsonlWriter * Disk * list (NaiveDate * batch) :=
  match op with
  | WriteOp env r =>
      let '(d, w, res) := write_jsonl to_vec env w r d in
      (w, d, if is_ok res then [(today env, r)] else [])
  | SyncOp => (w, (writer_sync w d).1, [])
  end.

Fixpoint log_run (ops : list log_op) w d : JsonlWriter * Disk * list (NaiveDate * batch) :=
  match ops with
  | [] => (w, d, [])
  | op :: ops =>
      let '(w, d, acks) := log_step op w d in
      let '(w, d, later) := log_run ops w d in
      (w, d, acks ++ later)
  end.

(** ** Specification *)

(** A file is younger than the retention period whenever the directory is cleaned up. *)
Definition young (view : DirView) (keep_days : Z) (path : string) : Prop :=
  forall entries e, dir_listing view = Ok entries -> Ok e ∈ entries -> entry_path e = path ->
    ~ stale (retention_start (system_min view) (system_now view) keep_days) e.
Definition stays_young (keep_days : Z) (path : string) (ops : list log_op) : Prop :=
  Forall (fun op => match op with WriteOp env _ => young (log_dir env) keep_days path | SyncOp => True end) ops.

Definition day_path (w : DailyWriter) (date : NaiveDate) : string :=
  daily_path (dw_dir w) (dw_prefix w) (dw_suffix w) date.

(** What was acknowledged on a day. *)
Definition on_day (date : NaiveDate) (acks : list (NaiveDate * batch)) : list batch :=
  omap (fun a => if decide (a.1 = date) then Some a.2 else None) acks.

(** What was offered to be written on it. *)
Definition offered (date : NaiveDate) (ops : list log_op) : list batch :=
  omap (fun op => match op with
    | WriteOp env r => if decide (today env = date) then Some r else None
    | SyncOp => None
    end) ops.

(** The append of a line to the file of its day goes well; the flush after it may not. *)
Definition dir_appended (env : WriteEnv) (rw : RotatedWriter) (r : batch) d : bool :=
  match to_vec r with
  | None => false
  | Some json =>
      let '(d, rw) := cleanup_if_day_changed env rw d in
      is_ok (append_at (roller rw) (json ++ [x0a]) (today env) d).2
  end.

(** What a log holds for a day: one file holds every day, a directory one file for each, and
    what is past the last whole line of a file that is not open does not count. *)
Definition log_content (log : option JsonlWriter) d (date : NaiveDate) : list byte :=
  match log with
  | None => []
  | Some (FileWriter t) => logical contents t d
  | Some (Roller rw) =>
      if decide (dw_date (roller rw) = date) then logical contents (dw_file (roller rw)) d
      else complete_lines (contents d (day_path (roller rw) date))
  end.

(** A line written on a day belongs to the file of that day, or to the only one. *)
Definition line_on (log : option JsonlWriter) (day date : NaiveDate) (line : list byte) : list byte :=
  match log with
  | None => []
  | Some (FileWriter _) => line
  | Some (Roller _) => if decide (day = date) then line else []
  end.

(** The flush after an append to the directory failed: the line is there, the batch is refused. *)
Definition unflushed (env : WriteEnv) (log : option JsonlWriter) (r : batch) d : bool :=
  match log with Some (Roller rw) => dir_appended env rw r d | _ => false end.

(** The cleanup a write begins with spares the file of a day. *)
Definition log_young (log : option JsonlWriter) (view : DirView) (date : NaiveDate) : Prop :=
  match log with
  | Some (Roller rw) => young view (rw_keep_days rw) (day_path (roller rw) date)
  | _ => True
  end.

(** The file of a day: open, its logical content is [base] and the lines of [bs]; otherwise it
    may end in a torn line only if nothing was written since, and is synced if something was. *)
Definition day_holds (date : NaiveDate) (base : list byte) (bs : list batch) (w : DailyWriter) d : Prop :=
  if decide (dw_date w = date) then
    rollback_ok contents (dw_file w) d /\
    logical contents (dw_file w) d = base ++ concat (map (line_of to_vec) bs)
  else
    let path := day_path w date in
    complete_lines (contents d path) = base ++ concat (map (line_of to_vec) bs) /\
    (bs <> [] -> complete_lines (contents d path) = contents d path /\
                 synced d !! path = Some (contents d path)).
End log.

(** * Lemmas *)

(** ** Whole lines *)

Definition whole_lines (bs : list byte) : Prop := complete_lines bs = bs.

Lemma complete_lines_whole bs : whole_lines (complete_lines bs).
Proof.
  unfold whole_lines. induction bs as [|b bs IH]; [done|]. simpl.
  destruct (complete_lines bs) as [|c kept] eqn:E.
  - destruct (Byte.eqb b Storage.newline) eqn:Eb; [|done]. simpl. by rewrite Eb.
  - cbn [complete_lines] in *. by rewrite IH.
Qed.

Lemma whole_app a b : whole_lines a -> whole_lines b -> whole_lines (a ++ b).
Proof.
  unfold whole_lines. intros Ha Hb. rewrite complete_lines_app. rewrite rposition_complete in Hb.
  destruct (rposition b) as [i|]; [by rewrite Hb|]. by rewrite <- Hb, app_nil_r.
Qed.

Lemma line_whole to_vec r : whole_lines (line_of to_vec r).
Proof.
  unfold line_of. destruct (to_vec r) as [json|]; [|done]. unfold whole_lines. simpl.
  by rewrite complete_lines_app.
Qed.

Lemma lines_whole to_vec bs : whole_lines (concat (map (line_of to_vec) bs)).
Proof. induction bs as [|r bs IH]; [done|]. apply whole_app; [apply line_whole|done]. Qed.

(** A log as it is opened and as writes leave it: a failed write left whole lines and bytes to
    drop, and a directory holds the file of its date. *)
Definition holds_day `{NaiveDates} (w : DailyWriter) : Prop := file (dw_file w) = day_path w (dw_date w).
Definition log_sound `{NaiveDates} (log : option JsonlWriter) (d : Disk) : Prop :=
  match log with
  | None => True
  | Some (FileWriter t) => rollback_ok contents t d
  | Some (Roller rw) =>
      holds_day (roller rw) /\ dw_sync_on_rotate (roller rw) = true /\
      rollback_ok contents (dw_file (roller rw)) d /\ whole_lines (logical contents (dw_file (roller rw)) d)
  end.

(** What a change of day or a write leaves of a daily writer, and of a log. *)
Definition same_log `{NaiveDates} (w w' : DailyWriter) : Prop :=
  dw_dir w' = dw_dir w /\ dw_prefix w' = dw_prefix w /\ dw_suffix w' = dw_suffix w /\
  dw_sync_on_rotate w' = dw_sync_on_rotate w.
Definition same_target `{NaiveDates} (log log' : option JsonlWriter) : Prop :=
  match log, log' with
  | None, None => True
  | Some (FileWriter t), Some (FileWriter t') => file t' = file t
  | Some (Roller rw), Some (Roller rw') =>
      same_log (roller rw) (roller rw') /\ rw_keep_days rw' = rw_keep_days rw
  | _, _ => False
  end.

(** ** What is not synced stays as it was synced *)

Definition keeps_synced {A} (m : io Disk A) : Prop := forall d, synced (m d).1 = synced d.

Lemma keeps_synced_bind {A B} (m : io Disk A) (k : A -> io Disk B) :
  keeps_synced m -> (forall a, keeps_synced (k a)) -> keeps_synced (let! x := m in k x)%io.
Proof.
  intros Hm Hk d. unfold io_bind. specialize (Hm d). destruct (m d) as [d' [a|e]]; simpl in *; [|done].
  by rewrite Hk.
Qed.

Lemma with_fault_synced {A} (partial : nat -> Disk -> Disk) (op : Disk -> Disk * result A ErrorKind) :
  (forall d, synced (op d).1 = synced d) -> (forall n d, synced (partial n d) = synced d) ->
  keeps_synced (with_fault partial op).
Proof.
  intros Hop Hp d. unfold with_fault. destruct (faults d) as [|[n|] rest]; simpl; rewrite ?Hop, ?Hp; done.
Qed.

Lemma truncate_synced h n : keeps_synced (truncate h n).
Proof.
  apply keeps_synced_bind; [by apply with_fault_synced|]. intros _. by apply with_fault_synced.
Qed.

Lemma repair_synced (t : TransactionalAppend string) (d : Disk) : synced (repair t d).1.1 = synced d.
Proof.
  unfold repair. destruct (rollback t) as [n|]; [|done]. pose proof (truncate_synced (file t) n d) as Ht.
  by destruct (truncate (file t) n d) as [d' []].
Qed.

Lemma append_synced (t : TransactionalAppend string) bs (d : Disk) : synced (append t bs d).1.1 = synced d.
Proof.
  unfold append. pose proof (repair_synced t d) as H1.
  destruct (repair t d) as [[d1 t1] [[]|e]]; simpl in *; [|done].
  assert (keeps_synced (metadata_len (file t1))) as Hm by by apply with_fault_synced.
  specialize (Hm d1). destruct (metadata_len (file t1) d1) as [d2 [start|e]]; simpl in *; [|by rewrite Hm].
  assert (keeps_synced (write_all (file t1) bs ;! flush (file t1))%io) as Hw.
  { apply keeps_synced_bind; [by apply with_fault_synced|]. intros _. by apply with_fault_synced. }
  specialize (Hw d2). destruct ((write_all (file t1) bs ;! flush (file t1))%io d2) as [d3 [[]|e]];
    simpl in *; [by rewrite Hw, Hm|].
  pose proof (truncate_synced (file t1) start d3) as Ht. simpl in Ht.
  destruct ((set_len (file t1) start ;! seek_start (file t1) start)%io d3) as [d4 []]; simpl in *; congruence.
Qed.

Lemma append_file (t : TransactionalAppend string) bs (d : Disk) : file (append t bs d).1.2 = file t.
Proof.
  unfold append. pose proof (repair_file t d) as Hf.
  destruct (repair t d) as [[d1 t1] [[]|e]]; simpl in *; [|done]. by repeat case_match.
Qed.

Lemma find_valid_len_synced h fuel e : keeps_synced (find_valid_len h fuel e).
Proof.
  revert e. induction fuel as [|fuel IH]; intros e; simpl; [by intros d|].
  destruct (e =? 0); [by intros d|].
  apply keeps_synced_bind; [by apply with_fault_synced|]. intros _.
  apply keeps_synced_bind; [|intros buf; by destruct (rposition buf)].
  apply with_fault_synced; [|done]. intros d. simpl. by case_match.
Qed.

Lemma append_file_open_synced path : keeps_synced (append_file_open path).
Proof.
  apply keeps_synced_bind.
  - apply with_fault_synced; [|done]. intros d. simpl. by repeat case_match.
  - intros h. apply keeps_synced_bind; [|by intros _ d].
    apply keeps_synced_bind; [by apply with_fault_synced|]. intros len.
    apply keeps_synced_bind; [apply find_valid_len_synced|]. intros n.
    case_match; [apply truncate_synced|by intros d].
Qed.

Lemma flush_synced h : keeps_synced (flush h).
Proof. by apply with_fault_synced. Qed.

Lemma sync_all_other h p (d : Disk) : p <> h -> synced (sync_all h d).1 !! p = synced d !! p.
Proof.
  intros Hp. unfold sync_all.
  match goal with |- context [with_fault ?p ?f ?d] => fault_cases (with_fault p f d) end; simpl; [|done].
  by rewrite lookup_insert_ne.
Qed.

Lemma sync_all_this h (d d' : Disk) : sync_all h d = (d', Ok tt) -> synced d' !! h = Some (contents d' h).
Proof.
  unfold sync_all.
  match goal with |- context [with_fault ?p ?f ?d] => fault_cases (with_fault p f d) end;
    intros Ef; simplify_eq/=. by rewrite lookup_insert_eq.
Qed.

(** ** What is young stays *)

Lemma clean_up_spares `{NaiveDates} view keep_days d path :
  young view keep_days path ->
  contents (clean_up view keep_days d).1 path = contents d path /\
  synced (clean_up view keep_days d).1 = synced d.
Proof.
  intros Hy. unfold clean_up, cleanup_old_rotated_logs. rewrite cleanup_cutoff_retention.
  assert (forall gone : list string, path ∉ gone -> contents (remove_files gone d) path =
    contents d path) as Hc.
  { intros gone Hg. unfold contents. simpl. rewrite map_lookup_filter.
    destruct (files d !! path) as [l|]; [|done]. simpl. by case_guard. }
  destruct (dir_exists view) as [[]|]; [|split; [apply Hc, not_elem_of_nil|done]..].
  destruct (dir_listing view) as [entries|] eqn:El; [|split; [apply Hc, not_elem_of_nil|done]].
  pose proof (clean_entries_spec (retention_start (system_min view) (system_now view) keep_days) entries) as Hs.
  destruct (clean_entries _ entries) as [gone r]. destruct Hs as [(picked & Hsub & -> & Hpicked) _].
  split; [|done]. apply Hc. intros (e & -> & Hin)%list_elem_of_fmap.
  apply (Hy entries e El); [|done|by eapply Forall_forall in Hpicked as [? _]].
  eapply elem_of_sublist; [|exact Hsub]. by apply list_elem_of_fmap_2.
Qed.

(** ** One write to a daily log *)

Section daily.
Context `{NaiveDatesLaws} (to_vec : batch -> option (list byte)).
Implicit Types (w : DailyWriter) (d : Disk).

#[local] Abbreviation lines := (fun bs => concat (map (line_of to_vec) bs)).

Lemma day_path_inj w date date' : day_path w date = day_path w date' -> date = date'.
Proof. apply daily_path_inj. Qed.

Lemma sync_frame (b : bool) h d p :
  p <> h ->
  let d' := ((if b then sync_all h else io_ret tt) d).1 in
  contents d' p = contents d p /\ synced d' !! p = synced d !! p.
Proof.
  intros Hp. destruct b; [|done]. split; [|by apply sync_all_other].
  unfold contents. by rewrite sync_all_files.
Qed.

#[local] Instance same_log_trans : Transitive same_log.
Proof. intros w1 w2 w3 (?&?&?&?) (?&?&?&?). unfold same_log. split_and!; congruence. Qed.

Lemma same_log_path w w' date : same_log w w' -> day_path w' date = day_path w date.
Proof. unfold day_path. by intros (-> & -> & -> & _). Qed.

Lemma other_day w date : holds_day w -> dw_date w <> date -> day_path w date <> file (dw_file w).
Proof. intros -> Hne E%day_path_inj. by symmetry in E. Qed.

(** A change of day: the new file is opened and loses its torn line, or the old one is kept; the
    files of other days stay as they are. *)
Lemma rotate_frame w date d :
  holds_day w -> dw_date w <> date ->
  let '(d', w', r) := rotate w date d in
  same_log w w' /\ holds_day w' /\
  (forall p, p <> file (dw_file w) ->
     synced d' !! p = synced d !! p /\
     (contents d' p = contents d p \/ p = day_path w date /\ contents d' p = complete_lines (contents d p))) /\
  match r with
  | Ok _ =>
      dw_date w' = date /\ rollback (dw_file w') = None /\
      contents d' (day_path w date) = complete_lines (contents d (day_path w date))
  | Err _ => dw_date w' = dw_date w
  end.
Proof.
  intros Hw Hne. pose proof (other_day w date Hw Hne) as Hpath. unfold rotate.
  pose proof (repair_touches (dw_file w) d) as R1. pose proof (repair_synced (dw_file w) d) as R2.
  pose proof (repair_file (dw_file w) d) as R3.
  destruct (repair (dw_file w) d) as [[d1 f] [[]|e]]; cbn [fst snd] in *; cycle 1.
  { split_and!; [done|by unfold holds_day; simpl; rewrite R3| |done]. intros p Hp. rewrite R1, R2; auto. }
  cbn [set_dw_file dw_sync_on_rotate dw_dir dw_prefix dw_suffix dw_file]. unfold daily_sync_all. simpl.
  assert (holds_day (set_dw_file w f)) as Hf by (by unfold holds_day; simpl; rewrite R3).
  pose proof (fun p Hp => sync_frame (dw_sync_on_rotate w) (file f) d1 p Hp) as S.
  destruct ((if dw_sync_on_rotate w then sync_all (file f) else io_ret tt) d1) as [d2 [[]|e]];
    cbn [fst] in *; rewrite R3 in S; cycle 1.
  { split_and!; [done|done| |done]. intros p Hp. destruct (S p Hp) as [-> ->]. rewrite R1, R2; auto. }
  change (daily_path (dw_dir w) (dw_prefix w) (dw_suffix w) date) with (day_path w date).
  pose proof (append_file_open_spec (day_path w date) d2) as Ho.
  pose proof (append_file_open_synced (day_path w date) d2) as Os.
  assert (forall p, p <> file (dw_file w) -> contents d2 p = contents d p /\ synced d2 !! p = synced d !! p) as E2.
  { intros p Hp. destruct (S p Hp) as [-> ->]. by rewrite R1, R2. }
  clear S R1 R2. destruct (append_file_open (day_path w date) d2) as [d3 r]. cbn [fst] in *.
  destruct Ho as (Hoth & Hthis & Hres). rewrite <- Os in E2.
  assert (forall p, p <> file (dw_file w) -> synced d3 !! p = synced d !! p /\
    (contents d3 p = contents d p \/ p = day_path w date /\ contents d3 p = complete_lines (contents d p))) as Hframe.
  { intros p Hp. destruct (E2 p Hp) as [Ec Es].
    split; [done|]. destruct (decide (p = day_path w date)) as [->|Hq].
    - rewrite <- Ec. destruct Hthis; auto.
    - left. by rewrite Hoth. }
  destruct r as [t|e].
  - destruct Hres as [-> Hnew]. split; [done|]. split; [reflexivity|]. do 3 (split; [done|]).
    rewrite Hnew. by destruct (E2 _ Hpath) as [-> _].
  - by split_and!.
Qed.

(** Leaving a file syncs it. *)
Lemma rotate_syncs w date d :
  holds_day w -> dw_date w <> date -> dw_sync_on_rotate w = true -> rollback_ok contents (dw_file w) d ->
  let '(d', w', r) := rotate w date d in
  match r with
  | Ok _ =>
      contents d' (file (dw_file w)) = logical contents (dw_file w) d /\
      synced d' !! file (dw_file w) = Some (logical contents (dw_file w) d)
  | Err _ => rollback_ok contents (dw_file w') d' /\ logical contents (dw_file w') d' = logical contents (dw_file w) d
  end.
Proof.
  intros Hw Hne Hsync Hok. pose proof (rotate_spec w date d (conj Hw Hok) Hne) as Hs.
  pose proof (other_day w date Hw Hne) as Hpath. unfold rotate in *.
  pose proof (repair_file (dw_file w) d) as R3.
  destruct (repair (dw_file w) d) as [[d1 f] [[]|e1]]; cbn [fst snd] in *; [|unfold daily_ok in Hs; tauto].
  cbn [set_dw_file dw_sync_on_rotate dw_dir dw_prefix dw_suffix dw_file] in *. rewrite Hsync in *.
  unfold daily_sync_all in *. simpl in *. rewrite R3 in *.
  destruct (sync_all (file (dw_file w)) d1) as [d2 [[]|e]] eqn:Es; [|unfold daily_ok in Hs; tauto].
  apply sync_all_this in Es.
  change (daily_path (dw_dir w) (dw_prefix w) (dw_suffix w) date) with (day_path w date) in *.
  pose proof (append_file_open_spec (day_path w date) d2) as Ho.
  pose proof (append_file_open_synced (day_path w date) d2) as Os.
  destruct (append_file_open (day_path w date) d2) as [d3 [t|e]]; [|unfold daily_ok in Hs; tauto].
  destruct Hs as (_ & _ & _ & _ & _ & Hs). split; [done|].
  destruct Ho as (Hoth & _). cbn [fst] in *. rewrite Os, Es, <- Hoth by (by apply not_eq_sym). by rewrite Hs.
Qed.

Lemma append_frame w bytes d :
  holds_day w ->
  let '(d', f, r) := append (dw_file w) bytes d in
  holds_day (set_dw_file w f) /\ synced d' = synced d /\
  (forall p, p <> file (dw_file w) -> contents d' p = contents d p).
Proof.
  intros Hw. pose proof (append_touches (dw_file w) bytes d) as Ht. pose proof (append_synced (dw_file w) bytes d) as Hs.
  pose proof (append_file (dw_file w) bytes d) as Hf.
  destruct (append (dw_file w) bytes d) as [[d' f] r]. cbn [fst snd] in *.
  split; [|by split]. unfold holds_day in *. simpl. by rewrite Hf.
Qed.

(** A write: other files keep what they hold, and a file that is left is synced. *)
Lemma append_at_frame w bytes date d :
  daily_ok w d ->
  let '(d', w', r) := append_at w bytes date d in
  same_log w w' /\
  (forall p, p <> file (dw_file w) -> p <> day_path w date ->
     contents d' p = contents d p /\ synced d' !! p = synced d !! p) /\
  (dw_date w <> date -> dw_date w' = date -> dw_sync_on_rotate w = true ->
     synced d' !! file (dw_file w) = Some (logical contents (dw_file w) d)).
Proof.
  intros [Hw Hok]. unfold append_at. destruct (decide (dw_date w = date)) as [E|Hne].
  - pose proof (append_frame w bytes d Hw) as Ha. destruct (append (dw_file w) bytes d) as [[d' f] r].
    destruct Ha as (_ & Hs & Hc). split; [done|]. split; [|done]. intros p Hp _. by rewrite Hs, Hc.
  - pose proof (rotate_frame w date d Hw Hne) as Hr. pose proof (rotate_syncs w date d Hw Hne) as Hsy.
    destruct (rotate w date d) as [[d1 w1] [[]|e]]; destruct Hr as (Hlog & Hw1 & Hoth & Hres); cycle 1.
    { split; [done|]. split; [|by rewrite Hres]. intros p Hp Hq. destruct (Hoth p Hp) as [? [?|[? _]]]; by split. }
    destruct Hres as (Ed & _). pose proof (append_frame w1 bytes d1 Hw1) as Ha.
    destruct (append (dw_file w1) bytes d1) as [[d2 f] r]. destruct Ha as (_ & Hs & Hc).
    assert (file (dw_file w1) = day_path w date) as Ef
      by (rewrite Hw1, (same_log_path _ _ _ Hlog); by f_equal).
    rewrite Hs. rewrite Ef in Hc. split; [done|]. split.
    + intros p Hp Hq. rewrite (Hc p Hq). destruct (Hoth p Hp) as [? [?|[? _]]]; by split.
    + intros _ _ Hsync. by apply Hsy.
Qed.

Lemma lines_snoc bs r : lines (bs ++ [r]) = lines bs ++ line_of to_vec r.
Proof. cbv beta. rewrite map_app, concat_app. simpl. by rewrite app_nil_r. Qed.

Context (date : NaiveDate) (base : list byte) (Hbase : whole_lines base).

Lemma day_whole bs : whole_lines (base ++ lines bs).
Proof. apply whole_app; [done|apply lines_whole]. Qed.

(** A file that is not open stays as it is, or loses a torn line nothing was written to. *)
Lemma day_elsewhere w w' d d' bs :
  same_log w w' -> dw_date w <> date -> dw_date w' <> date ->
  synced d' !! day_path w date = synced d !! day_path w date ->
  contents d' (day_path w date) = contents d (day_path w date) \/
  contents d' (day_path w date) = complete_lines (contents d (day_path w date)) ->
  day_holds to_vec date base bs w d -> day_holds to_vec date base bs w' d'.
Proof.
  intros Hlog Hne Hne' Es Ec. unfold day_holds. rewrite !decide_False by done. cbv zeta.
  rewrite (same_log_path _ _ _ Hlog), Es. intros [Hc Hb]. destruct Ec as [-> | ->]; [done|].
  rewrite (complete_lines_whole (contents d _)). split; [done|].
  intros Hbs. destruct (Hb Hbs) as [-> ->]. done.
Qed.

Lemma rotate_day w day d bs :
  holds_day w -> dw_sync_on_rotate w = true -> dw_date w <> day -> day_holds to_vec date base bs w d ->
  let '(d', w', _) := rotate w day d in day_holds to_vec date base bs w' d'.
Proof.
  intros Hw Hsync Hne Hd. pose proof (rotate_frame w day d Hw Hne) as Hf.
  pose proof (rotate_syncs w day d Hw Hne Hsync) as Hs.
  destruct (rotate w day d) as [[d' w'] r]. destruct Hf as (Hlog & Hw' & Hframe & Hr).
  destruct (decide (dw_date w = date)) as [E|Hold].
  - unfold day_holds in Hd. rewrite decide_True in Hd by done. destruct Hd as [Hok Hl]. specialize (Hs Hok).
    unfold day_holds. rewrite (same_log_path _ _ _ Hlog). unfold holds_day in Hw. rewrite E in Hw. destruct r as [[]|e].
    + destruct Hr as (-> & _). rewrite decide_False by congruence. cbv zeta. rewrite <- Hw, Hl in *.
      destruct Hs as [-> ->]. rewrite day_whole. done.
    + rewrite decide_True by congruence. destruct Hs as [? ->]. done.
  - pose proof (Hframe (day_path w date) (other_day w date Hw Hold)) as [Es Ec].
    destruct (decide (dw_date w' = date)) as [E'|Hnew]; cycle 1.
    { eapply day_elsewhere; [done..| |done]. tauto. }
    destruct r as [[]|e]; [|congruence]. destruct Hr as (Eday & Hroll & Hc).
    unfold day_holds in *. rewrite decide_True by done. rewrite decide_False in Hd by done.
    unfold rollback_ok, logical. rewrite Hroll. unfold holds_day in Hw'.
    rewrite Hw', E', (same_log_path _ _ _ Hlog), <- E', Eday, Hc, <- Eday, E'. split; [by intros n|by destruct Hd].
Qed.

Lemma append_day w d bs r :
  holds_day w -> day_holds to_vec date base bs w d ->
  let '(d', f, res) := append (dw_file w) (line_of to_vec r) d in
  day_holds to_vec date base (bs ++ if decide (dw_date w = date) then if is_ok res then [r] else [] else [])
    (set_dw_file w f) d'.
Proof.
  intros Hw Hd. pose proof (append_spec contents (dw_file w) (line_of to_vec r) d) as Ha.
  pose proof (append_frame w (line_of to_vec r) d Hw) as Hf.
  destruct (append (dw_file w) (line_of to_vec r) d) as [[d' f] res]. destruct Hf as (Hw' & Es & Ec).
  destruct (decide (dw_date w = date)) as [E|Hne].
  - unfold day_holds in *. simpl. rewrite decide_True in * by done. destruct Hd as [Hok Hl].
    destruct (Ha Hok) as (_ & Hok' & Hl'). split; [done|]. rewrite Hl', Hl, <- app_assoc. f_equal.
    destruct (is_ok res); [by rewrite lines_snoc|by rewrite !app_nil_r].
  - rewrite app_nil_r. apply (day_elsewhere w _ d); [done|done|done|by rewrite Es| |done].
    left. apply Ec. by apply other_day.
Qed.

Lemma append_at_day w day d bs r :
  holds_day w -> dw_sync_on_rotate w = true -> day_holds to_vec date base bs w d ->
  let '(d', w', res) := append_at w (line_of to_vec r) day d in
  same_log w w' /\ holds_day w' /\ (is_ok res = true -> dw_date w' = day) /\
  day_holds to_vec date base (bs ++ if decide (day = date) then if is_ok res then [r] else [] else []) w' d'.
Proof.
  intros Hw Hsync Hd. unfold append_at. destruct (decide (dw_date w = day)) as [<-|Hne].
  - pose proof (append_day w d bs r Hw Hd) as Ha. pose proof (append_frame w (line_of to_vec r) d Hw) as Hf.
    destruct (append _ _ d) as [[d' f] res]. by split_and!; [..|apply Hf| |].
  - pose proof (rotate_day w day d bs Hw Hsync Hne Hd) as Hr. pose proof (rotate_frame w day d Hw Hne) as Hf.
    destruct (rotate w day d) as [[d1 w1] [[]|e]]; destruct Hf as (Hlog & Hw1 & _ & Eday).
    + destruct Eday as (<- & _). pose proof (append_day w1 d1 bs r Hw1 Hr) as Ha.
      pose proof (append_frame w1 (line_of to_vec r) d1 Hw1) as Hf. destruct (append _ _ d1) as [[d' f] res].
      by split_and!; [apply Hlog..|apply Hf| |].
    + split; [done|]. split; [done|]. split; [done|]. simpl. case_decide; by rewrite app_nil_r.
Qed.

(** What stays of the writer and its retention. *)
Definition same_roller (rw rw' : RotatedWriter) : Prop :=
  same_log (roller rw) (roller rw') /\ rw_keep_days rw' = rw_keep_days rw /\ holds_day (roller rw').

(** A write: it adds the line of its batch to the file of its day exactly if the append goes well,
    and is acknowledged only then. *)
Lemma write_day_exact env rw r d bs :
  holds_day (roller rw) -> dw_sync_on_rotate (roller rw) = true ->
  young (log_dir env) (rw_keep_days rw) (day_path (roller rw) date) -> day_holds to_vec date base bs (roller rw) d ->
  let '(d', w', res) := write_jsonl to_vec env (Roller rw) r d in
  exists rw', w' = Roller rw' /\ same_roller rw rw' /\
    (is_ok res = true -> dir_appended to_vec env rw r d = true) /\
    day_holds to_vec date base
      (bs ++ if dir_appended to_vec env rw r d then if decide (today env = date) then [r] else [] else [])
      (roller rw') d'.
Proof.
  intros Hw Hsync Hspared Hd. unfold write_jsonl, dir_appended. destruct (to_vec r) as [json|] eqn:Ev; cycle 1.
  { exists rw. split_and!; try done. by rewrite app_nil_r. }
  simpl. assert (json ++ [x0a] = line_of to_vec r) as -> by (unfold line_of; by rewrite Ev).
  destruct (cleanup_if_day_changed env rw d) as [d1 rw1] eqn:Ec.
  assert (roller rw1 = roller rw /\ rw_keep_days rw1 = rw_keep_days rw /\ contents d1 (day_path (roller rw) date) = contents d (day_path (roller rw) date) /\
    synced d1 = synced d) as (Er & Ek & Hc & Hs).
  { unfold cleanup_if_day_changed in Ec. case_match; simplify_eq/=; [done|]. split; [done|]. split; [done|].
    by apply clean_up_spares. }
  assert (day_holds to_vec date base bs (roller rw1) d1) as Hd1.
  { rewrite Er. unfold day_holds in *. unfold holds_day in Hw. rewrite Hc, Hs. case_decide as E; [|done].
    unfold rollback_ok, logical in *. by rewrite Hw, E, Hc in *. }
  rewrite <- Er in Hw, Hsync. pose proof (append_at_day (roller rw1) (today env) d1 bs r Hw Hsync Hd1) as Ha.
  destruct (append_at (roller rw1) (line_of to_vec r) (today env) d1) as [[d2 w2] res].
  destruct Ha as (Hlog & Hw2 & Hday & Hd2). rewrite Er in Hlog. clear Hd1 Hc Hs Ec Hsync Hd Hw. destruct res as [[]|e].
  - pose proof (flush_files (file (dw_file w2)) d2) as Hf. pose proof (flush_synced (file (dw_file w2)) d2) as Hs.
    destruct (flush (file (dw_file w2)) d2) as [d3 res]. cbn [fst] in *.
    exists (mkRotated _ w2 (rw_dir rw1) (rw_keep_days rw1) (last_cleanup_day rw1)).
    do 3 (split; [done|]). unfold day_holds, rollback_ok, logical, contents in *. simpl in *. by rewrite Hf, Hs.
  - exists (mkRotated _ w2 (rw_dir rw1) (rw_keep_days rw1) (last_cleanup_day rw1)).
    do 3 (split; [done|]). simpl in *. by case_decide.
Qed.

Lemma write_day env rw r d bs :
  holds_day (roller rw) -> dw_sync_on_rotate (roller rw) = true ->
  young (log_dir env) (rw_keep_days rw) (day_path (roller rw) date) -> day_holds to_vec date base bs (roller rw) d ->
  let '(d', w', res) := write_jsonl to_vec env (Roller rw) r d in
  exists rw' new, w' = Roller rw' /\ same_roller rw rw' /\
    day_holds to_vec date base (bs ++ new) (roller rw') d' /\
    on_day date (if is_ok res then [(today env, r)] else []) `sublist_of` new /\
    new `sublist_of` offered date [WriteOp env r].
Proof.
  intros Hw Hsync Hspared Hd. pose proof (write_day_exact env rw r d bs Hw Hsync Hspared Hd) as Hx.
  destruct (write_jsonl to_vec env (Roller rw) r d) as [[d' w'] res]. destruct Hx as (rw' & -> & Hrw & Hres & Hd').
  eexists rw', _. split; [done|]. split; [done|]. split; [exact Hd'|]. unfold on_day, offered. simpl.
  destruct (is_ok res); [rewrite Hres by done|case_match]; simpl; case_decide; auto using sublist_nil_l.
Qed.

Lemma sync_day rw d bs :
  day_holds to_vec date base bs (roller rw) d -> holds_day (roller rw) ->
  day_holds to_vec date base bs (roller rw) (writer_sync (Roller rw) d).1.
Proof.
  intros Hd Hw. pose proof (writer_sync_files (Roller rw) d) as Hf.
  assert (dw_date (roller rw) <> date -> synced (writer_sync (Roller rw) d).1 !! day_path (roller rw) date =
    synced d !! day_path (roller rw) date) as Hs.
  { intros Hne. simpl. unfold io_bind. pose proof (flush_synced (file (dw_file (roller rw))) d) as Hs.
    destruct (flush (file (dw_file (roller rw))) d) as [d1 [[]|e]]; simpl in *; [|by rewrite Hs].
    unfold daily_sync_all. rewrite sync_all_other; [by rewrite Hs|]. by apply other_day. }
  unfold day_holds, rollback_ok, logical, contents in *. rewrite Hf.
  case_decide; [done|]. by rewrite Hs.
Qed.

Lemma log_run_day ops rw d bs :
  holds_day (roller rw) -> dw_sync_on_rotate (roller rw) = true -> stays_young (rw_keep_days rw) (day_path (roller rw) date) ops ->
  day_holds to_vec date base bs (roller rw) d ->
  let '(w', d', acks) := log_run to_vec ops (Roller rw) d in
  exists rw' new, w' = Roller rw' /\ same_roller rw rw' /\
    day_holds to_vec date base (bs ++ new) (roller rw') d' /\
    on_day date acks `sublist_of` new /\ new `sublist_of` offered date ops.
Proof.
  revert rw d bs. induction ops as [|op ops IH]; intros rw d bs Hw Hsync Hsp Hd.
  { exists rw, []. by rewrite app_nil_r. }
  inversion Hsp as [|? ? Hop Hops]; subst. cbn [log_run]. destruct op as [env r|]; cbn [log_step].
  - pose proof (write_day env rw r d bs Hw Hsync Hop Hd) as Hs.
    destruct (write_jsonl to_vec env (Roller rw) r d) as [[d1 w1] res].
    destruct Hs as (rw1 & new1 & -> & (Hlog1 & Ek1 & Hw1) & Hd1 & Hsub1 & Hoff1).
    rewrite <- Ek1, <- (same_log_path _ _ date Hlog1) in Hops. pose proof (proj2 (proj2 (proj2 Hlog1))) as E1.
    rewrite Hsync in E1. specialize (IH rw1 d1 _ Hw1 E1 Hops Hd1).
    destruct (log_run to_vec ops (Roller rw1) d1) as [[w2 d2] acks].
    destruct IH as (rw2 & new2 & -> & (Hlog2 & Ek2 & Hw2) & Hd2 & Hsub2 & Hoff2).
    exists rw2, (new1 ++ new2). rewrite app_assoc. split; [done|]. split; [|split_and!; [done|..]].
    + split; [by etrans|]. split; [congruence|done].
    + unfold on_day. rewrite omap_app. by apply sublist_app.
    + unfold offered. change (WriteOp env r :: ops) with ([WriteOp env r] ++ ops). rewrite omap_app. by apply sublist_app.
  - pose proof (sync_day rw d bs Hd Hw) as Hd1.
    specialize (IH rw _ bs Hw Hsync Hops Hd1).
    by destruct (log_run to_vec ops (Roller rw) (writer_sync (Roller rw) d).1) as [[w2 d2] acks].
Qed.
End daily.

(** ** The log of a sink *)

Section sink_log.
Context `{World} `{NaiveDates} {C : Type} `{ChannelOps C ExportRequest}.
Context (to_vec : batch -> option (list byte)) (render : batch -> bool -> string).
Implicit Types (x : Sink.server (C := C)) (s : SinkInner C) (d : Disk).

Lemma log_run_snoc ops op w d :
  log_run to_vec (ops ++ [op]) w d =
  let '(w, d, acks) := log_run to_vec ops w d in
  let '(w, d, last) := log_step to_vec op w d in (w, d, acks ++ last).
Proof.
  revert w d. induction ops as [|op' ops IH]; intros w d; simpl.
  - destruct (log_step to_vec op w d) as [[? ?] ?]. by rewrite app_nil_r.
  - destruct (log_step to_vec op' w d) as [[w1 d1] a1]. rewrite IH.
    destruct (log_run to_vec ops w1 d1) as [[w2 d2] a2].
    destruct (log_step to_vec op w2 d2) as [[? ?] ?]. by rewrite app_assoc.
Qed.

(** The operations account for the log and the disk of a sink, and for what it persisted. *)
Definition accounts (ops : list log_op) (acks : list (NaiveDate * batch)) (w0 : JsonlWriter) (d0 : Disk) x : Prop :=
  exists w, sink_file (inner x) = Some w /\ log_run to_vec ops w0 d0 = (w, disk x, acks) /\
    map snd acks = persisted x.

Lemma accounts_snoc ops op acks last w0 d0 x w d s st m p c :
  accounts ops acks w0 d0 x -> sink_file (inner x) = Some w ->
  (let '(w', d', a) := log_step to_vec op w (disk x) in sink_file s = Some w' /\ d = d' /\ last = a) ->
  p = persisted x ++ map snd last ->
  accounts (ops ++ [op]) (acks ++ last) w0 d0 (mkServer s d st m p c).
Proof.
  intros (w1 & E1 & Hrun & Hp) E Hstep ->. assert (w1 = w) as -> by congruence.
  unfold accounts. simpl. rewrite log_run_snoc, Hrun, map_app, Hp.
  destruct (log_step to_vec op w (disk x)) as [[w' d'] a]. destruct Hstep as (? & -> & ->). by exists w'.
Qed.

Lemma persist_op env r s d w :
  sink_file s = Some w ->
  let '(s', d', res) := persist to_vec env r s d in
  let '(w', d'', a) := log_step to_vec (WriteOp env r) w d in
  sink_file s' = Some w' /\ d' = d'' /\ (if is_ok res then [(today env, r)] else []) = a.
Proof.
  intros E. unfold persist, log_step. rewrite E. destruct (write_jsonl to_vec env w r d) as [[d' w'] res].
  by destruct res; simpl; destruct (_ (jsonl_health s) _).
Qed.

Lemma sink_accounts s0 d0 w0 x :
  sink_file s0 = Some w0 -> Sink.reachable to_vec render s0 d0 x ->
  exists ops acks, accounts ops acks w0 d0 x.
Proof.
  intros E0 Hr. revert x Hr. apply rtc_ind_r; [by exists [], [], w0|].
  intros x y _ Hs (ops & acks & Ha). pose proof Ha as (w & Ew & Hrun & Hp).
  destruct Hs as [x t r E Hadm|x t r env s d E Ep|x t r env s d e E Ep|x t r s ws E Ec
    |x t r ws E|x s Hs|x E|x now w1 w2 d res drains Hadm Es].
  - by exists ops, acks, w.
  - pose proof (persist_op env r (inner x) (disk x) w Ew) as Ho. rewrite Ep in Ho.
    exists (ops ++ [WriteOp env r]), (acks ++ [(today env, r)]). by eapply accounts_snoc.
  - pose proof (persist_op env r (inner x) (disk x) w Ew) as Ho. rewrite Ep in Ho.
    exists (ops ++ [WriteOp env r]), (acks ++ []). eapply accounts_snoc; [done..|by rewrite app_nil_r].
  - pose proof (count_core r (inner x)) as Hc. rewrite Ec in Hc. destruct Hc as [_ Hf].
    exists ops, acks, w. by rewrite <- Ew, <- Hf.
  - by exists ops, acks, w.
  - destruct Hs as (_ & _ & Hf & _). exists ops, acks, w. by rewrite <- Ew, <- Hf.
  - by exists ops, acks, w.
  - exists (ops ++ [SyncOp]), (acks ++ []). eapply accounts_snoc; [done..| |by rewrite app_nil_r].
    unfold sink_flush in Es. rewrite Ew in Es. simpl. by destruct (writer_sync w (disk x)); simplify_eq/=.
Qed.
End sink_log.

(** ** Recording in any log *)

Section any_log.
Context `{World} `{NaiveDatesLaws} {C : Type} `{ChannelOps C ExportRequest}.
Context (to_vec : batch -> option (list byte)) (render : batch -> bool -> string).
Implicit Types (x : Sink.server (C := C)) (s : SinkInner C) (d : Disk).

Lemma day_holds_content rw d date :
  log_sound (Some (Roller rw)) d ->
  day_holds to_vec date (log_content (Some (Roller rw)) d date) [] (roller rw) d /\
  whole_lines (log_content (Some (Roller rw)) d date).
Proof.
  intros (_ & _ & Hok & Hwhole). unfold day_holds, log_content. case_decide; simpl; rewrite app_nil_r; [done|].
  split; [done|apply complete_lines_whole].
Qed.

Lemma content_day_holds rw d date base bs :
  day_holds to_vec date base bs (roller rw) d ->
  log_content (Some (Roller rw)) d date = base ++ concat (map (line_of to_vec) bs).
Proof. unfold day_holds, log_content. case_decide; by intros [? ?]. Qed.

(** What persisting a batch does to the log. *)
Lemma persist_content env r s d date :
  log_sound (sink_file s) d -> log_young (sink_file s) (log_dir env) date ->
  let '(s', d', res) := persist to_vec env r s d in
  same_target (sink_file s) (sink_file s') /\
  log_content (sink_file s') d' date = log_content (sink_file s) d date ++
    (if is_ok res || unflushed to_vec env (sink_file s) r d
     then line_on (sink_file s) (today env) date (line_of to_vec r) else []).
Proof.
  intros Hs Hy. destruct (sink_file s) as [[t|rw]|] eqn:Ef.
  - pose proof (persist_log to_vec env r s d t Ef Hs) as Hp.
    destruct (persist to_vec env r s d) as [[s' d'] res]. destruct Hp as (t' & -> & Hf & _ & El).
    by rewrite orb_false_r.
  - destruct (day_holds_content rw d date Hs) as [Hd Hbase]. destruct Hs as (Hw & Hsync & _).
    pose proof (write_day_exact to_vec date _ Hbase env rw r d [] Hw Hsync Hy Hd) as Hx.
    unfold persist. rewrite Ef. destruct (write_jsonl to_vec env (Roller rw) r d) as [[d' w'] res].
    destruct Hx as (rw' & -> & (Hlog & Ek & _) & Hres & Hd'). destruct (match res with Ok _ => _ | Err _ => _ end).
    split; [done|]. change (sink_file (set_persisted s _ _)) with (Some (Roller rw')).
    rewrite (content_day_holds rw' _ _ _ _ Hd'). f_equal. simpl.
    replace (is_ok res || dir_appended to_vec env rw r d) with (dir_appended to_vec env rw r d)
      by (destruct (is_ok res); [by rewrite Hres|done]).
    destruct (dir_appended _ _ _ _ _); [|done]. case_decide; simpl; [by rewrite app_nil_r|done].
  - unfold persist. rewrite Ef. simpl. by rewrite Ef.
Qed.

(** What recording it does. *)
Lemma record_admitted_content env r s d date :
  log_sound (sink_file s) d -> log_young (sink_file s) (log_dir env) date ->
  let '(s', d', res) := record_admitted to_vec render env r s d in
  same_target (sink_file s) (sink_file s') /\
  log_content (sink_file s') d' date = log_content (sink_file s) d date ++
    (if is_ok res || unflushed to_vec env (sink_file s) r d
     then line_on (sink_file s) (today env) date (line_of to_vec r) else []).
Proof.
  intros Hs Hy. unfold record_admitted. pose proof (persist_content env r s d date Hs Hy) as Hp.
  destruct (persist to_vec env r s d) as [[s1 d1] [[]|e]]; [|done].
  pose proof (count_core r s1) as Hc. destruct (count r s1) as [s2 ws]. destruct Hc as [_ Hf].
  by rewrite (proj2 (publish_core render r ws s2)), Hf.
Qed.

Lemma same_target_refl (o : option JsonlWriter) : same_target o o.
Proof. by destruct o as [[]|]. Qed.

(** What the handlers of requests rely on. *)
Lemma record_with_permit_outcome admitted env r s d date :
  log_sound (sink_file s) d -> log_young (sink_file s) (log_dir env) date ->
  let '(s', d', res) := record_with_permit to_vec render admitted env r s d in
  same_target (sink_file s) (sink_file s') /\
  log_content (sink_file s') d' date = log_content (sink_file s) d date ++
    (if is_ok res || admitted && unflushed to_vec env (sink_file s) r d
     then line_on (sink_file s) (today env) date (line_of to_vec r) else []) /\
  match res with
  | Ok _ => aggregator s' = (ingest (aggregator s) r).1
  | Err _ =>
      aggregator s' = aggregator s /\ stdout s' = stdout s /\ pretty_log s' = pretty_log s /\
      proxy s' = proxy s
  end.
Proof.
  intros Hs Hy. unfold record_with_permit. destruct admitted; cycle 1.
  { split; [apply same_target_refl|]. simpl. by rewrite app_nil_r. }
  pose proof (record_admitted_content env r s d date Hs Hy) as Hl.
  pose proof (record_admitted_parts to_vec render env r s d) as Hp.
  destruct (record_admitted to_vec render env r s d) as [[s' d'] res]. destruct Hl as [Ht Hl].
  do 2 (split; [done|]). destruct res as [[]|e]; [|done].
  destruct (ingest (aggregator s) r) as [g hits]. by destruct Hp as (-> & _).
Qed.

(** * Properties *)

(** C8. What is counted is what is persisted, in every interleaving of handlers, writers and
    shutdown: the totals are those of the counted batches alone, each of which was persisted
    before and once per time it was persisted, and the only persisted batches not counted yet
    are those a handler is about to count.  A log in one file holds its old contents followed by the
    lines of exactly the persisted batches, in order, failed writes leaving nothing.  In a log
    directory the file of a day that no cleanup removed holds its old whole lines, then, in
    order, the lines of the batches persisted on that day; between them there can be lines of
    batches offered on that day whose write was reported as failed after the append. *)
Theorem counted_is_persisted (s0 : SinkInner C) d0 x :
  log_sound (sink_file s0) d0 -> reachable to_vec render s0 d0 x ->
  aggregator (inner x) = ingest_all (aggregator s0) (counted x) /\
  persisted x ≡ₚ counted x ++ uncounted (tasks x) /\
  (forall t0, sink_file s0 = Some (FileWriter t0) ->
     exists t, sink_file (inner x) = Some (FileWriter t) /\ file t = file t0 /\
       logical contents t (disk x) =
         logical contents t0 d0 ++ concat (map (line_of to_vec) (persisted x))) /\
  (forall rw0, sink_file s0 = Some (Roller rw0) ->
     (exists ops acks, accounts to_vec ops acks (Roller rw0) d0 x) /\
     forall ops acks date, accounts to_vec ops acks (Roller rw0) d0 x ->
       stays_young (rw_keep_days rw0) (day_path (roller rw0) date) ops ->
       same_target (sink_file s0) (sink_file (inner x)) /\
       exists bs, on_day date acks `sublist_of` bs /\ bs `sublist_of` offered date ops /\
         log_content (sink_file (inner x)) (disk x) date =
           log_content (sink_file s0) d0 date ++ concat (map (line_of to_vec) bs)).
Proof.
  intros Hs Hr.
  assert (forall t, sink_file s0 = Some (FileWriter t) -> rollback_ok contents t d0) as Hok
    by (intros t E; by rewrite E in Hs).
  destruct (server_reachable_inv to_vec render s0 d0 x Hok Hr) as [Ha Hc _ Hl].
  do 2 (split; [done|]). split.
  { intros t0 E0. destruct (Hl t0 E0) as (t & ? & ? & _ & ?). by exists t. }
  intros rw0 E0. split; [by eapply sink_accounts|]. rewrite E0 in *.
  intros ops acks date (w & Ew & Hrun & _) Hy. destruct (day_holds_content rw0 d0 date Hs) as [Hd Hbase].
  pose proof Hs as (Hw & Hsync & _).
  pose proof (log_run_day to_vec date _ Hbase ops rw0 d0 [] Hw Hsync Hy Hd) as Hx. rewrite Hrun in Hx.
  destruct Hx as (rw & bs & -> & (Hlog & Ek & _) & Hd' & Hacks & Hoff). rewrite Ew. split; [done|].
  exists bs. split; [done|]. split; [done|]. apply (content_day_holds rw _ _ _ _ Hd').
Qed.

End any_log.

(** C10. A write to a daily log goes whole into the file of its day or leaves no trace.  On a change
    of day the file left behind keeps all it held and, for a log that asks for it, is synced
    before the new one takes its place; when leaving it or opening the new file fails, the
    writer still holds the old file, so that the next write tries again.  Files of other days
    are not touched, and a write fails only when the system does: a day's name taken by a
    directory apart, it succeeds on a disk without faults. *)
Theorem daily_append_all_or_nothing `{NaiveDatesLaws} w bytes date d :
  daily_ok w d ->
  let path := day_path w date in
  let old := file (dw_file w) in
  let left d' :=
    contents d' old = logical contents (dw_file w) d /\
    (dw_sync_on_rotate w = true -> synced d' !! old = Some (logical contents (dw_file w) d)) in
  let '(d', w', r) := append_at w bytes date d in
  daily_ok w' d' /\
  (forall p, p <> old -> p <> path -> contents d' p = contents d p /\ synced d' !! p = synced d !! p) /\
  match r with
  | Ok _ =>
      dw_date w' = date /\ file (dw_file w') = path /\ (dw_date w <> date -> left d') /\
      logical contents (dw_file w') d' =
        (if decide (dw_date w = date) then logical contents (dw_file w) d
         else complete_lines (contents d path)) ++ bytes
  | Err _ =>
      (dw_date w' = dw_date w /\ file (dw_file w') = old /\
       logical contents (dw_file w') d' = logical contents (dw_file w) d) \/
      (dw_date w <> date /\ dw_date w' = date /\ file (dw_file w') = path /\ left d' /\
       logical contents (dw_file w') d' = complete_lines (contents d path))
  end /\
  (faults d = [] -> dir_modes (perms d) !! path = None -> is_ok r = true).
Proof.
  intros Hok path old left. pose proof (append_at_spec w bytes date d Hok) as Hs.
  pose proof (append_at_goes w bytes date d) as Hg. pose proof (append_at_frame w bytes date d Hok) as Hf.
  destruct (append_at w bytes date d) as [[d' w'] r]. cbn [fst snd] in *.
  destruct Hs as [Hok' Hs], Hf as (Hlog & Hoth & Hsync). split; [done|]. split; [done|]. split; [|done].
  assert (file (dw_file w') = day_path w (dw_date w')) as Ef.
  { rewrite <- (same_log_path _ _ _ Hlog). apply Hok'. }
  assert (dw_date w' = dw_date w -> file (dw_file w') = old) as Eo
    by (intros E; rewrite Ef, E; symmetry; apply Hok).
  destruct r as [u|e].
  - destruct Hs as (Ed & El & Eold). rewrite Ed in Ef. split_and!; [done|done| |done].
    intros Hne. split; [by apply Eold|]. by apply Hsync; rewrite ?Ed.
  - destruct Hs as [(Ed & El)|(Hne & Ed & El & Eold)]; [left; auto|right].
    rewrite Ed in Ef. split_and!; [done..| |done]. split; [done|]. apply Hsync; congruence.
Qed.

(** ** A log directory to evaluate examples with *)

#[local] Existing Instance sample_world.
#[local] Existing Instance sample_dates.
#[local] Existing Instance sample_dates_laws.

Definition yesterday_file : string := "logs/otel-logger.2026-06-30".
Definition today_file : string := "logs/otel-logger.2026-07-01".
Definition directory_log : JsonlWriter :=
  Roller (mkRotated _ (mkDaily "logs" "otel-logger" None "2026-06-30"%string (mkAppend yesterday_file None) true) "logs" 10 0).
Definition directory_sink : SinkInner (list_channel ExportRequest) :=
  mkSink true health_default (Some directory_log) None None (@aggregator_new sample_world) None.
Definition directory_disk (faults : list (option nat)) : Disk :=
  mkDisk {[yesterday_file := [x61; x0a]]} 2 ∅ faults sample_perms.

Lemma directory_log_sound faults : log_sound (sink_file directory_sink) (directory_disk faults).
Proof. split; [reflexivity|]. split; [reflexivity|]. split; [by intros n|reflexivity]. Qed.

Lemma directory_log_young date : log_young (sink_file directory_sink) (log_dir sample_env) date.
Proof. intros entries e [= <-] Hin. by apply not_elem_of_nil in Hin. Qed.

(** The first batch of a day is persisted and counted. *)
Lemma directory_sink_reachable :
  exists x, reachable sample_to_vec sample_render directory_sink (directory_disk []) x /\
    persisted x = [sample_logs] /\
    accounts sample_to_vec [WriteOp sample_env sample_logs] [("2026-07-01"%string, sample_logs)]
      directory_log (directory_disk []) x.
Proof.
  eexists. split.
  { eapply rtc_l; [apply (step_begin _ _ _ 0%nat sample_logs); reflexivity|].
    eapply rtc_l; [eapply (step_persist _ _ _ 0%nat sample_logs sample_env); reflexivity|].
    eapply rtc_l; [eapply (step_count _ _ _ 0%nat sample_logs); reflexivity|]. apply rtc_refl. }
  split; [reflexivity|]. eexists. split; [reflexivity|]. split; [vm_compute; reflexivity|reflexivity].
Qed.

Lemma sample_log_sound : log_sound (sink_file sample_sink) sample_disk.
Proof. exact (sample_sink_ok _ eq_refl). Qed.

(** In one file, and in a directory whose day has changed. *)
Lemma counted_is_persisted_witness :
  (exists x, sample_reachable_state x /\ persisted x = [sample_logs] /\
    aggregator (inner x) = ingest_all (aggregator sample_sink) (counted x)) /\
  exists (x : Sink.server (C := list_channel ExportRequest)) bs, [sample_logs] `sublist_of` bs /\ bs `sublist_of` [sample_logs] /\
    log_content (sink_file (inner x)) (disk x) "2026-07-01"%string = concat (map (line_of sample_to_vec) bs).
Proof.
  split.
  - destruct sample_sink_reachable as (x & Hr & _ & Hp & _). exists x. split; [exact Hr|].
    split; [exact Hp|]. apply (counted_is_persisted _ _ _ _ _ sample_log_sound Hr).
  - destruct directory_sink_reachable as (x & Hr & _ & Ha).
    destruct (counted_is_persisted _ _ _ _ _ (directory_log_sound []) Hr) as (_ & _ & _ & H).
    destruct (H _ eq_refl) as [_ Hday].
    destruct (Hday _ _ "2026-07-01"%string Ha) as (_ & bs & H1 & H2 & H3).
    { constructor; [apply directory_log_young|by constructor]. }
    exists x, bs. split; [exact H1|]. split; [exact H2|exact H3].
Defined.



(** The first write of the next day. *)
Lemma daily_append_all_or_nothing_witness :
  let w := @mkDaily sample_dates "logs" "otel-logger" None "2026-06-30" (mkAppend yesterday_file None) true in
  let d := directory_disk [] in
  let '(d', w', r) := @append_at sample_dates w [x62; x0a] "2026-07-01" d in
  r = Ok tt /\ contents d' today_file = [x62; x0a] /\ contents d' yesterday_file = [x61; x0a] /\
  synced d' !! yesterday_file = Some [x61; x0a].
Proof.
  intros w d. pose proof (daily_append_all_or_nothing w [x62; x0a] "2026-07-01"%string d
    ltac:(split; [reflexivity|by intros n [=]])) as H. cbv zeta in H.
  destruct (append_at w [x62; x0a] "2026-07-01"%string d) as [[d' w'] r] eqn:E.
  destruct H as (_ & _ & Hr & Hok). specialize (Hok eq_refl eq_refl).
  destruct r as [[]|e]; [|discriminate]. destruct Hr as (_ & Ef & Hleft & El).
  destruct (Hleft ltac:(discriminate)) as [Hc Hs]. specialize (Hs eq_refl).
  split; [reflexivity|]. split; [|split; [exact Hc|exact Hs]].
  revert E. vm_compute. intros [= <- _]. reflexivity.
Defined.
