(* ===== verification/Http.v ===== *)
(** * The HTTP receiver ([src/src/http.rs])

    A request is refused for its content type, takes a slot, is read until its deadline,
    decoded and recorded; the answer says which of these failed.  Bodies, decompression and
    the decoders belong to other crates and are parameters.  A handler runs here without
    interruption; how handlers interleave is the subject of [Admission], [Sink] and [Receiving]. *)

From stdpp Require Import pretty.
From Stdlib Require Import Strings.Byte Ascii.
From S2P Require Import Prelude Io Otlp AggState AggIngest AggBatch Storage Text Config Cli Channel Router Client Rotation Health Pretty Sink DailyLog Admission.

Local Open Scope Z_scope.

(** ** Data *)

Definition OTLP_MAX_REQUEST_BYTES : Z := 32 * 1024 * 1024.

Definition PROTOBUF_CT : string := "application/x-protobuf".
Definition JSON_CT : string := "application/json".

Inductive Encoding := Protobuf | Json.

(** An error and its chain of sources; the flag says that it is a [LengthLimitError]. *)
Inductive BodyError := mkBodyError (is_length_limit : bool) (cause : option BodyError).

Inductive HttpError :=
| UnsupportedContentType (ct : string)
| BadProtobuf (e : string)
| BadJson (e : string)
| BadBody (e : BodyError)
| BodyTooLarge
| BusyReceiver (r : Rejected)
| BodyTimeout
| Persistence (e : RecordError).

(** The answer to an export request; it never reports a partial success. *)
Record ExportResponse := mkReply {
  reply_signal : ProxySignal;
  partial_success : option (Z * string);
}.

Record Response := mkResponse {
  response_status : Z;
  response_content_type : string;
  response_body : list byte;
}.

(** The decoders of [prost] and [serde_json] for a type of requests. *)
Class Message (M : Type) := {
  prost_decode : list byte -> result M string;
  from_slice : list byte -> result M string;
}.

Class Codecs := {
  (** A body behind the decompression layer. *)
  Body : Type;
  (** [axum::body::to_bytes] with a limit: when the body ends, if it does, and with what. *)
  to_bytes : Body -> Z -> option (Z * result (list byte) BodyError);
  (** [HeaderValue::to_str]. *)
  to_str : list byte -> option string;
  display_body_error : BodyError -> string;
  reply_encode : ExportResponse -> list byte;
  reply_to_json : ExportResponse -> list byte;
}.

(** ** Errors *)

(** The outermost context of an error of [record_with_permit]. *)
Definition record_error_text (e : RecordError) : string :=
  match e with
  | SerializeError kind | PersistError kind _ => "persist " +:+ kind +:+ " batch to JSONL"
  | ShuttingDown => "JSONL sink is shutting down"
  end.

Definition error_text `{Codecs} (e : HttpError) : string :=
  match e with
  | UnsupportedContentType ct => "unsupported content type: " +:+ ct
  | BadProtobuf e => "failed to decode protobuf body: " +:+ e
  | BadJson e => "failed to decode JSON body: " +:+ e
  | BadBody e => "failed to read request body: " +:+ display_body_error e
  | BodyTooLarge => "request body exceeds " +:+ pretty OTLP_MAX_REQUEST_BYTES +:+ " bytes"
  | BusyReceiver r => rejected_message r
  | BodyTimeout => "request body was not received before the deadline; retry later"
  | Persistence e => "failed to persist telemetry: " +:+ record_error_text e
  end.

(** [HttpError::into_response]: the status and the text. *)
Definition into_response `{Codecs} (e : HttpError) : Z * string :=
  let status :=
    match e with
    | UnsupportedContentType _ => 415
    | BadProtobuf _ | BadJson _ | BadBody _ => 400
    | BodyTooLarge => 413
    | BusyReceiver _ | BodyTimeout | Persistence _ => 503
    end in
  (status, error_text e).

Fixpoint exceeds_length_limit (e : BodyError) : bool :=
  match e with
  | mkBodyError true _ => true
  | mkBodyError false None => false
  | mkBodyError false (Some e) => exceeds_length_limit e
  end.

(** ** Content types *)

(** [value] is the [Content-Type] header, if there is one. *)
Definition detect_encoding `{Codecs} (value : option (list byte)) : result Encoding HttpError :=
  (let? ct :=
    match value with
    | Some value =>
        match to_str value with
        | Some ct => Ok ct
        | None => Err (UnsupportedContentType "<invalid header value>")
        end
    | None => Ok PROTOBUF_CT
    end in
  let primary := trim (hd ct (split_on ";"%char ct)) in
  if eq_ignore_ascii_case primary PROTOBUF_CT then Ok Protobuf
  else if eq_ignore_ascii_case primary JSON_CT then Ok Json
  else Err (UnsupportedContentType primary))%res.

Definition encode_response `{Codecs} (encoding : Encoding) (msg : ExportResponse) : Response :=
  match encoding with
  | Protobuf => mkResponse 200 PROTOBUF_CT (reply_encode msg)
  | Json => mkResponse 200 JSON_CT (reply_to_json msg)
  end.

Definition decode_request {M} `{Message M} (encoding : Encoding) (body : list byte)
    : result M HttpError :=
  match encoding with
  | Protobuf => result_map_err BadProtobuf (prost_decode body)
  | Json => result_map_err BadJson (from_slice body)
  end.

(** ** Receiving *)

(** What a request meets: the clock when it arrives and the last instant it can represent,
    what waiting for a slot until a deadline comes to, and what the write meets. *)
Record RequestEnv `{NaiveDates} (Sem : Type) := mkRequestEnv {
  arrival : Z;
  last_instant : Z;
  await_slot : Z -> Sem -> option Sem;
  write_env : WriteEnv;
}.
Arguments mkRequestEnv {_ Sem} _ _ _ _.
Arguments arrival {_ Sem} _.
Arguments last_instant {_ Sem} _.
Arguments await_slot {_ Sem} _ _ _.
Arguments write_env {_ Sem} _.

Section http.
Context `{World} `{NaiveDates} {C : Type} `{ChannelOps C ExportRequest} {Sem : Type}
  `{SemaphoreOps Sem} `{Codecs}.
Context (to_vec : batch -> option (list byte)) (render : batch -> bool -> string).

Definition deadline_of (env : RequestEnv Sem) (l : ReceiveLimits Sem) : Z :=
  deadline (last_instant env) (arrival env) l.

(** The last clone of a permit is dropped. *)
Definition release (l : ReceiveLimits Sem) : ReceiveLimits Sem :=
  set_slots l (add_permit (slots l)).

(** With [Ok] the permit is the caller's; otherwise it is gone. *)
Definition receive_body (env : RequestEnv Sem) (body : Body) (l : ReceiveLimits Sem)
    : ReceiveLimits Sem * result (list byte) HttpError :=
  let deadline := deadline_of env l in
  match admit_request (await_slot env deadline) l with
  | (l, Err r) => (l, Err (BusyReceiver r))
  | (l, Ok _) =>
      match timeout_at deadline (to_bytes body OTLP_MAX_REQUEST_BYTES) with
      | None => (release l, Err BodyTimeout)
      | Some (Ok bytes) => (l, Ok bytes)
      | Some (Err error) =>
          (release l, Err (if exceeds_length_limit error then BodyTooLarge else BadBody error))
      end
  end.

(** The state behind the handlers; [http_admission] is the flag under the sink's lock. *)
Record HttpState := mkHttp {
  http_limits : ReceiveLimits Sem;
  http_sink : SinkInner C;
  http_disk : Disk;
  http_admission : bool;
}.

(** The body the three handlers share, for their type of requests. *)
Definition handle {M} `{Message M} (wrap : M -> batch) (signal : ProxySignal)
    (env : RequestEnv Sem) (headers : option (list byte)) (body : Body) (x : HttpState)
    : HttpState * result Response HttpError :=
  match detect_encoding headers with
  | Err e => (x, Err e)
  | Ok encoding =>
      match receive_body env body (http_limits x) with
      | (l, Err e) => (mkHttp l (http_sink x) (http_disk x) (http_admission x), Err e)
      | (l, Ok bytes) =>
          match decode_request encoding bytes with
          | Err e => (mkHttp (release l) (http_sink x) (http_disk x) (http_admission x), Err e)
          | Ok req =>
              let '(s, d, res) :=
                record_with_permit to_vec render (http_admission x) (write_env env) (wrap req)
                  (http_sink x) (http_disk x) in
              (mkHttp (release l) s d (http_admission x),
               match res with
               | Ok _ => Ok (encode_response encoding (mkReply signal None))
               | Err e => Err (Persistence e)
               end)
          end
      end
  end.

Definition handle_traces `{Message ExportTraceServiceRequest} := handle BTraces Traces.
Definition handle_metrics `{Message ExportMetricsServiceRequest} := handle BMetrics Metrics.
Definition handle_logs `{Message ExportLogsServiceRequest} := handle BLogs Logs.

(** The handler of a signal's route. *)
Definition handle_export `{Message ExportTraceServiceRequest, Message ExportMetricsServiceRequest,
    Message ExportLogsServiceRequest} (signal : ProxySignal) :=
  match signal with
  | Traces => handle_traces
  | Metrics => handle_metrics
  | Logs => handle_logs
  end.

(** ** Statistics *)

Record StatsResponse := mkStatsResponse {
  stats_usage : UsageSnapshot;
  stats_proxy : option (gmap string RouteMetricsSnapshot);
}.

(** [collect] into a [BTreeMap]: a later entry replaces an earlier one of the same name. *)
Definition collect_map {V} (l : list (string * V)) : gmap string V :=
  for_each (fun m e => <[e.1 := e.2]> m) ∅ l.

Definition handle_stats (x : HttpState) : StatsResponse :=
  mkStatsResponse (snapshot (aggregator (http_sink x)))
    (option_map (fun router => collect_map (router_snapshot router)) (proxy (http_sink x))).

Definition health : string := "ok".
End http.

(** ** Routes *)

Inductive HttpMethod := GET | HEAD | POST | OtherMethod.
Inductive HttpEndpoint := Export (signal : ProxySignal) | Healthz | Stats.

(** What axum answers: the handler, or 405 and 404 of its own. *)
Inductive Routed := RoutedTo (e : HttpEndpoint) | MethodNotAllowed | NoSuchRoute.

Definition http_routes : list (string * HttpMethod * HttpEndpoint) := [
  ("/v1/traces", POST, Export Traces);
  ("/v1/metrics", POST, Export Metrics);
  ("/v1/logs", POST, Export Logs);
  ("/healthz", GET, Healthz);
  ("/stats", GET, Stats)
]%string.

(** [axum::routing::get] serves [HEAD] as well. *)
Definition serves (route_method m : HttpMethod) : bool :=
  match route_method, m with GET, (GET | HEAD) | POST, POST => true | _, _ => false end.

Definition router (m : HttpMethod) (path : string) : Routed :=
  match List.find (fun route => String.eqb route.1.1 path) http_routes with
  | Some (_, route_method, e) => if serves route_method m then RoutedTo e else MethodNotAllowed
  | None => NoSuchRoute
  end.

(** * Lemmas *)

Section http_lemmas.
Context `{World} `{NaiveDates} {C : Type} `{ChannelOps C ExportRequest} {Sem : Type}
  `{SemaphoreOps Sem} `{Codecs}.
Context (to_vec : batch -> option (list byte)) (render : batch -> bool -> string).
Implicit Types (env : RequestEnv Sem) (l : ReceiveLimits Sem) (x : HttpState (C := C) (Sem := Sem)).

(** The three ways through a handler: refused before the sink, or recorded, or failed there. *)
Lemma handle_cases {M} `{Message M} (wrap : M -> batch) signal env headers body x :
  let '(x', answer) := handle to_vec render wrap signal env headers body x in
  (http_sink x' = http_sink x /\ http_disk x' = http_disk x /\
   exists e, answer = Err e /\ (forall p, e <> Persistence p)) \/
  exists encoding at_ bytes req res,
    detect_encoding headers = Ok encoding /\
    to_bytes body OTLP_MAX_REQUEST_BYTES = Some (at_, Ok bytes) /\
    at_ <= deadline_of env (http_limits x) /\ decode_request encoding bytes = Ok req /\
    record_with_permit to_vec render (http_admission x) (write_env env) (wrap req)
      (http_sink x) (http_disk x) = (http_sink x', http_disk x', res) /\
    answer = match res with
             | Ok _ => Ok (encode_response encoding (mkReply signal None))
             | Err e => Err (Persistence e)
             end.
Proof.
  unfold handle. destruct (detect_encoding headers) as [encoding|e] eqn:Ed; cycle 1.
  { left. split_and!; [done..|]. exists e. split; [done|]. intros p ->. revert Ed.
    unfold detect_encoding. destruct headers as [v|]; [destruct (to_str v)|]; simpl; try done;
      by repeat case_match. }
  unfold receive_body.
  destruct (admit_request (await_slot env (deadline_of env (http_limits x))) (http_limits x)) as [l [[]|r]];
    [|left; split_and!; [done..|]; by eexists].
  unfold timeout_at.
  destruct (to_bytes body OTLP_MAX_REQUEST_BYTES) as [[at_ res]|] eqn:Eb;
    [|left; split_and!; [done..|]; by eexists].
  destruct (Z.leb_spec at_ (deadline_of env (http_limits x)));
    [|left; split_and!; [done..|]; by eexists].
  destruct res as [bytes|e]; [|left; split_and!; [done..|]; eexists; split; [done|];
    by destruct (exceeds_length_limit e)].
  destruct (decode_request encoding bytes) as [req|e] eqn:Er.
  - destruct (record_with_permit to_vec render _ _ _ _ _) as [[s d] res] eqn:Ew. right.
    by exists encoding, at_, bytes, req, res.
  - left. split_and!; [done..|]. exists e. split; [done|]. intros p ->. revert Er.
    unfold decode_request. destruct encoding; [destruct (prost_decode bytes)|destruct (from_slice bytes)];
      done.
Qed.
End http_lemmas.

(** ** Content types *)

Definition media_type (e : Encoding) : string :=
  match e with Protobuf => PROTOBUF_CT | Json => JSON_CT end.

(** A header that names a media type in any case, between white space, with parameters. *)
Definition names_media_type (media value : string) : Prop :=
  exists w1 m w2 rest,
    value = (w1 +:+ m +:+ w2 +:+ rest)%string /\ whites w1 /\ whites w2 /\
    to_ascii_lowercase m = media /\ (rest = ""%string \/ exists parameters, rest = String ";" parameters).

Lemma hd_split_prefix a rest d :
  no_char ";" a -> (rest = ""%string \/ exists p, rest = String ";" p) ->
  hd d (split_on ";" (a +:+ rest)%string) = a.
Proof.
  unfold no_char. intros Ha [->|[p ->]].
  - assert (a +:+ "" = a)%string as -> by (clear; induction a as [|c a IH]; [done|];
      by rewrite str_app_cons, IH). by rewrite Ha.
  - by rewrite split_on_app, Ha.
Qed.

Lemma hd_split_decomp s d :
  exists rest, s = (hd d (split_on ";" s) +:+ rest)%string /\
    (rest = ""%string \/ exists p, rest = String ";" p).
Proof.
  pose proof (join_split ";" s) as Hj. destruct (split_on_cons ";" s) as (seg & segs & Es).
  rewrite Es in *. rewrite <-Hj. destruct segs as [|seg' segs]; simpl.
  - exists ""%string. split; [|by left]. clear. induction seg as [|c a IH]; [done|].
    by rewrite str_app_cons, <-IH.
  - eexists. split; [done|]. by right; eexists.
Qed.

(** Trimming finds a media type that begins and ends with letters and has no semicolon. *)
Lemma primary_found w1 m w2 rest d a mid b :
  whites w1 -> whites w2 -> (rest = ""%string \/ exists p, rest = String ";" p) ->
  to_ascii_lowercase m = String a (mid +:+ String b "")%string ->
  (97 <=? code a) && (code a <=? 122) = true -> (97 <=? code b) && (code b <=? 122) = true ->
  forallb (fun c => negb (Ascii.eqb c ";")) (String.list_ascii_of_string (String a (mid +:+ String b "")%string)) = true ->
  trim (hd d (split_on ";" (w1 +:+ m +:+ w2 +:+ rest)%string)) = m.
Proof.
  intros Hw1 Hw2 Hrest Em Ha Hb Hno.
  assert (forall w, whites w -> Forall (fun c => c <> ";"%char) (String.list_ascii_of_string w)) as Hws.
  { intros w Hw%whites_bytes. eapply Forall_impl; [exact Hw|]. by intros c Hc ->. }
  rewrite <-!(str_app_assoc _ _ rest), <-str_app_assoc, (hd_split_prefix _ rest d); [| |done]; cycle 1.
  { apply no_char_bytes. rewrite !list_ascii_app, !Forall_app. split_and!; [by auto| |by auto].
    apply Forall_forall. intros c Hc ->. rewrite forallb_forall in Hno.
    rewrite <-Em, list_ascii_lower in Hno.
    pose proof (in_map ascii_lower _ _ (proj1 (list_elem_of_In _ _) Hc)) as Hin.
    by specialize (Hno _ Hin). }
  destruct m as [|c m]; [done|]. injection Em as <- Em.
  apply to_ascii_lowercase_app in Em as (s & t & -> & _ & Et).
  destruct t as [|e [|? ?]]; [done| |done]. injection Et as <-.
  rewrite str_app_assoc, str_app_cons, str_app_assoc, str_app_cons, str_app_nil_l.
  apply trim_letters; [done..| |]; by apply letter_not_white.
Qed.

Lemma content_type_spec `{Codecs} v ct e :
  to_str v = Some ct ->
  detect_encoding (Some v) = Ok e <-> names_media_type (media_type e) ct.
Proof.
  intros Ev. unfold detect_encoding. rewrite Ev. simpl.
  set (primary := trim (hd ct (split_on ";" ct))).
  assert (to_ascii_lowercase primary = media_type e -> names_media_type (media_type e) ct) as Hdecomp.
  { intros Ep. destruct (hd_split_decomp ct ct) as (rest & Ect & Hrest).
    destruct (trim_start_decomp (hd ct (split_on ";" ct))) as (w1 & Hw1 & E1).
    destruct (trim_end_decomp (trim_start (hd ct (split_on ";" ct)))) as (w2 & Hw2 & E2).
    exists w1, primary, w2, rest. split_and!; try done. rewrite Ect at 1. rewrite E1 at 1.
    rewrite E2 at 1. by rewrite !str_app_assoc. }
  assert (forall e, names_media_type (media_type e) ct -> to_ascii_lowercase primary = media_type e)
    as Hfound.
  { intros e' (w1 & m & w2 & rest & -> & Hw1 & Hw2 & Em & Hrest). unfold primary.
    rewrite <-Em. f_equal. destruct e'.
    - by apply (primary_found _ m _ _ _ "a" "pplication/x-protobu" "f").
    - by apply (primary_found _ m _ _ _ "a" "pplication/jso" "n"). }
  split.
  - intros He. apply Hdecomp.
    destruct (eq_ignore_ascii_case primary PROTOBUF_CT) eqn:Ep.
    { injection He as <-. by apply eq_ignore_ascii_case_spec in Ep. }
    destruct (eq_ignore_ascii_case primary JSON_CT) eqn:Ej; [|done].
    injection He as <-. by apply eq_ignore_ascii_case_spec in Ej.
  - intros Hn%Hfound. unfold eq_ignore_ascii_case. rewrite Hn. by destruct e.
Qed.

(** ** Slots *)

Section slot_lemmas.
Context `{World} `{NaiveDates} {C : Type} `{ChannelOps C ExportRequest} {Sem : Type}
  `{SemaphoreOps Sem} `{Codecs}.
Context (to_vec : batch -> option (list byte)) (render : batch -> bool -> string).
Implicit Types (env : RequestEnv Sem) (l : ReceiveLimits Sem) (x : HttpState (C := C) (Sem := Sem)).

(** [l'] is [l] but for the slots, which are [s]. *)
Definition only_slots l (s : Sem) l' : Prop :=
  slots l' = s /\ waiting l' = waiting l /\ max_waiting l' = max_waiting l /\ timeout l' = timeout l.

(** A slot was taken, at once or after waiting, and what is left are [s]. *)
Definition slot_taken (await : Sem -> option Sem) l (s : Sem) : Prop :=
  try_acquire (slots l) = Some s \/ try_acquire (slots l) = None /\ await (slots l) = Some s.

Lemma admit_request_slots await l :
  0 <= waiting l < word ->
  let '(l', res) := admit_request await l in
  match res with
  | Ok _ => exists s, slot_taken await l s /\ only_slots l s l'
  | Err _ => only_slots l (slots l) l'
  end.
Proof.
  intros Hw. unfold admit_request, slot_taken, only_slots.
  assert (forall l1, waiting l1 = wrap_add (waiting l) 1 -> waiting (guard_drop l1) = waiting l) as Hg.
  { intros l1 E. unfold guard_drop. simpl. rewrite E. unfold wrap_sub, wrap_add.
    rewrite Zminus_mod_idemp_l. rewrite Z.add_simpl_r. by apply wrap_small. }
  destruct (try_acquire (slots l)) as [s|] eqn:Et; [exists s; auto|].
  unfold enter. destruct (negb (max_waiting l <? wrap_add (waiting l) 1)).
  - simpl. destruct (await (slots l)) as [s|] eqn:Ea.
    + exists s. split_and!; auto.
    + split_and!; auto.
  - split_and!; auto.
Qed.
End slot_lemmas.

(** * Properties *)

Section http_properties.
Context `{World} `{NaiveDatesLaws} {C : Type} `{ChannelOps C ExportRequest} {Sem : Type}
  `{SemaphoreOps Sem} `{Codecs}.
Context (to_vec : batch -> option (list byte)) (render : batch -> bool -> string).
Implicit Types (env : RequestEnv Sem) (x : HttpState (C := C) (Sem := Sem)).

(** C12. The answer tells what became of a request, whatever the log is: a file, a directory or
    none.  A client reads 200 exactly when its body ended by the deadline, was decoded by its
    content type, its usage is in the totals and its line in the log, if there is one (in a
    directory, in the file of today alone); every other answer leaves totals, outputs and
    proxy as they were, so that sending the request again cannot count it twice.  It leaves the
    log as it was too, on every day whose file the cleanup of the write spares, unless the log is a
    directory, the line was appended and the flush after it failed. *)
Theorem answer_tells_the_outcome {M} `{Message M} (wrap : M -> batch) signal env headers body x date :
  let log := sink_file (http_sink x) in
  log_sound log (http_disk x) -> log_young log (log_dir (write_env env)) date ->
  let '(x', answer) := handle to_vec render wrap signal env headers body x in
  let held := log_content log (http_disk x) date in
  let holds := log_content (sink_file (http_sink x')) (http_disk x') date in
  let line req := line_on log (today (write_env env)) date (line_of to_vec (wrap req)) in
  same_target log (sink_file (http_sink x')) /\
  match answer with
  | Ok reply =>
      response_status reply = 200 /\
      exists encoding at_ bytes req,
        detect_encoding headers = Ok encoding /\
        to_bytes body OTLP_MAX_REQUEST_BYTES = Some (at_, Ok bytes) /\
        at_ <= deadline_of env (http_limits x) /\ decode_request encoding bytes = Ok req /\
        response_content_type reply = media_type encoding /\
        aggregator (http_sink x') = (ingest (aggregator (http_sink x)) (wrap req)).1 /\
        holds = held ++ line req
  | Err e =>
      (into_response e).1 <> 200 /\
      aggregator (http_sink x') = aggregator (http_sink x) /\
      stdout (http_sink x') = stdout (http_sink x) /\
      pretty_log (http_sink x') = pretty_log (http_sink x) /\
      proxy (http_sink x') = proxy (http_sink x) /\
      (holds = held \/
       exists p req, e = Persistence p /\
         unflushed to_vec (write_env env) log (wrap req) (http_disk x) = true /\ holds = held ++ line req)
  end.
Proof.
  intros log Hs Hy. pose proof (handle_cases to_vec render wrap signal env headers body x) as Hc.
  destruct (handle _ _ _ _ _ _ _ _) as [x' answer].
  destruct Hc as [(Es & Ed & e & -> & _)|(encoding & at_ & bytes & req & res & K1 & K2 & K3 & K4 & Er & ->)].
  { rewrite Es, Ed. split; [apply same_target_refl|]. split_and!; try done; [by destruct e|by left]. }
  pose proof (record_with_permit_outcome to_vec render (http_admission x) (write_env env) (wrap req)
    _ _ date Hs Hy) as Ho.
  rewrite Er in Ho. destruct Ho as (Ht & Hl & Ho). split; [done|].
  destruct res as [[]|e]; simpl in Hl.
  - split; [by destruct encoding|]. exists encoding, at_, bytes, req. by split_and!; [..|destruct encoding| |].
  - destruct Ho as (? & ? & ? & ?). split_and!; try done. fold log in Hl.
    destruct (http_admission x), (unflushed _ _ _ _ _) eqn:Eu; simpl in Hl;
      [right; by exists e, req|left; by rewrite Hl, app_nil_r..].
Qed.

(** A request that is well formed is never given up: when its content type is accepted
    and its body, if it ends in time, decodes, the answer is 200 or one that OTLP lets a
    client retry, as the program's own proxy client does; refusals that make a client drop
    its data are answers to the content type or the body alone. *)
Theorem well_formed_request_is_retried {M} `{Message M} `{Crates} (wrap : M -> batch) signal env
    headers body x clocks encoding :
  detect_encoding headers = Ok encoding ->
  (forall at_ r, to_bytes body OTLP_MAX_REQUEST_BYTES = Some (at_, r) ->
     at_ <= deadline_of env (http_limits x) ->
     exists bytes req, r = Ok bytes /\ decode_request encoding bytes = Ok req) ->
  match (handle to_vec render wrap signal env headers body x).2 with
  | Ok reply => response_status reply = 200
  | Err e =>
      retry_delay clocks (HttpExportFailure (into_response e).1 None) = Some 0 /\
      match e with BusyReceiver _ | BodyTimeout | Persistence _ => True | _ => False end
  end.
Proof.
  intros Ed Hbody. unfold handle. rewrite Ed. unfold receive_body.
  destruct (admit_request _ _) as [l [[]|r]]; [|done].
  unfold timeout_at. destruct (to_bytes body _) as [[at_ r]|] eqn:Eb; [|done].
  destruct (Z.leb_spec at_ (deadline_of env (http_limits x))); [|done].
  destruct (Hbody at_ r eq_refl) as (bytes & req & -> & Er); [done|]. rewrite Er.
  destruct (record_with_permit _ _ _ _ _ _) as [[s d] [[]|e]]; [|done]. by destruct encoding.
Qed.

(** Whatever becomes of a request, its slot is free again and nobody waits in its name:
    a refusal of the content type touches no slot, a refusal of the receiver leaves the slots,
    and every other end gives back the one slot that was taken. *)
Theorem handled_request_returns_its_slot {M} `{Message M} (wrap : M -> batch) signal env headers body x :
  0 <= waiting (http_limits x) < word ->
  let '(x', answer) := handle to_vec render wrap signal env headers body x in
  match answer with
  | Err (UnsupportedContentType _) => http_limits x' = http_limits x
  | Err (BusyReceiver _) => only_slots (http_limits x) (slots (http_limits x)) (http_limits x')
  | _ =>
      exists s, slot_taken (await_slot env (deadline_of env (http_limits x))) (http_limits x) s /\
        only_slots (http_limits x) (add_permit s) (http_limits x')
  end.
Proof.
  intros Hw. unfold handle. destruct (detect_encoding headers) as [encoding|e] eqn:Ed; cycle 1.
  { assert (exists ct, e = UnsupportedContentType ct) as [ct ->]; [|done]. revert Ed.
    unfold detect_encoding. destruct headers as [v|]; [destruct (to_str v)|]; simpl;
      repeat case_match; intros [=]; by eexists. }
  unfold receive_body.
  pose proof (admit_request_slots (await_slot env (deadline_of env (http_limits x))) (http_limits x) Hw)
    as Ha.
  destruct (admit_request _ _) as [l [[]|r]]; [|done]. destruct Ha as (s & Hs & E1 & E2 & E3 & E4).
  assert (only_slots (http_limits x) (add_permit s) (release l)) as Hrel.
  { unfold only_slots, release. simpl. by rewrite E1. }
  destruct (timeout_at _ _) as [[bytes|e]|]; [|by destruct (exceeds_length_limit e); exists s|by exists s].
  destruct (decode_request encoding bytes) as [req|e] eqn:Er.
  - destruct (record_with_permit _ _ _ _ _ _) as [[s' d] [[]|e]]; by exists s.
  - unfold decode_request, result_map_err in Er.
    destruct encoding; [destruct (prost_decode bytes)|destruct (from_slice bytes)];
      try discriminate Er; injection Er as <-; by exists s.
Qed.
End http_properties.

(** The content type decides the decoder as RFC 9110 and OTLP say: a value selects one
    exactly when it names its media type, in any case, with any white space around it and any
    parameters after a semicolon; without a header the body is protobuf. *)
Theorem content_type_exact `{Codecs} v ct e :
  to_str v = Some ct ->
  (detect_encoding (Some v) = Ok e <-> names_media_type (media_type e) ct) /\
  detect_encoding None = Ok Protobuf.
Proof. intros Ev. split; [by apply content_type_spec|done]. Qed.

(** The statistics name every route with its own counters: when the names of the routes
    differ, the entry of a name is the snapshot of its route, and there are no others. *)
Theorem stats_report_every_route `{World} `{NaiveDates} {C : Type} `{ChannelOps C ExportRequest}
    {Sem : Type} (x : HttpState (C := C) (Sem := Sem)) router :
  proxy (http_sink x) = Some router -> NoDup (map lane_name (lanes router)) ->
  stats_usage (handle_stats x) = snapshot (aggregator (http_sink x)) /\
  exists m, stats_proxy (handle_stats x) = Some m /\
    forall name snap, m !! name = Some snap <->
      exists lane, lane ∈ lanes router /\ lane_name lane = name /\
        snap = metrics_snapshot (lane_metrics lane)
          (sat_sub (max_capacity (sender lane)) (capacity (sender lane))).
Proof.
  intros Er Hnd. split; [done|]. unfold handle_stats. rewrite Er. simpl.
  eexists. split; [done|]. intros name snap.
  assert (forall l (m : gmap string RouteMetricsSnapshot), NoDup l.*1 ->
    for_each (fun m e => <[e.1 := e.2]> m) m l = list_to_map l ∪ m) as Hl.
  { clear. induction l as [|[k v] l IH]; intros m Hnd; simpl; [by rewrite map_empty_union|].
    apply NoDup_cons in Hnd as [Hk Hnd]. unfold for_each in *. simpl. rewrite IH by done.
    rewrite <-insert_union_r by (by apply not_elem_of_list_to_map_1). by rewrite insert_union_l. }
  assert ((router_snapshot router).*1 = map lane_name (lanes router)) as Ek.
  { unfold router_snapshot. rewrite <-list_fmap_compose. done. }
  unfold collect_map. rewrite Hl, map_union_empty by (by rewrite Ek).
  rewrite <-elem_of_list_to_map by (by rewrite Ek). unfold router_snapshot.
  rewrite list_elem_of_fmap. split.
  - intros (lane & [= -> ->] & Hin). by exists lane.
  - intros (lane & Hin & <- & ->). by exists lane.
Qed.

(** The routes are met exactly: a request reaches a handler when its path is a route's, byte
    for byte, and its method the route's; and what the program's own proxy client posts to the
    path of a signal, with the content type it sends, reaches the handler of that signal and is
    decoded as protobuf, so that one receiver can forward to another. *)
Theorem routes_are_exact :
  (forall m path e,
     router m path = RoutedTo e <->
     exists route_method, (path, route_method, e) ∈ http_routes /\ serves route_method m = true) /\
  (forall `{Codecs} v, to_str v = Some OTLP_HTTP_PROTOBUF -> detect_encoding (Some v) = Ok Protobuf) /\
  router POST OTLP_HTTP_TRACES_PATH = RoutedTo (Export Traces) /\
  router POST OTLP_HTTP_METRICS_PATH = RoutedTo (Export Metrics) /\
  router POST OTLP_HTTP_LOGS_PATH = RoutedTo (Export Logs).
Proof.
  split; [|split; [|done]].
  - intros m path e. unfold router. split.
    + destruct (List.find _ http_routes) as [[[p rm] e']|] eqn:E; [|done].
      apply List.find_some in E as [Hin Hp]. simpl in Hp. apply String.eqb_eq in Hp as <-.
      destruct (serves rm m) eqn:Es; [|done]. intros [= <-]. exists rm.
      split; [by apply list_elem_of_In|done].
    + intros (rm & Hin & Hs). unfold http_routes in *.
      rewrite !elem_of_cons, elem_of_nil in Hin.
      repeat destruct Hin as [Hin|Hin]; try done; simplify_eq/=; by rewrite Hs.
  - intros Hc v Ev. unfold detect_encoding. by rewrite Ev.
Qed.

(** ** A receiver to evaluate examples with *)

(** A body is its end and its bytes, or never ends; requests without records decode. *)
Definition sample_codecs : Codecs := {|
  Body := option (Z * list byte);
  to_bytes body limit :=
    option_map (fun b => (b.1, if Z.of_nat (length b.2) <=? limit then Ok b.2
      else Err (mkBodyError false (Some (mkBodyError true None))))) body;
  to_str bytes := Some (String.string_of_list_byte bytes);
  display_body_error _ := "error";
  reply_encode _ := [];
  reply_to_json _ := [x7b; x7d];
|}.

Definition sample_message : Message ExportLogsServiceRequest := {|
  prost_decode bytes := match bytes with [] => Ok {| resource_logs := [] |} | _ => Err "tag"%string end;
  from_slice bytes := match bytes with [x7b; x7d] => Ok {| resource_logs := [] |} | _ => Err "eof"%string end;
|}.

#[local] Existing Instance sample_world.
#[local] Existing Instance sample_dates.
#[local] Existing Instance sample_dates_laws.
#[local] Existing Instance sample_codecs.
#[local] Existing Instance sample_message.
#[local] Existing Instance sample_crates.

Definition sample_http : HttpState (C := list_channel ExportRequest) (Sem := Z) :=
  mkHttp (limits_new 1 (secs 5)) directory_sink (directory_disk []) true.
Definition sample_request : RequestEnv Z := mkRequestEnv 0 (secs 1000000) (fun _ _ => None) sample_env.
Definition sample_ct : list byte := String.list_byte_of_string " Application/JSON ; charset=utf-8".
Definition sample_body : Body := Some (secs 1, [x7b; x7d]).
Definition stalled_body : Body := None.
Definition sample_handle (body : Body) :=
  handle_logs sample_to_vec sample_render sample_request (Some sample_ct) body sample_http.

Lemma answer_tells_the_outcome_witness :
  (sample_handle sample_body).2 = Ok (mkResponse 200 JSON_CT [x7b; x7d]) /\
  forall date, log_content (sink_file (http_sink (sample_handle sample_body).1))
      (http_disk (sample_handle sample_body).1) date =
    log_content (sink_file directory_sink) (directory_disk []) date ++
      line_on (sink_file directory_sink) "2026-07-01"%string date [x7b; x7d; x0a].
Proof.
  assert ((sample_handle sample_body).2 = Ok (mkResponse 200 JSON_CT [x7b; x7d])) as E by reflexivity.
  split; [exact E|]. intros date.
  pose proof (answer_tells_the_outcome sample_to_vec sample_render BLogs Logs sample_request
    (Some sample_ct) sample_body sample_http date (directory_log_sound []) (directory_log_young date)) as H.
  change (handle sample_to_vec sample_render BLogs Logs sample_request (Some sample_ct)
    sample_body sample_http) with (sample_handle sample_body) in H.
  rewrite (surjective_pairing (sample_handle sample_body)), E in H.
  destruct H as (_ & _ & encoding & at_ & bytes & [] & _ & _ & _ & Hb & _ & _ & H).
  exact H.
Defined.

(** A body that never ends is answered with 503 at the deadline. *)
Lemma well_formed_request_is_retried_witness :
  (sample_handle stalled_body).2 = Err BodyTimeout /\
  retry_delay (mkClocks 0 0 0) (HttpExportFailure (into_response BodyTimeout).1 None) = Some 0.
Proof.
  split; [reflexivity|].
  refine (proj1 (well_formed_request_is_retried sample_to_vec sample_render BLogs Logs sample_request
    (Some sample_ct) stalled_body sample_http (mkClocks 0 0 0) Json eq_refl _)).
  intros ? ? [=].
Defined.

Lemma handled_request_returns_its_slot_witness :
  exists s, slot_taken (fun _ => None) (http_limits sample_http) s /\
    only_slots (http_limits sample_http) (s + 1) (http_limits (sample_handle stalled_body).1).
Proof.
  assert ((sample_handle stalled_body).2 = Err BodyTimeout) as E by reflexivity.
  pose proof (handled_request_returns_its_slot sample_to_vec sample_render BLogs Logs sample_request
    (Some sample_ct) stalled_body sample_http
    ltac:(split; [vm_compute; discriminate|vm_compute; reflexivity])) as H.
  change (handle sample_to_vec sample_render BLogs Logs sample_request (Some sample_ct)
    stalled_body sample_http) with (sample_handle stalled_body) in H.
  rewrite (surjective_pairing (sample_handle stalled_body)), E in H. exact H.
Defined.

(** Two routes and their counters. *)
Definition routed_router : ProxyRouter (list_channel ExportRequest) := router_new sample_lanes.
Definition routed_http : HttpState (C := list_channel ExportRequest) (Sem := Z) :=
  mkHttp (limits_new 1 (secs 5))
    (mkSink true health_default None None None (aggregator sample_sink) (Some routed_router))
    sample_disk true.

Lemma stats_report_every_route_witness :
  exists m, stats_proxy (handle_stats routed_http) = Some m /\
    forall lane, lane ∈ sample_lanes -> is_Some (m !! lane_name lane).
Proof.
  destruct (stats_report_every_route routed_http routed_router eq_refl
    ltac:(apply (bool_decide_unpack _); vm_compute; exact I)) as [_ (m & Em & Hm)].
  exists m. split; [exact Em|]. intros lane Hin. eexists. apply Hm. by exists lane.
Defined.

Lemma content_type_exact_witness : names_media_type JSON_CT " Application/JSON ; charset=utf-8".
Proof.
  exact (proj1 (proj1 (content_type_exact sample_ct " Application/JSON ; charset=utf-8" Json eq_refl))
    eq_refl).
Defined.
