(* ===== verification/Grpc.v ===== *)
(** * The gRPC receiver ([src/src/grpc.rs])

    A layer in front of the generated services takes the slot and puts the deadline on the
    body; the services record the decoded request.  What tonic and tower do between the two,
    reading, inflating and decoding the body, is a parameter with its documented behaviour. *)

From Stdlib Require Import Strings.Byte.
From S2P Require Import Prelude Io Otlp AggState AggIngest AggBatch Storage Config Cli Channel Router Client Rotation Health Pretty Sink DailyLog Admission Http.

Local Open Scope Z_scope.

(** ** Data *)

(** A status with its message. *)
Record Refusal := mkRefusal { refusal_status : Status; refusal_message : string }.

Class Tonic := {
  (** The body of a request and the errors it can end with. *)
  GrpcBody : Type;
  BoxError : Type;
  (** What a [DeadlineBody] ends with at its deadline, and [error.is::<TimeoutError>()]. *)
  timeout_error : BoxError;
  is_timeout : BoxError -> bool;
  box_status : Refusal -> BoxError;
  (** A [DeadlineBody] with the time that remains, read to its end. *)
  read_body : GrpcBody -> Z -> result (list byte) BoxError;
  (** The status tonic answers when the body fails with an error. *)
  status_of_error : BoxError -> Refusal;
}.

(** tonic answers with the status an error carries. *)
Class TonicLaws `{Tonic} : Prop := {
  status_of_box r : status_of_error (box_status r) = r;
  timeout_is_timeout : is_timeout timeout_error = true;
}.

(** The decoder of a service: tonic's limits and inflation, then [prost]. *)
Class GrpcMessage (M : Type) := { grpc_decode : list byte -> result M Refusal }.

(** [Status::unavailable]. *)
Definition unavailable (message : string) : Refusal :=
  mkRefusal (mkStatus Unavailable [] false) message.

Definition deadline_exceeded_as_unavailable `{Tonic} (error : BoxError) : BoxError :=
  if is_timeout error
  then box_status (unavailable "request body was not received before the deadline; retry later")
  else error.

Definition persistence_status (e : RecordError) : Refusal :=
  unavailable ("failed to persist telemetry: " +:+ record_error_text e).

Section grpc.
Context `{World} `{NaiveDates} {C : Type} `{ChannelOps C ExportRequest} {Sem : Type}
  `{SemaphoreOps Sem} `{Tonic}.
Context (to_vec : batch -> option (list byte)) (render : batch -> bool -> string).

(** What is behind a request is what is behind the HTTP handlers. *)
#[local] Abbreviation state := (HttpState (C := C) (Sem := Sem)).

(** ** Services *)

(** [export] of the three services, for their type of requests. *)
Definition export {M} (wrap : M -> batch) (signal : ProxySignal) (env : WriteEnv) (payload : M)
    (x : state) : state * result ExportResponse Refusal :=
  let '(s, d, res) :=
    record_with_permit to_vec render (http_admission x) env (wrap payload) (http_sink x)
      (http_disk x) in
  (mkHttp (http_limits x) s d (http_admission x),
   match res with
   | Ok _ => Ok (mkReply signal None)
   | Err e => Err (persistence_status e)
   end).

(** The generated service: it reads and decodes the body before it calls [export]. *)
Definition service_call {M} `{GrpcMessage M} (map_err : BoxError -> BoxError) (wrap : M -> batch)
    (signal : ProxySignal) (env : WriteEnv) (body : GrpcBody) (remaining : Z) (x : state)
    : state * result ExportResponse Refusal :=
  match read_body body remaining with
  | Err e => (x, Err (status_of_error (map_err e)))
  | Ok bytes =>
      match grpc_decode bytes with
      | Err r => (x, Err r)
      | Ok payload => export wrap signal env payload x
      end
  end.

(** [Admission::call]; [admitted_at] is the clock after admission. *)
Definition admission_call {M} `{GrpcMessage M} (wrap : M -> batch) (signal : ProxySignal)
    (env : RequestEnv Sem) (admitted_at : Z) (body : GrpcBody) (x : state)
    : state * result ExportResponse Refusal :=
  let deadline := deadline_of env (http_limits x) in
  match admit_request (await_slot env deadline) (http_limits x) with
  | (l, Err rejected) =>
      (mkHttp l (http_sink x) (http_disk x) (http_admission x),
       Err (unavailable (rejected_message rejected)))
  | (l, Ok _) =>
      let remaining := Z.max 0 (deadline - admitted_at) in
      let '(x, response) :=
        service_call deadline_exceeded_as_unavailable wrap signal (write_env env) body remaining
          (mkHttp l (http_sink x) (http_disk x) (http_admission x)) in
      (mkHttp (release (http_limits x)) (http_sink x) (http_disk x) (http_admission x), response)
  end.

Definition export_traces `{GrpcMessage ExportTraceServiceRequest} := admission_call BTraces Traces.
Definition export_metrics `{GrpcMessage ExportMetricsServiceRequest} := admission_call BMetrics Metrics.
Definition export_logs `{GrpcMessage ExportLogsServiceRequest} := admission_call BLogs Logs.

(** The service of a signal. *)
Definition call_export `{GrpcMessage ExportTraceServiceRequest, GrpcMessage ExportMetricsServiceRequest,
    GrpcMessage ExportLogsServiceRequest} (signal : ProxySignal) :=
  match signal with
  | Traces => export_traces
  | Metrics => export_metrics
  | Logs => export_logs
  end.
End grpc.

(** * Lemmas *)

Lemma unavailable_is_retried `{Crates} clocks r :
  code_of (refusal_status r) = Unavailable ->
  code_of (refusal_status r) = Unavailable /\
  is_Some (retry_delay clocks (GrpcFailure (refusal_status r))).
Proof. intros E. split; [done|]. unfold retry_delay. rewrite E. by eexists. Qed.

(** * Properties *)

Section grpc_properties.
Context `{World} `{NaiveDatesLaws} {C : Type} `{ChannelOps C ExportRequest} {Sem : Type}
  `{SemaphoreOps Sem} `{TonicLaws}.
Context (to_vec : batch -> option (list byte)) (render : batch -> bool -> string).
Implicit Types (env : RequestEnv Sem) (x : HttpState (C := C) (Sem := Sem)).

(** C19. The reply to a call tells what became of it, whatever the log is: it is a success
    exactly when the request was decoded, its usage is in the totals and its line in the log, if
    there is one (in a directory, in the file of today alone); a status leaves totals,
    outputs and proxy as they were, and the log too, on every day whose file the cleanup of the
    write spares, unless the log is a directory, the line was appended and the flush after it
    failed.  Whatever the reply, slots and waiting counter are those of a receiver that gave its
    one slot back. *)
Theorem rpc_answer_tells_the_outcome {M} `{GrpcMessage M} (wrap : M -> batch) signal env at_ body x date :
  let log := sink_file (http_sink x) in
  log_sound log (http_disk x) -> log_young log (log_dir (write_env env)) date ->
  0 <= waiting (http_limits x) < word ->
  let '(x', answer) := admission_call to_vec render wrap signal env at_ body x in
  (only_slots (http_limits x) (slots (http_limits x)) (http_limits x') \/
   exists s, slot_taken (await_slot env (deadline_of env (http_limits x))) (http_limits x) s /\
     only_slots (http_limits x) (add_permit s) (http_limits x')) /\
  let held := log_content log (http_disk x) date in
  let holds := log_content (sink_file (http_sink x')) (http_disk x') date in
  let line payload := line_on log (today (write_env env)) date (line_of to_vec (wrap payload)) in
  same_target log (sink_file (http_sink x')) /\
  match answer with
  | Ok reply =>
      reply = mkReply signal None /\
      exists bytes payload,
        read_body body (Z.max 0 (deadline_of env (http_limits x) - at_)) = Ok bytes /\
        grpc_decode bytes = Ok payload /\
        aggregator (http_sink x') = (ingest (aggregator (http_sink x)) (wrap payload)).1 /\
        holds = held ++ line payload
  | Err _ =>
      aggregator (http_sink x') = aggregator (http_sink x) /\
      stdout (http_sink x') = stdout (http_sink x) /\
      pretty_log (http_sink x') = pretty_log (http_sink x) /\
      proxy (http_sink x') = proxy (http_sink x) /\
      (holds = held \/
       exists payload, unflushed to_vec (write_env env) log (wrap payload) (http_disk x) = true /\
         holds = held ++ line payload)
  end.
Proof.
  intros log Hs Hy Hw. unfold admission_call.
  pose proof (admit_request_slots (await_slot env (deadline_of env (http_limits x))) (http_limits x) Hw)
    as Ha.
  destruct (admit_request _ _) as [l [[]|r]]; cycle 1.
  { split; [by left|]. split; [apply same_target_refl|]. by split_and!; [..|left]. }
  destruct Ha as (s & Htaken & E1 & E2 & E3 & E4).
  assert (only_slots (http_limits x) (add_permit s) (release l)) as Hrel.
  { unfold only_slots, release. simpl. by rewrite E1. }
  unfold service_call. destruct (read_body _ _) as [bytes|e] eqn:Eb; cycle 1.
  { split; [right; by exists s|]. split; [apply same_target_refl|]. by split_and!; [..|left]. }
  destruct (grpc_decode bytes) as [payload|r] eqn:Ed; cycle 1.
  { split; [right; by exists s|]. split; [apply same_target_refl|]. by split_and!; [..|left]. }
  unfold export. simpl.
  pose proof (record_with_permit_outcome to_vec render (http_admission x) (write_env env)
    (wrap payload) _ _ date Hs Hy) as Ho.
  destruct (record_with_permit _ _ _ _ _ _) as [[s' d'] res]. destruct Ho as (Ht & Hl & Ho).
  split; [right; by exists s|]. split; [done|].
  destruct res as [[]|e]; simpl in Hl; [split; [done|]; by exists bytes, payload|].
  destruct Ho as (? & ? & ? & ?). split_and!; try done. fold log in Hl.
  destruct (http_admission x), (unflushed _ _ _ _ _) eqn:Eu; simpl in *;
    [right; by exists payload|left; by rewrite Hl, app_nil_r..].
Qed.

(** A call fails for good only for what it carries: if its body ends in time and decodes,
    or does not end in time at all, the answer is a success or an [Unavailable] that the
    program's own proxy client, as any OTLP client, sends again. *)
Theorem rpc_request_is_retried {M} `{GrpcMessage M} `{Crates} (wrap : M -> batch) signal env at_ body x
    clocks :
  match read_body body (Z.max 0 (deadline_of env (http_limits x) - at_)) with
  | Ok bytes => exists payload : M, grpc_decode bytes = Ok payload
  | Err e => is_timeout e = true
  end ->
  match (admission_call to_vec render wrap signal env at_ body x).2 with
  | Ok _ => True
  | Err r =>
      code_of (refusal_status r) = Unavailable /\
      is_Some (retry_delay clocks (GrpcFailure (refusal_status r)))
  end.
Proof.
  intros Hbody. unfold admission_call.
  destruct (admit_request _ _) as [l [[]|r]]; [|exact (unavailable_is_retried clocks (unavailable _) eq_refl)].
  unfold service_call. destruct (read_body _ _) as [bytes|e].
  - destruct Hbody as [payload ->]. unfold export.
    destruct (record_with_permit _ _ _ _ _ _) as [[s' d'] [[]|e]]; [exact I|].
    exact (unavailable_is_retried clocks (persistence_status e) eq_refl).
  - unfold deadline_exceeded_as_unavailable. rewrite Hbody, status_of_box.
    exact (unavailable_is_retried clocks (unavailable _) eq_refl).
Qed.
End grpc_properties.

(** ** A receiver to evaluate examples with *)

Definition sample_tonic : Tonic := {|
  GrpcBody := option (Z * list byte);
  BoxError := option Refusal;
  timeout_error := None;
  is_timeout e := match e with None => true | Some _ => false end;
  box_status r := Some r;
  read_body body remaining :=
    match body with
    | Some (at_, bytes) => if at_ <=? remaining then Ok bytes else Err None
    | None => Err None
    end;
  status_of_error e := default (mkRefusal (mkStatus Unknown [] false) "") e;
|}.

Lemma sample_tonic_laws : @TonicLaws sample_tonic.
Proof. by split. Qed.

#[local] Existing Instance sample_world.
#[local] Existing Instance sample_dates.
#[local] Existing Instance sample_dates_laws.
#[local] Existing Instance sample_crates.
#[local] Existing Instance sample_tonic.
#[local] Existing Instance sample_tonic_laws.

Definition sample_grpc_message : GrpcMessage ExportLogsServiceRequest := {|
  grpc_decode bytes :=
    match bytes with
    | [] => Ok {| resource_logs := [] |}
    | _ => Err (mkRefusal (mkStatus Internal [] false) "tag"%string)
    end;
|}.
#[local] Existing Instance sample_grpc_message.

Definition whole_body : GrpcBody := Some (secs 1, []).
Definition slow_body : GrpcBody := Some (secs 9, []).
Definition sample_call (body : GrpcBody) :=
  admission_call sample_to_vec sample_render BLogs Logs sample_request 0 body sample_http.

Lemma rpc_answer_tells_the_outcome_witness :
  (sample_call whole_body).2 = Ok (mkReply Logs None) /\
  forall date, log_content (sink_file (http_sink (sample_call whole_body).1))
      (http_disk (sample_call whole_body).1) date =
    log_content (sink_file directory_sink) (directory_disk []) date ++
      line_on (sink_file directory_sink) "2026-07-01"%string date [x7b; x7d; x0a].
Proof.
  assert ((sample_call whole_body).2 = Ok (mkReply Logs None)) as E by reflexivity.
  split; [exact E|]. intros date.
  pose proof (rpc_answer_tells_the_outcome sample_to_vec sample_render BLogs Logs sample_request 0
    whole_body sample_http date (directory_log_sound []) (directory_log_young date)
    ltac:(split; [vm_compute; discriminate|vm_compute; reflexivity])) as H.
  change (admission_call sample_to_vec sample_render BLogs Logs sample_request 0 whole_body sample_http)
    with (sample_call whole_body) in H.
  rewrite (surjective_pairing (sample_call whole_body)), E in H.
  destruct H as (_ & _ & _ & bytes & [] & _ & _ & _ & H). exact H.
Defined.

(** The body is not there at the deadline. *)
Lemma rpc_request_is_retried_witness :
  exists r, (sample_call slow_body).2 = Err r /\ code_of (refusal_status r) = Unavailable.
Proof.
  eexists. split; [reflexivity|].
  exact (proj1 (rpc_request_is_retried sample_to_vec sample_render BLogs Logs sample_request 0
    slow_body sample_http (mkClocks 0 0 0) eq_refl)).
Defined.
