(* ===== verification/Receiving.v ===== *)
(** * The receiver at work ([src/src/http.rs], [grpc.rs], [admission.rs], [Sink::record_with_permit])

    All requests at once.  A request of either protocol takes a slot, is read and decoded, and
    hands a clone of its permit to the task that records it; handler and task then live apart,
    since a client that goes away cancels the handler but not the task.  The state composes the
    semaphore and its requests ([Admission.receiver]) with the sink and its tasks
    ([Sink.server]); a step moves a request in one or both of them.  What is proved: every step
    is a step of each part, memory is bounded although clients stall and vanish, an
    acknowledged batch is recorded once, and every request comes to an end. *)

From Stdlib Require Import Strings.Byte.
From S2P Require Import Prelude Runs Io Otlp AggState AggIngest AggBatch Storage Config Cli Channel Router Rotation Health Pretty Sink Admission Http Grpc.

Local Open Scope Z_scope.

(** ** Data *)

(** The encoding of an HTTP request is known before it takes a slot. *)
Inductive Protocol := OverHttp (encoding : Encoding) | OverGrpc.

(** Where a handler is: in [admit]; reading the body; waiting for the lock of the sink; joining
    the task that records; with its result. *)
Inductive phase :=
| Admitting
| Reading (buffered : list byte)
| Submitting (r : batch)
| Awaiting (r : batch)
| Answering (r : batch) (res : result unit RecordError).

Record handler := mkHandler {
  h_protocol : Protocol;
  h_signal : ProxySignal;
  h_deadline : Z;
  h_phase : phase;
}.

Definition set_phase (h : handler) (p : phase) : handler :=
  mkHandler (h_protocol h) (h_signal h) (h_deadline h) p.

Inductive answer :=
| HttpAnswer (a : result Response HttpError)
| GrpcAnswer (a : result ExportResponse Refusal).

Definition answer_ok (a : answer) : bool :=
  match a with HttpAnswer a => is_ok a | GrpcAnswer a => is_ok a end.

(** The clones of its permit that a handler holds itself.  [receive_body] gives it one, which
    [record_with_permit] moves into the task; the layer of gRPC keeps one more for as long as
    the call takes. *)
Definition permits (h : handler) : nat :=
  match h_protocol h, h_phase h with
  | _, Admitting => 0
  | OverHttp _, (Reading _ | Submitting _) => 1
  | OverHttp _, (Awaiting _ | Answering _ _) => 0
  | OverGrpc, (Reading _ | Submitting _) => 2
  | OverGrpc, (Awaiting _ | Answering _ _) => 1
  end%nat.

(** The three routes and services by the signal they carry. *)
Class Requests `{Codecs} := {
  traces_message :: Message ExportTraceServiceRequest;
  metrics_message :: Message ExportMetricsServiceRequest;
  logs_message :: Message ExportLogsServiceRequest;
  traces_grpc :: GrpcMessage ExportTraceServiceRequest;
  metrics_grpc :: GrpcMessage ExportMetricsServiceRequest;
  logs_grpc :: GrpcMessage ExportLogsServiceRequest;
}.

Section decoding.
Context `{Requests}.

Definition wrapped {M E} (wrap : M -> batch) (r : result M E) : result batch E :=
  (let? m := r in Ok (wrap m))%res.

Definition decode_http (signal : ProxySignal) (encoding : Encoding) (bytes : list byte)
    : result batch HttpError :=
  match signal with
  | Traces => wrapped BTraces (decode_request encoding bytes)
  | Metrics => wrapped BMetrics (decode_request encoding bytes)
  | Logs => wrapped BLogs (decode_request encoding bytes)
  end.

Definition decode_grpc (signal : ProxySignal) (bytes : list byte) : result batch Refusal :=
  match signal with
  | Traces => wrapped BTraces (grpc_decode bytes)
  | Metrics => wrapped BMetrics (grpc_decode bytes)
  | Logs => wrapped BLogs (grpc_decode bytes)
  end.

Definition decode (h : handler) (bytes : list byte) : result batch answer :=
  match h_protocol h with
  | OverHttp encoding =>
      result_map_err (fun e => HttpAnswer (Err e)) (decode_http (h_signal h) encoding bytes)
  | OverGrpc => result_map_err (fun r => GrpcAnswer (Err r)) (decode_grpc (h_signal h) bytes)
  end.
End decoding.

(** ** Answers *)

Section answers.
Context `{Codecs} `{Tonic}.

Definition rejected (h : handler) (r : Rejected) : answer :=
  match h_protocol h with
  | OverHttp _ => HttpAnswer (Err (BusyReceiver r))
  | OverGrpc => GrpcAnswer (Err (unavailable (rejected_message r)))
  end.

Definition broken_grpc (e : BoxError) : answer :=
  GrpcAnswer (Err (status_of_error (deadline_exceeded_as_unavailable e))).

Definition late (h : handler) : answer :=
  match h_protocol h with
  | OverHttp _ => HttpAnswer (Err BodyTimeout)
  | OverGrpc => broken_grpc timeout_error
  end.

Definition broken_http (e : BodyError) : answer :=
  HttpAnswer (Err (if exceeds_length_limit e then BodyTooLarge else BadBody e)).

(** The end of [handle_*] and [export]. *)
Definition recorded (h : handler) (res : result unit RecordError) : answer :=
  match h_protocol h, res with
  | OverHttp encoding, Ok _ =>
      HttpAnswer (Ok (encode_response encoding (mkReply (h_signal h) None)))
  | OverHttp _, Err e => HttpAnswer (Err (Persistence e))
  | OverGrpc, Ok _ => GrpcAnswer (Ok (mkReply (h_signal h) None))
  | OverGrpc, Err e => GrpcAnswer (Err (persistence_status e))
  end.

(** How the reading of a body fails before its deadline: what was read does not decode, or the
    body ends with an error. *)
Inductive body_fails `{!Requests} (h : handler) (buffered : list byte) : answer -> Prop :=
| fails_decoding a : decode h buffered = Err a -> body_fails h buffered a
| fails_http encoding e : h_protocol h = OverHttp encoding -> body_fails h buffered (broken_http e)
| fails_grpc e :
    h_protocol h = OverGrpc -> is_timeout e = false -> body_fails h buffered (broken_grpc e).
End answers.

(** ** The composed state *)

(** Handler and task of a request share its number with its permit.  [answers] pairs what a
    handler submitted, if it got there, with its answer; [abandoned] are the recorded batches
    whose handler was cancelled: histories. *)
Record receiving `{NaiveDates} (C Sem : Type) := mkReceiving {
  recv : Admission.receiver Sem;
  store : Sink.server (C := C);
  handlers : gmap nat handler;
  answers : list (option batch * answer);
  abandoned : list batch;
}.
Arguments mkReceiving {_ C Sem} _ _ _ _ _.
Arguments recv {_ C Sem} _.
Arguments store {_ C Sem} _.
Arguments handlers {_ C Sem} _.
Arguments answers {_ C Sem} _.
Arguments abandoned {_ C Sem} _.

(** What happens; polls of a request's own future are apart from what the network, the clock
    and the client do to it. *)
Inductive action :=
| Arrive (r : nat) | Refuse | Poll (r : nat) | Receive (r : nat) | BodyEnds (r : nat)
| Expire (r : nat) | RecordTask (r : nat) | Cancel (r : nat) | Upkeep | Tick.

Section steps.
Context `{World} `{NaiveDates} {C : Type} `{ChannelOps C ExportRequest} {Sem : Type}
  `{SemaphoreOps Sem} `{Codecs} `{!Requests} `{Tonic}.
Context (to_vec : batch -> option (list byte)) (render : batch -> bool -> string).
(** The last instant the clock can represent. *)
Context (instant_max : Z).

#[local] Abbreviation state := (receiving C Sem).
#[local] Abbreviation sink_server := (Sink.server (C := C)).
Implicit Types (x y : state) (a : Admission.receiver Sem) (s : sink_server) (r : nat) (h : handler).

(** A step of [Admission] that takes request [r] to [q]. *)
Definition moves r (q : option request) a a' : Prop :=
  Admission.step a a' /\ Admission.now a' = Admission.now a /\
  requests a' = match q with Some q => <[r := q]> (requests a) | None => delete r (requests a) end.

(** [n] clones of the permit live. *)
Definition live (n : nat) : option request := match n with O => None | S k => Some (Holding k) end.

(** A clone is dropped. *)
Definition drops_one r a a' : Prop :=
  exists n, requests a !! r = live (S n) /\ moves r (live n) a a'.

Fixpoint drops r (n : nat) a a' : Prop :=
  match n with
  | O => a' = a
  | S n => exists b, drops_one r a b /\ drops r n b a'
  end.

(** A clone is made. *)
Definition clones r a a' : Prop :=
  exists n, requests a !! r = live (S n) /\ moves r (live (S (S n))) a a'.

(** The awaits of [admit] in the order it reaches them. *)
Definition admission_move (q q' : request) : Prop :=
  match q, q' with
  | Contending d, Waiting d' => d' = d
  | Contending _, Refused => True
  | Waiting _, Acquired => True
  | Acquired, Holding O => True
  | _, _ => False
  end.

(** The layer of gRPC puts a clone among the extensions of the request. *)
Definition to_extensions h r a a' : Prop :=
  match h_protocol h with OverHttp _ => a' = a | OverGrpc => clones r a a' end.

(** [receive_permit] clones the one there, [into_inner] drops it. *)
Definition from_extensions h r a a' : Prop :=
  match h_protocol h with
  | OverHttp _ => a' = a
  | OverGrpc => exists b, clones r a b /\ drops_one r b a'
  end.

Definition with_handler x r h : gmap nat handler := <[r := h]> (handlers x).

(** The task of a request persists, then counts. *)
Definition task_move (st st' : stage) : Prop :=
  match st, st' with
  | Writing b, Counting b' => b' = b
  | Counting b, Publishing b' _ => b' = b
  | _, _ => False
  end.

(** The handler is gone with its permits, and answered or was cancelled. *)
Definition leave x r a (answered : list (option batch * answer)) (lost : list batch) : state :=
  mkReceiving a (store x) (delete r (handlers x)) (answers x ++ answered) (abandoned x ++ lost).

(** A handler goes on to its next phase. *)
Definition goes x r h (p : phase) a : state :=
  mkReceiving a (store x) (with_handler x r (set_phase h p)) (answers x) (abandoned x).

(** The task of a request ends: its result goes to the handler that joins it, if there is
    one. *)
Definition settle x r (b : batch) (res : result unit RecordError) a s : state :=
  match handlers x !! r with
  | Some h =>
      mkReceiving a s (with_handler x r (set_phase h (Answering b res))) (answers x) (abandoned x)
  | None =>
      mkReceiving a s (handlers x) (answers x) (abandoned x ++ if is_ok res then [b] else [])
  end.

(** What a cancelled handler will not tell. *)
Definition untold (p : phase) : list batch :=
  match p with Answering b (Ok _) => [b] | _ => [] end.

Inductive step : action -> state -> state -> Prop :=
(** The content type is refused before a slot is asked for. *)
| step_refuse x headers e :
    detect_encoding headers = Err e ->
    step Refuse x (mkReceiving (recv x) (store x) (handlers x)
      (answers x ++ [(None, HttpAnswer (Err e))]) (abandoned x))
(** A request arrives and tries for a slot. *)
| step_arrive x r p signal d q a :
    handlers x !! r = None -> requests (recv x) !! r = None ->
    d = deadline instant_max (Admission.now (recv x)) (limits (recv x)) ->
    q = Holding 0 \/ q = Contending d -> moves r (Some q) (recv x) a ->
    step (Arrive r) x
      (mkReceiving a (store x) (with_handler x r (mkHandler p signal d Admitting)) (answers x)
        (abandoned x))
| step_admission x r h q q' a :
    handlers x !! r = Some h -> h_phase h = Admitting -> requests (recv x) !! r = Some q ->
    admission_move q q' -> moves r (Some q') (recv x) a ->
    step (Poll r) x (goes x r h Admitting a)
| step_busy x r h a :
    handlers x !! r = Some h -> h_phase h = Admitting ->
    requests (recv x) !! r = Some Refused -> moves r None (recv x) a ->
    step (Poll r) x (leave x r a [(None, rejected h Busy)] [])
| step_timed_out x r h d a :
    handlers x !! r = Some h -> h_phase h = Admitting ->
    requests (recv x) !! r = Some (Waiting d) -> d <= Admission.now (recv x) ->
    moves r None (recv x) a ->
    step (Expire r) x (leave x r a [(None, rejected h TimedOut)] [])
| step_cancel_waiting x r h d a :
    handlers x !! r = Some h -> h_phase h = Admitting ->
    requests (recv x) !! r = Some (Waiting d) -> moves r None (recv x) a ->
    step (Cancel r) x (leave x r a [] [])
(** The slot is taken and the body is read. *)
| step_read x r h a :
    handlers x !! r = Some h -> h_phase h = Admitting ->
    requests (recv x) !! r = Some (Holding 0) -> to_extensions h r (recv x) a ->
    step (Poll r) x (goes x r h (Reading []) a)
| step_receive x r h buffered chunk :
    handlers x !! r = Some h -> h_phase h = Reading buffered ->
    Z.of_nat (length (buffered ++ chunk)) <= OTLP_MAX_REQUEST_BYTES ->
    step (Receive r) x (goes x r h (Reading (buffered ++ chunk)) (recv x))
| step_decoded x r h buffered b a :
    handlers x !! r = Some h -> h_phase h = Reading buffered ->
    decode h buffered = Ok b -> from_extensions h r (recv x) a ->
    step (BodyEnds r) x (goes x r h (Submitting b) a)
| step_body_fails x r h buffered ans a :
    handlers x !! r = Some h -> h_phase h = Reading buffered ->
    body_fails h buffered ans -> drops r (permits h) (recv x) a ->
    step (BodyEnds r) x (leave x r a [(None, ans)] [])
| step_late x r h buffered a :
    handlers x !! r = Some h -> h_phase h = Reading buffered ->
    h_deadline h <= Admission.now (recv x) -> drops r (permits h) (recv x) a ->
    step (Expire r) x (leave x r a [(None, late h)] [])
(** [record_with_permit]: the flag is up and the task takes the permit with it, or it is down. *)
| step_submit x r h b s :
    handlers x !! r = Some h -> h_phase h = Submitting b -> admission (store x) = true ->
    tasks (store x) !! r = None -> Sink.step to_vec render (store x) s ->
    tasks s = <[r := Writing b]> (tasks (store x)) ->
    step (Poll r) x
      (mkReceiving (recv x) s (with_handler x r (set_phase h (Awaiting b))) (answers x) (abandoned x))
| step_closed x r h b a :
    handlers x !! r = Some h -> h_phase h = Submitting b -> admission (store x) = false ->
    drops_one r (recv x) a ->
    step (Poll r) x (goes x r h (Answering b (Err ShuttingDown)) a)
(** The task persists and counts; at its end the clone of the permit is dropped. *)
| step_task x r st st' s :
    tasks (store x) !! r = Some st -> task_move st st' -> Sink.step to_vec render (store x) s ->
    tasks s = <[r := st']> (tasks (store x)) ->
    step (RecordTask r) x (mkReceiving (recv x) s (handlers x) (answers x) (abandoned x))
| step_recorded x r b ws a s :
    tasks (store x) !! r = Some (Publishing b ws) -> Sink.step to_vec render (store x) s ->
    tasks s = delete r (tasks (store x)) -> drops_one r (recv x) a ->
    step (RecordTask r) x (settle x r b (Ok tt) a s)
| step_failed x r b env i d e a :
    tasks (store x) !! r = Some (Writing b) ->
    persist to_vec env b (inner (store x)) (disk (store x)) = (i, d, Err e) ->
    drops_one r (recv x) a ->
    step (RecordTask r) x (settle x r b (Err e) a
      (mkServer i d (admission (store x)) (delete r (tasks (store x))) (persisted (store x))
        (counted (store x))))
| step_answer x r h b res a :
    handlers x !! r = Some h -> h_phase h = Answering b res -> drops r (permits h) (recv x) a ->
    step (Poll r) x (leave x r a [(Some b, recorded h res)] [])
(** The client is gone and its future dropped. *)
| step_cancel x r h a :
    handlers x !! r = Some h -> h_phase h <> Admitting -> drops r (permits h) (recv x) a ->
    step (Cancel r) x (leave x r a [] (untold (h_phase h)))
(** Outputs, workers, shutdown and flush. *)
| step_upkeep x s :
    Sink.step to_vec render (store x) s -> tasks s = tasks (store x) ->
    step Upkeep x (mkReceiving (recv x) s (handlers x) (answers x) (abandoned x))
| step_tick x t :
    Admission.now (recv x) <= t ->
    step Tick x (mkReceiving (Admission.mkReceiver (limits (recv x)) (requests (recv x)) t)
      (store x) (handlers x) (answers x) (abandoned x)).

Definition opened (max_inflight timeout : Z) (i : SinkInner C) (d : Disk) : state :=
  mkReceiving (receiver_new max_inflight timeout) (Sink.started i d) ∅ [] [].

Definition reachable (max_inflight timeout : Z) (i : SinkInner C) (d : Disk) : state -> Prop :=
  rtc (fun x y => exists e, step e x y) (opened max_inflight timeout i d).
End steps.

(** ** Specification *)

Definition acknowledged (l : list (option batch * answer)) : list batch :=
  omap (fun e => if answer_ok e.2 then e.1 else None) l.

(** A recorded batch whose handler has not answered yet, and a counted one whose task has not
    ended. *)
Definition unanswered (h : handler) : option batch :=
  match h_phase h with Answering b (Ok _) => Some b | _ => None end.
Definition publishing (st : stage) : option batch :=
  match st with Publishing b _ => Some b | _ => None end.

Definition stage_batch (st : stage) : batch :=
  match st with Writing b | Counting b | Publishing b _ => b end.

(** How much of a request is in memory: its body or its batch, and the bytes of its body. *)
Definition copies (h : handler) : Z :=
  match h_phase h with Reading _ | Submitting _ => 1 | _ => 0 end.
Definition bytes_held (h : handler) : Z :=
  match h_phase h with Reading buffered => Z.of_nat (length buffered) | _ => 0 end.

Definition admitting (d : Z) (q : request) : Prop :=
  match q with
  | Contending d' | Waiting d' => d' = d
  | Refused | Acquired => True
  | Holding n => n = 0%nat
  end.

(** What a handler in a phase knows of its task. *)
Definition phase_task (p : phase) (t : option stage) : Prop :=
  match p with
  | Awaiting b => exists st, t = Some st /\ stage_batch st = b
  | Reading buffered => t = None /\ Z.of_nat (length buffered) <= OTLP_MAX_REQUEST_BYTES
  | _ => t = None
  end.

Definition task_permit (t : option stage) : nat := match t with Some _ => 1 | None => 0 end.

(** Permit, handler and task of a request agree. *)
Definition consistent (q : option request) (h : option handler) (t : option stage) : Prop :=
  match h with
  | None => q = live (task_permit t)
  | Some h =>
      phase_task (h_phase h) t /\
      match h_phase h with
      | Admitting => exists q', q = Some q' /\ admitting (h_deadline h) q'
      | _ => q = live (permits h + task_permit t)
      end
  end.

(** Every batch that was counted: acknowledged, on its way to an answer, abandoned by its
    handler, or still in its task. *)
Definition noted `{NaiveDates} {C Sem} (x : receiving C Sem) : list batch :=
  acknowledged (answers x) ++ map_collect unanswered (handlers x) ++ abandoned x ++
    map_collect publishing (tasks (store x)).

Record ReceivingInv `{NaiveDates} {C Sem} (x : receiving C Sem) : Prop := {
  inv_consistent r : consistent (requests (recv x) !! r) (handlers x !! r) (tasks (store x) !! r);
  inv_ledger : counted (store x) ≡ₚ noted x;
}.

(** * Lemmas *)

(** ** One request's permit *)

Section permit_lemmas.
Context `{SemaphoreOps Sem}.
Implicit Types (a : Admission.receiver Sem) (r : nat) (h : handler).

(** [a'] is reached by steps of [Admission] that are request [r]'s. *)
Definition touches r a a' : Prop :=
  rtc Admission.step a a' /\ Admission.now a' = Admission.now a /\
  (forall r', r' <> r -> requests a' !! r' = requests a !! r').

Lemma touches_refl r a : touches r a a.
Proof. by split_and!. Qed.

Lemma touches_trans r a b a' : touches r a b -> touches r b a' -> touches r a a'.
Proof.
  intros (H1 & H2 & H3) (K1 & K2 & K3). split_and!; [by etrans|congruence|].
  intros r' Hr. by rewrite K3, H3.
Qed.

Lemma moves_touches r q a a' : moves r q a a' -> touches r a a' /\ requests a' !! r = q.
Proof.
  intros (Hs & Hn & E). split; [split_and!; [by apply rtc_once|done|]|].
  - intros r' Hr. rewrite E. destruct q; [by rewrite lookup_insert_ne|by rewrite lookup_delete_ne].
  - rewrite E. destruct q; [apply lookup_insert_eq|apply lookup_delete_eq].
Qed.

Lemma live_inj n m : live n = live m -> n = m.
Proof. destruct n, m; naive_solver. Qed.

Lemma drops_one_spec r a a' n :
  drops_one r a a' -> requests a !! r = live (S n) -> touches r a a' /\ requests a' !! r = live n.
Proof.
  intros (m & Em & Hm) E. rewrite E in Em. apply live_inj in Em. injection Em as <-.
  by apply moves_touches.
Qed.

Lemma clones_spec r a a' n :
  clones r a a' -> requests a !! r = live (S n) ->
  touches r a a' /\ requests a' !! r = live (S (S n)).
Proof.
  intros (m & Em & Hm) E. rewrite E in Em. apply live_inj in Em. injection Em as <-.
  by apply moves_touches.
Qed.

Lemma drops_spec r n m a a' :
  drops r n a a' -> requests a !! r = live (n + m) -> touches r a a' /\ requests a' !! r = live m.
Proof.
  revert a. induction n as [|n IH]; intros a; simpl.
  - intros -> E. split; [apply touches_refl|done].
  - intros (b & Hb & Hd) E. destruct (drops_one_spec _ _ _ _ Hb E) as [Ht Eb].
    destruct (IH _ Hd Eb) as [Ht' E']. split; [by eapply touches_trans|done].
Qed.

Lemma to_extensions_spec h r a a' :
  to_extensions h r a a' -> requests a !! r = Some (Holding 0) ->
  touches r a a' /\ requests a' !! r = live (match h_protocol h with OverHttp _ => 1 | OverGrpc => 2 end).
Proof.
  unfold to_extensions. destruct (h_protocol h).
  - intros -> E. split; [apply touches_refl|done].
  - intros Hc E. by apply (clones_spec r a a' 0).
Qed.

Lemma from_extensions_spec h r a a' n :
  from_extensions h r a a' -> requests a !! r = live (S n) ->
  touches r a a' /\ requests a' !! r = live (S n).
Proof.
  unfold from_extensions. destruct (h_protocol h).
  - intros -> E. split; [apply touches_refl|done].
  - intros (b & Hc & Hd) E. destruct (clones_spec _ _ _ _ Hc E) as [H1 Eb].
    destruct (drops_one_spec _ _ _ _ Hd Eb) as [H2 E']. split; [by eapply touches_trans|done].
Qed.

(** A clone that lives can be dropped, and cloned. *)
Lemma drops_one_exists r a n :
  requests a !! r = live (S n) -> exists a', drops_one r a a' /\ requests a' !! r = live n.
Proof.
  intros E. assert (exists a', moves r (live n) a a') as [a' Hm].
  { destruct n as [|n]; eexists.
    - split_and!; [by apply Admission.step_drop_last|reflexivity..].
    - split_and!; [by apply Admission.step_drop_clone|reflexivity..]. }
  exists a'. split; [by exists n|]. by apply (moves_touches _ _ _ _ Hm).
Qed.

Lemma drops_exist r a n m :
  requests a !! r = live (n + m) -> exists a', drops r n a a'.
Proof.
  revert a. induction n as [|n IH]; intros a E; [by exists a|].
  destruct (drops_one_exists r a _ E) as (b & Hb & Eb). destruct (IH b Eb) as [a' Ha].
  exists a', b. done.
Qed.

Lemma clones_exists r a n : requests a !! r = live (S n) -> exists a', clones r a a'.
Proof.
  intros E. eexists. exists n. split; [done|]. split_and!; [by apply Admission.step_clone|reflexivity..].
Qed.
End permit_lemmas.

(** ** The parts of a step *)

(** Whose step it is. *)
Definition actor (e : action) : option nat :=
  match e with
  | Arrive r | Poll r | Receive r | BodyEnds r | Expire r | RecordTask r | Cancel r => Some r
  | Refuse | Upkeep | Tick => None
  end.

(** What a step of the sink counts, by what it does to its tasks. *)
Ltac same_key E t r :=
  pose proof (f_equal (fun m => m !! t) E); pose proof (f_equal (fun m => m !! r) E); simpl in *;
  destruct (decide (t = r)) as [->|];
  rewrite ?lookup_insert_eq, ?lookup_delete_eq in *;
  rewrite ?lookup_insert_ne, ?lookup_delete_ne in * by congruence;
  simplify_eq; try congruence.

Section step_lemmas.
Context `{World} `{NaiveDates} {C : Type} `{ChannelOps C ExportRequest} {Sem : Type}
  `{SemaphoreOps Sem} `{Codecs} `{!Requests} `{Tonic}.
Context (to_vec : batch -> option (list byte)) (render : batch -> bool -> string).
Context (instant_max : Z).

#[local] Abbreviation sink_step := (Sink.step to_vec render).
#[local] Abbreviation transition := (step to_vec render instant_max).
Implicit Types (x y : receiving C Sem) (s : Sink.server (C := C)) (r : nat).

Lemma sink_begin_counted s s' r b :
  sink_step s s' -> tasks s !! r = None -> tasks s' = <[r := Writing b]> (tasks s) ->
  counted s' = counted s.
Proof.
  intros Hs Er E. destruct Hs as [s t ? Et|s t ? ? ? ? Et|s t ? ? ? ? ? Et|s t ? ? ? Et|s t ? ? Et|s|s|s];
    simpl in *; try done. same_key E t r.
Qed.

Lemma sink_task_counted s s' r st st' :
  sink_step s s' -> tasks s !! r = Some st -> task_move st st' -> tasks s' = <[r := st']> (tasks s) ->
  counted s' = counted s ++ option_list (to_count st).
Proof.
  intros Hs Er Hm E.
  assert (tasks s' <> tasks s) as Hne.
  { intros E'. rewrite E' in E. apply (f_equal (fun m => m !! r)) in E.
    rewrite Er, lookup_insert_eq in E. simplify_eq. by destruct st'. }
  destruct st as [b|b|b ws], st' as [b'|b'|b' ws']; try done; simpl in Hm; subst;
    destruct Hs as [s t ? Et|s t ? ? ? ? Et|s t ? ? ? ? ? Et|s t ? ? ? Et|s t ? ? Et|s|s|s];
    simpl in *; try done; same_key E t r; by rewrite ?app_nil_r.
Qed.

Lemma sink_end_counted s s' r st :
  sink_step s s' -> tasks s !! r = Some st -> tasks s' = delete r (tasks s) -> counted s' = counted s.
Proof.
  intros Hs Er E.
  destruct Hs as [s t ? Et|s t ? ? ? ? Et|s t ? ? ? ? ? Et|s t ? ? ? Et|s t ? ? Et|s|s|s];
    simpl in *; try done; same_key E t r.
Qed.

Lemma sink_upkeep_counted s s' : sink_step s s' -> tasks s' = tasks s -> counted s' = counted s.
Proof.
  intros Hs E.
  destruct Hs as [s t ? Et|s t ? ? ? ? Et|s t ? ? ? ? ? Et|s t ? ? ? Et|s t ? ? Et|s|s|s];
    simpl in *; try done; apply (f_equal (fun m => m !! t)) in E;
    rewrite ?lookup_insert_eq, ?lookup_delete_eq in E; congruence.
Qed.

(** The permit of a handler past admission, with what its task holds. *)
Lemma permit_of x r h t :
  ReceivingInv x -> handlers x !! r = Some h -> h_phase h <> Admitting -> tasks (store x) !! r = t ->
  requests (recv x) !! r = live (permits h + task_permit t).
Proof.
  intros Hx Eh Hp Et. pose proof (inv_consistent x Hx r) as Hc. rewrite Eh, Et in Hc.
  destruct Hc as [_ Hc]. by destruct (h_phase h).
Qed.

Lemma leaving_permit x r h a :
  ReceivingInv x -> handlers x !! r = Some h -> h_phase h <> Admitting ->
  drops r (permits h) (recv x) a ->
  touches r (recv x) a /\ requests a !! r = live (task_permit (tasks (store x) !! r)).
Proof. intros Hx Eh Hp Hd. eapply drops_spec; [exact Hd|]. by apply permit_of. Qed.

(** A task holds a clone that can be dropped. *)
Lemma task_permit_of x r st a :
  ReceivingInv x -> tasks (store x) !! r = Some st -> drops_one r (recv x) a ->
  touches r (recv x) a /\
  requests a !! r = live (match handlers x !! r with Some h => permits h | None => 0 end).
Proof.
  intros Hx Et Hd. pose proof (inv_consistent x Hx r) as Hc. rewrite Et in Hc. unfold consistent in Hc.
  destruct (handlers x !! r) as [h|]; [|by apply (drops_one_spec _ _ _ 0)].
  destruct Hc as [Hp Hc]. apply (drops_one_spec _ _ _ (permits h) Hd).
  destruct (h_phase h); simpl in *; try done; [by destruct Hp|]. by rewrite Hc, Nat.add_1_r.
Qed.

Lemma reading_permit x r h a :
  ReceivingInv x -> handlers x !! r = Some h -> from_extensions h r (recv x) a ->
  (exists buffered, h_phase h = Reading buffered) ->
  touches r (recv x) a /\ requests a !! r = live (permits h).
Proof.
  intros Hx Eh Hf [buffered Ep]. pose proof (inv_consistent x Hx r) as Hc. rewrite Eh in Hc.
  unfold consistent in Hc. rewrite Ep in Hc. destruct Hc as [[Et _] Hc].
  rewrite Et, Nat.add_0_r in Hc. unfold permits in *. rewrite Ep in *.
  destruct (h_protocol h) eqn:Epr; eapply from_extensions_spec; by rewrite ?Epr.
Qed.

Lemma submitting_permit x r h b a :
  ReceivingInv x -> handlers x !! r = Some h -> h_phase h = Submitting b -> drops_one r (recv x) a ->
  tasks (store x) !! r = None /\ touches r (recv x) a /\
  requests a !! r = live (permits (set_phase h (Answering b (Err ShuttingDown)))).
Proof.
  intros Hx Eh Ep Hd. pose proof (inv_consistent x Hx r) as Hc. rewrite Eh in Hc.
  unfold consistent in Hc. rewrite Ep in Hc. destruct Hc as [Et Hc]. simpl in Et.
  rewrite Et, Nat.add_0_r in Hc. split; [done|]. unfold permits in *. rewrite Ep in Hc. simpl.
  destruct (h_protocol h); by eapply drops_one_spec.
Qed.

(** What a step does to the permit of its actor, for the steps that move one. *)
Definition part_step (r : nat) x y : Prop :=
  touches r (recv x) (recv y) /\ rtc sink_step (store x) (store y) /\
  (forall r', r' <> r ->
     handlers y !! r' = handlers x !! r' /\ tasks (store y) !! r' = tasks (store x) !! r').

Lemma store_settle x r b res a s : store (settle x r b res a s) = s.
Proof. unfold settle. by case_match. Qed.

Lemma settle_part x r b res a s :
  touches r (recv x) a -> rtc sink_step (store x) s ->
  (forall r', r' <> r -> tasks s !! r' = tasks (store x) !! r') ->
  part_step r x (settle x r b res a s).
Proof.
  intros Ha Hs Ht. unfold settle, part_step. destruct (handlers x !! r) as [h|]; simpl.
  - split_and!; [done..|]. intros r' Hr. unfold with_handler. by rewrite lookup_insert_ne, Ht.
  - split_and!; [done..|]. intros r' Hr. by rewrite Ht.
Qed.

Lemma leave_part x r a l l' : touches r (recv x) a -> part_step r x (leave x r a l l').
Proof.
  intros Ha. split_and!; [done..|]. intros r' Hr. simpl. by rewrite lookup_delete_ne.
Qed.

Lemma goes_part x r h p a : touches r (recv x) a -> part_step r x (goes x r h p a).
Proof.
  intros Ha. split_and!; [done..|]. intros r' Hr. simpl. unfold with_handler.
  by rewrite lookup_insert_ne.
Qed.

(** Every step with an actor moves that one's permit, handler and task. *)
Lemma step_part e x y r :
  transition e x y -> ReceivingInv x -> actor e = Some r -> part_step r x y.
Proof.
  intros Hstep Hx Er. destruct Hstep as [x|x r' p signal d q a Eh Eq Ed Hq Hm|x r' h q q' a Eh Ep Eq Hq Hm
    |x r' h a Eh Ep Eq Hm|x r' h d a Eh Ep Eq Hd Hm|x r' h d a Eh Ep Eq Hm|x r' h a Eh Ep Eq Hm
    |x r' h buf chunk Eh Ep Hl|x r' h buf b a Eh Ep Ed Hf|x r' h buf ans a Eh Ep Hf Hd
    |x r' h buf a Eh Ep Hl Hd|x r' h b s Eh Ep Ha Et Hs E|x r' h b a Eh Ep Ha Hd
    |x r' st st' s Et Hm Hs E|x r' b ws a s Et Hs E Hd|x r' b env i d err a Et Hp Hd
    |x r' h b res a Eh Ep Hd|x r' h a Eh Ep Hd|x s Hs E|x t Ht]; simpl in Er; simplify_eq.
  - split_and!; [by apply (moves_touches _ _ _ _ Hm)|done|]. intros r' Hr. simpl. unfold with_handler.
    by rewrite lookup_insert_ne.
  - apply goes_part, (moves_touches _ _ _ _ Hm).
  - apply leave_part, (moves_touches _ _ _ _ Hm).
  - apply leave_part, (moves_touches _ _ _ _ Hm).
  - apply leave_part, (moves_touches _ _ _ _ Hm).
  - apply goes_part, (to_extensions_spec _ _ _ _ Hm Eq).
  - apply goes_part, touches_refl.
  - apply goes_part, (reading_permit x r h a Hx Eh Hf). by exists buf.
  - apply leave_part, (leaving_permit x r h a Hx Eh); [by rewrite Ep|done].
  - apply leave_part, (leaving_permit x r h a Hx Eh); [by rewrite Ep|done].
  - split_and!; [apply touches_refl|by apply rtc_once|]. intros r' Hr. simpl. unfold with_handler.
    by rewrite E, !lookup_insert_ne.
  - apply goes_part, (submitting_permit x r h b a Hx Eh Ep Hd).
  - split_and!; [apply touches_refl|by apply rtc_once|]. intros r' Hr. simpl.
    by rewrite E, lookup_insert_ne.
  - apply settle_part; [by apply (task_permit_of x r _ a Hx Et)|by apply rtc_once|].
    intros r' Hr. by rewrite E, lookup_delete_ne.
  - apply settle_part; [by apply (task_permit_of x r _ a Hx Et)|by eapply rtc_once, Sink.step_persist_failed|].
    intros r' Hr. simpl. by rewrite lookup_delete_ne.
  - apply leave_part, (leaving_permit x r h a Hx Eh); [by rewrite Ep|done].
  - by apply leave_part, (leaving_permit x r h a Hx Eh).
Qed.

(** The others leave the requests alone. *)
Lemma step_apart e x y :
  transition e x y -> actor e = None ->
  rtc Admission.step (recv x) (recv y) /\ rtc sink_step (store x) (store y) /\
  requests (recv y) = requests (recv x) /\ handlers y = handlers x /\
  tasks (store y) = tasks (store x) /\ Admission.now (recv x) <= Admission.now (recv y).
Proof.
  intros Hstep Ea. destruct Hstep; try done.
  - simpl. split_and!; try done. by apply rtc_once.
  - simpl. split_and!; try done. by apply rtc_once, Admission.step_time.
Qed.

Lemma step_clock e x y :
  transition e x y -> ReceivingInv x -> Admission.now (recv x) <= Admission.now (recv y).
Proof.
  intros Hs Hx. destruct (actor e) as [r|] eqn:Ea.
  - destruct (step_part _ _ _ _ Hs Hx Ea) as ((_ & -> & _) & _). done.
  - by apply (step_apart _ _ _ Hs Ea).
Qed.

(** A step that is not a request's own leaves its permit, handler and task. *)
Lemma step_frame e x y r :
  transition e x y -> ReceivingInv x -> actor e <> Some r ->
  requests (recv y) !! r = requests (recv x) !! r /\ handlers y !! r = handlers x !! r /\
  tasks (store y) !! r = tasks (store x) !! r.
Proof.
  intros Hs Hx Hr. destruct (actor e) as [r'|] eqn:Ea.
  - destruct (step_part _ _ _ _ Hs Hx Ea) as ((_ & _ & Hq) & _ & Ho).
    assert (r <> r') as Hne by congruence. by rewrite Hq, (proj1 (Ho r Hne)), (proj2 (Ho r Hne)).
  - destruct (step_apart _ _ _ Hs Ea) as (_ & _ & -> & -> & -> & _). done.
Qed.

(** ** The invariant *)

Lemma settle_consistent x r b st res a s :
  ReceivingInv x -> tasks (store x) !! r = Some st ->
  requests a !! r = live (match handlers x !! r with Some h => permits h | None => 0 end) ->
  tasks s = delete r (tasks (store x)) ->
  let y := settle x r b res a s in
  consistent (requests (recv y) !! r) (handlers y !! r) (tasks (store y) !! r).
Proof.
  intros Hx Et Eq E. pose proof (inv_consistent x Hx r) as Hc. rewrite Et in Hc. unfold settle.
  destruct (handlers x !! r) as [h|] eqn:Eh; simpl; rewrite E, lookup_delete_eq, Eq.
  - unfold with_handler. rewrite lookup_insert_eq. destruct Hc as [Hp _]. simpl.
    assert (exists b', h_phase h = Awaiting b') as [b' Ep].
    { destruct (h_phase h) as [| | |b'|]; simpl in Hp; try done; [by destruct Hp|by exists b']. }
    split; [done|]. unfold permits. simpl. rewrite Ep, Nat.add_0_r. by destruct (h_protocol h).
  - by rewrite Eh.
Qed.

Lemma leave_consistent x r a l l' :
  requests a !! r = live (task_permit (tasks (store x) !! r)) ->
  let y := leave x r a l l' in
  consistent (requests (recv y) !! r) (handlers y !! r) (tasks (store y) !! r).
Proof. intros E. simpl. by rewrite lookup_delete_eq, E. Qed.

(** Before its batch is submitted a request has no task. *)
Lemma no_task x r h :
  ReceivingInv x -> handlers x !! r = Some h ->
  match h_phase h with Admitting | Reading _ | Submitting _ | Answering _ _ => True | _ => False end ->
  tasks (store x) !! r = None.
Proof.
  intros Hx Eh Hp. pose proof (inv_consistent x Hx r) as Hc. rewrite Eh in Hc. destruct Hc as [Hc _].
  destruct (h_phase h); simpl in Hc; try done. by destruct Hc.
Qed.

Lemma admitting_of x r h q :
  ReceivingInv x -> handlers x !! r = Some h -> h_phase h = Admitting ->
  requests (recv x) !! r = Some q -> tasks (store x) !! r = None /\ admitting (h_deadline h) q.
Proof.
  intros Hx Eh Ep Eq. split; [by apply (no_task x r h Hx Eh); rewrite Ep|].
  pose proof (inv_consistent x Hx r) as Hc. rewrite Eh, Eq in Hc. unfold consistent in Hc.
  rewrite Ep in Hc. destruct Hc as (_ & q' & [= <-] & Hq). done.
Qed.

Lemma admission_move_admitting d q q' : admission_move q q' -> admitting d q -> admitting d q'.
Proof. destruct q, q'; simpl; try done; try congruence. by destruct clones0. Qed.

(** A handler that goes on without a task. *)
Lemma goes_consistent x r h p a :
  tasks (store x) !! r = None -> phase_task p None -> p <> Admitting ->
  requests a !! r = live (permits (set_phase h p)) ->
  let y := goes x r h p a in
  consistent (requests (recv y) !! r) (handlers y !! r) (tasks (store y) !! r).
Proof.
  intros Et Hp Hne Eq. simpl. unfold with_handler. rewrite lookup_insert_eq, Et, Eq.
  split; [done|]. simpl. destruct p; try done; by rewrite Nat.add_0_r.
Qed.

Lemma actor_consistent e x y r :
  transition e x y -> ReceivingInv x -> actor e = Some r ->
  consistent (requests (recv y) !! r) (handlers y !! r) (tasks (store y) !! r).
Proof.
  intros Hstep Hx Er. destruct Hstep as [x|x r' p signal d q a Eh Eq Ed Hq Hm|x r' h q q' a Eh Ep Eq Hq Hm
    |x r' h a Eh Ep Eq Hm|x r' h d a Eh Ep Eq Hd Hm|x r' h d a Eh Ep Eq Hm|x r' h a Eh Ep Eq Hm
    |x r' h buf chunk Eh Ep Hl|x r' h buf b a Eh Ep Ed Hf|x r' h buf ans a Eh Ep Hf Hd
    |x r' h buf a Eh Ep Hl Hd|x r' h b s Eh Ep Ha Et Hs E|x r' h b a Eh Ep Ha Hd
    |x r' st st' s Et Hm Hs E|x r' b ws a s Et Hs E Hd|x r' b env i d err a Et Hp Hd
    |x r' h b res a Eh Ep Hd|x r' h a Eh Ep Hd|x s Hs E|x t Ht]; simpl in Er; simplify_eq.
  - apply moves_touches in Hm as [_ Eq']. pose proof (inv_consistent x Hx r) as Hc.
    rewrite Eh, Eq in Hc. simpl in Hc. unfold with_handler. simpl. rewrite lookup_insert_eq, Eq'.
    split; [by destruct (tasks (store x) !! r)|]. exists q. by destruct Hq as [->| ->].
  - apply moves_touches in Hm as [_ Eq']. destruct (admitting_of x r h q Hx Eh Ep Eq) as [Et Ha].
    simpl. unfold with_handler. rewrite lookup_insert_eq, Eq', Et.
    split; [done|]. exists q'. split; [done|]. by eapply admission_move_admitting.
  - apply leave_consistent. apply moves_touches in Hm as [_ ->].
    by rewrite (no_task x r h Hx Eh) by (by rewrite Ep).
  - apply leave_consistent. apply moves_touches in Hm as [_ ->].
    by rewrite (no_task x r h Hx Eh) by (by rewrite Ep).
  - apply leave_consistent. apply moves_touches in Hm as [_ ->].
    by rewrite (no_task x r h Hx Eh) by (by rewrite Ep).
  - apply goes_consistent; [by apply (no_task x r h Hx Eh); rewrite Ep|by split; [|vm_compute]|done|].
    apply to_extensions_spec in Hm as [_ ->]; [|done]. unfold permits. simpl. by destruct (h_protocol h).
  - apply goes_consistent; [by apply (no_task x r h Hx Eh); rewrite Ep|done|done|].
    rewrite (permit_of x r h _ Hx Eh) by (by rewrite ?Ep).
    rewrite (no_task x r h Hx Eh) by (by rewrite Ep). unfold permits. rewrite Ep. cbn.
    rewrite Nat.add_0_r. by destruct (h_protocol h).
  - destruct (reading_permit x r h a Hx Eh Hf ltac:(by exists buf)) as [_ Eq].
    apply goes_consistent; [by apply (no_task x r h Hx Eh); rewrite Ep|done|done|].
    rewrite Eq. unfold permits. rewrite Ep. cbn. by destruct (h_protocol h).
  - apply leave_consistent, (leaving_permit x r h a Hx Eh); [by rewrite Ep|done].
  - apply leave_consistent, (leaving_permit x r h a Hx Eh); [by rewrite Ep|done].
  - simpl. unfold with_handler. rewrite lookup_insert_eq, E, lookup_insert_eq.
    rewrite (permit_of x r h None Hx Eh) by (by rewrite ?Ep). split; [by eexists|].
    unfold permits. rewrite Ep. cbn. by destruct (h_protocol h).
  - destruct (submitting_permit x r h b a Hx Eh Ep Hd) as (Et & _ & Eq). by apply goes_consistent.
  - simpl. rewrite E, lookup_insert_eq. pose proof (inv_consistent x Hx r) as Hc. rewrite Et in Hc.
    destruct (handlers x !! r) as [h|]; [|done]. destruct Hc as [Hp Hc]. split.
    + destruct (h_phase h); simpl in *; try done; [by destruct Hp|].
      destruct Hp as (? & [= <-] & <-). eexists. split; [done|]. by destruct st, st'; simpl in *; subst.
    + by destruct (h_phase h).
  - apply (settle_consistent x r b _ _ _ _ Hx Et); [|done]. by apply (task_permit_of x r _ a Hx Et).
  - apply (settle_consistent x r b _ _ _ _ Hx Et); [|done]. by apply (task_permit_of x r _ a Hx Et).
  - apply leave_consistent, (leaving_permit x r h a Hx Eh); [by rewrite Ep|done].
  - by apply leave_consistent, (leaving_permit x r h a Hx Eh).
Qed.

(** ** The ledger *)

Lemma acknowledged_app l l' : acknowledged (l ++ l') = acknowledged l ++ acknowledged l'.
Proof. apply omap_app. Qed.

Lemma acknowledged_none ans : acknowledged [(None, ans)] = [].
Proof. unfold acknowledged. simpl. by destruct (answer_ok ans). Qed.

Lemma acknowledged_recorded b h res :
  acknowledged [(Some b, recorded h res)] = if is_ok res then [b] else [].
Proof. unfold acknowledged, recorded. simpl. by destruct (h_protocol h), res as [[]|]. Qed.

(** A map entry that changes nothing of what is collected. *)
Lemma collect_quiet {A B} (f : A -> option B) (m : gmap nat A) r v :
  map_part f m r = option_list (f v) -> map_collect f (<[r := v]> m) ≡ₚ map_collect f m.
Proof.
  intros E. pose proof (map_collect_insert f m r v) as Hm. rewrite E in Hm.
  by apply Permutation_app_inv_l in Hm.
Qed.

Lemma handler_part x r h :
  handlers x !! r = Some h -> map_part unanswered (handlers x) r = option_list (unanswered h).
Proof. apply map_part_Some. Qed.

Lemma noted_leave x r h a l lost :
  handlers x !! r = Some h -> option_list (unanswered h) ≡ₚ acknowledged l ++ lost ->
  noted (leave x r a l lost) ≡ₚ noted x.
Proof.
  intros Eh E. unfold noted. simpl. rewrite acknowledged_app.
  rewrite (map_collect_delete unanswered (handlers x) r), (handler_part _ _ _ Eh), E. solve_Permutation.
Qed.

Lemma noted_goes x r h p a :
  handlers x !! r = Some h -> unanswered (set_phase h p) = unanswered h ->
  noted (goes x r h p a) ≡ₚ noted x.
Proof.
  intros Eh E. unfold noted. simpl. unfold with_handler.
  by rewrite (collect_quiet unanswered (handlers x) r) by (by rewrite (handler_part _ _ _ Eh), E).
Qed.

(** The task's batch passes to the handler that joins it, or is abandoned. *)
Lemma noted_settle x r b st res a s :
  ReceivingInv x -> tasks (store x) !! r = Some st -> tasks s = delete r (tasks (store x)) ->
  option_list (publishing st) = (if is_ok res then [b] else []) ->
  noted (settle x r b res a s) ≡ₚ noted x.
Proof.
  intros Hx Et E Hb.
  assert (map_collect publishing (tasks (store x)) ≡ₚ
    (if is_ok res then [b] else []) ++ map_collect publishing (tasks s)) as Hp.
  { rewrite <-Hb, E, <-(map_part_Some publishing _ _ _ Et). apply map_collect_delete. }
  unfold settle, noted. rewrite Hp. destruct (handlers x !! r) as [h|] eqn:Eh; simpl; [|solve_Permutation].
  pose proof (inv_consistent x Hx r) as Hc. rewrite Eh, Et in Hc. destruct Hc as [Hph _].
  unfold with_handler.
  pose proof (map_collect_insert unanswered (handlers x) r (set_phase h (Answering b res))) as Hm.
  rewrite (handler_part _ _ _ Eh) in Hm.
  assert (unanswered h = None) as Eu.
  { unfold unanswered. by destruct (h_phase h). }
  rewrite Eu in Hm. simpl in Hm. rewrite Hm. unfold unanswered at 1. simpl.
  destruct res; simpl; solve_Permutation.
Qed.

Lemma ledger_step e x y : transition e x y -> ReceivingInv x -> counted (store y) ≡ₚ noted y.
Proof.
  intros Hstep Hx. pose proof (inv_ledger x Hx) as Hl.
  destruct Hstep as [x|x r' p signal d q a Eh Eq Ed Hq Hm|x r' h q q' a Eh Ep Eq Hq Hm
    |x r' h a Eh Ep Eq Hm|x r' h d a Eh Ep Eq Hd Hm|x r' h d a Eh Ep Eq Hm|x r' h a Eh Ep Eq Hm
    |x r' h buf chunk Eh Ep Hb|x r' h buf b a Eh Ep Ed Hf|x r' h buf ans a Eh Ep Hf Hd
    |x r' h buf a Eh Ep Hb Hd|x r' h b s Eh Ep Ha Et Hs E|x r' h b a Eh Ep Ha Hd
    |x r' st st' s Et Hm Hs E|x r' b ws a s Et Hs E Hd|x r' b env i d err a Et Hp Hd
    |x r' h b res a Eh Ep Hd|x r' h a Eh Ep Hd|x s Hs E|x t Ht].
  - rewrite Hl. unfold noted. simpl. by rewrite acknowledged_app, acknowledged_none, app_nil_r.
  - rewrite Hl. unfold noted. simpl. unfold with_handler. by rewrite map_collect_insert_None.
  - rewrite (noted_goes x r' h); [done..|]. unfold unanswered. by rewrite Ep.
  - rewrite (noted_leave x r' h); [done..|]. unfold unanswered. by rewrite Ep, acknowledged_none.
  - rewrite (noted_leave x r' h); [done..|]. unfold unanswered. by rewrite Ep, acknowledged_none.
  - rewrite (noted_leave x r' h); [done..|]. unfold unanswered. by rewrite Ep.
  - rewrite (noted_goes x r' h); [done..|]. unfold unanswered. by rewrite Ep.
  - rewrite (noted_goes x r' h); [done..|]. unfold unanswered. by rewrite Ep.
  - rewrite (noted_goes x r' h); [done..|]. unfold unanswered. by rewrite Ep.
  - rewrite (noted_leave x r' h); [done..|]. unfold unanswered. by rewrite Ep, acknowledged_none.
  - rewrite (noted_leave x r' h); [done..|]. unfold unanswered. by rewrite Ep, acknowledged_none.
  - simpl. rewrite (sink_begin_counted _ _ _ _ Hs Et E), Hl.
    transitivity (noted (goes x r' h (Awaiting b) (recv x))).
    { rewrite (noted_goes x r' h); [done..|]. unfold unanswered. by rewrite Ep. }
    unfold noted, goes. simpl. by rewrite E, map_collect_insert_None.
  - rewrite (noted_goes x r' h); [done..|]. unfold unanswered. by rewrite Ep.
  - simpl. rewrite (sink_task_counted _ _ _ _ _ Hs Et Hm E), Hl.
    pose proof (map_collect_insert publishing (tasks (store x)) r' st') as Hc.
    rewrite (map_part_Some _ _ _ _ Et) in Hc. unfold noted. simpl. rewrite E.
    destruct st, st'; simpl in *; try done; subst; rewrite Hc; solve_Permutation.
  - rewrite (noted_settle x r' b _ (Ok tt) a s Hx Et E) by done. rewrite <-Hl.
    unfold settle. rewrite <-(sink_end_counted _ _ _ _ Hs Et E). by destruct (handlers x !! r').
  - rewrite (noted_settle x r' b _ _ _ _ Hx Et) by done. rewrite <-Hl.
    unfold settle. by destruct (handlers x !! r').
  - rewrite (noted_leave x r' h); [done..|]. unfold unanswered. rewrite Ep, acknowledged_recorded.
    by destruct res as [[]|].
  - rewrite (noted_leave x r' h); [done..|]. unfold unanswered, untold.
    by destruct (h_phase h) as [| | | |b' [[]|]].
  - simpl. rewrite (sink_upkeep_counted _ _ Hs E), Hl. unfold noted. simpl. by rewrite E.
  - done.
Qed.

Lemma receiving_step_inv e x y : transition e x y -> ReceivingInv x -> ReceivingInv y.
Proof.
  intros Hs Hx. split; [|by eapply ledger_step]. intros r.
  destruct (decide (actor e = Some r)) as [Ea|Ea]; [by eapply actor_consistent|].
  destruct (step_frame _ _ _ r Hs Hx Ea) as (-> & -> & ->). by apply inv_consistent.
Qed.

Lemma opened_inv max_inflight timeout i d : ReceivingInv (opened (Sem := Sem) (C := C) max_inflight timeout i d).
Proof. split; [|done]. intros r. simpl. by rewrite !lookup_empty. Qed.

(** What is reachable together is reachable for each part alone. *)
Lemma receiving_parts e x y :
  transition e x y -> ReceivingInv x ->
  rtc Admission.step (recv x) (recv y) /\ rtc sink_step (store x) (store y).
Proof.
  intros Hs Hx. destruct (actor e) as [r|] eqn:Ea.
  - by destruct (step_part _ _ _ _ Hs Hx Ea) as ((? & _) & ? & _).
  - by destruct (step_apart _ _ _ Hs Ea) as (? & ? & _).
Qed.

Lemma receiving_reachable max_inflight timeout i d x :
  reachable to_vec render instant_max max_inflight timeout i d x ->
  ReceivingInv x /\ Admission.reachable max_inflight timeout (recv x) /\
  Sink.reachable to_vec render i d (store x).
Proof.
  revert x. apply rtc_ind_r.
  - split; [apply opened_inv|]. split; apply rtc_refl.
  - intros y z _ [e Hs] (Hy & Ha & Hk). split; [by eapply receiving_step_inv|]. destruct (receiving_parts _ _ _ Hs Hy).
    unfold Admission.reachable, Sink.reachable in *. split; by etrans.
Qed.

(** ** Memory *)

Lemma slot_covers x r :
  ReceivingInv x ->
  map_val copies (handlers x) r + map_val (fun _ => 1) (tasks (store x)) r <=
  map_val has_slot (requests (recv x)) r.
Proof.
  intros Hx. pose proof (inv_consistent x Hx r) as Hc. unfold map_val.
  destruct (handlers x !! r) as [h|], (tasks (store x) !! r) as [st|]; simpl in *;
    try (rewrite Hc; simpl; lia).
  - destruct Hc as [Hp Hc]. unfold copies.
    destruct (h_phase h); simpl in *; try done; [by destruct Hp|].
    rewrite Hc, Nat.add_1_r. simpl. lia.
  - destruct Hc as [Hp Hc]. rewrite Nat.add_0_r in Hc. unfold copies, permits in *.
    destruct (h_phase h); simpl in *; try (by destruct Hp);
      try (destruct (h_protocol h); rewrite Hc; simpl; lia).
    destruct Hc as (q & -> & _). simpl. destruct q; simpl; lia.
Qed.

Lemma bytes_covered x r :
  ReceivingInv x ->
  map_val bytes_held (handlers x) r <= map_val (fun h => copies h * OTLP_MAX_REQUEST_BYTES) (handlers x) r.
Proof.
  intros Hx. pose proof (inv_consistent x Hx r) as Hc. unfold map_val.
  destruct (handlers x !! r) as [h|]; simpl in *; [|done]. destruct Hc as [Hp _].
  unfold bytes_held, copies. destruct (h_phase h); simpl in *; unfold OTLP_MAX_REQUEST_BYTES in *; lia.
Qed.
End step_lemmas.

(** * Properties *)

Section receiving_properties.
Context `{World} `{NaiveDates} {C : Type} `{ChannelOps C ExportRequest} {Sem : Type}
  `{SemaphoreLaws Sem} `{Codecs} `{!Requests} `{Tonic}.
Context (to_vec : batch -> option (list byte)) (render : batch -> bool -> string).
Context (instant_max : Z).
Implicit Types (x y : receiving C Sem).

(** C5. Memory is bounded whatever clients do.  With requests of both protocols stalling in the
    middle of their bodies, vanishing while their batch is written and coming back, the
    requests whose body or batch is in memory - in a handler or in a recording task whose
    handler is long gone - are at all times at most the configured number, and the bytes of
    unfinished bodies at most that many times the largest request. *)
Theorem memory_is_bounded max_inflight timeout i d x :
  0 <= max_inflight <= MAX_PERMITS ->
  reachable to_vec render instant_max max_inflight timeout i d x ->
  map_sum copies (handlers x) + map_sum (fun _ => 1) (tasks (store x)) <= max_inflight /\
  map_sum bytes_held (handlers x) <= max_inflight * OTLP_MAX_REQUEST_BYTES /\
  map_sum is_waiting (requests (recv x)) <= max_inflight * WAITING_PER_INFLIGHT.
Proof.
  intros Hm Hr. destruct (receiving_reachable _ _ _ _ _ _ _ _ Hr) as (Hx & Ha & _).
  destruct (receiver_reachable_inv max_inflight timeout _ Hm Ha) as [Hs Hav _ _ Hmax Hw].
  pose proof (map_sum_le copies (fun _ => 1) has_slot _ _ _ (fun r => slot_covers x r Hx)) as Hslots.
  split; [lia|]. split.
  - pose proof (map_sum_le bytes_held (fun _ : unit => 0) (fun h => copies h * OTLP_MAX_REQUEST_BYTES)
      (handlers x) ∅ (handlers x)) as Hb.
    rewrite map_sum_empty in Hb.
    pose proof (map_sum_nonneg (fun _ : stage => 1) (tasks (store x)) ltac:(intros; lia)).
    transitivity (map_sum (fun h => copies h * OTLP_MAX_REQUEST_BYTES) (handlers x)).
    + rewrite <-(Z.add_0_r (map_sum bytes_held _)). apply Hb. intros r.
      unfold map_val at 2. rewrite lookup_empty. simpl. rewrite Z.add_0_r. by apply bytes_covered.
    + rewrite map_sum_scale. unfold OTLP_MAX_REQUEST_BYTES. nia.
  - rewrite Hmax in Hw. unfold sat_mul in Hw. lia.
Qed.

(** C3. An acknowledgement is worth its batch, and a batch one acknowledgement, over both
    protocols and all interleavings of handlers, recording tasks, cancellations and shutdown.
    The batches counted are those acknowledged, those whose handler is about to answer, those
    whose handler was cancelled after it had submitted them and those whose task is about to
    end, each once; the totals are exactly theirs, each was persisted before, and an append-only
    log holds its old contents and exactly the lines of the persisted ones.  With no request
    under way and none cancelled, the log gained the acknowledged batches and nothing else. *)
Theorem acknowledged_is_recorded_once max_inflight timeout i d x :
  (forall t, sink_file i = Some (FileWriter t) -> rollback_ok contents t d) ->
  reachable to_vec render instant_max max_inflight timeout i d x ->
  counted (store x) ≡ₚ noted x /\
  persisted (store x) ≡ₚ counted (store x) ++ uncounted (tasks (store x)) /\
  aggregator (inner (store x)) = ingest_all (aggregator i) (counted (store x)) /\
  (forall t0, sink_file i = Some (FileWriter t0) ->
     exists t, sink_file (inner (store x)) = Some (FileWriter t) /\ file t = file t0 /\
       logical contents t (disk (store x)) =
         logical contents t0 d ++ concat (map (line_of to_vec) (persisted (store x)))) /\
  (handlers x = ∅ -> tasks (store x) = ∅ ->
   persisted (store x) ≡ₚ acknowledged (answers x) ++ abandoned x).
Proof.
  intros Hok Hr. destruct (receiving_reachable _ _ _ _ _ _ _ _ Hr) as (Hx & _ & Hs).
  destruct (server_reachable_inv to_vec render i d _ Hok Hs) as [Ha Hc _ Hl].
  pose proof (inv_ledger x Hx) as Hn. split_and!; [done..| |].
  - intros t0 E0. destruct (Hl t0 E0) as (t & ? & ? & _ & ?). by exists t.
  - intros Eh Et. rewrite Hc, Hn. unfold noted, uncounted.
    by rewrite Eh, Et, !map_collect_empty, !app_nil_r.
Qed.

(** An idle receiver has all its slots: when no handler and no task is left, none is held and
    nobody waits. *)
Lemma idle_receiver_is_whole max_inflight timeout i d x :
  0 <= max_inflight <= MAX_PERMITS ->
  reachable to_vec render instant_max max_inflight timeout i d x ->
  handlers x = ∅ -> tasks (store x) = ∅ ->
  available_permits (slots (limits (recv x))) = max_inflight /\ waiting (limits (recv x)) = 0.
Proof.
  intros Hm Hr Eh Et. destruct (receiving_reachable _ _ _ _ _ _ _ _ Hr) as (Hx & Ha & _).
  assert (requests (recv x) = ∅) as Eq.
  { apply map_empty. intros r. pose proof (inv_consistent x Hx r) as Hc.
    by rewrite Eh, Et, !lookup_empty in Hc. }
  destruct (receiver_reachable_inv max_inflight timeout _ Hm Ha) as [Hs _ Hg _ _ _].
  rewrite Eq, map_sum_empty in *. lia.
Qed.
End receiving_properties.

(** ** A receiver to evaluate examples with *)

#[local] Existing Instance sample_world.
#[local] Existing Instance sample_dates.
#[local] Existing Instance sample_codecs.
#[local] Existing Instance sample_tonic.
#[local] Existing Instance counter_semaphore_laws.

(** Only the logs of [Http] and [Grpc] decode. *)
Definition undecodable {M} : Message M := {|
  prost_decode _ := Err "tag"%string;
  from_slice _ := Err "eof"%string;
|}.
Definition unserved {M} : GrpcMessage M := {|
  grpc_decode _ := Err (unavailable "no such service");
|}.
Definition sample_requests : Requests := {|
  traces_message := undecodable;
  metrics_message := undecodable;
  logs_message := sample_message;
  traces_grpc := unserved;
  metrics_grpc := unserved;
  logs_grpc := sample_grpc_message;
|}.
#[local] Existing Instance sample_requests.

Definition sample_step : action -> receiving (list_channel ExportRequest) Z -> receiving (list_channel ExportRequest) Z -> Prop :=
  step sample_to_vec sample_render (secs 1000000).
Definition sample_receiving : receiving (list_channel ExportRequest) Z -> Prop :=
  reachable sample_to_vec sample_render (secs 1000000) 1 (secs 5) sample_sink sample_disk.

(** The one slot is taken by a request whose client stalls, until its deadline. *)
Definition stalled_handler : handler := mkHandler (OverHttp Json) Logs (secs 5) (Reading []).
Definition stalled (t : Z) (handlers : gmap nat handler) (requests : gmap nat request) (free : Z) answers
    : receiving (list_channel ExportRequest) Z :=
  mkReceiving (Admission.mkReceiver (mkLimits free 0 8 (secs 5)) requests t)
    (Sink.started sample_sink sample_disk) handlers answers [].

Definition stalled_run (n : nat) : action * receiving (list_channel ExportRequest) Z :=
  match n with
  | 0 => (Arrive 0, opened 1 (secs 5) sample_sink sample_disk)
  | 1 => (Poll 0, stalled 0 {[0 := set_phase stalled_handler Admitting]} {[0 := Holding 0]} 0 [])
  | 2 => (Tick, stalled 0 {[0 := stalled_handler]} {[0 := Holding 0]} 0 [])
  | 3 => (Expire 0, stalled (secs 5) {[0 := stalled_handler]} {[0 := Holding 0]} 0 [])
  | S (S (S (S k))) => (Tick, stalled (secs 5 + Z.of_nat k) ∅ ∅ 1 [(None, late stalled_handler)])
  end%nat.

Lemma step_to e x y y' : sample_step e x y -> y = y' -> sample_step e x y'.
Proof. by intros ? <-. Qed.

Lemma stalled_run_ok : run_of sample_step (fun n => Some (stalled_run n).1) (fun n => (stalled_run n).2).
Proof.
  intros [|[|[|[|n]]]].
  - eapply step_to.
    + apply (step_arrive _ _ _ _ 0%nat (OverHttp Json) Logs (secs 5) (Holding 0)); [reflexivity..|by left|].
      split_and!; [by apply (Admission.step_admit_now _ 0%nat 0)|reflexivity..].
    + reflexivity.
  - eapply step_to.
    + by apply (step_read _ _ _ _ 0%nat (set_phase stalled_handler Admitting) (recv (stalled_run 1).2)).
    + reflexivity.
  - by apply (step_tick _ _ _ (stalled_run 2).2 (secs 5)).
  - eapply step_to.
    + eapply (step_late _ _ _ _ 0%nat stalled_handler []); [reflexivity..|done|].
      eexists. split; [|reflexivity]. exists 0%nat. split; [reflexivity|].
      split_and!; [by apply (Admission.step_drop_last (recv (stalled_run 3).2) 0%nat)|reflexivity..].
    + reflexivity.
  - apply (step_tick _ _ _ (stalled_run (4 + n)).2 (secs 5 + Z.of_nat (S n))). simpl. lia.
Qed.

Lemma stalled_run_reachable n : sample_receiving (stalled_run n).2.
Proof.
  induction n as [|n IH]; [apply rtc_refl|].
  eapply rtc_r; [exact IH|]. eexists. exact (stalled_run_ok n).
Qed.

Lemma memory_is_bounded_witness :
  map_sum copies (handlers (stalled_run 2).2) = 1 /\
  map_sum bytes_held (handlers (stalled_run 2).2) <= 1 * OTLP_MAX_REQUEST_BYTES.
Proof.
  split; [reflexivity|].
  apply (memory_is_bounded sample_to_vec sample_render (secs 1000000) 1
    (secs 5) sample_sink sample_disk (stalled_run 2).2 ltac:(split; vm_compute; discriminate)
    (stalled_run_reachable 2)).
Defined.

(** A request is read, recorded and answered. *)
Definition sample_inner (n : nat) : SinkInner (list_channel ExportRequest) :=
  match n with
  | 0 => sample_sink
  | 1 => (persist sample_to_vec sample_env sample_logs sample_sink sample_disk).1.1
  | 2 => (count sample_logs (persist sample_to_vec sample_env sample_logs sample_sink sample_disk).1.1).1
  | _ => publish sample_render sample_logs false
      (count sample_logs (persist sample_to_vec sample_env sample_logs sample_sink sample_disk).1.1).1
  end%nat.
Definition sample_written : Disk :=
  (persist sample_to_vec sample_env sample_logs sample_sink sample_disk).1.2.
Definition sample_ok : answer := HttpAnswer (Ok (mkResponse 200 JSON_CT [x7b; x7d])).

Definition serving (p : option phase) (n : nat) (d : Disk) (tasks : gmap nat stage)
    (persisted counted : list batch) answers : receiving (list_channel ExportRequest) Z :=
  mkReceiving
    (Admission.mkReceiver (mkLimits 0 0 8 (secs 5)) {[0%nat := Holding 0]} 0)
    (mkServer (sample_inner n) d true tasks persisted counted)
    (from_option (fun p => {[0%nat := set_phase stalled_handler p]}) ∅ p) answers [].

Definition served (p : option phase) answers : receiving (list_channel ExportRequest) Z :=
  mkReceiving
    (Admission.mkReceiver (mkLimits 1 0 8 (secs 5)) ∅ 0)
    (mkServer (sample_inner 3) sample_written true ∅ [sample_logs] [sample_logs])
    (from_option (fun p => {[0%nat := set_phase stalled_handler p]}) ∅ p) answers [].

Definition served_run : list (receiving (list_channel ExportRequest) Z) :=
  [ serving (Some (Reading [])) 0 sample_disk ∅ [] [] [];
    serving (Some (Reading [x7b; x7d])) 0 sample_disk ∅ [] [] [];
    serving (Some (Submitting sample_logs)) 0 sample_disk ∅ [] [] [];
    serving (Some (Awaiting sample_logs)) 0 sample_disk {[0%nat := Writing sample_logs]} [] [] [];
    serving (Some (Awaiting sample_logs)) 1 sample_written {[0%nat := Counting sample_logs]} [sample_logs] [] [];
    serving (Some (Awaiting sample_logs)) 2 sample_written {[0%nat := Publishing sample_logs false]}
      [sample_logs] [sample_logs] [];
    served (Some (Answering sample_logs (Ok tt))) [];
    served None [(Some sample_logs, sample_ok)] ].

Definition served_actions : list action :=
  [Receive 0; BodyEnds 0; Poll 0; RecordTask 0; RecordTask 0; RecordTask 0; Poll 0]%nat.

Lemma served_run_step n e x y :
  served_actions !! n = Some e -> served_run !! n = Some x -> served_run !! S n = Some y ->
  sample_step e x y.
Proof.
  pose (h p := set_phase stalled_handler p).
  intros Ee Ex Ey. destruct n as [|[|[|[|[|[|[|n]]]]]]]; simpl in Ee, Ex, Ey; simplify_eq; eapply step_to.
  - apply (step_receive _ _ _ _ 0%nat (h (Reading [])) [] [x7b; x7d]); [reflexivity..|vm_compute; discriminate].
  - reflexivity.
  - apply (step_decoded _ _ _ _ 0%nat (h (Reading [x7b; x7d])) [x7b; x7d] sample_logs (recv (stalled_run 2).2)); reflexivity.
  - reflexivity.
  - eapply (step_submit _ _ _ _ 0%nat (h (Submitting sample_logs))); [reflexivity..|by apply Sink.step_begin|reflexivity].
  - reflexivity.
  - eapply (step_task _ _ _ _ 0%nat (Writing sample_logs) (Counting sample_logs)); [reflexivity..| |].
    + by apply (Sink.step_persist _ _ _ 0%nat sample_logs sample_env (sample_inner 1) sample_written).
    + reflexivity.
  - reflexivity.
  - eapply (step_task _ _ _ _ 0%nat (Counting sample_logs) (Publishing sample_logs false)); [reflexivity..| |].
    + by apply (Sink.step_count _ _ _ 0%nat sample_logs (sample_inner 2)).
    + reflexivity.
  - reflexivity.
  - eapply (step_recorded _ _ _ _ 0%nat sample_logs); [reflexivity| | |].
    + by apply (Sink.step_publish _ _ _ 0%nat sample_logs false).
    + reflexivity.
    + exists 0%nat. split; [reflexivity|]. split_and!; [by apply (Admission.step_drop_last _ 0%nat)|reflexivity..].
  - reflexivity.
  - apply (step_answer _ _ _ _ 0%nat (h (Answering sample_logs (Ok tt))) sample_logs (Ok tt)); reflexivity.
  - reflexivity.
Qed.

Lemma served_run_steps n x y :
  served_run !! n = Some x -> served_run !! S n = Some y ->
  exists e, (e <> Upkeep /\ e <> Tick) /\ sample_step e x y.
Proof.
  intros Hx Hy. destruct (served_actions !! n) as [e|] eqn:Ee.
  - exists e. split; [|by eapply served_run_step].
    do 7 (destruct n as [|n]; [by simplify_eq/=|]). done.
  - apply lookup_ge_None in Ee. apply lookup_lt_Some in Hy. simpl in *. lia.
Qed.

(** What the steps of a request and its task relate. *)
Definition worked (a b : receiving (list_channel ExportRequest) Z) : Prop :=
  exists e, (e <> Upkeep /\ e <> Tick) /\ sample_step e a b.

Lemma run_through l x z :
  (forall n a b, (x :: l) !! n = Some a -> (x :: l) !! S n = Some b -> worked a b) ->
  last (x :: l) = Some z -> rtc worked x z.
Proof.
  revert x. induction l as [|y l IH]; intros x Hl Hz; [by simplify_eq/=; apply rtc_refl|].
  eapply rtc_l; [by apply (Hl 0%nat)|]. apply IH; [|done]. intros n a b Ha Hb. by apply (Hl (S n)).
Qed.

Lemma sample_worked :
  rtc worked (opened 1 (secs 5) sample_sink sample_disk) (served None [(Some sample_logs, sample_ok)]).
Proof.
  eapply rtc_l; [exists (Arrive 0%nat); split; [done|exact (stalled_run_ok 0%nat)]|].
  eapply rtc_l; [exists (Poll 0%nat); split; [done|exact (stalled_run_ok 1%nat)]|].
  change (stalled_run 2).2 with (serving (Some (Reading [])) 0 sample_disk ∅ [] [] []).
  eapply (run_through (tail served_run)); [|reflexivity]. apply served_run_steps.
Qed.

Lemma sample_acknowledged : sample_receiving (served None [(Some sample_logs, sample_ok)]).
Proof.
  eapply rtc_subrel, sample_worked. intros x y (e & _ & Hs). by exists e.
Qed.

Lemma acknowledged_is_recorded_once_witness :
  exists x, sample_receiving x /\ acknowledged (answers x) = [sample_logs] /\
    persisted (store x) ≡ₚ [sample_logs].
Proof.
  exists (served None [(Some sample_logs, sample_ok)]). split; [exact sample_acknowledged|].
  split; [reflexivity|].
  destruct (acknowledged_is_recorded_once sample_to_vec sample_render (secs 1000000) 1 (secs 5)
    sample_sink sample_disk _ sample_sink_ok sample_acknowledged) as (_ & _ & _ & _ & H).
  exact (H eq_refl eq_refl).
Defined.
