(* ===== verification/ReceivingLive.v ===== *)
(** * Every request ends

    Liveness of the receiver at work ([Receiving]): what a request still has to go shrinks with
    each step that is due, and what is due can happen, at once or from the request's deadline
    on. *)

From Stdlib Require Import Strings.Byte.
From S2P Require Import Prelude Runs Io Otlp AggState AggIngest AggBatch Storage Config Cli Channel Router Rotation Health Pretty Sink Admission Http Grpc Receiving.

Local Open Scope Z_scope.

(** ** What a request still has to go *)

(** The rounds a request still has to go at most, and who moves it next: itself, its deadline
    or its task. *)
Definition task_rank (st : stage) : nat :=
  match st with Writing _ => 4 | Counting _ => 3 | Publishing _ _ => 2 end.

Definition rank (q : option request) (h : option handler) (t : option stage) : nat :=
  match h with
  | None => from_option task_rank 0 t
  | Some h =>
      match h_phase h with
      | Admitting =>
          match q with
          | Some (Contending _) => 11
          | Some Refused => 10
          | Some (Waiting _) => 9
          | Some Acquired => 8
          | _ => 7
          end
      | Reading _ => 6
      | Submitting _ => 5
      | Awaiting _ => from_option task_rank 1 t
      | Answering _ _ => 1
      end
  end%nat.

Definition rank_of `{NaiveDates} {C Sem} (x : receiving C Sem) (r : nat) : nat :=
  rank (requests (recv x) !! r) (handlers x !! r) (tasks (store x) !! r).

Definition helpful (r k : nat) : action :=
  match k with
  | 9 | 6 => Expire r
  | 4 | 3 | 2 => RecordTask r
  | _ => Poll r
  end%nat.

(** Its deadline, as long as it has a handler. *)
Definition due (d : Z) (h : option handler) : Prop :=
  match h with Some h => h_deadline h = d | None => True end.

(** * Lemmas *)

Section progress.
Context `{World} `{NaiveDates} {C : Type} `{ChannelOps C ExportRequest} {Sem : Type}
  `{SemaphoreOps Sem} `{Codecs} `{!Requests} `{Tonic}.
Context (to_vec : batch -> option (list byte)) (render : batch -> bool -> string).
Context (instant_max : Z).

#[local] Abbreviation transition := (step to_vec render instant_max).
Implicit Types (x y : receiving C Sem) (r : nat).

Lemma rank_zero x r :
  ReceivingInv x -> rank_of x r = 0%nat ->
  handlers x !! r = None /\ tasks (store x) !! r = None /\ requests (recv x) !! r = None.
Proof.
  intros Hx. pose proof (inv_consistent x Hx r) as Hc. unfold rank_of, rank, consistent in *.
  destruct (handlers x !! r) as [h|].
  - destruct Hc as [Hp _].
    destruct (h_phase h), (requests (recv x) !! r) as [[]|], (tasks (store x) !! r) as [[]|]; simpl in *; done.
  - by destruct (tasks (store x) !! r) as [[]|].
Qed.

Lemma settle_rank x r b res a s :
  tasks s !! r = None ->
  (rank_of (settle x r b res a s) r <= 1)%nat /\
  forall d, due d (handlers x !! r) -> due d (handlers (settle x r b res a s) !! r).
Proof.
  intros Et. unfold settle, rank_of. destruct (handlers x !! r) as [h|] eqn:Eh; simpl.
  - unfold with_handler. rewrite lookup_insert_eq. split; [simpl; lia|done].
  - rewrite Eh, Et. split; [simpl; lia|done].
Qed.

Lemma leave_rank x r a l l' st :
  tasks (store x) !! r = st ->
  rank_of (leave x r a l l') r = from_option task_rank 0%nat st /\
  forall d, due d (handlers (leave x r a l l') !! r).
Proof. intros Et. unfold rank_of. simpl. by rewrite lookup_delete_eq, Et. Qed.

Lemma rank_known x r h :
  handlers x !! r = Some h ->
  rank_of x r = rank (requests (recv x) !! r) (Some h) (tasks (store x) !! r).
Proof. unfold rank_of. by intros ->. Qed.

(** A handler that leaves without a task is done. *)
Lemma leave_gone x r a l l' d k (Q : Prop) :
  tasks (store x) !! r = None -> k <> 0%nat ->
  (rank_of (leave x r a l l') r <= k)%nat /\ (Q -> (rank_of (leave x r a l l') r < k)%nat) /\
  due d (handlers (leave x r a l l') !! r).
Proof.
  intros Et Hk. destruct (leave_rank x r a l l' None Et) as [-> Hd]. simpl. split_and!; [lia|lia|apply Hd].
Qed.

(** One that goes on. *)
Lemma goes_rank x r h p a d k j (Q : Prop) :
  handlers x !! r = Some h -> due d (Some h) ->
  rank (requests a !! r) (Some (set_phase h p)) (tasks (store x) !! r) = k -> (k < j)%nat ->
  (rank_of (goes x r h p a) r <= j)%nat /\ (Q -> (rank_of (goes x r h p a) r < j)%nat) /\
  due d (handlers (goes x r h p a) !! r).
Proof.
  intros Eh Hd Ek Hj. unfold rank_of. simpl. unfold with_handler. rewrite lookup_insert_eq, Ek.
  split_and!; [lia|lia|done].
Qed.

(** Its task goes on or ends. *)
Lemma task_rank_le x r st :
  ReceivingInv x -> tasks (store x) !! r = Some st -> rank_of x r = task_rank st.
Proof.
  intros Hx Et. pose proof (inv_consistent x Hx r) as Hc. unfold rank_of. rewrite Et in *.
  destruct (handlers x !! r) as [h|]; [|done]. destruct Hc as [Hp _]. unfold rank.
  destruct (h_phase h); simpl in *; try done. by destruct Hp.
Qed.

Lemma helpful_actor r k : actor (helpful r k) = Some r.
Proof. by do 10 (destruct k as [|k]; [done|]). Qed.

Lemma rank_step e x y r d :
  transition e x y -> ReceivingInv x -> rank_of x r <> 0%nat -> due d (handlers x !! r) ->
  (rank_of y r <= rank_of x r)%nat /\ (e = helpful r (rank_of x r) -> (rank_of y r < rank_of x r)%nat) /\
  due d (handlers y !! r).
Proof.
  intros Hstep Hx Hk Hd. destruct (decide (actor e = Some r)) as [Ea|Ea]; cycle 1.
  { destruct (step_frame _ _ _ _ _ _ r Hstep Hx Ea) as (E1 & E2 & E3).
    assert (rank_of y r = rank_of x r) as -> by (unfold rank_of; by rewrite E1, E2, E3).
    split; [done|]. split; [|by rewrite E2]. intros ->. destruct Ea.
    apply helpful_actor. }
  destruct Hstep as [x|x r' p signal d' q a Eh Eq Ed Hq Hm|x r' h q q' a Eh Ep Eq Hq Hm
    |x r' h a Eh Ep Eq Hm|x r' h d' a Eh Ep Eq Hd' Hm|x r' h d' a Eh Ep Eq Hm|x r' h a Eh Ep Eq Hm
    |x r' h buf chunk Eh Ep Hb|x r' h buf b a Eh Ep Ed Hf|x r' h buf ans a Eh Ep Hf Hdr
    |x r' h buf a Eh Ep Hb Hdr|x r' h b s Eh Ep Ha Et Hs E|x r' h b a Eh Ep Ha Hdr
    |x r' st st' s Et Hm Hs E|x r' b ws a s Et Hs E Hdr|x r' b env i dd err a Et Hp Hdr
    |x r' h b res a Eh Ep Hdr|x r' h a Eh Ep Hdr|x s Hs E|x t Ht]; simpl in Ea; simplify_eq;
    try (pose proof (no_task x r h Hx Eh) as Et; rewrite Ep in Et; specialize (Et I));
    try (rewrite Eh in Hd).
  - destruct Hk. pose proof (inv_consistent x Hx r) as Hc. unfold rank_of. rewrite Eh, Eq in *.
    simpl in Hc. by destruct (tasks (store x) !! r).
  - rewrite (rank_known x r h Eh), Eq. unfold rank. rewrite Ep. apply moves_touches in Hm as [_ Eq'].
    apply (goes_rank x r h _ a d _ _ _ Eh Hd eq_refl). rewrite Eq'. unfold rank. simpl.
    destruct q, q'; simpl in *; try done; lia.
  - by apply leave_gone.
  - by apply leave_gone.
  - by apply leave_gone.
  - apply (goes_rank x r h _ a d _ _ _ Eh Hd eq_refl). rewrite (rank_known x r h Eh), Eq.
    unfold rank. rewrite Ep. simpl. lia.
  - unfold rank_of. simpl. unfold with_handler. rewrite lookup_insert_eq, Eh. unfold rank.
    rewrite Ep. simpl. by split_and!.
  - apply (goes_rank x r h _ a d _ _ _ Eh Hd eq_refl). rewrite (rank_known x r h Eh).
    unfold rank. rewrite Ep. simpl. lia.
  - by apply leave_gone.
  - by apply leave_gone.
  - rewrite (rank_known x r h Eh). unfold rank_of. simpl. unfold with_handler.
    rewrite lookup_insert_eq, E, lookup_insert_eq. unfold rank. rewrite Ep. simpl. split_and!; [lia|lia|done].
  - apply (goes_rank x r h _ a d _ _ _ Eh Hd eq_refl). rewrite (rank_known x r h Eh).
    unfold rank. rewrite Ep. simpl. lia.
  - rewrite (task_rank_le x r st Hx Et). unfold rank_of. simpl. rewrite E, lookup_insert_eq.
    pose proof (inv_consistent x Hx r) as Hc. rewrite Et in Hc. unfold rank.
    destruct (handlers x !! r) as [h|]; [destruct Hc as [Hp _]; destruct (h_phase h)|];
      simpl in *; try done; try (by destruct Hp);
      destruct st, st'; simpl in *; try done; split_and!; lia || done.
  - rewrite (task_rank_le x r _ Hx Et).
    destruct (settle_rank x r b (Ok tt) a s ltac:(by rewrite E, lookup_delete_eq)) as [Hr Hdue].
    simpl. split_and!; [lia|lia|by apply Hdue].
  - rewrite (task_rank_le x r _ Hx Et).
    match goal with |- context [settle x r b (Err err) a ?s] =>
      destruct (settle_rank x r b (Err err) a s (lookup_delete_eq _ _)) as [Hr Hdue] end.
    simpl in *. split_and!; [lia|lia|by apply Hdue].
  - by apply leave_gone.
  - destruct (leave_rank x r a [] (untold (h_phase h)) _ eq_refl) as [-> Hdue].
    rewrite (rank_known x r h Eh). split_and!; [|intros Hh|apply Hdue].
    + pose proof (inv_consistent x Hx r) as Hc. rewrite Eh in Hc. destruct Hc as [Hp _]. unfold rank.
      destruct (h_phase h); simpl in *; try done; rewrite ?Hp; simpl; try lia.
      * destruct Hp as [-> _]. simpl. lia.
      * by destruct Hp as (st & -> & _).
    + exfalso. revert Hh. generalize (rank (requests (recv x) !! r) (Some h) (tasks (store x) !! r)).
      intros k. by do 10 (destruct k as [|k]; [done|]).
Qed.

(** What moves a request next can happen: at once or, for what waits for the network, from its
    deadline on.  The guards alive are fewer than a word can count. *)
Lemma admitting_enabled x r h q :
  ReceivingInv x -> handlers x !! r = Some h -> h_phase h = Admitting ->
  requests (recv x) !! r = Some q -> map_sum guarded (requests (recv x)) + 1 < word ->
  h_deadline h <= Admission.now (recv x) ->
  enabled transition (helpful r (rank_of x r)) x.
Proof.
  intros Hx Eh Ep Eq Hw Hd. destruct (admitting_of x r h q Hx Eh Ep Eq) as [_ Ha].
  rewrite (rank_known x r h Eh), Eq. unfold rank. rewrite Ep.
  destruct q as [d'| |d'| |n]; simpl in *; subst.
  - destruct (enter (limits (recv x))) as [l entered] eqn:Een.
    eexists. eapply (step_admission _ _ _ x r h _ (if entered then Waiting _ else Refused)); [done..| |].
    + by destruct entered.
    + split_and!; [by eapply Admission.step_enter|reflexivity..].
  - eexists. eapply step_busy; [done..|]. split_and!; [by apply Admission.step_refused|reflexivity..].
  - eexists. eapply step_timed_out; [done..|].
    split_and!; [by eapply Admission.step_give_up|reflexivity..].
  - eexists. eapply (step_admission _ _ _ x r h _ (Holding 0)); [done..|].
    split_and!; [by apply Admission.step_admitted|reflexivity..].
  - assert (exists a, to_extensions h r (recv x) a) as [a Hext].
    { unfold to_extensions. destruct (h_protocol h); [by eexists|]. by apply (clones_exists r _ 0). }
    eexists. by eapply step_read.
Qed.

Lemma task_enabled (env : WriteEnv) x r st :
  ReceivingInv x -> tasks (store x) !! r = Some st -> enabled transition (RecordTask r) x.
Proof.
  intros Hx Et.
  assert (exists a, drops_one r (recv x) a) as [a Ha].
  { pose proof (inv_consistent x Hx r) as Hc. rewrite Et in Hc.
    destruct (handlers x !! r) as [h|]; cycle 1.
    { destruct (drops_one_exists r _ 0 Hc) as (a & Ha & _). by exists a. }
    destruct Hc as [Hp Hc]. assert (requests (recv x) !! r = live (S (permits h))) as E.
    { destruct (h_phase h); simpl in *; try done; [by destruct Hp|]. by rewrite Hc, Nat.add_1_r. }
    destruct (drops_one_exists r _ _ E) as (a & Ha & _). by exists a. }
  destruct st as [b|b|b ws].
  - destruct (persist to_vec env b (inner (store x)) (disk (store x))) as [[i d] [[]|e]] eqn:Ep.
    + eexists. eapply (step_task _ _ _ x r _ (Counting b)); [done..|by eapply Sink.step_persist|done].
    + eexists. by eapply step_failed.
  - destruct (count b (inner (store x))) as [i ws] eqn:Ec.
    eexists. eapply (step_task _ _ _ x r _ (Publishing b ws)); [done..|by eapply Sink.step_count|done].
  - eexists. eapply step_recorded; [done|by eapply Sink.step_publish|done|done].
Qed.

Lemma helpful_enabled (env : WriteEnv) x r d :
  ReceivingInv x -> rank_of x r <> 0%nat -> due d (handlers x !! r) ->
  map_sum guarded (requests (recv x)) + 1 < word -> d <= Admission.now (recv x) ->
  enabled transition (helpful r (rank_of x r)) x.
Proof.
  intros Hx Hk Hd Hw Hn. destruct (tasks (store x) !! r) as [st|] eqn:Et.
  { rewrite (task_rank_le x r st Hx Et).
    destruct (task_enabled env x r st Hx Et) as [y Hy]. exists y. by destruct st. }
  destruct (handlers x !! r) as [h|] eqn:Eh; cycle 1.
  { destruct Hk. unfold rank_of. by rewrite Eh, Et. }
  simpl in Hd. subst d. destruct (h_phase h) as [|buf|b|b|b res] eqn:Ep.
  - pose proof (inv_consistent x Hx r) as Hc. rewrite Eh in Hc. unfold consistent in Hc.
    rewrite Ep in Hc. destruct Hc as (_ & q & Eq & _). by eapply admitting_enabled.
  - rewrite (rank_known x r h Eh). unfold rank. rewrite Ep.
    destruct (drops_exist r (recv x) (permits h) 0) as [a Ha];
      [by rewrite (permit_of x r h None Hx Eh) by (by rewrite ?Ep)|].
    eexists. by eapply step_late.
  - rewrite (rank_known x r h Eh). unfold rank. rewrite Ep.
    destruct (admission (store x)) eqn:Ea.
    + eexists. eapply step_submit; [done..|by apply Sink.step_begin|done].
    + assert (requests (recv x) !! r = live (S (Nat.pred (permits h)))) as E.
      { rewrite (permit_of x r h None Hx Eh) by (by rewrite ?Ep). unfold permits. rewrite Ep.
        by destruct (h_protocol h). }
      destruct (drops_one_exists r _ _ E) as (a & Ha & _). eexists. by eapply step_closed.
  - pose proof (inv_consistent x Hx r) as Hc. rewrite Eh, Et in Hc. destruct Hc as [Hp _].
    rewrite Ep in Hp. by destruct Hp as (? & ? & _).
  - rewrite (rank_known x r h Eh). unfold rank. rewrite Ep.
    destruct (drops_exist r (recv x) (permits h) 0) as [a Ha];
      [by rewrite (permit_of x r h None Hx Eh) by (by rewrite ?Ep)|].
    eexists. by eapply step_answer.
Qed.
End progress.

(** * Properties *)

Section liveness.
Context `{World} `{NaiveDates} {C : Type} `{ChannelOps C ExportRequest} {Sem : Type}
  `{SemaphoreOps Sem} `{Codecs} `{!Requests} `{Tonic}.
Context (to_vec : batch -> option (list byte)) (render : batch -> bool -> string).
Context (instant_max : Z).

(** C11. Every request comes to an end and gives its slot back.  In any run in which the runtime
    does not put off for ever what a request, its deadline or its task could do and the clock
    goes on, a request that is there is gone at some later time - answered, or cancelled by its
    client - with its task and its permit, although no client sends another byte and whatever
    the other requests, the outputs and a shutdown do meanwhile. *)
Theorem every_request_ends (env : WriteEnv) max_inflight timeout i d ev tr n r :
  reachable to_vec render instant_max max_inflight timeout i d (tr 0%nat) ->
  run_of (step to_vec render instant_max) ev tr ->
  clock_goes_on (fun x => Admission.now (recv x)) tr ->
  (forall e, e = Poll r \/ e = Expire r \/ e = RecordTask r ->
     fair (step to_vec render instant_max) e ev tr) ->
  (forall m, map_sum guarded (requests (recv (tr m))) + 1 < word) ->
  exists m, (n <= m)%nat /\ handlers (tr m) !! r = None /\ tasks (store (tr m)) !! r = None /\
    requests (recv (tr m)) !! r = None.
Proof.
  intros Hr0 Hrun Hclock Hfair Hword.
  assert (forall m, ReceivingInv (tr m)) as Hinv.
  { induction m as [|m IH]; [by eapply receiving_reachable|]. eapply stable_next; [|exact Hrun|exact IH].
    intros e x y. apply receiving_step_inv. }
  enough (eventually (fun x => rank_of x r = 0%nat) tr n) as (m & Hm & E).
  { exists m. split; [done|]. by apply rank_zero. }
  remember (rank_of (tr n) r) as k eqn:Ek. revert n Ek.
  induction (lt_wf k) as [k _ IH]. intros n Ek.
  destruct (decide (k = 0%nat)) as [->|Hk]; [by exists n|].
  assert (exists dl, due dl (handlers (tr n) !! r)) as [dl Hdl].
  { destruct (handlers (tr n) !! r) as [h|]; [by exists (h_deadline h)|by exists 0]. }
  apply (eventually_trans (fun x => rank_of x r < k)%nat).
  { intros m _ Hlt. by apply (IH _ Hlt). }
  assert (helpful r k = Poll r \/ helpful r k = Expire r \/ helpful r k = RecordTask r) as Hh
    by (do 10 (destruct k as [|k]; [by auto|]); by auto).
  assert (forall m, rank_of (tr m) r = k /\ due dl (handlers (tr m) !! r) ->
    (rank_of (tr (S m)) r <= k)%nat /\ (ev m = Some (helpful r k) -> (rank_of (tr (S m)) r < k)%nat) /\
    due dl (handlers (tr (S m)) !! r)) as Hstep.
  { intros m [<- Hd]. specialize (Hrun m). destruct (ev m) as [e|] eqn:Ee; [|by rewrite Hrun].
    destruct (rank_step _ _ _ _ _ _ r dl Hrun (Hinv m) Hk Hd) as (? & Hlt & ?).
    split_and!; [done| |done]. intros He. apply Hlt. congruence. }
  apply (wf1_deadline_trace (step to_vec render instant_max) (fun x => Admission.now (recv x)) dl
    (fun x => rank_of x r = k /\ due dl (handlers x !! r)) _ (helpful r k) ev tr n); [by auto|done|..].
  - intros m. specialize (Hrun m). destruct (ev m); [by eapply step_clock|by rewrite Hrun].
  - intros m _ Hp. destruct (Hstep m Hp) as (Hle & _ & Hd).
    destruct (decide (rank_of (tr (S m)) r = k)); [by left|right; lia].
  - intros m _ He Hp. by apply Hstep.
  - intros m _ [<- Hd] Hn. by eapply helpful_enabled.
  - done.
Qed.
End liveness.

(** ** A run to evaluate examples with *)

#[local] Existing Instance sample_world.
#[local] Existing Instance sample_dates.
#[local] Existing Instance sample_codecs.
#[local] Existing Instance sample_tonic.
#[local] Existing Instance sample_requests.

Lemma stalled_run_fair e :
  e = Poll 0 \/ e = Expire 0 \/ e = RecordTask 0 ->
  fair sample_step e (fun n => Some (stalled_run n).1) (fun n => (stalled_run n).2).
Proof.
  intros He n. exists (4 + n)%nat. split; [lia|]. right. intros [y Hy]. simpl in Hy.
  destruct He as [->|[->| ->]]; inversion Hy; subst; simpl in *; simplify_map_eq.
Qed.

Lemma stalled_clock : clock_goes_on (fun x => Admission.now (recv x)) (fun n => (stalled_run n).2).
Proof.
  intros t n. exists (4 + (Z.to_nat t + n))%nat. split; [lia|]. simpl. unfold secs. lia.
Qed.

Lemma stalled_guards m : map_sum guarded (requests (recv (stalled_run m).2)) + 1 < word.
Proof. by destruct m as [|[|[|[|m]]]]; vm_compute. Qed.

Lemma every_request_ends_witness :
  exists m, (2 <= m)%nat /\ handlers (stalled_run m).2 !! 0%nat = None /\
    requests (recv (stalled_run m).2) !! 0%nat = None.
Proof.
  destruct (every_request_ends sample_to_vec sample_render (secs 1000000) sample_env 1 (secs 5)
    sample_sink sample_disk (fun n => Some (stalled_run n).1) (fun n => (stalled_run n).2) 2 0
    (stalled_run_reachable 0) stalled_run_ok stalled_clock stalled_run_fair stalled_guards)
    as (m & H1 & H2 & _ & H3).
  exists m. split; [exact H1|]. split; [exact H2|exact H3].
Defined.
