(* ===== verification/ReceivingRuns.v ===== *)
(** * The handlers as runs

    The handlers of [Http] and [Grpc] run without interruption; here they are runs of the
    receiver at work ([Receiving]) in which nothing else happens. *)

From Stdlib Require Import Strings.Byte.
From S2P Require Import Prelude Runs Io Otlp AggState AggIngest AggBatch Storage Config Cli Channel Router Rotation Health Pretty Sink Admission Http Grpc Receiving.

Local Open Scope Z_scope.

(** * Lemmas *)

Section alone.
Context `{World} `{NaiveDates} {C : Type} `{ChannelOps C ExportRequest} {Sem : Type}
  `{SemaphoreOps Sem} `{Codecs} `{!Requests} `{Tonic}.
Context (to_vec : batch -> option (list byte)) (render : batch -> bool -> string).
Context (instant_max : Z).
Implicit Types (x y : receiving C Sem) (r : nat) (h : handler).

#[local] Abbreviation runs := (rtc (fun x y => exists e, step to_vec render instant_max e x y)).

#[local] Ltac flat := repeat (progress (unfold with_handler; simpl)).

(** Nothing but the clock differs. *)
Definition same_but_clock x y : Prop :=
  limits (recv y) = limits (recv x) /\ requests (recv y) = requests (recv x) /\
  store y = store x /\ handlers y = handlers x /\ answers y = answers x /\ abandoned y = abandoned x.

Lemma wait_until x d :
  exists y, runs x y /\ same_but_clock x y /\ d <= Admission.now (recv y).
Proof.
  eexists. split.
  { apply rtc_once. exists Tick. apply (step_tick _ _ _ x (Z.max d (Admission.now (recv x)))). lia. }
  split; [by split_and!|]. simpl. lia.
Qed.

(** All clones are dropped: the slot is free again. *)
Lemma drops_all r n a :
  requests a !! r = live (S n) ->
  exists a', drops r (S n) a a' /\ limits a' = release (limits a) /\ requests a' = delete r (requests a).
Proof.
  revert a. induction n as [|n IH]; intros a E.
  - pose proof (Admission.step_drop_last a r E) as Hs. set (b := mkReceiver _ _ _) in Hs.
    exists b. split; [|done]. exists b. split; [|done]. exists 0%nat. split; [done|]. by split_and!.
  - pose proof (Admission.step_drop_clone a r n E) as Hs. set (b := mkReceiver _ _ _) in Hs.
    destruct (IH b) as (a' & Hd & El & Er); [apply lookup_insert_eq|].
    exists a'. split; [|split; [done|]; rewrite Er; apply delete_insert_eq].
    exists b. split; [|done]. exists (S n). split; [done|]. by split_and!.
Qed.

(** What is left when request [r] is over: its slot is back and its answer given. *)
Record over x y (r : nat) (l : ReceiveLimits Sem) (b : option batch) (ans : answer) : Prop := {
  over_limits : limits (recv y) = l;
  over_requests : requests (recv y) = delete r (requests (recv x));
  over_handlers : handlers y = delete r (handlers x);
  over_tasks : tasks (store y) = delete r (tasks (store x));
  over_answers : answers y = answers x ++ [(b, ans)];
  over_abandoned : abandoned y = abandoned x;
}.

(** A handler whose task is over gives its answer. *)
Lemma answer_run x r h b res a n :
  handlers x !! r = Some h -> h_phase h = Answering b res -> permits h = n -> drops r n (recv x) a ->
  runs x (leave x r a [(Some b, recorded h res)] []).
Proof. intros Eh Ep <- Hd. apply rtc_once. exists (Poll r). by eapply step_answer. Qed.

(** Its permits after it submitted and after its task dropped one. *)
Lemma submitted_permits h b b' :
  h_phase h = Submitting b -> exists n, permits h = S n /\
    permits (set_phase h (Awaiting b')) = n /\
    forall res, permits (set_phase h (Answering b' res)) = n.
Proof.
  intros Ep. unfold permits. rewrite Ep. cbn. destruct (h_protocol h); by eexists.
Qed.

(** [record_with_permit] of a handler that submits. *)
Lemma record_run x r h b env :
  handlers x !! r = Some h -> h_phase h = Submitting b -> requests (recv x) !! r = live (permits h) ->
  tasks (store x) !! r = None ->
  let '(i, d, res) :=
    record_with_permit to_vec render (admission (store x)) env b (inner (store x)) (disk (store x)) in
  exists y, runs x y /\ over x y r (release (limits (recv x))) (Some b) (recorded h res) /\
    inner (store y) = i /\ disk (store y) = d /\ admission (store y) = admission (store x).
Proof.
  intros Eh Ep Eq Et. destruct (submitted_permits h b b Ep) as (n & En & En1 & En2).
  rewrite En in Eq. destruct (drops_all r n _ Eq) as (a' & (b1 & Hd1 & Hd) & El & Er).
  unfold record_with_permit. destruct (admission (store x)) eqn:Ea; cycle 1.
  { eexists. split.
    - eapply rtc_l; [exists (Poll r); by eapply step_closed|].
      eapply (answer_run _ r (set_phase h _)); [apply lookup_insert_eq|done|apply En2|exact Hd].
    - split; [|by split_and!]. split; flat;
        by rewrite ?delete_insert_eq, ?app_nil_r, ?(delete_id _ _ Et). }
  pose proof (step_submit to_vec render instant_max x r h b _ Eh Ep Ea Et
    (Sink.step_begin _ _ (store x) r b Et Ea) eq_refl) as Hsub.
  set (x1 := mkReceiving _ _ _ _ _) in Hsub.
  assert (handlers x1 !! r = Some (set_phase h (Awaiting b))) as Eh1 by apply lookup_insert_eq.
  assert (tasks (store x1) !! r = Some (Writing b)) as Et1 by apply lookup_insert_eq.
  unfold record_admitted. destruct (persist _ env b _ _) as [[i d] [[]|e]] eqn:Ew; cycle 1.
  { pose proof (step_failed to_vec render instant_max x1 r b env i d e b1 Et1 Ew Hd1) as Hf.
    unfold settle in Hf. rewrite Eh1 in Hf. eexists. split.
    - eapply rtc_l; [by eexists|]. eapply rtc_l; [by eexists|].
      eapply (answer_run _ r (set_phase _ _)); [apply lookup_insert_eq|done|apply (En2 (Err e))|exact Hd].
    - subst x1. split; [|by split_and!].
      split; flat; by rewrite ?delete_insert_eq, ?app_nil_r. }
  destruct (count b i) as [i2 ws] eqn:Ec.
  pose proof (step_task to_vec render instant_max x1 r _ (Counting b) _ Et1 eq_refl
    (Sink.step_persist _ _ (store x1) r b env i d Et1 Ew) eq_refl) as Hp.
  set (x2 := mkReceiving _ _ _ _ _) in Hp.
  assert (tasks (store x2) !! r = Some (Counting b)) as Et2 by apply lookup_insert_eq.
  pose proof (step_task to_vec render instant_max x2 r _ (Publishing b ws) _ Et2 eq_refl
    (Sink.step_count _ _ (store x2) r b i2 ws Et2 Ec) eq_refl) as Hc.
  set (x3 := mkReceiving _ _ _ _ _) in Hc.
  assert (tasks (store x3) !! r = Some (Publishing b ws)) as Et3 by apply lookup_insert_eq.
  pose proof (step_recorded to_vec render instant_max x3 r b ws b1 _ Et3
    (Sink.step_publish _ _ (store x3) r b ws Et3) eq_refl Hd1) as Hr.
  unfold settle in Hr. change (handlers x3) with (handlers x1) in Hr. rewrite Eh1 in Hr. eexists. split.
  - do 4 (eapply rtc_l; [by eexists|]).
    eapply (answer_run _ r (set_phase _ _)); [apply lookup_insert_eq|done|apply (En2 (Ok tt))|exact Hd].
  - subst x1 x2 x3. split; [|by split_and!].
    split; flat; by rewrite ?delete_insert_eq, ?app_nil_r.
Qed.

(** [admit] of a request that arrives. *)
Lemma admit_run await x r p signal :
  handlers x !! r = None -> requests (recv x) !! r = None -> tasks (store x) !! r = None ->
  map_sum guarded (requests (recv x)) + 1 < word ->
  (forall s s', await s = Some s' -> try_acquire s = Some s') ->
  let d := deadline instant_max (Admission.now (recv x)) (limits (recv x)) in
  let h := mkHandler p signal d Admitting in
  let '(l, res) := admit_request await (limits (recv x)) in
  exists y, runs x y /\ store y = store x /\
    match res with
    | Ok _ =>
        limits (recv y) = l /\ requests (recv y) = <[r := Holding 0]> (requests (recv x)) /\
        handlers y = <[r := h]> (handlers x) /\ answers y = answers x /\ abandoned y = abandoned x
    | Err e => over x y r l None (rejected h e)
    end.
Proof.
  intros Eh Eq Er Hw Hawait d h. unfold admit_request.
  destruct (try_acquire (slots (limits (recv x)))) as [s|] eqn:Et.
  { pose proof (Admission.step_admit_now (recv x) r s Eq Et) as Hs.
    eexists. split; [|split].
    - apply rtc_once. exists (Arrive r). eapply (step_arrive _ _ _ x r p signal d (Holding 0));
        [done..|by left|by split_and!].
    - done.
    - by split_and!. }
  pose proof (Admission.step_contend (recv x) r d Eq Et) as S1. set (a1 := mkReceiver _ _ _) in S1.
  assert (step to_vec render instant_max (Arrive r) x
    (mkReceiving a1 (store x) (with_handler x r h) (answers x) (abandoned x))) as K1.
  { eapply (step_arrive _ _ _ x r p signal d (Contending d)); [done..|by right|by split_and!]. }
  set (x1 := mkReceiving _ _ _ _ _) in K1.
  assert (requests a1 !! r = Some (Contending d)) as E1 by apply lookup_insert_eq.
  assert (handlers x1 !! r = Some h) as Eh1 by apply lookup_insert_eq.
  destruct (enter (limits (recv x))) as [l entered] eqn:Een.
  assert (map_sum guarded (requests a1) + 1 < word) as Hw1.
  { simpl. rewrite map_sum_insert_None by done. simpl. lia. }
  pose proof (Admission.step_enter a1 r d l entered E1 Een Hw1) as S2.
  set (q := if entered then Waiting d else Refused) in S2. set (a2 := mkReceiver l _ _) in S2.
  assert (step to_vec render instant_max (Poll r) x1 (goes x1 r h Admitting a2)) as K2.
  { eapply (step_admission _ _ _ x1 r h _ q); [done..|by unfold q; destruct entered|by split_and!]. }
  set (x2 := goes x1 r h Admitting a2) in K2.
  assert (requests a2 !! r = Some q) as E2 by apply lookup_insert_eq.
  assert (handlers x2 !! r = Some h) as Eh2 by apply lookup_insert_eq.
  assert (runs x x2) as K by (eapply rtc_l; [by eexists|]; apply rtc_once; by eexists).
  assert (slots l = slots (limits (recv x))) as Esl by (unfold enter in Een; by injection Een as <- _).
  destruct entered.
  - destruct (await (slots l)) as [s|] eqn:Ea.
    + pose proof (Admission.step_acquire a2 r d s E2 (Hawait _ _ Ea)) as S3. set (a3 := mkReceiver _ _ _) in S3.
      assert (requests a3 !! r = Some Acquired) as E3 by apply lookup_insert_eq.
      assert (step to_vec render instant_max (Poll r) x2 (goes x2 r h Admitting a3)) as K3.
      { by eapply (step_admission _ _ _ x2 r h _ Acquired); [..|split_and!]. }
      set (x3 := goes x2 r h Admitting a3) in K3.
      assert (handlers x3 !! r = Some h) as Eh3 by apply lookup_insert_eq.
      pose proof (Admission.step_admitted a3 r E3) as S4.
      eexists. split; [|split].
      * eapply rtc_r; [eapply rtc_r; [exact K|by eexists]|]. exists (Poll r).
        by eapply (step_admission _ _ _ x3 r h _ (Holding 0)); [..|split_and!].
      * done.
      * subst x3 a3 x2 a2 x1 a1. flat. rewrite !insert_insert_eq. by split_and!.
    + destruct (wait_until x2 d) as (y & Ky & (F1 & F2 & F3 & F4 & F5 & F6) & Hd).
      assert (requests (recv y) !! r = Some (Waiting d)) as Ey by (by rewrite F2).
      eexists. split; [|split].
      * eapply rtc_r; [by etrans|]. exists (Expire r).
        eapply (step_timed_out _ _ _ y r h d); [by rewrite F4|done..|].
        split_and!; [by eapply Admission.step_give_up|reflexivity..].
      * simpl. by rewrite F3.
      * split; simpl; rewrite ?F1, ?F2, ?F3, ?F4, ?F5, ?F6; subst x2 a2 x1 a1; flat;
          by rewrite ?insert_insert_eq, ?delete_insert_eq, ?app_nil_r, ?(delete_id _ _ Er).
  - eexists. split; [|split].
    + eapply rtc_r; [exact K|]. exists (Poll r). eapply (step_busy _ _ _ x2 r h); [done..|].
      split_and!; [by apply Admission.step_refused|reflexivity..].
    + done.
    + split; subst x2 a2 x1 a1; flat;
        by rewrite ?insert_insert_eq, ?delete_insert_eq, ?app_nil_r, ?(delete_id _ _ Er).
Qed.

(** Request [r], and nothing of the others, is in phase [p]. *)
Record in_phase x y r h (p : phase) : Prop := {
  in_limits : limits (recv y) = limits (recv x);
  in_store : store y = store x;
  in_permit : requests (recv y) !! r = live (permits (set_phase h p));
  in_requests : delete r (requests (recv y)) = delete r (requests (recv x));
  in_handlers : handlers y = <[r := set_phase h p]> (handlers x);
  in_answers : answers y = answers x;
  in_abandoned : abandoned y = abandoned x;
}.

Lemma clone_one r n a :
  requests a !! r = live (S n) ->
  exists a', clones r a a' /\ limits a' = limits a /\ requests a' = <[r := Holding (S n)]> (requests a).
Proof.
  intros E. pose proof (Admission.step_clone a r n E) as Hs. set (a' := mkReceiver _ _ _) in Hs.
  exists a'. split; [|done]. exists n. split; [done|]. by split_and!.
Qed.

Lemma drop_one r n a :
  requests a !! r = live (S (S n)) ->
  exists a', drops_one r a a' /\ limits a' = limits a /\ requests a' = <[r := Holding n]> (requests a).
Proof.
  intros E. pose proof (Admission.step_drop_clone a r n E) as Hs. set (a' := mkReceiver _ _ _) in Hs.
  exists a'. split; [|done]. exists (S n). split; [done|]. by split_and!.
Qed.

(** The body arrives in one piece. *)
Lemma read_run x r h bytes :
  handlers x !! r = Some h -> h_phase h = Admitting -> requests (recv x) !! r = Some (Holding 0) ->
  Z.of_nat (length bytes) <= OTLP_MAX_REQUEST_BYTES ->
  exists y, runs x y /\ in_phase x y r h (Reading bytes).
Proof.
  intros Eh Ep Eq Hb.
  assert (exists a, to_extensions h r (recv x) a /\ limits a = limits (recv x) /\
    requests a !! r = live (permits (set_phase h (Reading bytes))) /\
    delete r (requests a) = delete r (requests (recv x))) as (a & Hext & Ea & Ea2 & Ea3).
  { unfold to_extensions, permits. cbn. destruct (h_protocol h); [by eexists|].
    destruct (clone_one r 0 _ Eq) as (a & Hc & El & Er). exists a. split_and!; [done..| |].
    - rewrite Er. apply lookup_insert_eq.
    - by rewrite Er, delete_insert_eq. }
  eexists. split.
  - eapply rtc_l; [exists (Poll r); by eapply step_read|]. apply rtc_once. exists (Receive r).
    eapply (step_receive _ _ _ _ r (set_phase h (Reading [])) [] bytes); [|done..].
    flat. apply lookup_insert_eq.
  - split; flat; try done. by rewrite insert_insert_eq.
Qed.

Lemma decode_run x r h bytes b :
  handlers x !! r = Some h -> h_phase h = Reading bytes -> decode h bytes = Ok b ->
  requests (recv x) !! r = live (permits h) ->
  exists y, runs x y /\ in_phase x y r h (Submitting b).
Proof.
  intros Eh Ep Ed Eq.
  assert (exists a, from_extensions h r (recv x) a /\ limits a = limits (recv x) /\
    requests a !! r = live (permits (set_phase h (Submitting b))) /\
    delete r (requests a) = delete r (requests (recv x))) as (a & Hext & Ea & Ea2 & Ea3).
  { unfold from_extensions, permits in *. rewrite Ep in Eq. cbn. destruct (h_protocol h); [by eexists|].
    destruct (clone_one r 1 _ Eq) as (a & Hc & El & Er).
    destruct (drop_one r 1 a) as (a' & Hd & El' & Er'); [by rewrite Er; apply lookup_insert_eq|].
    exists a'. split_and!; [by exists a|congruence| |].
    - rewrite Er'. apply lookup_insert_eq.
    - by rewrite Er', Er, insert_insert_eq, delete_insert_eq. }
  eexists. split; [apply rtc_once; exists (BodyEnds r); by eapply step_decoded|]. by split.
Qed.

(** A handler that gives up its body. *)
Lemma reject_run x r h bytes ans :
  handlers x !! r = Some h -> h_phase h = Reading bytes -> requests (recv x) !! r = live (permits h) ->
  tasks (store x) !! r = None -> body_fails h bytes ans \/ ans = late h ->
  exists y, runs x y /\ over x y r (release (limits (recv x))) None ans /\ store y = store x.
Proof.
  intros Eh Ep Eq Et Hans. destruct (wait_until x (h_deadline h)) as (y & Ky & (F1 & F2 & F3 & F4 & F5 & F6) & Hd).
  assert (exists n, permits h = S n) as [n En].
  { unfold permits. rewrite Ep. destruct (h_protocol h); by eexists. }
  destruct (drops_all r n (recv y)) as (a & Hdr & El & Er); [by rewrite F2, Eq, En|]. rewrite <-En in Hdr.
  exists (leave y r a [(None, ans)] []). split; [|split].
  - eapply rtc_r; [exact Ky|]. destruct Hans as [Hf| ->].
    + exists (BodyEnds r). eapply step_body_fails; [by rewrite F4|done..].
    + exists (Expire r). eapply step_late; [by rewrite F4|done..].
  - split; flat; rewrite ?El, ?Er, ?F1, ?F2, ?F3, ?F4, ?F5, ?F6; rewrite ?app_nil_r, ?(delete_id _ _ Et); done.
  - done.
Qed.

Lemma over_in_phase x y z r h p l b ans :
  in_phase x y r h p -> over y z r l b ans -> over x z r l b ans.
Proof.
  intros [F1 F2 F3 F4 F5 F6 F7] [G1 G2 G3 G4 G5 G6]. rewrite F2 in G4. rewrite F5, delete_insert_eq in G3.
  split; congruence.
Qed.

(** A body that is whole, from the slot to the answer. *)
Lemma serve_run x r h env bytes b :
  handlers x !! r = Some h -> h_phase h = Admitting -> requests (recv x) !! r = Some (Holding 0) ->
  tasks (store x) !! r = None -> Z.of_nat (length bytes) <= OTLP_MAX_REQUEST_BYTES ->
  decode h bytes = Ok b ->
  let '(i, d, res) :=
    record_with_permit to_vec render (admission (store x)) env b (inner (store x)) (disk (store x)) in
  exists y, runs x y /\ over x y r (release (limits (recv x))) (Some b) (recorded h res) /\
    inner (store y) = i /\ disk (store y) = d /\ admission (store y) = admission (store x).
Proof.
  intros Eh Ep Eq Et Hb Ed.
  destruct (read_run x r h bytes Eh Ep Eq Hb) as (x1 & K1 & P1). pose proof P1 as [F1 F2 F3 F4 F5 F6 F7].
  destruct (decode_run x1 r (set_phase h (Reading bytes)) bytes b) as (x2 & K2 & P2);
    [rewrite F5; apply lookup_insert_eq|done|done|done|]. pose proof P2 as [G1 G2 G3 G4 G5 G6 G7].
  pose proof (record_run x2 r (set_phase h (Submitting b)) b env) as Hr.
  rewrite G2, F2, G1, F1 in Hr.
  destruct (record_with_permit _ _ _ _ _ _ _) as [[i d] res].
  destruct Hr as (y & Ky & Ho & Hrest); [rewrite G5; apply lookup_insert_eq|done|done|done|].
  exists y. split; [etrans; [exact K1|]; by etrans|]. split; [|done].
  eapply over_in_phase; [exact P1|]. by eapply over_in_phase.
Qed.

(** A body that is not, from the slot to the answer. *)
Lemma fail_run x r h bytes ans :
  handlers x !! r = Some h -> h_phase h = Admitting -> requests (recv x) !! r = Some (Holding 0) ->
  tasks (store x) !! r = None -> Z.of_nat (length bytes) <= OTLP_MAX_REQUEST_BYTES ->
  body_fails (set_phase h (Reading bytes)) bytes ans \/ ans = late h ->
  exists y, runs x y /\ over x y r (release (limits (recv x))) None ans /\ store y = store x.
Proof.
  intros Eh Ep Eq Et Hb Hans.
  destruct (read_run x r h bytes Eh Ep Eq Hb) as (x1 & K1 & P1). pose proof P1 as [F1 F2 F3 F4 F5 F6 F7].
  destruct (reject_run x1 r (set_phase h (Reading bytes)) bytes ans) as (y & Ky & Ho & Es);
    [rewrite F5; apply lookup_insert_eq|done|done|by rewrite F2|done|].
  exists y. split; [by etrans|]. rewrite F1 in Ho. split; [by eapply over_in_phase|congruence].
Qed.

(** What the sequential handlers see of the composed state. *)
Definition seen x : HttpState (C := C) (Sem := Sem) :=
  mkHttp (limits (recv x)) (inner (store x)) (disk (store x)) (admission (store x)).

(** What a request meets that nobody disturbs: the clock it arrives at, a slot that is given by
    the semaphore as it is, and bodies no longer than the limit they are read with. *)
Record Undisturbed x r (env : RequestEnv Sem) : Prop := {
  fresh_handler : handlers x !! r = None;
  fresh_permit : requests (recv x) !! r = None;
  fresh_task : tasks (store x) !! r = None;
  same_clock : arrival env = Admission.now (recv x);
  same_horizon : last_instant env = instant_max;
  few_guards : map_sum guarded (requests (recv x)) + 1 < word;
  slot_as_is d s s' : await_slot env d s = Some s' -> try_acquire s = Some s';
}.

(** The handlers with their decoding in one place. *)
Lemma handle_export_eq signal env headers body (s : HttpState (C := C) (Sem := Sem)) :
  handle_export to_vec render signal env headers body s =
  match detect_encoding headers with
  | Err e => (s, Err e)
  | Ok encoding =>
      match receive_body env body (http_limits s) with
      | (l, Err e) => (mkHttp l (http_sink s) (http_disk s) (http_admission s), Err e)
      | (l, Ok bytes) =>
          match decode_http signal encoding bytes with
          | Err e => (mkHttp (release l) (http_sink s) (http_disk s) (http_admission s), Err e)
          | Ok b =>
              let '(i, d, res) :=
                record_with_permit to_vec render (http_admission s) (write_env env) b (http_sink s)
                  (http_disk s) in
              (mkHttp (release l) i d (http_admission s),
               match res with
               | Ok _ => Ok (encode_response encoding (mkReply signal None))
               | Err e => Err (Persistence e)
               end)
          end
      end
  end.
Proof.
  destruct signal; unfold handle_export, handle_traces, handle_metrics, handle_logs, handle, decode_http,
    wrapped, result_bind; repeat (case_match; simplify_eq/=); done.
Qed.

Lemma call_export_eq signal env at_ body (s : HttpState (C := C) (Sem := Sem)) :
  call_export to_vec render signal env at_ body s =
  let deadline := deadline_of env (http_limits s) in
  match admit_request (await_slot env deadline) (http_limits s) with
  | (l, Err rejected) =>
      (mkHttp l (http_sink s) (http_disk s) (http_admission s),
       Err (unavailable (rejected_message rejected)))
  | (l, Ok _) =>
      match read_body body (Z.max 0 (deadline - at_)) with
      | Err e =>
          (mkHttp (release l) (http_sink s) (http_disk s) (http_admission s),
           Err (status_of_error (deadline_exceeded_as_unavailable e)))
      | Ok bytes =>
          match decode_grpc signal bytes with
          | Err e => (mkHttp (release l) (http_sink s) (http_disk s) (http_admission s), Err e)
          | Ok b =>
              let '(i, d, res) :=
                record_with_permit to_vec render (http_admission s) (write_env env) b (http_sink s)
                  (http_disk s) in
              (mkHttp (release l) i d (http_admission s),
               match res with
               | Ok _ => Ok (mkReply signal None)
               | Err e => Err (persistence_status e)
               end)
          end
      end
  end.
Proof.
  destruct signal; unfold call_export, export_traces, export_metrics, export_logs, admission_call,
    service_call, export, decode_grpc, wrapped, result_bind; repeat (case_match; simplify_eq/=); done.
Qed.

(** Request [r] came and went: the others are as they were and [a] is its answer. *)
Definition came_and_went x y (a : answer) : Prop :=
  handlers y = handlers x /\ requests (recv y) = requests (recv x) /\
  tasks (store y) = tasks (store x) /\ abandoned y = abandoned x /\
  exists b, answers y = answers x ++ [(b, a)].

Lemma over_fresh x y r env l b a :
  Undisturbed x r env -> over x y r l b a -> limits (recv y) = l /\ came_and_went x y a.
Proof.
  intros [E1 E2 E3 _ _ _ _] [F1 F2 F3 F4 F5 F6]. split; [done|]. unfold came_and_went.
  rewrite F2, F3, F4, !delete_id by done. by split_and!; [..|exists b].
Qed.

(** After its admission a request is [x]'s with one handler more. *)
Lemma over_admitted x y z r h l l' b a :
  tasks (store x) !! r = None ->
  store y = store x -> requests (recv y) = <[r := Holding 0]> (requests (recv x)) ->
  handlers y = <[r := h]> (handlers x) -> answers y = answers x -> abandoned y = abandoned x ->
  l = l' -> over y z r l b a -> over x z r l' b a.
Proof.
  intros Et F1 F2 F3 F4 F5 <- [G1 G2 G3 G4 G5 G6]. rewrite F2, delete_insert_eq in G2.
  rewrite F3, delete_insert_eq in G3. split; congruence.
Qed.

(** From the slot on, over either protocol: what the rest of the handler comes to. *)
Lemma admitted_run x r env p signal l bytes :
  Undisturbed x r env ->
  let h := mkHandler p signal (deadline_of env (limits (recv x))) Admitting in
  admit_request (await_slot env (h_deadline h)) (limits (recv x)) = (l, Ok tt) ->
  Z.of_nat (length bytes) <= OTLP_MAX_REQUEST_BYTES ->
  (forall ans, body_fails (set_phase h (Reading bytes)) bytes ans \/ ans = late h ->
   exists y, runs x y /\ came_and_went x y ans /\
     seen y = mkHttp (release l) (inner (store x)) (disk (store x)) (admission (store x))) /\
  (forall b, decode h bytes = Ok b ->
   let '(i, d, res) :=
     record_with_permit to_vec render (admission (store x)) (write_env env) b (inner (store x))
       (disk (store x)) in
   exists y, runs x y /\ came_and_went x y (recorded h res) /\
     seen y = mkHttp (release l) i d (admission (store x))).
Proof.
  intros Hu h Hadm Hb. pose proof Hu as [E1 E2 E3 E4 E5 E6 E7].
  pose proof (admit_run (await_slot env (h_deadline h)) x r p signal E1 E2 E3 E6 (E7 _)) as Ha.
  cbv zeta in Ha. rewrite Hadm in Ha. destruct Ha as (y & Ky & F1 & F2 & F3 & F4 & F5 & F6).
  rewrite <-E4, <-E5 in F4. fold (deadline_of env (limits (recv x))) in F4.
  assert (handlers y !! r = Some h) as Eh by (rewrite F4; apply lookup_insert_eq).
  assert (requests (recv y) !! r = Some (Holding 0)) as Eq by (rewrite F3; apply lookup_insert_eq).
  assert (tasks (store y) !! r = None) as Et by (by rewrite F1).
  split.
  - intros ans Hans. destruct (fail_run y r h bytes ans Eh eq_refl Eq Et Hb Hans) as (z & Kz & Ho & Es).
    exists z. split; [by etrans|].
    destruct (over_fresh x z r env (release l) None ans Hu) as [El Hc];
      [by eapply over_admitted; [..|exact Ho]; rewrite ?F2|].
    split; [done|]. unfold seen. by rewrite El, Es, F1.
  - intros b Hd. pose proof (serve_run y r h (write_env env) bytes b Eh eq_refl Eq Et Hb Hd) as Hs.
    rewrite F1, F2 in Hs. destruct (record_with_permit _ _ _ _ _ _ _) as [[i d] res].
    destruct Hs as (z & Kz & Ho & <- & <- & Ea). exists z. split; [by etrans|].
    destruct (over_fresh x z r env (release l) (Some b) (recorded h res) Hu) as [El Hc];
      [by eapply over_admitted; [..|exact Ho]|].
    split; [done|]. unfold seen. by rewrite El, Ea.
Qed.

Lemma rejected_run x r env p signal l e :
  Undisturbed x r env ->
  let h := mkHandler p signal (deadline_of env (limits (recv x))) Admitting in
  admit_request (await_slot env (h_deadline h)) (limits (recv x)) = (l, Err e) ->
  exists y, runs x y /\ came_and_went x y (rejected h e) /\
    seen y = mkHttp l (inner (store x)) (disk (store x)) (admission (store x)).
Proof.
  intros Hu h Hadm. pose proof Hu as [E1 E2 E3 E4 E5 E6 E7].
  pose proof (admit_run (await_slot env (h_deadline h)) x r p signal E1 E2 E3 E6 (E7 _)) as Ha.
  cbv zeta in Ha. rewrite Hadm in Ha. destruct Ha as (y & Ky & F1 & Ho).
  destruct (over_fresh x y r env _ _ _ Hu Ho) as [El Hc].
  exists y. split; [done|]. split; [|by unfold seen; rewrite El, F1].
  rewrite <-E4, <-E5 in Hc. exact Hc.
Qed.

(** The two handlers from their beginning. *)
Lemma http_run signal env headers body x r :
  Undisturbed x r env ->
  (forall t bytes, to_bytes body OTLP_MAX_REQUEST_BYTES = Some (t, Ok bytes) ->
     Z.of_nat (length bytes) <= OTLP_MAX_REQUEST_BYTES) ->
  let '(s, a) := handle_export to_vec render signal env headers body (seen x) in
  exists y, runs x y /\ came_and_went x y (HttpAnswer a) /\ seen y = s.
Proof.
  intros Hu Hbody. rewrite handle_export_eq. destruct (detect_encoding headers) as [encoding|e] eqn:Ed; cycle 1.
  { eexists. split; [apply rtc_once; exists Refuse; by eapply step_refuse|]. split; [|done].
    unfold came_and_went. simpl. by split_and!; [..|eexists]. }
  unfold receive_body. cbv zeta. simpl http_limits.
  destruct (admit_request _ _) as [l [[]|e]] eqn:Ea;
    [|exact (rejected_run x r env (OverHttp encoding) signal l e Hu Ea)].
  pose proof (fun bytes => admitted_run x r env (OverHttp encoding) signal l bytes Hu Ea) as Hrun.
  destruct (Hrun [] ltac:(done)) as [Hnone _].
  unfold timeout_at. destruct (to_bytes body _) as [[t [bytes|e]]|] eqn:Eb;
    [| |exact (Hnone (HttpAnswer (Err BodyTimeout)) (or_intror eq_refl))];
    (destruct (t <=? _); [|exact (Hnone (HttpAnswer (Err BodyTimeout)) (or_intror eq_refl))]).
  - destruct (Hrun bytes (Hbody t bytes eq_refl)) as [Hfail Hok]. unfold decode in Hok. simpl in Hok.
    destruct (decode_http signal encoding bytes) as [b|e] eqn:Edec.
    + specialize (Hok b eq_refl). simpl. destruct (record_with_permit _ _ _ _ _ _ _) as [[i d] res].
      destruct Hok as (y & K & Hc & Hs). exists y. split_and!; [done| |done]. by destruct res as [[]|].
    + apply (Hfail (HttpAnswer (Err e))). left. apply fails_decoding. unfold decode. simpl. by rewrite Edec.
  - apply (Hnone (broken_http e)). left. by eapply fails_http.
Qed.

Lemma grpc_run signal env at_ body x r :
  Undisturbed x r env ->
  (forall t bytes, read_body body t = Ok bytes -> Z.of_nat (length bytes) <= OTLP_MAX_REQUEST_BYTES) ->
  (forall t e, read_body body t = Err e -> is_timeout e = true -> e = timeout_error) ->
  let '(s, a) := call_export to_vec render signal env at_ body (seen x) in
  exists y, runs x y /\ came_and_went x y (GrpcAnswer a) /\ seen y = s.
Proof.
  intros Hu Hbody Htimeout. rewrite call_export_eq. cbv zeta. simpl http_limits.
  destruct (admit_request _ _) as [l [[]|e]] eqn:Ea;
    [|exact (rejected_run x r env OverGrpc signal l e Hu Ea)].
  pose proof (fun bytes => admitted_run x r env OverGrpc signal l bytes Hu Ea) as Hrun.
  destruct (Hrun [] ltac:(done)) as [Hnone _].
  destruct (read_body body _) as [bytes|e] eqn:Eb.
  - destruct (Hrun bytes (Hbody _ _ Eb)) as [Hfail Hok]. unfold decode in Hok. simpl in Hok.
    destruct (decode_grpc signal bytes) as [b|e] eqn:Edec.
    + specialize (Hok b eq_refl). simpl. destruct (record_with_permit _ _ _ _ _ _ _) as [[i d] res].
      destruct Hok as (y & K & Hc & Hs). exists y. split_and!; [done| |done]. by destruct res as [[]|].
    + apply (Hfail (GrpcAnswer (Err e))). left. apply fails_decoding. unfold decode. simpl. by rewrite Edec.
  - destruct (is_timeout e) eqn:Et.
    + rewrite (Htimeout _ _ Eb Et). apply (Hnone (broken_grpc timeout_error)). by right.
    + apply (Hnone (broken_grpc e)). left. by apply fails_grpc.
Qed.
End alone.

(** * Properties *)

Section handlers.
Context `{World} `{NaiveDates} {C : Type} `{ChannelOps C ExportRequest} {Sem : Type}
  `{SemaphoreOps Sem} `{Codecs} `{!Requests} `{Tonic}.
Context (to_vec : batch -> option (list byte)) (render : batch -> bool -> string).
Context (instant_max : Z).
Implicit Types (x : receiving C Sem).

(** The handlers of [Http] and [Grpc], which run without interruption, are among the behaviours
    of the receiver at work, so what is proved of all those covers them: what they do to limits, log, totals, outputs and proxy, and the answer
    they give, is what the composed receiver does when nothing interferes, the permit's clones
    and the clock included.  The bodies come within the limit they are read with, and a body
    that is late fails with tower's error. *)
Theorem handlers_are_runs signal env headers hbody gbody at_ x r :
  Undisturbed instant_max x r env ->
  (forall t bytes, to_bytes hbody OTLP_MAX_REQUEST_BYTES = Some (t, Ok bytes) ->
     Z.of_nat (length bytes) <= OTLP_MAX_REQUEST_BYTES) ->
  (forall t bytes, read_body gbody t = Ok bytes -> Z.of_nat (length bytes) <= OTLP_MAX_REQUEST_BYTES) ->
  (forall t e, read_body gbody t = Err e -> is_timeout e = true -> e = timeout_error) ->
  (let '(s, a) := handle_export to_vec render signal env headers hbody (seen x) in
   exists y, rtc (fun x y => exists e, step to_vec render instant_max e x y) x y /\
     came_and_went x y (HttpAnswer a) /\ seen y = s) /\
  (let '(s, a) := call_export to_vec render signal env at_ gbody (seen x) in
   exists y, rtc (fun x y => exists e, step to_vec render instant_max e x y) x y /\
     came_and_went x y (GrpcAnswer a) /\ seen y = s).
Proof. intros. split; [by eapply http_run|by eapply grpc_run]. Qed.
End handlers.

(** ** A handler to evaluate examples with *)

#[local] Existing Instance sample_world.
#[local] Existing Instance sample_dates.
#[local] Existing Instance sample_codecs.
#[local] Existing Instance sample_tonic.
#[local] Existing Instance sample_requests.

Lemma sample_undisturbed :
  Undisturbed (C := list_channel ExportRequest) (secs 1000000) (stalled_run 0).2 0 sample_request.
Proof. split; try reflexivity. by intros ? ? ? [=]. Qed.

Lemma handlers_are_runs_witness :
  exists y, rtc (fun x y => exists e, sample_step e x y) (stalled_run 0).2 y /\
    came_and_went (stalled_run 0).2 y sample_ok.
Proof.
  pose proof (proj1 (handlers_are_runs sample_to_vec sample_render (secs 1000000) Logs sample_request
    (Some sample_ct) sample_body whole_body 0 (stalled_run 0).2 0 sample_undisturbed
    ltac:(intros t bytes [= <- <-]; vm_compute; discriminate)
    ltac:(intros t bytes; simpl; destruct (_ <=? _); [intros [= <-]; vm_compute; discriminate|discriminate])
    ltac:(intros t e; simpl; destruct (_ <=? _); [discriminate|intros [= <-] _; reflexivity]))) as H.
  destruct H as (y & Hr & Hc & _). exists y. split; [exact Hr|exact Hc].
Defined.
