(* ===== verification/ProtoJson.v ===== *)
(** * JSON of telemetry ([src/src/proto_json.rs])

    The program does not write JSON itself: it wraps the serializer of [serde_json] so that
    non-finite numbers become strings.  A value is what it tells a serializer, a tree of the
    calls of serde's data model; a serializer is an interface, since it sees a child only by
    serializing it. *)

From Stdlib Require Import SpecFloat Strings.Byte.
From S2P Require Import Prelude Float64 AggBatch.

(** ** Values *)

(** A single-precision number has the shape of a double; [f64::from] rounds nothing away. *)
Definition f32 : Type := f64.
Definition f64_from_f32 (x : f32) : f64 :=
  match x with S754_finite s m e => binary_round 53 1024 s m e | _ => x end.

Inductive int_type := I8 | I16 | I32 | I64 | I128 | U8 | U16 | U32 | U64 | U128.

Inductive scalar :=
| SBool (b : bool)
| SInt (ty : int_type) (i : Z)
| SF32 (x : f32)
| SF64 (x : f64)
| SChar (c : Z)
| SStr (s : string)
| SBytes (bs : list byte)
| SNone
| SUnit
| SUnitStruct (name : string)
| SUnitVariant (name : string) (index : Z) (variant : string).

(** What a value with children begins with. *)
Inductive shape :=
| Some_
| NewtypeStruct (name : string)
| NewtypeVariant (name : string) (index : Z) (variant : string)
| Seq (len : option nat)
| Tuple (len : nat)
| TupleStruct (name : string) (len : nat)
| TupleVariant (name : string) (index : Z) (variant : string) (len : nat)
| Map (len : option nat)
| Struct (name : string) (len : nat)
| StructVariant (name : string) (index : Z) (variant : string) (len : nat).

(** Where a child stands. *)
Inductive slot := Inner | Element | Key | MapValue | Field (key : string).

(** What a value does with a serializer; it may ask whether the format is for humans. *)
Inductive value :=
| Scalar (x : scalar)
| Compound (sh : shape) (cs : children)
| ByReadability (text binary : value)
with children :=
| CNil
| CCons (at_ : slot) (v : value) (cs : children)
| CSkip (key : string) (cs : children).

Scheme value_children_ind := Induction for value Sort Prop
  with children_value_ind := Induction for children Sort Prop.
Combined Scheme value_mutind from value_children_ind, children_value_ind.

(** ** Serializers *)

(** A serializer [S] and the state [C] it is in between the children of a value: it lends a
    serializer to a child and takes back what the child made of it. *)
Class Serializer (S C O E : Type) := {
  serialize_scalar : S -> scalar -> result O E;
  begin : S -> shape -> result C E;
  lend : C -> slot -> S;
  take_back : C -> slot -> O -> result C E;
  skip_field : C -> string -> result C E;
  finish : C -> result O E;
  is_human_readable : S -> bool;
}.

Section serialize.
Context {S C O E : Type} `{!Serializer S C O E}.

Fixpoint serialize (s : S) (v : value) : result O E :=
  match v with
  | Scalar x => serialize_scalar s x
  | Compound sh cs =>
      match begin s sh with
      | Ok c => serialize_children c cs
      | Err e => Err e
      end
  | ByReadability text binary => if is_human_readable s then serialize s text else serialize s binary
  end
with serialize_children (c : C) (cs : children) : result O E :=
  match cs with
  | CNil => finish c
  | CCons at_ v cs =>
      match serialize (lend c at_) v with
      | Ok o =>
          match take_back c at_ o with
          | Ok c => serialize_children c cs
          | Err e => Err e
          end
      | Err e => Err e
      end
  | CSkip key cs =>
      match skip_field c key with
      | Ok c => serialize_children c cs
      | Err e => Err e
      end
  end.
End serialize.

(** ** The wrapper *)

Inductive NonFinite (S : Type) : Type := mkNonFinite (inner : S).
Arguments mkNonFinite {S} _.

Definition result_map {A B E} (f : A -> B) (r : result A E) : result B E :=
  match r with Ok a => Ok (f a) | Err e => Err e end.

Section non_finite.
Context {S C O E : Type} `{!Serializer S C O E}.

Definition nf_serialize_f64 (s : S) (v : f64) : result O E :=
  if f64_is_nan v then serialize_scalar s (SStr "NaN")
  else if f64_is_infinite v
       then serialize_scalar s (SStr (if f64_lt f64_zero v then "Infinity" else "-Infinity"))
       else serialize_scalar s (SF64 v).

Definition nf_serialize_f32 (s : S) (v : f32) : result O E :=
  if f64_is_finite v then serialize_scalar s (SF32 v) else nf_serialize_f64 s (f64_from_f32 v).

Definition nf_scalar (s : NonFinite S) (x : scalar) : result O E :=
  let '(mkNonFinite s) := s in
  match x with
  | SF64 v => nf_serialize_f64 s v
  | SF32 v => nf_serialize_f32 s v
  | x => serialize_scalar s x
  end.

(** The serializer of every child is wrapped again, by [ProtoJson]. *)
Definition nf_lend (c : NonFinite C) (at_ : slot) : NonFinite S :=
  let '(mkNonFinite c) := c in mkNonFinite (lend c at_).

Definition nf_begin (s : NonFinite S) (sh : shape) : result (NonFinite C) E :=
  let '(mkNonFinite s) := s in result_map mkNonFinite (begin s sh).

Definition nf_take_back (c : NonFinite C) (at_ : slot) (o : O) : result (NonFinite C) E :=
  let '(mkNonFinite c) := c in result_map mkNonFinite (take_back c at_ o).

Definition nf_skip_field (c : NonFinite C) (key : string) : result (NonFinite C) E :=
  let '(mkNonFinite c) := c in result_map mkNonFinite (skip_field c key).

Definition nf_finish (c : NonFinite C) : result O E :=
  let '(mkNonFinite c) := c in finish c.

Definition nf_is_human_readable (s : NonFinite S) : bool :=
  let '(mkNonFinite s) := s in is_human_readable s.

#[export] Instance non_finite_serializer : Serializer (NonFinite S) (NonFinite C) O E := {|
  serialize_scalar := nf_scalar;
  begin := nf_begin;
  lend := nf_lend;
  take_back := nf_take_back;
  skip_field := nf_skip_field;
  finish := nf_finish;
  is_human_readable := nf_is_human_readable;
|}.

(** [proto_json::to_vec], over the serializer [json] of [serde_json::to_vec]. *)
Definition to_vec (json : S) (v : value) : result O E := serialize (mkNonFinite json) v.
End non_finite.

(** ** Reference: replacing the numbers first *)

Definition replace_f64 (v : f64) : scalar :=
  match v with
  | S754_nan => SStr "NaN"
  | S754_infinity false => SStr "Infinity"
  | S754_infinity true => SStr "-Infinity"
  | v => SF64 v
  end.

Definition replace_scalar (x : scalar) : scalar :=
  match x with
  | SF64 v => replace_f64 v
  | SF32 (S754_zero _ | S754_finite _ _ _) => x
  | SF32 v => replace_f64 v
  | x => x
  end.

Fixpoint replace (v : value) : value :=
  match v with
  | Scalar x => Scalar (replace_scalar x)
  | Compound sh cs => Compound sh (replace_children cs)
  | ByReadability text binary => ByReadability (replace text) (replace binary)
  end
with replace_children (cs : children) : children :=
  match cs with
  | CNil => CNil
  | CCons at_ v cs => CCons at_ (replace v) (replace_children cs)
  | CSkip key cs => CSkip key (replace_children cs)
  end.

Definition finite_scalar (x : scalar) : bool :=
  match x with SF64 v | SF32 v => f64_is_finite v | _ => true end.

(** No number of the value is infinite or not a number. *)
Fixpoint all_finite (v : value) : bool :=
  match v with
  | Scalar x => finite_scalar x
  | Compound _ cs => all_finite_children cs
  | ByReadability text binary => all_finite text && all_finite binary
  end
with all_finite_children (cs : children) : bool :=
  match cs with
  | CNil => true
  | CCons _ v cs => all_finite v && all_finite_children cs
  | CSkip _ cs => all_finite_children cs
  end.

(** * Lemmas *)

Section lemmas.
Context {S C O E : Type} `{!Serializer S C O E}.

Lemma nf_scalar_replace (s : S) x : nf_scalar (mkNonFinite s) x = serialize_scalar s (replace_scalar x).
Proof. by destruct x as [| |[[]|[]| |[]]|[[]|[]| |[]]| | | | | | |]. Qed.

Lemma serialize_replace :
  (forall v (s : S), serialize (mkNonFinite s) v = serialize s (replace v)) /\
  (forall cs (c : C), serialize_children (mkNonFinite c) cs = serialize_children c (replace_children cs)).
Proof.
  apply value_mutind; simpl; try done.
  - intros x s. apply nf_scalar_replace.
  - intros sh cs IH s. by destruct (begin s sh); simpl.
  - intros t IHt b IHb s. by destruct (is_human_readable s).
  - intros at_ v IHv cs IHcs c. rewrite IHv. destruct (serialize (lend c at_) (replace v)); [|done].
    by destruct (take_back c at_ _); simpl.
  - intros key cs IHcs c. by destruct (skip_field c key); simpl.
Qed.
End lemmas.

Lemma replace_finite :
  (forall v, all_finite (replace v) = true) /\ (forall cs, all_finite_children (replace_children cs) = true).
Proof.
  apply value_mutind; simpl; try done.
  - by intros [| |[[]|[]| |[]]|[[]|[]| |[]]| | | | | | |].
  - by intros t -> b ->.
  - by intros _ v -> cs ->.
Qed.

Lemma replace_id :
  (forall v, all_finite v = true -> replace v = v) /\
  (forall cs, all_finite_children cs = true -> replace_children cs = cs).
Proof.
  apply value_mutind; simpl.
  - by intros [| |[[]|[]| |[]]|[[]|[]| |[]]| | | | | | |].
  - intros sh cs IH Hf. by rewrite IH.
  - intros t IHt b IHb [Ht Hb]%andb_prop. by rewrite IHt, IHb.
  - done.
  - intros ? v IHv cs IHcs [Hv Hcs]%andb_prop. by rewrite IHv, IHcs.
  - intros key cs IHcs Hcs. by rewrite IHcs.
Qed.

(** * Properties *)

(** C26. Wrapping the serializer is the same as replacing the numbers: whatever the format and
    however deep the value, its output and its errors are those for the value in which exactly
    the non-finite numbers have become the strings of the proto3 JSON mapping.  No non-finite
    number reaches the format, and a value without any is written as without the wrapper. *)
Theorem only_non_finite_change {S C O E : Type} `{!Serializer S C O E} (json : S) v :
  to_vec json v = serialize json (replace v) /\ all_finite (replace v) = true /\
  (all_finite v = true -> to_vec json v = serialize json v).
Proof.
  unfold to_vec. rewrite (proj1 serialize_replace). split_and!; [done|apply replace_finite|].
  intros Hf. by rewrite (proj1 replace_id).
Qed.

(** ** A format to evaluate examples with: text, with numbers as marks *)

Definition sample_scalar (x : scalar) : string :=
  match x with
  | SStr s => ("'" +:+ s +:+ "'")%string
  | SF64 (S754_nan | S754_infinity _) => "null"
  | SF64 _ => "1.0"
  | _ => "?"
  end.

#[export] Instance sample_json : Serializer unit string string unit := {|
  serialize_scalar _ x := Ok (sample_scalar x);
  begin _ _ := Ok "{"%string;
  lend _ _ := tt;
  take_back c at_ o :=
    Ok (c +:+ (match at_ with Field key => key +:+ ":" | _ => "" end) +:+ o +:+ ",")%string;
  skip_field c _ := Ok c;
  finish c := Ok (c +:+ "}")%string;
  is_human_readable _ := true;
|}.

(** A number below an option inside a sequence, and one that is finite. *)
Definition sample_value : value :=
  Compound (Struct "P" 2)
    (CCons (Field "xs")
       (Compound (Seq (Some 1%nat))
          (CCons Element (Compound Some_ (CCons Inner (Scalar (SF64 S754_nan)) CNil)) CNil))
       (CCons (Field "y") (Scalar (SF64 f64_max_value)) CNil)).

Lemma only_non_finite_change_witness :
  serialize tt sample_value = Ok "{xs:{{null,},},y:1.0,}"%string /\
  to_vec tt sample_value = Ok "{xs:{{'NaN',},},y:1.0,}"%string.
Proof.
  split; [reflexivity|]. rewrite (proj1 (only_non_finite_change tt sample_value)). reflexivity.
Defined.
