(* ===== verification/Diagnostics.v ===== *)
(** * The writer of diagnostics ([src/src/diagnostics.rs])

    The program's own messages go through a bounded queue to a thread that writes them to
    stderr; callers never wait, what does not fit is dropped, counted and reported later.  The
    step relation interleaves the callers with the thread. *)

From stdpp Require Import pretty.
From Stdlib Require Import Strings.Byte.
From S2P Require Import Prelude.

Local Open Scope Z_scope.

Definition QUEUE_CAPACITY : nat := 1024.
Definition FLUSH_TIMEOUT : Z := secs 1.

(** ** Writing to a stream that can fail *)

(** What a [write] call does: it takes up to so many bytes, is interrupted, or fails. *)
Inductive write_event := Accept (n : nat) | Interrupt | Fault.

(** What has been written, and what the next calls will do; at the end they take all. *)
Record stream := mkStream { text : list byte; script : list write_event }.

Inductive write_result := Wrote (n : nat) | Interrupted | WriteError.

Definition os_write (out : stream) (buf : list byte) : stream * write_result :=
  match script out with
  | [] => (mkStream (text out ++ buf) [], Wrote (length buf))
  | Accept n :: s =>
      (mkStream (text out ++ take n buf) s, Wrote (length (take n buf)))
  | Interrupt :: s => (mkStream (text out) s, Interrupted)
  | Fault :: s => (mkStream (text out) s, WriteError)
  end.

(** [write_counting]; every call consumes an event of the script or writes the rest. *)
Fixpoint write_counting_fuel (fuel : nat) (out : stream) (buf : list byte) (written : nat)
    : stream * result unit nat :=
  if (written <? length buf)%nat then
    match fuel with
    | O => (out, Err written)
    | S fuel =>
        match os_write out (drop written buf) with
        | (out, Wrote O) => (out, Err written)
        | (out, Wrote n) => write_counting_fuel fuel out buf (written + n)
        | (out, Interrupted) => write_counting_fuel fuel out buf written
        | (out, WriteError) => (out, Err written)
        end
    end
  else (out, Ok tt).

Definition write_counting (out : stream) (buf : list byte) : stream * result unit nat :=
  write_counting_fuel (S (length (script out))) out buf 0.

(** The line, and whether the stream is in the middle of one before and after. *)
Definition write_line (out : stream) (line : list byte) (torn : bool) : stream * bool * bool :=
  let write out :=
    match write_counting out line with
    | (out, Ok _) => (out, false, true)
    | (out, Err written) => (out, (0 <? written)%nat, false)
    end in
  if torn then
    match write_counting out [x0a] with
    | (out, Err _) => (out, true, false)
    | (out, Ok _) => write out
    end
  else write out.

Definition dropped_note (now : string) (lost : Z) : list byte :=
  String.list_byte_of_string
    (now +:+ "  WARN " +:+ pretty lost +:+
     " diagnostic log line(s) were dropped while stderr was not writable or not keeping up / stderr に書けない・追いつかない間に、診断ログを " +:+
     pretty lost +:+ " 行捨てました" +:+ String (Ascii.ascii_of_nat 10) "").

(** ** Queue and thread *)

Inductive Message := Line (line : list byte) | Flush (done : nat).

(** Where the thread is: waiting, holding a line and the count it took, or about to put back
    what could not be written or reported. *)
Inductive phase := Idle | Took (lost : Z) (line : list byte) | Adding (n : Z).

(** What was written whole. *)
Inductive entry := Shown (line : list byte) | Note (lost : Z) (note : list byte).

(** [pending] counts the callers between a refused [try_send] and the counter; [offered],
    [accepted], [handled] and [shown] are histories. *)
Record system := mkSystem {
  queue : list Message;
  dropped : Z;
  out : stream;
  torn : bool;
  thread : phase;
  pending : Z;
  offered : Z;
  accepted : list Message;
  handled : list Message;
  shown : list entry;
}.

Definition started (script : list write_event) : system :=
  mkSystem [] 0 (mkStream [] script) false Idle 0 0 [] [] [].

(** [SyncSender::try_send]. *)
Definition try_send (x : system) (m : Message) : option (list Message) :=
  if (length (queue x) <? QUEUE_CAPACITY)%nat then Some (queue x ++ [m]) else None.

(** What the thread does with a line it took: the note of what was lost, then the line. *)
Definition run_line (now : string) (x : system) (lost : Z) (line : list byte) : system :=
  let put out torn thread shown :=
    mkSystem (queue x) (dropped x) out torn thread (pending x) (offered x) (accepted x)
      (handled x ++ [Line line]) shown in
  let write out torn shown :=
    match write_line out line torn with
    | (out, torn, true) => put out torn Idle (shown ++ [Shown line])
    | (out, torn, false) => put out torn (Adding 1) shown
    end in
  if 0 <? lost then
    let note := dropped_note now lost in
    match write_line (out x) note (torn x) with
    | (out, torn, false) => put out torn (Adding (sat_add lost 1)) (shown x)
    | (out, torn, true) => write out torn (shown x ++ [Note lost note])
    end
  else write (out x) (torn x) (shown x).

(** Text the program writes ends its line. *)
Definition is_line (l : list byte) : Prop := exists l', l = l' ++ [x0a].

Inductive step : system -> system -> Prop :=
(** [DiagnosticWriter::write]; tracing hands over whole lines. *)
| step_write x line q :
    is_line line -> try_send x (Line line) = Some q ->
    step x (mkSystem q (dropped x) (out x) (torn x) (thread x) (pending x) (offered x + 1)
      (accepted x ++ [Line line]) (handled x) (shown x))
| step_refuse x line :
    try_send x (Line line) = None ->
    step x (mkSystem (queue x) (dropped x) (out x) (torn x) (thread x) (pending x + 1)
      (offered x + 1) (accepted x) (handled x) (shown x))
| step_count x :
    0 < pending x ->
    step x (mkSystem (queue x) (wrap_add (dropped x) 1) (out x) (torn x) (thread x)
      (pending x - 1) (offered x) (accepted x) (handled x) (shown x))
| step_flush x done q :
    try_send x (Flush done) = Some q ->
    step x (mkSystem q (dropped x) (out x) (torn x) (thread x) (pending x) (offered x)
      (accepted x ++ [Flush done]) (handled x) (shown x))
(** [run]: [recv] and [swap]. *)
| step_take x line q :
    thread x = Idle -> queue x = Line line :: q ->
    step x (mkSystem q 0 (out x) (torn x) (Took (dropped x) line) (pending x) (offered x)
      (accepted x) (handled x) (shown x))
| step_run x now lost line :
    thread x = Took lost line -> step x (run_line now x lost line)
| step_add x n :
    thread x = Adding n ->
    step x (mkSystem (queue x) (wrap_add (dropped x) n) (out x) (torn x) Idle (pending x)
      (offered x) (accepted x) (handled x) (shown x))
| step_done x done q :
    thread x = Idle -> queue x = Flush done :: q ->
    step x (mkSystem q (dropped x) (out x) (torn x) Idle (pending x) (offered x)
      (accepted x) (handled x ++ [Flush done]) (shown x)).

Definition reachable (script : list write_event) : system -> Prop := rtc step (started script).

(** ** Flushing *)

(** What [try_send] of the flush comes to. *)
Inductive sent := Sent | Full | Disconnected.

Definition FLUSH_POLL : Z := millis 5.

(** [flush_until]: an attempt sees an outcome and the clock after it; [reply] is when the
    thread answers, if it does.  The number of attempts is returned too. *)
Fixpoint flush_until (attempts : list (sent * Z)) (reply : option Z) (deadline : Z) (n : nat)
    : option (bool * nat) :=
  match attempts with
  | [] => None
  | (Sent, now) :: _ =>
      Some (match reply with Some t => t <=? Z.max deadline now | None => false end, S n)
  | (Disconnected, _) :: _ => Some (false, S n)
  | (Full, now) :: attempts =>
      if deadline <=? now then Some (false, S n) else flush_until attempts reply deadline (S n)
  end.

(** Between two attempts the caller sleeps. *)
Fixpoint paced (clock : Z) (attempts : list (sent * Z)) : Prop :=
  match attempts with
  | [] => True
  | (_, now) :: attempts => clock <= now /\ paced (now + FLUSH_POLL) attempts
  end.

(** ** Specification *)

Definition lines_of (ms : list Message) : Z :=
  Z.of_nat (length (List.filter (fun m => match m with Line _ => true | Flush _ => false end) ms)).

Definition entry_weight (e : entry) : Z := match e with Shown _ => 1 | Note lost _ => lost end.
Definition entry_text (e : entry) : list byte := match e with Shown l => l | Note _ l => l end.

(** The lines that were shown or reported as lost. *)
Definition told (es : list entry) : Z := foldr (fun e n => entry_weight e + n) 0 es.

Definition in_thread (p : phase) : Z :=
  match p with Idle => 0 | Took lost _ => lost + 1 | Adding n => n end.
Definition thread_line (p : phase) : list Message :=
  match p with Took _ line => [Line line] | _ => [] end.

(** The output as pieces that each end a line: whole lines, and what is left of torn ones. *)
Inductive piece := Whole (l : list byte) | Fragment (l : list byte).
Definition piece_text (p : piece) : list byte :=
  match p with Whole l => l | Fragment l => l ++ [x0a] end.
Definition wholes (ps : list piece) : list (list byte) :=
  omap (fun p => match p with Whole l => Some l | Fragment _ => None end) ps.

Definition framed (output : list byte) (torn : bool) (entries : list (list byte)) : Prop :=
  exists ps tail, output = concat (map piece_text ps) ++ tail /\ wholes ps = entries /\
    Forall is_line entries /\ (torn = false <-> tail = []).

Definition shown_lines (es : list entry) : list (list byte) :=
  omap (fun e => match e with Shown l => Some l | Note _ _ => None end) es.
Definition message_lines (ms : list Message) : list (list byte) :=
  omap (fun m => match m with Line l => Some l | Flush _ => None end) ms.

Record SystemInv (x : system) : Prop := {
  inv_account : offered x < word ->
    offered x = lines_of (queue x) + in_thread (thread x) + told (shown x) + dropped x + pending x;
  inv_range : offered x < word ->
    0 <= dropped x /\ Z.of_nat (length (thread_line (thread x))) <= in_thread (thread x) /\
    0 <= told (shown x);
  inv_pending : 0 <= pending x;
  inv_order : accepted x = handled x ++ thread_line (thread x) ++ queue x;
  inv_bounded : (length (queue x) <= QUEUE_CAPACITY)%nat;
  inv_lines : Forall (fun m => match m with Line l => is_line l | Flush _ => True end)
    (thread_line (thread x) ++ queue x);
  inv_framed : framed (text (out x)) (torn x) (map entry_text (shown x));
  inv_shown : shown_lines (shown x) `sublist_of` message_lines (handled x);
}.

(** * Lemmas *)

Lemma os_write_spec out buf :
  match os_write out buf with
  | (out', Wrote n) => (n <= length buf)%nat /\ text out' = text out ++ take n buf
  | (out', _) => text out' = text out
  end.
Proof.
  unfold os_write. destruct (script out) as [|[n| |] s]; simpl; try done.
  - by rewrite take_ge.
  - rewrite length_take. split; [lia|]. f_equal. destruct (decide (n <= length buf)%nat); [by rewrite Nat.min_l|]. rewrite Nat.min_r, !take_ge; lia || done.
Qed.

Lemma write_counting_fuel_spec fuel out buf w :
  (w <= length buf)%nat ->
  match write_counting_fuel fuel out buf w with
  | (out', Ok _) => text out' = text out ++ drop w buf
  | (out', Err n) =>
      (w <= n < length buf)%nat /\ text out' = text out ++ take (n - w) (drop w buf)
  end.
Proof.
  revert out w. induction fuel as [|fuel IH]; intros out w Hw; simpl;
    (destruct (Nat.ltb_spec w (length buf)) as [Hlt|Hge];
     [|rewrite drop_ge by lia; by rewrite app_nil_r]).
  { split; [lia|]. by rewrite Nat.sub_diag, app_nil_r. }
  pose proof (os_write_spec out (drop w buf)) as Ho.
  destruct (os_write out (drop w buf)) as [o [n| |]].
  - destruct Ho as [Hn Ho]. rewrite length_drop in Hn. destruct n as [|n].
    { split; [lia|]. rewrite Nat.sub_diag. by rewrite Ho. }
    specialize (IH o (w + S n)%nat ltac:(lia)).
    destruct (write_counting_fuel fuel o buf (w + S n)) as [o' [[]|m]].
    + rewrite IH, Ho, <-app_assoc. f_equal. rewrite <-drop_drop. by rewrite take_drop.
    + destruct IH as [Hm IH]. split; [lia|]. rewrite IH, Ho, <-app_assoc. f_equal.
      rewrite <-drop_drop. replace (m - w)%nat with (S n + (m - (w + S n)))%nat by lia.
      by rewrite <-take_take_drop.
  - specialize (IH o w Hw). destruct (write_counting_fuel fuel o buf w) as [o' [[]|m]];
      by rewrite <-Ho.
  - split; [lia|]. by rewrite Nat.sub_diag, app_nil_r.
Qed.

Lemma write_counting_spec out buf :
  match write_counting out buf with
  | (out', Ok _) => text out' = text out ++ buf
  | (out', Err n) => (n < length buf)%nat /\ text out' = text out ++ take n buf
  end.
Proof.
  pose proof (write_counting_fuel_spec (S (length (script out))) out buf 0 ltac:(lia)) as Hs.
  unfold write_counting. destruct (write_counting_fuel _ out buf 0) as [o [[]|n]]; [done|].
  rewrite Nat.sub_0_r in Hs. by destruct Hs as [[_ ?] ?].
Qed.

Lemma write_counting_fuel_S fuel out buf w :
  write_counting_fuel (S fuel) out buf w =
    if (w <? length buf)%nat then
      match os_write out (drop w buf) with
      | (out, Wrote O) => (out, Err w)
      | (out, Wrote n) => write_counting_fuel fuel out buf (w + n)
      | (out, Interrupted) => write_counting_fuel fuel out buf w
      | (out, WriteError) => (out, Err w)
      end
    else (out, Ok tt).
Proof. reflexivity. Qed.

(** The script is all the fuel a write needs: more changes nothing. *)
Lemma write_counting_fuel_more n out buf w :
  (w <= length buf)%nat ->
  write_counting_fuel (S (length (script out)) + n) out buf w =
  write_counting_fuel (S (length (script out))) out buf w.
Proof.
  remember (script out) as s eqn:Es. revert out w Es.
  induction s as [|e s IH]; intros out w Es Hw;
    change (S ?k + n)%nat with (S (k + n)); rewrite !(write_counting_fuel_S (length _ + n)),
      !(write_counting_fuel_S (length _));
    (destruct (Nat.ltb_spec w (length buf)) as [Hlt|]; [|done]); unfold os_write; rewrite <-Es.
  - destruct (length (drop w buf)) as [|k] eqn:El; [done|]. rewrite length_drop in El.
    assert (w + S k = length buf)%nat as -> by lia.
    by destruct n; simpl; rewrite ?Nat.ltb_irrefl.
  - destruct e as [k| |]; [|by apply IH|done].
    destruct (length (take k (drop w buf))) as [|m] eqn:El; [done|]. apply IH; [done|].
    rewrite length_take, length_drop in El. lia.
Qed.

Lemma framed_newline output es :
  framed output true es -> framed (output ++ [x0a]) false es.
Proof.
  intros (ps & tail & -> & Hw & Hl & Ht).
  exists (ps ++ [Fragment tail]), []. split_and!; try done.
  - rewrite map_app, concat_app, !app_nil_r, <-app_assoc. simpl. by rewrite app_nil_r.
  - unfold wholes in *. rewrite omap_app, Hw. simpl. by rewrite app_nil_r.
Qed.

Lemma framed_line output es line :
  is_line line -> framed output false es -> framed (output ++ line) false (es ++ [line]).
Proof.
  intros Hline (ps & tail & -> & Hw & Hl & Ht).
  rewrite (proj1 Ht eq_refl), app_nil_r. exists (ps ++ [Whole line]), []. split_and!.
  - rewrite map_app, concat_app, app_nil_r. simpl. by rewrite app_nil_r.
  - unfold wholes in *. by rewrite omap_app, Hw.
  - by apply Forall_app; split; [|constructor].
  - done.
Qed.

Lemma framed_torn output es line n :
  (n < length line)%nat -> framed output false es ->
  framed (output ++ take n line) (0 <? n)%nat es.
Proof.
  intros Hn (ps & tail & -> & Hw & Hl & Ht). rewrite (proj1 Ht eq_refl), app_nil_r.
  exists ps, (take n line). split_and!; try done.
  destruct n as [|n]; [done|]. destruct line; [simpl in Hn; lia|]. by split.
Qed.

Lemma write_line_framed o line t es :
  is_line line -> framed (text o) t es ->
  let '(o', t', ok) := write_line o line t in
  framed (text o') t' (if ok : bool then es ++ [line] else es).
Proof.
  intros Hline Hf.
  assert (forall o, framed (text o) false es ->
    let '(o', t', ok) :=
      match write_counting o line with
      | (o', Ok _) => (o', false, true)
      | (o', Err n) => (o', (0 <? n)%nat, false)
      end in
    framed (text o') t' (if ok : bool then es ++ [line] else es)) as Hwrite.
  { clear o Hf. intros o Hf. pose proof (write_counting_spec o line) as Hw.
    destruct (write_counting o line) as [o' [[]|n]].
    - rewrite Hw. by apply framed_line.
    - destruct Hw as [Hn ->]. by apply framed_torn. }
  unfold write_line. destruct t; [|by apply Hwrite].
  pose proof (write_counting_spec o [x0a]) as Hw.
  destruct (write_counting o [x0a]) as [o' [[]|n]].
  - apply Hwrite. rewrite Hw. by apply framed_newline.
  - destruct Hw as [Hn ->]. simpl in Hn. assert (n = 0%nat) as -> by lia. by rewrite app_nil_r.
Qed.

Lemma list_byte_app a b :
  String.list_byte_of_string (a +:+ b)%string =
  String.list_byte_of_string a ++ String.list_byte_of_string b.
Proof.
  unfold String.list_byte_of_string. induction a as [|c a IH]; [done|].
  rewrite str_app_cons. simpl. by rewrite IH.
Qed.

Lemma dropped_note_line now lost : is_line (dropped_note now lost).
Proof.
  unfold is_line, dropped_note. rewrite !list_byte_app, !app_assoc. by eexists.
Qed.

Lemma told_snoc es e : told (es ++ [e]) = told es + entry_weight e.
Proof. induction es as [|f es IH]; simpl; [lia|]. unfold told in *. simpl in *. rewrite IH. lia. Qed.

Lemma lines_of_app a b : lines_of (a ++ b) = lines_of a + lines_of b.
Proof. unfold lines_of. rewrite List.filter_app, length_app. lia. Qed.

Lemma lines_of_nonneg q : 0 <= lines_of q.
Proof. unfold lines_of. lia. Qed.

Lemma try_send_some x m q :
  try_send x m = Some q -> q = queue x ++ [m] /\ (length q <= QUEUE_CAPACITY)%nat.
Proof.
  unfold try_send. destruct (Nat.ltb_spec (length (queue x)) QUEUE_CAPACITY); [|done].
  intros [= <-]. split; [done|]. rewrite length_app. simpl. lia.
Qed.

(** What a run of the thread does, whichever of its writes fail. *)
Lemma run_line_spec now x lost line :
  is_line line -> framed (text (out x)) (torn x) (map entry_text (shown x)) ->
  let y := run_line now x lost line in
  queue y = queue x /\ dropped y = dropped x /\ pending y = pending x /\ offered y = offered x /\
  accepted y = accepted x /\ handled y = handled x ++ [Line line] /\ thread_line (thread y) = [] /\
  framed (text (out y)) (torn y) (map entry_text (shown y)) /\
  shown_lines (shown y) `sublist_of` shown_lines (shown x) ++ [line] /\
  (0 <= lost < u64_max -> 0 <= in_thread (thread y) /\ 0 <= told (shown y) - told (shown x) /\
     in_thread (thread y) + told (shown y) = lost + 1 + told (shown x)).
Proof.
  intros Hline Hf.
  assert (forall es, shown_lines es `sublist_of` shown_lines es ++ [line] /\
    shown_lines (es ++ [Shown line]) `sublist_of` shown_lines es ++ [line] /\
    shown_lines (es ++ [Note lost (dropped_note now lost)]) = shown_lines es) as Hsub.
  { intros es. unfold shown_lines. rewrite !omap_app. simpl. rewrite app_nil_r.
    split_and!; [by apply sublist_inserts_r|done|done]. }
  destruct (Hsub (shown x)) as (Hs1 & Hs2 & Hs3).
  destruct (Hsub (shown x ++ [Note lost (dropped_note now lost)])) as (Hs4 & Hs5 & _).
  rewrite Hs3 in Hs4, Hs5. unfold run_line.
  assert (forall o t es, framed (text o) t (map entry_text es) ->
    let '(o', t', ok) := write_line o line t in
    framed (text o') t' (map entry_text (if ok : bool then es ++ [Shown line] else es))) as Hw.
  { intros o t es He. pose proof (write_line_framed o line t _ Hline He) as Hl.
    destruct (write_line o line t) as [[o' t'] []]; [by rewrite map_app|done]. }
  destruct (Z.ltb_spec 0 lost).
  - pose proof (write_line_framed (out x) (dropped_note now lost) (torn x) _ (dropped_note_line _ _) Hf)
      as Hn.
    destruct (write_line (out x) (dropped_note now lost) (torn x)) as [[o t] []]; cycle 1.
    { simpl. split_and!; try done; intros Hlost. unfold sat_add. lia. }
    specialize (Hw o t (shown x ++ [Note lost (dropped_note now lost)])).
    rewrite map_app in Hw. specialize (Hw Hn).
    destruct (write_line o line t) as [[o' t'] []]; simpl; split_and!; try done;
      try (rewrite Hs3; exact Hs1); rewrite ?told_snoc; simpl; lia.
  - specialize (Hw (out x) (torn x) (shown x) Hf).
    destruct (write_line (out x) line (torn x)) as [[o' t'] []]; simpl; split_and!; try done;
      try first [exact Hs1|exact Hs2|exact Hs4|exact Hs5];
      rewrite ?told_snoc; simpl; lia.
Qed.

Lemma started_system_inv script : SystemInv (started script).
Proof.
  split; simpl; try done; try lia.
  exists [], []. by split_and!.
Qed.

Lemma diagnostics_offered x x' : step x x' -> offered x <= offered x'.
Proof.
  intros Hs. destruct Hs as [| | | | |x now lost line E| |]; simpl; try lia.
  unfold run_line. repeat case_match; simpl; lia.
Qed.

Lemma diagnostics_step_inv x x' : SystemInv x -> step x x' -> SystemInv x'.
Proof.
  intros [Ha Hr Hp Ho Hb Hl Hf Hsh] Hs.
  destruct Hs as [x line q Hline Eq|x line Eq|x Hpos|x done_ q Eq|x line q Et Eq|x now lost line Et
    |x n Et|x done_ q Et Eq].
  - apply try_send_some in Eq as [-> Hq]. split; simpl in *; try done.
    + intros Hw. rewrite lines_of_app. change (lines_of [Line line]) with 1. lia.
    + intros Hw. apply Hr. lia.
    + by rewrite Ho, !app_assoc.
    + rewrite app_assoc. apply Forall_app. split; [done|by constructor].
  - split; simpl in *; try done; try lia.
  - split; simpl in *; try done; try lia.
    + intros Hw. specialize (Ha Hw). specialize (Hr Hw). pose proof (lines_of_nonneg (queue x)).
      unfold wrap_add. rewrite wrap_small; lia.
    + intros Hw. split; [|by apply Hr]. apply Z.mod_pos_bound. done.
  - apply try_send_some in Eq as [-> Hq]. split; simpl in *; try done.
    + intros Hw. rewrite lines_of_app. change (lines_of [Flush done_]) with 0. lia.
    + by rewrite Ho, !app_assoc.
    + rewrite app_assoc. apply Forall_app. split; [done|by constructor].
  - rewrite Et, Eq in *. simpl in *. split; simpl; try done; try lia.
    intros Hw. rewrite (Ha Hw). change (Line line :: q) with ([Line line] ++ q).
    rewrite lines_of_app. change (lines_of [Line line]) with 1. lia.
  - rewrite Et in *. simpl in *. apply Forall_cons in Hl as [Hline Hl].
    destruct (run_line_spec now x lost line Hline Hf) as (E1 & E2 & E3 & E4 & E5 & E6 & E7 & E8 & E10 & E9).
    split; rewrite ?E1, ?E2, ?E3, ?E4, ?E5, ?E6, ?E7; try done.
    + intros Hw. specialize (Ha Hw). specialize (Hr Hw). pose proof (lines_of_nonneg (queue x)).
      unfold word, u64_max in *. lia.
    + intros Hw. specialize (Ha Hw). specialize (Hr Hw). pose proof (lines_of_nonneg (queue x)).
      unfold word, u64_max in *. simpl. lia.
    + by rewrite Ho, <-app_assoc.
    + etrans; [exact E10|]. unfold message_lines. rewrite omap_app. by apply sublist_app.
  - rewrite Et in *. simpl in *. split; simpl; try done.
    + intros Hw. specialize (Ha Hw). specialize (Hr Hw). pose proof (lines_of_nonneg (queue x)).
      unfold wrap_add. rewrite wrap_small; lia.
    + intros Hw. split; [|by split; [|apply Hr]]. apply Z.mod_pos_bound. done.
  - rewrite Et, Eq in *. simpl in *. split; simpl; try done; try lia.
    + by rewrite Ho, <-app_assoc.
    + by apply Forall_cons in Hl as [_ Hl].
    + unfold message_lines. rewrite omap_app. simpl. by rewrite app_nil_r.
Qed.

Lemma diagnostics_reachable_inv script x : reachable script x -> SystemInv x.
Proof.
  intros Hr. unfold reachable in Hr. pose proof (started_system_inv script) as Hs.
  induction Hr as [|x y z Hxy _ IH]; [done|]. by apply IH, (diagnostics_step_inv x).
Qed.

Lemma flush_until_ends attempts reply deadline n : forall clock,
  paced clock attempts -> deadline <= clock + FLUSH_POLL * (Z.of_nat (length attempts) - 1) ->
  attempts <> [] ->
  exists b k, flush_until attempts reply deadline n = Some (b, (n + k)%nat) /\ (0 < k)%nat /\
    (k = 1%nat \/ clock + FLUSH_POLL * (Z.of_nat k - 2) < deadline).
Proof.
  revert n. induction attempts as [|[o now] attempts IH]; intros n clock Hp Hd Hne; [done|].
  destruct Hp as [Hnow Hp]. simpl.
  assert (forall b : bool, exists (b' : bool) k, Some (b, S n) = Some (b', (n + k)%nat) /\ (0 < k)%nat /\
    (k = 1%nat \/ clock + FLUSH_POLL * (Z.of_nat k - 2) < deadline)) as Hone.
  { intros b. exists b, 1%nat. split_and!; [by rewrite Nat.add_1_r|lia|by left]. }
  destruct o; [apply Hone| |apply Hone].
  destruct (Z.leb_spec deadline now) as [|Hlt]; [apply Hone|].
  unfold FLUSH_POLL, millis in *. simpl in Hd.
  destruct attempts as [|a attempts]; [simpl in Hd; lia|].
  destruct (IH (S n) _ Hp) as (b & k & E & Hk & Hb); [simpl in *; lia|done|].
  exists b, (S k). rewrite E. split_and!; [f_equal; f_equal; lia|lia|]. right. lia.
Qed.

(** * Properties *)

(** C22. No message is lost without being counted: as long as fewer than 2^64 were offered,
    they are those waiting in the bounded queue, in the thread's hands, shown, reported as
    dropped, or still to be reported; and what was accepted is handled in order, so that when
    a flush is answered every line accepted before it was shown or counted. *)
Theorem every_diagnostic_line_accounted script x :
  reachable script x -> offered x < word ->
  offered x = lines_of (queue x) + in_thread (thread x) + told (shown x) + dropped x + pending x /\
  accepted x = handled x ++ thread_line (thread x) ++ queue x /\
  (length (queue x) <= QUEUE_CAPACITY)%nat /\
  (queue x = [] -> thread x = Idle -> pending x = 0 -> offered x = told (shown x) + dropped x).
Proof.
  intros Hr Hw. destruct (diagnostics_reachable_inv script x Hr) as [Ha Hn Hp Ho Hb _ _ _].
  specialize (Ha Hw). split_and!; [done..|]. intros Eq Et Ep. rewrite Eq, Et, Ep in Ha.
  unfold lines_of in Ha. simpl in Ha. lia.
Qed.

(** Every line shown stands on a line of its own, whatever the stream does: the output is a
    sequence of pieces that each end a line, the whole ones are exactly the lines and notes
    shown, lines in the order they were accepted and none twice, and only a write that failed
    midway leaves a fragment, which the next line never continues. *)
Theorem diagnostic_lines_are_whole script x :
  reachable script x ->
  framed (text (out x)) (torn x) (map entry_text (shown x)) /\
  shown_lines (shown x) `sublist_of` message_lines (accepted x).
Proof.
  intros Hr. destruct (diagnostics_reachable_inv script x Hr) as [_ _ _ Ho _ _ Hf Hs].
  split; [done|]. rewrite Ho. unfold message_lines. rewrite omap_app.
  by apply sublist_inserts_r.
Qed.

(** Waiting for a flush ends whether or not anybody reads stderr: the attempts are bounded
    by the time to the deadline, and success means that the flush was accepted and answered
    in time. *)
Theorem flush_returns attempts reply deadline start :
  paced start attempts -> attempts <> [] ->
  deadline <= start + FLUSH_POLL * (Z.of_nat (length attempts) - 1) ->
  exists b n, flush_until attempts reply deadline 0 = Some (b, n) /\
    (n = 1%nat \/ start + FLUSH_POLL * (Z.of_nat n - 2) < deadline).
Proof.
  intros Hp Hne Hd.
  destruct (flush_until_ends attempts reply deadline 0 start Hp Hd Hne) as (b & k & E & _ & Hk).
  by exists b, k.
Qed.

(** ** A run to evaluate examples with *)

Definition line_a : list byte := [x61; x0a].
(** A full disk tears a line; what it tore is counted. *)
Lemma sample_diagnostics :
  exists x, reachable [Accept 1; Fault] x /\ offered x = 1 /\ dropped x = 1 /\ torn x = true /\
    text (out x) = [x61] /\ offered x < word.
Proof.
  eexists. split.
  { eapply rtc_l; [eapply (step_write _ line_a); [by eexists [x61]|reflexivity]|].
    eapply rtc_l; [eapply step_take; reflexivity|].
    eapply rtc_l; [eapply (step_run _ "now"); reflexivity|].
    eapply rtc_l; [eapply step_add; reflexivity|]. apply rtc_refl. }
  by split_and!.
Qed.

Lemma every_diagnostic_line_accounted_witness :
  exists x, reachable [Accept 1; Fault] x /\
    offered x = lines_of (queue x) + in_thread (thread x) + told (shown x) + dropped x + pending x.
Proof.
  destruct sample_diagnostics as (x & Hr & _ & _ & _ & _ & Hw). exists x. split; [exact Hr|].
  exact (proj1 (every_diagnostic_line_accounted _ x Hr Hw)).
Defined.

Lemma diagnostic_lines_are_whole_witness :
  exists x, reachable [Accept 1; Fault] x /\ framed (text (out x)) (torn x) (map entry_text (shown x)).
Proof.
  destruct sample_diagnostics as (x & Hr & _). exists x. split; [exact Hr|].
  exact (proj1 (diagnostic_lines_are_whole _ x Hr)).
Defined.

(** A queue that stays full until the deadline. *)
Lemma flush_returns_witness :
  exists b n, flush_until [(Full, 0); (Full, millis 6); (Full, millis 12)] None (millis 10) 0 = Some (b, n).
Proof.
  destruct (flush_returns [(Full, 0); (Full, millis 6); (Full, millis 12)] None (millis 10) 0
    ltac:(vm_compute; repeat split; discriminate) ltac:(discriminate)
    ltac:(vm_compute; discriminate)) as (b & n & E & _).
  exists b, n. exact E.
Defined.
