(* ===== verification/Format.v ===== *)
(** * Records and totals as text ([src/src/format.rs])

    One line per span, metric and log record, with indented lines for attributes and events,
    and the summary of the usage totals.  Colours are escape sequences around parts of a line. *)

From stdpp Require Import pretty.
From Stdlib Require Import Ascii.
From S2P Require Import Prelude Float64 FloatText Text Unicode Otlp Quote AggStats AggState AggBatch.

Local Open Scope Z_scope.

(** ** Colours *)

Definition esc (code : string) : string := String (ascii_of_nat 27) ("[" +:+ code +:+ "m").
Definition RESET : string := esc "0".
Definition DIM : string := esc "2".
Definition BOLD : string := esc "1".
Definition RED : string := esc "31".
Definition GREEN : string := esc "32".
Definition YELLOW : string := esc "33".
Definition BLUE : string := esc "34".
Definition MAGENTA : string := esc "35".
Definition CYAN : string := esc "36".

(** [Painter], with its flag. *)
Definition paint (color : bool) (code text : string) : string :=
  if color then code +:+ text +:+ RESET else text.
Definition dim (color : bool) (text : string) : string := paint color DIM text.
Definition bold (color : bool) (text : string) : string := paint color BOLD text.

Definition newline : string := String (ascii_of_nat 10) "".
Definition writeln (line : string) : string := line +:+ newline.

(** ** What other code says *)

Inductive SeverityNumber :=
| Unspecified | Trace | Trace2 | Trace3 | Trace4 | Debug | Debug2 | Debug3 | Debug4
| Info | Info2 | Info3 | Info4 | Warn | Warn2 | Warn3 | Warn4 | Error | Error2 | Error3 | Error4
| Fatal | Fatal2 | Fatal3 | Fatal4.

(** The calendar of [time], the enumeration of the generated code, and the case tables of
    Unicode. *)
Class Texts := {
  OffsetDateTime : Type;
  from_unix_timestamp : Z -> option OffsetDateTime;
  replace_nanosecond : OffsetDateTime -> Z -> option OffsetDateTime;
  format_date_time : OffsetDateTime -> option string;
  severity_try_from : Z -> option SeverityNumber;
  to_uppercase : string -> string;
}.

(** RFC 3339 is written in ASCII, and upper case keeps text well formed. *)
Class TextsLaws `{Texts} : Prop := {
  format_date_time_plain t s : format_date_time t = Some s -> plain s = true;
  to_uppercase_utf8 s : utf8 s -> utf8 (to_uppercase s);
}.

Section format.
Context `{Texts}.
Implicit Types color : bool.

(** ** Numbers and times *)

Definition format_unix_nanos (nanos : Z) : string :=
  if nanos =? 0 then "-"
  else
    let secs := nanos / 1000000000 in
    let sub := nanos mod 1000000000 in
    default (pretty nanos)
      (t ← from_unix_timestamp secs; t ← replace_nanosecond t sub; format_date_time t).

Definition format_duration_ns (ns : Z) : string :=
  let in_units unit := f64_div (f64_of_Z ns) (f64_of_Z unit) in
  if ns =? 0 then "0ns"
  else if ns <? 1000 then pretty ns +:+ "ns"
  else if ns <? 999995 then fixed 2 (in_units 1000) +:+ "µs"
  else if ns <? 999995000 then fixed 2 (in_units 1000000) +:+ "ms"
  else fixed 3 (in_units 1000000000) +:+ "s".

Definition format_cost (cost : f64) : string :=
  if f64_eq cost f64_zero then "$0"
  else if f64_lt cost (f64_of_decimal 1 (-2)) then "$" +:+ fixed 6 cost
  else "$" +:+ fixed 4 cost.

Definition format_number_point (dp : NumberDataPoint) : string :=
  let v :=
    match ndp_value dp with
    | Some (AsDouble d) => display_f64 d
    | Some (AsInt i) => pretty i
    | None => "?"
    end in
  match ndp_attributes dp with
  | [] => v
  | attrs => v +:+ " " +:+ format_attrs attrs
  end.

(** ** Severity *)

Definition severity_label (number : Z) (text : string) : string :=
  if negb (str_is_empty text) then to_uppercase text
  else match default Unspecified (severity_try_from number) with
       | Unspecified => "UNSPECIFIED"
       | Trace | Trace2 | Trace3 | Trace4 => "TRACE"
       | Debug | Debug2 | Debug3 | Debug4 => "DEBUG"
       | Info | Info2 | Info3 | Info4 => "INFO"
       | Warn | Warn2 | Warn3 | Warn4 => "WARN"
       | Error | Error2 | Error3 | Error4 => "ERROR"
       | Fatal | Fatal2 | Fatal3 | Fatal4 => "FATAL"
       end.

Definition paint_severity color (severity : string) : string :=
  let escaped := quote_for_pretty severity in
  if String.eqb severity "ERROR" || String.eqb severity "FATAL" then paint color RED escaped
  else if String.eqb severity "WARN" then paint color YELLOW escaped
  else if String.eqb severity "INFO" then paint color GREEN escaped
  else if String.eqb severity "DEBUG" then paint color BLUE escaped
  else if String.eqb severity "TRACE" then paint color MAGENTA escaped
  else escaped.

(** ** Common parts *)

(** [service_name] of this module: any value, and a name of its own when there is none. *)
Definition service_text (resource : option Resource) : string :=
  default "unknown"
    (r ← resource;
     kv ← List.find (fun kv => String.eqb (kv_key kv) "service.name") (resource_attributes r);
     option_map any_value_to_string (kv_value kv)).

Definition scope_text (scope : option Scope) : string := from_option scope_name "" scope.

Definition attrs_line color (attrs : list KeyValue) : string :=
  match attrs with
  | [] => ""
  | _ => writeln ("        " +:+ dim color "attrs:" +:+ " " +:+ format_attrs attrs)
  end.

(** ** Traces *)

Definition status_text (code : option Z) : string :=
  let code := default 0 code in
  if code =? 1 then "OK" else if code =? 2 then "ERROR" else "UNSET".

Definition paint_status color (status : string) : string :=
  if String.eqb status "OK" then paint color GREEN status
  else if String.eqb status "ERROR" then paint color RED status
  else dim color status.

Definition render_event color (ev : SpanEvent) : string :=
  writeln ("        " +:+ dim color ("event @" +:+ format_unix_nanos (ev_time_unix_nano ev)) +:+ " " +:+
    bold color (quote_for_pretty (ev_name ev)) +:+ " " +:+ format_attrs (ev_attributes ev)).

Definition render_span color (service scope : string) (span : Span) : string :=
  let dur_ns := sat_sub (span_end_time_unix_nano span) (span_start_time_unix_nano span) in
  writeln (paint color MAGENTA "[trace]" +:+ " " +:+
    dim color (format_unix_nanos (span_start_time_unix_nano span)) +:+
    " service=" +:+ bold color (quote_for_pretty service) +:+
    " scope=" +:+ quote_for_pretty scope +:+
    " span=" +:+ bold color (quote_for_pretty (span_name span)) +:+
    " dur=" +:+ format_duration_ns dur_ns +:+
    " status=" +:+ paint_status color (status_text (span_status_code span)) +:+
    " trace=" +:+ hex_id (span_trace_id span) +:+
    " span_id=" +:+ hex_id (span_id span)) +:+
  attrs_line color (span_attributes span) +:+
  cat (map (render_event color) (span_events span)).

Definition render_traces color (req : ExportTraceServiceRequest) : string :=
  cat (map (fun rs =>
    cat (map (fun ss =>
      cat (map (render_span color (service_text (rs_resource rs)) (scope_text (ss_scope ss)))
        (ss_spans ss)))
      (rs_scope_spans rs)))
    (resource_spans req)).

(** ** Metrics *)

Definition histogram_point (dp : HistogramDataPoint) : string :=
  "count=" +:+ pretty (hdp_count dp) +:+ " sum=" +:+ from_option display_f64 "" (hdp_sum dp).

Definition metric_summary (data : option MetricData) : string :=
  match data with
  | Some (Sum points _) => "sum=[" +:+ join (map format_number_point points) +:+ "]"
  | Some (Gauge points) => "gauge=[" +:+ join (map format_number_point points) +:+ "]"
  | Some (Histogram points _) => "hist=[" +:+ join (map histogram_point points) +:+ "]"
  | Some (ExponentialHistogram n) => "exp_hist=points=" +:+ pretty n
  | Some (Summary n) => "summary=points=" +:+ pretty n
  | None => "no_data"
  end.

Definition render_metric color (service scope : string) (m : Metric) : string :=
  let unit :=
    if str_is_empty (metric_unit m) then "" else " unit=" +:+ quote_for_pretty (metric_unit m) in
  let desc :=
    if str_is_empty (metric_description m) then ""
    else dim color ("(" +:+ quote_for_pretty (metric_description m) +:+ ")") in
  writeln (paint color CYAN "[metric]" +:+
    " service=" +:+ bold color (quote_for_pretty service) +:+
    " scope=" +:+ quote_for_pretty scope +:+
    " name=" +:+ bold color (quote_for_pretty (metric_name m)) +:+ unit +:+
    " " +:+ metric_summary (metric_data m) +:+ " " +:+ desc).

Definition render_metrics color (req : ExportMetricsServiceRequest) : string :=
  cat (map (fun rm =>
    cat (map (fun sm =>
      cat (map (render_metric color (service_text (rm_resource rm)) (scope_text (sm_scope sm)))
        (sm_metrics sm)))
      (rm_scope_metrics rm)))
    (resource_metrics req)).

(** ** Logs *)

Definition render_log color (service scope : string) (log : LogRecord) : string :=
  let severity := severity_label (log_severity_number log) (log_severity_text log) in
  writeln (paint color YELLOW "[log]" +:+ " " +:+
    dim color (format_unix_nanos (log_time_unix_nano log)) +:+
    " service=" +:+ bold color (quote_for_pretty service) +:+
    " scope=" +:+ quote_for_pretty scope +:+
    " severity=" +:+ paint_severity color severity +:+
    " body=" +:+ pretty_option (log_body log)) +:+
  attrs_line color (log_attributes log).

Definition render_logs color (req : ExportLogsServiceRequest) : string :=
  cat (map (fun rl =>
    cat (map (fun sl =>
      cat (map (render_log color (service_text (rl_resource rl)) (scope_text (sl_scope sl)))
        (sl_log_records sl)))
      (rl_scope_logs rl)))
    (resource_logs req)).

Definition render (record : batch) (color : bool) : string :=
  match record with
  | BTraces req => render_traces color req
  | BMetrics req => render_metrics color req
  | BLogs req => render_logs color req
  end.

(** ** Summary *)

Definition stats_text (s : ModelStats) (requests : string) : string :=
  " requests=" +:+ requests +:+
  " input=" +:+ pretty (input_tokens s) +:+
  " output=" +:+ pretty (output_tokens s) +:+
  " cache_read=" +:+ pretty (cache_read_tokens s) +:+
  " cache_create=" +:+ pretty (cache_creation_tokens s) +:+
  " reasoning=" +:+ pretty (reasoning_output_tokens s) +:+
  " cost=" +:+ format_cost (cost_usd s) +:+
  " duration=" +:+ format_duration_ns (sat_mul (duration_ms s) 1000000).

Definition render_bucket color (bucket : BucketStats) : string :=
  writeln ("        " +:+ dim color "breakdown" +:+
    " provider=" +:+ bold color (quote_for_pretty (bs_provider bucket)) +:+
    " model=" +:+ bold color (quote_for_pretty (bs_model bucket)) +:+
    " effort=" +:+ bold color (quote_for_pretty (bs_effort bucket)) +:+ ":" +:+
    stats_text (bs_stats bucket) (pretty (request_count (bs_stats bucket)))).

Definition render_agent color (since : string) (agent : string) (stats : AgentStats) : string :=
  writeln (paint color CYAN ("[stats:" +:+ quote_for_pretty agent +:+ "]") +:+
    stats_text (total stats) (bold color (pretty (request_count (total stats)))) +:+
    " since=" +:+ dim color since) +:+
  cat (map (fun e => render_bucket color e.2) (btree_entries str_le (buckets stats))).

Definition render_summary color (snapshot : UsageSnapshot) : string :=
  cat (map (fun e => render_agent color (snap_started_at snapshot) e.1 e.2)
    (btree_entries str_le (snap_agents snapshot))).
End format.

(** ** Specification *)

(** A terminal takes an escape sequence up to its last letter; [strip] leaves it out. *)
Fixpoint strip (inside : bool) (s : string) : string :=
  match s with
  | EmptyString => EmptyString
  | String c s =>
      if inside then strip (negb (Ascii.eqb c "m")) s
      else if Ascii.eqb c (ascii_of_nat 27) then strip true s
      else String c (strip false s)
  end.

(** A piece of a line: clean without colours, and the same text below them with colours. *)
Definition shows (f : bool -> string) : Prop :=
  clean (f false) /\ forall rest, strip false (f true +:+ rest) = f false +:+ strip false rest.

(** So many lines of such pieces. *)
Definition shows_lines (n : nat) (f : bool -> string) : Prop :=
  exists ls : list (bool -> string),
    length ls = n /\ Forall shows ls /\ forall color, f color = cat (map (fun l => writeln (l color)) ls).

Definition resource_ok (r : option Resource) : Prop :=
  from_option (fun r => Forall pair_ok (resource_attributes r)) True r.
Definition scope_ok (s : option Scope) : Prop := from_option (fun s => utf8 (scope_name s)) True s.

Definition event_ok (ev : SpanEvent) : Prop := utf8 (ev_name ev) /\ Forall pair_ok (ev_attributes ev).
Definition span_ok (s : Span) : Prop :=
  utf8 (span_name s) /\ bytes_ok (span_trace_id s) /\ bytes_ok (span_id s) /\
  Forall pair_ok (span_attributes s) /\ Forall event_ok (span_events s).
Definition point_ok (dp : NumberDataPoint) : Prop := Forall pair_ok (ndp_attributes dp).
Definition data_ok (d : MetricData) : Prop :=
  match d with Gauge ps | Sum ps _ => Forall point_ok ps | _ => True end.
Definition metric_ok (m : Metric) : Prop :=
  utf8 (metric_name m) /\ utf8 (metric_unit m) /\ utf8 (metric_description m) /\
  from_option data_ok True (metric_data m).
Definition log_ok (l : LogRecord) : Prop :=
  utf8 (log_severity_text l) /\ from_option any_ok True (log_body l) /\
  Forall pair_ok (log_attributes l).

(** The strings of a request are strings: what protobuf guarantees of them. *)
Definition record_ok (r : batch) : Prop :=
  match r with
  | BTraces req =>
      Forall (fun rs => resource_ok (rs_resource rs) /\
        Forall (fun ss => scope_ok (ss_scope ss) /\ Forall span_ok (ss_spans ss)) (rs_scope_spans rs))
        (resource_spans req)
  | BMetrics req =>
      Forall (fun rm => resource_ok (rm_resource rm) /\
        Forall (fun sm => scope_ok (sm_scope sm) /\ Forall metric_ok (sm_metrics sm)) (rm_scope_metrics rm))
        (resource_metrics req)
  | BLogs req =>
      Forall (fun rl => resource_ok (rl_resource rl) /\
        Forall (fun sl => scope_ok (sl_scope sl) /\ Forall log_ok (sl_log_records sl)) (rl_scope_logs rl))
        (resource_logs req)
  end.

(** The lines of a record: one, one for its attributes if it has any, one per event. *)
Definition attrs_lines (attrs : list KeyValue) : nat := match attrs with [] => 0 | _ => 1 end.
Definition span_lines (s : Span) : nat := 1 + attrs_lines (span_attributes s) + length (span_events s).
Definition log_lines (l : LogRecord) : nat := 1 + attrs_lines (log_attributes l).

Definition record_lines (r : batch) : nat :=
  match r with
  | BTraces req =>
      sum (map (fun rs => sum (map (fun ss => sum (map span_lines (ss_spans ss))) (rs_scope_spans rs)))
        (resource_spans req))
  | BMetrics req =>
      sum (map (fun rm => sum (map (fun sm => sum (map (fun _ => 1%nat) (sm_metrics sm)))
        (rm_scope_metrics rm))) (resource_metrics req))
  | BLogs req =>
      sum (map (fun rl => sum (map (fun sl => sum (map log_lines (sl_log_records sl)))
        (rl_scope_logs rl))) (resource_logs req))
  end.

(** * Lemmas *)

Lemma strip_clean s rest : clean s -> strip false (s +:+ rest) = s +:+ strip false rest.
Proof.
  intros (l & Hl & Hn & ->). induction l as [|c l IH]; simpl; [by rewrite !str_app_nil_l|].
  apply Forall_cons in Hl as [Hc Hl]. apply Forall_cons in Hn as [Hnc Hn].
  rewrite !str_app_assoc, <-(IH Hl Hn). clear IH.
  generalize (str_of l +:+ rest)%string. intros tail.
  assert (forall z, 0 <= z < 256 -> z <> 27 -> Ascii.eqb (byte_of z) (ascii_of_nat 27) = false) as Hb.
  { intros z Hz Hne. apply Ascii.eqb_neq. intros E. apply Hne. rewrite <-(code_byte_of z Hz), E. done. }
  assert (c <> 27) as H27 by (intros ->; destruct Hnc as [Hnc _]; apply Hnc; left; lia).
  assert (0 <= c < 1114112) as Hr by (destruct Hc; lia).
  assert (0 <= c mod 64 < 64 /\ 0 <= (c / 64) mod 64 < 64 /\ 0 <= (c / 4096) mod 64 < 64) as (M0 & M1 & M2)
    by (split_and!; apply Z.mod_pos_bound; lia).
  assert (0 <= c / 64 /\ 0 <= c / 4096 /\ 0 <= c / 262144) as (D0 & D1 & D2)
    by (split_and!; apply Z.div_pos; lia).
  unfold encode. destruct (Z.ltb_spec c 128).
  { rewrite str_app_cons, str_app_nil_l. simpl. rewrite Hb by lia. by rewrite str_app_cons, str_app_nil_l. }
  destruct (Z.ltb_spec c 2048).
  { assert (c / 64 < 32) by (apply Z.div_lt_upper_bound; lia).
    rewrite !str_app_cons, str_app_nil_l. simpl. by rewrite !Hb by lia. }
  destruct (Z.ltb_spec c 65536).
  { assert (c / 4096 < 16) by (apply Z.div_lt_upper_bound; lia).
    rewrite !str_app_cons, str_app_nil_l. simpl. by rewrite !Hb by lia. }
  assert (c / 262144 < 8) by (apply Z.div_lt_upper_bound; lia).
  rewrite !str_app_cons, str_app_nil_l. simpl. by rewrite !Hb by lia.
Qed.

Lemma strip_newline rest : strip false (newline +:+ rest) = (newline +:+ strip false rest)%string.
Proof. unfold newline. by rewrite !str_app_cons, !str_app_nil_l. Qed.

Lemma shows_const s : clean s -> shows (fun _ => s).
Proof. intros Hs. split; [done|]. intros rest. by apply strip_clean. Qed.

Lemma shows_app f g : shows f -> shows g -> shows (fun color => f color +:+ g color).
Proof.
  intros [Hf Hf'] [Hg Hg']. split; [by apply clean_app|]. intros rest.
  by rewrite str_app_assoc, Hf', Hg', str_app_assoc.
Qed.

(** The nine codes of the program. *)
Definition is_code (code : string) : bool :=
  bool_decide (code ∈ [RESET; DIM; BOLD; RED; GREEN; YELLOW; BLUE; MAGENTA; CYAN]).

Lemma strip_code code rest : is_code code = true -> strip false (code +:+ rest) = strip false rest.
Proof.
  unfold is_code. rewrite bool_decide_eq_true. rewrite !elem_of_cons, elem_of_nil.
  intros Hc. destruct_or! Hc; try done; subst code; unfold RESET, DIM, BOLD, RED, GREEN, YELLOW, BLUE,
    MAGENTA, CYAN, esc; rewrite ?str_app_cons, ?str_app_assoc, ?str_app_cons, ?str_app_nil_l; done.
Qed.

Lemma shows_paint code s : is_code code = true -> clean s -> shows (fun color => paint color code s).
Proof.
  intros Hcode Hs. split; [done|]. intros rest. simpl.
  rewrite !str_app_assoc, strip_code, strip_clean by done. by rewrite (strip_code RESET).
Qed.

Lemma shows_dim s : clean s -> shows (fun color => dim color s).
Proof. by apply shows_paint. Qed.
Lemma shows_bold s : clean s -> shows (fun color => bold color s).
Proof. by apply shows_paint. Qed.

Lemma cat_app a b : cat (a ++ b) = (cat a +:+ cat b)%string.
Proof. induction a as [|x a IH]; simpl; [by rewrite str_app_nil_l|]. by rewrite IH, str_app_assoc. Qed.

Lemma shows_lines_nil : shows_lines 0 (fun _ => "").
Proof. by exists []. Qed.

Lemma shows_lines_app n m f g :
  shows_lines n f -> shows_lines m g -> shows_lines (n + m) (fun color => f color +:+ g color).
Proof.
  intros (ls & <- & Hls & Ef) (ks & <- & Hks & Eg). exists (ls ++ ks).
  split_and!; [apply length_app|by apply Forall_app|]. intros color.
  by rewrite Ef, Eg, map_app, cat_app.
Qed.

Lemma shows_writeln f : shows f -> shows_lines 1 (fun color => writeln (f color)).
Proof.
  intros Hf. exists [f]. split_and!; [done|by constructor|]. intros color. simpl.
  generalize (writeln (f color)). intros s. induction s as [|a s IH]; [done|]. by rewrite str_app_cons, <-IH.
Qed.

Lemma shows_lines_map {A} (f : bool -> A -> string) (n : A -> nat) l :
  Forall (fun a => shows_lines (n a) (fun color => f color a)) l ->
  shows_lines (sum (map n l)) (fun color => cat (map (f color) l)).
Proof. induction 1; simpl; [apply shows_lines_nil|by apply shows_lines_app]. Qed.

Lemma shows_lines_spec n f :
  shows_lines n f ->
  (exists ls, length ls = n /\ Forall clean ls /\ f false = cat (map writeln ls)) /\
  strip false (f true) = f false.
Proof.
  intros (ls & <- & Hls & Ef). split.
  - exists (map (fun l => l false) ls). split_and!; [apply length_map| |].
    + apply Forall_fmap. eapply Forall_impl; [exact Hls|]. by intros l [? _].
    + rewrite Ef. f_equal. by rewrite map_map.
  - rewrite !Ef. clear Ef. induction Hls as [|l ls [_ Hl] Hls IH]; [done|]. simpl.
    unfold writeln in *. by rewrite !str_app_assoc, Hl, strip_newline, IH.
Qed.

Create HintDb clean.
#[export] Hint Resolve quote_clean hex_id_clean format_attrs_clean utf8_empty clean_nil clean_app
  join_clean : clean.
#[export] Hint Extern 3 (clean ?s) => (apply printable_clean; reflexivity) : clean.

Lemma sum_ones {A} (l : list A) : sum (map (fun _ => 1%nat) l) = length l.
Proof. induction l as [|a l IH]; simpl; [done|]. by rewrite IH. Qed.

Section format_lemmas.
Context `{TextsLaws}.

Lemma pretty_Z_clean (z : Z) : clean (pretty z).
Proof. apply plain_clean, pretty_Z_plain. Qed.

Lemma pretty_nat_clean (n : nat) : clean (pretty n).
Proof. apply plain_clean. unfold pretty, pretty_nat. apply pretty_N_plain. Qed.

Lemma fixed_clean p x : clean (fixed p x).
Proof. apply plain_clean, fixed_plain. Qed.

Lemma display_clean x : clean (display_f64 x).
Proof. apply plain_clean, display_f64_plain. Qed.

Hint Resolve pretty_Z_clean pretty_nat_clean fixed_clean display_clean : clean.

Lemma format_unix_nanos_clean n : clean (format_unix_nanos n).
Proof.
  unfold format_unix_nanos. destruct (n =? 0); [auto with clean|].
  destruct (from_unix_timestamp _) as [t|]; simpl; [|auto with clean].
  destruct (replace_nanosecond t _) as [t'|]; simpl; [|auto with clean].
  destruct (format_date_time t') as [s|] eqn:E; simpl; [|auto with clean].
  by eapply plain_clean, format_date_time_plain.
Qed.

(** The Greek letter of microseconds is no control character. *)
Lemma micro_clean : clean "µs".
Proof.
  exists [181; 115]. split_and!; [| |done].
  2: repeat (apply Forall_cons_2; [by apply needs_escape_harmless|]); constructor.
  apply Forall_cons_2; [left; lia|]. apply Forall_cons_2; [left; lia|done].
Qed.

Lemma format_duration_clean ns : clean (format_duration_ns ns).
Proof.
  unfold format_duration_ns. pose proof micro_clean.
  repeat match goal with |- clean (if ?b then _ else _) => destruct b end; auto with clean.
Qed.

Lemma format_cost_clean cost : clean (format_cost cost).
Proof.
  unfold format_cost.
  repeat match goal with |- clean (if ?b then _ else _) => destruct b end; auto with clean.
Qed.

Lemma severity_label_utf8 n t : utf8 t -> utf8 (severity_label n t).
Proof.
  intros Ht. unfold severity_label. destruct (negb _); [by apply to_uppercase_utf8|].
  apply clean_utf8. destruct (default _ _); auto with clean.
Qed.

Lemma service_text_utf8 r : resource_ok r -> utf8 (service_text r).
Proof.
  unfold service_text. destruct r as [r|]; simpl; [|intros _; by apply clean_utf8, printable_clean].
  intros Hr. destruct (List.find _ _) as [kv|] eqn:Ef; simpl; [|by apply clean_utf8, printable_clean].
  apply find_some in Ef as [Hin _]. rewrite Forall_forall in Hr.
  specialize (Hr kv (proj2 (list_elem_of_In _ _) Hin)).
  destruct kv as [k [v|]]; simpl; [|by apply clean_utf8, printable_clean].
  inversion Hr; subst. by apply value_to_string_utf8.
Qed.

Lemma scope_text_utf8 s : scope_ok s -> utf8 (scope_text s).
Proof. destruct s; simpl; [done|]. intros _. apply utf8_empty. Qed.

Hint Resolve format_unix_nanos_clean format_duration_clean format_cost_clean : clean.

Lemma shows_severity s : utf8 s -> shows (fun color => paint_severity color s).
Proof.
  intros Hs. unfold paint_severity.
  repeat match goal with |- shows (fun _ => if ?b then _ else _) => destruct b end;
    first [apply shows_paint; [done|]|apply shows_const]; auto with clean.
Qed.

Lemma shows_status c : shows (fun color => paint_status color (status_text c)).
Proof.
  unfold status_text, paint_status, dim.
  repeat match goal with |- context [if ?b then _ else _] => destruct b end;
    apply shows_paint; auto with clean.
Qed.

(** Pieces put together; what is left are the texts. *)
Ltac shows_line :=
  repeat match goal with
  | |- shows (fun _ => paint_severity _ _) => apply shows_severity
  | |- shows (fun _ => paint_status _ _) => apply shows_status
  | |- shows (fun _ => paint _ _ _) => apply shows_paint; [done|]
  | |- shows (fun _ => dim _ _) => apply shows_dim
  | |- shows (fun _ => bold _ _) => apply shows_bold
  | |- shows (fun _ => _ +:+ _) => apply shows_app
  | |- shows (fun _ => _) => apply shows_const
  end; auto 6 with clean.

Lemma attrs_line_shows attrs :
  Forall pair_ok attrs -> shows_lines (attrs_lines attrs) (fun color => attrs_line color attrs).
Proof.
  intros Ha. destruct attrs as [|kv attrs]; [apply shows_lines_nil|].
  apply shows_writeln. shows_line.
Qed.

Lemma event_shows ev : event_ok ev -> shows_lines 1 (fun color => render_event color ev).
Proof. intros [Hn Ha]. apply shows_writeln. shows_line. Qed.

Lemma span_shows service scope s :
  utf8 service -> utf8 scope -> span_ok s ->
  shows_lines (span_lines s) (fun color => render_span color service scope s).
Proof.
  intros Hs Hc (Hn & Ht & Hi & Ha & He). unfold span_lines, render_span.
  rewrite <-Nat.add_assoc. apply shows_lines_app; [apply shows_writeln; shows_line|].
  apply shows_lines_app; [by apply attrs_line_shows|].
  rewrite <-sum_ones.
  apply shows_lines_map. eapply Forall_impl; [exact He|]. apply event_shows.
Qed.

Lemma number_point_clean dp : point_ok dp -> clean (format_number_point dp).
Proof.
  intros Hp. unfold format_number_point.
  assert (clean match ndp_value dp with
                | Some (AsDouble d) => display_f64 d | Some (AsInt i) => pretty i | None => "?" end)
    by (destruct (ndp_value dp) as [[]|]; auto with clean).
  destruct (ndp_attributes dp) eqn:E; [done|]. rewrite <-E. auto with clean.
Qed.

Lemma metric_summary_clean d : from_option data_ok True d -> clean (metric_summary d).
Proof.
  assert (forall ps, Forall point_ok ps -> Forall clean (map format_number_point ps)) as Hps.
  { intros ps Hps. apply Forall_fmap. eapply Forall_impl; [exact Hps|]. apply number_point_clean. }
  assert (forall ps, Forall clean (map histogram_point ps)) as Hhist.
  { intros ps. apply Forall_fmap, Forall_forall. intros dp _. unfold histogram_point.
    simpl. destruct (hdp_sum dp); simpl; auto 6 with clean. }
  destruct d as [[ps|ps t|ps t|n|n]|]; simpl; intros Hd; auto 6 with clean;
    apply bracket_clean; try done; auto using join_clean.
Qed.

Lemma metric_shows service scope m :
  utf8 service -> utf8 scope -> metric_ok m ->
  shows_lines 1 (fun color => render_metric color service scope m).
Proof.
  intros Hs Hc (Hn & Hu & Hd & Hm). apply metric_summary_clean in Hm. apply shows_writeln.
  destruct (str_is_empty (metric_unit m)), (str_is_empty (metric_description m)); shows_line.
Qed.

Lemma log_shows service scope l :
  utf8 service -> utf8 scope -> log_ok l ->
  shows_lines (log_lines l) (fun color => render_log color service scope l).
Proof.
  intros Hs Hc (Ht & Hb & Ha).
  pose proof (severity_label_utf8 (log_severity_number l) _ Ht) as Hsev.
  assert (clean (pretty_option (log_body l))).
  { destruct (log_body l) as [b|]; simpl; [by apply pretty_clean|auto with clean]. }
  apply shows_lines_app; [|by apply attrs_line_shows]. apply shows_writeln. shows_line.
Qed.

Lemma record_shows r : record_ok r -> shows_lines (record_lines r) (render r).
Proof.
  destruct r as [req|req|req]; simpl; intros Hr; apply shows_lines_map;
    (eapply Forall_impl; [exact Hr|]); intros ? [Hres Hscopes]; apply shows_lines_map;
    (eapply Forall_impl; [exact Hscopes|]); intros ? [Hscope Hitems]; apply shows_lines_map;
    (eapply Forall_impl; [exact Hitems|]); intros item Hitem.
  - by apply log_shows; [apply service_text_utf8|apply scope_text_utf8|].
  - by apply span_shows; [apply service_text_utf8|apply scope_text_utf8|].
  - by apply metric_shows; [apply service_text_utf8|apply scope_text_utf8|].
Qed.

Lemma stats_text_shows s f : shows f -> shows (fun color => stats_text s (f color)).
Proof.
  intros Hf. unfold stats_text. apply shows_app; [shows_line|]. apply shows_app; [exact Hf|]. shows_line.
Qed.
End format_lemmas.

(** The texts of the totals and of their keys are well formed. *)
Definition bucket_ok (b : BucketStats) : Prop :=
  utf8 (bs_provider b) /\ utf8 (bs_model b) /\ utf8 (bs_effort b).
Definition agent_ok (e : string * AgentStats) : Prop :=
  utf8 e.1 /\ Forall (fun b => bucket_ok b.2) (btree_entries str_le (buckets e.2)).
Definition snapshot_ok (s : UsageSnapshot) : Prop :=
  clean (snap_started_at s) /\ Forall agent_ok (btree_entries str_le (snap_agents s)).

Definition summary_lines (s : UsageSnapshot) : nat :=
  sum (map (fun e => 1 + sum (map (fun _ => 1) (btree_entries str_le (buckets e.2))))
    (btree_entries str_le (snap_agents s)))%nat.

Lemma summary_shows s : snapshot_ok s -> shows_lines (summary_lines s) (fun color => render_summary color s).
Proof.
  intros [Hsince Hagents]. apply shows_lines_map. eapply Forall_impl; [exact Hagents|].
  intros [agent stats] [Ha Hb]. simpl in *. unfold render_agent. apply (shows_lines_app 1).
  - apply shows_writeln. apply shows_app.
    { apply shows_paint; [done|]. auto with clean. }
    apply shows_app; [apply stats_text_shows, shows_bold, pretty_Z_clean|].
    apply shows_app; [apply shows_const; auto with clean|by apply shows_dim].
  - apply shows_lines_map. eapply Forall_impl; [exact Hb|]. intros [k b] (Hp & Hm & He). simpl in *.
    apply shows_writeln.
    repeat match goal with
    | |- shows (fun _ => stats_text _ _) => apply stats_text_shows
    | |- shows (fun _ => dim _ _) => apply shows_dim
    | |- shows (fun _ => bold _ _) => apply shows_bold
    | |- shows (fun _ => _ +:+ _) => apply shows_app
    | |- shows (fun _ => _) => apply shows_const
    end; auto using pretty_Z_clean with clean.
Qed.

(** * Properties *)

(** C32. A record is drawn on exactly as many lines as it has items, whatever its texts say:
    one per span, metric or log record, one for the attributes of each that has any and one per
    event; each line is free of the control and direction characters of Unicode, the line break among
    them, and the coloured form is the plain one with
    the program's own colour codes and nothing else added. *)
Theorem record_is_drawn_line_by_line `{TextsLaws} r :
  record_ok r ->
  (exists ls, length ls = record_lines r /\ Forall clean ls /\ render r false = cat (map writeln ls)) /\
  strip false (render r true) = render r false.
Proof. intros Hr. by apply shows_lines_spec, record_shows. Qed.

(** So is the summary: a line per agent and one per bucket, clean, and the same under its
    colours. *)
Theorem summary_is_drawn_line_by_line s :
  snapshot_ok s ->
  (exists ls, length ls = summary_lines s /\ Forall clean ls /\
     render_summary false s = cat (map writeln ls)) /\
  strip false (render_summary true s) = render_summary false s.
Proof. intros Hs. by apply (shows_lines_spec _ (fun color => render_summary color s)), summary_shows. Qed.

(** ** Texts to evaluate examples with *)

Definition sample_texts : Texts := {|
  OffsetDateTime := Z;
  from_unix_timestamp s := Some s;
  replace_nanosecond s _ := Some s;
  format_date_time s := if s =? 0 then Some "1970-01-01T00:00:00Z"%string else None;
  severity_try_from n := if n =? 9 then Some Info else None;
  to_uppercase s := s;
|}.

Lemma sample_texts_laws : @TextsLaws sample_texts.
Proof. split; [|done]. intros t s. simpl. destruct (t =? 0); [by intros [= <-]|done]. Qed.

(** A log record whose body tries to begin a line of its own and to change the colour. *)
Definition forged_body : string :=
  String (ascii_of_nat 10) ("[log]" +:+ String (ascii_of_nat 27) "[31m").
Definition forged_log : batch :=
  BLogs {| resource_logs := [{| rl_resource := None; rl_scope_logs := [{| sl_scope := None;
    sl_log_records := [{| log_time_unix_nano := 0; log_severity_number := 9; log_severity_text := "";
      log_body := Some (MkAnyValue (Some (StringValue forged_body)));
      log_attributes := []; log_event_name := "" |}] |}] |}] |}.

Lemma forged_log_ok : record_ok forged_log.
Proof.
  repeat first [constructor|split]; try apply utf8_empty; simpl.
  - repeat constructor. by apply ascii_chars.
Qed.

Lemma record_is_drawn_line_by_line_witness :
  record_lines forged_log = 1%nat /\
  strip false (@render sample_texts forged_log true) = @render sample_texts forged_log false.
Proof.
  split; [reflexivity|].
  exact (proj2 (@record_is_drawn_line_by_line sample_texts sample_texts_laws forged_log forged_log_ok)).
Defined.

Definition sample_snapshot : UsageSnapshot :=
  mkSnapshot "1970-01-01T00:00:00Z" None {["codex"%string := mkAgent stats_zero ∅]}.

Lemma sample_snapshot_ok : snapshot_ok sample_snapshot.
Proof.
  split; [by apply printable_clean|]. apply Forall_forall. intros e He.
  assert (e = ("codex"%string, mkAgent stats_zero ∅)) as ->.
  { destruct e as [k v]. apply elem_of_btree_entries in He. simpl in He. by apply lookup_singleton_Some in He as [<- <-]. }
  split; [by apply clean_utf8, printable_clean|]. simpl. constructor.
Qed.

Lemma summary_is_drawn_line_by_line_witness :
  strip false (render_summary true sample_snapshot) = render_summary false sample_snapshot.
Proof. exact (proj2 (summary_is_drawn_line_by_line sample_snapshot sample_snapshot_ok)). Defined.
