(* ===== verification/Server.v ===== *)
(** * The listeners and their shutdown ([src/src/server.rs])

    [run] starts the two listeners and the task that hears signals, waits for the first of
    them, drains the listeners for at most [SHUTDOWN_GRACE] and closes the sink.  Its waits are
    stages of a step relation whose labels name what happened; liveness is over the infinite
    runs in which the runtime is fair.  The listeners' own work is in [Http], [Grpc] and
    [Admission], the closing of the sink in [Sink]. *)

From S2P Require Import Prelude Runs Config.

Local Open Scope Z_scope.

Definition SHUTDOWN_GRACE : Z := secs 10.

(** An [anyhow] error: its messages from the outermost context to the cause. *)
Definition Error : Type := list string.
Definition Outcome : Type := result unit Error.

Definition context (message : string) (r : Outcome) : Outcome :=
  match r with Ok _ => r | Err chain => Err (message :: chain) end.

(** ** Probing the addresses *)

(** [held] are the addresses of the listeners that are open; [bind] answers with the local
    address, the port of which the system chose when 0 was asked for. *)
Class Binder := { bind : list SocketAddr -> SocketAddr -> result SocketAddr string }.

(** An address that a listener holds is not given to another. *)
Class BinderLaws `{Binder} := {
  bind_fresh held addr local : bind held addr = Ok local -> local ∉ held;
}.

Section binds.
Context `{Binder} (show : SocketAddr -> string).

Definition bind_with_context (what : string) (held : list SocketAddr) (addr : SocketAddr)
    : result SocketAddr Error :=
  match bind held addr with
  | Ok local => Ok local
  | Err e => Err [what +:+ show addr; e]
  end.

Definition bind_grpc := bind_with_context "bind gRPC ".

Definition probe_bind := bind_with_context "bind ".

Definition probe_binds (held : list SocketAddr) (grpc_addr http_addr : SocketAddr)
    : result (SocketAddr * SocketAddr) Error :=
  match bind_with_context "bind gRPC " held grpc_addr with
  | Err e => Err e
  | Ok grpc =>
      match bind_with_context "bind HTTP " (grpc :: held) http_addr with
      | Err e => Err e
      | Ok http => Ok (grpc, http)
      end
  end.

(** Probed together, the two listeners have different addresses. *)
Lemma probe_binds_distinct `{!BinderLaws} held grpc_addr http_addr grpc http :
  probe_binds held grpc_addr http_addr = Ok (grpc, http) ->
  (grpc <> http) /\ (grpc ∉ held) /\ (http ∉ held).
Proof.
  unfold probe_binds, bind_with_context. intros Hp.
  destruct (bind held grpc_addr) as [g|] eqn:Hg; [|done].
  destruct (bind (g :: held) http_addr) as [h|] eqn:Hh; [|done]. simplify_eq/=.
  apply bind_fresh in Hg. apply bind_fresh in Hh. set_solver.
Qed.

End binds.

(** ** Tasks and signals *)

Inductive ShutdownSignal := SigInterrupt | SigTerminate.

Definition name (s : ShutdownSignal) : string :=
  match s with SigInterrupt => "SIGINT" | SigTerminate => "SIGTERM" end.

(** [shutdown_signal] on Unix: the signals it may return.  One whose handler could not be
    registered is waited for in vain; of two that arrived [select!] takes either. *)
Definition shutdown_signal (registered arrived : ShutdownSignal -> bool) : list ShutdownSignal :=
  List.filter (fun s => registered s && arrived s) [SigInterrupt; SigTerminate].

(** How a spawned task ended: its own result, or a [JoinError]. *)
Inductive ended := Finished (r : Outcome) | Failed (e : string).

Definition join_result (r : ended) : Outcome :=
  match r with
  | Finished r => r
  | Failed e => Err ["task panicked: " +:+ e]
  end.

(** The result, and what is logged as an additional failure. *)
Definition merge_task_result (r next : Outcome) : Outcome * list Error :=
  match r, next with
  | Ok _, _ => (next, [])
  | Err _, Err e => (r, [e])
  | Err _, Ok _ => (r, [])
  end.

Inductive listener := GrpcListener | HttpListener.

#[global] Instance listener_eq_dec : EqDecision listener.
Proof. solve_decision. Defined.

Definition task_label (l : listener) : string :=
  match l with GrpcListener => "gRPC task" | HttpListener => "HTTP task" end.

(** The listeners the drain still awaits, in its order: gRPC before HTTP. *)
Definition remaining (finished : option listener) : list listener :=
  filter (fun l => Some l <> finished) [GrpcListener; HttpListener].

(** One poll of [drain]: it goes on until a listener has not ended. *)
Fixpoint poll_drain (tasks : listener -> option ended) (awaiting : list listener)
    (drained : Outcome) : list listener * Outcome * list Error :=
  match awaiting with
  | [] => ([], drained, [])
  | l :: rest =>
      match tasks l with
      | None => (awaiting, drained, [])
      | Some e =>
          let '(drained, warned) :=
            merge_task_result drained (context (task_label l) (join_result e)) in
          let '(awaiting, drained, more) := poll_drain tasks rest drained in
          (awaiting, drained, warned ++ more)
      end
  end.

(** ** [run] *)

Inductive Stage :=
(** The first [select!]. *)
| Selecting
(** The second one: the drain, the second signal and the timer. *)
| Draining (since : Z) (awaiting : list listener) (drained : Outcome)
(** [sink.shutdown] is awaited. *)
| Closing
| Returned.

(** [heard] are the signals the signal task heard; [settled] the results merged into [result],
    [forgotten] the outcome of a drain that was cut short, [aborted_at] the time of an abort:
    histories. *)
Record running := mkRunning {
  now : Z;
  tasks : listener -> option ended;
  heard : list ShutdownSignal;
  shutdown : bool;
  hard_exit : bool;
  stage : Stage;
  result_ : Outcome;
  warned : list Error;
  settled : list Outcome;
  forgotten : list Outcome;
  aborted_at : option Z;
  since_ : option Z;
}.

Definition launched (t : Z) : running :=
  mkRunning t (fun _ => None) [] false false Selecting (Ok tt) [] [] [] None None.

Definition set_task (l : listener) (e : ended) (tasks : listener -> option ended) :=
  fun l' => if decide (l' = l) then Some e else tasks l'.

Definition elapse (dt : Z) (x : running) : running :=
  mkRunning (now x + dt) (tasks x) (heard x) (shutdown x) (hard_exit x) (stage x) (result_ x)
    (warned x) (settled x) (forgotten x) (aborted_at x) (since_ x).

(** A listener's task ends. *)
Definition end_task (l : listener) (e : ended) (x : running) : running :=
  mkRunning (now x) (set_task l e (tasks x)) (heard x) (shutdown x) (hard_exit x) (stage x)
    (result_ x) (warned x) (settled x) (forgotten x) (aborted_at x) (since_ x).

(** The signal task: the first signal cancels [shutdown], the second [hard_exit]. *)
Definition hear (s : ShutdownSignal) (x : running) : running :=
  mkRunning (now x) (tasks x) (heard x ++ [s])
    (if decide (heard x = []) then true else shutdown x)
    (if decide (heard x = []) then hard_exit x else true)
    (stage x) (result_ x) (warned x) (settled x) (forgotten x) (aborted_at x) (since_ x).

(** The first [select!] is over: the token is cancelled and the timer starts. *)
Definition begin_drain (x : running) (finished : option listener) (r : Outcome) : running :=
  mkRunning (now x) (tasks x) (heard x) true (hard_exit x)
    (Draining (now x) (remaining finished) (Ok tt)) r (warned x) [r] (forgotten x)
    (aborted_at x) (Some (now x)).

(** The drain ended, and [result] takes what it brought. *)
Definition end_drain (x : running) (drained : Outcome) (more : list Error) : running :=
  let '(r, w) := merge_task_result (result_ x) drained in
  mkRunning (now x) (tasks x) (heard x) (shutdown x) (hard_exit x) Closing r
    (warned x ++ more ++ w) (settled x ++ [drained]) (forgotten x) (aborted_at x) (since_ x).

(** The drain goes on. *)
Definition keep_draining (x : running) since awaiting drained more : running :=
  mkRunning (now x) (tasks x) (heard x) (shutdown x) (hard_exit x)
    (Draining since awaiting drained) (result_ x) (warned x ++ more) (settled x) (forgotten x)
    (aborted_at x) (since_ x).

(** The listeners are aborted and the drain is dropped with what it had. *)
Definition cut_drain (x : running) (drained : Outcome) : running :=
  mkRunning (now x) (tasks x) (heard x) (shutdown x) (hard_exit x) Closing (result_ x)
    (warned x) (settled x) (forgotten x ++ [drained]) (Some (now x)) (since_ x).

(** The sink answered. *)
Definition close (x : running) (r : Outcome) : running :=
  let r := context "shutdown JSONL sink" r in
  let '(result, w) := merge_task_result (result_ x) r in
  mkRunning (now x) (tasks x) (heard x) (shutdown x) (hard_exit x) Returned result
    (warned x ++ w) (settled x ++ [r]) (forgotten x) (aborted_at x) (since_ x).

Inductive event :=
| Elapse | ListenerEnds | Signal | Select | PollDrain | HardExit | Grace | SinkCloses.

(** The signal task hears two signals; [run] aborts it when the drain is over. *)
Definition listening (x : running) : Prop :=
  match stage x with Selecting | Draining _ _ _ => True | Closing | Returned => False end.

(** [registered]: the handlers the system let the process register. *)
Inductive step (registered : ShutdownSignal -> bool) : event -> running -> running -> Prop :=
| step_time x dt :
    0 <= dt -> step registered Elapse x (elapse dt x)
| step_listener x l e :
    tasks x l = None -> step registered ListenerEnds x (end_task l e x)
| step_signal x arrived s :
    s ∈ shutdown_signal registered arrived -> listening x -> (length (heard x) < 2)%nat ->
    step registered Signal x (hear s x)
| step_select_listener x l e :
    stage x = Selecting -> tasks x l = Some e ->
    step registered Select x
      (begin_drain x (Some l) (context (task_label l) (join_result e)))
| step_select_shutdown x :
    stage x = Selecting -> shutdown x = true ->
    step registered Select x (begin_drain x None (Ok tt))
| step_drain_ends x since awaiting drained drained' more :
    stage x = Draining since awaiting drained ->
    poll_drain (tasks x) awaiting drained = ([], drained', more) ->
    step registered PollDrain x (end_drain x drained' more)
| step_drain_waits x since awaiting drained awaiting' drained' more :
    stage x = Draining since awaiting drained ->
    poll_drain (tasks x) awaiting drained = (awaiting', drained', more) ->
    awaiting' <> [] ->
    step registered PollDrain x (keep_draining x since awaiting' drained' more)
| step_hard_exit x since awaiting drained :
    stage x = Draining since awaiting drained -> hard_exit x = true ->
    step registered HardExit x (cut_drain x drained)
| step_grace x since awaiting drained :
    stage x = Draining since awaiting drained -> since + SHUTDOWN_GRACE <= now x ->
    step registered Grace x (cut_drain x drained)
| step_closed x r :
    stage x = Closing -> step registered SinkCloses x (close x r).

Section specification.
Context (registered : ShutdownSignal -> bool).

Definition reachable (t : Z) (x : running) : Prop :=
  rtc (fun x y => exists ev, step registered ev x y) (launched t) x.

(** ** Specification: what the result says *)

Definition errs (r : Outcome) : list Error := match r with Ok _ => [] | Err e => [e] end.

Fixpoint first_error (rs : list Outcome) : Outcome :=
  match rs with
  | [] => Ok tt
  | Ok _ :: rs => first_error rs
  | Err e :: _ => Err e
  end.

(** The failure a listener ended with. *)
Definition fault (tasks : listener -> option ended) (l : listener) : list Error :=
  from_option (fun e => errs (context (task_label l) (join_result e))) [] (tasks l).

Definition faults (tasks : listener -> option ended) (ls : list listener) : list Error := flat_map (fault tasks) ls.

#[local] Arguments faults : simpl never.

(** The closing of the sink is the last result that was merged. *)
Definition closing (x : running) : option Outcome := last (settled x).

Definition all_ended (tasks : listener -> option ended) (ls : list listener) : Prop := Forall (fun l => is_Some (tasks l)) ls.

(** The failures of the listeners that were awaited are told, once each. *)
Definition told (x : running) (extra : list Error) (ls : list listener) : Prop :=
  all_ended (tasks x) ls /\ errs (result_ x) ++ warned x ++ extra ≡ₚ faults (tasks x) ls.

Record RunInv (x : running) : Prop := {
  inv_first : result_ x = first_error (settled x);
  inv_asked : stage x <> Selecting -> shutdown x = true;
  inv_heard : heard x <> [] -> shutdown x = true;
  inv_hard : hard_exit x = true -> length (heard x) = 2%nat;
  inv_abort : forall t, aborted_at x = Some t ->
    hard_exit x = true \/ exists since, since_ x = Some since /\ since + SHUTDOWN_GRACE <= t;
  inv_stage :
    match stage x with
    | Selecting => settled x = [] /\ warned x = [] /\ aborted_at x = None
    | Draining since awaiting drained =>
        since_ x = Some since /\ aborted_at x = None /\
        exists finished, finished ++ awaiting ≡ₚ [GrpcListener; HttpListener] /\
          told x (errs drained) finished
    | Closing => aborted_at x = None -> told x [] [GrpcListener; HttpListener]
    | Returned =>
        exists r, closing x = Some (context "shutdown JSONL sink" r) /\
          (aborted_at x = None ->
           all_ended (tasks x) [GrpcListener; HttpListener] /\
           errs (result_ x) ++ warned x ≡ₚ
           faults (tasks x) [GrpcListener; HttpListener] ++ errs (context "shutdown JSONL sink" r))
    end;
}.

(** ** Lemmas *)

Lemma merge_task_result_first rs r : (merge_task_result (first_error rs) r).1 = first_error (rs ++ [r]).
Proof. by induction rs as [|[[]|e] rs IH]; destruct r as [[]|]. Qed.

Lemma merge_task_result_errs r next r' w :
  merge_task_result r next = (r', w) -> errs r' ++ w ≡ₚ errs r ++ errs next.
Proof. by destruct r as [[]|], next as [[]|]; intros [= <- <-]. Qed.

Lemma fault_some tasks l e :
  tasks l = Some e -> fault tasks l = errs (context (task_label l) (join_result e)).
Proof. by unfold fault; intros ->. Qed.

Lemma faults_cons tasks l e ls :
  tasks l = Some e ->
  faults tasks (l :: ls) = errs (context (task_label l) (join_result e)) ++ faults tasks ls.
Proof. intros H. by rewrite <- (fault_some _ _ _ H). Qed.

Lemma faults_app tasks ls1 ls2 : faults tasks (ls1 ++ ls2) = faults tasks ls1 ++ faults tasks ls2.
Proof. apply flat_map_app. Qed.

Lemma faults_perm tasks ls1 ls2 : ls1 ≡ₚ ls2 -> faults tasks ls1 ≡ₚ faults tasks ls2.
Proof. intros H. unfold faults. by rewrite H. Qed.

Lemma poll_drain_spec tasks awaiting drained awaiting' drained' more :
  poll_drain tasks awaiting drained = (awaiting', drained', more) ->
  exists finished, awaiting = finished ++ awaiting' /\ all_ended tasks finished /\
    errs drained' ++ more ≡ₚ errs drained ++ faults tasks finished.
Proof.
  revert drained more. induction awaiting as [|l rest IH]; intros drained more.
  { intros [= <- <- <-]. exists []. repeat split; [apply Forall_nil_2|done]. }
  simpl. destruct (tasks l) as [e|] eqn:Hl.
  2: { intros [= <- <- <-]. exists []. repeat split; [apply Forall_nil_2|done]. }
  destruct (merge_task_result _ _) as [d w] eqn:Hm.
  destruct (poll_drain tasks rest d) as [[a d2] m2] eqn:Hp. intros [= <- <- <-].
  destruct (IH _ _ Hp) as (ls & -> & Hall & Hperm). exists (l :: ls). split; [done|].
  split; [by constructor; [eexists|]|].
  apply merge_task_result_errs in Hm. rewrite (faults_cons _ _ _ _ Hl).
  rewrite (app_assoc (errs drained)), <- Hm, <- app_assoc, <- (Permutation_app_comm m2),
    (app_assoc _ m2), Hperm. solve_Permutation.
Qed.

Lemma all_ended_set tasks l e ls : all_ended tasks ls -> all_ended (set_task l e tasks) ls.
Proof.
  intros H. eapply Forall_impl; [exact H|]. intros l'. unfold set_task.
  by case_decide; [eexists|].
Qed.

Lemma faults_set tasks l e ls :
  tasks l = None -> all_ended tasks ls -> faults (set_task l e tasks) ls = faults tasks ls.
Proof.
  intros Hl. induction 1 as [|l' ls [e' He] _ IH]; [done|].
  unfold faults in *. simpl. f_equal; [|exact IH].
  unfold fault, set_task. case_decide; [congruence|done].
Qed.

Lemma told_set x x' l e extra ls :
  tasks x l = None -> tasks x' = set_task l e (tasks x) -> result_ x' = result_ x ->
  warned x' = warned x -> told x extra ls -> told x' extra ls.
Proof.
  intros Hl Ht Hr Hw [H1 H2]. unfold told. rewrite Ht, Hr, Hw.
  split; [by apply all_ended_set|]. by rewrite faults_set.
Qed.

Lemma remaining_finished o :
  exists finished, finished ++ remaining o ≡ₚ [GrpcListener; HttpListener] /\
    finished = from_option (fun l => [l]) [] o.
Proof. destruct o as [[]|]; (eexists; split; [|reflexivity]; vm_compute); solve_Permutation. Qed.

Lemma first_error_single r : r = first_error [r].
Proof. by destruct r as [[]|]. Qed.

Lemma begin_drain_inv x o r :
  RunInv x -> stage x = Selecting ->
  all_ended (tasks x) (from_option (fun l => [l]) [] o) ->
  errs r = faults (tasks x) (from_option (fun l => [l]) [] o) ->
  RunInv (begin_drain x o r).
Proof.
  intros [_ _ _ I4 _ I6] Hst Hall Hr. rewrite Hst in I6. destruct I6 as (Hs & Hw & Ha).
  split; simpl; try done; [apply first_error_single|congruence|].
  destruct (remaining_finished o) as (ls & Hls & ->).
  split; [done|]. split; [done|]. eexists; split; [exact Hls|]. split; [exact Hall|].
  simpl. by rewrite Hw, Hr, !app_nil_r.
Qed.

Lemma told_after x finished d ls d' more :
  told x (errs d) finished -> all_ended (tasks x) ls ->
  errs d' ++ more ≡ₚ errs d ++ faults (tasks x) ls ->
  all_ended (tasks x) (finished ++ ls) /\
  errs (result_ x) ++ (warned x ++ more) ++ errs d' ≡ₚ faults (tasks x) (finished ++ ls).
Proof.
  intros [Hall Hp] Hls Hm. split; [by apply Forall_app|].
  rewrite faults_app, <- Hp, <- !app_assoc. do 2 apply Permutation_app_head.
  by rewrite (Permutation_app_comm more), Hm.
Qed.

Lemma end_drain_inv x since awaiting d d' more :
  RunInv x -> stage x = Draining since awaiting d ->
  poll_drain (tasks x) awaiting d = ([], d', more) -> RunInv (end_drain x d' more).
Proof.
  intros [I1 I2 I3 I4 I5 I6] Hst Hp. rewrite Hst in I6. destruct I6 as (Hs & Ha & ls & Hls & Ht).
  destruct (poll_drain_spec _ _ _ _ _ _ Hp) as (ls' & -> & Hall & Hperm).
  destruct (told_after _ _ _ _ _ _ Ht Hall Hperm) as [Hall' Hp'].
  unfold end_drain. destruct (merge_task_result (result_ x) d') as [r w] eqn:Hm.
  rewrite app_nil_r in Hls. split; simpl; try done.
  - rewrite <- merge_task_result_first, <- I1. by rewrite Hm.
  - intros _. apply I2. by rewrite Hst.
  - intros _. split; simpl.
    + unfold all_ended. by rewrite <- Hls.
    + rewrite <- (faults_perm _ _ _ Hls), <- Hp'. apply merge_task_result_errs in Hm.
      transitivity ((errs r ++ w) ++ warned x ++ more); [solve_Permutation|].
      rewrite Hm. solve_Permutation.
Qed.

Lemma keep_draining_inv x since awaiting d awaiting' d' more :
  RunInv x -> stage x = Draining since awaiting d ->
  poll_drain (tasks x) awaiting d = (awaiting', d', more) ->
  RunInv (keep_draining x since awaiting' d' more).
Proof.
  intros [I1 I2 I3 I4 I5 I6] Hst Hp. rewrite Hst in I6. destruct I6 as (Hs & Ha & ls & Hls & Ht).
  destruct (poll_drain_spec _ _ _ _ _ _ Hp) as (ls' & -> & Hall & Hperm).
  destruct (told_after _ _ _ _ _ _ Ht Hall Hperm) as [Hall' Hp'].
  split; simpl; try done.
  - intros _. apply I2. by rewrite Hst.
  - split; [done|]. split; [done|]. exists (ls ++ ls').
    split; [by rewrite <- app_assoc|]. by split.
Qed.

Lemma cut_drain_inv x since awaiting d :
  RunInv x -> stage x = Draining since awaiting d ->
  hard_exit x = true \/ since + SHUTDOWN_GRACE <= now x -> RunInv (cut_drain x d).
Proof.
  intros [I1 I2 I3 I4 I5 I6] Hst Hwhy. rewrite Hst in I6. destruct I6 as (Hs & Ha & _).
  split; simpl; try done.
  - intros _. apply I2. by rewrite Hst.
  - intros t [= <-]. destruct Hwhy; [by left|]. right. by exists since.
Qed.

Lemma run_close_inv x r : RunInv x -> stage x = Closing -> RunInv (close x r).
Proof.
  intros [I1 I2 I3 I4 I5 I6] Hst. rewrite Hst in I6. unfold close.
  destruct (merge_task_result _ _) as [r' w] eqn:Hm. split; simpl; try done.
  - by rewrite <- merge_task_result_first, <- I1, Hm.
  - intros _. apply I2. by rewrite Hst.
  - exists r. split; [apply last_snoc|]. intros Ha. destruct (I6 Ha) as [Hall Hp].
    split; [done|]. rewrite <- Hp. apply merge_task_result_errs in Hm.
    transitivity ((errs r' ++ w) ++ warned x); [solve_Permutation|].
    rewrite Hm. solve_Permutation.
Qed.

Lemma listener_ends_inv x l e :
  RunInv x -> tasks x l = None -> RunInv (end_task l e x).
Proof.
  intros [I1 I2 I3 I4 I5 I6] Hl. split; simpl; try done.
  destruct (stage x) as [|since aw d| |].
  - done.
  - destruct I6 as (Hs & Ha & ls & Hls & Ht). split; [done|]. split; [done|].
    exists ls. split; [done|]. by eapply told_set.
  - intros Ha. by eapply told_set; [| | | |apply I6].
  - destruct I6 as (r & Hr & H). exists r. split; [done|]. intros Ha.
    destruct (H Ha) as [Hall Hp]. split; [by apply all_ended_set|]. by rewrite faults_set.
Qed.

Lemma hear_inv x s : RunInv x -> (length (heard x) < 2)%nat -> RunInv (hear s x).
Proof.
  intros [I1 I2 I3 I4 I5 I6] Hlen. unfold hear.
  destruct (decide (heard x = [])) as [Hh|Hh]; split; simpl; try done.
  - intros Hhard. apply I4 in Hhard. by rewrite Hh in Hhard.
  - by intros _; apply I3.
  - intros _. destruct (heard x) as [|? [|]]; simpl in *; [done|done|lia].
  - by left.
Qed.

Lemma run_step_inv ev x y : step registered ev x y -> RunInv x -> RunInv y.
Proof.
  intros Hstep I. pose proof I as [I1 I2 I3 I4 I5 I6].
  destruct Hstep as [x dt Hdt|x l e Hl|x arrived s Hs Hlis Hh|x l e Hst Hl|x Hst Hsh|
    x since aw d d' more Hst Hp|x since aw d aw' d' more Hst Hp Hne|x since aw d Hst Hhard|
    x since aw d Hst Hnow|x r Hst].
  - by split.
  - by apply listener_ends_inv.
  - by apply hear_inv.
  - apply begin_drain_inv; [done|done|repeat constructor; eexists; exact Hl|].
    simpl. rewrite (faults_cons _ _ _ _ Hl). by rewrite app_nil_r.
  - by apply begin_drain_inv; [| |apply Forall_nil_2|].
  - by eapply end_drain_inv.
  - by eapply keep_draining_inv.
  - by eapply cut_drain_inv; [| |left].
  - by eapply cut_drain_inv; [| |right].
  - by apply run_close_inv.
Qed.

Lemma run_reachable_inv t x : reachable t x -> RunInv x.
Proof.
  revert x. apply rtc_ind_r; [by split|]. intros y z _ [ev Hstep] IH.
  by eapply run_step_inv.
Qed.

(** ** Runs of the process *)

Definition asked_to_stop (x : running) : Prop :=
  shutdown x = true \/ exists l, is_Some (tasks x l).

Definition selecting (x : running) : Prop := asked_to_stop x /\ stage x = Selecting.

(** The drain that began at [since] goes on. *)
Definition draining (since : Z) (x : running) : Prop :=
  match stage x with Draining s _ _ => s = since | _ => False end.

Definition past_select (x : running) : Prop := stage x <> Selecting.

Definition past_drain (x : running) : Prop :=
  match stage x with Closing | Returned => True | _ => False end.

#[local] Abbreviation transition := (step registered).

#[local] Ltac step_cases H :=
  destruct H; unfold end_drain, close, hear in *; repeat case_match; simplify_eq/=; try congruence; try done.

Lemma clock_monotone e x y : transition e x y -> now x <= now y.
Proof. intros H. step_cases H; lia. Qed.

Lemma selecting_until : until transition selecting past_select.
Proof.
  unfold selecting, asked_to_stop, past_select. intros e x y Hxy [Ha Hst].
  destruct (stage y) eqn:Ey; [left; split; [|done]|by right..].
  step_cases Hxy; try by left. destruct Ha as [|[l' Hl']]; [by left|right]. exists l'.
  unfold set_task. by case_decide; [eexists|].
Qed.

Lemma draining_until since : until transition (draining since) past_drain.
Proof.
  unfold draining, past_drain. intros e x y Hxy Hd.
  step_cases Hxy; first [by right|left; congruence].
Qed.

Lemma closing_until : until transition (fun x => stage x = Closing) (fun x => stage x = Returned).
Proof. intros e x y Hxy Hd. step_cases Hxy; first [by right|left; congruence]. Qed.

(** What each wait leads to. *)
Lemma select_leads ev tr n :
  run_of transition ev tr -> fair transition Select ev tr -> selecting (tr n) ->
  eventually past_select tr n.
Proof.
  intros Hr Hf. apply (wf1 _ _ _ _ _ _ _ Hr Hf selecting_until).
  - unfold past_select. intros x y Hxy _. by inversion Hxy.
  - intros x [[H|[l [e H]]] Hst]; eexists; [by apply step_select_shutdown|].
    by eapply step_select_listener.
Qed.

Lemma grace_leads since ev tr n :
  run_of transition ev tr -> fair transition Grace ev tr -> clock_goes_on now tr ->
  draining since (tr n) -> eventually past_drain tr n.
Proof.
  intros Hr Hf Hc.
  apply (wf1_deadline _ now (since + SHUTDOWN_GRACE) _ _ _ _ _ _ Hr Hf Hc clock_monotone (draining_until since)).
  - unfold past_drain. intros x y Hxy _. by inversion Hxy.
  - unfold draining. intros x Hd Hnow. destruct (stage x) eqn:Hst; try done. subst.
    eexists. by eapply step_grace.
Qed.

Lemma closing_leads ev tr n :
  run_of transition ev tr -> fair transition SinkCloses ev tr -> stage (tr n) = Closing ->
  eventually (fun x => stage x = Returned) tr n.
Proof.
  intros Hr Hf. apply (wf1 _ _ _ _ _ _ _ Hr Hf closing_until).
  - intros x y Hxy _. inversion Hxy. unfold close. by case_match.
  - intros x Hst. exists (close x (Ok tt)). by apply step_closed.
Qed.

(** Once it is asked to stop, [run] returns. *)
Lemma run_returns ev tr n :
  run_of transition ev tr -> clock_goes_on now tr -> fair transition Select ev tr ->
  fair transition Grace ev tr -> fair transition SinkCloses ev tr -> asked_to_stop (tr n) ->
  eventually (fun x => stage x = Returned) tr n.
Proof.
  intros Hrun Hclock Hsel Hgrace Hclose Hask.
  apply (eventually_trans past_drain).
  { intros m _ Hd. unfold past_drain in Hd. destruct (stage (tr m)) eqn:Hst; try done.
    - by eapply closing_leads.
    - by exists m. }
  apply (eventually_trans past_select).
  { intros m _ Hp. unfold past_select in Hp. destruct (stage (tr m)) as [|since| |] eqn:Hst; [done| | |].
    - apply (grace_leads since ev tr m Hrun Hgrace Hclock). unfold draining. by rewrite Hst.
    - exists m. unfold past_drain. by rewrite Hst.
    - exists m. unfold past_drain. by rewrite Hst. }
  destruct (stage (tr n)) eqn:Hst; [by eapply select_leads|exists n; unfold past_select; by rewrite Hst..].
Qed.

(** It stays so. *)
Lemma returned_stays e x y :
  transition e x y -> stage x = Returned -> stage y = Returned /\ result_ y = result_ x.
Proof. intros Hxy Hst. step_cases Hxy. Qed.

End specification.

(** ** Properties *)

(** Liveness of shutdown: in any run in which the runtime does not put off for ever what is
    ready (the first wait, the timer of the drain, the closing of the sink) and time goes on,
    once a stop is asked for - a signal was heard, or a listener ended, failed or panicked -
    [run] closes the sink and returns, however many connections are still open and whether or
    not the listeners ever end. *)
Theorem shutdown_completes registered ev tr n :
  run_of (step registered) ev tr -> clock_goes_on now tr ->
  fair (step registered) Select ev tr -> fair (step registered) Grace ev tr ->
  fair (step registered) SinkCloses ev tr ->
  asked_to_stop (tr n) ->
  exists m, (n <= m)%nat /\ stage (tr m) = Returned.
Proof.
  apply run_returns.
Qed.

(** C25. Every failure is told: when [run] returns, the closing of the sink is the last result
    it merged and the result is the first failure among those merged, so success means that the
    sink closed well; and when the drain was not cut short, both listeners have ended and the
    result together with the warnings are exactly the failures of the two listeners and of the
    sink, each once. *)
Theorem failures_are_told registered t x :
  reachable registered t x -> stage x = Returned ->
  result_ x = first_error (settled x) /\
  exists r, closing x = Some (context "shutdown JSONL sink" r) /\
    (result_ x = Ok tt -> r = Ok tt) /\
    (aborted_at x = None ->
     all_ended (tasks x) [GrpcListener; HttpListener] /\
     errs (result_ x) ++ warned x ≡ₚ
     faults (tasks x) [GrpcListener; HttpListener] ++ errs (context "shutdown JSONL sink" r)).
Proof.
  intros Hr Hst. destruct (run_reachable_inv _ _ _ Hr) as [I1 _ _ _ _ I6].
  rewrite Hst in I6. destruct I6 as (r & Hc & Ht). split; [done|]. exists r.
  split; [done|]. split; [|done]. intros Hok. rewrite I1 in Hok.
  apply last_Some in Hc as [rs Hs]. rewrite Hs in Hok. clear - Hok.
  induction rs as [|[[]|] rs IH]; [|by apply IH|done]. by destruct r as [[]|].
Qed.

(** Connections are abandoned only after a fair warning: whenever the listeners were
    aborted the stop had been asked of them before, and either a second signal came or the
    whole of [SHUTDOWN_GRACE] had passed since the drain began; and past the first wait the
    listeners have always been asked to stop. *)
Theorem abort_only_after_grace registered t x :
  reachable registered t x ->
  (stage x <> Selecting -> shutdown x = true) /\
  forall at_, aborted_at x = Some at_ ->
    shutdown x = true /\
    (length (heard x) = 2%nat \/
     exists since, since_ x = Some since /\ since + SHUTDOWN_GRACE <= at_).
Proof.
  intros Hr. destruct (run_reachable_inv _ _ _ Hr) as [_ I2 _ I4 I5 I6]. split; [done|].
  intros at_ Ha. split.
  - apply I2. intros Hst. rewrite Hst in I6. destruct I6 as (_ & _ & ?). congruence.
  - destruct (I5 _ Ha) as [Hh|Hs]; [left; by apply I4|by right].
Qed.

Definition only_term (s : ShutdownSignal) : bool :=
  match s with SigInterrupt => false | SigTerminate => true end.

(** A drain that is cut short takes the failure it had already collected with it: neither the
    result nor a warning tells that the gRPC listener failed. *)
Lemma cut_drain_forgets :
  exists x, reachable (fun _ => true) 0 x /\ stage x = Returned /\
    tasks x GrpcListener = Some (Failed "panic"%string) /\
    forgotten x = [Err ["gRPC task"; "task panicked: panic"]]%string /\
    result_ x = Ok tt /\ warned x = [].
Proof.
  set (x1 := hear SigTerminate (launched 0)).
  set (x2 := begin_drain x1 None (Ok tt)).
  set (x3 := end_task GrpcListener (Failed "panic") x2).
  set (x4 := keep_draining x3 0 [HttpListener] (Err ["gRPC task"; "task panicked: panic"]%string) []).
  set (x5 := elapse SHUTDOWN_GRACE x4).
  exists (close (cut_drain x5 (Err ["gRPC task"; "task panicked: panic"]%string)) (Ok tt)).
  split; [|repeat split].
  eapply rtc_l; [eexists; apply (step_signal _ _ only_term SigTerminate); [set_solver|done|simpl; lia]|].
  eapply rtc_l; [eexists; by apply step_select_shutdown|].
  eapply rtc_l; [eexists; by apply (step_listener _ _ GrpcListener (Failed "panic"))|].
  eapply rtc_l; [eexists; by eapply step_drain_waits|].
  eapply rtc_l; [eexists; by apply (step_time _ _ SHUTDOWN_GRACE)|].
  eapply rtc_l; [eexists; by eapply step_grace|].
  apply rtc_once. eexists. by apply (step_closed _ _ (Ok tt)).
Qed.

(** ** Witnesses *)

(** SIGTERM while a connection stays open. *)
Definition stuck_drain : running := begin_drain (hear SigTerminate (launched 0)) None (Ok tt).
Definition stuck_closed : running :=
  close (cut_drain (elapse SHUTDOWN_GRACE stuck_drain) (Ok tt)) (Ok tt).

Definition sample_told : list (event * running) := [
  (Signal, launched 0);
  (Select, hear SigTerminate (launched 0));
  (Elapse, stuck_drain);
  (Grace, elapse SHUTDOWN_GRACE stuck_drain);
  (SinkCloses, cut_drain (elapse SHUTDOWN_GRACE stuck_drain) (Ok tt))
].
Definition sample_rest (n : nat) : running := elapse (Z.of_nat n) stuck_closed.

Definition sample_ev : nat -> option event := played_ev sample_told Elapse.
Definition sample_tr : nat -> running := played_tr sample_told sample_rest.

Lemma sample_run_ok : run_of (step (fun _ => true)) sample_ev sample_tr.
Proof.
  apply played_run.
  - repeat split; simpl.
    + apply (step_signal _ _ only_term SigTerminate); [set_solver|done|simpl; lia].
    + by apply step_select_shutdown.
    + by apply (step_time _ _ SHUTDOWN_GRACE).
    + by eapply step_grace.
    + by apply (step_closed _ (cut_drain (elapse SHUTDOWN_GRACE stuck_drain) (Ok tt)) (Ok tt)).
  - intros n. replace (sample_rest (S n)) with (elapse 1 (sample_rest n)); [by apply step_time|].
    unfold sample_rest, elapse. f_equal. simpl. lia.
Qed.

Lemma sample_run_fair e :
  e = Select \/ e = Grace \/ e = SinkCloses -> fair (step (fun _ => true)) e sample_ev sample_tr.
Proof.
  intros He. apply played_fair. intros n [y Hy]. destruct He as [->|[->| ->]]; inversion Hy; discriminate.
Qed.

Lemma sample_clock : clock_goes_on now sample_tr.
Proof.
  apply played_clock. intros t n. exists (Z.to_nat t + n)%nat. split; [lia|].
  unfold sample_rest, elapse, stuck_closed. simpl. unfold SHUTDOWN_GRACE, secs. lia.
Qed.

Lemma shutdown_completes_witness :
  exists m, (1 <= m)%nat /\ stage (sample_tr m) = Returned.
Proof.
  apply (shutdown_completes (fun _ => true) sample_ev sample_tr 1).
  - apply sample_run_ok.
  - apply sample_clock.
  - apply sample_run_fair. auto.
  - apply sample_run_fair. auto.
  - apply sample_run_fair. auto.
  - left. reflexivity.
Defined.

(** The gRPC port is taken, the HTTP listener ends well, the sink cannot sync. *)
Definition port_taken : ended := Finished (Err ["bind gRPC 0.0.0.0:4317"; "address in use"]%string).
Definition failed_run : running :=
  let x1 := end_task GrpcListener port_taken (launched 0) in
  let x2 := begin_drain x1 (Some GrpcListener) (context "gRPC task" (join_result port_taken)) in
  let x3 := end_task HttpListener (Finished (Ok tt)) x2 in
  close (end_drain x3 (Ok tt) []) (Err ["No space left on device"]%string).

Lemma failed_run_reachable : reachable (fun _ => true) 0 failed_run.
Proof.
  eapply rtc_l; [eexists; by apply (step_listener _ _ GrpcListener port_taken)|].
  eapply rtc_l; [eexists; by apply (step_select_listener _ _ GrpcListener port_taken)|].
  eapply rtc_l; [eexists; by apply (step_listener _ _ HttpListener (Finished (Ok tt)))|].
  eapply rtc_l; [eexists; by eapply step_drain_ends|].
  apply rtc_once. eexists. by apply step_closed.
Qed.

Lemma failures_are_told_witness :
  result_ failed_run = Err ["gRPC task"; "bind gRPC 0.0.0.0:4317"; "address in use"]%string /\
  warned failed_run = [["shutdown JSONL sink"; "No space left on device"]]%string /\
  all_ended (tasks failed_run) [GrpcListener; HttpListener].
Proof.
  split; [reflexivity|]. split; [reflexivity|].
  destruct (failures_are_told _ _ _ failed_run_reachable eq_refl) as (_ & r & _ & _ & H).
  apply (H eq_refl).
Defined.

Lemma stuck_closed_reachable : reachable (fun _ => true) 0 stuck_closed.
Proof.
  eapply rtc_l; [eexists; apply (step_signal _ _ only_term SigTerminate); [set_solver|done|simpl; lia]|].
  eapply rtc_l; [eexists; by apply step_select_shutdown|].
  eapply rtc_l; [eexists; by apply (step_time _ _ SHUTDOWN_GRACE)|].
  eapply rtc_l; [eexists; by eapply step_grace|].
  apply rtc_once. eexists. by apply (step_closed _ _ (Ok tt)).
Qed.

Lemma abort_only_after_grace_witness :
  aborted_at stuck_closed = Some SHUTDOWN_GRACE /\
  shutdown stuck_closed = true.
Proof.
  split; [reflexivity|].
  apply (proj2 (abort_only_after_grace _ _ _ stuck_closed_reachable) SHUTDOWN_GRACE eq_refl).
Defined.
