(* ===== verification/Listeners.v ===== *)
(** * What the listeners are set to ([serve_grpc] in [src/src/server.rs], [serve] in [src/src/http.rs])

    Each listener is bound first, so that its failure names the address, and then handed to
    tonic or axum with its options.  The options are data here: what the two servers do with
    them is theirs, the bounds they come to are stated. *)

From S2P Require Import Prelude Config Admission Http Server.

Local Open Scope Z_scope.
Local Open Scope list_scope.

Definition MAX_CONCURRENT_STREAMS : Z := 16.

Inductive CompressionEncoding := Gzip.

(** A generated tonic server and what [serve_grpc] sets of it. *)
Record GrpcService := mkGrpcService {
  service_signal : ProxySignal;
  accepted_compression : list CompressionEncoding;
  decoding_limit : option Z;
}.

(** [OtlpService::into_servers]: one server for each signal, as generated. *)
Definition into_servers : list GrpcService :=
  map (fun signal => mkGrpcService signal [] None) [Traces; Metrics; Logs].

Definition accept_compressed (e : CompressionEncoding) (s : GrpcService) : GrpcService :=
  mkGrpcService (service_signal s) (e :: accepted_compression s) (decoding_limit s).
Definition max_decoding_message_size (limit : Z) (s : GrpcService) : GrpcService :=
  mkGrpcService (service_signal s) (accepted_compression s) (Some limit).

(** [tonic::transport::Server::builder()] and what is set of it; [admission_layer] are the limits
    of the [AdmissionLayer] every request goes through. *)
Record GrpcServer (Sem : Type) := mkGrpcServer {
  max_concurrent_streams : option Z;
  concurrency_limit_per_connection : option Z;
  http2_keepalive_interval : option Z;
  http2_keepalive_timeout : option Z;
  admission_layer : ReceiveLimits Sem;
  services : list GrpcService;
}.
Arguments mkGrpcServer {Sem} _ _ _ _ _ _.
Arguments max_concurrent_streams {Sem} _.
Arguments concurrency_limit_per_connection {Sem} _.
Arguments admission_layer {Sem} _.
Arguments services {Sem} _.

(** axum's application: its routes, the limits its handlers take, and that bodies are
    decompressed on the way in. *)
Record HttpApp (Sem : Type) := mkHttpApp {
  app_routes : list (string * HttpMethod * HttpEndpoint);
  app_limits : ReceiveLimits Sem;
  app_gzip : bool;
}.
Arguments mkHttpApp {Sem} _ _ _.
Arguments app_limits {Sem} _.

(** Serving until the token is cancelled, by tonic and by axum; [local_addr] asks the system. *)
Class Servers (Sem : Type) := {
  local_addr : SocketAddr -> result SocketAddr string;
  serve_with_incoming_shutdown : GrpcServer Sem -> SocketAddr -> option bool -> result unit string;
  axum_serve : HttpApp Sem -> SocketAddr -> result unit string;
}.

Section listeners.
Context `{Binder} {Sem : Type} `{Servers Sem} (show : SocketAddr -> string).
Implicit Types limits : ReceiveLimits Sem.

Definition grpc_services : list GrpcService :=
  map (fun s => max_decoding_message_size OTLP_MAX_REQUEST_BYTES (accept_compressed Gzip s)) into_servers.

Definition grpc_server limits : GrpcServer Sem :=
  mkGrpcServer (Some MAX_CONCURRENT_STREAMS) (Some MAX_CONCURRENT_STREAMS) (Some (secs 30))
    (Some (secs 10)) limits grpc_services.

Definition anyhow_of (r : result unit string) : Outcome := result_map_err (fun e => [e]) r.

(** [bind_grpc] turns [TCP_NODELAY] on. *)
Definition serve_grpc (held : list SocketAddr) (addr : SocketAddr) limits : Outcome :=
  match bind_grpc show held addr with
  | Err e => Err e
  | Ok incoming =>
      match local_addr incoming with
      | Err e => Err [e]
      | Ok _ =>
          context "OTLP/gRPC server"
            (anyhow_of (serve_with_incoming_shutdown (grpc_server limits) incoming (Some true)))
      end
  end.

Definition http_app limits : HttpApp Sem := mkHttpApp http_routes limits true.

Definition serve_http (held : list SocketAddr) (addr : SocketAddr) limits : Outcome :=
  match bind_with_context show "bind HTTP " held addr with
  | Err e => Err e
  | Ok listener =>
      match local_addr listener with
      | Err e => Err [e]
      | Ok _ => anyhow_of (axum_serve (http_app limits) listener)
      end
  end.

(** ** What the options come to *)

(** Each signal has its service; none decodes more than a request may have, and so one
    connection never more than so many at once. *)
Lemma grpc_connection_bounds limits :
  service_signal <$> services (grpc_server limits) = [Traces; Metrics; Logs] /\
  (forall s, s ∈ services (grpc_server limits) ->
     decoding_limit s = Some OTLP_MAX_REQUEST_BYTES /\ Gzip ∈ accepted_compression s) /\
  (forall n, max_concurrent_streams (grpc_server limits) = Some n ->
     n * OTLP_MAX_REQUEST_BYTES = 512 * 1024 * 1024).
Proof.
  split; [done|]. split; [|by intros n [= <-]]. intros s Hs.
  unfold grpc_server, grpc_services, into_servers in Hs. simpl in Hs.
  rewrite !elem_of_cons, elem_of_nil in Hs. repeat destruct Hs as [->|Hs]; try done; (split; [done|apply list_elem_of_here]).
Qed.

(** One admission for both: the listeners are given the same limits. *)
Lemma one_admission limits : admission_layer (grpc_server limits) = app_limits (http_app limits).
Proof. done. Qed.

(** An address that cannot be bound is named, and a listener that served ended as its server
    did. *)
Lemma listener_failures held addr limits e :
  bind held addr = Err e ->
  serve_grpc held addr limits = Err ["bind gRPC " +:+ show addr; e] /\
  serve_http held addr limits = Err ["bind HTTP " +:+ show addr; e].
Proof. unfold serve_grpc, serve_http, bind_grpc, bind_with_context. by intros ->. Qed.
End listeners.
