(* ===== verification/Process.v ===== *)
(** * The end of the process ([main] in [src/src/main.rs], [ProxyHandle::join])

    [main] awaits [run], cancels the token of the proxy, joins its workers one after the other
    and shuts the runtime down with a limit on its blocking tasks.  The state composes the
    listeners and their shutdown ([Server]) with every worker ([WorkerLife]) under one clock;
    a run of the process is a run of each, so that their liveness carries over. *)

From S2P Require Import Prelude Runs Config Cli Otlp AggBatch Channel Router Client Worker WorkerLife Server.

Local Open Scope Z_scope.

Definition BLOCKING_TASK_SHUTDOWN_GRACE : Z := secs 2.

(** What [main] awaits. *)
Inductive main_stage :=
| Serving
| Joining (worker : nat)
| ShuttingDownRuntime (since : Z)
| Exited (result : Outcome).

Record process (C : Type) := mkProcess {
  srv : running;
  workers : list (life C);
  main_at : main_stage;
}.
Arguments mkProcess {C} _ _ _.
Arguments srv {C} _.
Arguments workers {C} _.
Arguments main_at {C} _.

Inductive process_event :=
| ServerDoes (e : event)
| WorkerDoes (i : nat) (e : lane_event)
| CancelsProxy
| Joins
| Exits
| BlockingTasksEnd
| ClockTicks.

(** What the runtime owes the process: what is ready, apart from what comes from outside. *)
Definition owed (e : process_event) : Prop :=
  match e with
  | ServerDoes Select | ServerDoes Grace | ServerDoes SinkCloses | WorkerDoes _ Polled
  | CancelsProxy | Joins | Exits => True
  | _ => False
  end.

Section process.
Context {C : Type} `{ChannelOps C ExportRequest}.
Implicit Types (x y : process C).

Definition cancel_worker (l : life C) : life C := mkLife (body l) (clock l) true (timer_from l).
Definition age (dt : Z) (l : life C) : life C :=
  mkLife (body l) (clock l + dt) (cancelled l) (timer_from l).

Inductive step (registered : ShutdownSignal -> bool) : process_event -> process C -> process C -> Prop :=
| process_server x e s :
    e <> Elapse -> Server.step registered e (srv x) s ->
    step registered (ServerDoes e) x (mkProcess s (workers x) (main_at x))
| process_worker x i e l l' :
    workers x !! i = Some l -> e <> LaneTick -> e <> Cancelled -> WorkerLife.step e l l' ->
    step registered (WorkerDoes i e) x (mkProcess (srv x) (<[i := l']> (workers x)) (main_at x))
(** [server::run] returned: [proxy_shutdown.cancel()]. *)
| process_cancel x :
    main_at x = Serving -> Server.stage (srv x) = Returned ->
    step registered CancelsProxy x
      (mkProcess (srv x) (cancel_worker <$> workers x) (Joining 0))
(** [handle.join()]: the next of [self.workers]. *)
| process_join x i l :
    main_at x = Joining i -> workers x !! i = Some l -> stopped l ->
    step registered Joins x (mkProcess (srv x) (workers x) (Joining (S i)))
| process_joined x i :
    main_at x = Joining i -> workers x !! i = None ->
    step registered Joins x
      (mkProcess (srv x) (workers x) (ShuttingDownRuntime (Server.now (srv x))))
(** [runtime.shutdown_timeout]: blocking tasks may hold it up for so long. *)
| process_exit x since :
    main_at x = ShuttingDownRuntime since ->
    since + BLOCKING_TASK_SHUTDOWN_GRACE <= Server.now (srv x) ->
    step registered Exits x
      (mkProcess (srv x) (workers x) (Exited (result_ (srv x))))
| process_exit_early x since :
    main_at x = ShuttingDownRuntime since ->
    step registered BlockingTasksEnd x
      (mkProcess (srv x) (workers x) (Exited (result_ (srv x))))
| process_tick x dt :
    0 <= dt ->
    step registered ClockTicks x
      (mkProcess (elapse dt (srv x)) (age dt <$> workers x) (main_at x)).

(** The listeners and the workers are spawned with queues of these capacities. *)
Definition process_started (capacities : list Z) (t : Z) : process C :=
  mkProcess (launched t) ((fun capacity => born capacity t) <$> capacities) Serving.

Definition reachable registered (capacities : list Z) (t : Z) x : Prop :=
  rtc (fun x y => exists e, step registered e x y) (process_started capacities t) x.

(** ** Specification *)

(** What an event is to the listeners and to a worker. *)
Definition server_label (e : process_event) : option event :=
  match e with ServerDoes e => Some e | ClockTicks => Some Elapse | _ => None end.

Definition worker_label (i : nat) (e : process_event) : option lane_event :=
  match e with
  | WorkerDoes j e => if decide (j = i) then Some e else None
  | CancelsProxy => Some Cancelled
  | ClockTicks => Some LaneTick
  | _ => None
  end.

(** The worker with a number, or what stands for it where there is none. *)
Definition worker_at (nobody : life C) (i : nat) x : life C := default nobody (workers x !! i).

(** How many workers [main] knows to have stopped. *)
Definition joined x : nat :=
  match main_at x with
  | Serving => 0
  | Joining i => i
  | ShuttingDownRuntime _ | Exited _ => length (workers x)
  end.

Record ProcessInv (capacities : list Z) x : Prop := {
  inv_length : length (workers x) = length capacities;
  inv_worker i l capacity :
    workers x !! i = Some l -> capacities !! i = Some capacity -> 1 <= capacity -> WorkerInv (body l);
  inv_cancelled i l : workers x !! i = Some l -> main_at x <> Serving -> cancelled l = true;
  inv_returned : main_at x <> Serving -> Server.stage (srv x) = Returned;
  inv_joined i l : workers x !! i = Some l -> (i < joined x)%nat -> stopped l;
  inv_result r : main_at x = Exited r -> r = result_ (srv x);
  inv_clock i l : workers x !! i = Some l -> clock l = Server.now (srv x);
  inv_bound : (joined x <= length (workers x))%nat;
}.
End process.

(** * Lemmas *)

Section process_lemmas.
Context {C : Type} `{ChannelLaws C ExportRequest}.
Context (registered : ShutdownSignal -> bool).
Implicit Types (x y : process C).

#[local] Abbreviation transition := (step registered).

(** A step of a worker that is neither the clock's nor the token's leaves both alone. *)
Lemma own_step e (l l' : life C) :
  WorkerLife.step e l l' -> e <> LaneTick -> e <> Cancelled ->
  clock l' = clock l /\ cancelled l' = cancelled l.
Proof. destruct 1; done. Qed.

Lemma server_own_step e s s' : Server.step registered e s s' -> e <> Elapse -> Server.now s' = Server.now s.
Proof. destruct 1; try done; intros _; unfold end_drain, Server.close; repeat case_match; done. Qed.

Lemma started_process_inv capacities t :
  ProcessInv capacities (process_started (C := C) capacities t).
Proof.
  split; simpl; try done.
  - by rewrite length_fmap.
  - intros i l capacity Hl Hc Hpos. rewrite list_lookup_fmap, Hc in Hl. simplify_eq/=. by apply spawned_inv.
  - intros i l _ Hj. unfold joined in Hj. simpl in Hj. lia.
  - intros i l Hl. rewrite list_lookup_fmap in Hl. destruct (capacities !! i); by simplify_eq/=.
  - unfold joined. simpl. lia.
Qed.

(** A step of the listeners. *)
Lemma server_step_inv capacities x e s :
  e <> Elapse -> Server.step registered e (srv x) s -> ProcessInv capacities x ->
  ProcessInv capacities (mkProcess s (workers x) (main_at x)).
Proof.
  intros He Hs [I1 I2 I3 I4 I5 I6 I7 I8]. split; simpl in *; try done.
  - intros Hm. by apply (returned_stays _ _ _ _ Hs), I4.
  - intros r Hm. rewrite (I6 r Hm). symmetry. apply (returned_stays _ _ _ _ Hs), I4. by rewrite Hm.
  - intros i l Hl. rewrite (server_own_step _ _ _ Hs He). by eapply I7.
Qed.

(** A step of a worker. *)
Lemma lane_step_inv capacities x i e l l' :
  workers x !! i = Some l -> e <> LaneTick -> e <> Cancelled -> WorkerLife.step e l l' ->
  ProcessInv capacities x -> ProcessInv capacities (mkProcess (srv x) (<[i := l']> (workers x)) (main_at x)).
Proof.
  intros Hl He1 He2 Hs [I1 I2 I3 I4 I5 I6 I7 I8]. destruct (own_step _ _ _ Hs He1 He2) as [Ec Ecc].
  split; simpl; try done.
  - by rewrite length_insert.
  - intros j lj capacity Hj Hcap Hpos. apply list_lookup_insert_Some in Hj as [(-> & <- & _)|[_ Hj]]; [|by eapply I2].
    eapply life_step_inv; [exact Hs|]. by eapply I2.
  - intros j lj Hj Hm. apply list_lookup_insert_Some in Hj as [(-> & <- & _)|[_ Hj]]; [|by eapply I3].
    rewrite Ecc. by eapply I3.
  - intros j lj Hj Hlt. unfold joined in *. simpl in *. rewrite length_insert in Hlt.
    apply list_lookup_insert_Some in Hj as [(-> & <- & _)|[_ Hj]]; [|by eapply I5].
    eapply stopped_stable; [exact Hs|]. by eapply I5.
  - intros j lj Hj. apply list_lookup_insert_Some in Hj as [(-> & <- & _)|[_ Hj]]; [|by eapply I7].
    rewrite Ec. by eapply I7.
  - unfold joined in *. simpl. by rewrite length_insert.
Qed.

(** The clock. *)
Lemma tick_step_inv capacities x dt :
  ProcessInv capacities x ->
  ProcessInv capacities (mkProcess (elapse dt (srv x)) (age dt <$> workers x) (main_at x)).
Proof.
  intros [I1 I2 I3 I4 I5 I6 I7 I8]. split; simpl; try done.
  - by rewrite length_fmap.
  - intros j lj capacity Hj Hcap Hpos. apply list_lookup_fmap_Some in Hj as (l & -> & Hj). by eapply (I2 j l).
  - intros j lj Hj Hm. apply list_lookup_fmap_Some in Hj as (l & -> & Hj). by eapply (I3 j l).
  - intros j lj Hj Hlt. apply list_lookup_fmap_Some in Hj as (l & -> & Hj).
    unfold joined in *. simpl in *. rewrite length_fmap in Hlt. by eapply (I5 j l).
  - intros j lj Hj. apply list_lookup_fmap_Some in Hj as (l & -> & Hj). simpl. by rewrite (I7 j l).
  - unfold joined in *. simpl. by rewrite length_fmap.
Qed.

Lemma cancel_step_inv capacities x :
  Server.stage (srv x) = Returned -> ProcessInv capacities x ->
  ProcessInv capacities (mkProcess (srv x) (cancel_worker <$> workers x) (Joining 0)).
Proof.
  intros Hst [I1 I2 I3 I4 I5 I6 I7 I8]. split; simpl; try done.
  - by rewrite length_fmap.
  - intros j lj capacity Hj Hcap Hpos. apply list_lookup_fmap_Some in Hj as (l & -> & Hj). by eapply (I2 j l).
  - intros j lj Hj Hm. by apply list_lookup_fmap_Some in Hj as (l & -> & Hj).
  - intros j lj Hj Hlt. unfold joined in Hlt. simpl in Hlt. lia.
  - intros j lj Hj. apply list_lookup_fmap_Some in Hj as (l & -> & Hj). by eapply (I7 j l).
  - unfold joined. simpl. lia.
Qed.

(** [main] goes on among its joins and exits. *)
Lemma main_step_inv capacities x m :
  ProcessInv capacities x -> main_at x <> Serving -> m <> Serving ->
  (forall i l, workers x !! i = Some l -> (i < joined (mkProcess (srv x) (workers x) m))%nat -> stopped l) ->
  (joined (mkProcess (srv x) (workers x) m) <= length (workers x))%nat ->
  (forall r, m = Exited r -> r = result_ (srv x)) ->
  ProcessInv capacities (mkProcess (srv x) (workers x) m).
Proof. intros [I1 I2 I3 I4 I5 I6 I7 I8] Hx Hm Hj Hb Hr. split; simpl; eauto. Qed.

Lemma process_step_inv capacities e x y :
  transition e x y -> ProcessInv capacities x -> ProcessInv capacities y.
Proof.
  intros Hs Hx. destruct Hs as [x e s He Hs|x i e l l' Hl He1 He2 Hs|x Hm Hst|x i l Hm Hl Hst|x i Hm Hl
    |x since Hm Hd|x since Hm|x dt Hdt].
  - by eapply server_step_inv.
  - by eapply lane_step_inv.
  - by apply cancel_step_inv.
  - apply main_step_inv; [done|by rewrite Hm|done| |by apply lookup_lt_Some in Hl|done]. unfold joined. simpl. intros j lj Hj Hlt.
    destruct (decide (j = i)) as [->|Hne]; [congruence|].
    eapply (inv_joined _ _ Hx); [exact Hj|]. unfold joined. rewrite Hm. lia.
  - apply main_step_inv; [done|by rewrite Hm|done| |done|done]. unfold joined. simpl. intros j lj Hj Hlt.
    eapply (inv_joined _ _ Hx); [exact Hj|]. unfold joined. rewrite Hm.
    apply lookup_ge_None in Hl. lia.
  - apply main_step_inv; [done|by rewrite Hm|done| |done|congruence]. unfold joined. simpl. intros j lj Hj Hlt.
    eapply (inv_joined _ _ Hx); [exact Hj|]. unfold joined. by rewrite Hm.
  - apply main_step_inv; [done|by rewrite Hm|done| |done|congruence]. unfold joined. simpl. intros j lj Hj Hlt.
    eapply (inv_joined _ _ Hx); [exact Hj|]. unfold joined. by rewrite Hm.
  - by apply tick_step_inv.
Qed.

Lemma process_run_inv capacities t ev tr n :
  tr 0%nat = process_started capacities t -> run_of transition ev tr -> ProcessInv capacities (tr n).
Proof.
  intros H0' Hr. apply (stable_trace transition (ProcessInv capacities) ev tr 0 n); [|done|lia|].
  - intros e x y. apply process_step_inv.
  - rewrite H0'. apply started_process_inv.
Qed.

(** ** The parts of a run *)

Lemma server_run ev tr :
  run_of transition ev tr ->
  run_of (Server.step registered) (part_events server_label ev) (part_trace srv tr).
Proof.
  apply run_part. intros n e Hs. destruct Hs; try done. by apply Server.step_time.
Qed.

Lemma worker_run nobody capacities t i capacity ev tr :
  tr 0%nat = process_started capacities t -> capacities !! i = Some capacity ->
  run_of transition ev tr ->
  run_of WorkerLife.step (part_events (worker_label i) ev) (part_trace (worker_at nobody i) tr).
Proof.
  intros H0' Hi Hr. apply (run_part transition); [|done]. intros n e Hs.
  pose proof (process_run_inv capacities t ev tr n H0' Hr) as Hx.
  assert (exists l, workers (tr n) !! i = Some l) as [l Hl].
  { apply lookup_lt_is_Some. rewrite (inv_length _ _ Hx). by eapply lookup_lt_Some. }
  unfold worker_at. rewrite Hl. revert Hl. clear Hx.
  destruct Hs as [x e s He Hs|x j e lj l' Hj He1 He2 Hs|x Hm Hst|x j lj Hm Hj Hst|x j Hm Hj
    |x since Hm Hd|x since Hm|x dt Hdt]; simpl; intros Hl; rewrite ?Hl; try done.
  - case_decide as Hd; [subst; simplify_eq|].
    + rewrite list_lookup_insert_eq by (by eapply lookup_lt_Some). done.
    + by rewrite list_lookup_insert_ne, Hl.
  - rewrite list_lookup_fmap, Hl. simpl. apply life_cancel.
  - rewrite list_lookup_fmap, Hl. simpl. apply life_tick. lia.
Qed.

(** ** What the end of the process goes through *)

#[local] Ltac process_cases H :=
  destruct H as [x e s He H|x j e l l' Hl He1 He2 H|x Hm Hst|x j l Hm Hl Hst|x j Hm Hl
    |x d Hm Hd|x d Hm|x dt Hdt]; simpl in *.

Lemma process_clock e x y : transition e x y -> Server.now (srv x) <= Server.now (srv y).
Proof.
  intros Hs. process_cases Hs; try lia. by rewrite (server_own_step _ _ _ Hs He).
Qed.

Definition returned (x : process C) : Prop := Server.stage (srv x) = Returned.
Definition joining (i k : nat) (x : process C) : Prop := main_at x = Joining i /\ length (workers x) = k.
Definition shutting_down (since : Z) (x : process C) : Prop := main_at x = ShuttingDownRuntime since.
Definition gone (x : process C) : Prop := exists r, main_at x = Exited r.

Lemma cancel_until k :
  until transition (fun x => (main_at x = Serving /\ length (workers x) = k) /\ returned x) (joining 0 k).
Proof.
  unfold joining, returned. intros e x y Hs [[Hm' Hk] Hr]. process_cases Hs; try congruence.
  - left. by split; [|eapply returned_stays].
  - left. by rewrite length_insert.
  - right. by rewrite length_fmap.
  - left. by rewrite length_fmap.
Qed.

(** From one join to the next; after the last the runtime is shut down. *)
Lemma joining_until i k : (i < k)%nat -> until transition (joining i k) (joining (S i) k).
Proof.
  unfold joining. intros Hi e x y Hs [Hm' Hk]. process_cases Hs; try congruence.
  - by left.
  - left. by rewrite length_insert.
  - right. split; [congruence|done].
  - apply lookup_ge_None in Hl. rewrite Hm in Hm'. simplify_eq. lia.
  - left. by rewrite length_fmap.
Qed.

Lemma last_join k e x y : transition e x y -> joining k k x -> joining k k y \/ exists since, shutting_down since y.
Proof.
  unfold joining, shutting_down. intros Hs [Hm' Hk]. process_cases Hs; try congruence.
  - by left.
  - left. by rewrite length_insert.
  - apply lookup_lt_Some in Hl. rewrite Hm in Hm'. simplify_eq. lia.
  - right. by eexists.
  - left. by rewrite length_fmap.
Qed.

Lemma shutting_down_until since : until transition (shutting_down since) gone.
Proof.
  unfold shutting_down, gone. intros e x y Hs Hm'. process_cases Hs; try congruence;
    first [by left|right; by eexists].
Qed.

(** The worker that is awaited has stopped, and stays so. *)
Definition awaited_stopped (i k : nat) (x : process C) : Prop :=
  joining i k x /\ exists l, workers x !! i = Some l /\ stopped l.

Lemma awaited_until i k :
  until transition (awaited_stopped i k) (joining (S i) k).
Proof.
  unfold awaited_stopped, joining. intros e x y Hs [[Hm' Hk] (lw & Hlw & Hst')].
  process_cases Hs; try congruence.
  - left. by split; [|exists lw].
  - left. rewrite length_insert. split; [done|]. destruct (decide (j = i)) as [->|Hne].
    + simplify_eq. exists l'. rewrite list_lookup_insert_eq by (by eapply lookup_lt_Some).
      split; [done|]. by eapply stopped_stable.
    + exists lw. by rewrite list_lookup_insert_ne.
  - right. split; [congruence|done].
  - left. rewrite length_fmap. split; [done|]. exists (age dt lw). by rewrite list_lookup_fmap, Hlw.
Qed.

(** What a run of the process takes for granted: the runtime polls every worker, [main]'s own
    awaits go on when they are ready, and so does [server::run]. *)
Record GoesOn (capacities : list Z) ev tr : Prop := {
  goes_clock : clock_goes_on (fun x => Server.now (srv x)) tr;
  goes_select : fair transition (ServerDoes Select) ev tr;
  goes_grace : fair transition (ServerDoes Grace) ev tr;
  goes_sink : fair transition (ServerDoes SinkCloses) ev tr;
  goes_polled i : (i < length capacities)%nat -> fair transition (WorkerDoes i Polled) ev tr;
  goes_cancel : fair transition CancelsProxy ev tr;
  goes_join : fair transition Joins ev tr;
  goes_exit : fair transition Exits ev tr;
}.

Section a_run.
Context (capacities : list Z) (t : Z) (ev : nat -> option process_event) (tr : nat -> process C).
Context (Hstart : tr 0%nat = process_started capacities t) (Hrun : run_of transition ev tr).
Context (Hon : GoesOn capacities ev tr) (Hpos : Forall (fun capacity => 1 <= capacity) capacities).

Lemma run_inv n : ProcessInv capacities (tr n).
Proof. by eapply process_run_inv. Qed.

Lemma server_fair e :
  e <> Elapse -> fair transition (ServerDoes e) ev tr ->
  fair (Server.step registered) e (part_events server_label ev) (part_trace srv tr).
Proof.
  intros He. apply fair_part; [done|]. intros m [s Hs]. eexists. by eapply process_server.
Qed.

Lemma server_returns n : asked_to_stop (srv (tr n)) -> eventually returned tr n.
Proof.
  intros Ha.
  destruct (run_returns registered (part_events server_label ev) (part_trace srv tr) n) as (m & Hm & Hst);
    [by apply server_run|apply Hon|by apply server_fair; [|apply Hon]..|done|by exists m].
Qed.

Lemma proxy_cancelled n : main_at (tr n) = Serving -> returned (tr n) -> eventually (joining 0 (length capacities)) tr n.
Proof.
  intros Hm Hr. eapply (wf1 transition _ _ CancelsProxy ev tr n Hrun); [apply Hon|apply cancel_until| | |].
  - intros x y Hs [[_ Hk] _]. inversion Hs; subst. split; [done|]. simpl. by rewrite length_fmap.
  - intros x [[Hx _] Hst]. eexists. by apply process_cancel.
  - simpl. split; [|done]. split; [done|]. apply (inv_length _ _ (run_inv n)).
Qed.

(** The worker that is awaited stops: its life is a run of its own. *)
Lemma awaited_worker_stops i n :
  (i < length capacities)%nat -> main_at (tr n) <> Serving ->
  eventually (fun x => exists l, workers x !! i = Some l /\ stopped l) tr n.
Proof.
  intros Hi Hm. destruct (lookup_lt_is_Some_2 _ _ Hi) as [capacity Hc].
  pose proof (Forall_lookup_1 _ _ _ _ Hpos Hc) as Hcap. simpl in Hcap. set (nobody := born (C := C) 1 0).
  assert (forall m, exists l, workers (tr m) !! i = Some l) as Hw.
  { intros m. apply lookup_lt_is_Some. by rewrite (inv_length _ _ (run_inv m)). }
  assert (forall m, exists l, workers (tr m) !! i = Some l /\ worker_at nobody i (tr m) = l) as Hat.
  { intros m. destruct (Hw m) as [l Hl]. exists l. split; [done|]. unfold worker_at. by rewrite Hl. }
  destruct (stops_from_anywhere capacity t (part_events (worker_label i) ev) (part_trace (worker_at nobody i) tr) n)
    as (m & Hmn & Hst); [done| | | | | |].
  - unfold part_trace, worker_at. rewrite Hstart. simpl. rewrite list_lookup_fmap, Hc. apply rtc_refl.
  - by eapply worker_run.
  - apply (fair_part transition) with (WorkerDoes i Polled);
      [simpl; by rewrite decide_True| |by apply (goes_polled _ _ _ Hon i)].
    intros m [l' Hs]. destruct (Hat m) as (l & Hl & E). rewrite E in Hs. eexists. by eapply process_worker.
  - intros c k. destruct (goes_clock _ _ _ Hon c k) as (m & Hk & Hcm). exists m. split; [done|].
    destruct (Hat m) as (l & Hl & E). unfold part_trace. rewrite E.
    by rewrite (inv_clock _ _ (run_inv m) i l Hl).
  - destruct (Hat n) as (l & Hl & E). unfold part_trace. rewrite E.
    by apply (inv_cancelled _ _ (run_inv n) i l Hl).
  - exists m. split; [done|]. destruct (Hat m) as (l & Hl & E). exists l. split; [done|]. by rewrite <- E.
Qed.

Lemma awaited_is_joined i n :
  (i < length capacities)%nat -> joining i (length capacities) (tr n) ->
  eventually (joining (S i) (length capacities)) tr n.
Proof.
  intros Hi Hj.
  apply (eventually_trans (fun x => joining (S i) (length capacities) x \/ awaited_stopped i (length capacities) x)).
  { intros m _ [Hj'|Ha]; [by exists m|].
    apply (wf1 transition _ _ Joins ev tr m Hrun (goes_join _ _ _ Hon) (awaited_until i _)); [| |done].
    - intros x y Hs [[Hx Hk] (l & Hl & Hst)]. inversion Hs; subst; simplify_eq/=; [split; simpl; congruence|congruence].
    - intros x [[Hx _] (l & Hl & Hst)]. eexists. by eapply process_join. }
  destruct (awaited_worker_stops i n Hi) as (m & Hm & Hst); [by rewrite (proj1 Hj)|].
  destruct (until_trace (joining i (length capacities)) (joining (S i) (length capacities)) tr n m) as [Hx|Hq];
    [|done|done|by exists m; split; [|right; split]|].
  - intros k _. by apply (until_next transition _ _ ev), Hrun; apply joining_until.
  - destruct Hq as (k & Hk & HQ). exists k. split; [done|by left].
Qed.

Lemma all_joined n i :
  joining i (length capacities) (tr n) ->
  eventually (joining (length capacities) (length capacities)) tr n.
Proof.
  revert n. remember (length capacities - i)%nat as left_ eqn:El. revert i El.
  induction left_ as [|left_ IH]; intros i El n Hj.
  - assert (i <= length capacities)%nat as Hi.
    { destruct (decide (i <= length capacities)%nat) as [|Hgt]; [done|exfalso].
      pose proof (inv_bound _ _ (run_inv n)) as Hb. destruct Hj as [Hj _]. rewrite (inv_length _ _ (run_inv n)) in Hb. unfold joined in Hb. rewrite Hj in Hb. lia. }
    exists n. split; [done|]. by replace (length capacities) with i at 1 by lia.
  - apply (eventually_trans (joining (S i) (length capacities))).
    + intros m _. apply IH. lia.
    + apply awaited_is_joined; [lia|done].
Qed.

Lemma runtime_shut_down n :
  joining (length capacities) (length capacities) (tr n) ->
  eventually (fun x => exists since, shutting_down since x) tr n.
Proof.
  apply (wf1 transition _ _ Joins ev tr n Hrun (goes_join _ _ _ Hon)).
  - intros e x y. apply last_join.
  - intros x y Hs [Hx Hk]. inversion Hs; subst; simplify_eq/=; [|by eexists].
    exfalso. apply lookup_lt_Some in H2. rewrite Hx in *. simplify_eq. lia.
  - intros x [Hx Hk]. eexists. eapply process_joined; [done|]. apply lookup_ge_None. lia.
Qed.

Lemma exits since n : shutting_down since (tr n) -> eventually gone tr n.
Proof.
  apply (wf1_deadline transition (fun x => Server.now (srv x)) (since + BLOCKING_TASK_SHUTDOWN_GRACE)
    _ _ Exits ev tr n Hrun (goes_exit _ _ _ Hon) (goes_clock _ _ _ Hon)).
  - apply process_clock.
  - apply shutting_down_until.
  - intros x y Hs _. inversion Hs; subst. by eexists.
  - intros x Hx Hd. eexists. by eapply process_exit.
Qed.

(** Wherever [main] is, it goes on to its end. *)
Lemma process_ends n : asked_to_stop (srv (tr n)) -> eventually gone tr n.
Proof.
  intros Ha. apply (eventually_trans returned); [|by apply server_returns]. intros m _ Hr.
  assert (forall k, (exists since, shutting_down since (tr k)) -> eventually gone tr k) as Hx
    by (intros k [since Hs]; by eapply exits).
  assert (forall k i, joining i (length capacities) (tr k) -> eventually gone tr k) as Hj.
  { intros k i Hj. eapply eventually_trans, (all_joined _ _ Hj). intros k' _ Hj'.
    eapply eventually_trans, (runtime_shut_down _ Hj'). by auto. }
  destruct (main_at (tr m)) as [|i|since|r] eqn:Em.
  - eapply eventually_trans, (proxy_cancelled _ Em Hr). by eauto.
  - apply (Hj m i). split; [done|]. apply (inv_length _ _ (run_inv m)).
  - apply Hx. by exists since.
  - exists m. split; [done|by exists r].
Qed.
End a_run.

(** When [main] has exited its workers have stopped, with every request counted. *)
Lemma exited_worker capacities x r i l :
  Forall (fun capacity => 1 <= capacity) capacities -> ProcessInv capacities x ->
  main_at x = Exited r -> workers x !! i = Some l ->
  worker_phase (body l) = Stopped /\
  sent_total (metrics (body l)) + failed_total (metrics (body l)) + dropped_total (metrics (body l)) =
  offered (body l).
Proof.
  intros Hpos Hinv Hr Hl. assert (stopped l) as Hst.
  { apply (inv_joined _ _ Hinv i l Hl). unfold joined. rewrite Hr. by eapply lookup_lt_Some. }
  split; [done|]. apply stopped_counts; [|done].
  destruct (lookup_lt_is_Some_2 capacities i) as [capacity Hc].
  { rewrite <- (inv_length _ _ Hinv). by eapply lookup_lt_Some. }
  apply (inv_worker _ _ Hinv i l capacity Hl Hc). by apply (Forall_lookup_1 _ _ _ _ Hpos Hc).
Qed.
End process_lemmas.

(** * Properties *)

(** The process ends.  Once it is asked to stop - by a signal, or because a listener ended,
    failed or panicked - then in every run in which the runtime polls what is ready and time
    goes on, [main] exits: [server::run] has closed the sink and returned, the result is its
    result, and every worker of the proxy has stopped with each of its requests counted as sent,
    failed or dropped; whatever the connections, the upstreams and the blocking tasks do. *)
Theorem process_exits {C} `{ChannelLaws C ExportRequest} registered capacities t ev (tr : nat -> process C) n :
  Forall (fun capacity => 1 <= capacity) capacities ->
  tr 0%nat = process_started capacities t -> run_of (step registered) ev tr ->
  GoesOn registered capacities ev tr -> asked_to_stop (srv (tr n)) ->
  exists m, (n <= m)%nat /\ main_at (tr m) = Exited (result_ (srv (tr m))) /\
    Server.stage (srv (tr m)) = Returned /\
    forall i l, workers (tr m) !! i = Some l ->
      worker_phase (body l) = Stopped /\
      sent_total (metrics (body l)) + failed_total (metrics (body l)) + dropped_total (metrics (body l)) =
      offered (body l).
Proof.
  intros Hpos Hstart Hrun Hon Ha.
  destruct (process_ends registered capacities t ev tr Hstart Hrun Hon Hpos n Ha) as (m & Hm & r & Hr).
  pose proof (process_run_inv registered capacities t ev tr m Hstart Hrun) as Hinv.
  exists m. split; [done|]. split; [by rewrite Hr, (inv_result _ _ Hinv r Hr)|].
  split; [apply (inv_returned _ _ Hinv); by rewrite Hr|]. intros i l Hl. by eapply exited_worker.
Qed.

(** ** A run to evaluate examples with *)

(** SIGTERM while a connection stays open and an upstream does not answer. *)
Definition at_end : Z := SHUTDOWN_GRACE + DRAIN_GRACE.
Definition told_worker (w : route (list_channel ExportRequest)) (t : Z) (c : bool) (from : Z)
    (s : running) (m : main_stage) : process (list_channel ExportRequest) :=
  mkProcess s [sample_life w t c from] m.
Definition sending : route (list_channel ExportRequest) := sending_route false (Sending sample_request).
Definition drained_late (t : Z) (s : running) (m : main_stage) : process (list_channel ExportRequest) :=
  told_worker (emptied_route (mkMetrics 0 0 1) Stopped) t true SHUTDOWN_GRACE s m.
Definition closed_at (t : Z) : running := elapse t stuck_closed.

Definition told_process : list (process_event * process (list_channel ExportRequest)) := [
  (WorkerDoes 0 Offered, process_started [1] 0);
  (WorkerDoes 0 Polled, told_worker waiting_route 0 false 0 (launched 0) Serving);
  (ServerDoes Signal, told_worker sending 0 false 0 (launched 0) Serving);
  (ServerDoes Select, told_worker sending 0 false 0 (hear SigTerminate (launched 0)) Serving);
  (ClockTicks, told_worker sending 0 false 0 stuck_drain Serving);
  (ServerDoes Grace, told_worker sending SHUTDOWN_GRACE false 0 (elapse SHUTDOWN_GRACE stuck_drain) Serving);
  (ServerDoes SinkCloses, told_worker sending SHUTDOWN_GRACE false 0
     (cut_drain (elapse SHUTDOWN_GRACE stuck_drain) (Ok tt)) Serving);
  (CancelsProxy, told_worker sending SHUTDOWN_GRACE false 0 stuck_closed Serving);
  (WorkerDoes 0 Polled, told_worker sending SHUTDOWN_GRACE true 0 stuck_closed (Joining 0));
  (WorkerDoes 0 Polled, told_worker (sending_route false (Worker.Closing (Some sample_request)))
     SHUTDOWN_GRACE true 0 stuck_closed (Joining 0));
  (ClockTicks, told_worker (sending_route true (Worker.Draining (Some sample_request) 0 0))
     SHUTDOWN_GRACE true SHUTDOWN_GRACE stuck_closed (Joining 0));
  (WorkerDoes 0 Polled, told_worker (sending_route true (Worker.Draining (Some sample_request) 0 0))
     at_end true SHUTDOWN_GRACE (closed_at DRAIN_GRACE) (Joining 0));
  (WorkerDoes 0 Polled, told_worker (emptied_route (mkMetrics 0 0 0) (Worker.Draining None 0 1))
     at_end true SHUTDOWN_GRACE (closed_at DRAIN_GRACE) (Joining 0));
  (Joins, drained_late at_end (closed_at DRAIN_GRACE) (Joining 0));
  (Joins, drained_late at_end (closed_at DRAIN_GRACE) (Joining 1));
  (ClockTicks, drained_late at_end (closed_at DRAIN_GRACE) (ShuttingDownRuntime at_end));
  (Exits, drained_late (at_end + BLOCKING_TASK_SHUTDOWN_GRACE)
     (closed_at (DRAIN_GRACE + BLOCKING_TASK_SHUTDOWN_GRACE)) (ShuttingDownRuntime at_end))
].
Definition rest_process (n : nat) : process (list_channel ExportRequest) :=
  drained_late (at_end + BLOCKING_TASK_SHUTDOWN_GRACE + Z.of_nat n)
    (closed_at (DRAIN_GRACE + BLOCKING_TASK_SHUTDOWN_GRACE + Z.of_nat n)) (Exited (Ok tt)).

Definition process_ev : nat -> option process_event := played_ev told_process ClockTicks.
Definition process_tr : nat -> process (list_channel ExportRequest) := played_tr told_process rest_process.

Lemma told_to registered e (x y y' : process (list_channel ExportRequest)) :
  step registered e x y -> y = y' -> step registered e x y'.
Proof. by intros ? <-. Qed.

#[local] Ltac by_worker rule :=
  eapply told_to; [eapply (process_worker _ _ 0%nat); [reflexivity|done|done|rule]|reflexivity].
#[local] Ltac by_server rule := eapply told_to; [eapply process_server; [done|rule]|reflexivity].

Lemma told_process_plays : plays (step (fun _ => true)) told_process (rest_process 0).
Proof.
  repeat split; simpl.
  - by_worker ltac:(by apply (life_offer (born 1 0) sample_request); vm_compute).
  - by_worker ltac:(by apply (life_recv (sample_life waiting_route 0 false 0))).
  - by_server ltac:(apply (step_signal _ _ only_term SigTerminate); [set_solver|done|simpl; lia]).
  - by_server ltac:(by apply step_select_shutdown).
  - by apply (process_tick _ (told_worker sending 0 false 0 stuck_drain Serving) SHUTDOWN_GRACE).
  - by_server ltac:(by eapply step_grace).
  - by_server ltac:(by apply (step_closed _ _ (Ok tt))).
  - by apply (process_cancel _ (told_worker sending SHUTDOWN_GRACE false 0 stuck_closed Serving)).
  - by_worker ltac:(by apply (life_interrupted (sample_life sending SHUTDOWN_GRACE true 0))).
  - by_worker ltac:(by apply (life_close
      (sample_life (sending_route false (Worker.Closing (Some sample_request))) SHUTDOWN_GRACE true 0))).
  - by apply (process_tick _ (told_worker (sending_route true (Worker.Draining (Some sample_request) 0 0))
      SHUTDOWN_GRACE true SHUTDOWN_GRACE stuck_closed (Joining 0)) DRAIN_GRACE).
  - by_worker ltac:(apply (life_drain_late (sample_life
      (sending_route true (Worker.Draining (Some sample_request) 0 0)) at_end true SHUTDOWN_GRACE) None);
      [done|by left|done]).
  - by_worker ltac:(by apply (life_finish (sample_life
      (emptied_route (mkMetrics 0 0 0) (Worker.Draining None 0 1)) at_end true SHUTDOWN_GRACE))).
  - by apply (process_join _ (drained_late at_end (closed_at DRAIN_GRACE) (Joining 0)) 0%nat
      (sample_life (emptied_route (mkMetrics 0 0 1) Stopped) at_end true SHUTDOWN_GRACE)).
  - by apply (process_joined _ (drained_late at_end (closed_at DRAIN_GRACE) (Joining 1)) 1%nat).
  - by apply (process_tick _ (drained_late at_end (closed_at DRAIN_GRACE) (ShuttingDownRuntime at_end))
      BLOCKING_TASK_SHUTDOWN_GRACE).
  - by apply (process_exit _ (drained_late (at_end + BLOCKING_TASK_SHUTDOWN_GRACE)
      (closed_at (DRAIN_GRACE + BLOCKING_TASK_SHUTDOWN_GRACE)) (ShuttingDownRuntime at_end)) at_end).
Qed.

Lemma told_process_run : run_of (step (fun _ => true)) process_ev process_tr.
Proof.
  apply played_run; [apply told_process_plays|]. intros n.
  eapply told_to; [by apply (process_tick _ (rest_process n) 1)|].
  unfold rest_process, drained_late, told_worker, sample_life, closed_at, elapse, age. simpl.
  by rewrite Nat2Z.inj_succ, <- Z.add_1_r, !Z.add_assoc.
Qed.

Lemma rest_process_quiet e n : owed e -> ~ enabled (step (fun _ => true)) e (rest_process n).
Proof.
  intros He [y Hy]. inversion Hy as [? ? ? ? Hs|? i ? l l' Hl ? ? Hs| | | | | |]; subst; simplify_eq/=;
    try done; simpl in He.
  - inversion Hs; subst; simplify_eq/=; done.
  - destruct i as [|i]; simplify_eq/=. inversion Hs; subst; simplify_eq/=; done.
Qed.

Lemma told_process_goes_on : GoesOn (fun _ => true) [1] process_ev process_tr.
Proof.
  split; try (by intros; apply played_fair; intros; apply rest_process_quiet).
  apply (played_clock _ _ (fun x => Server.now (srv x))). intros t n. exists (Z.to_nat t + n)%nat. split; [lia|].
  simpl. unfold DRAIN_GRACE, BLOCKING_TASK_SHUTDOWN_GRACE, SHUTDOWN_GRACE, secs. lia.
Qed.

Lemma process_exits_witness :
  exists m, (3 <= m)%nat /\ main_at (process_tr m) = Exited (result_ (srv (process_tr m))) /\
    main_at (rest_process 0) = Exited (Ok tt) /\
    map body (workers (rest_process 0)) = [emptied_route (mkMetrics 0 0 1) Stopped].
Proof.
  destruct (process_exits (fun _ => true) [1] 0 process_ev process_tr 3
    (proj2 (Forall_cons _ _ _) (conj (Z.le_refl 1) (proj2 (Forall_nil _) I)))
    eq_refl told_process_run told_process_goes_on (or_introl eq_refl)) as (m & Hm & He & _).
  exists m. split; [exact Hm|]. split; [exact He|]. split; reflexivity.
Defined.
