(* ===== verification/Main.v ===== *)
(** * From the command line to a running receiver ([src/src/main.rs], [Sink::from_settings_with_proxy])

    What [main] does before the listeners run: the environment, the tracing, [init], the
    configuration, the proxy, the dry run, the files of the sink.  The theorems compose the parts: what [init]
    writes is what the next start reads, a dry run changes no file, and the log of a receiver
    is right from its opening to its last sync. *)

From Stdlib Require Import Strings.Byte.
From S2P Require Import Prelude Io Otlp AggState AggIngest AggBatch Storage Health Pretty Target Unicode Path Config Admission Cli Channel Router Client Rotation Sink Server.

Local Open Scope Z_scope.

(** ** The environment *)

Definition is_cleared (entry : string * string) : bool :=
  str_is_empty entry.2 && starts_with "OTEL_LOGGER_" entry.1.

(** [clear_empty_otel_logger_env]: the variables that stay. *)
Definition clear_empty_otel_logger_env (vars : list (string * string)) : list (string * string) :=
  List.filter (fun entry => negb (is_cleared entry)) vars.

Fixpoint var_of (vars : list (string * string)) (key : string) : option string :=
  match vars with
  | [] => None
  | (k, v) :: vars => if String.eqb k key then Some v else var_of vars key
  end.

(** [std::env::var] of a variable that is Unicode. *)
Definition env_var_of (vars : list (string * string)) (key : string) : result string VarError :=
  match var_of vars key with Some v => Ok v | None => Err NotPresent end.

(** [String::from_utf8]; invalid text is an error of another kind. *)
Definition decode (bytes : list byte) : result string ErrorKind :=
  let text := String.string_of_list_byte bytes in
  if is_utf8 text then Ok text else Err OtherError.

(** What the process sees of its environment and of the disk. *)
Definition host_of (vars : list (string * string)) (d : Disk) : Host := {|
  var_os := var_of vars;
  try_exists := fun path => Ok (is_there path d);
  read_to_string := fun path =>
    match files d !! path with
    | Some bytes => decode bytes
    | None => Err (if is_there path d then OtherError else NotFound)
    end;
|}.

(** ** Opening the sink *)

(** What the start meets: today, what a directory holds when it is cleaned up, the terminals, and
    whether the thread of the diagnostics and the runtime come up. *)
Record StartEnv `{NaiveDates} := mkStart {
  start_today : NaiveDate;
  start_julian_day : Z;
  dir_view : string -> DirView;
  scan_result : string -> result unit ErrorKind;
  stdout_is_terminal : bool;
  stderr_is_terminal : bool;
  stderr_thread : result unit ErrorKind;
  runtime_built : result unit ErrorKind;
}.

Section start.
Context `{World} `{NaiveDates} {C : Type} `{ChannelOps C ExportRequest}.

Definition open_jsonl (env : StartEnv) (log_sink : option LogSink) (d : Disk)
    : Disk * result (option JsonlWriter) OpenError :=
  match log_sink with
  | None => (d, Ok None)
  | Some (File path) =>
      match open_log_file_sync path d with
      | (d, Ok writer) => (d, Ok (Some (FileWriter writer)))
      | (d, Err e) => (d, Err e)
      end
  | Some (Directory dir keep_days) =>
      match open_rotated_sync (dir_view env dir) (start_today env) (start_julian_day env)
              dir keep_days d with
      | (d, Ok roller) => (d, Ok (Some (Roller roller)))
      | (d, Err e) => (d, Err e)
      end
  end.

(** The log is opened first; the files of human-readable output are never coloured. *)
Definition from_settings_with_proxy (env : StartEnv) (vars : string -> option string)
    (settings : Settings) (router : option (ProxyRouter C)) (d : Disk)
    : Disk * result (SinkInner C * list PrettyTarget) OpenError :=
  match open_jsonl env (s_log_sink settings) d with
  | (d, Err e) => (d, Err e)
  | (d, Ok file) =>
      let color := enabled_for_stdout (s_color settings) vars (stdout_is_terminal env) in
      let '(out, targets) :=
        if negb (s_no_stdout settings) then (Some (mkDest output_spawn color), [TargetStdout])
        else (None, []) in
      let sink pretty :=
        mkSink (s_summary settings) health_default file out pretty aggregator_new router in
      match s_pretty_log_dir settings with
      | None => (d, Ok (sink None, targets))
      | Some dir =>
          match open_pretty_log_sync (start_today env) dir d with
          | (d, Err e) => (d, Err e)
          | (d, Ok roller) =>
              (d, Ok (sink (Some (mkDest output_spawn false)), targets ++ [TargetFile roller]))
          end
      end
  end.

(** ** [main] *)

Inductive MainError :=
| ParseFailed (message : string)
| TracingFailed (kind : ErrorKind)
| RuntimeFailed (kind : ErrorKind)
| DryRunWithInit
| NoConfigPath
| ConfigFailed (e : ConfigError)
| SettingsFailed (e : CliError)
| QueueTooLong (capacity : Z)
| ClientFailed (e : BuildError)
| OpenFailed (e : OpenError)
| BindFailed (e : Error).

(** Where [main] gets to: [init]'s message, the addresses of a dry run, or the listeners. *)
Inductive progress :=
| Wrote (message : string)
| Probed (grpc http : SocketAddr)
| Serving (settings : Settings) (sink : SinkInner C) (writers : list PrettyTarget).

(** What [main] says on the diagnostics. *)
Inductive notice :=
| UnrotatedStdout
| ProxyNotStarted (e : MainError)
| DryRunProbed (grpc http : SocketAddr).

(** [tracing_subscriber::EnvFilter]: its syntax, strict and with what is invalid left out. *)
Class EnvFilters := {
  EnvFilter : Type;
  filter_try_new : string -> option EnvFilter;
  filter_new : string -> EnvFilter;
}.

(** What is set of [tracing_subscriber::fmt]. *)
Record Tracing `{EnvFilters} := mkTracing {
  with_env_filter : EnvFilter;
  with_target : bool;
  with_ansi : bool;
  log_internal_errors : bool;
}.

Definition env_filter `{EnvFilters} (vars : list (string * string)) : EnvFilter :=
  let fallback := default (filter_new "info") (filter_try_new "info") in
  match env_var_of vars "OTEL_LOGGER_LOG" with
  | Ok directives => default fallback (filter_try_new directives)
  | Err _ => fallback
  end.

Definition init_tracing `{EnvFilters} (env : StartEnv) (vars : list (string * string))
    : result Tracing MainError :=
  match stderr_thread env with
  | Err kind => Err (TracingFailed kind)
  | Ok _ =>
      Ok (mkTracing _ (env_filter vars) false
            (color_enabled_for_stderr (var_of vars) (stderr_is_terminal env)) false)
  end.

Definition warn_if_stdout_unrotated (env : StartEnv) (settings : Settings) : list notice :=
  if warns_unrotated_stdout settings (stdout_is_terminal env) then [UnrotatedStdout] else [].

Context (race : gmap string (list byte) -> gmap string (list byte)).

Definition run_init (h : Host) (path : option string) (force : bool) (profile : InitProfile)
    (d : Disk) : Disk * result string MainError :=
  match
    match path with
    | Some p => Some (expand_current_user_path (var_os h) p)
    | None => default_config_path h
    end
  with
  | None => (d, Err NoConfigPath)
  | Some dest =>
      match write_with_profile race dest force profile d with
      | (d, Err e) => (d, Err (ConfigFailed e))
      | (d, Ok outcome) =>
          let verb := match outcome with Created => "Created" | Overwrote => "Overwrote" end in
          (d, Ok (verb +:+ " config file: " +:+ dest))
      end
  end.

Context `{Toml} `{Crates} `{Binder} `{SemaphoreOps Sem} (show : SocketAddr -> string).
(** [Cli::parse]: the command line with the variables clap reads. *)
Context (parse : list (string * string) -> result Cli string).

Definition build_client (route : ProxyRoute) (timeout_ms : Z) : result unit MainError :=
  match client_build route timeout_ms with Ok _ => Ok tt | Err e => Err (ClientFailed e) end.

(** The dry run, or the opening of the sink. *)
Definition start (env : StartEnv) (h : Host) (settings : Settings)
    (router : option (ProxyRouter C)) (d : Disk) : Disk * list notice * result progress MainError :=
  if s_dry_run settings then
    match probe_settings (scan_result env) (start_today env) (s_log_sink settings)
            (s_pretty_log_dir settings) d with
    | (d, Err e) => (d, [], Err (OpenFailed e))
    | (d, Ok _) =>
        match probe_binds show [] (s_grpc_addr settings) (s_http_addr settings) with
        | Err e => (d, [], Err (BindFailed e))
        | Ok (grpc, http) => (d, [DryRunProbed grpc http], Ok (Probed grpc http))
        end
    end
  else
    match from_settings_with_proxy env (var_os h) settings router d with
    | (d, Err e) => (d, [], Err (OpenFailed e))
    | (d, Ok (sink, writers)) => (d, [], Ok (Serving settings sink writers))
    end.

(** The proxy first, when it is configured. *)
Definition start_router (settings : Settings) : result (option (ProxyRouter C)) MainError :=
  match s_proxy settings with
  | None => Ok None
  | Some proxy =>
      match spawn_router MAX_PERMITS QueueTooLong build_client proxy with
      | Err e => Err e
      | Ok router => Ok (Some router)
      end
  end.

(** The receiver: the configuration, the settings, the warning, the runtime and what it runs. *)
Definition start_receiver (env : StartEnv) (vars : list (string * string)) (cli : Cli) (d : Disk)
    : Disk * list notice * result progress MainError :=
  let h := host_of vars d in
  match load h (config cli) with
  | Err e => (d, [], Err (ConfigFailed e))
  | Ok config =>
      match merge (env_var_of vars) (var_os h) cli config with
      | Err e => (d, [], Err (SettingsFailed e))
      | Ok settings =>
          let warned := warn_if_stdout_unrotated env settings in
          match runtime_built env with
          | Err kind => (d, warned, Err (RuntimeFailed kind))
          | Ok _ =>
              match start_router settings with
              | Err e => (d, warned ++ [ProxyNotStarted e], Err e)
              | Ok router =>
                  let '(d, told, r) := start env h settings router d in (d, warned ++ told, r)
              end
          end
      end
  end.

Definition main_ `{EnvFilters} (env : StartEnv) (vars : list (string * string)) (d : Disk)
    : Disk * list notice * result progress MainError :=
  let vars := clear_empty_otel_logger_env vars in
  match parse vars with
  | Err e => (d, [], Err (ParseFailed e))
  | Ok cli =>
      match init_tracing env vars with
      | Err e => (d, [], Err e)
      | Ok _ =>
          match command cli with
          | Some (Init path force daemon) =>
              if dry_run cli then (d, [], Err DryRunWithInit)
              else
                let profile := if daemon then ProfileDaemon else ProfileDefault in
                match run_init (host_of vars d) (or_else path (config cli)) force profile d with
                | (d, Ok message) => (d, [], Ok (Wrote message))
                | (d, Err e) => (d, [], Err e)
                end
          | None => start_receiver env vars cli d
          end
      end
  end.

End start.

(** * Lemmas *)

Lemma var_of_cleared vars key :
  starts_with "OTEL_LOGGER_" key = false -> var_of (clear_empty_otel_logger_env vars) key = var_of vars key.
Proof.
  intros Hk. induction vars as [|[k v] vars IH]; [done|]. unfold clear_empty_otel_logger_env in *.
  simpl. unfold is_cleared at 1. simpl. destruct (String.eqb_spec k key) as [->|Hne].
  - rewrite Hk, andb_false_r. simpl. by rewrite String.eqb_refl.
  - case_match; simpl; [|done]. by rewrite (proj2 (String.eqb_neq _ _) Hne).
Qed.

Lemma var_of_cleared_nonempty vars key v :
  var_of (clear_empty_otel_logger_env vars) key = Some v ->
  starts_with "OTEL_LOGGER_" key = true -> v <> ""%string.
Proof.
  intros Hv Hk ->. induction vars as [|[k v] vars IH]; [done|].
  unfold clear_empty_otel_logger_env in *. simpl in Hv. unfold is_cleared at 1 in Hv.
  simpl in Hv. destruct (str_is_empty v && starts_with "OTEL_LOGGER_" k) eqn:E; simpl in Hv;
    [by apply IH|].
  destruct (String.eqb_spec k key) as [->|]; [|by apply IH]. simplify_eq/=. by rewrite Hk in E.
Qed.

Lemma template_decodes profile :
  decode (String.list_byte_of_string (render_config_template profile)) =
  Ok (render_config_template profile).
Proof. by destruct profile; vm_compute. Qed.

Lemma merge_dry_run `{SemaphoreOps Sem} env vars cli config s :
  merge env vars cli config = Ok s -> s_dry_run s = dry_run cli.
Proof.
  unfold merge, merge_with_home, result_bind. intros Hm. repeat case_match; by simplify_eq/=.
Qed.

(** Probing makes missing files, empty, and changes no content. *)
Lemma create_dir_contents {A} (f : ErrorKind -> OpenError) (op : Disk -> Disk * result A ErrorKind) d p :
  (forall d, contents (op d).1 p = contents d p) ->
  contents (with_context f op d).1 p = contents d p.
Proof. intros Hop. unfold with_context. specialize (Hop d). by destruct (op d) as [? []]. Qed.

Lemma create_private_dir_contents dir d p :
  contents (create_private_dir dir d).1 p = contents d p.
Proof.
  unfold contents. by rewrite create_private_dir_files.
Qed.

Lemma create_parent_contents path d p : contents (create_parent path d).1 p = contents d p.
Proof.
  unfold create_parent. destruct (parent path) as [dir|]; [|done].
  destruct (str_is_empty dir); [done|]. apply create_private_dir_contents.
Qed.

Lemma append_file_probe_contents path d p :
  contents (append_file_probe path d).1 p = contents d p.
Proof.
  unfold append_file_probe, io_bind. pose proof (open_file_contents path d p) as H.
  by destruct (open_file path d) as [? []].
Qed.

Lemma probe_log_file_contents path d p : contents (probe_log_file path d).1 p = contents d p.
Proof.
  unfold probe_log_file.
  pose proof (create_dir_contents (CreateDirectory path) (create_parent path) d p
    (fun d => create_parent_contents path d p)) as Hc.
  destruct (with_context _ _ d) as [d1 []]; simpl in Hc; [|done]. rewrite <- Hc.
  apply create_dir_contents. intros d2. apply append_file_probe_contents.
Qed.

Lemma probe_settings_contents `{NaiveDates} scan date log_sink pretty d p :
  contents (probe_settings scan date log_sink pretty d).1 p = contents d p.
Proof.
  unfold probe_settings.
  assert (forall q d, contents (probe_log_file q d).1 p = contents d p) as Hprobe
    by (intros; apply probe_log_file_contents).
  match goal with |- context [let '(_, _) := ?m in _] =>
    assert (contents m.1 p = contents d p) as Hm end.
  { destruct log_sink as [[path|dir keep]|]; [done| |done].
    pose proof (create_dir_contents (CreateDirectory dir) (create_private_dir dir) d p
      (fun d => create_private_dir_contents dir d p)) as Hc.
    destruct (with_context _ _ d) as [d1 []]; simpl in Hc; [|done].
    destruct (scan dir); [|done]. by rewrite Hprobe. }
  destruct (match log_sink with None => _ | Some _ => _ end) as [d1 []]; simpl in Hm; [|done].
  destruct pretty; [|done]. by rewrite Hprobe.
Qed.

(** With a log file there are no files of human-readable output. *)
Lemma merge_file_sink `{SemaphoreOps Sem} env vars cli config s path :
  merge env vars cli config = Ok s -> s_log_sink s = Some (File path) ->
  s_pretty_log_dir s = None.
Proof.
  unfold merge, merge_with_home, result_bind. intros Hm Hs.
  destruct (resolve_log_sink _ _ _ _) as [sink|]; [|done].
  destruct (resolve_pretty_log_dir _ sink) as [pretty|] eqn:Hp; [|done].
  assert (s_log_sink s = sink /\ s_pretty_log_dir s = pretty) as [Hs1 <-]
    by (repeat case_match; by simplify_eq/=).
  rewrite Hs in Hs1. subst sink. unfold resolve_pretty_log_dir in Hp.
  repeat case_match; by simplify_eq/=.
Qed.

Section opening_lemmas.
Context `{World, NaiveDates, ChannelOps C ExportRequest}.

(** A sink opened on a log file: a fresh one, the file repaired and the others as before. *)
Lemma open_file_sink env varf settings router d d1 (sink : SinkInner C) writers path :
  from_settings_with_proxy env varf settings router d = (d1, Ok (sink, writers)) ->
  s_log_sink settings = Some (File path) -> s_pretty_log_dir settings = None ->
  sink_file sink = Some (FileWriter (mkAppend path None)) /\
  aggregator sink = aggregator_new /\
  (forall p, p <> path -> contents d1 p = contents d p) /\
  contents d1 path = complete_lines (contents d path).
Proof.
  unfold from_settings_with_proxy. intros Hopen Hs Hp. rewrite Hs, Hp in Hopen.
  unfold open_jsonl, open_log_file_sync in Hopen.
  pose proof (fun p => create_dir_contents (CreateDirectory path) (create_parent path) d p
    (fun d => create_parent_contents path d p)) as Hc.
  destruct (with_context (CreateDirectory path) _ d) as [d0 [[]|e]]; [|done]. simpl in Hc.
  pose proof (append_file_open_spec path d0) as Hspec. unfold with_context in Hopen.
  destruct (append_file_open path d0) as [d2 [t|e]]; [|done].
  destruct Hspec as (Hoth & _ & -> & Hthis).
  assert (d1 = d2 /\ sink_file sink = Some (FileWriter (mkAppend path None)) /\
    aggregator sink = aggregator_new) as (-> & Hf & Ha)
    by (destruct (negb _); by simplify_eq/=).
  split; [done|]. split; [done|]. split; [intros p Hne; by rewrite Hoth|].
  by rewrite Hthis, Hc.
Qed.

Lemma open_sink_proxy env varf settings router d d1 (sink : SinkInner C) writers :
  from_settings_with_proxy env varf settings router d = (d1, Ok (sink, writers)) -> proxy sink = router.
Proof.
  unfold from_settings_with_proxy. destruct (open_jsonl _ _ d) as [d0 [w|]]; [|done].
  destruct (negb _), (s_pretty_log_dir settings); simpl; repeat case_match; intros; by simplify_eq/=.
Qed.

Context `{Toml, Crates, Binder, SemaphoreOps Sem}.

Lemma start_opens show env h settings router d d1 told settings' (sink : SinkInner C) writers :
  start show env h settings router d = (d1, told, Ok (Serving settings' sink writers)) ->
  settings' = settings /\
  from_settings_with_proxy env (var_os h) settings router d = (d1, Ok (sink, writers)).
Proof.
  unfold start. destruct (s_dry_run settings).
  - destruct (probe_settings _ _ _ _ d) as [d' []]; [|done].
    by destruct (probe_binds _ _ _ _) as [[]|].
  - destruct (from_settings_with_proxy _ _ _ _ _) as [d' [[s w]|]]; [|done].
    intros Hs. by simplify_eq.
Qed.

Lemma main_opens `{EnvFilters} race show parse env vars d d1 told settings (sink : SinkInner C) writers :
  main_ race show parse env vars d = (d1, told, Ok (Serving settings sink writers)) ->
  exists varf router, from_settings_with_proxy env varf settings router d = (d1, Ok (sink, writers)) /\
    start_router settings = Ok router /\
    exists env_var var_os cli config, merge env_var var_os cli config = Ok settings.
Proof.
  unfold main_. intros Hmain. destruct (parse _) as [cli|]; [|done].
  destruct (init_tracing _ _); [|done]. destruct (command cli) as [[]|].
  { destruct (dry_run cli); [done|]. by destruct (run_init _ _ _ _ _ _) as [? []]. }
  unfold start_receiver in Hmain. destruct (load _ _) as [cfg|]; [|done].
  destruct (merge _ _ cli cfg) as [settings'|] eqn:Hm; [|done].
  destruct (runtime_built env); [|done]. destruct (start_router settings') as [router|] eqn:Hr; [|done].
  destruct (start _ _ _ settings' router d) as [[d' told'] r] eqn:Es. simplify_eq.
  apply start_opens in Es as [-> Hopen].
  eexists _, _. split; [exact Hopen|]. split; [done|]. by eexists _, _, _, _.
Qed.
End opening_lemmas.

(** * Properties *)

(** C37. What [init] writes is what the next start reads: after [init] without [--path] (or with
    the path that [--config] names) succeeded, loading the configuration with the same variables
    and the same [--config] finds the file and parses exactly the generated text, whatever [~]
    or the default location stand for. *)
Theorem init_writes_what_load_reads `{Toml} race vars config_path force profile d d' message :
  run_init race (host_of vars d) config_path force profile d = (d', Ok message) ->
  exists path,
    files d' !! path = Some (String.list_byte_of_string (render_config_template profile)) /\
    load (host_of vars d') config_path =
      match from_str (render_config_template profile) with
      | Ok config => Ok config
      | Err span =>
          Err (InvalidToml path (option_map (error_position (render_config_template profile)) span))
      end.
Proof.
  unfold run_init. intros Hinit. destruct (match config_path with None => _ | Some _ => _ end)
    as [dest|] eqn:Hdest; [|done].
  destruct (write_with_profile race dest force profile d) as [d1 [o|e]] eqn:Hw; [|done].
  simplify_eq. apply write_with_profile_written in Hw. exists dest. split; [done|].
  assert (load (host_of vars d') config_path = load_from (host_of vars d') dest) as ->.
  { unfold load, load_with_home. destruct config_path as [p|]; simplify_eq/=;
      [|rewrite (Hdest : default_config_path (host_of vars d') = Some dest)];
      unfold is_there; rewrite bool_decide_true by (by eexists); done. }
  unfold load_from. simpl. rewrite Hw, template_decodes. done.
Qed.

(** A dry run leaves everything as it was: with [--dry-run] no file changes its contents (a
    log that does not exist yet may be left empty), [init] writes nothing and the receiver never
    starts to serve. *)
Theorem dry_run_changes_nothing `{World, NaiveDates, ChannelOps C ExportRequest, Toml, Crates,
    Binder, SemaphoreOps Sem, EnvFilters} race show parse env vars d cli :
  parse (clear_empty_otel_logger_env vars) = Ok cli -> dry_run cli = true ->
  let '(d', _, r) := main_ (C := C) race show parse env vars d in
  (forall p, contents d' p = contents d p) /\
  match r with Ok (Wrote _) | Ok (Serving _ _ _) => False | _ => True end.
Proof.
  intros Hp Hdry. unfold main_. rewrite Hp. destruct (init_tracing _ _); [|done].
  destruct (command cli) as [[]|]; [by rewrite Hdry|].
  unfold start_receiver. destruct (load _ _) as [cfg|]; [|done].
  destruct (merge _ _ cli cfg) as [settings|] eqn:Hm; [|done].
  apply merge_dry_run in Hm. rewrite Hdry in Hm.
  destruct (runtime_built env); [|done]. destruct (start_router settings) as [router|]; [|done].
  unfold start. rewrite Hm.
  pose proof (probe_settings_contents (scan_result env) (start_today env) (s_log_sink settings)
    (s_pretty_log_dir settings) d) as Hc.
  destruct (probe_settings _ _ _ _ d) as [d' []]; [|done]. simpl in Hc.
  by destruct (probe_binds _ _ _ _) as [[]|].
Qed.

(** C4. From the start to the last sync: when [main] serves with [--log-file], then in every
    state its sink reaches - handlers, writers and shutdown interleaved in any way, writes
    failing at any point - the file holds the complete lines it held before the start, followed
    by the lines of exactly the batches persisted since, in order; the totals are those of the
    counted batches from zero, and each of these was persisted.  Starting changes no other
    file. *)
Theorem log_from_start_to_end `{World, NaiveDates, ChannelOps C ExportRequest, Toml, Crates,
    Binder, SemaphoreOps Sem, EnvFilters} race show parse env vars d d1 settings (sink : SinkInner C) writers
    told path to_vec render x :
  main_ race show parse env vars d = (d1, told, Ok (Serving settings sink writers)) ->
  s_log_sink settings = Some (File path) ->
  Sink.reachable to_vec render sink d1 x ->
  (forall p, p <> path -> contents d1 p = contents d p) /\
  (exists t, sink_file (inner x) = Some (FileWriter t) /\ Storage.file t = path /\
    logical contents t (disk x) =
      complete_lines (contents d path) ++ concat (map (line_of to_vec) (persisted x))) /\
  aggregator (inner x) = ingest_all aggregator_new (counted x) /\
  persisted x ≡ₚ counted x ++ uncounted (Sink.tasks x).
Proof.
  intros Hmain Hfile Hr.
  destruct (main_opens _ _ _ _ _ _ _ _ _ _ _ Hmain) as (varf & router & Hopen & _ & ? & ? & ? & ? & Hm).
  destruct (open_file_sink _ _ _ _ _ _ _ _ _ Hopen Hfile (merge_file_sink _ _ _ _ _ _ Hm Hfile))
    as (Hsink & Hagg & Hoth & Hthis).
  assert (forall t, sink_file sink = Some (FileWriter t) -> rollback_ok contents t d1) as Hok.
  { rewrite Hsink. by intros t [= <-] n [=]. }
  destruct (server_reachable_inv to_vec render sink d1 x Hok Hr) as [Ha Hc _ Hl].
  rewrite Hagg in Ha. split; [done|]. split; [|done].
  destruct (Hl _ Hsink) as (t & Ht & Hft & _ & Hlog). exists t. split; [done|].
  split; [done|]. rewrite Hlog. unfold logical at 1. simpl. by rewrite Hthis.
Qed.

(** ** Witnesses *)

#[local] Existing Instance sample_world.
#[local] Existing Instance sample_dates.

(** A parser that accepts any text, and a system that gives out each address once. *)
#[local] Instance sample_toml : Toml := {| from_str := fun _ => Ok config_default |}.
#[local] Instance sample_binder : Binder := {|
  bind := fun held addr => if decide (addr ∈ held) then Err "in use"%string else Ok addr
|}.

(** Any text is a filter. *)
#[local] Instance sample_filters : EnvFilters := {|
  filter_try_new := fun s => Some s;
  filter_new := fun s => s;
|}.

Definition sample_vars : list (string * string) :=
  [("OTEL_LOGGER_CONFIG", ""); ("HOME", "/home/a")]%string.

Definition blank_cli (command : option Commands) (log_file : option string) (dry : bool) : Cli :=
  mkCli command None None None None None log_file None None None None None None dry
    None None [] None None [] None.

(** A log whose last line was torn. *)
Definition torn_disk : Disk := mkDisk {["log"%string := [x61; x0a; x62]]} 0 ∅ [] sample_perms.

Definition sample_start : StartEnv :=
  @mkStart sample_dates "2026-07-01"%string 7 (fun _ => sample_view) (fun _ => Ok tt) false false (Ok tt) (Ok tt).

Definition sample_main (dry : bool) :=
  main_ (C := list_channel ExportRequest) id (fun _ => "addr"%string)
    (fun _ => Ok (blank_cli None (Some "log"%string) dry)) sample_start sample_vars torn_disk.

Lemma init_writes_what_load_reads_witness :
  exists d' message,
    run_init id (host_of sample_vars torn_disk) None false ProfileDaemon torn_disk = (d', Ok message) /\
    message = "Created config file: /home/a/.config/otel-logger/config.toml"%string /\
    load (host_of sample_vars d') None = Ok config_default.
Proof.
  eexists _, _. split; [vm_compute; reflexivity|]. split; [reflexivity|].
  match goal with |- load (host_of _ ?d') _ = _ =>
    destruct (init_writes_what_load_reads id sample_vars None false ProfileDaemon torn_disk d'
      "Created config file: /home/a/.config/otel-logger/config.toml") as (path & _ & H)
  end; [vm_compute; reflexivity|]. rewrite H. reflexivity.
Defined.

Lemma dry_run_changes_nothing_witness :
  (exists grpc http, (sample_main true).2 = Ok (Probed grpc http)) /\
  forall p, contents (sample_main true).1.1 p = contents torn_disk p.
Proof.
  split; [eexists _, _; vm_compute; reflexivity|].
  pose proof (dry_run_changes_nothing (C := list_channel ExportRequest) id (fun _ => "addr"%string)
    (fun _ => Ok (blank_cli None (Some "log"%string) true)) sample_start sample_vars torn_disk
    _ eq_refl eq_refl) as H.
  fold (sample_main true) in H. destruct (sample_main true) as [[d told] r]. apply H.
Defined.

Definition served_settings : Settings :=
  mkSettings DEFAULT_GRPC_ADDR DEFAULT_HTTP_ADDR 8 (secs 5) (Some (File "log")) false None false
    Auto false None.
Definition served_sink : SinkInner (list_channel ExportRequest) :=
  mkSink false health_default (Some (FileWriter (mkAppend "log"%string None)))
    (Some (mkDest output_spawn false)) None aggregator_new None.
Definition served_disk : Disk := (sample_main false).1.1.

Lemma sample_main_serves :
  sample_main false = (served_disk, [UnrotatedStdout], Ok (Serving served_settings served_sink [TargetStdout])).
Proof. vm_compute. reflexivity. Qed.

(** The receiver of the log takes one batch. *)
Definition served_state : server :=
  let '(s, d, _) := persist sample_to_vec sample_env sample_logs served_sink served_disk in
  let '(s, _) := count sample_logs s in
  mkServer s d true {[0%nat := Publishing sample_logs false]} [sample_logs] [sample_logs].

Lemma served_state_reachable :
  Sink.reachable sample_to_vec sample_render served_sink served_disk served_state.
Proof.
  eapply rtc_l; [apply (step_begin _ _ _ 0%nat sample_logs); reflexivity|].
  eapply rtc_l; [eapply (step_persist _ _ _ 0%nat sample_logs sample_env);
    [reflexivity|vm_compute; reflexivity]|].
  eapply rtc_l; [eapply (step_count _ _ _ 0%nat sample_logs);
    [reflexivity|vm_compute; reflexivity]|].
  match goal with |- rtc _ ?x _ => replace x with served_state by (vm_compute; reflexivity) end.
  apply rtc_refl.
Qed.

Lemma log_from_start_to_end_witness :
  (exists t, sink_file (inner served_state) = Some (FileWriter t) /\
    logical contents t (disk served_state) =
      complete_lines [x61; x0a; x62] ++ concat (map (line_of sample_to_vec) [sample_logs])) /\
  contents (disk served_state) "log" = [x61; x0a; x7b; x7d; x0a].
Proof.
  split; [|vm_compute; reflexivity].
  destruct (log_from_start_to_end (C := list_channel ExportRequest) id (fun _ => "addr"%string)
    (fun _ => Ok (blank_cli None (Some "log"%string) false)) sample_start sample_vars torn_disk
    _ _ _ _ _ "log" sample_to_vec sample_render _ sample_main_serves eq_refl served_state_reachable)
    as (_ & (t & Ht & _ & Hl) & _).
  exists t. split; [exact Ht|exact Hl].
Defined.
