(* ===== verification/Whole.v ===== *)
(** * The program from start to exit

    What [main] starts is put together here: the receiver at work ([Receiving]), which shares the
    sink with [server::run], the workers and [main]'s own awaits ([Process]).  The two meet where
    the server closes the sink and in the clock.  The theorem is the contract of the program:
    when it exits with success, what it acknowledged is on disk. *)

From Stdlib Require Import Strings.Byte.
From S2P Require Import Prelude Io Otlp AggState AggIngest AggBatch Storage Health Pretty Target Unicode Path Config Cli Channel Router Client Worker WorkerLife Server Process Rotation Sink DailyLog Admission Http Grpc Receiving Main.

Local Open Scope Z_scope.

Record whole `{NaiveDates} (C Sem : Type) := mkWhole {
  proc : process C;
  rcv : receiving C Sem;
}.
Arguments mkWhole {_ C Sem} _ _.
Arguments proc {_ C Sem} _.
Arguments rcv {_ C Sem} _.

Inductive whole_event :=
| InProcess (e : process_event)
| InReceiver (a : action)
| SinkIsClosed
| TimePasses.

Section whole.
Context `{World} `{NaiveDates} {C : Type} `{ChannelOps C ExportRequest} {Sem : Type}
  `{SemaphoreOps Sem} `{Codecs} `{!Requests} `{Tonic}.
Context (to_vec : batch -> option (list byte)) (render : batch -> bool -> string).
Context (instant_max : Z) (registered : ShutdownSignal -> bool) (io_text : ErrorKind -> string).
Implicit Types (p : process C) (r : receiving C Sem) (x y : whole C Sem).

Definition closed_with (res : result unit ErrorKind) : Outcome :=
  match res with Ok _ => Ok tt | Err e => Err [io_text e] end.

(** [Sink::shutdown] under the write side of the lock: the flag is down and the log synced. *)
Definition shut_sink r (d : Disk) : receiving C Sem :=
  let s := store r in
  mkReceiving (recv r) (mkServer (inner s) d false (tasks s) (persisted s) (counted s))
    (handlers r) (answers r) (abandoned r).

Definition sink_told p (res : result unit ErrorKind) : process C :=
  mkProcess (Server.close (srv p) (closed_with res)) (workers p) (main_at p).

Definition later (dt : Z) r : receiving C Sem :=
  mkReceiving (Admission.mkReceiver (limits (recv r)) (requests (recv r)) (Admission.now (recv r) + dt))
    (store r) (handlers r) (answers r) (abandoned r).

Inductive step : whole_event -> whole C Sem -> whole C Sem -> Prop :=
| whole_process p p' r e :
    e <> ServerDoes SinkCloses -> e <> ClockTicks -> Process.step registered e p p' ->
    step (InProcess e) (mkWhole p r) (mkWhole p' r)
(** Only the server shuts the sink down; from the moment it asks for the write side of the lock
    no request gets the read side, and with it a task, any more. *)
| whole_receiver p r r' a :
    a <> Tick -> Receiving.step to_vec render instant_max a r r' ->
    (a = Upkeep -> admission (store r') = admission (store r) /\ disk (store r') = disk (store r)) ->
    (Server.stage (srv p) = Server.Closing ->
     (dom (tasks (store r')) : gset nat) ⊆ dom (tasks (store r))) ->
    step (InReceiver a) (mkWhole p r) (mkWhole p r')
(** The lock is taken once the tasks have given it back; how long the flush waits for the outputs
    is in its own parameters. *)
| whole_sink_closes p r now waits waits' d res drains :
    Server.stage (srv p) = Server.Closing -> tasks (store r) = ∅ ->
    sink_flush (inner (store r)) now waits waits' (disk (store r)) = (d, res, drains) ->
    step SinkIsClosed (mkWhole p r) (mkWhole (sink_told p res) (shut_sink r d))
| whole_time p r dt :
    0 <= dt ->
    step TimePasses (mkWhole p r)
      (mkWhole (mkProcess (elapse dt (srv p)) (age dt <$> workers p) (main_at p)) (later dt r)).

(** The workers have queues of these capacities; the sink is [i] on disk [d]. *)
Definition whole_started (capacities : list Z) (t max_inflight timeout : Z) (i : SinkInner C) (d : Disk)
    : whole C Sem :=
  mkWhole (process_started capacities t) (opened max_inflight timeout i d).

Definition reachable (capacities : list Z) (t max_inflight timeout : Z) (i : SinkInner C) (d : Disk) x : Prop :=
  rtc (fun x y => exists e, step e x y) (whole_started capacities t max_inflight timeout i d) x.

(** ** Specification *)

(** Once the server has returned nothing is recorded, and if it returned well the log is
    synced. *)
Definition SettledInv x : Prop :=
  Server.stage (srv (proc x)) = Server.Returned ->
  admission (store (rcv x)) = false /\ tasks (store (rcv x)) = ∅ /\
  (result_ (srv (proc x)) = Ok tt ->
   forall w, sink_file (inner (store (rcv x))) = Some w ->
     synced (disk (store (rcv x))) !! log_handle w = Some (contents (disk (store (rcv x))) (log_handle w))).
End whole.

(** * Lemmas *)

Section whole_lemmas.
Context `{World} `{NaiveDates} {C : Type} `{ChannelLaws C ExportRequest} {Sem : Type}
  `{SemaphoreLaws Sem} `{Codecs} `{!Requests} `{Tonic}.
Context (to_vec : batch -> option (list byte)) (render : batch -> bool -> string).
Context (instant_max : Z) (registered : ShutdownSignal -> bool) (io_text : ErrorKind -> string).
Implicit Types (p : process C) (r : receiving C Sem) (x y : whole C Sem).

#[local] Abbreviation step := (Whole.step to_vec render instant_max registered io_text).
#[local] Abbreviation receiving_step := (Receiving.step to_vec render instant_max).

(** The sink is closed by two of the steps a receiver may see at any time. *)
Lemma shut_sink_steps r now waits waits' d res drains :
  tasks (store r) = ∅ ->
  sink_flush (inner (store r)) now waits waits' (disk (store r)) = (d, res, drains) ->
  rtc (fun r r' => exists a, receiving_step a r r') r (shut_sink r d).
Proof.
  intros Et Ef. apply (rtc_l _ _ (shut_sink r (disk (store r)))).
  - eexists. apply (step_upkeep _ _ _ r); [by apply Sink.step_shutdown|done].
  - apply rtc_once. eexists. apply (step_upkeep _ _ _ (shut_sink r (disk (store r)))); [|done].
    by eapply (Sink.step_flush _ _ (store (shut_sink r (disk (store r))))).
Qed.

Lemma whole_parts capacities t max_inflight timeout i d x :
  Whole.reachable to_vec render instant_max registered io_text capacities t max_inflight timeout i d x ->
  ProcessInv capacities (proc x) /\
  Receiving.reachable to_vec render instant_max max_inflight timeout i d (rcv x).
Proof.
  revert x. apply rtc_ind_r; [split; [apply started_process_inv|apply rtc_refl]|].
  intros y z _ [e0 Hs] [Hp Hr]. destruct Hs as [p p' r e He1 He2 Hs|p r r' a Ha Hs Hu _
    |p r now w w' d' res drains Hst Et Ef|p r dt Hdt]; simpl in *.
  - split; [by eapply process_step_inv|done].
  - split; [done|]. eapply rtc_r; [exact Hr|by eexists].
  - split.
    + eapply (process_step_inv registered); [|exact Hp].
      apply (process_server registered p SinkCloses); [done|by apply Server.step_closed].
    + unfold Receiving.reachable. etrans; [exact Hr|by eapply shut_sink_steps].
  - split.
    + eapply (process_step_inv registered); [by apply (process_tick registered p dt)|done].
    + eapply rtc_r; [exact Hr|]. eexists. apply (Receiving.step_tick _ _ _ r). lia.
Qed.

(** The server returns by closing the sink only. *)
Lemma returns_by_closing e s s' :
  Server.step registered e s s' -> e <> SinkCloses -> Server.stage s' = Server.Returned ->
  Server.stage s = Server.Returned.
Proof. destruct 1; try done; unfold end_drain; repeat case_match; by simplify_eq/=. Qed.

Lemma process_returned e p p' :
  Process.step registered e p p' -> e <> ServerDoes SinkCloses ->
  Server.stage (srv p') = Server.Returned ->
  Server.stage (srv p) = Server.Returned /\ result_ (srv p') = result_ (srv p).
Proof.
  intros Hs He Hst. destruct Hs as [p e s He1 Hs|p i e l l' Hl He1 He2 Hs|p Hm Hst'|p i l Hm Hl Hst'|p i Hm Hl
    |p since Hm Hd|p since Hm|p dt Hdt]; simpl in *; try done.
  assert (Server.stage (srv p) = Server.Returned) as Hst'.
  { eapply returns_by_closing; [exact Hs| |done]. congruence. }
  split; [done|]. by apply (returned_stays registered e).
Qed.

(** A receiver whose sink is closed writes no more. *)
Lemma closed_sink_step a r r' :
  receiving_step a r r' -> admission (store r) = false -> tasks (store r) = ∅ ->
  (a = Upkeep -> admission (store r') = admission (store r) /\ disk (store r') = disk (store r)) ->
  admission (store r') = false /\ tasks (store r') = ∅ /\ disk (store r') = disk (store r) /\
  sink_file (inner (store r')) = sink_file (inner (store r)).
Proof.
  intros Hs Ha Et Hu. destruct Hs; try done; try (rewrite Et in *; by simplify_map_eq); try congruence.
  simpl in *. destruct (Hu eq_refl) as [Ea Ed]. split_and!; [congruence|congruence|done|].
  match goal with Hk : Sink.step _ _ _ _ |- _ => destruct Hk end;
    try (rewrite Et in *; by simplify_map_eq); try done.
  match goal with Hc : same_core _ _ |- _ => apply Hc end.
Qed.

(** A sync that succeeds covers what is there. *)
Lemma sink_flush_syncs (i : SinkInner C) now waits waits' d d' drains w :
  sink_file i = Some w -> sink_flush i now waits waits' d = (d', Ok tt, drains) ->
  synced d' !! log_handle w = Some (contents d' (log_handle w)).
Proof.
  unfold sink_flush. intros ->. destruct w as [t|w]; simpl.
  - destruct (sync_all (file t) d) as [d1 [[]|e]] eqn:Es; intros; simplify_eq/=. by apply sync_all_this in Es.
  - unfold io_bind. destruct (flush _ d) as [d1 [[]|e]]; [|by intros; simplify_eq/=]. unfold daily_sync_all.
    destruct (sync_all _ d1) as [d2 [[]|e]] eqn:Es; intros; simplify_eq/=. by apply sync_all_this in Es.
Qed.

Lemma sink_told_ok p res :
  result_ (srv (sink_told io_text p res)) = Ok tt -> res = Ok tt.
Proof.
  unfold sink_told, Server.close. simpl. destruct res as [[]|e]; [done|]. simpl.
  destruct (result_ (srv p)); simpl; done.
Qed.

Lemma settled_step e x y : step e x y -> SettledInv x -> SettledInv y.
Proof.
  unfold SettledInv. intros Hs Hx. destruct Hs as [p p' r e He1 He2 Hs|p r r' a Ha Hs Hu _
    |p r now w w' d res drains Hst Et Ef|p r dt Hdt]; simpl in *; [| | |done].
  - intros Hst. destruct (process_returned _ _ _ Hs He1 Hst) as [Hst' ->]. by apply Hx.
  - intros Hst. destruct (Hx Hst) as (Ea & Et & Hsync).
    destruct (closed_sink_step _ _ _ Hs Ea Et Hu) as (-> & -> & -> & ->). done.
  - intros _. split; [done|]. split; [done|]. intros Hok log Hlog. apply sink_told_ok in Hok as ->.
    by eapply sink_flush_syncs.
Qed.

Lemma settled_reachable capacities t max_inflight timeout i d x :
  Whole.reachable to_vec render instant_max registered io_text capacities t max_inflight timeout i d x ->
  SettledInv x.
Proof. revert x. apply rtc_ind_r; [done|]. intros y z _ [e Hs]. by eapply settled_step. Qed.

(** What was acknowledged was counted, and so persisted. *)
Lemma acknowledged_persisted max_inflight timeout i d r :
  (forall t, sink_file i = Some (FileWriter t) -> rollback_ok contents t d) ->
  Receiving.reachable to_vec render instant_max max_inflight timeout i d r ->
  acknowledged (answers r) ⊆+ persisted (store r).
Proof.
  intros Hok Hr. destruct (receiving_reachable _ _ _ _ _ _ _ _ Hr) as (Hx & _ & Hs).
  destruct (server_reachable_inv to_vec render i d _ Hok Hs) as [_ Hc _ _].
  rewrite Hc, (inv_ledger _ Hx). unfold noted. rewrite <- app_assoc. by apply submseteq_inserts_r.
Qed.
End whole_lemmas.

(** * Properties *)

(** C1. Exit with success means that nothing acknowledged is lost: whatever requests of both
    protocols, their clients, the outputs, the workers, the listeners and the signals did since
    the start, when [main] returns [Ok] the log file as it was last synced holds the complete
    lines it held before the start, the lines of all batches persisted since, in order, and no
    more than the torn beginning of one whose write failed and could not be cut off; and every
    batch that a client was told to be recorded, over the whole life of the process, is among
    those persisted, once for each time it was told. *)
Theorem success_means_durable `{World, NaiveDates, ChannelLaws C ExportRequest, SemaphoreLaws Sem, Toml,
    Crates, Binder, EnvFilters} `{Codecs} `{!Requests} `{Tonic}
    race show parse env vars d d1 told settings (sink : SinkInner C) writers path
    to_vec render instant_max registered io_text capacities t x :
  main_ race show parse env vars d = (d1, told, Ok (Main.Serving settings sink writers)) ->
  s_log_sink settings = Some (File path) ->
  reachable (Sem := Sem) to_vec render instant_max registered io_text capacities t
    (s_max_inflight_requests settings) (s_receive_timeout settings) sink d1 x ->
  main_at (proc x) = Exited (Ok tt) ->
  acknowledged (answers (rcv x)) ⊆+ persisted (store (rcv x)) /\
  exists w torn,
    sink_file (inner (store (rcv x))) = Some (FileWriter w) /\ (rollback w = None -> torn = []) /\
    synced (disk (store (rcv x))) !! path =
      Some (complete_lines (contents d path) ++
            concat (map (line_of to_vec) (persisted (store (rcv x)))) ++ torn).
Proof.
  intros Hmain Hfile Hr Hexit.
  destruct (main_opens _ _ _ _ _ _ _ _ _ _ _ Hmain) as (varf & router & Hopen & _ & ? & ? & ? & ? & Hm).
  destruct (open_file_sink _ _ _ _ _ _ _ _ _ Hopen Hfile (merge_file_sink _ _ _ _ _ _ Hm Hfile)) as (Hsink & _ & _ & Hthis).
  assert (forall t, sink_file sink = Some (FileWriter t) -> rollback_ok contents t d1) as Hok.
  { rewrite Hsink. by intros w [= <-] n [=]. }
  destruct (whole_parts _ _ _ _ _ _ _ _ _ _ _ _ Hr) as [Hp Hrcv].
  split; [by eapply acknowledged_persisted|].
  assert (main_at (proc x) <> Process.Serving) as Hend by (by rewrite Hexit).
  destruct (settled_reachable _ _ _ _ _ _ _ _ _ _ _ _ Hr (inv_returned _ _ Hp Hend)) as (_ & _ & Hsync).
  specialize (Hsync (eq_sym (inv_result _ _ Hp _ Hexit))).
  destruct (receiving_reachable _ _ _ _ _ _ _ _ Hrcv) as (_ & _ & Hs).
  destruct (server_reachable_inv to_vec render sink d1 _ Hok Hs) as [_ _ _ Hl].
  destruct (Hl _ Hsink) as (w & Hw & Hfw & _ & Hlog). simpl in Hfw.
  unfold logical in Hlog at 2. simpl in Hlog. rewrite Hthis in Hlog.
  specialize (Hsync _ Hw). cbn [log_handle] in Hsync.
  exists w, (from_option (fun n => drop (Z.to_nat n) (contents (disk (store (rcv x))) path)) [] (rollback w)).
  split; [done|]. split; [by intros ->|]. rewrite <- Hfw at 1. rewrite Hsync, Hfw. f_equal.
  rewrite app_assoc, <- Hlog. unfold logical. rewrite Hfw.
  destruct (rollback w) as [n|]; simpl; [by rewrite take_drop|by rewrite app_nil_r].
Qed.

(** ** A life to evaluate examples with *)

#[local] Existing Instance sample_world.
#[local] Existing Instance sample_dates.
#[local] Existing Instance sample_codecs.
#[local] Existing Instance sample_tonic.
#[local] Existing Instance counter_semaphore_laws.
#[local] Existing Instance sample_requests.
#[local] Existing Instance sample_toml.
#[local] Existing Instance sample_binder.
#[local] Existing Instance sample_filters.

(** One slot, one log, no output for people. *)
Definition quiet_cli : Cli :=
  mkCli None None None None (Some 1) None (Some "log"%string) None None (Some true) None (Some true)
    None false None None [] None None [] None.
Definition quiet_settings : Settings :=
  mkSettings DEFAULT_GRPC_ADDR DEFAULT_HTTP_ADDR 1 (secs 5) (Some (File "log")) true None true Auto false None.
Definition quiet_disk : Disk := mkDisk {["log"%string := [x61; x0a]]} 0 ∅ [] sample_perms.

Lemma quiet_main_serves :
  main_ (C := list_channel ExportRequest) id (fun _ => "addr"%string) (fun _ => Ok quiet_cli) sample_start
    sample_vars quiet_disk = (sample_disk, [], Ok (Main.Serving quiet_settings sample_sink [])).
Proof. vm_compute. reflexivity. Qed.

Definition sample_whole_step :
    whole_event -> whole (list_channel ExportRequest) Z -> whole (list_channel ExportRequest) Z -> Prop :=
  step sample_to_vec sample_render (secs 1000000) (fun _ => true) (fun _ => "io"%string).

(** A request is served, SIGTERM comes while a connection stays open. *)
Definition no_workers (s : running) (m : main_stage) : process (list_channel ExportRequest) := mkProcess s [] m.
Definition told_receiving : receiving (list_channel ExportRequest) Z := served None [(Some sample_logs, sample_ok)].
Definition told_later : receiving (list_channel ExportRequest) Z := later SHUTDOWN_GRACE told_receiving.
Definition synced_disk : Disk :=
  mkDisk (files sample_written) (cursor sample_written) {["log"%string := [x61; x0a; x7b; x7d; x0a]]} []
    sample_perms.
Definition told_exit : whole (list_channel ExportRequest) Z :=
  mkWhole (no_workers stuck_closed (Exited (Ok tt))) (shut_sink told_later synced_disk).

Lemma worked_whole p a b :
  Server.stage (srv p) <> Server.Closing -> rtc worked a b ->
  rtc (fun x y => exists e, sample_whole_step e x y) (mkWhole p a) (mkWhole p b).
Proof.
  intros Hp. induction 1 as [|a b c (e & [Hu Ht] & Hs) _ IH]; [apply rtc_refl|].
  eapply rtc_l; [|exact IH]. eexists. by eapply whole_receiver.
Qed.

Lemma whole_to e x y y' : sample_whole_step e x y -> y = y' -> sample_whole_step e x y'.
Proof. by intros ? <-. Qed.

#[local] Ltac by_process rule :=
  eexists; eapply whole_to; [eapply whole_process; [| |rule]; done|reflexivity].
#[local] Ltac by_run rule := by_process ltac:(eapply process_server; [|rule]; done).

(** The server that is told stops at the end of its grace, the sink is synced, and [main] exits. *)
Lemma stops_well r d drains :
  tasks (store r) = ∅ ->
  sink_flush (inner (store r)) 0 (Pretty.Never, Pretty.Never) (Pretty.Never, Pretty.Never) (disk (store r)) =
    (d, Ok tt, drains) ->
  rtc (fun x y => exists e, sample_whole_step e x y) (mkWhole (no_workers (launched 0) Process.Serving) r)
    (mkWhole (no_workers stuck_closed (Exited (Ok tt))) (shut_sink (later SHUTDOWN_GRACE r) d)).
Proof.
  intros Et Ef. set (r' := later SHUTDOWN_GRACE r).
  apply (rtc_l _ _ (mkWhole (no_workers (hear SigTerminate (launched 0)) Process.Serving) r)).
  { by_run ltac:(apply (step_signal _ _ only_term SigTerminate); [set_solver|done|simpl; lia]). }
  apply (rtc_l _ _ (mkWhole (no_workers stuck_drain Process.Serving) r)).
  { by_run ltac:(by apply step_select_shutdown). }
  apply (rtc_l _ _ (mkWhole (no_workers (elapse SHUTDOWN_GRACE stuck_drain) Process.Serving) r')).
  { eexists. by apply (whole_time _ _ _ _ _ (no_workers stuck_drain Process.Serving) r SHUTDOWN_GRACE). }
  apply (rtc_l _ _ (mkWhole (no_workers (cut_drain (elapse SHUTDOWN_GRACE stuck_drain) (Ok tt)) Process.Serving) r')).
  { by_run ltac:(by eapply step_grace). }
  apply (rtc_l _ _ (mkWhole (no_workers stuck_closed Process.Serving) (shut_sink r' d))).
  { eexists. eapply whole_to; [by eapply (whole_sink_closes _ _ _ _ _ _ r' 0 (Pretty.Never, Pretty.Never)
      (Pretty.Never, Pretty.Never) d (Ok tt))|reflexivity]. }
  apply (rtc_l _ _ (mkWhole (no_workers stuck_closed (Joining 0)) (shut_sink r' d))).
  { by_process ltac:(by apply process_cancel). }
  apply (rtc_l _ _ (mkWhole (no_workers stuck_closed (ShuttingDownRuntime SHUTDOWN_GRACE)) (shut_sink r' d))).
  { by_process ltac:(by apply (process_joined _ _ 0%nat)). }
  apply rtc_once. by_process ltac:(by eapply process_exit_early).
Qed.

Lemma told_exit_reachable :
  reachable sample_to_vec sample_render (secs 1000000) (fun _ => true) (fun _ => "io"%string)
    [] 0 1 (secs 5) sample_sink sample_disk told_exit.
Proof.
  unfold reachable. etrans; [apply worked_whole; [done|apply sample_worked]|].
  by eapply (stops_well told_receiving synced_disk).
Qed.

Lemma success_means_durable_witness :
  acknowledged (answers (rcv told_exit)) = [sample_logs] /\
  [sample_logs] ⊆+ persisted (store (rcv told_exit)) /\
  synced (disk (store (rcv told_exit))) !! "log"%string = Some [x61; x0a; x7b; x7d; x0a].
Proof.
  split; [reflexivity|]. split; [|reflexivity].
  exact (proj1 (success_means_durable id (fun _ => "addr"%string) (fun _ => Ok quiet_cli) sample_start
    sample_vars quiet_disk sample_disk [] quiet_settings sample_sink [] "log"%string sample_to_vec
    sample_render (secs 1000000) (fun _ => true) (fun _ => "io"%string) [] 0 told_exit
    quiet_main_serves eq_refl told_exit_reachable eq_refl)).
Defined.
