(* ===== verification/WholeDaily.v ===== *)
(** * From start to exit with a log directory

    The contract of [Whole.v] for a log of daily files: when the program exits with success,
    every day's file that the retention left alone is synced with the lines of the batches
    acknowledged on that day, however often the day changed and whatever failed on the way. *)

From Stdlib Require Import Strings.Byte.
From S2P Require Import Prelude Io Otlp AggState AggIngest AggBatch Storage Health Pretty Target Unicode Path Config Cli Channel Router Client Worker WorkerLife Server Process Rotation Sink DailyLog Admission Http Grpc Receiving Main Whole.

Local Open Scope Z_scope.

(** * Lemmas *)

Section opening.
Context `{World, NaiveDatesLaws} {C : Type} `{ChannelOps C ExportRequest}.

Lemma at_date_opens dir prefix suffix date d :
  let path := daily_path dir prefix suffix date in
  let '(d', r) := at_date dir prefix suffix date d in
  (forall p, contents d' p = contents d p \/ contents d' p = complete_lines (contents d p)) /\
  match r with
  | Ok w =>
      w = mkDaily dir prefix suffix date (mkAppend path None) false /\
      contents d' path = complete_lines (contents d path)
  | Err _ => True
  end.
Proof.
  intros path. unfold at_date, io_bind. pose proof (append_file_open_spec path d) as Ho. fold path.
  destruct (append_file_open path d) as [d' r]. destruct Ho as (Hoth & Hthis & Hres).
  assert (forall p, contents d' p = contents d p \/ contents d' p = complete_lines (contents d p)) as Hc.
  { intros p. destruct (decide (p = path)) as [->|Hp]; [destruct Hthis; auto|left; by apply Hoth]. }
  destruct r as [t|e]; [|done]. destruct Hres as [-> Hnew]. done.
Qed.

Lemma same_complete (d d' : Disk) p :
  contents d' p = contents d p \/ contents d' p = complete_lines (contents d p) ->
  complete_lines (contents d' p) = complete_lines (contents d p).
Proof. intros [-> | ->]; [done|]. apply complete_lines_whole. Qed.

(** The log is opened on the file of today, without its torn line; young files of other days
    keep their lines. *)
Lemma open_rotated_days to_vec view date day dir keep d d' rw :
  open_rotated_sync view date day dir keep d = (d', Ok rw) ->
  rw_keep_days rw = Z.max keep 1 /\ dw_sync_on_rotate (roller rw) = true /\ holds_day (roller rw) /\
  (forall date, day_path (roller rw) date = daily_path dir ROTATION_PREFIX None date) /\
  rollback (dw_file (roller rw)) = None /\
  forall date', let path := daily_path dir ROTATION_PREFIX None date' in
    young view (Z.max keep 1) path ->
    day_holds to_vec date' (complete_lines (contents d path)) [] (roller rw) d'.
Proof.
  unfold open_rotated_sync. pose proof (fun p => create_dir_contents (CreateDirectory dir) (create_private_dir dir) d p
    (fun d => create_private_dir_contents dir d p)) as Hdir.
  destruct (with_context (CreateDirectory dir) _ d) as [d1 [[]|e]]; [|done]. cbn [fst] in Hdir.
  pose proof (fun p => clean_up_spares view (Z.max keep 1) d1 p) as Hclean.
  destruct (clean_up view (Z.max keep 1) d1) as [d2 [[]|e]]; [|done]. cbn [fst] in Hclean.
  pose proof (at_date_opens dir ROTATION_PREFIX None date d2) as Ho. unfold with_context.
  destruct (at_date dir ROTATION_PREFIX None date d2) as [d3 [w|e]]; [|done].
  destruct Ho as (Hc & -> & Hnew). intros [= <- <-]. do 5 (split; [done|]).
  intros date' Hy. destruct (Hclean _ Hy) as [E _]. rewrite Hdir in E.
  unfold day_holds. simpl. rewrite app_nil_r. case_decide as Ed.
  - subst date'. split; [by intros n|]. unfold logical. simpl. by rewrite Hnew, E.
  - split; [|done]. rewrite <- E. apply same_complete, Hc.
Qed.

Lemma day_holds_reopened to_vec date base w (d d' : Disk) :
  whole_lines base -> holds_day w -> rollback (dw_file w) = None ->
  (forall p, contents d' p = contents d p \/ contents d' p = complete_lines (contents d p)) ->
  day_holds to_vec date base [] w d -> day_holds to_vec date base [] w d'.
Proof.
  intros Hb Hw Hroll Hc. unfold day_holds, rollback_ok, logical. rewrite Hroll. simpl. rewrite app_nil_r.
  case_decide.
  - intros [_ E]. split; [by intros n|]. destruct (Hc (file (dw_file w))) as [-> | ->]; [done|]. by rewrite E.
  - intros [E _]. split; [|done]. rewrite <- E. apply same_complete, Hc.
Qed.

Lemma open_directory_sink to_vec env varf settings router d d1 (sink : SinkInner C) writers dir keep :
  from_settings_with_proxy env varf settings router d = (d1, Ok (sink, writers)) ->
  s_log_sink settings = Some (Directory dir keep) ->
  exists rw, sink_file sink = Some (Roller rw) /\
    rw_keep_days rw = Z.max keep 1 /\ dw_sync_on_rotate (roller rw) = true /\ holds_day (roller rw) /\
    (forall date, day_path (roller rw) date = daily_path dir ROTATION_PREFIX None date) /\
    forall date, let path := daily_path dir ROTATION_PREFIX None date in
      young (dir_view env dir) (Z.max keep 1) path ->
      day_holds to_vec date (complete_lines (contents d path)) [] (roller rw) d1.
Proof.
  unfold from_settings_with_proxy. intros Hopen Hs. rewrite Hs in Hopen. unfold open_jsonl in Hopen.
  pose proof (open_rotated_days to_vec (dir_view env dir) (start_today env) (start_julian_day env) dir keep d) as Ho.
  destruct (open_rotated_sync _ _ _ _ _ d) as [d0 [rw|e]]; [|done].
  destruct (Ho d0 rw eq_refl) as (Ek & Es & Hw & Hpath & Hroll & Hday). clear Ho. exists rw.
  assert (sink_file sink = Some (Roller rw) /\
    forall p, contents d1 p = contents d0 p \/ contents d1 p = complete_lines (contents d0 p)) as [Hf Hc].
  { destruct (if negb _ then _ else _) as [out targets]. destruct (s_pretty_log_dir settings) as [pdir|];
      [|simplify_eq/=; auto]. unfold open_pretty_log_sync in Hopen.
    pose proof (fun p => create_dir_contents (CreateDirectory pdir) (create_private_dir pdir) d0 p
      (fun d => create_private_dir_contents pdir d p)) as Hdir.
    destruct (with_context (CreateDirectory pdir) _ d0) as [d2 [[]|e]]; [|done]. cbn [fst] in Hdir.
    unfold with_context in Hopen.
    pose proof (at_date_opens pdir PRETTY_LOG_PREFIX (Some PRETTY_LOG_SUFFIX) (start_today env) d2) as Ho.
    destruct (at_date pdir _ _ _ d2) as [d3 [w|e]]; [|done]. destruct Ho as [Hc _]. simplify_eq/=.
    split; [done|]. intros p. rewrite <- Hdir. apply Hc. }
  do 5 (split; [done|]). intros date Hy.
  eapply (day_holds_reopened _ _ _ _ d0); [apply complete_lines_whole|done..|by apply Hday].
Qed.
End opening.

(** The file of a day when the open file is synced. *)
Lemma day_synced `{NaiveDatesLaws} to_vec date base bs w d :
  holds_day w -> day_holds to_vec date base bs w d ->
  synced d !! file (dw_file w) = Some (contents d (file (dw_file w))) ->
  exists torn,
    (torn <> [] -> dw_date w = date /\ rollback (dw_file w) <> None) /\
    (bs <> [] -> synced d !! day_path w date = Some (base ++ concat (map (line_of to_vec) bs) ++ torn)).
Proof.
  intros Hw Hd Hs. unfold day_holds in Hd. unfold holds_day in Hw. case_decide as E; cycle 1.
  { exists []. split; [done|]. intros Hbs. destruct Hd as [Hc Hd]. destruct (Hd Hbs) as [Ec ->].
    by rewrite app_nil_r, <- Hc, Ec. }
  destruct Hd as [_ Hl]. rewrite E in Hw. rewrite Hw in Hs.
  exists (from_option (fun n => drop (Z.to_nat n) (contents d (day_path w date))) [] (rollback (dw_file w))).
  split; [by destruct (rollback (dw_file w))|]. intros _. rewrite Hs, app_assoc, <- Hl. unfold logical. rewrite Hw.
  f_equal. destruct (rollback (dw_file w)) as [n|]; simpl; [by rewrite take_drop|by rewrite app_nil_r].
Qed.

(** * Properties *)

(** C2. Exit with success means that nothing acknowledged is lost, with a log directory too: whatever
    requests, clients, outputs, workers, listeners and signals did since the start, on however
    many days, when [main] returns [Ok] every batch that a client was told to be recorded is among
    those persisted, once for each time it was told; and the file of any day that was never older
    than the retention period when the directory was cleaned up is synced, if anything was
    written to it, with the complete lines it held before the start and the lines of batches
    offered on that day, in order, among them all that were persisted on it - and with no more
    than the torn beginning of one more if it is the open file, whose write failed and could not be
    cut off. *)
Theorem daily_success_means_durable `{World, NaiveDatesLaws, ChannelLaws C ExportRequest, SemaphoreLaws Sem,
    Toml, Crates, Binder, EnvFilters} `{Codecs} `{!Requests} `{Tonic}
    race show parse env vars d d1 told settings (sink : SinkInner C) writers dir keep
    to_vec render instant_max registered io_text capacities t x :
  main_ race show parse env vars d = (d1, told, Ok (Main.Serving settings sink writers)) ->
  s_log_sink settings = Some (Directory dir keep) ->
  reachable (Sem := Sem) to_vec render instant_max registered io_text capacities t
    (s_max_inflight_requests settings) (s_receive_timeout settings) sink d1 x ->
  main_at (proc x) = Exited (Ok tt) ->
  acknowledged (answers (rcv x)) ⊆+ persisted (store (rcv x)) /\
  exists w0, sink_file sink = Some w0 /\
  (exists ops acks, accounts to_vec ops acks w0 d1 (store (rcv x))) /\
  forall ops acks date, let path := daily_path dir ROTATION_PREFIX None date in
    accounts to_vec ops acks w0 d1 (store (rcv x)) ->
    young (dir_view env dir) (Z.max keep 1) path -> stays_young (Z.max keep 1) path ops ->
    exists bs torn,
      on_day date acks `sublist_of` bs /\ bs `sublist_of` offered date ops /\
      (bs <> [] -> synced (disk (store (rcv x))) !! path =
         Some (complete_lines (contents d path) ++ concat (map (line_of to_vec) bs) ++ torn)) /\
      (torn <> [] -> exists rw, sink_file (inner (store (rcv x))) = Some (Roller rw) /\
         dw_date (roller rw) = date /\ rollback (dw_file (roller rw)) <> None).
Proof.
  intros Hmain Hdir Hr Hexit.
  destruct (main_opens _ _ _ _ _ _ _ _ _ _ _ Hmain) as (varf & router & Hopen & _).
  destruct (open_directory_sink to_vec _ _ _ _ _ _ _ _ _ _ Hopen Hdir) as (rw & Hsink & Ek & Es & Hw & Hpath & Hday).
  destruct (whole_parts _ _ _ _ _ _ _ _ _ _ _ _ Hr) as [Hp Hrcv].
  split. { eapply acknowledged_persisted; [|exact Hrcv]. by rewrite Hsink. }
  exists (Roller rw). split; [done|].
  destruct (receiving_reachable _ _ _ _ _ _ _ _ Hrcv) as (_ & _ & Hs).
  split; [by eapply sink_accounts|]. intros ops acks date path (w & Hlog & Hrun & _) Hy Hyoung.
  assert (main_at (proc x) <> Process.Serving) as Hend by (by rewrite Hexit).
  destruct (settled_reachable _ _ _ _ _ _ _ _ _ _ _ _ Hr (inv_returned _ _ Hp Hend)) as (_ & _ & Hsync).
  specialize (Hsync (eq_sym (inv_result _ _ Hp _ Hexit)) w Hlog).
  unfold path in Hyoung. rewrite <- Ek, <- Hpath in Hyoung.
  pose proof (log_run_day to_vec date _ (complete_lines_whole _) ops rw d1 [] Hw Es Hyoung (Hday date Hy)) as Hl.
  rewrite Hrun in Hl. destruct Hl as (rw' & bs & -> & (Hsame & _ & Hw') & Hd & Hsub & Hoff).
  destruct (day_synced _ _ _ _ _ _ Hw' Hd Hsync) as (torn & Htorn & Hsynced).
  rewrite (same_log_path _ _ _ Hsame), Hpath in Hsynced. exists bs, torn. split_and!; [done..|].
  intros Hne. exists rw'. split; [done|by apply Htorn].
Qed.

(** ** A life over midnight to evaluate examples with *)

#[local] Existing Instance sample_world.
#[local] Existing Instance sample_dates.
#[local] Existing Instance sample_dates_laws.
#[local] Existing Instance sample_codecs.
#[local] Existing Instance sample_tonic.
#[local] Existing Instance counter_semaphore_laws.
#[local] Existing Instance sample_requests.
#[local] Existing Instance sample_toml.
#[local] Existing Instance sample_binder.
#[local] Existing Instance sample_filters.

(** The log of the day of the start has a torn line; another file is old. *)
Definition daily_cli : Cli :=
  mkCli None None None None (Some 1) None None (Some "logs"%string) None (Some true) None (Some true)
    None false None None [] None None [] None.
Definition first_day : string := "logs/otel-logger.2026-07-01".
Definition second_day : string := "logs/otel-logger.2026-07-02".
Definition old_day : string := "logs/otel-logger.2026-05-01".
Definition daily_disk : Disk := mkDisk {[first_day := [x61; x0a; x62]; old_day := [x63; x0a]]} 0 ∅ [] sample_perms.
Definition daily_main :=
  main_ (C := list_channel ExportRequest) id (fun _ => "addr"%string) (fun _ => Ok daily_cli) sample_start
    sample_vars daily_disk.
Definition daily_settings : Settings :=
  match daily_main.2 with Ok (Main.Serving s _ _) => s | _ => quiet_settings end.
Definition daily_sink : SinkInner (list_channel ExportRequest) :=
  match daily_main.2 with Ok (Main.Serving _ sink _) => sink | _ => sample_sink end.
Definition daily_opened : Disk := daily_main.1.1.

Lemma daily_main_serves :
  daily_main = (daily_opened, [], Ok (Main.Serving daily_settings daily_sink [])).
Proof. vm_compute. reflexivity. Qed.

(** The batch comes on the next day, and the old file goes. *)
Definition old_entry : DirEntry := mkEntry old_day (Ok true) (Some "otel-logger.2026-05-01"%string) (Ok (Some 0)) (Ok tt).
Definition next_day : WriteEnv (H := sample_dates) :=
  @mkEnv sample_dates "2026-07-02"%string 8 (mkView 0 (100 * DAY) (Ok true) (Ok [Ok old_entry])) 7.
Definition daily_persisted := persist sample_to_vec next_day sample_logs daily_sink daily_opened.
Definition daily_written : Disk := daily_persisted.1.2.
Definition daily_inner (n : nat) : SinkInner (list_channel ExportRequest) :=
  match n with
  | 0 => daily_sink
  | 1 => daily_persisted.1.1
  | 2 => (count sample_logs daily_persisted.1.1).1
  | _ => publish sample_render sample_logs false (count sample_logs daily_persisted.1.1).1
  end%nat.
Definition daily_at (p : option phase) (n : nat) (d : Disk) (tasks : gmap nat stage)
    (persisted counted : list batch) : receiving (list_channel ExportRequest) Z :=
  mkReceiving
    (Admission.mkReceiver (mkLimits 0 0 8 (secs 5)) {[0%nat := Holding 0]} 0)
    (mkServer (daily_inner n) d true tasks persisted counted)
    (from_option (fun p => {[0%nat := set_phase stalled_handler p]}) ∅ p) [] [].
Definition daily_done (p : option phase) answers : receiving (list_channel ExportRequest) Z :=
  mkReceiving
    (Admission.mkReceiver (mkLimits 1 0 8 (secs 5)) ∅ 0)
    (mkServer (daily_inner 3) daily_written true ∅ [sample_logs] [sample_logs])
    (from_option (fun p => {[0%nat := set_phase stalled_handler p]}) ∅ p) answers [].
Definition daily_served : receiving (list_channel ExportRequest) Z := daily_done None [(Some sample_logs, sample_ok)].

Lemma daily_persists : persist sample_to_vec next_day sample_logs daily_sink daily_opened =
  (daily_inner 1, daily_written, Ok tt).
Proof.
  assert (daily_persisted.2 = Ok tt) as E by (vm_compute; reflexivity). rewrite <- E. unfold daily_inner, daily_written.
  fold daily_persisted. by destruct daily_persisted as [[? ?] ?].
Qed.

Lemma daily_counts : count sample_logs (daily_inner 1) = (daily_inner 2, false).
Proof.
  assert ((count sample_logs (daily_inner 1)).2 = false) as E by (vm_compute; reflexivity). rewrite <- E.
  change (daily_inner 2) with (count sample_logs (daily_inner 1)).1. by destruct (count sample_logs (daily_inner 1)).
Qed.

#[local] Ltac by_action rule :=
  eexists; split; [|eapply step_to; [rule|reflexivity]]; done.

Lemma daily_worked : rtc worked (opened 1 (secs 5) daily_sink daily_opened) daily_served.
Proof.
  pose (h p := set_phase stalled_handler p).
  apply (rtc_l _ _ (daily_at (Some Admitting) 0 daily_opened ∅ [] [])).
  { by_action ltac:(apply (step_arrive _ _ _ _ 0%nat (OverHttp Json) Logs (secs 5) (Holding 0));
      [reflexivity..|by left|split_and!; [by apply (Admission.step_admit_now _ 0%nat 0)|reflexivity..]]). }
  apply (rtc_l _ _ (daily_at (Some (Reading [])) 0 daily_opened ∅ [] [])).
  { by_action ltac:(by apply (step_read _ _ _ _ 0%nat (h Admitting))). }
  apply (rtc_l _ _ (daily_at (Some (Reading [x7b; x7d])) 0 daily_opened ∅ [] [])).
  { by_action ltac:(apply (step_receive _ _ _ _ 0%nat (h (Reading [])) [] [x7b; x7d]); [reflexivity..|vm_compute; discriminate]). }
  apply (rtc_l _ _ (daily_at (Some (Submitting sample_logs)) 0 daily_opened ∅ [] [])).
  { by_action ltac:(by apply (step_decoded _ _ _ _ 0%nat (h (Reading [x7b; x7d])) [x7b; x7d] sample_logs)). }
  apply (rtc_l _ _ (daily_at (Some (Awaiting sample_logs)) 0 daily_opened {[0%nat := Writing sample_logs]} [] [])).
  { by_action ltac:(eapply (step_submit _ _ _ _ 0%nat (h (Submitting sample_logs))); [reflexivity..|by apply Sink.step_begin|reflexivity]). }
  apply (rtc_l _ _ (daily_at (Some (Awaiting sample_logs)) 1 daily_written {[0%nat := Counting sample_logs]} [sample_logs] [])).
  { by_action ltac:(eapply (step_task _ _ _ _ 0%nat (Writing sample_logs) (Counting sample_logs)); [reflexivity..
      |apply (Sink.step_persist _ _ _ 0%nat sample_logs next_day (daily_inner 1) daily_written); [reflexivity|exact daily_persists]|reflexivity]). }
  apply (rtc_l _ _ (daily_at (Some (Awaiting sample_logs)) 2 daily_written
    {[0%nat := Publishing sample_logs false]} [sample_logs] [sample_logs])).
  { by_action ltac:(eapply (step_task _ _ _ _ 0%nat (Counting sample_logs) (Publishing sample_logs false)); [reflexivity..
      |apply (Sink.step_count _ _ _ 0%nat sample_logs (daily_inner 2)); [reflexivity|exact daily_counts]|reflexivity]). }
  apply (rtc_l _ _ (daily_done (Some (Answering sample_logs (Ok tt))) [])).
  { by_action ltac:(eapply (step_recorded _ _ _ _ 0%nat sample_logs); [reflexivity
      |by apply (Sink.step_publish _ _ _ 0%nat sample_logs false)|reflexivity
      |exists 0%nat; split; [reflexivity|split_and!; [by apply (Admission.step_drop_last _ 0%nat)|reflexivity..]]]). }
  apply rtc_once.
  by_action ltac:(by apply (step_answer _ _ _ _ 0%nat (h (Answering sample_logs (Ok tt))) sample_logs (Ok tt))).
Qed.

Definition writer_of (s : SinkInner (list_channel ExportRequest)) : JsonlWriter :=
  default (FileWriter (mkAppend EmptyString None)) (sink_file s).
Definition daily_synced : Disk := (writer_sync (writer_of (daily_inner 3)) daily_written).1.
Definition daily_exit : whole (list_channel ExportRequest) Z :=
  mkWhole (no_workers stuck_closed (Exited (Ok tt))) (shut_sink (later SHUTDOWN_GRACE daily_served) daily_synced).

Lemma daily_exit_reachable :
  reachable sample_to_vec sample_render (secs 1000000) (fun _ => true) (fun _ => "io"%string)
    [] 0 1 (secs 5) daily_sink daily_opened daily_exit.
Proof.
  unfold reachable. etrans; [apply worked_whole; [done|apply daily_worked]|].
  eapply (stops_well daily_served daily_synced); [reflexivity|]. vm_compute. reflexivity.
Qed.

Definition daily_ops : list (log_op (H := sample_dates)) := [WriteOp next_day sample_logs; SyncOp].

Lemma daily_sink_writer : sink_file daily_sink = Some (writer_of daily_sink).
Proof. vm_compute. reflexivity. Qed.

Lemma daily_accounted :
  accounts sample_to_vec daily_ops [("2026-07-02"%string, sample_logs)] (writer_of daily_sink) daily_opened
    (store (rcv daily_exit)).
Proof.
  exists (writer_of (daily_inner 3)). split; [vm_compute; reflexivity|]. split; [vm_compute; reflexivity|reflexivity].
Qed.

Lemma second_day_young :
  young sample_view 10 second_day /\ stays_young 10 second_day daily_ops.
Proof.
  split.
  - intros entries e [= <-] Hin. by apply not_elem_of_nil in Hin.
  - constructor; [|by constructor]. intros entries e [= <-] Hin Hpath.
    by apply list_elem_of_singleton in Hin as [= ->].
Qed.

(** The day changed; the file of the new day is synced, and that of the first day as it was
    opened. *)
Lemma daily_success_means_durable_witness :
  acknowledged (answers (rcv daily_exit)) = [sample_logs] /\
  synced (disk (store (rcv daily_exit))) !! first_day = Some [x61; x0a] /\
  is_there old_day (disk (store (rcv daily_exit))) = false /\
  exists bs torn, [sample_logs] `sublist_of` bs /\
    synced (disk (store (rcv daily_exit))) !! second_day = Some (concat (map (line_of sample_to_vec) bs) ++ torn).
Proof.
  split; [reflexivity|]. split; [vm_compute; reflexivity|]. split; [vm_compute; reflexivity|].
  destruct (daily_success_means_durable id (fun _ => "addr"%string) (fun _ => Ok daily_cli) sample_start
    sample_vars daily_disk daily_opened [] daily_settings daily_sink [] "logs"%string 10 sample_to_vec
    sample_render (secs 1000000) (fun _ => true) (fun _ => "io"%string) [] 0 daily_exit
    daily_main_serves eq_refl daily_exit_reachable eq_refl) as (_ & w0 & Hw0 & _ & H).
  destruct (H daily_ops [("2026-07-02"%string, sample_logs)] "2026-07-02"%string) as (bs & torn & Hsub & _ & Hs & _).
  - rewrite daily_sink_writer in Hw0. apply (inj Some) in Hw0 as <-. exact daily_accounted.
  - exact (proj1 second_day_young).
  - exact (proj2 second_day_young).
  - exists bs, torn. split; [exact Hsub|]. apply Hs. clear -Hsub. intros ->. by apply sublist_nil_r in Hsub.
Defined.
