(* ===== verification/WholeLive.v ===== *)
(** * The program stops when it is told to

    Liveness of the whole program ([Whole]): once the server waits for the lock of the sink the
    tasks that hold it end, so that the sink is closed, which [Process] takes for granted; a run
    of the whole is a run of the process, whose end follows. *)

From Stdlib Require Import Strings.Byte.
From S2P Require Import Prelude Runs Io Otlp AggState AggIngest AggBatch Storage Health Pretty Config Cli Channel Router Client Worker WorkerLife Server Process Rotation Sink Admission Http Grpc Receiving ReceivingLive Whole.

Local Open Scope Z_scope.

(** ** Specification *)

(** What a step of the whole is to the process. *)
Definition process_label (e : whole_event) : option process_event :=
  match e with
  | InProcess e => Some e
  | InReceiver _ => None
  | SinkIsClosed => Some (ServerDoes SinkCloses)
  | TimePasses => Some ClockTicks
  end.

Section specification.
Context `{NaiveDates} {C Sem : Type}.
Implicit Types (x y : whole C Sem).

Definition closing x : Prop := Server.stage (srv (proc x)) = Server.Closing.
Definition recording_at (k : nat) x : Prop := is_Some (tasks (store (rcv x)) !! k).

(** The rounds all tasks together still have to go. *)
Definition unrecorded x : Z :=
  map_sum (fun st => Z.of_nat (task_rank st)) (tasks (store (rcv x))).
End specification.

(** * Lemmas *)

Section live_lemmas.
Context `{World} `{NaiveDates} {C : Type} `{ChannelLaws C ExportRequest} {Sem : Type}
  `{SemaphoreLaws Sem} `{Codecs} `{!Requests} `{Tonic}.
Context (to_vec : batch -> option (list byte)) (render : batch -> bool -> string).
Context (instant_max : Z) (registered : ShutdownSignal -> bool) (io_text : ErrorKind -> string).
Implicit Types (p : process C) (r : receiving C Sem) (x y : whole C Sem).

#[local] Abbreviation transition := (Whole.step (Sem := Sem) to_vec render instant_max registered io_text).
#[local] Abbreviation receiving_step := (Receiving.step to_vec render instant_max).
#[local] Abbreviation todo := (fun ts => map_sum (fun st => Z.of_nat (task_rank st)) ts).

Lemma is_closing (s : running) : {Server.stage s = Server.Closing} + {Server.stage s <> Server.Closing}.
Proof. destruct (Server.stage s); first [by left|by right]. Qed.

Lemma rank_positive st : (0 < task_rank st)%nat.
Proof. destruct st; simpl; lia. Qed.

Lemma todo_nonneg (ts : gmap nat stage) : 0 <= todo ts.
Proof. apply map_sum_nonneg. lia. Qed.

Lemma close_returns (s : running) o : Server.stage (Server.close s o) = Server.Returned.
Proof. unfold Server.close. by destruct (merge_task_result _ _). Qed.

(** A task that goes on or ends has less to do. *)
Lemma todo_goes_on (ts : gmap nat stage) k st st' :
  ts !! k = Some st -> task_move st st' ->
  todo (<[k := st']> ts) < todo ts /\ (dom (<[k := st']> ts) : gset nat) ⊆ dom ts.
Proof.
  intros Hk Hm. rewrite map_sum_insert. unfold map_val. rewrite Hk. split.
  - destruct st, st'; simpl in *; lia || done.
  - apply elem_of_dom_2 in Hk. set_solver.
Qed.

Lemma todo_ends (ts : gmap nat stage) k st :
  ts !! k = Some st -> todo (delete k ts) < todo ts /\ (dom (delete k ts) : gset nat) ⊆ dom ts.
Proof.
  intros Hk. rewrite map_sum_delete. unfold map_val. rewrite Hk. pose proof (rank_positive st).
  split; [simpl; lia|set_solver].
Qed.

(** A step of the receiver leaves the tasks alone, starts one or brings one nearer to its
    end. *)
Lemma step_tasks a r r' :
  receiving_step a r r' ->
  (tasks (store r') = tasks (store r) /\ forall k, a <> RecordTask k) \/
  (exists k, is_Some (tasks (store r') !! k) /\ tasks (store r) !! k = None /\ forall k, a <> RecordTask k) \/
  (exists k, a = RecordTask k /\ todo (tasks (store r')) < todo (tasks (store r)) /\
    (dom (tasks (store r')) : gset nat) ⊆ dom (tasks (store r))).
Proof.
  intros Hs. destruct Hs; try (left; split; [done|congruence]).
  - right; left. exists r. simpl. match goal with E : tasks _ = _ |- _ => rewrite E end.
    rewrite lookup_insert_eq. by split_and!.
  - right; right. exists r. split; [done|]. simpl.
    match goal with E : tasks s = _ |- _ => rewrite E end. by eapply todo_goes_on.
  - right; right. exists r. split; [done|]. rewrite store_settle.
    match goal with E : tasks s = _ |- _ => rewrite E end. by eapply todo_ends.
  - right; right. exists r. split; [done|]. rewrite store_settle. simpl. by eapply todo_ends.
Qed.

(** While the server waits for the lock a task only goes on or ends. *)
Lemma closing_step e x y k :
  transition e x y -> closing x -> recording_at k x ->
  ~ closing y \/ unrecorded y < unrecorded x \/
  (closing y /\ unrecorded y = unrecorded x /\ recording_at k y /\ forall j, e <> InReceiver (RecordTask j)).
Proof.
  unfold closing, unrecorded, recording_at. intros Hs Hc Hk.
  destruct Hs as [p p' r e He1 He2 Hs|p r r' a Ha Hs Hu Hl|p r now w w' d res drains Hst Et Ef|p r dt Hdt];
    simpl in *.
  - destruct (is_closing (srv p')); [right; right|by left]. by split_and!.
  - destruct (step_tasks _ _ _ Hs) as [[-> Hj]|[(j & Hin & Hnin & _)|(j & -> & Hlt & _)]].
    + right; right. split_and!; [done..|congruence].
    + apply elem_of_dom, (Hl Hc), elem_of_dom in Hin. rewrite Hnin in Hin. by destruct Hin.
    + by right; left.
  - rewrite Et in Hk. by destruct Hk.
  - right; right. by split_and!.
Qed.

Lemma task_step_enabled (env : WriteEnv) x k :
  ReceivingInv (rcv x) -> recording_at k x -> enabled transition (InReceiver (RecordTask k)) x.
Proof.
  intros Hx [st Hk]. destruct x as [p r]; simpl in *.
  destruct (task_enabled to_vec render instant_max env r k st Hx Hk) as [r' Hs].
  exists (mkWhole p r'). apply whole_receiver; [done..|]. intros _.
  destruct (step_tasks _ _ _ Hs) as [[-> _]|[(j & _ & _ & Hj)|(j & _ & _ & Hd)]]; [done| |done].
  by destruct (Hj k).
Qed.

Lemma sink_step_enabled x : closing x -> tasks (store (rcv x)) = ∅ -> enabled transition SinkIsClosed x.
Proof.
  intros Hc Et. destruct x as [p r]; simpl in *.
  destruct (sink_flush (inner (store r)) 0 (Pretty.Never, Pretty.Never) (Pretty.Never, Pretty.Never)
    (disk (store r))) as [[d res] drains] eqn:Ef.
  eexists. by eapply whole_sink_closes.
Qed.

Lemma idle_until e x y :
  transition e x y -> closing x /\ tasks (store (rcv x)) = ∅ ->
  (closing y /\ tasks (store (rcv y)) = ∅) \/ ~ closing y.
Proof.
  unfold closing. intros Hs [Hc Ht].
  destruct Hs as [p p' r e He1 He2 Hs|p r r' a Ha Hs Hu Hl|p r now w w' d res drains Hst Et Ef|p r dt Hdt];
    simpl in *.
  - destruct (is_closing (srv p')); [by left|by right].
  - left. split; [done|]. specialize (Hl Hc). rewrite Ht, dom_empty_L in Hl.
    apply dom_empty_inv_L. set_solver.
  - right. by rewrite close_returns.
  - by left.
Qed.

(** ** A run of the whole is one of the process *)

Lemma whole_run_process ev tr :
  run_of transition ev tr ->
  run_of (Process.step registered) (part_events process_label ev) (part_trace proc tr).
Proof.
  apply run_part. intros n e Hs. destruct Hs as [p p' r e He1 He2 Hs|p r r' a Ha Hs Hu Hl
    |p r now w w' d res drains Hst Et Ef|p r dt Hdt]; simpl in *; [done|done| |].
  - apply (process_server registered p SinkCloses); [done|by apply Server.step_closed].
  - by apply process_tick.
Qed.

(** ** What a run takes for granted *)

(** The runtime polls what is ready, in the process and among the tasks that record, and grants
    the write side of the lock when nobody holds the read side; time passes. *)
Record WholeGoesOn ev tr : Prop := {
  whole_clock : clock_goes_on (fun x => Server.now (srv (proc x))) tr;
  whole_fair e : owed e -> e <> ServerDoes SinkCloses -> fair transition (InProcess e) ev tr;
  whole_tasks k : fair transition (InReceiver (RecordTask k)) ev tr;
  whole_sink : fair transition SinkIsClosed ev tr;
}.

Section a_run.
Context (env : WriteEnv) (ev : nat -> option whole_event) (tr : nat -> whole C Sem).
Context (Hrun : run_of transition ev tr) (Hon : WholeGoesOn ev tr).
Context (Hinv : forall n, ReceivingInv (rcv (tr n))).

(** The tasks come to their end. *)
Lemma tasks_end n :
  closing (tr n) -> eventually (fun x => ~ closing x \/ tasks (store (rcv x)) = ∅) tr n.
Proof.
  remember (Z.to_nat (unrecorded (tr n))) as k eqn:Ek. revert n Ek.
  induction (lt_wf k) as [k _ IH]. intros n Ek Hc.
  destruct (decide (tasks (store (rcv (tr n))) = ∅)) as [|Hne]; [exists n; auto|].
  apply map_choose in Hne as (j & st & Hj).
  apply (eventually_trans (fun x => ~ closing x \/ unrecorded x < unrecorded (tr n))).
  { intros m _ [Hm|Hlt]; [exists m; auto|].
    destruct (is_closing (srv (proc (tr m)))) as [Hm|]; [|exists m; auto].
    apply (IH (Z.to_nat (unrecorded (tr m)))); [|done|done].
    pose proof (todo_nonneg (tasks (store (rcv (tr m))))). unfold unrecorded in *. simpl in *. lia. }
  apply (wf1_trace transition
    (fun x => closing x /\ unrecorded x = unrecorded (tr n) /\ recording_at j x) _
    (InReceiver (RecordTask j)) ev tr n (whole_tasks _ _ Hon j)).
  - intros m _ (Hcm & Em & Hjm). specialize (Hrun m). destruct (ev m) as [e|]; [|left; by rewrite Hrun].
    destruct (closing_step _ _ _ _ Hrun Hcm Hjm) as [|[|(? & ? & ? & _)]]; [by right; left|right; right; lia|].
    left. split_and!; [done|lia|done].
  - intros m _ E (Hcm & Em & Hjm). pose proof (Runs.taken transition _ _ _ _ Hrun E) as Hs.
    destruct (closing_step _ _ _ _ Hs Hcm Hjm) as [|[|(_ & _ & _ & Hno)]]; [by left|right; lia|].
    by destruct (Hno j).
  - intros m _ (_ & _ & Hjm). by apply task_step_enabled.
  - split_and!; [done..|by exists st].
Qed.

Lemma sink_gets_closed n : closing (tr n) -> eventually (fun x => ~ closing x) tr n.
Proof.
  intros Hc. apply (eventually_trans (fun x => ~ closing x \/ tasks (store (rcv x)) = ∅));
    [|by apply tasks_end].
  intros m _ [|Et]; [by exists m|]. destruct (is_closing (srv (proc (tr m)))) as [Hm|]; [|by exists m].
  apply (wf1 transition (fun x => closing x /\ tasks (store (rcv x)) = ∅) _ SinkIsClosed ev tr m Hrun
    (whole_sink _ _ Hon)).
  - intros e x y. apply idle_until.
  - intros x y Hs _. unfold closing. inversion Hs; subst. simpl. by rewrite close_returns.
  - intros x [Hx Hxt]. by apply sink_step_enabled.
  - done.
Qed.

(** What [Process] takes for granted. *)
Lemma process_goes_on capacities :
  GoesOn registered capacities (part_events process_label ev) (part_trace proc tr).
Proof.
  assert (forall e, owed e -> e <> ServerDoes SinkCloses ->
    fair (Process.step registered) e (part_events process_label ev) (part_trace proc tr)) as Hf.
  { intros e He Hne. apply (fair_part transition) with (InProcess e); [done| |by apply (whole_fair _ _ Hon)].
    intros n [p' Hs]. destruct (tr n) as [p r] eqn:En. simpl in Hs. exists (mkWhole p' r).
    apply whole_process; [done| |done]. by intros ->. }
  split; try (by intros; apply Hf); [apply (whole_clock _ _ Hon)|].
  intros n. destruct (is_closing (srv (proc (tr n)))) as [Hc|Hc].
  - destruct (sink_gets_closed n Hc) as (m & Hm & Hnc). exists m. split; [done|right].
    intros [p' Hs]. apply Hnc. inversion Hs as [? ? ? ? Hs'| | | | | | |]; subst. by inversion Hs'.
  - exists n. split; [done|right]. intros [p' Hs]. apply Hc.
    inversion Hs as [? ? ? ? Hs'| | | | | | |]; subst. by inversion Hs'.
Qed.
End a_run.

Lemma whole_run_reachable capacities t max_inflight timeout i d ev tr n :
  tr 0%nat = whole_started capacities t max_inflight timeout i d -> run_of transition ev tr ->
  Whole.reachable to_vec render instant_max registered io_text capacities t max_inflight timeout i d (tr n).
Proof.
  intros H0' Hr. induction n as [|n IH]; [rewrite H0'; apply rtc_refl|]. specialize (Hr n).
  destruct (ev n) as [e|]; [|by rewrite Hr]. eapply rtc_r; [exact IH|by exists e].
Qed.

(** Once the server has returned the disk stays as it is. *)
Lemma settled_stays D :
  stable transition (fun x => (SettledInv x /\ returned (proc x)) /\ disk (store (rcv x)) = D).
Proof.
  intros e x y Hs [[Hx Hr] <-]. pose proof (settled_step _ _ _ _ _ _ _ _ Hs Hx) as Hy.
  unfold returned, SettledInv in *.
  destruct Hs as [p p' r e He1 He2 Hs|p r r' a Ha Hs Hu _|p r now w w' d res drains Hst Et Ef|p r dt Hdt];
    simpl in *; [| |congruence|done].
  - split; [split; [done|]|done].
    inversion Hs; subst; simpl; try done. by eapply (returned_stays registered).
  - destruct (Hx Hr) as (Ea & Et & _). destruct (closed_sink_step _ _ _ _ _ _ Hs Ea Et Hu) as (_ & _ & Ed & _).
    done.
Qed.
End live_lemmas.

(** * Properties *)

(** C6. The program stops when it is told to.  Started with any workers and any sink, and told
    by a signal or by the end of a listener, it exits in every run in which the runtime polls
    what is ready and time passes - whatever clients, upstreams and outputs do, and although
    requests are being recorded when the listeners are aborted: their tasks end first, then the
    sink is closed, which nothing takes for granted here.  The exit status is that of the
    server; no task is left; every worker stopped with its requests accounted for; if the status
    is success the log is synced; and from then on the disk stays as it is. *)
Theorem whole_exits `{World, NaiveDates, ChannelLaws C ExportRequest, SemaphoreLaws Sem} `{Codecs}
    `{!Requests} `{Tonic} (env : WriteEnv) to_vec render instant_max registered io_text
    capacities t max_inflight timeout i d ev (tr : nat -> whole C Sem) n :
  Forall (fun capacity => 1 <= capacity) capacities ->
  tr 0%nat = whole_started capacities t max_inflight timeout i d ->
  run_of (Whole.step to_vec render instant_max registered io_text) ev tr ->
  WholeGoesOn to_vec render instant_max registered io_text ev tr ->
  asked_to_stop (srv (proc (tr n))) ->
  exists m, (n <= m)%nat /\ let x := tr m in
    main_at (proc x) = Exited (result_ (srv (proc x))) /\
    admission (store (rcv x)) = false /\ tasks (store (rcv x)) = ∅ /\
    (result_ (srv (proc x)) = Ok tt ->
     forall w, sink_file (inner (store (rcv x))) = Some w ->
       synced (disk (store (rcv x))) !! log_handle w = Some (contents (disk (store (rcv x))) (log_handle w))) /\
    (forall j l, workers (proc x) !! j = Some l ->
       worker_phase (body l) = Worker.Stopped /\
       sent_total (metrics (body l)) + failed_total (metrics (body l)) + dropped_total (metrics (body l)) =
       offered (body l)) /\
    forall k, (m <= k)%nat -> disk (store (rcv (tr k))) = disk (store (rcv x)).
Proof.
  intros Hpos Hstart Hrun Hon Ha.
  pose proof (fun n => whole_run_reachable _ _ _ _ _ _ _ _ _ _ _ ev tr n Hstart Hrun) as Hreach.
  assert (forall n, ReceivingInv (rcv (tr n))) as Hrecv.
  { intros k. destruct (whole_parts _ _ _ _ _ _ _ _ _ _ _ _ (Hreach k)) as [_ Hr].
    by eapply receiving_reachable. }
  destruct (process_ends registered capacities t (part_events process_label ev) (part_trace proc tr)
    (f_equal proc Hstart) (whole_run_process _ _ _ _ _ _ _ Hrun)
    (process_goes_on _ _ _ _ _ env ev tr Hrun Hon Hrecv capacities) Hpos n Ha) as (m & Hm & r & Hr).
  exists m. split; [done|]. simpl. unfold part_trace in Hr.
  destruct (whole_parts _ _ _ _ _ _ _ _ _ _ _ _ (Hreach m)) as [Hp _].
  assert (main_at (proc (tr m)) <> Process.Serving) as Hserv by (by rewrite Hr).
  pose proof (inv_returned _ _ Hp Hserv) as Hret.
  pose proof (settled_reachable _ _ _ _ _ _ _ _ _ _ _ _ (Hreach m)) as Hset.
  destruct (Hset Hret) as (Hadm & Htasks & Hsync).
  split; [by rewrite Hr, (inv_result _ _ Hp r Hr)|]. split_and!; [done..| |].
  - intros j l Hl. by eapply exited_worker.
  - intros k Hk. eapply (stable_trace _ _ ev tr m k (settled_stays _ _ _ _ _ _) Hrun Hk). done.
Qed.

(** ** A run to evaluate examples with *)

#[local] Existing Instance sample_world.
#[local] Existing Instance sample_dates.
#[local] Existing Instance sample_codecs.
#[local] Existing Instance sample_tonic.
#[local] Existing Instance counter_semaphore_laws.
#[local] Existing Instance sample_requests.

(** A client goes away while its batch is written; then SIGTERM comes. *)
Definition opening : receiving (list_channel ExportRequest) Z := opened 1 (secs 5) sample_sink sample_disk.
Definition at_disk (n : nat) (d : Disk) (st : stage) persisted counted :=
  serving None n d {[0%nat := st]} persisted counted [].
Definition unheard : receiving (list_channel ExportRequest) Z :=
  mkReceiving (Admission.mkReceiver (mkLimits 1 0 8 (secs 5)) ∅ 0)
    (mkServer (sample_inner 3) sample_written true ∅ [sample_logs] [sample_logs]) ∅ [] [sample_logs].
Definition unheard_shut : receiving (list_channel ExportRequest) Z := shut_sink unheard synced_disk.

Definition told_srv : running := hear SigTerminate (launched 0).
Definition drain_srv : running := begin_drain told_srv None (Ok tt).
Definition half_srv : running := end_task GrpcListener (Finished (Ok tt)) drain_srv.
Definition down_srv : running := end_task HttpListener (Finished (Ok tt)) half_srv.
Definition closing_srv : running := end_drain down_srv (Ok tt) [].
Definition closed_srv : running := Server.close closing_srv (Ok tt).

Definition sample_whole := whole (list_channel ExportRequest) Z.
Definition at_work (s : running) (r : receiving (list_channel ExportRequest) Z) : sample_whole :=
  mkWhole (no_workers s Process.Serving) r.
Definition ending (m : main_stage) : sample_whole := mkWhole (no_workers closed_srv m) unheard_shut.

Definition told_whole : list (whole_event * sample_whole) := [
  (InReceiver (Arrive 0), at_work (launched 0) opening);
  (InReceiver (Poll 0), at_work (launched 0) (stalled_run 1).2);
  (InReceiver (Receive 0), at_work (launched 0) (serving (Some (Reading [])) 0 sample_disk ∅ [] [] []));
  (InReceiver (BodyEnds 0),
     at_work (launched 0) (serving (Some (Reading [x7b; x7d])) 0 sample_disk ∅ [] [] []));
  (InReceiver (Poll 0),
     at_work (launched 0) (serving (Some (Submitting sample_logs)) 0 sample_disk ∅ [] [] []));
  (InReceiver (Cancel 0), at_work (launched 0)
     (serving (Some (Awaiting sample_logs)) 0 sample_disk {[0%nat := Writing sample_logs]} [] [] []));
  (InProcess (ServerDoes Signal), at_work (launched 0) (at_disk 0 sample_disk (Writing sample_logs) [] []));
  (InProcess (ServerDoes Select), at_work told_srv (at_disk 0 sample_disk (Writing sample_logs) [] []));
  (InProcess (ServerDoes ListenerEnds), at_work drain_srv (at_disk 0 sample_disk (Writing sample_logs) [] []));
  (InProcess (ServerDoes ListenerEnds), at_work half_srv (at_disk 0 sample_disk (Writing sample_logs) [] []));
  (InProcess (ServerDoes PollDrain), at_work down_srv (at_disk 0 sample_disk (Writing sample_logs) [] []));
  (InReceiver (RecordTask 0), at_work closing_srv (at_disk 0 sample_disk (Writing sample_logs) [] []));
  (InReceiver (RecordTask 0),
     at_work closing_srv (at_disk 1 sample_written (Counting sample_logs) [sample_logs] []));
  (InReceiver (RecordTask 0),
     at_work closing_srv (at_disk 2 sample_written (Publishing sample_logs false) [sample_logs] [sample_logs]));
  (SinkIsClosed, at_work closing_srv unheard);
  (InProcess CancelsProxy, ending Process.Serving);
  (InProcess Joins, ending (Joining 0));
  (InProcess BlockingTasksEnd, ending (ShuttingDownRuntime 0))
].

Definition rest_whole (n : nat) : sample_whole :=
  mkWhole (no_workers (elapse (Z.of_nat n) closed_srv) (Exited (Ok tt))) (later (Z.of_nat n) unheard_shut).

Definition whole_ev : nat -> option whole_event := played_ev told_whole TimePasses.
Definition whole_tr : nat -> sample_whole := played_tr told_whole rest_whole.

#[local] Ltac by_process rule :=
  eapply whole_to; [eapply whole_process; [| |rule]; done|reflexivity].
#[local] Ltac by_run rule := by_process ltac:(eapply process_server; [|rule]; done).

(** The steps of the request whose handler is gone. *)
Lemma task_writes :
  sample_step (RecordTask 0) (at_disk 0 sample_disk (Writing sample_logs) [] [])
    (at_disk 1 sample_written (Counting sample_logs) [sample_logs] []).
Proof.
  eapply step_to; [eapply (step_task _ _ _ _ 0%nat (Writing sample_logs) (Counting sample_logs));
    [reflexivity..| |]|].
  - by apply (Sink.step_persist _ _ _ 0%nat sample_logs sample_env (sample_inner 1) sample_written).
  - reflexivity.
  - reflexivity.
Qed.

Lemma task_counts :
  sample_step (RecordTask 0) (at_disk 1 sample_written (Counting sample_logs) [sample_logs] [])
    (at_disk 2 sample_written (Publishing sample_logs false) [sample_logs] [sample_logs]).
Proof.
  eapply step_to; [eapply (step_task _ _ _ _ 0%nat (Counting sample_logs) (Publishing sample_logs false));
    [reflexivity..| |]|].
  - by apply (Sink.step_count _ _ _ 0%nat sample_logs (sample_inner 2)).
  - reflexivity.
  - reflexivity.
Qed.

Lemma task_publishes :
  sample_step (RecordTask 0)
    (at_disk 2 sample_written (Publishing sample_logs false) [sample_logs] [sample_logs]) unheard.
Proof.
  eapply step_to; [eapply (step_recorded _ _ _ _ 0%nat sample_logs); [reflexivity| | |]|].
  - by apply (Sink.step_publish _ _ _ 0%nat sample_logs false).
  - reflexivity.
  - exists 0%nat. split; [reflexivity|]. split_and!; [by apply (Admission.step_drop_last _ 0%nat)|reflexivity..].
  - reflexivity.
Qed.

Lemma whole_receives p a r r' :
  a <> Tick -> a <> Upkeep -> Server.stage (srv p) <> Server.Closing -> sample_step a r r' ->
  sample_whole_step (InReceiver a) (mkWhole p r) (mkWhole p r').
Proof. intros. by apply whole_receiver. Qed.

(** Reading and submitting as in [Receiving]. *)
Lemma whole_works n e x y :
  served_actions !! n = Some e -> served_run !! n = Some x -> served_run !! S n = Some y ->
  sample_whole_step (InReceiver e) (at_work (launched 0) x) (at_work (launched 0) y).
Proof.
  intros He Hx Hy. apply whole_receives; [..|done|by eapply served_run_step];
    do 7 (destruct n as [|n]; [by simplify_eq/=|]); done.
Qed.

(** A task goes on while the server waits for the lock. *)
Lemma whole_records r r' :
  (dom (tasks (store r')) : gset nat) ⊆ dom (tasks (store r)) -> sample_step (RecordTask 0) r r' ->
  sample_whole_step (InReceiver (RecordTask 0)) (at_work closing_srv r) (at_work closing_srv r').
Proof. intros. by apply whole_receiver. Qed.

Lemma told_whole_plays : plays sample_whole_step told_whole (rest_whole 0).
Proof.
  repeat split; simpl.
  - apply whole_receives; [done..|]. exact (stalled_run_ok 0%nat).
  - apply whole_receives; [done..|]. exact (stalled_run_ok 1%nat).
  - by apply (whole_works 0).
  - by apply (whole_works 1).
  - by apply (whole_works 2).
  - apply whole_receives; [done..|]. eapply step_to.
    + eapply (step_cancel _ _ _ _ 0%nat (set_phase stalled_handler (Awaiting sample_logs)));
        [reflexivity|done|reflexivity].
    + reflexivity.
  - by_run ltac:(apply (step_signal _ _ only_term SigTerminate); [set_solver|done|simpl; lia]).
  - by_run ltac:(by apply step_select_shutdown).
  - by_run ltac:(by apply (step_listener _ _ GrpcListener (Finished (Ok tt)))).
  - by_run ltac:(by apply (step_listener _ _ HttpListener (Finished (Ok tt)))).
  - by_run ltac:(by eapply step_drain_ends).
  - apply whole_records; [done|apply task_writes].
  - apply whole_records; [done|apply task_counts].
  - apply whole_records; [set_solver|apply task_publishes].
  - eapply whole_to; [by eapply (whole_sink_closes _ _ _ _ _ _ unheard 0 (Pretty.Never, Pretty.Never)
      (Pretty.Never, Pretty.Never) synced_disk (Ok tt))|reflexivity].
  - by_process ltac:(by apply process_cancel).
  - by_process ltac:(by apply (process_joined _ _ 0%nat)).
  - by_process ltac:(by eapply process_exit_early).
Qed.

Lemma told_whole_run : run_of sample_whole_step whole_ev whole_tr.
Proof.
  apply played_run; [apply told_whole_plays|]. intros n.
  eapply whole_to; [by apply (whole_time _ _ _ _ _ (proc (rest_whole n)) (rcv (rest_whole n)) 1)|].
  unfold rest_whole, no_workers, later, elapse. simpl. rewrite !Nat2Z.inj_succ.
  do 2 f_equal; f_equal; lia.
Qed.

Lemma told_whole_goes_on :
  WholeGoesOn sample_to_vec sample_render (secs 1000000) (fun _ => true) (fun _ => "io"%string)
    whole_ev whole_tr.
Proof.
  split.
  - apply (played_clock _ _ (fun x : sample_whole => Server.now (srv (proc x)))). intros t n. exists (Z.to_nat t + n)%nat. split; [lia|].
    simpl. lia.
  - intros e He Hne. apply played_fair. intros n [y Hy].
    inversion Hy as [? ? ? ? _ _ Hs| | |]; subst.
    inversion Hs as [? ? ? ? Hs'|? i ? l l' Hl| | | | | |]; subst; simplify_eq/=; try done.
    inversion Hs'; subst; simplify_eq/=; done.
  - intros k. apply played_fair. intros n [y Hy].
    inversion Hy as [|? ? ? ? _ Hs| |]; subst. by inversion Hs; subst; simplify_map_eq.
  - apply played_fair. intros n [y Hy]. by inversion Hy.
Qed.

Lemma whole_exits_witness :
  asked_to_stop (srv (proc (whole_tr 7))) /\
  (exists m, (7 <= m)%nat /\ main_at (proc (whole_tr m)) = Exited (result_ (srv (proc (whole_tr m)))) /\
    tasks (store (rcv (whole_tr m))) = ∅) /\
  abandoned (rcv (rest_whole 0)) = [sample_logs].
Proof.
  assert (asked_to_stop (srv (proc (whole_tr 7)))) as Ha by (left; reflexivity).
  split; [exact Ha|]. split; [|reflexivity].
  destruct (whole_exits sample_env sample_to_vec sample_render (secs 1000000) (fun _ => true)
    (fun _ => "io"%string) [] 0 1 (secs 5) sample_sink sample_disk whole_ev whole_tr 7
    ltac:(constructor) eq_refl told_whole_run told_whole_goes_on Ha) as (m & Hm & He & _ & Ht & _).
  exists m. split; [exact Hm|]. split; [exact He|exact Ht].
Defined.
