(* ===== verification/Forwarding.v ===== *)
(** * From the log to the upstream

    The sink and the workers of [Whole] share the channels and the counters of the routes: what
    a task publishes is offered to the workers, and what a worker takes is gone from the
    channel of its lane.  [link_step] is [Whole.step] with this sharing; the theorem counts every
    batch that reached the log until it is sent, failed or dropped. *)

From Stdlib Require Import Strings.Byte.
From S2P Require Import Prelude Runs Io Otlp AggState AggIngest AggBatch Storage Health Pretty Path Config Cli Channel Router Client Worker WorkerLife Server Process Rotation Sink Admission Http Grpc Receiving Main Whole.

Local Open Scope Z_scope.

(** ** The shared channels *)

Section linked.
Context `{World} `{NaiveDates} {C : Type} `{ChannelOps C ExportRequest} {Sem : Type}
  `{SemaphoreOps Sem} `{Codecs} `{!Requests} `{Tonic}.
Context (to_vec : batch -> option (list byte)) (render : batch -> bool -> string).
Context (instant_max : Z) (registered : ShutdownSignal -> bool) (io_text : ErrorKind -> string).
Implicit Types (p : process C) (r : receiving C Sem) (x y : whole C Sem) (l : life C).

Definition forwards r : option (ProxyRouter C) := proxy (inner (store r)).

(** A lane sees the channel and the counters that its worker holds. *)
Definition relane (lane : RouteLane C) l : RouteLane C :=
  mkLane (lane_name lane) (lane_route lane) (chan (body l)) (metrics (body l)).
Definition relane_all (router : ProxyRouter C) (ls : list (life C)) : ProxyRouter C :=
  mkRouter (zip_with relane (lanes router) ls) (matcher router).

Definition set_proxy (s : SinkInner C) (router : option (ProxyRouter C)) : SinkInner C :=
  mkSink (summary_enabled s) (jsonl_health s) (sink_file s) (stdout s) (pretty_log s) (aggregator s) router.

Definition relink (ls : list (life C)) r : receiving C Sem :=
  let s := store r in
  mkReceiving (recv r)
    (mkServer (set_proxy (inner s) (option_map (fun router => relane_all router ls) (proxy (inner s))))
      (disk s) (admission s) (tasks s) (persisted s) (counted s))
    (handlers r) (answers r) (abandoned r).

(** What a step of the receiver publishes. *)
Definition published (a : action) r : option batch :=
  match a with
  | RecordTask k => match tasks (store r) !! k with Some (Publishing b _) => Some b | _ => None end
  | _ => None
  end.

(** [notify], seen by the workers. *)
Definition offer_share (b : batch) (lane : RouteLane C) l : life C :=
  from_option (fun q => set_body l (offer (body l) q)) l (share (lane_route lane) b).
Definition told (news : option batch) p r : process C :=
  match news, forwards r with
  | Some b, Some router =>
      mkProcess (srv p) (zip_with (offer_share b) (lanes router) (workers p)) (main_at p)
  | _, _ => p
  end.

Inductive link_step : whole_event -> whole C Sem -> whole C Sem -> Prop :=
(** Workers are offered what the sink publishes, and nothing else. *)
| link_process e p p' r :
    (forall i, e <> WorkerDoes i Offered) ->
    Whole.step to_vec render instant_max registered io_text (InProcess e) (mkWhole p r) (mkWhole p' r) ->
    link_step (InProcess e) (mkWhole p r) (mkWhole p' (relink (workers p') r))
(** Fewer than [2^64] requests are ever offered to a route. *)
| link_receiver a p r r' :
    Whole.step to_vec render instant_max registered io_text (InReceiver a) (mkWhole p r) (mkWhole p r') ->
    (a = Upkeep -> forwards r' = forwards r) ->
    Forall (fun l => offered (body l) + 1 < word) (workers p) ->
    link_step (InReceiver a) (mkWhole p r) (mkWhole (told (published a r) p r) r')
| link_other e x y :
    e = SinkIsClosed \/ e = TimePasses ->
    Whole.step to_vec render instant_max registered io_text e x y -> link_step e x y.

Definition link_reachable capacities t max_inflight timeout i d x : Prop :=
  rtc (fun x y => exists e, link_step e x y) (whole_started capacities t max_inflight timeout i d) x.

(** ** Specification *)

(** What a route is to be sent of some batches. *)
Definition shares (route : ProxyRoute) (bs : list batch) : list ExportRequest := omap (share route) bs.

(** Router [router0] as it is now, with its workers. *)
Definition linked (router0 : ProxyRouter C) x : Prop :=
  forwards (rcv x) = Some (relane_all router0 (workers (proc x))) /\
  length (workers (proc x)) = length (lanes router0).

Definition still_publishing x : list batch := map_collect publishing (tasks (store (rcv x))).

(** What was counted was offered, or its task is about to. *)
Definition offers_all (router0 : ProxyRouter C) x : Prop :=
  forall j lane l, lanes router0 !! j = Some lane -> workers (proc x) !! j = Some l ->
    Z.of_nat (length (shares (lane_route lane) (counted (store (rcv x))))) =
      offered (body l) + Z.of_nat (length (shares (lane_route lane) (still_publishing x))) /\
    accepted (body l) ++ shares (lane_route lane) (still_publishing x) ⊆+
      shares (lane_route lane) (counted (store (rcv x))).

(** The lanes of a new router, over channels of these capacities. *)
Definition fresh (router0 : ProxyRouter C) (capacities : list Z) : Prop :=
  Forall2 (fun lane capacity => sender lane = channel_new capacity /\ lane_metrics lane = metrics_default)
    (lanes router0) capacities /\
  matcher router0 = matcher_new (lanes router0) /\ NoDup (claimed (map lane_route (lanes router0))).
End linked.

(** * Lemmas *)

(** ** One lane *)

Lemma share_not_empty route b q : share route b = Some q -> request_is_empty q = false.
Proof.
  unfold share, nonempty. destruct (accepts_signal _ _); [|done].
  destruct b; destruct (List.filter _ _) eqn:E; by intros [= <-].
Qed.

Lemma matcher_new_routes {C} (ls ls' : list (RouteLane C)) :
  map lane_route ls = map lane_route ls' -> matcher_new ls = matcher_new ls'.
Proof.
  revert ls'. induction ls as [|l ls IH] using rev_ind; intros ls' E.
  - by destruct ls'.
  - destruct ls' as [|l' ls' _] using rev_ind; rewrite !map_app in E.
    + by destruct (map lane_route ls).
    + apply app_inj_tail in E as [E E']. rewrite !matcher_new_snoc, (IH _ E), E'.
      by rewrite <- (length_map lane_route ls), E, length_map.
Qed.

Section lane_lemmas.
Context {C : Type} `{ChannelOps C ExportRequest}.
Implicit Types (lane : RouteLane C) (l : life C).

Lemma deliver_offer lane l b :
  deliver (relane lane l) (share (lane_route lane) b) = relane lane (offer_share b lane l).
Proof.
  unfold deliver, offer_share, relane, offer. destruct (share (lane_route lane) b) as [q|]; [|done].
  simpl. by destruct (try_send (chan (body l)) q) as [c [e|]].
Qed.

Lemma relane_routes (ls : list (RouteLane C)) (ws : list (life C)) :
  length ws = length ls -> map lane_route (zip_with relane ls ws) = map lane_route ls.
Proof.
  revert ws. induction ls as [|lane ls IH]; intros [|l ws] E; simpl; try done. by rewrite IH by (simpl in *; lia).
Qed.

(** What the router does to its lanes is what its workers see. *)
Lemma notify_relane (router0 : ProxyRouter C) ws b :
  matcher router0 = matcher_new (lanes router0) -> NoDup (claimed (map lane_route (lanes router0))) ->
  length ws = length (lanes router0) ->
  notify (relane_all router0 ws) b =
  relane_all router0 (zip_with (offer_share b) (lanes (relane_all router0 ws)) ws).
Proof.
  intros Hm Hnd Hlen. unfold notify, relane_all. simpl. f_equal.
  rewrite Hm, <- (matcher_new_routes _ _ (relane_routes _ _ Hlen)).
  rewrite <- (relane_routes _ _ Hlen) in Hnd.
  apply list_eq. intros j. rewrite list_lookup_fmap, !lookup_zip_with.
  destruct (lanes router0 !! j) as [lane|] eqn:El; [|done]. simpl.
  destruct (ws !! j) as [l|] eqn:Ew; [|done]. simpl. f_equal.
  rewrite (notify_lane_share (zip_with relane (lanes router0) ws) j); [exact (deliver_offer lane l b)|done|].
  by rewrite lookup_zip_with, El, Ew.
Qed.
End lane_lemmas.

(** ** What a step of the receiver publishes and counts *)

Section ledger_lemmas.
Context `{World} `{NaiveDates} {C : Type} `{ChannelOps C ExportRequest} {Sem : Type}
  `{SemaphoreOps Sem} `{Codecs} `{!Requests} `{Tonic}.
Context (to_vec : batch -> option (list byte)) (render : batch -> bool -> string) (instant_max : Z).
Implicit Types (r : receiving C Sem) (s : server (C := C)).

#[local] Abbreviation sink_step := (Sink.step to_vec render).
#[local] Abbreviation receiving_step := (Receiving.step to_vec render instant_max).

Lemma begin_proxy s s' k b :
  sink_step s s' -> tasks s !! k = None -> tasks s' = <[k := Writing b]> (tasks s) ->
  proxy (inner s') = proxy (inner s).
Proof.
  intros Hs Ek E. destruct Hs as [s t ? Et|s t ? ? ? ? Et|s t ? ? ? ? ? Et|s t ? ? ? Et|s t ? ? Et|s|s|s];
    simpl in *; try done; try (by same_key E t k).
  apply (f_equal (fun m => m !! k)) in E. by rewrite Ek, lookup_insert_eq in E.
Qed.

Lemma persist_proxy env b (i : SinkInner C) d : proxy (persist to_vec env b i d).1.1 = proxy i.
Proof. unfold persist. destruct (sink_file i); [|done]. repeat case_match; by simplify_eq/=. Qed.

Lemma count_proxy b (i : SinkInner C) : proxy (count b i).1 = proxy i.
Proof. unfold count. by destruct (ingest (aggregator i) b). Qed.

Lemma task_proxy s s' k st st' :
  sink_step s s' -> tasks s !! k = Some st -> task_move st st' -> tasks s' = <[k := st']> (tasks s) ->
  proxy (inner s') = proxy (inner s).
Proof.
  intros Hs Ek Hm E. destruct Hs as [s t ? Et|s t ? ? ? ? Et Ep|s t ? ? ? ? ? Et Ep|s t ? ? ? Et Ec|s t ? ? Et|s|s|s];
    simpl in *; try done.
  - by rewrite <- (persist_proxy env r (inner s) (disk s)), Ep.
  - by rewrite <- (persist_proxy env r (inner s) (disk s)), Ep.
  - by rewrite <- (count_proxy r (inner s)), Ec.
  - same_key E t k.
  - apply (f_equal (fun m => m !! k)) in E. rewrite Ek, lookup_insert_eq in E. simplify_eq.
    by destruct st'.
Qed.

Lemma publish_proxy s s' k b ws :
  sink_step s s' -> tasks s !! k = Some (Publishing b ws) -> tasks s' = delete k (tasks s) ->
  proxy (inner s') = option_map (fun router => notify router b) (proxy (inner s)).
Proof.
  intros Hs Ek E. destruct Hs as [s t ? Et|s t ? ? ? ? Et|s t ? ? ? ? ? Et|s t ? ? ? Et|s t ? ? Et|s|s|s];
    simpl in *; try done; try (by same_key E t k).
  all: apply (f_equal (fun m => m !! k)) in E; by rewrite Ek, lookup_delete_eq in E.
Qed.

(** Counted batches are published or wait for it. *)
Definition flows (news : option batch) r r' : Prop :=
  exists added, counted (store r') = counted (store r) ++ added /\
    option_list news ++ map_collect publishing (tasks (store r')) ≡ₚ
      map_collect publishing (tasks (store r)) ++ added.

Lemma flows_none r r' :
  counted (store r') = counted (store r) ->
  map_collect publishing (tasks (store r')) ≡ₚ map_collect publishing (tasks (store r)) -> flows None r r'.
Proof. intros Ec Ep. exists []. by rewrite !app_nil_r. Qed.

Lemma step_flows a r r' :
  receiving_step a r r' ->
  flows (published a r) r r' /\
  (a <> Upkeep ->
   forwards r' = match published a r with
                 | Some b => option_map (fun router => notify router b) (forwards r)
                 | None => forwards r
                 end).
Proof.
  intros Hs. destruct Hs as [x|x r p signal d q a Eh Eq Ed Hq Hm|x r h q q' a Eh Ep Eq Hq Hm
    |x r h a Eh Ep Eq Hm|x r h d a Eh Ep Eq Hd Hm|x r h d a Eh Ep Eq Hm|x r h a Eh Ep Eq Hm
    |x r h buf chunk Eh Ep Hb|x r h buf b a Eh Ep Ed Hf|x r h buf ans a Eh Ep Hf Hd
    |x r h buf a Eh Ep Hb Hd|x r h b s Eh Ep Ha Et Hs E|x r h b a Eh Ep Ha Hd
    |x r st st' s Et Hm Hs E|x r b ws a s Et Hs E Hd|x r b env i d err a Et Hp Hd
    |x r h b res a Eh Ep Hd|x r h a Eh Ep Hd|x s Hs E|x t Ht]; unfold forwards; simpl;
    try (split; [by apply flows_none|done]).
  - split; [apply flows_none; simpl|by intros _; eapply begin_proxy].
    + by eapply sink_begin_counted.
    + rewrite E. by rewrite map_collect_insert_None.
  - rewrite Et. pose proof (map_collect_insert publishing (tasks (store x)) r st') as Hc.
    rewrite (map_part_Some _ _ _ _ Et), <- E in Hc. pose proof (sink_task_counted _ _ _ _ _ _ _ Hs Et Hm E) as Hk.
    assert (proxy (inner s) = proxy (inner (store x))) as Hpr by (by eapply task_proxy).
    destruct st as [b|b|b ws], st' as [b'|b'|b' ws']; simpl in Hm, Hk, Hc |- *; try done; subst; (split; [|done]).
    + apply flows_none; simpl; [|done]. by rewrite Hk, ?app_nil_r.
    + exists [b]. simpl. split; [done|]. rewrite Hc. apply Permutation_cons_append.
  - rewrite Et. simpl. pose proof (map_collect_delete publishing (tasks (store x)) r) as Hc.
    rewrite (map_part_Some _ _ _ _ Et), <- E in Hc.
    rewrite !store_settle. split; [|by intros _; eapply publish_proxy].
    exists []. rewrite !store_settle, !app_nil_r. split; [by eapply sink_end_counted|]. by rewrite Hc.
  - rewrite Et. simpl. rewrite !store_settle. simpl. split.
    + apply flows_none; rewrite store_settle; simpl; [done|].
      rewrite (map_collect_delete publishing (tasks (store x)) r). by rewrite (map_part_Some _ _ _ _ Et).
    + intros _. by rewrite <- (persist_proxy env b (inner (store x)) (disk (store x))), Hp.
  - split; [|done]. apply flows_none; simpl; [by eapply sink_upkeep_counted|by rewrite E].
Qed.
End ledger_lemmas.

(** ** A linked step is a run of steps *)

Lemma insert_middle {A} (l1 l2 : list A) a b : <[length l1 := b]> (l1 ++ a :: l2) = l1 ++ b :: l2.
Proof. induction l1 as [|c l1 IH]; [done|]. simpl. by rewrite IH. Qed.

(** Elements that are to be offered leave room for the next. *)
Definition room {C} (l : life C) : Prop := offered (body l) + 1 < word.

Section offers.
Context {C : Type} `{ChannelOps C ExportRequest} (registered : ShutdownSignal -> bool).
Implicit Types (l : life C).

Lemma offers_run b (lanes : list (RouteLane C)) ws before s m :
  length lanes = length ws -> Forall room ws ->
  rtc (fun p q => exists i, Process.step registered (WorkerDoes i Offered) p q)
    (mkProcess s (before ++ ws) m) (mkProcess s (before ++ zip_with (offer_share b) lanes ws) m).
Proof.
  revert lanes before. induction ws as [|l ws IH]; intros [|lane lanes] before Hlen Hroom; try done; simpl.
  apply Forall_cons in Hroom as [Hl Hroom].
  assert (forall k : life C, before ++ k :: ws = (before ++ [k]) ++ ws) as Hmid
    by (intros; by rewrite <- app_assoc).
  transitivity (mkProcess s (before ++ offer_share b lane l :: ws) m).
  - unfold offer_share. destruct (share (lane_route lane) b) as [q|] eqn:Eq; [|done]. simpl.
    apply rtc_once. exists (length before). rewrite <- (insert_middle before ws l (set_body l (offer (body l) q))).
    eapply (process_worker registered (mkProcess s (before ++ l :: ws) m)); [by apply list_lookup_middle|done|done|].
    apply life_offer; [by eapply share_not_empty|done].
  - rewrite Hmid. specialize (IH lanes (before ++ [offer_share b lane l]) ltac:(simpl in *; lia) Hroom).
    rewrite <- app_assoc in IH at 1. simpl in IH. rewrite <- Hmid. by rewrite <- app_assoc in IH.
Qed.

(** What is not an offer leaves what was offered alone. *)
Lemma lane_keeps e l l' :
  WorkerLife.step e l l' -> e <> Offered ->
  accepted (body l') = accepted (body l) /\ offered (body l') = offered (body l).
Proof.
  intros Hs He. unfold offered. destruct Hs; try done; simpl in *;
    match goal with E : _ = Some ?w |- _ => revert E end;
    unfold run_recv, run_break, run_sent, run_close, drain_next, drain_one, drain_finish;
    repeat case_match; intros; by simplify_eq/=.
Qed.

Lemma process_keeps e (p p' : process C) j l' :
  Process.step registered e p p' -> (forall i, e <> WorkerDoes i Offered) -> workers p' !! j = Some l' ->
  exists l, workers p !! j = Some l /\
    accepted (body l') = accepted (body l) /\ offered (body l') = offered (body l).
Proof.
  intros Hs He Hj. destruct Hs as [p e s He' Hs|p i e l k Hl He1 He2 Hs|p Hm Hst|p i l Hm Hl Hst|p i Hm Hl
    |p since Hm Hd|p since Hm|p dt Hdt]; simpl in *; try (by exists l').
  - apply list_lookup_insert_Some in Hj as [(-> & <- & _)|[_ Hj]]; [|by exists l'].
    exists l. split; [done|]. apply (lane_keeps _ _ _ Hs). intros ->. by apply (He j).
  - apply list_lookup_fmap_Some in Hj as (l & -> & Hj). by exists l.
  - apply list_lookup_fmap_Some in Hj as (l & -> & Hj). by exists l.
Qed.

Lemma process_length e (p p' : process C) :
  Process.step registered e p p' -> length (workers p') = length (workers p).
Proof. destruct 1; simpl; by rewrite ?length_insert, ?length_fmap. Qed.

Lemma relane_relane (router0 : ProxyRouter C) ws ws' :
  length ws = length (lanes router0) ->
  relane_all (relane_all router0 ws) ws' = relane_all router0 ws'.
Proof.
  intros Hlen. unfold relane_all. simpl. f_equal. apply list_eq. intros j. rewrite !lookup_zip_with.
  destruct (lanes router0 !! j) as [lane|] eqn:El; [|done]. simpl.
  destruct (lookup_lt_is_Some_2 ws j) as [l ->]; [|done]. rewrite Hlen. by eapply lookup_lt_Some.
Qed.
End offers.

Section link_lemmas.
Context `{World} `{NaiveDates} {C : Type} `{ChannelLaws C ExportRequest} {Sem : Type}
  `{SemaphoreLaws Sem} `{Codecs} `{!Requests} `{Tonic}.
Context (to_vec : batch -> option (list byte)) (render : batch -> bool -> string).
Context (instant_max : Z) (registered : ShutdownSignal -> bool) (io_text : ErrorKind -> string).
Implicit Types (p : process C) (r : receiving C Sem) (x y : whole C Sem) (l : life C).

#[local] Abbreviation transition := (link_step (Sem := Sem) to_vec render instant_max registered io_text).
#[local] Abbreviation whole_step := (Whole.step (Sem := Sem) to_vec render instant_max registered io_text).

Lemma told_length router0 news p r :
  linked router0 (mkWhole p r) -> length (workers (told news p r)) = length (workers p).
Proof.
  intros [Hf Hlen]. simpl in *. unfold told. rewrite Hf. destruct news as [b|]; [|done]. simpl.
  rewrite !length_zip_with. lia.
Qed.

Lemma told_run router0 news p r :
  linked router0 (mkWhole p r) -> Forall room (workers p) ->
  rtc (fun x y => exists e, whole_step e x y) (mkWhole p r) (mkWhole (told news p r) r).
Proof.
  intros [Hf Hlen] Hroom. simpl in *. unfold told. rewrite Hf. destruct news as [b|]; [|done].
  destruct p as [s ws m]. simpl in *.
  pose proof (offers_run registered b (zip_with relane (lanes router0) ws) ws [] s m) as Ho.
  rewrite length_zip_with in Ho. specialize (Ho ltac:(lia) Hroom). simpl in Ho.
  induction Ho as [|p q z (i & Hs) _ IH]; [apply rtc_refl|].
  eapply rtc_l; [|exact IH]. eexists. eapply whole_process; [| |exact Hs]; done.
Qed.

Lemma relink_run p p' r e :
  whole_step (InProcess e) (mkWhole p r) (mkWhole p' r) ->
  rtc (fun x y => exists e, whole_step e x y) (mkWhole p r) (mkWhole p' (relink (workers p') r)).
Proof.
  intros Hs. eapply rtc_l; [by eexists|]. apply rtc_once. exists (InReceiver Upkeep).
  apply whole_receiver; [done| |done|done].
  apply (step_upkeep _ _ _ r); [|done]. by apply Sink.step_others.
Qed.

Lemma link_run router0 e x y :
  linked router0 x -> transition e x y -> rtc (fun x y => exists e, whole_step e x y) x y.
Proof.
  intros Hx Hs. destruct Hs as [e p p' r He Hs|a p r r' Hs Hf Hroom|e x y He Hs].
  - by eapply relink_run.
  - etrans; [by eapply told_run|]. apply rtc_once. exists (InReceiver a). inversion Hs; subst.
    apply whole_receiver; [done..|]. unfold told. repeat case_match; simpl; done.
  - apply rtc_once. by exists e.
Qed.

(** ** The invariant *)

Lemma relink_forwards router0 p ws r :
  linked router0 (mkWhole p r) -> length ws = length (lanes router0) ->
  forwards (relink ws r) = Some (relane_all router0 ws).
Proof.
  intros [Hf Hlen] Hw. unfold forwards in *. simpl in *. rewrite Hf. simpl. f_equal.
  by apply relane_relane.
Qed.

Lemma link_step_linked router0 e x y :
  matcher router0 = matcher_new (lanes router0) -> NoDup (claimed (map lane_route (lanes router0))) ->
  transition e x y -> linked router0 x -> linked router0 y.
Proof.
  intros Hm Hnd Hs Hx. destruct Hs as [e p p' r He Hs|a p r r' Hs Hup Hroom|e x y He Hs].
  - inversion Hs as [? ? ? ? ? ? Hp| | |]; subst. pose proof (process_length _ _ _ _ Hp) as Hl.
    destruct Hx as [Hf Hlen]. simpl in *. split; simpl; [|lia]. eapply relink_forwards; [by split|simpl in *; lia].
  - pose proof (told_length _ (published a r) _ _ Hx) as Htl. inversion Hs as [|? ? ? ? Ha Hr| |]; subst.
    destruct Hx as [Hf Hlen]. split; simpl in *; [|lia].
    destruct (step_flows _ _ _ _ _ _ Hr) as [_ Hfw]. unfold told in *. rewrite Hf in *.
    assert (a = Upkeep \/ a <> Upkeep) as [->|Hne] by (destruct a; auto); [by rewrite Hup|].
    rewrite (Hfw Hne). destruct (published a r) as [b|]; [|done]. simpl. f_equal. by apply notify_relane.
  - destruct Hx as [Hf Hlen]. inversion Hs; subst; simpl in *; try by destruct He.
    unfold linked. simpl. rewrite length_fmap. split; [|done]. unfold forwards in *. simpl. rewrite Hf. f_equal.
    unfold relane_all. f_equal. apply list_eq. intros j. rewrite !lookup_zip_with, list_lookup_fmap.
    destruct (lanes router0 !! j); [|done]. simpl. by destruct (workers p !! j).
Qed.

(** ** Nothing is lost between the sink and the workers *)

Lemma shares_app route bs bs' : shares route (bs ++ bs') = shares route bs ++ shares route bs'.
Proof. apply omap_app. Qed.

#[local] Instance shares_Permutation route : Proper (Permutation ==> Permutation) (shares route).
Proof. intros bs bs' E. unfold shares. by rewrite E. Qed.

Lemma offer_share_counts b (lane : RouteLane C) l :
  offered (body (offer_share b lane l)) =
    offered (body l) + Z.of_nat (length (shares (lane_route lane) [b])) /\
  accepted (body (offer_share b lane l)) ⊆+ accepted (body l) ++ shares (lane_route lane) [b].
Proof.
  unfold offer_share, shares. simpl. destruct (share (lane_route lane) b) as [q|]; simpl.
  - unfold offer, offered. destruct (try_send (chan (body l)) q) as [c [e|]]; simpl.
    + split; [lia|]. apply submseteq_inserts_r. done.
    + rewrite length_app. simpl. split; [lia|done].
  - rewrite app_nil_r. split; [lia|done].
Qed.

(** The worker of a lane before and after a step of the receiver. *)
Lemma told_worker_at router0 news p r j lane l' :
  linked router0 (mkWhole p r) -> lanes router0 !! j = Some lane ->
  workers (told news p r) !! j = Some l' ->
  exists l, workers p !! j = Some l /\
    offered (body l') = offered (body l) + Z.of_nat (length (shares (lane_route lane) (option_list news))) /\
    accepted (body l') ⊆+ accepted (body l) ++ shares (lane_route lane) (option_list news).
Proof.
  intros [Hf Hlen] Hl Hw. simpl in *. unfold told in Hw. rewrite Hf in Hw.
  destruct news as [b|]; simpl in *.
  - rewrite !lookup_zip_with, Hl in Hw. simpl in Hw. destruct (workers p !! j) as [l|]; [|done].
    simplify_eq/=. exists l. split; [done|]. apply (offer_share_counts b (relane lane l)).
  - exists l'. rewrite app_nil_r. split_and!; [done|simpl; lia|done].
Qed.

Lemma link_step_offers router0 e x y :
  transition e x y -> linked router0 x -> offers_all router0 x -> offers_all router0 y.
Proof.
  intros Hs Hx Ho j lane l' Hl Hw. destruct Hs as [e p p' r He Hs|a p r r' Hs Hup Hroom|e x y He Hs].
  - inversion Hs as [? ? ? ? ? ? Hp| | |]; subst. simpl in *.
    destruct (process_keeps _ _ _ _ _ _ Hp He Hw) as (l & Hj & -> & ->). by apply (Ho j).
  - simpl in *. destruct (told_worker_at _ _ _ _ _ _ _ Hx Hl Hw) as (l & Hj & Hoff & Hacc).
    destruct (Ho j lane l Hl Hj) as [Hc Ha]. inversion Hs as [|? ? ? ? _ Hr| |]; subst.
    destruct (step_flows _ _ _ _ _ _ Hr) as [(added & Hcount & Hflow) _].
    unfold still_publishing in *. simpl in *. rewrite Hcount, shares_app, length_app.
    apply (shares_Permutation (lane_route lane)) in Hflow. rewrite !shares_app in Hflow.
    pose proof (Permutation_length Hflow) as Hlen. rewrite !length_app in Hlen.
    split; [lia|]. etrans; [by apply submseteq_app; [exact Hacc|]|].
    rewrite <- app_assoc, Hflow, app_assoc. by apply submseteq_app.
  - assert (exists l, workers (proc x) !! j = Some l /\ body l = body l' /\
      counted (store (rcv y)) = counted (store (rcv x)) /\ tasks (store (rcv y)) = tasks (store (rcv x))) as (l & Hj & Hb & E1 & E2).
    { inversion Hs; subst; simpl in *; try by destruct He.
      - by exists l'.
      - apply list_lookup_fmap_Some in Hw as (l & -> & Hj). by exists l. }
    unfold still_publishing. rewrite E1, E2, <- Hb. by apply (Ho j).
Qed.

(** ** From the start *)

Lemma fresh_linked (router0 : ProxyRouter C) capacities t max_inflight timeout i d :
  fresh router0 capacities -> proxy i = Some router0 ->
  linked router0 (whole_started (Sem := Sem) capacities t max_inflight timeout i d) /\
  offers_all router0 (whole_started (Sem := Sem) capacities t max_inflight timeout i d).
Proof.
  intros (Hlanes & _ & _) Hp. split.
  - unfold linked, forwards. simpl. rewrite length_fmap, (Forall2_length _ _ _ Hlanes), Hp. split; [|done].
    f_equal. clear Hp. destruct router0 as [ls m]. unfold relane_all. simpl in *. f_equal.
    induction Hlanes as [|[n rt c ms] capacity ls cs [Hc Hms] _ IH]; [done|]. simpl in *. rewrite Hc, Hms. unfold relane at 1. simpl. f_equal. exact IH.
  - intros j lane l _ Hj. simpl in *. rewrite list_lookup_fmap in Hj.
    destruct (capacities !! j); simplify_eq/=. unfold still_publishing. simpl.
    by rewrite map_collect_empty.
Qed.

Lemma link_invariant (router0 : ProxyRouter C) capacities t max_inflight timeout i d x :
  fresh router0 capacities -> proxy i = Some router0 ->
  link_reachable to_vec render instant_max registered io_text capacities t max_inflight timeout i d x ->
  linked router0 x /\ offers_all router0 x /\
  Whole.reachable to_vec render instant_max registered io_text capacities t max_inflight timeout i d x.
Proof.
  intros Hf Hp. pose proof Hf as (_ & Hm & Hnd). revert x. apply rtc_ind_r.
  - destruct (fresh_linked router0 capacities t max_inflight timeout i d Hf Hp).
    split_and!; [done..|apply rtc_refl].
  - intros y z _ [e Hs] (Hl & Ho & Hr). split_and!.
    + by eapply link_step_linked.
    + by eapply link_step_offers.
    + unfold Whole.reachable. etrans; [exact Hr|]. by eapply link_run.
Qed.
End link_lemmas.

(** What [spawn_router] makes. *)
Definition capacities_of (cfg : ProxySettings) : list Z :=
  map (fun _ => Z.max (queue_capacity cfg) 1) (routes cfg).

Lemma spawned_fresh {C} `{ChannelOps C ExportRequest} {E} max_permits too_large
    (build : ProxyRoute -> Z -> result unit E) cfg (router0 : ProxyRouter C) :
  spawn_router max_permits too_large build cfg = Ok router0 -> NoDup (claimed (routes cfg)) ->
  fresh router0 (capacities_of cfg) /\ map lane_route (lanes router0) = routes cfg.
Proof.
  unfold spawn_router, capacities_of. destruct (_ <? _); [done|].
  set (cap := Z.max (queue_capacity cfg) 1).
  destruct (try_for_each _ [] (routes cfg)) as [ls|] eqn:El; [|done]. simpl. intros [= <-] Hnd.
  assert (map lane_route ls = routes cfg /\
    Forall2 (fun lane capacity => sender lane = channel_new capacity /\ lane_metrics lane = metrics_default)
      ls (map (fun _ => cap) (routes cfg))) as [Hr Hl].
  { revert El. apply (try_for_each_ind _ (fun done ls => map lane_route ls = done /\
      Forall2 (fun lane capacity => sender lane = channel_new capacity /\ lane_metrics lane = metrics_default)
        ls (map (fun _ => cap) done))); [by split|].
    intros before route s s' [Hr Hl] Hs. destruct (build _ _); [|done]. injection Hs as <-.
    rewrite !map_app, Hr. split; [done|]. apply Forall2_app; [done|]. by repeat constructor. }
  split; [|done]. split; [done|]. split; [done|]. simpl. by rewrite Hr.
Qed.

Lemma capacities_positive cfg : Forall (fun capacity => 1 <= capacity) (capacities_of cfg).
Proof.
  apply Forall_forall. intros c (route & -> & _)%list_elem_of_fmap. lia.
Qed.

(** * Properties *)

(** C7. Nothing recorded is lost on the way upstream.  From the start of the process, over
    every interleaving of requests, record tasks, workers, upstreams and the shutdown, each route is
    accounted for exactly: the requests it sent, failed or dropped, the one its worker has in
    hand, those queued and those whose task is about to offer them are together as many as
    there are counted batches with a resource of that route; what its channel took are such
    shares, none twice; and what clients were told to be recorded is among the counted.  When
    the process has exited, sent, failed and dropped alone make up the number. *)
Theorem recorded_is_forwarded `{World, NaiveDates, ChannelLaws C ExportRequest, SemaphoreLaws Sem, Toml,
    Crates, Binder, EnvFilters} `{Codecs} `{!Requests} `{Tonic}
    race show parse env vars d d1 notices settings (sink : SinkInner C) writers cfg
    to_vec render instant_max registered io_text t x j route l :
  main_ race show parse env vars d = (d1, notices, Ok (Main.Serving settings sink writers)) ->
  s_proxy settings = Some cfg ->
  link_reachable (Sem := Sem) to_vec render instant_max registered io_text (capacities_of cfg) t
    (s_max_inflight_requests settings) (s_receive_timeout settings) sink d1 x ->
  routes cfg !! j = Some route -> workers (proc x) !! j = Some l ->
  let m := metrics (body l) in
  let due := Z.of_nat (length (shares route (counted (store (rcv x))))) in
  sent_total m + failed_total m + dropped_total m + abandoned_of (worker_phase (body l)) +
    Z.of_nat (length (option_list (current (worker_phase (body l))))) +
    Z.of_nat (length (pending (chan (body l)))) +
    Z.of_nat (length (shares route (still_publishing x))) = due /\
  accepted (body l) ⊆+ shares route (counted (store (rcv x))) /\
  acknowledged (answers (rcv x)) ⊆+ counted (store (rcv x)) /\
  (forall res, main_at (proc x) = Exited res -> sent_total m + failed_total m + dropped_total m = due).
Proof.
  intros Hmain Hcfg Hr Hroute Hl.
  destruct (main_opens _ _ _ _ _ _ _ _ _ _ _ Hmain) as (varf & router & Hopen & Hstart & ? & ? & ? & ? & Hm).
  apply open_sink_proxy in Hopen as Hproxy. pose proof (merged_claims _ _ _ _ _ _ Hm Hcfg) as Hnd.
  unfold start_router in Hstart. rewrite Hcfg in Hstart.
  destruct (spawn_router _ _ _ cfg) as [router0|] eqn:Es; [|done]. injection Hstart as <-.
  destruct (spawned_fresh _ _ _ _ _ Es Hnd) as [Hf Hlanes].
  destruct (link_invariant _ _ _ _ _ _ _ _ _ _ _ _ _ Hf Hproxy Hr) as (_ & Ho & Hw).
  destruct (whole_parts _ _ _ _ _ _ _ _ _ _ _ _ Hw) as [Hp Hrcv].
  destruct (receiving_reachable _ _ _ _ _ _ _ _ Hrcv) as (Hx & _ & _).
  assert (exists lane, lanes router0 !! j = Some lane /\ lane_route lane = route) as (lane & Hlane & <-).
  { rewrite <- Hlanes, list_lookup_fmap in Hroute. destruct (lanes router0 !! j) as [lane|]; [|done].
    simplify_eq/=. by exists lane. }
  destruct (Ho j lane l Hlane Hl) as [Hcount Hacc]. simpl.
  assert (WorkerInv (body l)) as Hinv.
  { destruct (lookup_lt_is_Some_2 (capacities_of cfg) j) as [capacity Hc].
    { rewrite <- (inv_length _ _ Hp). by eapply lookup_lt_Some. }
    apply (inv_worker _ _ Hp j l capacity Hl Hc).
    by apply (Forall_lookup_1 _ _ _ _ (capacities_positive cfg) Hc). }
  split; [|split; [|split]].
  - pose proof (inv_count _ Hinv) as Hn. rewrite Hcount. unfold offered.
    rewrite (inv_order _ Hinv), !length_app. lia.
  - etrans; [|exact Hacc]. by apply submseteq_inserts_r.
  - rewrite (inv_ledger _ Hx). unfold noted. by apply submseteq_inserts_r.
  - intros res Hexit. assert (main_at (proc x) <> Process.Serving) as Hend by (by rewrite Hexit).
    destruct (settled_reachable _ _ _ _ _ _ _ _ _ _ _ _ Hw (inv_returned _ _ Hp Hend)) as (_ & Ht & _).
    destruct (exited_worker _ _ _ _ _ (capacities_positive cfg) Hp Hexit Hl) as [_ Hsum].
    rewrite Hsum, Hcount. unfold still_publishing. rewrite Ht, map_collect_empty. simpl. lia.
Qed.

(** ** A run to evaluate examples with *)

#[local] Existing Instance sample_world.
#[local] Existing Instance sample_dates.
#[local] Existing Instance sample_codecs.
#[local] Existing Instance sample_tonic.
#[local] Existing Instance counter_semaphore_laws.
#[local] Existing Instance sample_toml.
#[local] Existing Instance sample_binder.
#[local] Existing Instance sample_filters.

(** Every JSON body is a record of Claude Code, whose logs go upstream. *)
Definition claude_logs : ExportLogsServiceRequest :=
  {| resource_logs := [{| rl_resource := sample_resource "claude-code"; rl_scope_logs := [] |}] |}.
Definition claude : batch := BLogs claude_logs.
Definition claude_requests : Requests := {|
  traces_message := undecodable;
  metrics_message := undecodable;
  logs_message := {| prost_decode _ := Err "tag"%string; from_slice _ := Ok claude_logs |};
  traces_grpc := unserved;
  metrics_grpc := unserved;
  logs_grpc := sample_grpc_message;
|}.
#[local] Existing Instance claude_requests.

Definition upstream_cli : Cli :=
  mkCli None None None None (Some 1) None (Some "log"%string) None None (Some true) None (Some true)
    None false (Some "https://a:4317"%string) None [] None None [] None.

Definition claude_route : ProxyRoute :=
  mkRoute ROUTE_ANTHROPIC DEFAULT_ANTHROPIC_SERVICES ALL Grpc "https://a:4317" [].
Definition upstream_router : ProxyRouter (list_channel ExportRequest) :=
  router_new [mkLane ROUTE_ANTHROPIC claude_route (channel_new 1024) metrics_default].
Definition upstream_sink : SinkInner (list_channel ExportRequest) := set_proxy sample_sink (Some upstream_router).
Definition upstream_main :=
  main_ (C := list_channel ExportRequest) id (fun _ => "addr"%string) (fun _ => Ok upstream_cli) sample_start
    sample_vars quiet_disk.
Definition upstream_settings : Settings :=
  match upstream_main.2 with Ok (Main.Serving s _ _) => s | _ => quiet_settings end.
Definition upstream_cfg : ProxySettings :=
  default (mkProxySettings 0 0 0 "" []) (s_proxy upstream_settings).

Lemma upstream_main_serves :
  upstream_main = (sample_disk, [], Ok (Main.Serving upstream_settings upstream_sink [])).
Proof. vm_compute. reflexivity. Qed.

(** The sink after each step of the task. *)
Definition upstream_inner (n : nat) : SinkInner (list_channel ExportRequest) :=
  let persisted := (persist sample_to_vec sample_env claude upstream_sink sample_disk).1.1 in
  match n with
  | 0 => upstream_sink
  | 1 => persisted
  | 2 => (count claude persisted).1
  | _ => publish sample_render claude false (count claude persisted).1
  end%nat.
Definition upstream_at (p : option phase) (n : nat) (d : Disk) (tasks : gmap nat stage)
    (persisted counted : list batch) : receiving (list_channel ExportRequest) Z :=
  mkReceiving
    (Admission.mkReceiver (mkLimits 0 0 8 (secs 5)) {[0%nat := Holding 0]} 0)
    (mkServer (upstream_inner n) d true tasks persisted counted)
    (from_option (fun p => {[0%nat := set_phase stalled_handler p]}) ∅ p) [] [].
Definition upstream_done : receiving (list_channel ExportRequest) Z :=
  mkReceiving
    (Admission.mkReceiver (mkLimits 1 0 8 (secs 5)) ∅ 0)
    (mkServer (upstream_inner 3) sample_written true ∅ [claude] [claude])
    {[0%nat := set_phase stalled_handler (Answering claude (Ok tt))]} [] [].

Definition upstream_life (w : route (list_channel ExportRequest)) : life (list_channel ExportRequest) :=
  mkLife w 0 false 0.
Definition claude_request : ExportRequest := ExportLogs claude_logs.
Definition idle_route : route (list_channel ExportRequest) := spawned 1024.
Definition sending_claude : route (list_channel ExportRequest) :=
  mkRouteState (mkChannel [] 1024 false) metrics_default (Sending claude_request) [claude_request] [] 0.
Definition upstream_process (w : route (list_channel ExportRequest)) : process (list_channel ExportRequest) :=
  mkProcess (launched 0) [upstream_life w] Process.Serving.
Definition forwarded : whole (list_channel ExportRequest) Z :=
  mkWhole (upstream_process sending_claude) (relink [upstream_life sending_claude] upstream_done).

Definition upstream_link : whole_event -> whole (list_channel ExportRequest) Z -> whole (list_channel ExportRequest) Z -> Prop :=
  link_step sample_to_vec sample_render (secs 1000000) (fun _ => true) (fun _ => "io"%string).
Definition upstream_receives : action -> receiving (list_channel ExportRequest) Z -> receiving (list_channel ExportRequest) Z -> Prop :=
  Receiving.step sample_to_vec sample_render (secs 1000000).

Lemma receives_to a w w' r r' r'' :
  a <> Tick -> a <> Upkeep -> upstream_receives a r r'' -> r'' = r' -> room (upstream_life w) ->
  told (published a r) (upstream_process w) r = upstream_process w' ->
  upstream_link (InReceiver a) (mkWhole (upstream_process w) r) (mkWhole (upstream_process w') r').
Proof.
  intros Ha Hu Hs <- Hroom <-. apply link_receiver; [by apply whole_receiver|done|by constructor].
Qed.

#[local] Ltac by_receiver rule :=
  eexists; eapply receives_to; [| |rule| | |]; [done|done|reflexivity..].

Lemma forwarded_reachable :
  link_reachable sample_to_vec sample_render (secs 1000000) (fun _ => true) (fun _ => "io"%string)
    (capacities_of upstream_cfg) 0 1 (secs 5) upstream_sink sample_disk forwarded.
Proof.
  pose (h p := set_phase stalled_handler p).
  pose (at_ r := mkWhole (upstream_process idle_route) r : whole (list_channel ExportRequest) Z).
  apply (rtc_l _ _ (at_ (upstream_at (Some Admitting) 0 sample_disk ∅ [] []))).
  { by_receiver ltac:(apply (step_arrive _ _ _ _ 0%nat (OverHttp Json) Logs (secs 5) (Holding 0));
      [reflexivity..|by left|split_and!; [by apply (Admission.step_admit_now _ 0%nat 0)|reflexivity..]]). }
  apply (rtc_l _ _ (at_ (upstream_at (Some (Reading [])) 0 sample_disk ∅ [] []))).
  { by_receiver ltac:(by apply (step_read _ _ _ _ 0%nat (h Admitting))). }
  apply (rtc_l _ _ (at_ (upstream_at (Some (Submitting claude)) 0 sample_disk ∅ [] []))).
  { by_receiver ltac:(by apply (step_decoded _ _ _ _ 0%nat (h (Reading [])) [] claude)). }
  apply (rtc_l _ _ (at_ (upstream_at (Some (Awaiting claude)) 0 sample_disk {[0%nat := Writing claude]} [] []))).
  { by_receiver ltac:(eapply (step_submit _ _ _ _ 0%nat (h (Submitting claude))); [reflexivity..|by apply Sink.step_begin|reflexivity]). }
  apply (rtc_l _ _ (at_ (upstream_at (Some (Awaiting claude)) 1 sample_written {[0%nat := Counting claude]} [claude] []))).
  { by_receiver ltac:(eapply (step_task _ _ _ _ 0%nat (Writing claude) (Counting claude)); [reflexivity..
      |by apply (Sink.step_persist _ _ _ 0%nat claude sample_env (upstream_inner 1) sample_written)|reflexivity]). }
  apply (rtc_l _ _ (at_ (upstream_at (Some (Awaiting claude)) 2 sample_written
    {[0%nat := Publishing claude false]} [claude] [claude]))).
  { by_receiver ltac:(eapply (step_task _ _ _ _ 0%nat (Counting claude) (Publishing claude false)); [reflexivity..
      |by apply (Sink.step_count _ _ _ 0%nat claude (upstream_inner 2))|reflexivity]). }
  apply (rtc_l _ _ (mkWhole (upstream_process (offer idle_route claude_request)) upstream_done)).
  { by_receiver ltac:(eapply (step_recorded _ _ _ _ 0%nat claude); [reflexivity
      |by apply (Sink.step_publish _ _ _ 0%nat claude false)|reflexivity
      |exists 0%nat; split; [reflexivity|split_and!; [by apply (Admission.step_drop_last _ 0%nat)|reflexivity..]]]). }
  apply rtc_once. exists (InProcess (WorkerDoes 0 Polled)).
  apply (link_process _ _ _ _ _ _ _ (upstream_process sending_claude)); [done|].
  apply whole_process; [done..|].
  eapply told_to; [eapply (process_worker _ _ 0%nat); [reflexivity|done|done|]|reflexivity].
  by apply (life_recv (upstream_life (offer idle_route claude_request))).
Qed.

Lemma recorded_is_forwarded_witness :
  counted (store (rcv forwarded)) = [claude] /\
  shares claude_route [claude] = [claude_request] /\
  accepted sending_claude ⊆+ [claude_request].
Proof.
  split; [reflexivity|]. split; [reflexivity|].
  exact (proj1 (proj2 (recorded_is_forwarded id (fun _ => "addr"%string) (fun _ => Ok upstream_cli) sample_start
    sample_vars quiet_disk sample_disk [] upstream_settings upstream_sink [] upstream_cfg sample_to_vec sample_render
    (secs 1000000) (fun _ => true) (fun _ => "io"%string) 0 forwarded 0 claude_route (upstream_life sending_claude)
    upstream_main_serves eq_refl forwarded_reachable eq_refl eq_refl))).
Defined.
