(* ===== verification/Private.v ===== *)
(** * Who may read what the program writes ([restrict_new_file_mode], [create_private_dir])

    Logs, human-readable output and configuration hold personal data and credentials.  Here the
    operations of [Io], [Path], [Storage], [Config], [Rotation] and [Sink] are seen from the
    permission bits alone: what the program creates is for its owner only, from [init] and the
    start to every later day, whatever fails. *)

From Stdlib Require Import Strings.Byte.
From S2P Require Import Prelude Io Otlp AggState AggIngest AggBatch Storage Health Pretty Target Unicode Path Config Admission Cli Channel Router Client Rotation Sink Server Main.

Local Open Scope Z_scope.
Local Open Scope io_scope.

(** ** The program at work *)

(** The receiver, and the task that writes the daily files of human-readable text; both write to
    the one disk. *)
Record outputs `{NaiveDates} (C : Type) := mkOutputs { receiver_ : Sink.server (C := C); pretty_file : option DailyWriter }.
Arguments mkOutputs {_ _} _ _.
Arguments receiver_ {_ _} _.
Arguments pretty_file {_ _} _.

(** The task begins with the file [from_settings_with_proxy] opened. *)
Definition file_target `{NaiveDates} (targets : list PrettyTarget) : option DailyWriter :=
  head (omap (fun t => match t with TargetFile w => Some w | TargetStdout => None end) targets).

Section outputs_step.
Context `{World} `{NaiveDates} {C : Type} `{ChannelOps C ExportRequest}.
Context (to_vec : batch -> option (list byte)) (render : batch -> bool -> string).

Definition set_disk (x : Sink.server (C := C)) (d : Disk) : Sink.server :=
  mkServer (inner x) d (Sink.admission x) (Sink.tasks x) (persisted x) (counted x).

(** [write_blocking] writes a text, perhaps a summary, and flushes ([Target.write_blocking_file]);
    between its calls the receiver goes on.  A write reads the dates of [clock], on any later
    day. *)
Inductive outputs_step : outputs C -> outputs C -> Prop :=
| step_receiver x y w : Sink.step to_vec render x y -> outputs_step (mkOutputs x w) (mkOutputs y w)
| step_pretty_write x w text clock s r :
    daily_write_all text (mkDailyState (disk x) w clock) = (s, r) ->
    outputs_step (mkOutputs x (Some w)) (mkOutputs (set_disk x (ds_disk s)) (Some (ds_writer s)))
| step_pretty_flush x w clock s r :
    daily_flush (mkDailyState (disk x) w clock) = (s, r) ->
    outputs_step (mkOutputs x (Some w)) (mkOutputs (set_disk x (ds_disk s)) (Some (ds_writer s))).

(** Once the receiver serves. *)
Definition outputs_reachable (sink : SinkInner C) (targets : list PrettyTarget) (d : Disk) : outputs C -> Prop :=
  rtc outputs_step (mkOutputs (started sink d) (file_target targets)).
End outputs_step.

(** ** Specification *)

(** The file has the mode of one that the program created. *)
Definition private_file (d : Disk) (path : string) : Prop :=
  exists m, file_modes (perms d) !! path = Some m /\ owner_only m.

Section guarded.
(** What other processes do while [init] looks, and the disk the program met. *)
Context (race : gmap string (list byte) -> gmap string (list byte)) (d0 : Disk).

(** The files that were there, or that another process made; and those no other process removed. *)
Definition there (p : string) : Prop := is_Some (files d0 !! p) \/ is_Some (race (files d0) !! p).
Definition kept (p : string) : Prop := is_Some (files d0 !! p) /\ is_Some (race (files d0) !! p).

Record Guarded (d : Disk) : Prop := {
  guarded_files p : is_Some (files d !! p) -> there p \/ private_file d p;
  guarded_modes p : p ∉ created (perms d) -> file_modes (perms d) !! p = file_modes (perms d0) !! p;
  guarded_created p : p ∈ created (perms d) -> private_file d p;
  guarded_kept p : kept p -> is_Some (files d !! p) \/ p ∈ removed (perms d);
  guarded_new p : p ∈ created (perms d) -> kept p -> p ∈ removed (perms d);
  guarded_dirs p m :
    dir_modes (perms d) !! p = Some m -> dir_modes (perms d0) !! p = Some m \/ owner_only m;
  guarded_old_dirs p m : dir_modes (perms d0) !! p = Some m -> dir_modes (perms d) !! p = Some m;
}.

(** A file the program holds open. *)
Definition known (d : Disk) (h : string) : Prop := there h \/ private_file d h.

(** Between the two disks only the contents changed, and no file came but perhaps this one. *)
Definition rewrites (h : string) (d d' : Disk) : Prop :=
  perms d' = perms d /\ (forall p, is_Some (files d' !! p) -> is_Some (files d !! p) \/ p = h) /\
  forall p, is_Some (files d !! p) -> is_Some (files d' !! p).

Definition writes_to {A} (h : string) (m : io Disk A) : Prop := forall d, rewrites h d (m d).1.

(** ** Writing to a file that is open *)

Lemma rewrites_refl h d : rewrites h d d.
Proof. split_and!; auto. Qed.

Lemma rewrites_trans h d d' d'' : rewrites h d d' -> rewrites h d' d'' -> rewrites h d d''.
Proof.
  intros (E1 & H1 & K1) (E2 & H2 & K2). split; [congruence|]. split; [|by auto]. intros p Hp.
  destruct (H2 p Hp) as [Hp'|]; [by apply H1|by right].
Qed.

Lemma rewrites_set h bs d : rewrites h d (set_files d (<[h := bs]> (files d))).
Proof.
  split; [done|]. split; intros p; simpl; rewrite lookup_insert; case_decide; auto.
Qed.

Lemma writes_to_ret {A} h (a : A) : writes_to h (io_ret a).
Proof. intros d. apply rewrites_refl. Qed.

Lemma writes_to_bind {A B} h (m : io Disk A) (k : A -> io Disk B) :
  writes_to h m -> (forall a, writes_to h (k a)) -> writes_to h (let! x := m in k x).
Proof.
  intros Hm Hk d. unfold io_bind. specialize (Hm d). destruct (m d) as [d1 [a|e]]; simpl in *; [|done].
  eapply rewrites_trans; [exact Hm|apply Hk].
Qed.

Lemma with_fault_writes_to {A} h partial (op : Disk -> Disk * result A ErrorKind) :
  (forall n d, rewrites h d (partial n d)) -> (forall d, rewrites h d (op d).1) ->
  writes_to h (with_fault partial op).
Proof.
  intros Hp Ho d. destruct (with_fault_cases partial op d) as (rest & [E|[n E]]); rewrite E.
  - apply (rewrites_trans _ _ (mkDisk (files d) (cursor d) (synced d) rest (perms d))); [|apply Ho].
    split_and!; auto.
  - apply (rewrites_trans _ _ (mkDisk (files d) (cursor d) (synced d) rest (perms d))); [|apply Hp].
    split_and!; auto.
Qed.

Lemma unharmed_writes_to {A} h (op : Disk -> Disk * result A ErrorKind) :
  (forall d, rewrites h d (op d).1) -> writes_to h (with_fault unharmed op).
Proof. apply with_fault_writes_to. intros n d. apply rewrites_refl. Qed.

#[local] Hint Resolve rewrites_refl rewrites_set writes_to_ret : core.

Lemma metadata_writes_to h p : writes_to h (metadata_len p).
Proof. by apply unharmed_writes_to. Qed.

Lemma seek_writes_to h p n : writes_to h (seek_start p n).
Proof. apply unharmed_writes_to. intros d. split_and!; auto. Qed.

Lemma read_writes_to h p n : writes_to h (read_exact p n).
Proof. apply unharmed_writes_to. intros d. simpl. case_match; [|done]. split_and!; auto. Qed.

Lemma set_len_writes_to h n : writes_to h (set_len h n).
Proof. apply unharmed_writes_to. intros d. simpl. auto. Qed.

Lemma write_all_writes_to h bs : writes_to h (write_all h bs).
Proof. apply with_fault_writes_to; intros; unfold append_bytes; simpl; auto. Qed.

Lemma flush_writes_to h p : writes_to h (flush p).
Proof. by apply unharmed_writes_to. Qed.

Lemma sync_writes_to h p : writes_to h (sync_all p).
Proof. apply unharmed_writes_to. intros d. split_and!; auto. Qed.

#[local] Hint Resolve metadata_writes_to seek_writes_to read_writes_to set_len_writes_to
  write_all_writes_to flush_writes_to sync_writes_to writes_to_bind : core.

Lemma truncate_writes_to h n : writes_to h (truncate h n).
Proof. simpl. auto. Qed.

Lemma find_valid_len_writes_to h fuel e : writes_to h (find_valid_len h fuel e).
Proof.
  revert e. induction fuel as [|fuel IH]; intros e; simpl; [auto|]. case_match; [auto|].
  apply writes_to_bind; [auto|]. intros _. apply writes_to_bind; [auto|]. intros buf.
  case_match; auto.
Qed.

Lemma recover_tail_writes_to h : writes_to h (recover_tail h).
Proof.
  apply writes_to_bind; [auto|]. intros len. apply writes_to_bind; [apply find_valid_len_writes_to|].
  intros n. case_match; [apply truncate_writes_to|auto].
Qed.

Lemma repair_rewrites t d :
  let '(d', t', _) := repair t d in file t' = file t /\ rewrites (file t) d d'.
Proof.
  unfold repair. destruct (rollback t) as [n|]; [|by split].
  pose proof (truncate_writes_to (file t) n d) as H.
  by destruct (truncate (file t) n d) as [d' [[]|e]].
Qed.

Lemma append_rewrites t bs d :
  let '(d', t', _) := append t bs d in file t' = file t /\ rewrites (file t) d d'.
Proof.
  unfold append. pose proof (repair_rewrites t d) as Hr.
  destruct (repair t d) as [[d1 t1] [[]|e]]; destruct Hr as [Et H1]; [|by split]. rewrite <- Et in *.
  pose proof (metadata_writes_to (file t1) (file t1) d1) as H2.
  change (append_start (file t1) d1) with (metadata_len (file t1) d1).
  destruct (metadata_len (file t1) d1) as [d2 [start|e]]; simpl in H2;
    pose proof (rewrites_trans _ _ _ _ H1 H2) as H12; [|by split].
  assert (writes_to (file t1) (storage_write_all (file t1) bs ;! storage_flush (file t1))) as Hw
    by (apply writes_to_bind; simpl; auto).
  specialize (Hw d2).
  destruct ((storage_write_all (file t1) bs ;! storage_flush (file t1)) d2) as [d3 [[]|e]]; simpl in Hw;
    pose proof (rewrites_trans _ _ _ _ H12 Hw) as H3; [by split|].
  pose proof (truncate_writes_to (file t1) start d3) as H4.
  destruct (truncate (file t1) start d3) as [d4 [[]|e']]; simpl in H4;
    (split; [done|by eapply rewrites_trans]).
Qed.

(** It leaves the disk guarded and the file known. *)
Lemma rewrites_known h d d' : rewrites h d d' -> known d h -> known d' h.
Proof. unfold known, private_file. by intros [-> _]. Qed.

Lemma rewrites_guarded h d d' : rewrites h d d' -> known d h -> Guarded d -> Guarded d'.
Proof.
  intros (Ep & Hf & Hkeep) Hk [G1 G2 G2' G5 G6 G3 G4]. split; unfold private_file in *; rewrite ?Ep; auto.
  - intros p Hp. destruct (Hf p Hp) as [Hp'| ->]; [by apply G1|done].
  - intros p Hp. destruct (G5 p Hp); auto.
Qed.

(** ** Creating *)

Lemma owner_only_diff m u : owner_only m -> owner_only (Z.ldiff m u).
Proof.
  unfold owner_only. intros E. rewrite Z.ldiff_land, <- Z.land_assoc, (Z.land_comm (Z.lnot u)), Z.land_assoc, E.
  apply Z.land_0_l.
Qed.

(** Only the files and the bits matter. *)
Lemma guarded_same d d' : files d' = files d -> perms d' = perms d -> Guarded d -> Guarded d'.
Proof.
  intros Ef Ep []. split; unfold private_file in *; rewrite ?Ef, ?Ep; done.
Qed.

Lemma with_fault_guarded {A} partial (op : Disk -> Disk * result A ErrorKind) d :
  (forall n d, Guarded d -> Guarded (partial n d)) -> (forall d, Guarded d -> Guarded (op d).1) ->
  Guarded d -> Guarded (with_fault partial op d).1.
Proof.
  intros Hp Ho Hd. destruct (with_fault_cases partial op d) as (rest & [E|[n E]]); rewrite E; simpl;
    [apply Ho|apply Hp]; by apply (guarded_same d).
Qed.

(** What is known stays so. *)
Lemma open_keeps_known o path d h :
  owner_only (opt_mode o) -> known d h -> known (open_with o path d).1 h.
Proof.
  intros Ho Hk. unfold open_with.
  match goal with |- context [with_fault ?p ?f ?d] => fault_cases (with_fault p f d) end; simpl; [|done].
  repeat case_match; try done. destruct Hk as [Ht|(m & Hm & Hp)]; [by left|right].
  unfold private_file. simpl. rewrite lookup_insert. case_decide; [|by exists m].
  eexists. split; [done|]. by apply owner_only_diff.
Qed.

(** A new file is the owner's; one that was there keeps its bits. *)
Lemma open_guarded o path d :
  owner_only (opt_mode o) -> Guarded d ->
  Guarded (open_with o path d).1 /\
  (is_ok (open_with o path d).2 = true -> known (open_with o path d).1 path).
Proof.
  intros Ho Hd. unfold open_with.
  match goal with |- context [with_fault ?p ?f ?d] => fault_cases (with_fault p f d) end; simpl;
    [|by split; [apply (guarded_same d)|]].
  set (d1 := mkDisk _ _ _ rest _). change (perms d) with (perms d1). change (files d) with (files d1).
  assert (Guarded d1) as Hd1 by (by apply (guarded_same d)). clearbody d1. clear Hd.
  destruct (dir_modes (perms d1) !! path); [by split|]. destruct (files d1 !! path) as [bytes|] eqn:Ef.
  - assert (known d1 path) as Hk by (apply (guarded_files _ Hd1); by rewrite Ef).
    destruct (opt_create_new o); [by split|]. destruct (opt_truncate o); [|by split]. split; [|done].
    apply (rewrites_guarded path d1); [apply rewrites_set|done|done].
  - destruct (_ || _); [|by split]. split.
    + destruct Hd1 as [G1 G2 G2' G5 G6 G3 G4]. split; unfold private_file in *; simpl; [| | | | |done..].
      * intros p. rewrite !lookup_insert. case_decide as Hp; [|by apply G1].
        intros _. right. eexists. split; [done|]. by apply owner_only_diff.
      * intros p Hp. rewrite lookup_insert_ne by set_solver. apply G2. set_solver.
      * intros p Hc. rewrite lookup_insert. case_decide as Hp; [|apply G2'; set_solver].
        eexists. split; [done|]. by apply owner_only_diff.
      * intros p Hp. rewrite lookup_insert. case_decide; [by left; eexists|by apply G5].
      * intros p [->%elem_of_singleton|Hc]%elem_of_union Hp; [|by apply G6].
        destruct (G5 path Hp) as [[x Hx]|]; [|done]. by rewrite Ef in Hx.
    + intros _. right. eexists. simpl. rewrite lookup_insert_eq. split; [done|]. by apply owner_only_diff.
Qed.

Lemma make_dirs_guarded l d :
  Forall (fun q => dir_modes (perms d0) !! q = None) l -> Guarded d -> Guarded (foldl make_dir d l).
Proof.
  intros Hl. revert d. induction Hl as [|q l Hq Hl IH]; intros d Hd; simpl; [done|]. apply IH.
  destruct Hd as [G1 G2 G2' G5 G6 G3 G4]. split; unfold private_file in *; simpl; [done..| |].
  - intros p m. rewrite lookup_insert. case_decide; [|by apply G3]. intros [= <-]. right.
    by apply (owner_only_diff 448 (umask (perms d))).
  - intros p m Hm. rewrite lookup_insert_ne; [by apply G4|]. intros ->. congruence.
Qed.

Lemma missing_dirs_new path d :
  Guarded d -> Forall (fun q => dir_modes (perms d0) !! q = None) (missing_dirs path d).
Proof.
  intros Hd. unfold missing_dirs. apply Forall_forall. intros q Hq.
  apply list_elem_of_In, List.filter_In in Hq as [_ Hq].
  apply andb_true_iff in Hq as [_ Hq]. apply negb_true_iff, bool_decide_eq_false, eq_None_not_Some in Hq.
  destruct (dir_modes (perms d0) !! q) as [m|] eqn:E; [|done].
  apply (guarded_old_dirs _ Hd) in E. congruence.
Qed.

Lemma create_private_dir_guarded dir d : Guarded d -> Guarded (create_private_dir dir d).1.
Proof.
  intros Hd. apply with_fault_guarded; [| |done].
  - intros n d' Hd'. apply make_dirs_guarded; [|done]. by apply Forall_take, missing_dirs_new.
  - intros d' Hd'. simpl. case_match; [done|]. apply make_dirs_guarded; [|done]. by apply missing_dirs_new.
Qed.

Lemma create_private_dir_modes dir d :
  file_modes (perms (create_private_dir dir d).1) = file_modes (perms d).
Proof.
  unfold create_private_dir.
  match goal with |- context [with_fault ?p ?f ?d] => fault_cases (with_fault p f d) end; simpl.
  - case_match; [done|]. by edestruct make_dirs_only as [m ->].
  - by edestruct make_dirs_only as [m ->].
Qed.

Lemma create_parent_guarded path d : Guarded d -> Guarded (create_parent path d).1.
Proof.
  intros Hd. unfold create_parent. destruct (parent path) as [dir|]; [|done].
  destruct (str_is_empty dir); [done|]. by apply create_private_dir_guarded.
Qed.

Lemma append_file_open_guarded path d :
  Guarded d ->
  let '(d', r) := append_file_open path d in
  Guarded d' /\ match r with Ok t => file t = path /\ known d' path | Err _ => True end.
Proof.
  intros Hd. unfold append_file_open, io_bind, open_file.
  match goal with |- context [open_with ?o path d] => set (options := o) end.
  destruct (open_guarded options path d eq_refl Hd) as [H1 Hk]. pose proof (open_with_handle options path d) as Hh.
  destruct (open_with options path d) as [d1 [h|e]]; simpl in *; [|done].
  rewrite (Hh d1 h eq_refl). pose proof (recover_tail_writes_to path d1) as H2.
  destruct (recover_tail path d1) as [d2 [[]|e]]; simpl in *.
  - split; [by eapply rewrites_guarded; [..|by apply Hk|]|]. split; [done|]. by eapply rewrites_known, Hk.
  - split; [by eapply rewrites_guarded; [..|by apply Hk|]|done].
Qed.

Lemma append_file_open_keeps h path d : known d h -> known (append_file_open path d).1 h.
Proof.
  intros Hk. unfold append_file_open, io_bind, open_file.
  match goal with |- context [open_with ?o path d] => set (options := o) end.
  pose proof (open_keeps_known options path d h eq_refl Hk) as H1.
  destruct (open_with options path d) as [d1 [p|e]]; simpl in *; [|done].
  pose proof (recover_tail_writes_to p d1) as H2.
  destruct (recover_tail p d1) as [d2 [[]|e]]; simpl in *;
    (destruct H2 as [Ep _]; unfold known, private_file in *; by rewrite Ep).
Qed.

Lemma append_file_probe_guarded path d : Guarded d -> Guarded (append_file_probe path d).1.
Proof.
  intros Hd. unfold append_file_probe, io_bind, open_file.
  match goal with |- context [open_with ?o path d] => set (options := o) end.
  destruct (open_guarded options path d eq_refl Hd) as [H1 _].
  by destruct (open_with options path d) as [d1 []].
Qed.
End guarded.

(** ** Daily files and the sink *)

Section sink_guarded.
Context (race : gmap string (list byte) -> gmap string (list byte)) (d0 : Disk).
Context `{World} `{NaiveDates} {C : Type} `{ChannelOps C ExportRequest}.

#[local] Abbreviation Guarded := (Guarded race d0).
#[local] Abbreviation known := (known race d0).

(** The other files held open meanwhile. *)
Context (other : string -> Prop).

(** The disk is guarded and the files that are open known. *)
Definition guards (d : Disk) (h : string) : Prop :=
  Guarded d /\ known d h /\ forall p, other p -> known d p.

Lemma rewrites_others h d d' :
  rewrites h d d' -> (forall p, other p -> known d p) -> forall p, other p -> known d' p.
Proof. intros [Ep _] Ho p Hp. specialize (Ho p Hp). unfold Private.known, private_file in *. by rewrite Ep. Qed.

Lemma rewrites_guards h d d' : rewrites h d d' -> guards d h -> guards d' h.
Proof.
  intros Hr (Hd & Hk & Ho). split; [by eapply rewrites_guarded|]. split; [by eapply rewrites_known|].
  by eapply rewrites_others.
Qed.

Lemma rotate_guards w date d :
  guards d (file (dw_file w)) ->
  let '(d', w', _) := rotate w date d in guards d' (file (dw_file w')).
Proof.
  intros Hg. unfold rotate. pose proof (repair_rewrites (dw_file w) d) as Hr.
  destruct (repair (dw_file w) d) as [[d1 f] [[]|e]]; destruct Hr as [Ef Hr]; simpl;
    apply (rewrites_guards _ _ _ Hr) in Hg; rewrite <- Ef in Hg; [|done].
  assert (guards ((if dw_sync_on_rotate w then daily_sync_all (set_dw_file w f) else io_ret tt) d1).1 (file f))
    as Hg2.
  { eapply rewrites_guards; [|exact Hg]. destruct (dw_sync_on_rotate w); [|apply rewrites_refl].
    apply sync_writes_to. }
  simpl. destruct (_ d1) as [d2 [[]|e]]; simpl in *; [|done].
  pose proof (append_file_open_guarded race d0 (daily_path (dw_dir w) (dw_prefix w) (dw_suffix w) date) d2
    (proj1 Hg2)) as Ho.
  pose proof (fun h => append_file_open_keeps race d0 h
    (daily_path (dw_dir w) (dw_prefix w) (dw_suffix w) date) d2) as Hk.
  destruct Hg2 as (_ & Hf & Hothers). destruct (append_file_open _ d2) as [d3 [t|e]]; simpl in *.
  - destruct Ho as (Hd3 & Et & Hk3). rewrite Et. unfold guards. auto.
  - destruct Ho as [Hd3 _]. unfold guards. auto.
Qed.

Lemma append_at_guards w bs date d :
  guards d (file (dw_file w)) ->
  let '(d', w', _) := append_at w bs date d in guards d' (file (dw_file w')).
Proof.
  intros Hg. unfold append_at.
  assert (let '(d', w', _) := if decide (dw_date w = date) then (d, w, Ok tt) else rotate w date d in
    guards d' (file (dw_file w'))) as Hr by (case_decide; [done|by apply rotate_guards]).
  destruct (if decide _ then _ else _) as [[d1 w1] [[]|e]]; [|done].
  pose proof (append_rewrites (dw_file w1) bs d1) as Ha.
  destruct (append (dw_file w1) bs d1) as [[d2 f] r]. destruct Ha as [Ef Ha]. simpl. rewrite Ef.
  by eapply rewrites_guards.
Qed.

(** The files that go take nothing with them. *)
Lemma clean_up_guarded view keep d : Guarded d -> Guarded (clean_up view keep d).1.
Proof.
  clear other. intros [G1 G2 G2' G5 G6 G3 G4]. unfold clean_up. destruct (cleanup_old_rotated_logs _ _ _ _ _) as [gone r].
  split; unfold private_file in *; simpl; [|done|done| | |done..].
  - intros p [bs Hp]. apply map_lookup_filter_Some in Hp as [Hp _]. apply G1. by exists bs.
  - intros p Hp. destruct (decide (p ∈ gone)); [right; set_solver|].
    destruct (G5 p Hp) as [[bs E]|]; [left; exists bs; by apply map_lookup_filter_Some|right; set_solver].
  - intros p Hc Hp. specialize (G6 p Hc Hp). set_solver.
Qed.

Lemma clean_up_guards h view keep d : guards d h -> guards (clean_up view keep d).1 h.
Proof.
  intros (Hg & Hk & Ho). split; [by apply clean_up_guarded|]. unfold clean_up.
  by destruct (cleanup_old_rotated_logs _ _ _ _ _).
Qed.

Lemma write_line_guards env w line d :
  guards d (log_handle w) -> let '(d', w', _) := write_line env w line d in guards d' (log_handle w').
Proof.
  intros Hg. destruct w as [t|w]; simpl in *.
  - pose proof (append_rewrites t line d) as Ha. destruct (append t line d) as [[d' t'] r].
    destruct Ha as [Ef Ha]. simpl. rewrite Ef. by eapply rewrites_guards.
  - assert (let '(d', w') := cleanup_if_day_changed env w d in guards d' (file (dw_file (roller w'))))
      as Hc.
    { unfold cleanup_if_day_changed. destruct (last_cleanup_day w =? julian_day env); [done|]. by apply clean_up_guards. }
    destruct (cleanup_if_day_changed env w d) as [d1 w1].
    pose proof (append_at_guards (roller w1) line (today env) d1 Hc) as Ha.
    destruct (append_at (roller w1) line (today env) d1) as [[d2 daily] [[]|e]]; [|done].
    pose proof (flush_writes_to (file (dw_file daily)) (file (dw_file daily)) d2) as Hf.
    destruct (flush (file (dw_file daily)) d2) as [d3 r]. simpl in *. by eapply rewrites_guards.
Qed.

Context (to_vec : batch -> option (list byte)) (render : batch -> bool -> string).

(** A sink whose log, if it has one, is known, as the other open files. *)
Definition tended (s : SinkInner C) (d : Disk) : Prop :=
  Guarded d /\ (forall w, sink_file s = Some w -> known d (log_handle w)) /\ forall p, other p -> known d p.

Lemma persist_tended env r s d :
  tended s d -> let '(s', d', _) := persist to_vec env r s d in tended s' d'.
Proof.
  intros (Hd & Hs & Ho). unfold persist. destruct (sink_file s) as [w|] eqn:Es; [|by split; [|rewrite Es]].
  assert (let '(d', w', _) := write_jsonl to_vec env w r d in guards d' (log_handle w')) as Hw.
  { unfold write_jsonl. destruct (to_vec r) as [json|]; [|by split; [|split; [apply Hs|]]].
    pose proof (write_line_guards env w (json ++ [x0a]) d (conj Hd (conj (Hs w eq_refl) Ho))) as Hl.
    by destruct (write_line env w (json ++ [x0a]) d) as [[d' w'] res]. }
  destruct (write_jsonl to_vec env w r d) as [[d' w'] res]. destruct Hw as (Hd' & Hk & Ho').
  destruct (match res with Ok _ => _ | Err _ => _ end). split; [done|]. split; [by intros ? [= <-]|done].
Qed.

Lemma sink_flush_tended s now w1 w2 d :
  tended s d -> let '(d', _, _) := sink_flush s now w1 w2 d in tended s d'.
Proof.
  intros (Hd & Hs & Ho). unfold sink_flush. destruct (sink_file s) as [w|] eqn:Es; [|by split; [|rewrite Es]].
  assert (rewrites (log_handle w) d (writer_sync w d).1) as Hw.
  { destruct w as [t|w]; simpl; [apply sync_writes_to|]. apply writes_to_bind; [apply flush_writes_to|].
    intros _. apply sync_writes_to. }
  destruct (writer_sync w d) as [d' res]. simpl in Hw. split.
  - by eapply rewrites_guarded; [|apply Hs|].
  - rewrite Es. split; [intros ? [= <-]; by eapply rewrites_known, Hs|]. by eapply rewrites_others.
Qed.

(** Only the handlers' writes and the last sync reach the disk. *)
Lemma sink_step_tended x y :
  Sink.step to_vec render x y -> tended (inner x) (disk x) -> tended (inner y) (disk y).
Proof.
  intros Hs Hx. assert (forall s, sink_file s = sink_file (inner x) -> tended s (disk x)) as Hsame.
  { intros s E. destruct Hx as (Hd & Hk & Ho). split; [done|]. by rewrite E. }
  destruct Hs as [x t r E Hadm|x t r env s d E Ep|x t r env s d e E Ep|x t r s ws E Ec
    |x t r ws E|x s Hc|x E|x now w1 w2 d res drains Hadm Ef]; simpl; try done.
  - pose proof (persist_tended env r _ _ Hx) as Hp. by rewrite Ep in Hp.
  - pose proof (persist_tended env r _ _ Hx) as Hp. by rewrite Ep in Hp.
  - apply Hsame. pose proof (count_core r (inner x)) as Hc. rewrite Ec in Hc. apply Hc.
  - apply Hsame, Hc.
  - pose proof (sink_flush_tended (inner x) now w1 w2 _ Hx) as Hp. by rewrite Ef in Hp.
Qed.
End sink_guarded.

(** ** [main] *)

Section main_guarded.
Context (race : gmap string (list byte) -> gmap string (list byte)) (d0 : Disk).

#[local] Abbreviation Guarded := (Guarded race d0).
#[local] Abbreviation known := (known race d0).

Lemma with_context_guarded {A} (f : ErrorKind -> OpenError) (m : io Disk A) d :
  Guarded (m d).1 -> Guarded (with_context f m d).1.
Proof. unfold with_context. by destruct (m d) as [d' []]. Qed.

Lemma open_log_file_guarded path d :
  Guarded d ->
  let '(d', r) := open_log_file_sync path d in
  Guarded d' /\ match r with Ok t => known d' (file t) | Err _ => True end.
Proof.
  intros Hd. unfold open_log_file_sync.
  pose proof (with_context_guarded (CreateDirectory path) _ _ (create_parent_guarded race d0 path d Hd)) as H1.
  destruct (with_context (CreateDirectory path) _ d) as [d1 [[]|e]]; [|done].
  pose proof (append_file_open_guarded race d0 path d1 H1) as H2. unfold with_context.
  destruct (append_file_open path d1) as [d2 [t|e]]; destruct H2 as [H2 Hk]; [|done].
  split; [done|]. destruct Hk as [-> Hk]. exact Hk.
Qed.

Lemma probe_log_file_guarded path d : Guarded d -> Guarded (probe_log_file path d).1.
Proof.
  intros Hd. unfold probe_log_file.
  pose proof (with_context_guarded (CreateDirectory path) _ _ (create_parent_guarded race d0 path d Hd)) as H1.
  destruct (with_context (CreateDirectory path) _ d) as [d1 [[]|e]]; [|done].
  by apply with_context_guarded, append_file_probe_guarded.
Qed.

Context `{World} `{NaiveDates} {C : Type} `{ChannelOps C ExportRequest}.

Lemma at_date_guarded dir prefix suffix date d :
  Guarded d ->
  let '(d', r) := at_date dir prefix suffix date d in
  Guarded d' /\ match r with Ok w => known d' (file (dw_file w)) | Err _ => True end.
Proof.
  intros Hd. unfold at_date, io_bind.
  pose proof (append_file_open_guarded race d0 (daily_path dir prefix suffix date) d Hd) as Ho.
  destruct (append_file_open _ d) as [d1 [t|e]]; [|done]. destruct Ho as (Hd1 & Et & Hk).
  split; [done|]. simpl. by rewrite Et.
Qed.

Lemma open_rotated_guarded view date day dir keep d :
  Guarded d ->
  let '(d', r) := open_rotated_sync view date day dir keep d in
  Guarded d' /\ match r with Ok w => known d' (file (dw_file (roller w))) | Err _ => True end.
Proof.
  intros Hd. unfold open_rotated_sync.
  pose proof (with_context_guarded (CreateDirectory dir) _ _ (create_private_dir_guarded race d0 dir d Hd)) as Hg.
  destruct (with_context (CreateDirectory dir) _ d) as [d1 [[]|e]]; [|done].
  pose proof (clean_up_guarded race d0 view (Z.max keep 1) d1 Hg) as Hc.
  destruct (clean_up view _ d1) as [d2 [[]|e]]; [|done].
  pose proof (at_date_guarded dir ROTATION_PREFIX None date d2 Hc) as Ha.
  unfold with_context. by destruct (at_date _ _ _ _ d2) as [d3 [w|e]].
Qed.

Lemma open_pretty_guarded date dir d :
  Guarded d ->
  let '(d', r) := open_pretty_log_sync date dir d in
  Guarded d' /\ match r with Ok w => known d' (file (dw_file w)) | Err _ => True end.
Proof.
  intros Hd. unfold open_pretty_log_sync.
  pose proof (with_context_guarded (CreateDirectory dir) _ _ (create_private_dir_guarded race d0 dir d Hd)) as Hg.
  destruct (with_context (CreateDirectory dir) _ d) as [d1 [[]|e]]; [|done].
  pose proof (at_date_guarded dir PRETTY_LOG_PREFIX (Some PRETTY_LOG_SUFFIX) date d1 Hg) as Ha.
  unfold with_context. by destruct (at_date _ _ _ _ d1) as [d2 [w|e]].
Qed.

Lemma open_pretty_keeps h date dir d : known d h -> known (open_pretty_log_sync date dir d).1 h.
Proof.
  intros Hk. unfold open_pretty_log_sync.
  assert (known (with_context (CreateDirectory dir) (create_private_dir dir) d).1 h) as Hc.
  { unfold with_context. pose proof (create_private_dir_modes dir d) as Em.
    destruct (create_private_dir dir d) as [d1 [[]|e]]; simpl in *;
      unfold known, private_file in *; by rewrite Em. }
  destruct (with_context (CreateDirectory dir) _ d) as [d1 [[]|e]]; [|done].
  pose proof (append_file_open_keeps race d0 h
    (daily_path dir PRETTY_LOG_PREFIX (Some PRETTY_LOG_SUFFIX) date) d1 Hc) as Ho.
  unfold with_context, at_date, io_bind. by destruct (append_file_open _ d1) as [d2 [t|e]].
Qed.

Lemma open_jsonl_guarded env log_sink d :
  Guarded d ->
  let '(d', r) := open_jsonl env log_sink d in
  Guarded d' /\ match r with Ok (Some w) => known d' (log_handle w) | _ => True end.
Proof.
  intros Hd. unfold open_jsonl. destruct log_sink as [[path|dir keep]|]; [| |done].
  - pose proof (open_log_file_guarded path d Hd) as Ho. by destruct (open_log_file_sync path d) as [d1 [t|e]].
  - pose proof (open_rotated_guarded (dir_view env dir) (start_today env) (start_julian_day env)
      dir keep d Hd) as Ho. by destruct (open_rotated_sync _ _ _ dir keep d) as [d1 [w|e]].
Qed.

(** The file of human-readable text that is open. *)
Definition holds_open (w : option DailyWriter) (p : string) : Prop :=
  exists w', w = Some w' /\ p = file (dw_file w').

Lemma from_settings_guarded env varf settings router d :
  Guarded d ->
  let '(d', r) := from_settings_with_proxy (C := C) env varf settings router d in
  Guarded d' /\
  match r with
  | Ok (sink, targets) => tended race d0 (holds_open (file_target targets)) sink d'
  | Err _ => True
  end.
Proof.
  intros Hd. unfold from_settings_with_proxy. pose proof (open_jsonl_guarded env (s_log_sink settings) d Hd) as Ho.
  destruct (open_jsonl env _ d) as [d1 [file_|e]]; [|done]. destruct Ho as [Hd1 Hk].
  assert (file_target (if negb (s_no_stdout settings) then
    (Some (mkDest output_spawn (enabled_for_stdout (s_color settings) varf (stdout_is_terminal env))), [TargetStdout])
    else (None, [])).2 = None) as Ht by by destruct (s_no_stdout settings).
  destruct (if negb _ then _ else _) as [out targets]. simpl in Ht.
  assert (forall p, ~ holds_open (file_target targets) p) as Hnone by (intros p (w & E & _); by rewrite Ht in E).
  assert (forall w, file_ = Some w -> known d1 (log_handle w)) as Hw by (by intros w ->).
  destruct (s_pretty_log_dir settings) as [dir|];
    [|split; [done|]; split; [done|]; split; [done|by intros p ?%Hnone]].
  pose proof (open_pretty_guarded (start_today env) dir d1 Hd1) as Hp.
  assert (forall w, file_ = Some w -> known (open_pretty_log_sync (start_today env) dir d1).1 (log_handle w)) as Hw2
    by (intros w Ew; by apply open_pretty_keeps, Hw).
  destruct (open_pretty_log_sync _ dir d1) as [d2 [roller_|e]]; destruct Hp as [Hd2 Hk2]; [|done].
  split; [done|]. split; [done|]. split; [done|]. intros p (w & Ew & ->). revert Ew. unfold file_target in *.
  rewrite omap_app. apply head_None in Ht as ->. by intros [= <-].
Qed.

Lemma probe_settings_guarded scan date log_sink pretty d :
  Guarded d -> Guarded (probe_settings scan date log_sink pretty d).1.
Proof.
  intros Hd. unfold probe_settings.
  match goal with |- context [let '(_, _) := ?m in _] => assert (Guarded m.1) as Hm end.
  { destruct log_sink as [[path|dir keep]|]; [by apply probe_log_file_guarded| |done].
    pose proof (with_context_guarded (CreateDirectory dir) _ _ (create_private_dir_guarded race d0 dir d Hd)) as Hg.
    destruct (with_context (CreateDirectory dir) _ d) as [d1 [[]|e]]; [|done].
    destruct (scan dir); [|done]. by apply probe_log_file_guarded. }
  destruct (match log_sink with None => _ | Some _ => _ end) as [d1 [[]|e]]; simpl in Hm; [|done].
  destruct pretty; [|done]. by apply probe_log_file_guarded.
Qed.

Lemma start_guarded `{Binder} show env h settings router d :
  Guarded d ->
  let '(d', _, r) := start (C := C) show env h settings router d in
  Guarded d' /\
  match r with
  | Ok (Serving _ sink targets) => tended race d0 (holds_open (file_target targets)) sink d'
  | _ => True
  end.
Proof.
  intros Hd. unfold start. destruct (s_dry_run settings).
  - pose proof (probe_settings_guarded (scan_result env) (start_today env) (s_log_sink settings)
      (s_pretty_log_dir settings) d Hd) as Hp.
    destruct (probe_settings _ _ _ _ d) as [d1 [[]|e]]; [|done]. by destruct (probe_binds _ _ _ _) as [[]|].
  - pose proof (from_settings_guarded env (var_os h) settings router d Hd) as Hf.
    by destruct (from_settings_with_proxy env _ settings router d) as [d1 [[sink writers]|e]].
Qed.
End main_guarded.

(** ** The program at work *)

Section outputs_guarded.
Context (race : gmap string (list byte) -> gmap string (list byte)) (d0 : Disk).
Context `{World} `{NaiveDates} {C : Type} `{ChannelOps C ExportRequest}.
Context (to_vec : batch -> option (list byte)) (render : batch -> bool -> string).

Definition outputs_tended (o : outputs C) : Prop :=
  tended race d0 (holds_open (pretty_file o)) (inner (receiver_ o)) (disk (receiver_ o)).

(** The writer of human-readable text on its own file, whatever the receiver holds open. *)
Lemma daily_write_guards other text w clock d :
  guards race d0 other d (file (dw_file w)) ->
  let '(s, _) := daily_write_all text (mkDailyState d w clock) in
  guards race d0 other (ds_disk s) (file (dw_file (ds_writer s))).
Proof.
  intros Hg. unfold daily_write_all. destruct (String.list_byte_of_string text) as [|b bs]; [done|].
  pose proof (append_at_guards race d0 other w (b :: bs) (default (dw_date w) (head clock)) d Hg) as Ha.
  simpl in *. by destruct (append_at _ _ _ d) as [[d' w'] r].
Qed.

Lemma outputs_step_tended o o' :
  outputs_step to_vec render o o' -> outputs_tended o -> outputs_tended o'.
Proof.
  intros Hs Ho. destruct Hs as [x y w Hs|x w text clock s r Ew|x w clock s r Ew].
  - exact (sink_step_tended race d0 _ to_vec render x y Hs Ho).
  - destruct Ho as (Hd & Hk & Hw). pose (logs p := exists w, sink_file (inner x) = Some w /\ p = log_handle w).
    assert (guards race d0 logs (disk x) (file (dw_file w))) as Hg.
    { split; [done|]. split; [apply Hw; by exists w|]. intros p (l & El & ->). by apply Hk. }
    pose proof (daily_write_guards logs text w clock (disk x) Hg) as Hx. rewrite Ew in Hx.
    destruct Hx as (Hd' & Hk' & Hl). split; [done|]. split; [intros l El; apply Hl; by exists l|].
    by intros p (w' & [= <-] & ->).
  - destruct Ho as (Hd & Hk & Hw). unfold daily_flush in Ew. cbn [ds_disk ds_writer] in Ew.
    pose proof (flush_writes_to (file (dw_file w)) (file (dw_file w)) (disk x)) as Hf.
    assert (known race d0 (disk x) (file (dw_file w))) as Hkw by (apply Hw; by exists w).
    destruct (flush (file (dw_file w)) (disk x)) as [d' r'] eqn:Ef. injection Ew as <- <-. cbn [fst] in Hf.
    split; [by eapply rewrites_guarded|]. cbn. split; [intros l El|intros p (w' & [= <-] & ->)].
    + destruct Hf as (Ep & _). specialize (Hk l El). unfold known, private_file in *. simpl. by rewrite Ep.
    + by eapply rewrites_known.
Qed.
End outputs_guarded.

(** * Properties *)

Lemma met_guarded race d : created (perms d) = ∅ -> Guarded race d d.
Proof.
  intros E. split; auto; rewrite ?E; [by left; left|..]; try (by intros p ?%elem_of_empty). by left; apply H.
Qed.

Lemma init_guarded race path force profile d :
  created (perms d) = ∅ -> Guarded race d (write_with_profile race path force profile d).1.
Proof.
  intros Hd%(met_guarded race).
  unfold write_with_profile. pose proof (create_parent_guarded _ _ path d Hd) as H1.
  pose proof (create_parent_files path d) as F1. unfold create_parent in H1.
  destruct (_ d) as [d1 [[]|e]]; simpl in H1, F1; [|done].
  assert (files (pre_existing path d1).1 = files d1 /\ perms (pre_existing path d1).1 = perms d1) as [F2 P2].
  { unfold pre_existing. by fault_cases (with_fault unharmed (fun d => (d, @Ok bool ErrorKind (is_there path d))) d1). }
  destruct (pre_existing path d1) as [d2 b]. simpl in F2, P2.
  set (d3 := set_files d2 (race (files d2))).
  assert (Guarded race d d3) as H3.
  { destruct H1 as [G1 G2 G2' G5 G6 G3 G4]. split; unfold private_file in *; simpl; rewrite ?P2; [|done|done| |done..].
    - intros p Hp. left. right. by rewrite F2, F1 in Hp.
    - intros p [_ Hp]. left. by rewrite F2, F1. }
  destruct (open_guarded _ _ (init_options force) path d3 eq_refl H3) as [H4 Hk].
  unfold open_for_init. destruct (open_with (init_options force) path d3) as [d4 [h|e]]; simpl in *; [|by destruct e].
  match goal with |- context [write_all path ?bs d4] => pose proof (write_all_writes_to path bs d4) as Hw;
    destruct (write_all path bs d4) as [d5 [[]|e]]; simpl in * end;
    by (eapply rewrites_guarded; [exact Hw|by apply Hk|exact H4]).
Qed.

(** C15. What the program creates is for its owner only: whatever [main] does - write a
    configuration, probe, or start to receive - and in every state of the receiver and of the
    writer of human-readable text after that, on every later day and whatever fails, no file or
    directory that the program made can be read, written or searched by the group or by others.
    A file that the program did not create keeps the very bits it had, also when it is opened,
    written to, cut or emptied, and a file that was there counts as created only if the program
    had removed it first, as its retention does; otherwise it stays there.  Directories that
    were there keep their bits. *)
Theorem created_is_private `{World, NaiveDates, ChannelOps C ExportRequest, Toml, Crates, Binder,
    SemaphoreOps Sem, EnvFilters} race show parse env vars d to_vec render :
  created (perms d) = ∅ ->
  let '(d1, _, r) := main_ (C := C) race show parse env vars d in
  Guarded race d d1 /\
  forall settings sink writers o,
    r = Ok (Serving settings sink writers) -> outputs_reachable to_vec render sink writers d1 o ->
    Guarded race d (disk (receiver_ o)).
Proof.
  intros Hnew.
  assert (let '(d1, _, r) := main_ (C := C) race show parse env vars d in
    Guarded race d d1 /\
    match r with
    | Ok (Serving _ sink targets) => tended race d (holds_open (file_target targets)) sink d1
    | _ => True
    end) as Hmain.
  { assert (Guarded race d d) as Hd by by apply met_guarded.
    unfold main_. destruct (parse _) as [cli|]; [|done]. destruct (init_tracing _ _); [|done].
    destruct (command cli) as [[path force daemon]|].
    { destruct (dry_run cli); [done|]. unfold run_init.
      destruct (match or_else path (Cli.config cli) with None => _ | Some _ => _ end) as [dest|]; [|done].
      pose proof (init_guarded race dest force (if daemon then ProfileDaemon else ProfileDefault) d Hnew) as Hi.
      by destruct (write_with_profile _ _ _ _ d) as [d1 [o|e]]. }
    unfold start_receiver. destruct (load _ _) as [cfg|]; [|done].
    destruct (merge _ _ cli cfg) as [settings|]; [|done]. destruct (runtime_built env); [|done].
    destruct (start_router settings) as [router|]; [|done].
    pose proof (start_guarded race d (C := C) show env (host_of (clear_empty_otel_logger_env vars) d)
      settings router d Hd) as Hs.
    by destruct (start _ _ _ settings router d) as [[d1 told] r]. }
  destruct (main_ race show parse env vars d) as [[d1 told] r]. destruct Hmain as [Hd1 Hs]. split; [done|].
  intros settings sink writers o -> Hr.
  enough (outputs_tended race d o) as [? _] by done.
  revert o Hr. apply rtc_ind_r; [done|]. intros o o' _ Hoo IH. by eapply outputs_step_tended.
Qed.

(** ** Witness *)

#[local] Existing Instance sample_world.
#[local] Existing Instance sample_dates.
#[local] Existing Instance sample_toml.
#[local] Existing Instance sample_binder.
#[local] Existing Instance sample_filters.

(** Started with the umask of a group that shares, on a directory whose log of today others may
    read. *)
Definition shared_cli : Cli :=
  mkCli None None None None None None None (Some "logs"%string) None (Some true) (Some true) None
    None false None None [] None None [] None.
Definition old_log : string := "logs/otel-logger.2026-07-01".
Definition shared_disk : Disk :=
  mkDisk {[old_log := [x61]]} 0 ∅ [] (mkPermissions 2 {[old_log := 420]} {["logs"%string := 509]} ∅ ∅).
Definition shared_main :=
  main_ (C := list_channel ExportRequest) id (fun _ => "addr"%string) (fun _ => Ok shared_cli) sample_start
    sample_vars shared_disk.
Definition shared_sink : SinkInner (list_channel ExportRequest) :=
  match shared_main.2 with Ok (Main.Serving _ sink _) => sink | _ => sample_sink end.
Definition shared_targets : list PrettyTarget :=
  match shared_main.2 with Ok (Main.Serving _ _ targets) => targets | _ => [] end.
Definition shared_writer : DailyWriter :=
  default (mkDaily "" "" None "" (mkAppend "" None) false)%string (file_target shared_targets).

(** A text is written on the next day. *)
Definition next_dates : list (@NaiveDate sample_dates) := ["2026-07-02"%string].
Definition written_next : daily_state :=
  (daily_write_all "text" (mkDailyState shared_main.1.1 shared_writer next_dates)).1.
Definition shared_next : outputs (list_channel ExportRequest) :=
  mkOutputs (set_disk (started shared_sink shared_main.1.1) (ds_disk written_next)) (Some (ds_writer written_next)).

Lemma shared_next_reachable :
  outputs_reachable sample_to_vec sample_render shared_sink shared_targets shared_main.1.1 shared_next.
Proof.
  apply rtc_once. replace (file_target shared_targets) with (Some shared_writer) by (vm_compute; reflexivity).
  apply (step_pretty_write _ _ _ _ "text" next_dates _
    (daily_write_all "text" (mkDailyState shared_main.1.1 shared_writer next_dates)).2).
  apply surjective_pairing.
Qed.

Lemma created_is_private_witness :
  file_modes (perms (disk (receiver_ shared_next))) =
    {[old_log := 420; "logs/otel-logger.pretty.2026-07-01.log"%string := 384;
      "logs/otel-logger.pretty.2026-07-02.log"%string := 384]} /\
  Guarded id shared_disk (disk (receiver_ shared_next)).
Proof.
  split; [vm_compute; reflexivity|].
  pose proof (created_is_private (C := list_channel ExportRequest) id (fun _ => "addr"%string)
    (fun _ => Ok shared_cli) sample_start sample_vars shared_disk sample_to_vec sample_render eq_refl) as H.
  fold shared_main in H. pose proof shared_next_reachable as Hr.
  assert (exists settings, shared_main.2 = Ok (Main.Serving settings shared_sink shared_targets)) as [settings E]
    by (eexists; vm_compute; reflexivity).
  rewrite (surjective_pairing shared_main), (surjective_pairing shared_main.1) in H.
  exact (proj2 H settings shared_sink shared_targets shared_next E Hr).
Defined.
